(* ===== verification/_CoqProject ===== *)
-Q . S2P
Prelude.v
GlobalDefs.v
Floats.v
MemRegion.v
VirtualSpace.v
MutableSpace.v
MutableSpacePar.v
BitMap.v
BitMapPar.v
BitMapSearch.v
ParMarkBitMap.v
Container.v
GenQueue.v
GenQueuePar.v
RefQueue.v
RefQueuePar.v
BDARegion.v
KlassRegionMap.v
ObjectStartArray.v
CollectedHeap.v
PromotionLAB.v
CompactData.v
Compaction.v
Summarize.v
NewPointers.v
CGRPSpace.v
MutableBDASpace.v
BDALayout.v
Segments.v
SegmentPar.v
SummarizeBDA.v
SlideBDA.v
CardTable.v
OldToYoung.v
TaskQueue.v
TaskQueuePar.v
Stealing.v
Stack.v
OverflowQueue.v
Terminator.v
Oops.v
PromotionManager.v
PromotionFailure.v
HeapCopy.v
PromotionSpace.v
ContainerSpace.v
ScavengeBDA.v
ScavengeContainers.v
ForwardPar.v
