(* ===== verification/Prelude.v ===== *)
(** * Verification of the big-data-aware old generation of HotSpot

    The program is a HotSpot virtual machine whose parallel collector places the instances of
    chosen collection classes, and all that they refer to, together in the old generation.  The
    sources are under [src/bdavm/src/share/vm]; file names below are relative to it.

    ** The program

    The flag [BDAKlasses] lists class names.  [KlassRegionMap] gives each a region identifier.  The
    old generation, [MutableBDASpace], is a list of spaces: one for general objects and one, a
    [CGRPSpace], for each class.  A space hands out segments, each with a header, the container, and
    keeps the headers in a [GenQueue]; the segments of one collection form a chain.  Mutators leave
    references to new collections in a [RefQueue].  A scavenge takes them from there, copies each
    collection to a new container, and copies the objects it leads to into the chain of that container,
    through a buffer of each thread ([BDAOldPromotionLAB]).  Its work is in stacks that overflow, from
    which other threads steal until all agree to stop.  References from old to young objects are
    found by scanning cards: in the segments by one task, in the memory between them by another.  A
    full collection marks in a bit map, adds up the live data of each region, decides where each
    region goes, and computes new addresses; the spaces of containers have a summary of their own.

    ** The files

    Foundations.  This file: machine integers as [Z] with their wrap-around, the state and failure
    monad [M], loops with a bound of [2 ^ n] turns, and lemmas on lists and finite maps.
    [GlobalDefs] and [Floats]: [utilities/globalDefinitions.hpp] and the floating-point formats.
    [MemRegion]: [memory/memRegion.hpp].  [BitMap], [BitMapSearch], [BitMapPar]:
    [utilities/bitMap.*].

    Memory.  [VirtualSpace]: [psVirtualspace.*].  [MutableSpace], [MutableSpacePar]:
    [gc_implementation/shared/mutableSpace.*].  [ObjectStartArray]: [objectStartArray.*].
    [CollectedHeap]: the filler objects of [gc_interface/collectedHeap.cpp].  [PromotionLAB]:
    [psPromotionLAB.*] and [bda/bdaOldPromotionLAB.*].

    Collections.  [BDARegion] and [Container]: [bda/bdaGlobals.*].  [KlassRegionMap]:
    [oops/klassRegionMap.*].  [GenQueue], [GenQueuePar]: [bda/gen_queue.hpp].  [RefQueue],
    [RefQueuePar]: [bda/refqueue.*].  [CGRPSpace], [MutableBDASpace]: the operations of
    [bda/mutableBDASpace.*]; [BDALayout], [Segments], [SegmentPar]: their theorems.

    Full collection.  [ParMarkBitMap]: [parMarkBitMap.*].  [CompactData]: [ParallelCompactData] of
    [psParallelCompact.*]; [Compaction], [Summarize], [NewPointers]: its theorems.  [SummarizeBDA]:
    [summarize_bda_regions]; [SlideBDA]: its theorems.

    Scavenge.  [TaskQueue], [TaskQueuePar], [Stealing], [OverflowQueue], [Terminator]:
    [utilities/taskqueue.*]; [Stack]: [utilities/stack.*].  [Oops]: mark words, layouts and tasks.
    [PromotionManager]: the path for collections of [psPromotionManager.*] and
    [bda/bdaScavenge.inline.hpp]; [PromotionFailure], [HeapCopy], [PromotionSpace], [ContainerSpace],
    [ScavengeBDA], [ScavengeContainers], [ForwardPar]: its theorems.  [CardTable]:
    [cardTableExtension.*].  [OldToYoung]: the tasks of [bda/bdaTasks.cpp].

    ** How code becomes definitions

    A [HeapWord*] is its byte address.  A struct is a record with the names of its fields, and an
    operation is a function in the monad [M] of the state it changes.  A failed [guarantee], an
    access outside of an array and a dereference of [NULL] give no result ([None]); assertions of
    debug builds are left out.  Where threads race, a thread is a program counter with its local
    variables, and a step is one access to shared memory.  The memory that the collector copies is a
    function from addresses to words.  Code outside the repository and code of other components is a
    parameter or an interface: the answers of the operating system, the allocator of the C heap, the
    sizes of objects for the start array, the card memory shared by the tasks ([CardMemory]), and what
    the promotion relies on of the old generation ([OldSpace] with [OldSpaceLaws]), which
    [ContainerSpace] proves of the spaces of containers.

    ** What is shown

    - Full collection: marking adds up the live words ([marking_adds_up]), the summary sends the
      regions where their data goes ([summarize_places]), and the new addresses slide the live
      objects together in their order ([compaction_slides]).  Containers of one size with live data
      slide to the first ones of their space ([containers_slide]).
    - Scavenge: the task of the reference queue ends, copies exactly what can be reached, once, into
      the space of its collection, and the copies refer to each other as the originals did
      ([promotion_copies_graph]); threads that promote one object agree on one copy
      ([forward_race]); a failed promotion loses nothing ([promotion_failed_spec]).  The tasks that
      scan cards end and scan every object that is on a dirty card, each once
      ([stripe_scan_spec], [nonbda_task_spec], [bda_task_spec]).
    - Allocation: the layout partitions the generation ([layout_partitions]); new containers and
      elements keep the segments tiled by what was handed out ([allocate_container_spec],
      [allocate_element_spec], [containers_hold_blocks]); racing allocations hand out
      disjoint blocks ([segment_race], [cas_allocate_race]).
    - Data structures: queues, stacks and task queues implement lists, alone
      ([queue_refines_list], [taskqueue_refines_deque], [stack_refines_list]) and with racing threads
      ([enqueue_race], [stealing_race], [par_set_bit_race]); the loops that wait or retry end
      ([enqueue_race_terminates], [segment_race_terminates]), and so do all threads of a phase in every
      fair run with finitely many new tasks ([fair_termination]); no thread stops while there is work
      ([termination_is_safe]).
    - Errors: what the code does against its purpose is proved too ([refqueue_race],
      [unloaded_klass_lookup], [mask_out_element_ptr_right_iff], and the lemmas on single cases
      such as [dead_container_keeps_top] and [jump_into_segment]).

    ** Bounds

    A loop of the code has a bound computed from its arguments, which is larger than the number of
    turns it takes: the cards, blocks or words between two addresses, the headers in the C heap, the
    bits of a word.  The loops of the promotion have a bound of [2 ^ 64] turns; more objects and
    references than that do not fit in memory.  The theorems say that the result is there, so no bound
    is reached.  The tag of a task queue has 32 bits; the theorem on stealing is about the runs that
    have not used it up.  The theorems on copying assume references that are not compressed, objects
    aligned to words, and arrays of at most [2 ^ 27] elements, and that no header of a container is registered
    for memory above the tops of the spaces, as is so until the first full collection;
    [allocate_container_spec] is also about spaces where headers are registered, except for large segments
    over memory of several headers, in which a loop frees some of them.

    ** Not modelled

    The other collectors, the compilers, the interpreter, class loading, the runtime, services, and
    the code of operating systems and processors, which the extension does not change.  Of the
    parallel collector: the drivers of both collections ([psScavenge.cpp], [psTasks.*], [pcTasks.*],
    [gcTaskManager.*]), which start threads and visit the roots of the machine; the copying of
    ordinary objects to the survivor spaces; the move of the data in [psParallelCompact.cpp];
    resizing and verification of the card table; the sizing policies; the serial collection.
    Of the extension: statistics, printing, [BDADataCounters] and [BDASummaryMap], which nothing
    reads, and the templates that nothing instantiates ([bda/bdaTaskqueue.hpp],
    [bda/globals.inline.hpp]).  Compressed references are only modelled in the encoding of tasks.  The
    task of the reference queue is modelled for one thread; with several, [forward_race] covers the
    copying of one object and [segment_race] the allocation. *)

From Stdlib Require Import ZArith Lia.
From stdpp Require Import base numbers strings gmap relations list.

Local Open Scope Z_scope.

(** [lia] reduces [/] and [mod] by constants to their Euclidean equations. *)
Ltac Zify.zify_post_hook ::= Z.to_euclidean_division_equations.

Create HintDb vm discriminated.
Create Rewrite HintDb vm.

(** ** Machine integers

    An unsigned [w]-bit value is its residue in [0, 2^w); a signed one is the
    representative in [-2^(w-1), 2^(w-1)). *)
Definition wrap (w z : Z) : Z := z mod 2 ^ w.

Definition swrap (w z : Z) : Z := (z + 2 ^ (w - 1)) mod 2 ^ w - 2 ^ (w - 1).

Abbreviation u64 := (wrap 64).
Abbreviation u32 := (wrap 32).
Abbreviation u8 := (wrap 8).
Abbreviation i32 := (swrap 32).
Abbreviation i8 := (swrap 8).

Lemma swrap_add w a b : 0 < w -> swrap w (swrap w a + b) = swrap w (a + b).
Proof.
  intros Hw. unfold swrap. f_equal.
  replace ((a + 2 ^ (w - 1)) mod 2 ^ w - 2 ^ (w - 1) + b + 2 ^ (w - 1))
    with ((a + 2 ^ (w - 1)) mod 2 ^ w + b) by lia.
  rewrite Zplus_mod_idemp_l. f_equal. lia.
Qed.

Lemma swrap_small w z : 0 < w -> - 2 ^ (w - 1) <= z < 2 ^ (w - 1) -> swrap w z = z.
Proof.
  intros Hw Hz. unfold swrap. rewrite Z.mod_small; [lia |].
  replace (2 ^ w) with (2 * 2 ^ (w - 1)) by (rewrite <- Z.pow_succ_r by lia; f_equal; lia). lia.
Qed.

Definition is_u64 (z : Z) : Prop := 0 <= z < 2 ^ 64.

#[export] Instance is_u64_dec z : Decision (is_u64 z).
Proof. unfold is_u64. apply _. Defined.

Lemma u64_small z : is_u64 z -> u64 z = z.
Proof. unfold wrap, is_u64. intros. apply Z.mod_small. lia. Qed.

Lemma u64_range z : is_u64 (u64 z).
Proof. unfold wrap, is_u64. apply Z.mod_pos_bound. lia. Qed.

Lemma wrap_range w z : 0 <= w -> 0 <= wrap w z < 2 ^ w.
Proof. intros. apply Z.mod_pos_bound. lia. Qed.

Lemma wrap_small w z : 0 <= z < 2 ^ w -> wrap w z = z.
Proof. intros. by apply Z.mod_small. Qed.

#[export] Hint Resolve u64_range : vm.
#[export] Hint Rewrite u64_small using (unfold is_u64 in *; lia) : vm.

(** Unfold the 64-bit wrap-around and leave the rest to [lia]. *)
Ltac ulia := unfold is_u64, wrap in *; lia.

(** ** Bits *)

(** Bitwise complement of a 64-bit pattern. *)
Definition not64 (x : Z) : Z := u64 (Z.lnot x).

Lemma testbit_wrap w z i :
  0 <= w -> 0 <= i ->
  Z.testbit (wrap w z) i = (i <? w) && Z.testbit z i.
Proof.
  intros Hw Hi. unfold wrap. destruct (Z.ltb_spec i w).
  - by rewrite Z.mod_pow2_bits_low.
  - by rewrite Z.mod_pow2_bits_high by lia.
Qed.

Lemma testbit_not64 x i :
  0 <= i -> Z.testbit (not64 x) i = (i <? 64) && negb (Z.testbit x i).
Proof.
  intros Hi. unfold not64. rewrite testbit_wrap by lia.
  by rewrite Z.lnot_spec.
Qed.

Lemma testbit_high w x i : 0 <= x < 2 ^ w -> w <= i -> Z.testbit x i = false.
Proof.
  intros Hx Hi. destruct (Z.ltb_spec w 0) as [Hw | Hw].
  - rewrite Z.pow_neg_r in Hx by lia. lia.
  - rewrite <- (Z.mod_small x (2 ^ w)) by lia.
    apply Z.mod_pow2_bits_high. lia.
Qed.

Lemma testbit_ones w i : 0 <= w -> 0 <= i -> Z.testbit (Z.ones w) i = (i <? w).
Proof.
  intros. destruct (Z.ltb_spec i w).
  - apply Z.ones_spec_low. lia.
  - apply Z.ones_spec_high. lia.
Qed.

Lemma testbit_pow2 k i : 0 <= k -> Z.testbit (2 ^ k) i = (i =? k).
Proof.
  intros. destruct (Z.eqb_spec i k) as [-> |].
  - by apply Z.pow2_bits_true.
  - apply Z.pow2_bits_false. lia.
Qed.

Lemma bits_range w x :
  0 <= w -> (forall i, w <= i -> Z.testbit x i = false) -> 0 <= x < 2 ^ w.
Proof.
  intros Hw H.
  assert (x = x mod 2 ^ w) as ->.
  { apply Z.bits_inj'. intros i Hi. fold (wrap w x).
    rewrite testbit_wrap by lia. destruct (Z.ltb_spec i w); [done |].
    by rewrite H. }
  apply Z.mod_pos_bound. lia.
Qed.

Lemma land_range w x y : 0 <= w -> 0 <= x < 2 ^ w -> 0 <= Z.land x y < 2 ^ w.
Proof.
  intros. apply bits_range; [done |]. intros i Hi.
  rewrite Z.land_spec, (testbit_high w x) by lia. done.
Qed.

Lemma lor_range w x y :
  0 <= w -> 0 <= x < 2 ^ w -> 0 <= y < 2 ^ w -> 0 <= Z.lor x y < 2 ^ w.
Proof.
  intros. apply bits_range; [done |]. intros i Hi.
  rewrite Z.lor_spec, (testbit_high w x), (testbit_high w y) by lia. done.
Qed.

Lemma shiftr_range w x k : 0 <= k -> 0 <= x < 2 ^ w -> 0 <= Z.shiftr x k < 2 ^ w.
Proof.
  intros Hk [Hx1 Hx2]. rewrite Z.shiftr_div_pow2 by lia. split.
  - apply Z.div_pos; lia.
  - apply Z.le_lt_trans with x; [| done].
    apply Z.div_le_upper_bound; [lia |]. nia.
Qed.

(** Equality of integers by their bits, the bits computed by rewriting. *)
Ltac bits_simpl :=
  repeat (progress (rewrite ?Z.land_spec, ?Z.lor_spec, ?Z.lxor_spec, ?Z.ldiff_spec,
    ?testbit_not64, ?testbit_pow2, ?testbit_wrap, ?Z.shiftr_spec, ?Z.shiftl_spec,
    ?testbit_ones, ?Z.lnot_spec by lia)).

Ltac bits i := apply Z.bits_inj'; intros i ?; bits_simpl.

(** Case analysis on the comparisons that occur in the goal. *)
Ltac case_cmp :=
  repeat match goal with
  | |- context [?a <? ?b] => destruct (Z.ltb_spec a b); simpl
  | |- context [?a <=? ?b] => destruct (Z.leb_spec a b); simpl
  | |- context [?a =? ?b] => destruct (Z.eqb_spec a b); simpl
  end.

(** A positive integer has a bit set. *)
Lemma nonzero_bit x : 0 < x -> exists i, 0 <= i <= Z.log2 x /\ Z.testbit x i = true.
Proof.
  intros. exists (Z.log2 x). split; [pose proof (Z.log2_nonneg x); lia |].
  by apply Z.bit_log2.
Qed.

Lemma zero_bits x : (forall i, 0 <= i -> Z.testbit x i = false) -> x = 0.
Proof. intros. apply Z.bits_inj'. intros. rewrite Z.bits_0. auto. Qed.

(** Prove a decidable closed proposition by evaluation. *)
Ltac decide_now := refine (bool_decide_eq_true_1 _ _); vm_compute; reflexivity.

(** ** Bounded search over the integers

    [find_first f n i] is the first [j] in [i, i + n) with [f j], or [i + n]. *)
Fixpoint find_first (f : Z -> bool) (n : nat) (i : Z) : Z :=
  match n with
  | O => i
  | S n' => if f i then i else find_first f n' (i + 1)
  end.

Lemma find_first_ge f n i : i <= find_first f n i.
Proof.
  revert i. induction n as [| n IH]; intros i; simpl; [lia |].
  destruct (f i); [lia |]. specialize (IH (i + 1)). lia.
Qed.

Lemma find_first_le f n i : find_first f n i <= i + Z.of_nat n.
Proof.
  revert i. induction n as [| n IH]; intros i; simpl; [lia |].
  destruct (f i); [lia |]. specialize (IH (i + 1)). lia.
Qed.

Lemma find_first_false f n i j :
  i <= j < find_first f n i -> f j = false.
Proof.
  revert i. induction n as [| n IH]; intros i; simpl; [lia |].
  destruct (f i) eqn:E; [lia |]. intros.
  destruct (decide (i = j)) as [-> | Hne]; [done |].
  apply (IH (i + 1)). lia.
Qed.

Lemma find_first_true f n i :
  find_first f n i < i + Z.of_nat n -> f (find_first f n i) = true.
Proof.
  revert i. induction n as [| n IH]; intros i; simpl; [lia |].
  destruct (f i) eqn:E; [done |]. intros. apply IH. lia.
Qed.

(** The search result is determined by its specification. *)
Lemma find_first_unique f n i r :
  i <= r <= i + Z.of_nat n ->
  (forall j, i <= j < r -> f j = false) ->
  (r < i + Z.of_nat n -> f r = true) ->
  find_first f n i = r.
Proof.
  intros Hr Hlow Hhigh. pose proof (find_first_ge f n i).
  pose proof (find_first_le f n i).
  destruct (Z.lt_trichotomy (find_first f n i) r) as [H' | [H' | H']]; [| done |].
  - specialize (Hlow (find_first f n i) ltac:(lia)).
    rewrite find_first_true in Hlow by lia. done.
  - rewrite (find_first_false f n i r) in Hhigh by lia.
    by discriminate Hhigh; lia.
Qed.

(** Two predicates that agree on the interval give the same search result. *)
Lemma find_first_ext f g n i :
  (forall j, i <= j < i + Z.of_nat n -> f j = g j) ->
  find_first f n i = find_first g n i.
Proof.
  revert i. induction n as [| n IH]; intros i H; simpl; [done |].
  rewrite H by lia. destruct (g i); [done |]. apply IH. intros. apply H. lia.
Qed.

(** A search over an interval splits at any inner point. *)
Lemma find_first_app f n m i :
  find_first f (n + m) i =
    let r := find_first f n i in
    if r <? i + Z.of_nat n then r else find_first f m (i + Z.of_nat n).
Proof.
  revert i. induction n as [| n IH]; intros i; simpl.
  - rewrite Z.add_0_r. by rewrite Z.ltb_irrefl.
  - destruct (f i) eqn:E.
    + destruct (Z.ltb_spec i (i + Z.of_nat (S n))); [done | lia].
    + rewrite IH. simpl.
      replace (i + 1 + Z.of_nat n) with (i + Z.of_nat (S n)) by lia. done.
Qed.

(** ** Integer ranges as lists *)

(** [zseq i n] is [i; i + 1; ...; i + n - 1]. *)
Fixpoint zseq (i : Z) (n : nat) : list Z :=
  match n with
  | O => []
  | S n' => i :: zseq (i + 1) n'
  end.

Lemma length_zseq i n : length (zseq i n) = n.
Proof. revert i. induction n; intros; simpl; congruence. Qed.

Lemma elem_of_zseq i n x : x ∈ zseq i n <-> i <= x < i + Z.of_nat n.
Proof.
  revert i. induction n as [| n IH]; intros i; simpl.
  - rewrite elem_of_nil. lia.
  - rewrite elem_of_cons, IH. lia.
Qed.

Lemma zseq_app i n m : zseq i (n + m) = zseq i n ++ zseq (i + Z.of_nat n) m.
Proof.
  revert i. induction n as [| n IH]; intros i; simpl.
  - by rewrite Z.add_0_r.
  - rewrite IH. do 3 f_equal. lia.
Qed.

Lemma NoDup_zseq i n : NoDup (zseq i n).
Proof.
  revert i. induction n as [| n IH]; intros i; simpl; constructor; [| apply IH].
  rewrite elem_of_zseq. lia.
Qed.

Lemma lookup_zseq i n k : (k < n)%nat -> zseq i n !! k = Some (i + Z.of_nat k).
Proof.
  revert i k. induction n as [| n IH]; intros i k Hk; [lia |].
  destruct k as [| k]; simpl.
  - f_equal. lia.
  - rewrite IH by lia. f_equal. lia.
Qed.

(** ** Sums *)

Definition zsum (l : list Z) : Z := foldr Z.add 0 l.

(** The sum of [f] over a list. *)
Definition sum_of {A} (f : A -> Z) (l : list A) : Z := zsum (f <$> l).

Lemma zsum_app l1 l2 : zsum (l1 ++ l2) = zsum l1 + zsum l2.
Proof. induction l1; simpl; lia. Qed.

Lemma sum_of_cons {A} (f : A -> Z) x l : sum_of f (x :: l) = f x + sum_of f l.
Proof. done. Qed.

Lemma sum_of_app {A} (f : A -> Z) l1 l2 : sum_of f (l1 ++ l2) = sum_of f l1 + sum_of f l2.
Proof. unfold sum_of. by rewrite fmap_app, zsum_app. Qed.

Lemma sum_of_perm {A} (f : A -> Z) l l' : l ≡ₚ l' -> sum_of f l = sum_of f l'.
Proof. induction 1; rewrite ?sum_of_cons; lia. Qed.

Lemma sum_of_scale {A} (c : Z) (f : A -> Z) l : sum_of (fun x => c * f x) l = c * sum_of f l.
Proof. induction l as [| x l IH]; [unfold sum_of; simpl; lia |]. rewrite !sum_of_cons, IH. lia. Qed.

Lemma sum_of_filter {A} (P : A -> Prop) `{forall x, Decision (P x)} (f : A -> Z) l :
  sum_of f (filter P l) = sum_of (fun x => if decide (P x) then f x else 0) l.
Proof.
  induction l as [| x l IH]; [done |]. rewrite filter_cons, sum_of_cons.
  destruct (decide (P x)); [rewrite sum_of_cons |]; lia.
Qed.

Lemma sum_of_insert {A} (f : A -> Z) l i x y :
  l !! i = Some x -> sum_of f (<[i := y]> l) = sum_of f l - f x + f y.
Proof.
  revert i. induction l as [| z l IH]; intros [| i] H; simplify_eq/=.
  - rewrite !sum_of_cons. lia.
  - rewrite !sum_of_cons, (IH i) by done. lia.
Qed.

Lemma sum_of_ext {A} (f g : A -> Z) l :
  (forall x, x ∈ l -> f x = g x) -> sum_of f l = sum_of g l.
Proof.
  induction l as [| x l IH]; intros H; [done |]. rewrite !sum_of_cons, IH.
  - rewrite H by set_solver. done.
  - intros. apply H. set_solver.
Qed.

Lemma sum_of_le {A} (f g : A -> Z) l :
  (forall x, x ∈ l -> f x <= g x) -> sum_of f l <= sum_of g l.
Proof.
  induction l as [| x l IH]; intros H; [done |]. rewrite !sum_of_cons.
  assert (f x <= g x) by (apply H; set_solver).
  assert (sum_of f l <= sum_of g l) by (apply IH; intros; apply H; set_solver). lia.
Qed.

Lemma sum_of_nonneg {A} (f : A -> Z) l : (forall x, x ∈ l -> 0 <= f x) -> 0 <= sum_of f l.
Proof.
  intros H. transitivity (sum_of (fun _ => 0) l); [| by apply sum_of_le].
  clear H. induction l; [done |]. rewrite sum_of_cons. lia.
Qed.

Lemma sum_of_elem {A} (f : A -> Z) l x :
  (forall y, y ∈ l -> 0 <= f y) -> x ∈ l -> f x <= sum_of f l.
Proof.
  intros Hp Hx. apply list_elem_of_split in Hx as (l1 & l2 & ->).
  rewrite sum_of_app, sum_of_cons.
  pose proof (sum_of_nonneg f l1 ltac:(set_solver)).
  pose proof (sum_of_nonneg f l2 ltac:(set_solver)). lia.
Qed.

Lemma sum_of_const {A} (c : Z) (l : list A) : sum_of (fun _ => c) l = c * Z.of_nat (length l).
Proof. induction l; [unfold sum_of; simpl; lia |]. rewrite sum_of_cons, IHl. simpl. lia. Qed.

Lemma sum_of_add {A} (f g : A -> Z) (l : list A) :
  sum_of (fun x => f x + g x) l = sum_of f l + sum_of g l.
Proof. induction l; [done |]. rewrite !sum_of_cons, IHl. lia. Qed.

(** The number of elements with a property. *)
Definition count {A} (p : A -> bool) (l : list A) : Z := sum_of (fun x => Z.b2z (p x)) l.

Lemma count_app {A} (p : A -> bool) l1 l2 : count p (l1 ++ l2) = count p l1 + count p l2.
Proof. apply sum_of_app. Qed.

Lemma count_ext {A} (p q : A -> bool) l :
  (forall x, x ∈ l -> p x = q x) -> count p l = count q l.
Proof. intros H. apply sum_of_ext. intros x Hx. by rewrite H. Qed.

Lemma count_bounds {A} (p : A -> bool) l : 0 <= count p l <= Z.of_nat (length l).
Proof.
  split.
  - apply sum_of_nonneg. intros. destruct (p x); simpl; lia.
  - replace (Z.of_nat (length l)) with (sum_of (fun _ => 1) l) by (rewrite sum_of_const; lia).
    apply sum_of_le. intros. destruct (p x); simpl; lia.
Qed.

Lemma count_filter {A} (p : A -> bool) l :
  count p l = Z.of_nat (length (filter (fun x => p x = true) l)).
Proof.
  induction l as [| x l IH]; [done |]. unfold count in *. rewrite sum_of_cons, IH.
  rewrite filter_cons. destruct (p x); simpl; lia.
Qed.

Lemma count_zseq_shift p i d n :
  count p (zseq (i + d) n) = count (fun j => p (j + d)) (zseq i n).
Proof.
  revert i. induction n as [| n IH]; intros i; simpl; [done |]. unfold count in *.
  rewrite !sum_of_cons. rewrite <- IH. by replace (i + d + 1) with (i + 1 + d) by lia.
Qed.

(** An element splits a list without duplicates in one way. *)
Lemma split_unique {A} (F1 F2 G1 G2 : list A) x :
  NoDup (F1 ++ x :: F2) -> F1 ++ x :: F2 = G1 ++ x :: G2 -> F1 = G1 /\ F2 = G2.
Proof.
  revert G1. induction F1 as [| y F1 IH]; intros [| z G1] Hnd E; simplify_eq/=.
  - done.
  - apply NoDup_cons in Hnd as [Hx _]. destruct Hx. apply elem_of_app. right. by left.
  - apply NoDup_cons in Hnd as [Hx _]. destruct Hx. apply elem_of_app. right. by left.
  - apply NoDup_cons in Hnd as [_ Hnd]. destruct (IH G1 Hnd) as [-> ->]; done.
Qed.

Lemma snoc_split {A} (F : list A) el F1 x F2 :
  F ++ [el] = F1 ++ x :: F2 ->
  (x = el /\ F1 = F /\ F2 = []) \/ (exists F2', F2 = F2' ++ [el] /\ F = F1 ++ x :: F2').
Proof.
  destruct F2 as [| y F2] using rev_ind; intros E.
  - apply app_inj_tail in E as [-> ->]. by left.
  - right. exists F2. rewrite app_comm_cons, app_assoc in E. by apply app_inj_tail in E as [-> ->].
Qed.

(** ** Lists of threads and step relations *)

(** Calls by their keys, all at the same point. *)
Lemma list_to_map_const {A} (a : A) (l : list Z) x p :
  NoDup l -> (list_to_map ((fun x => (x, a)) <$> l) : gmap Z A) !! x = Some p <-> p = a /\ x ∈ l.
Proof.
  intros Hnd. rewrite <- elem_of_list_to_map.
  - rewrite list_elem_of_fmap. split; [intros (y & [= -> ->] & ?); done |]. intros [-> ?]. by exists x.
  - by rewrite <- list_fmap_compose, list_fmap_id.
Qed.

Lemma elem_of_insert_inv {A} (l : list A) i x y : y ∈ <[i := x]> l -> y = x \/ y ∈ l.
Proof.
  intros H. apply list_elem_of_lookup in H as [j Hj].
  apply list_lookup_insert_Some in Hj as [(-> & -> & _) | (_ & Hj)]; [by left | right].
  by eapply list_elem_of_lookup_2.
Qed.

Lemma not_all_exists {A} (p : A -> bool) (l : list A) :
  ~ Forall (fun x => p x = true) l -> exists i x, l !! i = Some x /\ p x = false.
Proof.
  induction l as [| x l IH]; intros H; [by destruct H |].
  destruct (p x) eqn:E; [| by exists 0%nat, x].
  destruct IH as (i & y & Hi & Hy); [| by exists (S i), y].
  intros Hl. apply H. by constructor.
Qed.

(** A relation whose steps decrease a measure has no infinite run. *)
Lemma sn_measure_inv {A} (R : relation A) (P : A -> Prop) (f : A -> Z) (x : A) :
  (forall x y, P x -> R x y -> P y /\ 0 <= f y < f x) -> P x -> sn R x.
Proof.
  intros Hf. remember (Z.to_nat (f x)) as n eqn:Hn. revert x Hn.
  induction (lt_wf n) as [n _ IH]. intros x -> Hx. constructor. intros y Hxy.
  destruct (Hf x y Hx Hxy). eapply IH; [| done | done]. lia.
Qed.

Lemma sn_measure {A} (R : relation A) (f : A -> Z) (x : A) :
  (forall x y, R x y -> 0 <= f y < f x) -> sn R x.
Proof. intros Hf. apply (sn_measure_inv R (fun _ => True) f); [| done]. auto. Qed.

(** Changing the summand of one element. *)
Lemma sum_of_change {A} `{EqDecision A} (f g : A -> Z) (k : Z) l x :
  NoDup l -> x ∈ l -> (forall y, y <> x -> g y <= f y + k) -> 0 <= k ->
  sum_of g l <= sum_of f l - f x + g x + k * (Z.of_nat (length l) - 1).
Proof.
  intros Hnd Hx Hle Hk. apply list_elem_of_split in Hx as (l1 & l2 & ->).
  apply NoDup_app in Hnd as (_ & Hnd1 & Hnd2). apply NoDup_cons in Hnd2 as [Hx2 _].
  assert (forall l, x ∉ l -> sum_of g l <= sum_of f l + k * Z.of_nat (length l)) as Hout.
  { intros l Hl. rewrite <- (sum_of_const k l), <- sum_of_add. apply sum_of_le.
    intros y Hy. apply Hle. intros ->. done. }
  assert (x ∉ l1) as Hx1 by (intros Hin; apply (Hnd1 x Hin); by left).
  pose proof (Hout l1 Hx1). pose proof (Hout l2 Hx2).
  rewrite !sum_of_app, !sum_of_cons, length_app. simpl. nia.
Qed.

(** ** A state and failure monad

    A computation on a store [S] either ends with a result and a new store or
    is stuck; being stuck stands for undefined behaviour (the dereference of
    NULL or of an unmapped pointer), a failed [guarantee] or a loop that has
    used up the fuel the model gives it. *)
Definition M (S A : Type) : Type := S -> option (A * S).

#[export] Instance M_ret S : MRet (M S) := fun A x s => Some (x, s).
#[export] Instance M_bind S : MBind (M S) :=
  fun A B k m s => match m s with Some (x, s') => k x s' | None => None end.

Definition stuck {S A} : M S A := fun _ => None.
Definition get {S} : M S S := fun s => Some (s, s).
Definition put {S} (s : S) : M S unit := fun _ => Some (tt, s).
Definition gets {S A} (f : S -> A) : M S A := fun s => Some (f s, s).
Definition modify {S} (f : S -> S) : M S unit := fun s => Some (tt, f s).
Definition lift_opt {S A} (o : option A) : M S A :=
  fun s => match o with Some x => Some (x, s) | None => None end.

(** [if (c) m;] *)
Definition when {S} (c : bool) (m : M S unit) : M S unit :=
  if c then m else mret tt.

Lemma M_bind_Some {S A B} (m : M S A) (k : A -> M S B) s x s' :
  m s = Some (x, s') -> (x ← m; k x) s = k x s'.
Proof. intros H. unfold mbind, M_bind. by rewrite H. Qed.

Lemma M_bind_None {S A B} (m : M S A) (k : A -> M S B) s :
  m s = None -> (x ← m; k x) s = None.
Proof. intros H. unfold mbind, M_bind. by rewrite H. Qed.

Lemma M_bind_inv {S A B} (m : M S A) (k : A -> M S B) s r :
  (x ← m; k x) s = Some r ->
  exists x s', m s = Some (x, s') /\ k x s' = Some r.
Proof.
  unfold mbind, M_bind. destruct (m s) as [[x s'] |]; [| done]. eauto.
Qed.

Lemma M_ret_bind {S A B} (x : A) (k : A -> M S B) s : (y ← mret x; k y) s = k x s.
Proof. done. Qed.

Lemma M_ret_run {S A} (x : A) (s : S) : (mret x : M S A) s = Some (x, s).
Proof. done. Qed.

Lemma M_bind_assoc {S A B C} (m : M S A) (k : A -> M S B) (k' : B -> M S C) s :
  (y ← (x ← m; k x); k' y) s = (x ← m; y ← k x; k' y) s.
Proof. unfold mbind, M_bind. by destruct (m s) as [[x s'] |]. Qed.

Lemma M_bind_ext {S A B} (m m' : M S A) (k : A -> M S B) s :
  m s = m' s -> (x ← m; k x) s = (x ← m'; k x) s.
Proof. intros H. unfold mbind, M_bind. by rewrite H. Qed.

Lemma M_get_bind {S A} (k : S -> M S A) s : (x ← get; k x) s = k s s.
Proof. done. Qed.
Lemma M_gets_bind {S A B} (f : S -> A) (k : A -> M S B) s : (x ← gets f; k x) s = k (f s) s.
Proof. done. Qed.

Lemma M_modify_bind {S A} (f : S -> S) (k : M S A) s : (modify f;; k) s = k (f s).
Proof. done. Qed.

Lemma when_true {S} (m : M S unit) : when true m = m.
Proof. done. Qed.

Lemma when_false {S} (m : M S unit) : when false m = mret tt.
Proof. done. Qed.

(** Run the first computation of a bind, whose outcome the equation [H] states. *)
Tactic Notation "mrun" uconstr(H) := rewrite (M_bind_Some _ _ _ _ _ H).

(** ** Loops without a structural bound

    [while_pow n step x] runs a loop of at most [2 ^ n] turns: a turn goes on with a
    new state, [inl], or ends with a result, [inr]. *)
Fixpoint while_pow {S R} (n : nat) (step : S -> S + R) (x : S) : S + R :=
  match n with
  | O => step x
  | Datatypes.S n =>
    match while_pow n step x with
    | inl y => while_pow n step y
    | inr r => inr r
    end
  end.

(** A loop that ends in its first turn. *)
Lemma while_pow_stop {S R} n (step : S -> S + R) x r : step x = inr r -> while_pow n step x = inr r.
Proof. intros H. induction n as [| n IH]; simpl; [done |]. by rewrite IH. Qed.

(** The state after [k] turns, if the loop goes on that long. *)
Fixpoint after_turns {S R} (step : S -> S + R) (k : nat) (x : S) : option S :=
  match k with
  | O => Some x
  | Datatypes.S k => match step x with inl y => after_turns step k y | inr _ => None end
  end.

Lemma after_turns_add {S R} (step : S -> S + R) k k' x :
  after_turns step (k + k') x = after_turns step k x ≫= after_turns step k'.
Proof. revert x. induction k as [| k IH]; intros x; simpl; [done |]. by destruct (step x). Qed.

Lemma while_pow_go {S R} n (step : S -> S + R) x y :
  after_turns step (2 ^ n) x = Some y -> while_pow n step x = inl y.
Proof.
  revert x y. induction n as [| n IH]; intros x y; simpl.
  - destruct (step x); [by intros [= ->] | done].
  - rewrite Nat.add_0_r, after_turns_add. destruct (after_turns step (2 ^ n) x) as [z |] eqn:Hz; [| done].
    simpl. rewrite (IH x z Hz). apply IH.
Qed.

(** Enough turns for a loop that ends. *)
Lemma while_pow_ends {S R} n (step : S -> S + R) k x y r :
  after_turns step k x = Some y -> step y = inr r -> (k < 2 ^ n)%nat -> while_pow n step x = inr r.
Proof.
  revert k x. induction n as [| n IH]; intros k x Hk Hy Hn; simpl in *.
  - assert (k = O) as -> by lia. by injection Hk as ->.
  - destruct (decide (k < 2 ^ n)%nat) as [Hlt | Hge]; [by rewrite (IH k x Hk Hy Hlt) |].
    replace k with (2 ^ n + (k - 2 ^ n))%nat in Hk by lia. rewrite after_turns_add in Hk.
    destruct (after_turns step (2 ^ n) x) as [z |] eqn:Hz; [| done]. simpl in Hk.
    rewrite (while_pow_go n step x z Hz). apply (IH (k - 2 ^ n)%nat); [done | done | lia].
Qed.

(** A loop of a stateful computation that runs as long as its turns return true. *)
Definition while_turn {S} (turn : M S bool) (s : S) : S + option S :=
  match turn s with
  | Some (true, s') => inl s'
  | Some (false, s') => inr (Some s')
  | None => inr None
  end.
Definition while_m {S} (n : nat) (turn : M S bool) : M S unit := fun s =>
  match while_pow n (while_turn turn) s with
  | inr (Some s') => Some (tt, s')
  | _ => None
  end.

(** A loop whose turns keep an invariant, whose index they decrease, ends, with what its last
    turn establishes. *)
Lemma while_m_rule {S} n (turn : M S bool) (P : nat -> S -> Prop) (Q : S -> Prop) :
  (forall i s, P i s -> exists b s', turn s = Some (b, s') /\
     if (b : bool) then exists i', (i' < i)%nat /\ P i' s' else Q s') ->
  forall i s, P i s -> (i < 2 ^ n)%nat -> exists s', while_m n turn s = Some (tt, s') /\ Q s'.
Proof.
  intros Hturn i s Hs Hn.
  assert (exists k s1 s', after_turns (while_turn turn) k s = Some s1 /\
    while_turn turn s1 = inr (Some s') /\ Q s' /\ (k <= i)%nat) as (k & s1 & s' & Hk & Hend & HQ & Hle).
  { clear Hn. revert s Hs. induction (lt_wf i) as [i _ IH]. intros s Hs.
    destruct (Hturn i s Hs) as (b & s1 & Ht & Hb). destruct b.
    - destruct Hb as (i' & Hlt & Hs1). destruct (IH i' Hlt s1 Hs1) as (k & s2 & s' & Hk & He & HQ & Hle).
      exists (Datatypes.S k), s2, s'. simpl. unfold while_turn at 1. rewrite Ht. split_and!; try done. lia.
    - exists O, s, s1. simpl. unfold while_turn. rewrite Ht. split_and!; try done. lia. }
  exists s'. split; [| done]. unfold while_m.
  by rewrite (while_pow_ends n (while_turn turn) k s s1 (Some s') Hk Hend) by lia.
Qed.

Lemma filter_ext_in {A} (P Q : A -> Prop) `{!forall x, Decision (P x), !forall x, Decision (Q x)} (l : list A) :
  (forall x, x ∈ l -> P x <-> Q x) -> filter P l = filter Q l.
Proof.
  induction l as [| x l IH]; intros HPQ; [done |]. rewrite !filter_cons. rewrite IH by (intros y Hy; apply HPQ; by right).
  destruct (HPQ x ltac:(by left)). repeat case_decide; done || tauto.
Qed.

Lemma filter_fmap_comm {A B} (f : A -> B) (P : B -> Prop) `{!forall x, Decision (P x)} (l : list A) :
  filter P (f <$> l) = f <$> filter (fun x => P (f x)) l.
Proof. induction l as [| x l IH]; [done |]. rewrite fmap_cons, !filter_cons, IH. by case_decide. Qed.
