(* ===== verification/GlobalDefs.v ===== *)
(** * Machine words, alignment and pointer arithmetic

    The helpers of [utilities/globalDefinitions.hpp] that every component of
    the big-data-aware old generation uses: pointer differences, alignment by
    masking, rounding, binary logarithms and the word masks.

    A 64-bit value ([size_t], [uintptr_t], [intptr_t], a pointer) is its
    unsigned residue; the operations below act on the bit pattern, so the
    signedness of the C++ type does not matter for them.  A [HeapWord*] is the
    byte address it denotes and [p + n] advances it by [8 * n] bytes. *)

From stdpp Require Import base list numbers.
From Stdlib Require Import ZArith Lia.
From S2P Require Import Prelude.

Local Open Scope Z_scope.

(** ** Constants of an LP64 build *)
Definition HeapWordSize : Z := 8.
Definition LogHeapWordSize : Z := 3.
Definition BitsPerWord : Z := 64.
Definition LogBitsPerWord : Z := 6.
Definition BytesPerWord : Z := 8.

Definition AllBits : Z := not64 0.
Definition NoBits : Z := 0.
Definition OneBit : Z := 1.

(** NULL *)
Definition NULL : Z := 0.

(** ** Pointers *)

(** [p + n] and [p - n] on a [HeapWord*]. *)
Definition hw_add (p n : Z) : Z := u64 (p + n * HeapWordSize).
Definition hw_sub (p n : Z) : Z := u64 (p - n * HeapWordSize).

Definition pointer_delta_sz (left right element_size : Z) : Z :=
  u64 (left - right) / element_size.

Definition pointer_delta (left right : Z) : Z :=
  pointer_delta_sz left right HeapWordSize.

(** [byte_size(from, to)], an [intx]; the callers use it for ordered pointers. *)
Definition byte_size (from to : Z) : Z := u64 (to - from).

(** ** Alignment *)

Definition align_size_up_ (size alignment : Z) : Z :=
  Z.land (u64 (size + u64 (alignment - 1))) (not64 (u64 (alignment - 1))).

Definition is_size_aligned (size alignment : Z) : bool :=
  align_size_up_ size alignment =? size.

Definition is_ptr_aligned (ptr alignment : Z) : bool :=
  align_size_up_ ptr alignment =? ptr.

Definition align_size_up (size alignment : Z) : Z := align_size_up_ size alignment.

Definition align_size_down_ (size alignment : Z) : Z :=
  Z.land size (not64 (u64 (alignment - 1))).

Definition align_size_down (size alignment : Z) : Z :=
  align_size_down_ size alignment.

Definition align_ptr_up (ptr alignment : Z) : Z := align_size_up ptr alignment.

Definition align_ptr_down (ptr alignment : Z) : Z := align_size_down ptr alignment.

Definition align_object_size (MinObjAlignment size : Z) : Z :=
  align_size_up size MinObjAlignment.

Definition align_size_down_bounded (size alignment : Z) : Z :=
  let aligned_size := align_size_down_ size alignment in
  if aligned_size >? 0 then aligned_size else alignment.

Definition clamp_address_in_page (addr page_address page_size : Z) : Z :=
  if align_size_down addr page_size =? align_size_down page_address page_size
  then addr
  else if addr >? page_address
  then u64 (align_size_down page_address page_size + page_size)
  else align_size_down page_address page_size.

Definition mask_bits (x m : Z) : Z := Z.land x m.

Definition round_to (x s : Z) : Z :=
  let m := u64 (s - 1) in mask_bits (u64 (x + m)) (not64 m).

Definition round_down (x s : Z) : Z :=
  let m := u64 (s - 1) in mask_bits x (not64 m).

(** ** Bit fields *)

Definition nth_bit (n : Z) : Z :=
  if n >=? BitsPerWord then 0 else u64 (Z.shiftl OneBit n).

Definition right_n_bits (n : Z) : Z := u64 (nth_bit n - 1).

(** The shift by [BitsPerWord] that [n = 0] asks for is applied to 0. *)
Definition left_n_bits (n : Z) : Z :=
  u64 (Z.shiftl (right_n_bits n) (if n >=? BitsPerWord then 0 else BitsPerWord - n)).

Definition MAX2 (a b : Z) : Z := if a >? b then a else b.
Definition MIN2 (a b : Z) : Z := if a <? b then a else b.

(** ** Powers of two *)

Definition is_power_of_2 (x : Z) : bool :=
  negb (x =? NoBits) && (mask_bits x (u64 (x - 1)) =? NoBits).

(** [while (p != 0 && p <= (uintptr_t)x) { i++; p *= 2; }]: the doubling wraps
    to 0 after 64 rounds, so 65 units of fuel are enough. *)
Fixpoint log2_loop (fuel : nat) (i p x : Z) : Z :=
  match fuel with
  | O => i
  | S f =>
      if negb (p =? 0) && (p <=? x) then log2_loop f (i + 1) (u64 (p * 2)) x else i
  end.

Definition log2_intptr (x : Z) : Z := log2_loop 65 (-1) 1 (u64 x).

Definition exact_log2 (x : Z) : Z := log2_intptr x.

Definition is_odd (x : Z) : bool := negb (Z.land x 1 =? 0).

(** ** Pointer lemmas *)

Lemma hw_add_small p n :
  0 <= p -> 0 <= n -> p + 8 * n < 2 ^ 64 -> hw_add p n = p + 8 * n.
Proof. unfold hw_add, HeapWordSize. intros. ulia. Qed.

Lemma pointer_delta_small l r :
  0 <= r <= l -> l < 2 ^ 64 -> pointer_delta l r = (l - r) / 8.
Proof. unfold pointer_delta, pointer_delta_sz, HeapWordSize. intros. ulia. Qed.

Lemma pointer_delta_add p n :
  0 <= p -> 0 <= n -> p + 8 * n < 2 ^ 64 -> pointer_delta (hw_add p n) p = n.
Proof.
  intros. rewrite hw_add_small by lia. rewrite pointer_delta_small by lia. lia.
Qed.

#[export] Hint Rewrite hw_add_small pointer_delta_small using lia : vm.

(** ** Objects in memory *)

(** The addresses in [l] are those of consecutive objects from [p] to [q]. *)
Fixpoint tiles (size_of : Z -> Z) (p : Z) (l : list Z) (q : Z) : Prop :=
  match l with
  | [] => p = q
  | a :: l => a = p /\ 0 < size_of p /\ tiles size_of (p + 8 * size_of p) l q
  end.

Lemma tiles_le size_of p l q : tiles size_of p l q -> p + 8 * Z.of_nat (length l) <= q.
Proof.
  revert p. induction l as [| a l IH]; simpl; intros p; [lia |].
  intros (-> & Hs & Ht). specialize (IH _ Ht). lia.
Qed.

(** ** Masking is division *)

Lemma land_not64_ones x k :
  is_u64 x -> 0 <= k <= 64 -> Z.land x (not64 (Z.ones k)) = x - x mod 2 ^ k.
Proof.
  intros Hx Hk.
  assert (x - x mod 2 ^ k = Z.shiftl (Z.shiftr x k) k) as ->.
  { rewrite Z.shiftl_mul_pow2, Z.shiftr_div_pow2 by lia.
    pose proof (Z.div_mod x (2 ^ k)). lia. }
  apply Z.bits_inj'. intros i Hi.
  rewrite Z.land_spec, testbit_not64, testbit_ones by lia.
  destruct (Z.ltb_spec i 64).
  - destruct (Z.ltb_spec i k); simpl.
    + rewrite andb_false_r. symmetry. by rewrite Z.shiftl_spec_low.
    + rewrite Z.shiftl_spec_high, Z.shiftr_spec by lia.
      rewrite andb_true_r. f_equal. lia.
  - simpl. rewrite andb_false_r. symmetry.
    rewrite Z.shiftl_spec_high, Z.shiftr_spec by lia.
    apply (testbit_high 64); [exact Hx | lia].
Qed.

Lemma pow2_minus_1 k : 0 <= k <= 64 -> u64 (2 ^ k - 1) = Z.ones k.
Proof.
  intros. rewrite Z.ones_equiv, <- Z.sub_1_r. apply u64_small.
  assert (2 ^ 0 <= 2 ^ k <= 2 ^ 64) by (split; apply Z.pow_le_mono_r; lia).
  unfold is_u64. lia.
Qed.

Lemma align_size_down_pow2 x k :
  is_u64 x -> 0 <= k <= 64 -> align_size_down_ x (2 ^ k) = x - x mod 2 ^ k.
Proof.
  intros. unfold align_size_down_. rewrite pow2_minus_1 by lia.
  by apply land_not64_ones.
Qed.

Lemma align_size_up_pow2 x k :
  0 <= k <= 64 -> 0 <= x -> x + 2 ^ k - 1 < 2 ^ 64 ->
  align_size_up_ x (2 ^ k) = (x + 2 ^ k - 1) - (x + 2 ^ k - 1) mod 2 ^ k.
Proof.
  intros. unfold align_size_up_. rewrite pow2_minus_1 by lia.
  assert (Z.ones k = 2 ^ k - 1) as E by (rewrite Z.ones_equiv; lia).
  assert (0 < 2 ^ k) by lia.
  rewrite u64_small by (unfold is_u64; lia).
  rewrite land_not64_ones; [| unfold is_u64; lia | lia].
  rewrite E. do 2 f_equal; lia.
Qed.

(** The up-alignment to a power of two is the least multiple above. *)
Lemma align_size_up_spec x k :
  0 <= k <= 64 -> 0 <= x -> x + 2 ^ k - 1 < 2 ^ 64 ->
  let r := align_size_up_ x (2 ^ k) in
  r mod 2 ^ k = 0 /\ x <= r < x + 2 ^ k.
Proof.
  intros Hk Hx Ho r. assert (0 < 2 ^ k) by lia.
  subst r. rewrite align_size_up_pow2 by lia. split.
  - rewrite Zminus_mod_idemp_r, Z.sub_diag. by apply Z.mod_0_l; lia.
  - pose proof (Z.mod_pos_bound (x + 2 ^ k - 1) (2 ^ k)). lia.
Qed.

Lemma align_size_down_spec x k :
  is_u64 x -> 0 <= k <= 64 ->
  let r := align_size_down_ x (2 ^ k) in
  r mod 2 ^ k = 0 /\ x - 2 ^ k < r <= x.
Proof.
  intros Hx Hk r. assert (0 < 2 ^ k) by lia.
  subst r. rewrite align_size_down_pow2 by done. split.
  - rewrite Zminus_mod_idemp_r, Z.sub_diag. by apply Z.mod_0_l; lia.
  - pose proof (Z.mod_pos_bound x (2 ^ k)). lia.
Qed.

Lemma land_ldiff_split a b : a = Z.land a b + Z.ldiff a b.
Proof.
  rewrite Z.add_nocarry_lxor.
  - apply Z.bits_inj'. intros i Hi. rewrite Z.lxor_spec, Z.land_spec, Z.ldiff_spec.
    by destruct (Z.testbit a i), (Z.testbit b i).
  - apply zero_bits. intros i Hi. rewrite !Z.land_spec, Z.ldiff_spec.
    by destruct (Z.testbit a i), (Z.testbit b i).
Qed.

Lemma land_le_r a b : 0 <= b -> Z.land a b <= b.
Proof.
  intros. pose proof (land_ldiff_split b a). rewrite (Z.land_comm a b).
  assert (0 <= Z.ldiff b a) by (apply Z.ldiff_nonneg; lia). lia.
Qed.

(** Clearing some bits of a number lowers it by at most the mask. *)
Lemma land_not64_bounds y m :
  is_u64 y -> is_u64 m -> y - m <= Z.land y (not64 m) <= y.
Proof.
  intros Hy Hm.
  assert (Z.land y (not64 m) = Z.ldiff y m) as ->.
  { apply Z.bits_inj'. intros i Hi. bits_simpl.
    destruct (Z.ltb_spec i 64); [done |].
    rewrite (testbit_high 64 y) by (done || lia). done. }
  pose proof (land_ldiff_split y m). unfold is_u64 in *.
  assert (0 <= Z.land y m) by (apply Z.land_nonneg; lia).
  pose proof (land_le_r y m). lia.
Qed.

(** [align_size_up_] never goes below its argument, whatever the alignment. *)
Lemma align_size_up_ge x a :
  0 <= x -> 1 <= a -> x + a - 1 < 2 ^ 64 ->
  x <= align_size_up_ x a <= x + a - 1.
Proof.
  intros. unfold align_size_up_.
  rewrite (u64_small (a - 1)) by (unfold is_u64; lia).
  rewrite u64_small by (unfold is_u64; lia).
  pose proof (land_not64_bounds (x + (a - 1)) (a - 1)).
  unfold is_u64 in *. lia.
Qed.

Lemma align_size_down_le x a :
  is_u64 x -> 1 <= a -> a <= 2 ^ 64 -> x - a < align_size_down_ x a <= x.
Proof.
  intros. unfold align_size_down_.
  rewrite (u64_small (a - 1)) by (unfold is_u64; lia).
  pose proof (land_not64_bounds x (a - 1)). unfold is_u64 in *. lia.
Qed.

(** If the alignment is a multiple of [2^k], so is the aligned value. *)
Lemma land_not64_pred_mod y a k :
  is_u64 y -> 0 <= k <= 64 -> 1 <= a <= 2 ^ 64 -> a mod 2 ^ k = 0 ->
  Z.land y (not64 (u64 (a - 1))) mod 2 ^ k = 0.
Proof.
  intros Hy Hk Ha Hm. apply Z.bits_inj'. intros i Hi. rewrite Z.bits_0.
  fold (wrap k (Z.land y (not64 (u64 (a - 1))))).
  rewrite testbit_wrap by lia. destruct (Z.ltb_spec i k); [simpl | done].
  rewrite Z.land_spec, testbit_not64 by lia.
  rewrite u64_small by (unfold is_u64; lia).
  assert (Z.testbit (a - 1) i = true) as ->; [| by rewrite !andb_false_r].
  assert ((a - 1) mod 2 ^ k = Z.ones k) as E.
  { rewrite Z.ones_equiv. rewrite <- Zminus_mod_idemp_l, Hm.
    assert (0 < 2 ^ k) by lia.
    destruct (decide (k = 0)) as [-> | ?]; [done |].
    assert (2 ^ 1 <= 2 ^ k) by (apply Z.pow_le_mono_r; lia).
    symmetry. apply (Z.mod_unique _ _ (-1)); lia. }
  rewrite <- (Z.mod_pow2_bits_low (a - 1) k i) by lia. rewrite E.
  rewrite testbit_ones by lia. by apply Z.ltb_lt.
Qed.

(** ** Logarithms *)

Lemma log2_loop_spec fuel k x :
  0 < x < 2 ^ 64 -> 0 <= k <= Z.log2 x + 1 ->
  (Z.to_nat (Z.log2 x + 1 - k) < fuel)%nat ->
  log2_loop fuel (k - 1) (u64 (2 ^ k)) x = Z.log2 x.
Proof.
  intros Hx. assert (Z.log2 x < 64) by (apply Z.log2_lt_pow2; lia).
  pose proof (Z.log2_spec x ltac:(lia)) as [Hlo Hhi].
  revert k. induction fuel as [| fuel IH]; intros k Hk Hf; [lia |]. simpl.
  destruct (decide (k = Z.log2 x + 1)) as [-> | Hne].
  - assert (negb (u64 (2 ^ (Z.log2 x + 1)) =? 0) &&
            (u64 (2 ^ (Z.log2 x + 1)) <=? x) = false) as ->; [| lia].
    destruct (decide (Z.log2 x = 63)) as [-> | ?]; [done |].
    assert (2 ^ (Z.log2 x + 1) < 2 ^ 64) by (apply Z.pow_lt_mono_r; lia).
    rewrite u64_small by (unfold is_u64; lia).
    destruct (Z.leb_spec (2 ^ (Z.log2 x + 1)) x); [| by rewrite andb_false_r].
    rewrite <- Z.add_1_r in Hhi. lia.
  - assert (2 ^ k <= 2 ^ Z.log2 x) by (apply Z.pow_le_mono_r; lia).
    assert (2 ^ k < 2 ^ 64) by lia.
    rewrite (u64_small (2 ^ k)) by (unfold is_u64; lia).
    destruct (Z.eqb_spec (2 ^ k) 0); [lia |].
    destruct (Z.leb_spec (2 ^ k) x); [simpl | lia].
    replace (k - 1 + 1) with (k + 1 - 1) by lia.
    replace (2 ^ k * 2) with (2 ^ (k + 1)) by (rewrite Z.pow_add_r; lia).
    apply IH; lia.
Qed.

Lemma log2_intptr_pos x : 0 < x < 2 ^ 64 -> log2_intptr x = Z.log2 x.
Proof.
  intros H. unfold log2_intptr. rewrite (u64_small x) by (unfold is_u64; lia).
  assert (Z.log2 x < 64) by (apply Z.log2_lt_pow2; lia).
  pose proof (Z.log2_nonneg x).
  apply (log2_loop_spec 65 0 x); [done | lia | lia].
Qed.

Lemma exact_log2_pow2 k : 0 <= k < 64 -> exact_log2 (2 ^ k) = k.
Proof.
  intros. unfold exact_log2.
  assert (2 ^ k < 2 ^ 64) by (apply Z.pow_lt_mono_r; lia).
  rewrite log2_intptr_pos by lia. apply Z.log2_pow2. lia.
Qed.

Lemma is_odd_spec x : is_odd x = Z.odd x.
Proof.
  unfold is_odd. change 1 with (Z.ones 1). rewrite Z.land_ones by lia.
  change (2 ^ 1) with 2. rewrite Zmod_odd.
  by destruct (Z.odd x).
Qed.

Lemma MIN2_min a b : MIN2 a b = Z.min a b.
Proof. unfold MIN2. destruct (Z.ltb_spec a b); lia. Qed.

Lemma MAX2_max a b : MAX2 a b = Z.max a b.
Proof. unfold MAX2. rewrite Z.gtb_ltb. destruct (Z.ltb_spec b a); lia. Qed.

Lemma round_to_align x s : round_to x s = align_size_up_ x s.
Proof. done. Qed.

Lemma round_down_align x s : round_down x s = align_size_down_ x s.
Proof. done. Qed.

Lemma AllBits_ones : AllBits = Z.ones 64.
Proof. reflexivity. Qed.

Lemma testbit_right_n_bits n i :
  0 <= n -> 0 <= i -> Z.testbit (right_n_bits n) i = (i <? 64) && (i <? n).
Proof.
  intros Hn Hi. unfold right_n_bits, nth_bit, BitsPerWord, OneBit.
  rewrite Z.geb_leb. destruct (Z.leb_spec 64 n).
  - change (u64 (0 - 1)) with (Z.ones 64). rewrite testbit_ones by lia.
    case_cmp; done || lia.
  - rewrite Z.shiftl_1_l.
    assert (2 ^ n < 2 ^ 64) by (apply Z.pow_lt_mono_r; lia).
    rewrite (u64_small (2 ^ n)) by (unfold is_u64; lia).
    rewrite pow2_minus_1 by lia. rewrite testbit_ones by lia.
    case_cmp; done || lia.
Qed.


