(* ===== verification/Floats.v ===== *)
(** * Floating-point arithmetic

    The sources compute with [float] and [double] in a few places (the page
    set-up rate of a space, the ratios between regions of the old generation).
    The formats are IEEE binary32 and binary64 over the Standard Library's
    executable specification, rounding to nearest, ties to even. *)

From Stdlib Require Import ZArith Lia Bool Floats.SpecFloat.
From S2P Require Import Prelude.

Local Open Scope bool_scope.
Local Open Scope Z_scope.

Module Floats.

(** ** Binary32 *)
Definition float_of_Z (z : Z) : spec_float := binary_normalize 24 128 z 0 false.
Definition fmul : spec_float -> spec_float -> spec_float := SFmul 24 128.
Definition fdiv : spec_float -> spec_float -> spec_float := SFdiv 24 128.

(** ** Binary64 *)
Definition double_of_Z (z : Z) : spec_float := binary_normalize 53 1024 z 0 false.
Definition dadd : spec_float -> spec_float -> spec_float := SFadd 53 1024.
Definition dsub : spec_float -> spec_float -> spec_float := SFsub 53 1024.
Definition dmul : spec_float -> spec_float -> spec_float := SFmul 53 1024.
Definition ddiv : spec_float -> spec_float -> spec_float := SFdiv 53 1024.

(** A decimal literal [n / d] of the source, rounded. *)
Definition double_of_ratio (n d : Z) : spec_float := ddiv (double_of_Z n) (double_of_Z d).

Definition dlt (x y : spec_float) : bool := SFltb x y.
Definition dle (x y : spec_float) : bool := SFleb x y.
Definition dgt (x y : spec_float) : bool := SFltb y x.

(** ** Conversion to an integer type: truncation toward zero, none for an
    infinity or a NaN. *)
Definition trunc (x : spec_float) : option Z :=
  match x with
  | S754_zero _ => Some 0
  | S754_finite s m e =>
      let v := if 0 <=? e then Z.shiftl (Zpos m) e else Z.shiftr (Zpos m) (- e) in
      Some (if s then - v else v)
  | _ => None
  end.

(** [(size_t)x]: the value of the conversion of a number out of range is not
    defined by the language; [undef] stands for what the machine leaves. *)
Definition to_size_t (undef : Z) (x : spec_float) : Z :=
  match trunc x with
  | Some v => if (0 <=? v) && (v <? 2 ^ 64) then v else u64 undef
  | None => u64 undef
  end.

(** [(int64_t)x], as an unsigned pattern. *)
Definition to_int64 (undef : Z) (x : spec_float) : Z :=
  match trunc x with
  | Some v => if (- 2 ^ 63 <=? v) && (v <? 2 ^ 63) then u64 v else u64 undef
  | None => u64 undef
  end.

(** [(int)ceil(x)] *)
Definition ceil_int (undef : Z) (x : spec_float) : Z :=
  match x with
  | S754_zero _ => 0
  | S754_finite s m e =>
      let n := if s then Zneg m else Zpos m in
      let v := if 0 <=? e then Z.shiftl n e else - Z.shiftr (- n) (- e) in
      if (- 2 ^ 31 <=? v) && (v <? 2 ^ 31) then v else i32 undef
  | _ => i32 undef
  end.

(** The conversion from [float] to [double]. *)
Definition double_of_float (x : spec_float) : spec_float :=
  match x with
  | S754_finite s m e => binary_normalize 53 1024 (if s then Zneg m else Zpos m) e s
  | _ => x
  end.

Lemma to_size_t_range undef x : is_u64 (to_size_t undef x).
Proof.
  unfold to_size_t. destruct (trunc x) as [v |]; [| apply u64_range].
  destruct (Z.leb_spec 0 v), (Z.ltb_spec v (2 ^ 64)); simpl; try apply u64_range.
  unfold is_u64. lia.
Qed.

End Floats.
