(* ===== verification/MemRegion.v ===== *)
(** * Memory regions

    [memory/memRegion.hpp] and [memory/memRegion.cpp]: a contiguous range of heap
    words given by its start address and its length in words.  The theorems
    describe the set operations by the addresses a region covers. *)

From stdpp Require Import base numbers.
From Stdlib Require Import ZArith Lia.
From S2P Require Import Prelude GlobalDefs.

Local Open Scope Z_scope.

Module MemRegion.

Record MemRegion := mkMemRegion { _start : Z; _word_size : Z }.

#[export] Instance MemRegion_eq_dec : EqDecision MemRegion.
Proof. solve_decision. Defined.

Definition empty : MemRegion := mkMemRegion NULL 0.

(** The constructor from two addresses. *)
Definition of_bounds (start end_ : Z) : MemRegion :=
  mkMemRegion start (pointer_delta end_ start).

Definition start (mr : MemRegion) : Z := _start mr.
Definition end_ (mr : MemRegion) : Z := hw_add (_start mr) (_word_size mr).
Definition last (mr : MemRegion) : Z := hw_sub (hw_add (_start mr) (_word_size mr)) 1.

Definition set_start (mr : MemRegion) (s : Z) : MemRegion := mkMemRegion s (_word_size mr).
Definition set_end (mr : MemRegion) (e : Z) : MemRegion :=
  mkMemRegion (_start mr) (pointer_delta e (_start mr)).
Definition set_word_size (mr : MemRegion) (n : Z) : MemRegion := mkMemRegion (_start mr) n.

Definition word_size (mr : MemRegion) : Z := _word_size mr.
Definition byte_size (mr : MemRegion) : Z := u64 (_word_size mr * 8).
Definition is_empty (mr : MemRegion) : bool := word_size mr =? 0.

Definition contains_region (mr mr2 : MemRegion) : bool :=
  (_start mr <=? _start mr2) && (end_ mr >=? end_ mr2).

Definition contains (mr : MemRegion) (addr : Z) : bool :=
  (addr >=? _start mr) && (addr <? end_ mr).

Definition equals (mr mr2 : MemRegion) : bool :=
  (is_empty mr && is_empty mr2) || ((start mr =? start mr2) && (end_ mr =? end_ mr2)).

Definition intersection (mr mr2 : MemRegion) : MemRegion :=
  let res := empty in
  let res_start := MAX2 (start mr) (start mr2) in
  let res_end := MIN2 (end_ mr) (end_ mr2) in
  if res_start <? res_end then set_end (set_start res res_start) res_end else res.

Definition union (mr mr2 : MemRegion) : MemRegion :=
  if is_empty mr then mr2
  else if is_empty mr2 then of_bounds (start mr) (end_ mr)
  else
    let res := empty in
    let res_start := MIN2 (start mr) (start mr2) in
    let res_end := MAX2 (end_ mr) (end_ mr2) in
    set_end (set_start res res_start) res_end.

(** [None] when the [guarantee] of the interior case fails. *)
Definition minus (mr mr2 : MemRegion) : option MemRegion :=
  if end_ mr2 <=? start mr then Some (of_bounds (start mr) (end_ mr))
  else if (start mr2 <=? start mr) && (end_ mr2 <=? end_ mr)
  then Some (of_bounds (end_ mr2) (end_ mr))
  else if start mr2 >=? end_ mr then Some (of_bounds (start mr) (end_ mr))
  else if (start mr2 >=? start mr) && (end_ mr2 >=? end_ mr)
  then Some (of_bounds (start mr) (start mr2))
  else if (start mr2 <=? start mr) && (end_ mr2 >=? end_ mr) then Some empty
  else None.

(** ** Laws *)

(** A region inside the address space, at a word boundary. *)
Definition wf (mr : MemRegion) : Prop :=
  0 <= _start mr /\ _start mr mod 8 = 0 /\ 0 <= _word_size mr /\
  _start mr + 8 * _word_size mr < 2 ^ 64.

#[export] Instance wf_dec mr : Decision (wf mr).
Proof. unfold wf. apply _. Defined.

Lemma end_eq mr : wf mr -> end_ mr = _start mr + 8 * _word_size mr.
Proof. intros (? & ? & ? & ?). unfold end_, hw_add, HeapWordSize. ulia. Qed.

Lemma of_bounds_wf s e :
  0 <= s <= e -> e < 2 ^ 64 -> s mod 8 = 0 -> e mod 8 = 0 ->
  wf (of_bounds s e) /\ end_ (of_bounds s e) = e.
Proof.
  intros. assert (wf (of_bounds s e)) as Hwf.
  { unfold wf, of_bounds; simpl. rewrite pointer_delta_small by (unfold is_u64; lia). lia. }
  split; [done |]. rewrite end_eq by done. unfold of_bounds; simpl.
  rewrite pointer_delta_small by (unfold is_u64; lia). lia.
Qed.

(** A region is determined, as a set of addresses, by its bounds. *)
Lemma contains_bounds mr a : contains mr a = (_start mr <=? a) && (a <? end_ mr).
Proof. unfold contains. by rewrite Z.geb_leb. Qed.

Lemma intersection_bounds mr mr2 :
  wf mr -> wf mr2 ->
  wf (intersection mr mr2) /\
  forall a, contains (intersection mr mr2) a = contains mr a && contains mr2 a.
Proof.
  intros H1 H2. pose proof (end_eq mr H1) as E1. pose proof (end_eq mr2 H2) as E2.
  destruct H1 as (? & ? & ? & ?), H2 as (? & ? & ? & ?).
  unfold intersection, start. rewrite MAX2_max, MIN2_min.
  set (s := Z.max (_start mr) (_start mr2)). set (e := Z.min (end_ mr) (end_ mr2)).
  destruct (Z.ltb_spec s e).
  - destruct (of_bounds_wf s e) as [Hw He]; [lia | lia | lia | lia |].
    split; [done |]. intros a. rewrite !contains_bounds.
    change (set_end (set_start empty s) e) with (of_bounds s e).
    rewrite He. simpl. case_cmp; lia.
  - split; [by decide_now |]. intros a. rewrite !contains_bounds.
    change (end_ empty) with 0. change (_start empty) with 0. case_cmp; lia.
Qed.

(** A non-empty intersection lies inside the second region. *)
Lemma intersection_within mr mr2 :
  wf mr -> wf mr2 -> _word_size (intersection mr mr2) <> 0 ->
  _start mr2 <= _start (intersection mr mr2) /\
  end_ (intersection mr mr2) <= end_ mr2.
Proof.
  intros H1 H2. pose proof (end_eq mr H1) as E1. pose proof (end_eq mr2 H2) as E2.
  destruct H1 as (? & ? & ? & ?), H2 as (? & ? & ? & ?).
  unfold intersection, start. rewrite MAX2_max, MIN2_min.
  set (s := Z.max (_start mr) (_start mr2)). set (e := Z.min (end_ mr) (end_ mr2)).
  destruct (Z.ltb_spec s e); [| done]. intros _.
  destruct (of_bounds_wf s e) as [Hw He]; [lia .. |].
  change (set_end (set_start empty s) e) with (of_bounds s e). rewrite He. simpl. lia.
Qed.

Lemma union_bounds mr mr2 :
  wf mr -> wf mr2 ->
  (is_empty mr = false -> is_empty mr2 = false ->
   start mr <= end_ mr2 /\ start mr2 <= end_ mr) ->
  wf (union mr mr2) /\
  forall a, contains (union mr mr2) a = contains mr a || contains mr2 a.
Proof.
  intros H1 H2 Hadj. pose proof (end_eq mr H1) as E1. pose proof (end_eq mr2 H2) as E2.
  pose proof H1 as (? & ? & ? & ?). pose proof H2 as (? & ? & ? & ?).
  unfold union, is_empty, word_size, start in *.
  destruct (Z.eqb_spec (_word_size mr) 0).
  { split; [done |]. intros a. rewrite !contains_bounds. case_cmp; lia. }
  destruct (Z.eqb_spec (_word_size mr2) 0).
  { destruct (of_bounds_wf (_start mr) (end_ mr)) as [Hw He]; [lia .. |].
    split; [done |]. intros a. rewrite !contains_bounds, He. simpl. case_cmp; lia. }
  specialize (Hadj eq_refl eq_refl). rewrite MAX2_max, MIN2_min.
  set (s := Z.min (_start mr) (_start mr2)). set (e := Z.max (end_ mr) (end_ mr2)).
  destruct (of_bounds_wf s e) as [Hw He]; [lia .. |].
  change (set_end (set_start empty s) e) with (of_bounds s e).
  split; [done |]. intros a. rewrite !contains_bounds, He. simpl. case_cmp; lia.
Qed.

(** The interior case, which has no region as its result. *)
Definition interior (mr mr2 : MemRegion) : Prop :=
  start mr < start mr2 /\ start mr2 < end_ mr2 /\ end_ mr2 < end_ mr.

Lemma minus_bounds mr mr2 :
  wf mr -> wf mr2 -> 0 < word_size mr2 ->
  match minus mr mr2 with
  | Some r => wf r /\ (forall a, contains r a = contains mr a && negb (contains mr2 a)) /\
              ~ interior mr mr2
  | None => interior mr mr2
  end.
Proof.
  intros H1 H2 Hne. pose proof (end_eq mr H1) as E1. pose proof (end_eq mr2 H2) as E2.
  pose proof H1 as (? & ? & ? & ?). pose proof H2 as (? & ? & ? & ?).
  unfold word_size in Hne. unfold minus, interior, start. rewrite !Z.geb_leb.
  assert (forall s e, 0 <= s <= e -> e < 2 ^ 64 -> s mod 8 = 0 -> e mod 8 = 0 ->
    (forall a, (s <=? a) && (a <? e) = contains mr a && negb (contains mr2 a)) ->
    wf (of_bounds s e) /\
    forall a, contains (of_bounds s e) a = contains mr a && negb (contains mr2 a)) as Hof.
  { intros s e Hs He Hms Hme Heq. destruct (of_bounds_wf s e) as [Hw Hend]; [done .. |].
    split; [done |]. intros a. rewrite <- Heq, contains_bounds, Hend. done. }
  assert (forall P Q R : Prop, (P /\ Q) -> R -> P /\ Q /\ R) as Hand by tauto.
  destruct (Z.leb_spec (end_ mr2) (_start mr)).
  { apply Hand; [apply Hof; try lia | lia]. intros a. rewrite !contains_bounds. case_cmp; lia. }
  destruct (Z.leb_spec (_start mr2) (_start mr)), (Z.leb_spec (end_ mr2) (end_ mr)); simpl.
  { apply Hand; [apply Hof; try lia | lia]. intros a. rewrite !contains_bounds. case_cmp; lia. }
  all: destruct (Z.leb_spec (end_ mr) (_start mr2)); try
    (apply Hand; [apply Hof; try lia | lia]; intros a; rewrite !contains_bounds; case_cmp; lia).
  all: destruct (Z.leb_spec (_start mr) (_start mr2)), (Z.leb_spec (end_ mr) (end_ mr2));
    simpl; try lia; try
    (apply Hand; [apply Hof; try lia | lia]; intros a; rewrite !contains_bounds; case_cmp; lia).
  all: split; [decide_now |]; split; [| lia]; intros a; rewrite !contains_bounds;
    change (end_ empty) with 0; change (_start empty) with 0; case_cmp; lia.
Qed.

(** The operations on regions are the operations on the sets of addresses
    they cover; [minus] fails its [guarantee] exactly when the subtracted region
    lies in the interior. *)
Theorem region_sets (mr mr2 : MemRegion) :
  wf mr -> wf mr2 -> 0 < word_size mr2 ->
  (forall a, contains (intersection mr mr2) a = contains mr a && contains mr2 a) /\
  (start mr <= end_ mr2 -> start mr2 <= end_ mr ->
   forall a, contains (union mr mr2) a = contains mr a || contains mr2 a) /\
  (match minus mr mr2 with
   | Some r => (forall a, contains r a = contains mr a && negb (contains mr2 a)) /\
               ~ interior mr mr2
   | None => interior mr mr2
   end).
Proof.
  intros H1 H2 Hne. split; [by apply intersection_bounds |]. split.
  - intros. by apply union_bounds.
  - pose proof (minus_bounds mr mr2 H1 H2 Hne) as Hm.
    destruct (minus mr mr2); [| done]. by destruct Hm.
Qed.

Lemma region_sets_witness :
  contains (intersection (mkMemRegion 1024 100) (mkMemRegion 1104 200)) 1200 = true /\
  minus (mkMemRegion 1024 100) (mkMemRegion 1104 10) = None.
Proof.
  destruct (region_sets (mkMemRegion 1024 100) (mkMemRegion 1104 200)) as (H & _);
    [decide_now | decide_now | simpl; lia |].
  destruct (region_sets (mkMemRegion 1024 100) (mkMemRegion 1104 10)) as (_ & _ & Hm);
    [decide_now | decide_now | simpl; lia |].
  split; [rewrite H; reflexivity |].
  destruct (minus (mkMemRegion 1024 100) (mkMemRegion 1104 10)) eqn:E; [| done].
  destruct Hm as [_ []]. by vm_compute.
Defined.

End MemRegion.
