(* ===== verification/VirtualSpace.v ===== *)
(** * Virtual spaces of the parallel collector

    [gc_implementation/parallelScavenge/psVirtualspace.hpp] and [.cpp]: a reserved
    range of addresses, of which one end is committed.  [PSVirtualSpace] grows
    towards high addresses, [PSVirtualSpaceHighToLow] towards low ones, and one can
    expand into an adjacent one of the other direction.

    The calls of the operating system are two functions of the address and the
    number of bytes that say whether they succeed. *)

From Stdlib Require Import ZArith Lia.
From stdpp Require Import base numbers list.
From S2P Require Import Prelude GlobalDefs.

Local Open Scope Z_scope.

(** [os::commit_memory], [os::uncommit_memory]: address, bytes, success. *)
Record os_memory := mkOs { commit_memory : Z -> Z -> bool; uncommit_memory : Z -> Z -> bool }.

(** [ReservedSpace], as far as the spaces read it. *)
Record ReservedSpace := mkReserved { rs_base : Z; rs_size : Z; rs_special : bool }.

Module PSVirtualSpace.

Record PSVirtualSpace := mkVirtualSpace {
  _alignment : Z;
  _reserved_low_addr : Z;
  _reserved_high_addr : Z;
  _committed_low_addr : Z;
  _committed_high_addr : Z;
  _special : bool
}.

#[export] Instance PSVirtualSpace_eq_dec : EqDecision PSVirtualSpace.
Proof. solve_decision. Defined.

Implicit Types v o other_space : PSVirtualSpace.

Definition committed_size v : Z :=
  pointer_delta_sz (_committed_high_addr v) (_committed_low_addr v) 1.
Definition reserved_size v : Z :=
  pointer_delta_sz (_reserved_high_addr v) (_reserved_low_addr v) 1.
Definition uncommitted_size v : Z := u64 (reserved_size v - committed_size v).

Definition set_reserved v (low_addr high_addr : Z) (special : bool) : PSVirtualSpace :=
  mkVirtualSpace (_alignment v) low_addr high_addr
    (_committed_low_addr v) (_committed_high_addr v) special.
Definition set_reserved_space v (rs : ReservedSpace) : PSVirtualSpace :=
  set_reserved v (rs_base rs) (u64 (rs_base rs + rs_size rs)) (rs_special rs).
Definition set_committed v (low_addr high_addr : Z) : PSVirtualSpace :=
  mkVirtualSpace (_alignment v) (_reserved_low_addr v) (_reserved_high_addr v)
    low_addr high_addr (_special v).

(** A space of which only the alignment is set. *)
Definition unset (alignment : Z) : PSVirtualSpace := mkVirtualSpace alignment 0 0 0 0 false.

(** [PSVirtualSpace(ReservedSpace rs, size_t alignment)] *)
Definition create (rs : ReservedSpace) (alignment : Z) : PSVirtualSpace :=
  let v := set_reserved_space (unset alignment) rs in
  set_committed v (_reserved_low_addr v) (_reserved_low_addr v).

Definition contains v (p : Z) : bool :=
  (p >=? _committed_low_addr v) && (p <? _committed_high_addr v).

Definition release v : PSVirtualSpace := unset (_alignment v).

Definition expand_by (os : os_memory) v (bytes : Z) : bool * PSVirtualSpace :=
  if uncommitted_size v <? bytes then (false, v)
  else
    let base_addr := _committed_high_addr v in
    let result := _special v || commit_memory os base_addr bytes in
    (result,
     if result then set_committed v (_committed_low_addr v) (u64 (_committed_high_addr v + bytes))
     else v).

(** [bool initialize(ReservedSpace rs, size_t commit_size)] *)
Definition initialize (os : os_memory) v (rs : ReservedSpace) (commit_size : Z)
    : bool * PSVirtualSpace :=
  let v := set_reserved_space v rs in
  let v := set_committed v (_reserved_low_addr v) (_reserved_low_addr v) in
  if commit_size >? 0 then expand_by os v commit_size else (true, v).

Definition shrink_by (os : os_memory) v (bytes : Z) : bool * PSVirtualSpace :=
  if committed_size v <? bytes then (false, v)
  else
    let base_addr := u64 (_committed_high_addr v - bytes) in
    let result := _special v || uncommit_memory os base_addr bytes in
    (result,
     if result then set_committed v (_committed_low_addr v) (u64 (_committed_high_addr v - bytes))
     else v).

(** [_reserved_high_addr += n; _committed_high_addr += n] *)
Definition grow_high v (n : Z) : PSVirtualSpace :=
  mkVirtualSpace (_alignment v) (_reserved_low_addr v) (u64 (_reserved_high_addr v + n))
    (_committed_low_addr v) (u64 (_committed_high_addr v + n)) (_special v).

(** The last step of [expand_into]: take committed memory of the other space. *)
Definition take_committed_low v other_space (tmp_bytes : Z) : PSVirtualSpace * PSVirtualSpace :=
  if tmp_bytes >? 0 then
    let other_space := set_committed other_space
      (u64 (_committed_low_addr other_space + tmp_bytes)) (_committed_high_addr other_space) in
    let other_space := set_reserved other_space
      (u64 (_reserved_low_addr other_space + tmp_bytes)) (_reserved_high_addr other_space)
      (_special other_space) in
    (grow_high v tmp_bytes, other_space)
  else (v, other_space).

(** [expand_into]: the number of bytes, the space and the other space. *)
Definition expand_into (os : os_memory) v other_space (bytes : Z)
    : Z * PSVirtualSpace * PSVirtualSpace :=
  let tmp_bytes := MIN2 (uncommitted_size v) bytes in
  let '(ok, v) := if tmp_bytes >? 0 then expand_by os v tmp_bytes else (true, v) in
  if negb ok then (0, v, other_space)
  else
    let bytes_needed := if tmp_bytes >? 0 then u64 (bytes - tmp_bytes) else bytes in
    let tmp_bytes := MIN2 (uncommitted_size other_space) bytes_needed in
    if tmp_bytes >? 0 then
      let commit_base := _committed_high_addr v in
      if _special other_space || commit_memory os commit_base tmp_bytes then
        let other_space := set_reserved other_space
          (u64 (_reserved_low_addr other_space + tmp_bytes)) (_reserved_high_addr other_space)
          (_special other_space) in
        let v := grow_high v tmp_bytes in
        let bytes_needed := u64 (bytes_needed - tmp_bytes) in
        let '(v, other_space) := take_committed_low v other_space bytes_needed in
        (bytes, v, other_space)
      else (u64 (bytes - bytes_needed), v, other_space)
    else
      let '(v, other_space) := take_committed_low v other_space bytes_needed in
      (bytes, v, other_space).

(** ** Spaces that grow down *)

(** [PSVirtualSpaceHighToLow(ReservedSpace rs, size_t alignment)] *)
Definition create_down (rs : ReservedSpace) (alignment : Z) : PSVirtualSpace :=
  let v := set_reserved_space (unset alignment) rs in
  set_committed v (_reserved_high_addr v) (_reserved_high_addr v).

Definition expand_by_down (os : os_memory) v (bytes : Z) : bool * PSVirtualSpace :=
  if uncommitted_size v <? bytes then (false, v)
  else
    let base_addr := u64 (_committed_low_addr v - bytes) in
    let result := _special v || commit_memory os base_addr bytes in
    (result,
     if result then set_committed v (u64 (_committed_low_addr v - bytes)) (_committed_high_addr v)
     else v).

Definition shrink_by_down (os : os_memory) v (bytes : Z) : bool * PSVirtualSpace :=
  if committed_size v <? bytes then (false, v)
  else
    let base_addr := _committed_low_addr v in
    let result := _special v || uncommit_memory os base_addr bytes in
    (result,
     if result then set_committed v (u64 (_committed_low_addr v + bytes)) (_committed_high_addr v)
     else v).

(** [_reserved_low_addr -= n; _committed_low_addr -= n] *)
Definition grow_low v (n : Z) : PSVirtualSpace :=
  mkVirtualSpace (_alignment v) (u64 (_reserved_low_addr v - n)) (_reserved_high_addr v)
    (u64 (_committed_low_addr v - n)) (_committed_high_addr v) (_special v).

Definition take_committed_high v other_space (tmp_bytes : Z) : PSVirtualSpace * PSVirtualSpace :=
  if tmp_bytes >? 0 then
    let other_space := set_committed other_space
      (_committed_low_addr other_space) (u64 (_committed_high_addr other_space - tmp_bytes)) in
    let other_space := set_reserved other_space
      (_reserved_low_addr other_space) (u64 (_reserved_high_addr other_space - tmp_bytes))
      (_special other_space) in
    (grow_low v tmp_bytes, other_space)
  else (v, other_space).

Definition expand_into_down (os : os_memory) v other_space (bytes : Z)
    : Z * PSVirtualSpace * PSVirtualSpace :=
  let tmp_bytes := MIN2 (uncommitted_size v) bytes in
  let '(ok, v) := if tmp_bytes >? 0 then expand_by_down os v tmp_bytes else (true, v) in
  if negb ok then (0, v, other_space)
  else
    let bytes_needed := if tmp_bytes >? 0 then u64 (bytes - tmp_bytes) else bytes in
    let tmp_bytes := MIN2 (uncommitted_size other_space) bytes_needed in
    if tmp_bytes >? 0 then
      let commit_base := u64 (_committed_low_addr v - tmp_bytes) in
      if _special other_space || commit_memory os commit_base tmp_bytes then
        let other_space := set_reserved other_space
          (_reserved_low_addr other_space) (u64 (_reserved_high_addr other_space - tmp_bytes))
          (_special other_space) in
        let v := grow_low v tmp_bytes in
        let bytes_needed := u64 (bytes_needed - tmp_bytes) in
        let '(v, other_space) := take_committed_high v other_space bytes_needed in
        (bytes, v, other_space)
      else (u64 (bytes - bytes_needed), v, other_space)
    else
      let '(v, other_space) := take_committed_high v other_space bytes_needed in
      (bytes, v, other_space).

(** ** Well-formed spaces *)

Definition wf_up v : Prop :=
  0 <= _reserved_low_addr v
  /\ _committed_low_addr v = _reserved_low_addr v
  /\ _committed_low_addr v <= _committed_high_addr v <= _reserved_high_addr v
  /\ _reserved_high_addr v < 2 ^ 64.

Definition wf_down v : Prop :=
  0 <= _reserved_low_addr v
  /\ _reserved_low_addr v <= _committed_low_addr v <= _committed_high_addr v
  /\ _committed_high_addr v = _reserved_high_addr v
  /\ _reserved_high_addr v < 2 ^ 64.

(** A space that grows up below one that grows down. *)
Definition adjacent v other_space : Prop :=
  wf_up v /\ wf_down other_space /\ _reserved_high_addr v = _reserved_low_addr other_space.

#[export] Instance adjacent_dec v o : Decision (adjacent v o).
Proof. unfold adjacent, wf_up, wf_down. apply _. Defined.

(** Case analysis on the tests of an operation. *)
Ltac cases :=
  repeat match goal with
  | |- context [Z.gtb ?a ?b] => rewrite (Z.gtb_ltb a b)
  | |- context [Z.geb ?a ?b] => rewrite (Z.geb_leb a b)
  | |- context [Z.ltb ?a ?b] => destruct (Z.ltb_spec a b)
  end.

Lemma sizes_up v : wf_up v ->
  committed_size v = _committed_high_addr v - _committed_low_addr v
  /\ uncommitted_size v = _reserved_high_addr v - _committed_high_addr v.
Proof.
  intros (? & ? & ? & ?). unfold uncommitted_size, reserved_size, committed_size, pointer_delta_sz.
  rewrite !Z.div_1_r. rewrite (u64_small (_committed_high_addr v - _)) by ulia.
  rewrite (u64_small (_reserved_high_addr v - _)) by ulia. rewrite u64_small by ulia. lia.
Qed.

Lemma sizes_down v : wf_down v ->
  committed_size v = _committed_high_addr v - _committed_low_addr v
  /\ uncommitted_size v = _committed_low_addr v - _reserved_low_addr v.
Proof.
  intros (? & ? & ? & ?). unfold uncommitted_size, reserved_size, committed_size, pointer_delta_sz.
  rewrite !Z.div_1_r. rewrite (u64_small (_committed_high_addr v - _)) by ulia.
  rewrite (u64_small (_reserved_high_addr v - _)) by ulia. rewrite u64_small by ulia. lia.
Qed.

Lemma expand_by_run os v bytes :
  wf_up v -> 0 <= bytes <= _reserved_high_addr v - _committed_high_addr v ->
  expand_by os v bytes =
    if _special v || commit_memory os (_committed_high_addr v) bytes
    then (true, set_committed v (_committed_low_addr v) (_committed_high_addr v + bytes))
    else (false, v).
Proof.
  intros Hv Hb. destruct (sizes_up v Hv) as [_ Hu]. unfold expand_by. rewrite Hu.
  destruct Hv as (? & ? & ? & ?). cases; [lia|].
  rewrite u64_small by ulia. by destruct (_special v || _).
Qed.

Lemma expand_by_down_run os v bytes :
  wf_down v -> 0 <= bytes <= _committed_low_addr v - _reserved_low_addr v ->
  expand_by_down os v bytes =
    if _special v || commit_memory os (_committed_low_addr v - bytes) bytes
    then (true, set_committed v (_committed_low_addr v - bytes) (_committed_high_addr v))
    else (false, v).
Proof.
  intros Hv Hb. destruct (sizes_down v Hv) as [_ Hu]. unfold expand_by_down. rewrite Hu.
  destruct Hv as (? & ? & ? & ?). cases; [lia|].
  rewrite u64_small by ulia. by destruct (_special v || _).
Qed.

(** ** Expansion into an adjacent space *)

(** Some call of the operating system refuses memory. *)
Definition refused (os : os_memory) : Prop := exists addr bytes, commit_memory os addr bytes = false.

(** [v] grew by [n] of [bytes] bytes towards [o]: the boundary moved up as far as
    needed, the committed part of [o] as far as the boundary. *)
Definition grown_up (os : os_memory) v o (bytes : Z) (r : Z * PSVirtualSpace * PSVirtualSpace) : Prop :=
  let '(n, v', o') := r in
  adjacent v' o' /\ _reserved_low_addr v' = _reserved_low_addr v
  /\ _reserved_high_addr o' = _reserved_high_addr o
  /\ 0 <= n <= bytes /\ _committed_high_addr v' = _committed_high_addr v + n
  /\ _reserved_high_addr v' = Z.max (_reserved_high_addr v) (_committed_high_addr v')
  /\ _committed_low_addr o' = Z.max (_committed_low_addr o) (_reserved_low_addr o')
  /\ (n = bytes \/ refused os).

(** [o] grew by [n] of [bytes] bytes towards [v], mirrored. *)
Definition grown_down (os : os_memory) v o (bytes : Z) (r : Z * PSVirtualSpace * PSVirtualSpace) : Prop :=
  let '(n, o', v') := r in
  adjacent v' o' /\ _reserved_low_addr v' = _reserved_low_addr v
  /\ _reserved_high_addr o' = _reserved_high_addr o
  /\ 0 <= n <= bytes /\ _committed_low_addr o' = _committed_low_addr o - n
  /\ _reserved_low_addr o' = Z.min (_reserved_low_addr o) (_committed_low_addr o')
  /\ _committed_high_addr v' = Z.min (_committed_high_addr v) (_reserved_high_addr v')
  /\ (n = bytes \/ refused os).

Lemma set_committed_same v low high :
  low = _committed_low_addr v -> high = _committed_high_addr v -> set_committed v low high = v.
Proof. intros -> ->. by destruct v. Qed.

Lemma set_reserved_same v low high :
  low = _reserved_low_addr v -> high = _reserved_high_addr v ->
  set_reserved v low high (_special v) = v.
Proof. intros -> ->. by destruct v. Qed.

(** The first step of [expand_into]: use the uncommitted part of the space. *)
Lemma own_step (os : os_memory) v t :
  wf_up v -> 0 <= t <= _reserved_high_addr v - _committed_high_addr v ->
  exists ok : bool, (if t >? 0 then expand_by os v t else (true, v))
    = (ok, if ok then set_committed v (_committed_low_addr v) (_committed_high_addr v + t) else v)
  /\ (ok = false -> refused os).
Proof.
  intros Hv Ht. rewrite expand_by_run by done. cases.
  - destruct (_special v || _) eqn:E; [by exists true|]. exists false. split; [done|].
    intros _. apply orb_false_iff in E as [_ E]. eexists _, _. exact E.
  - exists true. split; [|done]. by rewrite set_committed_same by lia.
Qed.

Lemma own_step_down (os : os_memory) v t :
  wf_down v -> 0 <= t <= _committed_low_addr v - _reserved_low_addr v ->
  exists ok : bool, (if t >? 0 then expand_by_down os v t else (true, v))
    = (ok, if ok then set_committed v (_committed_low_addr v - t) (_committed_high_addr v) else v)
  /\ (ok = false -> refused os).
Proof.
  intros Hv Ht. rewrite expand_by_down_run by done. cases.
  - destruct (_special v || _) eqn:E; [by exists true|]. exists false. split; [done|].
    intros _. apply orb_false_iff in E as [_ E]. eexists _, _. exact E.
  - exists true. split; [|done]. by rewrite set_committed_same by lia.
Qed.

(** The bytes still needed after a step that took [t] of them. *)
Lemma left_over bytes t : 0 <= t <= bytes -> bytes < 2 ^ 64 ->
  (if t >? 0 then u64 (bytes - t) else bytes) = bytes - t.
Proof. intros Ht Hb. cases; [apply u64_small; ulia | lia]. Qed.

Lemma expand_into_grown os v o bytes :
  adjacent v o -> 0 <= bytes <= _reserved_high_addr o - _committed_high_addr v ->
  grown_up os v o bytes (expand_into os v o bytes).
Proof.
  intros (Hv & Ho & Ha) Hb. unfold expand_into.
  destruct (sizes_up v Hv) as [_ ->]. destruct (sizes_down o Ho) as [_ ->]. rewrite !MIN2_min.
  set (t1 := Z.min (_reserved_high_addr v - _committed_high_addr v) bytes).
  pose proof Hv as (? & ? & ? & ?). pose proof Ho as (? & ? & ? & ?).
  destruct (own_step os v t1 Hv ltac:(lia)) as (ok & -> & Hok).
  rewrite left_over by lia.
  set (t2 := Z.min (_committed_low_addr o - _reserved_low_addr o) (bytes - t1)).
  unfold take_committed_low, grow_high, grown_up, adjacent, wf_up, wf_down.
  destruct ok; cbn [negb]; [|specialize (Hok eq_refl); simpl; split_and!; try lia; by right].
  destruct (Z.gtb_spec t2 0) as [Ht2|Ht2].
  - destruct (_special o || _) eqn:E; cycle 1.
    { rewrite u64_small by ulia. simpl. split_and!; try lia. right.
      apply orb_false_iff in E as [_ E]. by eexists _, _. }
    cbn -[Z.max Z.min wrap Z.pow]. rewrite (u64_small (bytes - t1 - t2)) by ulia.
    cases; cbn -[Z.max Z.min wrap Z.pow]; rewrite !u64_small by ulia; split_and!; try lia; by left.
  - cases; cbn -[Z.max Z.min wrap Z.pow]; rewrite ?u64_small by ulia; split_and!; try lia; by left.
Qed.

Lemma expand_into_down_grown os v o bytes :
  adjacent v o -> 0 <= bytes <= _committed_low_addr o - _reserved_low_addr v ->
  grown_down os v o bytes (expand_into_down os o v bytes).
Proof.
  intros (Hv & Ho & Ha) Hb. unfold expand_into_down.
  destruct (sizes_up v Hv) as [_ ->]. destruct (sizes_down o Ho) as [_ ->]. rewrite !MIN2_min.
  set (t1 := Z.min (_committed_low_addr o - _reserved_low_addr o) bytes).
  pose proof Hv as (? & ? & ? & ?). pose proof Ho as (? & ? & ? & ?).
  destruct (own_step_down os o t1 Ho ltac:(lia)) as (ok & -> & Hok).
  rewrite left_over by lia.
  set (t2 := Z.min (_reserved_high_addr v - _committed_high_addr v) (bytes - t1)).
  unfold take_committed_high, grow_low, grown_down, adjacent, wf_up, wf_down.
  destruct ok; cbn [negb]; [|specialize (Hok eq_refl); simpl; split_and!; try lia; by right].
  destruct (Z.gtb_spec t2 0) as [Ht2|Ht2].
  - destruct (_special v || _) eqn:E; cycle 1.
    { rewrite u64_small by ulia. simpl. split_and!; try lia. right.
      apply orb_false_iff in E as [_ E]. by eexists _, _. }
    cbn -[Z.max Z.min wrap Z.pow]. rewrite (u64_small (bytes - t1 - t2)) by ulia.
    cases; cbn -[Z.max Z.min wrap Z.pow]; rewrite !u64_small by ulia; split_and!; try lia; by left.
  - cases; cbn -[Z.max Z.min wrap Z.pow]; rewrite ?u64_small by ulia; split_and!; try lia; by left.
Qed.

(** Two adjacent virtual spaces share one reserved range.  Whichever of the two
    expands into the other, by any number of bytes there is room for, the spaces
    stay well formed and adjacent and the outer limits of the range do not move; the
    space grows by exactly the number of bytes the operation returns, which is the
    number asked for unless the operating system refused memory; the boundary moves
    only as far as the committed part needs, and the other space gives up committed
    memory only where the boundary reaches it. *)
Theorem expand_into_spec (os : os_memory) (v o : PSVirtualSpace) (bytes : Z)
    (Ha : adjacent v o) (H0 : 0 <= bytes)
    (Hup : bytes <= _reserved_high_addr o - _committed_high_addr v)
    (Hdown : bytes <= _committed_low_addr o - _reserved_low_addr v) :
  grown_up os v o bytes (expand_into os v o bytes)
  /\ grown_down os v o bytes (expand_into_down os o v bytes).
Proof. split; [by apply expand_into_grown | by apply expand_into_down_grown]. Qed.

(** Two spaces of 64K with 16K committed each: the first takes 112K, which leaves
    the other nothing. *)
Lemma expand_into_spec_witness :
  let os := mkOs (fun _ _ => true) (fun _ _ => true) in
  let v := mkVirtualSpace 4096 0x10000 0x20000 0x10000 0x14000 false in
  let o := mkVirtualSpace 4096 0x20000 0x30000 0x2c000 0x30000 false in
  grown_up os v o 0x1c000 (expand_into os v o 0x1c000)
  /\ fst (fst (expand_into os v o 0x1c000)) = 0x1c000.
Proof.
  intros os v o. split; [|vm_compute; reflexivity].
  refine (proj1 (expand_into_spec os v o 0x1c000 _ _ _ _)); [decide_now | lia | simpl; lia | simpl; lia].
Defined.

(** Shrinking gives back the memory that expanding took. *)
Lemma shrink_expand os v bytes v' :
  wf_up v -> 0 <= bytes < 2 ^ 64 -> expand_by os v bytes = (true, v') ->
  wf_up v' /\ (_special v || uncommit_memory os (_committed_high_addr v) bytes = true ->
               shrink_by os v' bytes = (true, v)).
Proof.
  intros Hv Hb. unfold expand_by. destruct (sizes_up v Hv) as [_ ->].
  pose proof Hv as (? & ? & ? & ?). destruct (Z.ltb_spec (_reserved_high_addr v - _committed_high_addr v) bytes);
    [done|].
  destruct (_special v || commit_memory os _ _); [|done]. intros [= <-].
  rewrite u64_small by ulia.
  assert (Hv' : wf_up (set_committed v (_committed_low_addr v) (_committed_high_addr v + bytes)))
    by (unfold wf_up; simpl; lia).
  split; [exact Hv'|]. intros Hu. unfold shrink_by. destruct (sizes_up _ Hv') as [-> _]. simpl.
  cases; [lia|]. rewrite u64_small by ulia.
  replace (_committed_high_addr v + bytes - bytes) with (_committed_high_addr v) by lia.
  rewrite Hu. by destruct v.
Qed.

End PSVirtualSpace.
