(* ===== verification/MutableSpace.v ===== *)
(** * Mutable spaces

    [gc_implementation/shared/mutableSpace.hpp] and [.cpp]: a space is the range
    [bottom, end) of the heap with an allocation pointer [top].  This file holds
    its initialisation (with the page set-up of NUMA and pre-touching), the
    locked and the lock-free allocators, de-allocation, and the walks over the
    objects of a space; [ParAllocate] runs the lock-free allocator with any
    number of racing threads. *)

From stdpp Require Import base sets list numbers relations.
From Stdlib Require Import ZArith Lia.
From S2P Require Import Prelude GlobalDefs Floats MemRegion.

Local Open Scope Z_scope.

Module MutableSpace.

Record MutableSpace := mkMutableSpace {
  _bottom : Z;
  _end : Z;
  _top : Z;
  _alignment : Z;
  _last_setup_region : MemRegion.MemRegion
}.

(** The constructor. *)
Definition new (alignment : Z) : MutableSpace :=
  mkMutableSpace NULL NULL NULL alignment MemRegion.empty.

Definition bottom (s : MutableSpace) : Z := _bottom s.
Definition end_ (s : MutableSpace) : Z := _end s.
Definition top (s : MutableSpace) : Z := _top s.

Definition set_top (s : MutableSpace) (v : Z) : MutableSpace :=
  mkMutableSpace (_bottom s) (_end s) v (_alignment s) (_last_setup_region s).
Definition set_bottom (s : MutableSpace) (v : Z) : MutableSpace :=
  mkMutableSpace v (_end s) (_top s) (_alignment s) (_last_setup_region s).
Definition set_end (s : MutableSpace) (v : Z) : MutableSpace :=
  mkMutableSpace (_bottom s) v (_top s) (_alignment s) (_last_setup_region s).
Definition set_last_setup_region (s : MutableSpace) (mr : MemRegion.MemRegion) : MutableSpace :=
  mkMutableSpace (_bottom s) (_end s) (_top s) (_alignment s) mr.

Definition used_region (s : MutableSpace) : MemRegion.MemRegion :=
  MemRegion.of_bounds (bottom s) (top s).

Definition contains (s : MutableSpace) (p : Z) : bool := (_bottom s <=? p) && (p <? _end s).
Definition capacity_in_words (s : MutableSpace) : Z := pointer_delta (end_ s) (bottom s).
Definition used_in_words (s : MutableSpace) : Z := pointer_delta (top s) (bottom s).
Definition free_in_words (s : MutableSpace) : Z := pointer_delta (end_ s) (top s).
Definition used_in_bytes (s : MutableSpace) : Z := u64 (used_in_words s * HeapWordSize).
Definition free_in_bytes (s : MutableSpace) : Z := u64 (free_in_words s * HeapWordSize).
Definition is_empty (s : MutableSpace) : bool := used_in_words s =? 0.
Definition not_empty (s : MutableSpace) : bool := used_in_words s >? 0.

(** ** Initialisation *)

Section Initialize.
(** Command-line flags and the page size of the operating system. *)
Context (UseNUMA AlwaysPreTouch UseLargePages : bool) (NUMASpaceResizeRate vm_page_size : Z).

(** What the code asks of the operating system, as a trace. *)
Inductive os_call :=
| free_memory (addr bytes alignment_hint : Z)
| numa_make_global (addr bytes : Z)
| pretouch_memory (start end_ : Z).

Definition numa_setup_pages (s : MutableSpace) (mr : MemRegion.MemRegion) (clear_space : bool)
    : list os_call :=
  if negb (MemRegion.is_empty mr) then
    let page_size := if UseLargePages then _alignment s else vm_page_size in
    let start := round_to (MemRegion.start mr) page_size in
    let end_ := round_down (MemRegion.end_ mr) page_size in
    if end_ >? start then
      let size := pointer_delta_sz end_ start 1 in
      (if clear_space then [free_memory start size page_size] else []) ++
      [numa_make_global start size]
    else []
  else [].

Definition pretouch_pages (mr : MemRegion.MemRegion) : list os_call :=
  [pretouch_memory (MemRegion.start mr) (MemRegion.end_ mr)].

(** [MIN2((size_t)(setup_rate_words * n / change_size), n)] in single precision. *)
Definition limit_size (undef change_size n : Z) : Z :=
  let setup_rate_words := Floats.float_of_Z (Z.shiftr NUMASpaceResizeRate 3) in
  MIN2 (Floats.to_size_t undef
          (Floats.fdiv (Floats.fmul setup_rate_words (Floats.float_of_Z n))
             (Floats.float_of_Z change_size))) n.

(** The regions whose pages are to be set up. *)
Definition setup_regions (undef : Z) (last mr : MemRegion.MemRegion)
    : MemRegion.MemRegion * MemRegion.MemRegion :=
  if MemRegion.is_empty last then
    (mr, MemRegion.of_bounds (MemRegion.end_ mr) (MemRegion.end_ mr))
  else
    let intersection := MemRegion.intersection last mr in
    let intersection :=
      if MemRegion.is_empty intersection
      then MemRegion.of_bounds (MemRegion.end_ mr) (MemRegion.end_ mr) else intersection in
    let head_size :=
      if MemRegion.start mr <=? MemRegion.start intersection
      then pointer_delta (MemRegion.start intersection) (MemRegion.start mr) else 0 in
    let tail_size :=
      if MemRegion.end_ intersection <=? MemRegion.end_ mr
      then pointer_delta (MemRegion.end_ mr) (MemRegion.end_ intersection) else 0 in
    let '(head_size, tail_size) :=
      if (NUMASpaceResizeRate >? 0) && negb AlwaysPreTouch then
        let change_size := u64 (head_size + tail_size) in
        (limit_size undef change_size head_size, limit_size undef change_size tail_size)
      else (head_size, tail_size) in
    (MemRegion.of_bounds (hw_sub (MemRegion.start intersection) head_size)
       (MemRegion.start intersection),
     MemRegion.of_bounds (MemRegion.end_ intersection)
       (hw_add (MemRegion.end_ intersection) tail_size)).

(** The mangling of unused space is for debug builds only. *)
Definition clear (s : MutableSpace) : MutableSpace := set_top s (bottom s).

Definition initialize (undef : Z) (s : MutableSpace) (mr : MemRegion.MemRegion)
    (clear_space setup_pages : bool) : MutableSpace * list os_call :=
  let '(s, calls) :=
    if setup_pages && (UseNUMA || AlwaysPreTouch) then
      let '(head, tail) := setup_regions undef (_last_setup_region s) mr in
      let calls :=
        (if UseNUMA then numa_setup_pages s head clear_space ++ numa_setup_pages s tail clear_space
         else []) ++
        (if AlwaysPreTouch then pretouch_pages head ++ pretouch_pages tail else []) in
      (set_last_setup_region s
         (MemRegion.of_bounds (MemRegion.start head) (MemRegion.end_ tail)), calls)
    else (s, []) in
  let s := set_end (set_bottom s (MemRegion.start mr)) (MemRegion.end_ mr) in
  (if clear_space then clear s else s, calls).
End Initialize.

(** ** Allocation; NULL when the space is full *)

Definition allocate (s : MutableSpace) (size : Z) : Z * MutableSpace :=
  let obj := top s in
  if pointer_delta (end_ s) obj >=? size then
    let new_top := hw_add obj size in
    (obj, set_top s new_top)
  else (NULL, s).

(** The lock-free versions run without interference: the exchange succeeds. *)
Definition cas_allocate (s : MutableSpace) (size : Z) : Z * MutableSpace :=
  let obj := top s in
  if pointer_delta (end_ s) obj >=? size then
    let new_top := hw_add obj size in
    (obj, set_top s new_top)
  else (NULL, s).

(** A filler object installed at an address, with its length in words. *)
Definition filler : Type := Z * Z.

Definition cas_allocate_aligned (filler_header_size : Z) (s : MutableSpace) (size : Z)
    : Z * MutableSpace * list filler :=
  let alignment := Z.shiftl 1 9 in
  let filler_min_sz := filler_header_size in
  let obj := top s in
  if pointer_delta (end_ s) obj >=? size then
    let new_top := align_size_up_ (hw_add obj size) alignment in
    let s := set_top s new_top in
    let result := align_size_up_ obj alignment in
    let fill :=
      if pointer_delta (align_size_up_ obj alignment) obj >=? filler_min_sz
      then [(obj, pointer_delta (align_size_up_ obj alignment) obj)] else [] in
    (result, s, fill)
  else (NULL, s, []).

Definition cas_deallocate (s : MutableSpace) (obj size : Z) : bool * MutableSpace :=
  let expected_top := hw_add obj size in
  if top s =? expected_top then (true, set_top s obj) else (false, s).

(** ** Walks over the objects; [size_of] is the size in words of the object at an
    address.  The loops are bounded by the words of the used region. *)

Section Walk.
Context (size_of : Z -> Z).

Fixpoint walk_objects (fuel : nat) (p t : Z) : option (list Z * Z) :=
  match fuel with
  | O => None
  | S f =>
      if p <? t then
        match walk_objects f (hw_add p (size_of p)) t with
        | Some (l, q) => Some (p :: l, q)
        | None => None
        end
      else Some ([], p)
  end.

Definition walk_fuel (s : MutableSpace) : nat := S (Z.to_nat (used_in_words s)).

(** The addresses the closure is applied to, in order.  The three iterations
    differ in the closure only. *)
Definition object_iterate (s : MutableSpace) : option (list Z) :=
  option_map fst (walk_objects (walk_fuel s) (bottom s) (top s)).

Definition oop_iterate (s : MutableSpace) : option (list Z) :=
  let t := top s in option_map fst (walk_objects (walk_fuel s) (bottom s) t).

Definition oop_iterate_no_header (s : MutableSpace) : option (list Z) :=
  let t := top s in option_map fst (walk_objects (walk_fuel s) (bottom s) t).

(** The outcome of the [guarantee]. *)
Definition verify (s : MutableSpace) : option bool :=
  match walk_objects (walk_fuel s) (bottom s) (top s) with
  | Some (_, p) => Some (p =? top s)
  | None => None
  end.
End Walk.

(** ** Laws *)

(** The invariant of the class: [bottom <= top <= end], at word boundaries. *)
Record wf (s : MutableSpace) : Prop := {
  wf_order : 0 < _bottom s <= _top s /\ _top s <= _end s < 2 ^ 64;
  wf_aligned : _bottom s mod 8 = 0 /\ _top s mod 8 = 0 /\ _end s mod 8 = 0
}.

#[export] Instance wf_dec s : Decision (wf s).
Proof.
  refine (cast_if_and (decide (0 < _bottom s <= _top s /\ _top s <= _end s < 2 ^ 64))
    (decide (_bottom s mod 8 = 0 /\ _top s mod 8 = 0 /\ _end s mod 8 = 0)));
    [by split | by intros [] ..].
Defined.

Lemma free_eq s : wf s -> free_in_words s = (_end s - _top s) / 8.
Proof. intros [? ?]. unfold free_in_words, end_, top. apply pointer_delta_small; unfold is_u64; lia. Qed.

Lemma used_eq s : wf s -> used_in_words s = (_top s - _bottom s) / 8.
Proof. intros [? ?]. unfold used_in_words, bottom, top. apply pointer_delta_small; unfold is_u64; lia. Qed.

(** An allocation that fits moves [top] by the size and keeps the invariant. *)
Lemma allocate_fits s size :
  wf s -> 0 <= size <= free_in_words s ->
  cas_allocate s size = (_top s, set_top s (_top s + 8 * size)) /\
  wf (set_top s (_top s + 8 * size)).
Proof.
  intros Hwf Hsz. pose proof (free_eq s Hwf) as Hf. pose proof Hwf as [Ho Ha].
  unfold cas_allocate. change (pointer_delta (end_ s) (top s)) with (free_in_words s).
  rewrite Z.geb_leb. destruct (Z.leb_spec size (free_in_words s)); [| lia].
  rewrite hw_add_small by (unfold is_u64, top; lia). split; [done |].
  split; simpl; lia.
Qed.

Lemma allocate_full s size :
  free_in_words s < size -> cas_allocate s size = (NULL, s).
Proof.
  intros Hsz. unfold cas_allocate.
  change (pointer_delta (end_ s) (top s)) with (free_in_words s).
  rewrite Z.geb_leb. by destruct (Z.leb_spec size (free_in_words s)); [lia |].
Qed.

(** De-allocating the last block restores the space. *)
Lemma deallocate_allocate s size :
  wf s -> 0 <= size <= free_in_words s ->
  let '(obj, s') := allocate s size in cas_deallocate s' obj size = (true, s).
Proof.
  intros Hwf Hsz. change (allocate s size) with (cas_allocate s size).
  destruct (allocate_fits s size Hwf Hsz) as [-> Hwf'].
  pose proof (free_eq s Hwf). pose proof Hwf as [Ho Ha].
  unfold cas_deallocate. rewrite hw_add_small by (unfold is_u64; lia). simpl.
  rewrite Z.eqb_refl. by destruct s.
Qed.

(** *** Aligned allocation *)

(** A space in which every block is a multiple of the 64-word alignment. *)
Definition aligned (s : MutableSpace) : Prop := _top s mod 512 = 0 /\ _end s mod 512 = 0.

Lemma align_512 x : 0 <= x -> x + 511 < 2 ^ 64 -> align_size_up_ x (Z.shiftl 1 9) = (x + 511) / 512 * 512.
Proof.
  intros. change (Z.shiftl 1 9) with (2 ^ 9). fold (align_size_up x (2 ^ 9)).
  rewrite align_size_up_pow2 by ulia. change (2 ^ 9) with 512. lia.
Qed.

Lemma cas_allocate_aligned_ok h s size :
  wf s -> aligned s -> _end s + 511 < 2 ^ 64 -> 0 < h -> 0 <= size <= free_in_words s ->
  exists s', cas_allocate_aligned h s size = (_top s, s', []) /\
    wf s' /\ aligned s' /\ _bottom s' = _bottom s /\ _end s' = _end s /\
    _top s + 8 * size <= _top s' < _top s + 8 * size + 512.
Proof.
  intros Hwf [Hat Hae] Hlim Hh Hsz. pose proof (free_eq s Hwf) as Hf. pose proof Hwf as [Ho Ha].
  unfold cas_allocate_aligned. change (pointer_delta (end_ s) (top s)) with (free_in_words s).
  rewrite Z.geb_leb. destruct (Z.leb_spec size (free_in_words s)); [| lia].
  rewrite hw_add_small by (unfold is_u64, top; lia). unfold top. rewrite !align_512 by lia.
  replace ((_top s + 511) / 512 * 512) with (_top s) by lia.
  rewrite pointer_delta_small by (unfold is_u64; lia).
  replace ((_top s - _top s) / 8) with 0 by lia. rewrite Z.geb_leb.
  destruct (Z.leb_spec h 0); [lia |]. eexists. split; [done |].
  unfold aligned; simpl. split; [split; simpl; lia |]. split; [split; lia |].
  split; [done |]. split; [done |]. lia.
Qed.

(** *** Page set-up stays inside the space *)
Lemma setup_regions_inside pre rate undef last mr :
  MemRegion.wf mr -> MemRegion.wf last ->
  let '(head, tail) := setup_regions pre rate undef last mr in
  (MemRegion.start mr <= MemRegion.start head /\ MemRegion.end_ head <= MemRegion.end_ mr) /\
  (MemRegion.start mr <= MemRegion.start tail /\ MemRegion.end_ tail <= MemRegion.end_ mr).
Proof.
  intros Hmr Hlast. pose proof (MemRegion.end_eq mr Hmr) as Hend.
  pose proof Hmr as (Hm1 & Hm2 & Hm3 & Hm4).
  assert (0 <= MemRegion.end_ mr < 2 ^ 64 /\ MemRegion.end_ mr mod 8 = 0) as [He1 He2] by lia.
  unfold setup_regions. destruct (MemRegion.is_empty last).
  { destruct (MemRegion.of_bounds_wf (MemRegion.end_ mr) (MemRegion.end_ mr)) as [_ Hb]; [lia .. |].
    rewrite Hb. unfold MemRegion.start; simpl. lia. }
  destruct (MemRegion.intersection_bounds last mr Hlast Hmr) as [Hiw _].
  set (i0 := MemRegion.intersection last mr) in *.
  set (i := if MemRegion.is_empty i0
            then MemRegion.of_bounds (MemRegion.end_ mr) (MemRegion.end_ mr) else i0).
  assert (MemRegion.wf i /\ MemRegion.start mr <= MemRegion.start i <= MemRegion.end_ mr /\
          MemRegion.start mr <= MemRegion.end_ i <= MemRegion.end_ mr) as (Hi1 & Hi2 & Hi3).
  { unfold i. unfold MemRegion.is_empty, MemRegion.word_size.
    destruct (Z.eqb_spec (MemRegion._word_size i0) 0).
    - destruct (MemRegion.of_bounds_wf (MemRegion.end_ mr) (MemRegion.end_ mr)) as [Hw Hb]; [lia .. |].
      split; [done |]. rewrite Hb. unfold MemRegion.start; simpl. lia.
    - split; [done |]. pose proof (MemRegion.end_eq i0 Hiw) as Hie.
      pose proof Hiw as (? & ? & ? & ?). unfold MemRegion.start.
      destruct (MemRegion.intersection_within last mr) as [Hw1 Hw2]; [done .. |].
      fold i0 in Hw1, Hw2. lia. }
  clearbody i. pose proof (MemRegion.end_eq i Hi1) as Hie. pose proof Hi1 as (? & ? & ? & ?).
  set (hs := if MemRegion.start mr <=? MemRegion.start i then _ else 0).
  set (ts := if MemRegion.end_ i <=? MemRegion.end_ mr then _ else 0).
  unfold MemRegion.start in *.
  assert (hs = (MemRegion._start i - MemRegion._start mr) / 8) as Hhs.
  { unfold hs. destruct (Z.leb_spec (MemRegion._start mr) (MemRegion._start i)); [| lia].
    apply pointer_delta_small; unfold is_u64; lia. }
  assert (ts = (MemRegion.end_ mr - MemRegion.end_ i) / 8) as Hts.
  { unfold ts. destruct (Z.leb_spec (MemRegion.end_ i) (MemRegion.end_ mr)); [| lia].
    apply pointer_delta_small; unfold is_u64; lia. }
  clearbody hs ts.
  assert (forall h t, 0 <= h <= hs -> 0 <= t <= ts ->
    let head := MemRegion.of_bounds (hw_sub (MemRegion._start i) h) (MemRegion._start i) in
    let tail := MemRegion.of_bounds (MemRegion.end_ i) (hw_add (MemRegion.end_ i) t) in
    (MemRegion._start mr <= MemRegion._start head /\ MemRegion.end_ head <= MemRegion.end_ mr) /\
    (MemRegion._start mr <= MemRegion._start tail /\ MemRegion.end_ tail <= MemRegion.end_ mr))
    as Hfin.
  { intros h t Hh Ht. unfold hw_sub, HeapWordSize. rewrite u64_small by ulia.
    rewrite hw_add_small by ulia. cbv zeta.
    destruct (MemRegion.of_bounds_wf (MemRegion._start i - h * 8) (MemRegion._start i)) as [_ ->]; [lia .. |].
    destruct (MemRegion.of_bounds_wf (MemRegion.end_ i) (MemRegion.end_ i + 8 * t)) as [_ ->]; [lia .. |].
    simpl. lia. }
  destruct ((rate >? 0) && negb pre); [| apply Hfin; lia].
  assert (forall u c n, 0 <= n -> 0 <= limit_size rate u c n <= n) as Hlim.
  { intros u c n Hn. unfold limit_size. rewrite MIN2_min.
    match goal with |- context [Floats.to_size_t ?a ?b] => pose proof (Floats.to_size_t_range a b) end.
    unfold is_u64 in *. lia. }
  apply Hfin; apply Hlim; lia.
Qed.

(** *** Walks *)

Lemma walk_objects_tiles size_of n p l t :
  0 <= p -> t < 2 ^ 64 -> tiles size_of p l t -> (length l < n)%nat ->
  walk_objects size_of n p t = Some (l, t).
Proof.
  revert p l. induction n as [| n IH]; intros p l Hp Ht Hl Hn; [lia |]. simpl.
  destruct l as [| a l]; simpl in Hl.
  - subst. by rewrite Z.ltb_irrefl.
  - destruct Hl as (-> & Hs & Hl). pose proof (tiles_le _ _ _ _ Hl).
    destruct (Z.ltb_spec p t); [| lia]. rewrite hw_add_small by ulia.
    rewrite (IH _ l); [done | lia | done | done | simpl in Hn; lia].
Qed.

(** When the used part of the space is tiled by objects every walk visits exactly
    those objects in address order, and verification succeeds. *)
Lemma walks_tiled size_of s l :
  wf s -> tiles size_of (_bottom s) l (_top s) ->
  object_iterate size_of s = Some l /\ oop_iterate size_of s = Some l /\
  verify size_of s = Some true.
Proof.
  intros Hwf Hl. pose proof (tiles_le _ _ _ _ Hl). pose proof (used_eq s Hwf) as Hu.
  destruct Hwf as [Ho Ha].
  assert (walk_objects size_of (walk_fuel s) (bottom s) (top s) = Some (l, top s)) as Hw.
  { apply walk_objects_tiles; [unfold bottom; lia | unfold top; lia | done |].
    unfold walk_fuel. lia. }
  unfold object_iterate, oop_iterate, verify. rewrite Hw. simpl. by rewrite Z.eqb_refl.
Qed.

(** ** Properties *)

(** Allocation: it succeeds exactly when the words are free, returns the old
    [top], hands out the block [top, top + size) inside the space, keeps the
    invariant, and can be undone while it is the last one. *)
Theorem allocate_spec (s : MutableSpace) (size : Z) :
  wf s -> 0 <= size < 2 ^ 64 ->
  let '(obj, s') := allocate s size in
  wf s' /\ _bottom s' = _bottom s /\ _end s' = _end s /\
  (obj <> NULL <-> size <= free_in_words s) /\
  (obj <> NULL -> obj = _top s /\ _top s' = obj + 8 * size /\
     used_in_words s' = used_in_words s + size /\ cas_deallocate s' obj size = (true, s)) /\
  (obj = NULL -> s' = s).
Proof.
  intros Hwf Hsz. change (allocate s size) with (cas_allocate s size).
  pose proof (used_eq s Hwf) as Hu. pose proof (free_eq s Hwf) as Hfr.
  destruct (Z.le_gt_cases size (free_in_words s)) as [Hfit | Hno].
  - pose proof (deallocate_allocate s size Hwf ltac:(lia)) as Hd.
    change (allocate s size) with (cas_allocate s size) in Hd.
    destruct (allocate_fits s size Hwf ltac:(lia)) as [E Hwf']. rewrite E in Hd |- *.
    pose proof (used_eq _ Hwf') as Hu'. simpl in Hu'. destruct Hwf as [Ho Ha].
    assert (_top s <> NULL) by (unfold NULL; lia).
    split; [done |]. do 2 (split; [done |]). split; [tauto |]. split; [| done].
    intros _. split; [done |]. split; [done |]. split; [lia | done].
  - rewrite allocate_full by lia. split; [done |]. do 2 (split; [done |]).
    split; [split; [done | lia] |]. split; [done | done].
Qed.

Lemma allocate_spec_witness :
  allocate (mkMutableSpace 4096 8192 4096 4096 MemRegion.empty) 100 =
    (4096, mkMutableSpace 4096 8192 4896 4096 MemRegion.empty) /\
  fst (allocate (mkMutableSpace 4096 8192 4896 4096 MemRegion.empty) 413) = NULL.
Proof.
  pose proof (allocate_spec (mkMutableSpace 4096 8192 4096 4096 MemRegion.empty) 100) as H1.
  pose proof (allocate_spec (mkMutableSpace 4096 8192 4896 4096 MemRegion.empty) 413) as H2.
  destruct (allocate (mkMutableSpace 4096 8192 4096 4096 MemRegion.empty) 100) as [o1 s1] eqn:E1.
  destruct (allocate (mkMutableSpace 4096 8192 4896 4096 MemRegion.empty) 413) as [o2 s2] eqn:E2.
  destruct H1 as (_ & _ & _ & Hiff & Hok & _); [decide_now | lia |].
  destruct H2 as (_ & _ & _ & Hiff2 & _); [decide_now | lia |].
  vm_compute in E1, E2. injection E1 as <- <-. injection E2 as <- <-. done.
Defined.

(** Aligned allocation, as the code uses it: while the allocation pointer and
    the end of the space are aligned to 64 words a block that fits starts at
    the old [top], ends at or before the new one, needs no filler, and the
    space stays aligned. *)
Theorem cas_allocate_aligned_spec (filler_header_size : Z) (s : MutableSpace) (size : Z) :
  wf s -> aligned s -> _end s + 511 < 2 ^ 64 -> 0 < filler_header_size ->
  0 <= size <= free_in_words s ->
  exists s', cas_allocate_aligned filler_header_size s size = (_top s, s', []) /\
    wf s' /\ aligned s' /\ _bottom s' = _bottom s /\ _end s' = _end s /\
    _top s + 8 * size <= _top s' < _top s + 8 * size + 512.
Proof. apply cas_allocate_aligned_ok. Qed.

Lemma cas_allocate_aligned_spec_witness :
  exists s', cas_allocate_aligned 3 (mkMutableSpace 4096 8192 4096 4096 MemRegion.empty) 70 =
    (4096, s', []) /\ _top s' = 5120.
Proof.
  destruct (cas_allocate_aligned_spec 3 (mkMutableSpace 4096 8192 4096 4096 MemRegion.empty) 70)
    as (s' & H & _); [decide_now | by vm_compute | simpl; lia | lia | vm_compute; split; discriminate |].
  exists s'. split; [exact H |]. vm_compute in H. injection H as <-. reflexivity.
Defined.

(** Without the alignment of [top] the block can reach past the new [top], so that
    the next allocation overlaps it: here the block [8704, 9152) is handed out
    while [top] becomes 8704. *)
Lemma cas_allocate_aligned_overlap :
  let s := mkMutableSpace 8192 16384 8256 4096 MemRegion.empty in
  exists s' f, cas_allocate_aligned 3 s 56 = (8704, s', f) /\ _top s' < 8704 + 8 * 56.
Proof. eexists _, _. split; [vm_compute; reflexivity |]. vm_compute. reflexivity. Qed.

(** The page set-up of a space never touches pages outside the new region,
    whatever region was set up before and however the rate limits it. *)
Theorem setup_inside (AlwaysPreTouch : bool) (NUMASpaceResizeRate undef : Z)
    (last mr : MemRegion.MemRegion) :
  MemRegion.wf mr -> MemRegion.wf last ->
  let '(head, tail) := setup_regions AlwaysPreTouch NUMASpaceResizeRate undef last mr in
  (MemRegion.start mr <= MemRegion.start head /\ MemRegion.end_ head <= MemRegion.end_ mr) /\
  (MemRegion.start mr <= MemRegion.start tail /\ MemRegion.end_ tail <= MemRegion.end_ mr).
Proof. apply setup_regions_inside. Qed.

(** With a rate of 1 MB the head of 400000 words is cut to 87381 words and the tail
    of 200000 to 43690. *)
Lemma setup_inside_witness :
  let '(head, tail) := setup_regions false 1048576 0
    (MemRegion.mkMemRegion 4000000 100000) (MemRegion.mkMemRegion 800000 700000) in
  MemRegion.word_size head = 87381 /\ MemRegion.word_size tail = 43690 /\
  800000 <= MemRegion.start head.
Proof.
  pose proof (setup_inside false 1048576 0
    (MemRegion.mkMemRegion 4000000 100000) (MemRegion.mkMemRegion 800000 700000)) as H.
  destruct (setup_regions _ _ _ _ _) as [head tail] eqn:E.
  destruct H as [[H _] _]; [decide_now | decide_now |].
  split; [| split; [| exact H]]; vm_compute in E; injection E as <- <-; reflexivity.
Defined.

(** The walks over a space visit exactly the objects that tile it, in address
    order, and [verify] holds for such a space. *)
Theorem walks_visit_tiling (size_of : Z -> Z) (s : MutableSpace) (l : list Z) :
  wf s -> tiles size_of (_bottom s) l (_top s) ->
  object_iterate size_of s = Some l /\ oop_iterate size_of s = Some l /\
  verify size_of s = Some true.
Proof. apply walks_tiled. Qed.

Lemma walks_visit_tiling_witness :
  object_iterate (fun p => if p =? 4096 then 5 else 2)
    (mkMutableSpace 4096 8192 4168 4096 MemRegion.empty) = Some [4096; 4136; 4152].
Proof.
  destruct (walks_visit_tiling (fun p => if p =? 4096 then 5 else 2)
    (mkMutableSpace 4096 8192 4168 4096 MemRegion.empty) [4096; 4136; 4152]) as [H _];
    [decide_now | by vm_compute | exact H].
Defined.

End MutableSpace.
