(* ===== verification/MutableSpacePar.v ===== *)
(** * Racing allocations in a space

    [MutableSpace::cas_allocate] ([gc_implementation/shared/mutableSpace.cpp]) run
    by any number of threads, interleaved at its accesses to [_top]: the load at
    the head of the loop and the [Atomic::cmpxchg_ptr]. *)

From stdpp Require Import base list numbers relations.
From Stdlib Require Import ZArith Lia.
From S2P Require Import Prelude GlobalDefs MemRegion MutableSpace.

Local Open Scope Z_scope.
Import MutableSpace.

Module ParAllocate.

(** Before the load of [top], between the load and the exchange, or returned. *)
Inductive pc := Load | Cas (obj : Z) | Ret (result : Z).

Record thread := mkThread { th_size : Z; th_pc : pc }.

Record state := mkState { space : MutableSpace; threads : list thread }.

Definition thread_step (s : MutableSpace) (th : thread) : option (MutableSpace * thread) :=
  let size := th_size th in
  match th_pc th with
  | Load =>
      let obj := top s in
      if pointer_delta (end_ s) obj >=? size then Some (s, mkThread size (Cas obj))
      else Some (s, mkThread size (Ret NULL))
  | Cas obj =>
      let new_top := hw_add obj size in
      let result := top s in
      if result =? obj then Some (set_top s new_top, mkThread size (Ret obj))
      else Some (s, mkThread size Load)
  | Ret _ => None
  end.

Inductive step : state -> state -> Prop :=
| step_thread s i th s' th' :
    threads s !! i = Some th ->
    thread_step (space s) th = Some (s', th') ->
    step s (mkState s' (<[i := th']> (threads s))).

Definition initial (s : MutableSpace) (sizes : list Z) : state :=
  mkState s ((fun n => mkThread n Load) <$> sizes).

Definition returned (th : thread) : bool :=
  match th_pc th with Ret _ => true | _ => false end.

Definition done (s : state) : Prop := Forall (fun th => returned th = true) (threads s).

(** The words a thread has been given. *)
Definition given (th : thread) : Z :=
  match th_pc th with Ret r => if r =? NULL then 0 else th_size th | _ => 0 end.

(** ** The invariant *)

Record inv (s0 : MutableSpace) (s : state) : Prop := {
  inv_wf : wf (space s);
  inv_end : _end (space s) = _end s0 /\ _bottom (space s) = _bottom s0;
  inv_top : _top s0 <= _top (space s);
  inv_sizes : Forall (fun th => 0 <= th_size th < 2 ^ 64) (threads s);
  (** what has been given out is what [top] has moved by *)
  inv_given : 8 * sum_of given (threads s) = _top (space s) - _top s0;
  (** a thread about to exchange has seen an earlier [top] and enough space *)
  inv_cas : forall th obj, th ∈ threads s -> th_pc th = Cas obj ->
    _top s0 <= obj <= _top (space s) /\ obj mod 8 = 0 /\
    th_size th <= (_end s0 - obj) / 8;
  (** a block lies between the first [top] and the present one *)
  inv_block : forall th r, th ∈ threads s -> th_pc th = Ret r -> r <> NULL ->
    _top s0 <= r /\ r + 8 * th_size th <= _top (space s);
  (** a refused thread asked for more than is left *)
  inv_null : forall th, th ∈ threads s -> th_pc th = Ret NULL ->
    free_in_words (space s) < th_size th;
  inv_disjoint : forall i j th th' r r',
    threads s !! i = Some th -> threads s !! j = Some th' -> i <> j ->
    th_pc th = Ret r -> th_pc th' = Ret r' -> r <> NULL -> r' <> NULL ->
    r + 8 * th_size th <= r' \/ r' + 8 * th_size th' <= r
}.

Lemma given_initial sizes : sum_of given ((fun n => mkThread n Load) <$> sizes) = 0.
Proof. induction sizes as [| x l IH]; [done |]. rewrite fmap_cons, sum_of_cons, IH. done. Qed.

Lemma alloc_inv_initial s0 sizes :
  wf s0 -> Forall (fun n => 0 <= n < 2 ^ 64) sizes -> inv s0 (initial s0 sizes).
Proof.
  intros Hwf Hs. split; simpl; try done.
  - by apply Forall_fmap.
  - rewrite given_initial. lia.
  - intros th obj Hin. apply list_elem_of_fmap in Hin as (? & -> & ?). done.
  - intros th r Hin. apply list_elem_of_fmap in Hin as (? & -> & ?). done.
  - intros th Hin. apply list_elem_of_fmap in Hin as (? & -> & ?). done.
  - intros i j th th' r r' Hi. rewrite list_lookup_fmap in Hi.
    destruct (sizes !! i); simplify_eq/=. done.
Qed.

(** A step that leaves [top] alone and gives nothing. *)
Lemma alloc_inv_quiet s0 s i th p :
  inv s0 s -> threads s !! i = Some th -> returned th = false ->
  (forall r, p = Ret r -> r = NULL /\ free_in_words (space s) < th_size th) ->
  (forall obj, p = Cas obj -> obj = _top (space s) /\ th_size th <= free_in_words (space s)) ->
  inv s0 (mkState (space s) (<[i := mkThread (th_size th) p]> (threads s))).
Proof.
  intros [Hwf He Ht Hs Hg Hc Hb Hn Hd] Hi Hret Hp1 Hp2.
  pose proof (Forall_lookup_1 _ _ _ _ Hs Hi) as Hr; simpl in Hr.
  pose proof (free_eq _ Hwf) as Hf.
  assert (given th = 0) as Hg0 by (unfold given, returned in *; by destruct (th_pc th)).
  split; simpl; try done.
  - by apply Forall_insert.
  - rewrite (sum_of_insert _ _ _ th) by done. rewrite Hg0.
    assert (given (mkThread (th_size th) p) = 0) as ->; [| lia].
    unfold given; simpl. destruct p as [| | r]; try done. by destruct (Hp1 r eq_refl) as [-> _].
  - intros th' obj Hin Hpc. apply elem_of_insert_inv in Hin as [-> | Hin]; [| by apply Hc].
    simpl in *. destruct (Hp2 obj Hpc) as [-> ?]. destruct Hwf as [? ?], He as [He _].
    rewrite <- He. lia.
  - intros th' r Hin Hpc Hne. apply elem_of_insert_inv in Hin as [-> | Hin]; [| by apply Hb].
    simpl in Hpc. by destruct (Hp1 r Hpc).
  - intros th' Hin Hpc. apply elem_of_insert_inv in Hin as [-> | Hin]; [| by apply Hn].
    simpl in *. by destruct (Hp1 NULL Hpc).
  - intros j k t1 t2 r1 r2 Hj Hk Hjk Hpc1 Hpc2 Hn1 Hn2.
    apply list_lookup_insert_Some in Hj as [(-> & <- & _) | (_ & Hj)].
    { simpl in Hpc1. by destruct (Hp1 r1 Hpc1). }
    apply list_lookup_insert_Some in Hk as [(-> & <- & _) | (_ & Hk)].
    { simpl in Hpc2. by destruct (Hp1 r2 Hpc2). }
    by eapply (Hd j k).
Qed.

(** The successful exchange. *)
Lemma alloc_inv_win s0 s i th :
  inv s0 s -> threads s !! i = Some th -> th_pc th = Cas (_top (space s)) ->
  inv s0 (mkState (set_top (space s) (_top (space s) + 8 * th_size th))
                  (<[i := mkThread (th_size th) (Ret (_top (space s)))]> (threads s))).
Proof.
  intros [Hwf He Ht Hs Hg Hc Hb Hn Hd] Hi Hpc.
  pose proof (Forall_lookup_1 _ _ _ _ Hs Hi) as Hr; simpl in Hr.
  pose proof (list_elem_of_lookup_2 _ _ _ Hi) as Hin.
  destruct (Hc th _ Hin Hpc) as (Hobj & Hal & Hfit). destruct He as [He Hbo].
  pose proof (free_eq _ Hwf) as Hf. rewrite <- He in Hfit.
  destruct (allocate_fits (space s) (th_size th) Hwf ltac:(lia)) as [_ Hwf'].
  pose proof (free_eq _ Hwf') as Hf'. simpl in Hf'. pose proof Hwf as [Ho Ha].
  set (t := _top (space s)) in *.
  assert (t <> NULL) as Hnn by (unfold NULL; lia).
  split; simpl; try done.
  - lia.
  - by apply Forall_insert.
  - rewrite (sum_of_insert _ _ _ th) by done. unfold given at 2 3. rewrite Hpc. simpl.
    destruct (Z.eqb_spec t NULL); [done |]. lia.
  - intros th' obj Hin' Hpc'. apply elem_of_insert_inv in Hin' as [-> | Hin']; [done |].
    specialize (Hc th' obj Hin' Hpc'). lia.
  - intros th' r Hin' Hpc' Hne. apply elem_of_insert_inv in Hin' as [-> | Hin'].
    + simpl in *. injection Hpc' as <-. lia.
    + specialize (Hb th' r Hin' Hpc' Hne). lia.
  - intros th' Hin' Hpc'. apply elem_of_insert_inv in Hin' as [-> | Hin'].
    + simpl in Hpc'. injection Hpc' as E. done.
    + specialize (Hn th' Hin' Hpc'). unfold set_top in Hf' |- *. lia.
  - intros j k t1 t2 r1 r2 Hj Hk Hjk Hpc1 Hpc2 Hn1 Hn2.
    apply list_lookup_insert_Some in Hj as [(-> & <- & _) | (Hij & Hj)];
      apply list_lookup_insert_Some in Hk as [(-> & <- & _) | (Hik & Hk)]; simpl in *.
    + done.
    + injection Hpc1 as <-. right.
      by destruct (Hb t2 r2 (list_elem_of_lookup_2 _ _ _ Hk) Hpc2 Hn2).
    + injection Hpc2 as <-. left.
      by destruct (Hb t1 r1 (list_elem_of_lookup_2 _ _ _ Hj) Hpc1 Hn1).
    + by eapply (Hd j k).
Qed.

Lemma alloc_inv_step s0 s s' : inv s0 s -> step s s' -> inv s0 s'.
Proof.
  intros Hinv Hst. destruct Hst as [s i th m' th' Hi Hst].
  pose proof (list_elem_of_lookup_2 _ _ _ Hi) as Hin.
  pose proof (inv_wf _ _ Hinv) as Hwf. pose proof (free_eq _ Hwf) as Hf.
  unfold thread_step in Hst. destruct (th_pc th) as [| obj |] eqn:Hpc; simplify_eq.
  - change (pointer_delta (end_ (space s)) (top (space s))) with (free_in_words (space s)) in Hst.
    rewrite Z.geb_leb in Hst.
    destruct (Z.leb_spec (th_size th) (free_in_words (space s))); simplify_eq;
      apply alloc_inv_quiet; try done; try (by unfold returned; rewrite Hpc).
    + intros obj [= <-]. done.
    + intros r [= <-]. done.
  - destruct (Z.eqb_spec (top (space s)) obj) as [<- | Hne]; simplify_eq.
    + pose proof (inv_cas _ _ Hinv th _ Hin Hpc) as (Hobj & Hal & Hfit).
      pose proof (inv_sizes _ _ Hinv) as Hs. rewrite Forall_forall in Hs. specialize (Hs th Hin).
      destruct (inv_end _ _ Hinv) as [He _]. destruct Hwf as [Ho Ha]. rewrite <- He in Hfit.
      rewrite hw_add_small by (unfold is_u64, top in *; lia). by apply alloc_inv_win.
    + apply alloc_inv_quiet; try done. by unfold returned; rewrite Hpc.
Qed.

Lemma alloc_inv_steps s0 s s' : inv s0 s -> rtc step s s' -> inv s0 s'.
Proof. intros Hi Hs. induction Hs; [done |]. eauto using alloc_inv_step. Qed.

(** ** Termination: an exchange fails only when another thread's succeeded *)

Definition weight (n : Z) (s : MutableSpace) (th : thread) : Z :=
  match th_pc th with
  | Load => 2 * n + 1
  | Cas obj => 2 * n + (if top s =? obj then 0 else 2)
  | Ret _ => 0
  end.

Definition bound (s : state) : Z :=
  sum_of (weight (Z.of_nat (length (threads s)) + 1) (space s)) (threads s).

Lemma alloc_weight_stale n s s' th : weight n s' th <= weight n s th + 2.
Proof. unfold weight. destruct (th_pc th); [lia | | lia]. repeat case_match; lia. Qed.

Lemma alloc_step_bound s s' : step s s' -> 0 <= bound s' < bound s.
Proof.
  intros Hst. destruct Hst as [s i th m' th' Hi Hst]. unfold bound; simpl.
  rewrite length_insert. set (n := Z.of_nat (length (threads s)) + 1). split.
  { apply sum_of_nonneg. intros t _. unfold weight. destruct (th_pc t); repeat case_match; lia. }
  rewrite (sum_of_insert _ _ _ th) by done.
  assert (sum_of (weight n m') (threads s) <=
          sum_of (weight n (space s)) (threads s) + 2 * (n - 1)) as Hstale.
  { transitivity (sum_of (fun t => weight n (space s) t + 2) (threads s)).
    - apply sum_of_le. intros. apply alloc_weight_stale.
    - rewrite sum_of_add, sum_of_const. lia. }
  unfold thread_step in Hst. unfold weight at 2 3.
  destruct (th_pc th) as [| obj |]; simplify_eq; simpl.
  - destruct (pointer_delta _ _ >=? th_size th); simplify_eq; simpl; [rewrite Z.eqb_refl |]; lia.
  - destruct (Z.eqb_spec (top (space s)) obj); simplify_eq; simpl.
    + repeat case_match; lia.
    + destruct (Z.eqb_spec (top (space s)) obj); done || lia.
Qed.

Lemma alloc_step_progress s : ~ done s -> exists s', step s s'.
Proof.
  intros Hnd. apply not_all_exists in Hnd as (i & th & Hi & Hr).
  destruct (thread_step (space s) th) as [[m' th'] |] eqn:E.
  - eexists. by econstructor.
  - unfold thread_step in E. unfold returned in Hr. destruct (th_pc th); try done.
    + by case_match.
    + by case_match.
Qed.

(** ** Properties *)

(** C20. Racing allocations: when every call has returned, the blocks given out are
    disjoint, lie in the part of the space that was free, and together are
    exactly what [top] moved by; the space keeps its invariant; and every
    refused request was larger than what is left. *)
Theorem cas_allocate_race (s0 : MutableSpace) (sizes : list Z) (s : state) :
  wf s0 -> Forall (fun n => 0 <= n < 2 ^ 64) sizes ->
  rtc step (initial s0 sizes) s -> done s ->
  wf (space s) /\
  8 * sum_of given (threads s) = _top (space s) - _top s0 /\
  (forall i th r, threads s !! i = Some th -> th_pc th = Ret r ->
     if r =? NULL then free_in_words (space s) < th_size th
     else _top s0 <= r /\ r + 8 * th_size th <= _top (space s)) /\
  (forall i j th th' r r',
     threads s !! i = Some th -> threads s !! j = Some th' -> i <> j ->
     th_pc th = Ret r -> th_pc th' = Ret r' -> r <> NULL -> r' <> NULL ->
     r + 8 * th_size th <= r' \/ r' + 8 * th_size th' <= r).
Proof.
  intros Hwf Hs Hst _. pose proof (alloc_inv_steps _ _ _ (alloc_inv_initial _ _ Hwf Hs) Hst) as Hinv.
  split; [apply Hinv |]. split; [apply Hinv |]. split; [| apply Hinv].
  intros i th r Hi Hpc. apply list_elem_of_lookup_2 in Hi.
  destruct (Z.eqb_spec r NULL) as [-> | Hne]; [by apply (inv_null _ _ Hinv) |].
  by apply (inv_block _ _ Hinv).
Qed.

(** Two threads race for the last 100 words, 60 words each: one is refused. *)
Lemma cas_allocate_race_witness :
  exists s, rtc step (initial (mkMutableSpace 4096 4896 4096 8 MemRegion.empty) [60; 60]) s /\
    done s /\ sum_of given (threads s) = 60.
Proof.
  set (s := mkState (mkMutableSpace 4096 4896 4576 8 MemRegion.empty)
    [mkThread 60 (Ret 4096); mkThread 60 (Ret NULL)]).
  assert (rtc step (initial (mkMutableSpace 4096 4896 4096 8 MemRegion.empty) [60; 60]) s) as Hs.
  { eapply rtc_l; [eapply (step_thread _ 0); reflexivity |].
    eapply rtc_l; [eapply (step_thread _ 1); reflexivity |].
    eapply rtc_l; [eapply (step_thread _ 0); reflexivity |].
    eapply rtc_l; [eapply (step_thread _ 1); reflexivity |].
    eapply rtc_l; [eapply (step_thread _ 1); reflexivity |]. apply rtc_refl. }
  exists s. split; [exact Hs |]. split; [by repeat constructor |].
  destruct (cas_allocate_race (mkMutableSpace 4096 4896 4096 8 MemRegion.empty) [60; 60] s)
    as (_ & H & _); [decide_now | repeat constructor; lia | exact Hs | by repeat constructor |].
  cbn [_top space s] in H. lia.
Defined.

(** The retry loops of racing allocations end: no run is infinite and until
    every call has returned some thread can take a step. *)
Theorem cas_allocate_terminates (s : state) :
  sn step s /\ (done s \/ exists s', step s s').
Proof.
  split.
  - apply (sn_measure _ bound), alloc_step_bound.
  - destruct (decide (Forall (fun th => returned th = true) (threads s))); [by left | right].
    by apply alloc_step_progress.
Qed.

End ParAllocate.
