(* ===== verification/BitMap.v ===== *)
(** * Bit maps

    [utilities/bitMap.hpp], [bitMap.inline.hpp] and [bitMap.cpp]: a bit map is
    an array of 64-bit words and a size in bits.  The mark bit map of the
    collector and the segment bit map of the big-data-aware old generation are
    built from it.  This file holds the representation, the operations on
    single bits, on ranges of bits and on whole maps, and their specification
    by the bits they denote; [BitMapSearch] holds the searches and counts.

    A read outside the word array yields 0 and a write outside it has no
    effect in the model; in the program both are undefined, and the theorems
    assume the ranges the [verify_index] and [verify_range] assertions demand. *)

From stdpp Require Import base list numbers.
From Stdlib Require Import ZArith Lia.
From S2P Require Import Prelude GlobalDefs.

Local Open Scope Z_scope.

Module BitMap.

Record BitMap := mkBitMap { _map : list Z; _size : Z }.

Inductive RangeSizeHint := unknown_range | small_range | large_range.

#[export] Instance RangeSizeHint_eq_dec : EqDecision RangeSizeHint.
Proof. solve_decision. Defined.

(** ** Words and bits *)

Definition bit_in_word (bit : Z) : Z := Z.land bit (BitsPerWord - 1).

Definition bit_mask (bit : Z) : Z := u64 (Z.shiftl 1 (bit_in_word bit)).

Definition word_index (bit : Z) : Z := Z.shiftr bit LogBitsPerWord.

Definition bit_index (word : Z) : Z := u64 (Z.shiftl word LogBitsPerWord).

Definition map (bm : BitMap) (word : Z) : Z := default 0 (_map bm !! Z.to_nat word).

Definition set_word_val (bm : BitMap) (word val : Z) : BitMap :=
  mkBitMap (<[Z.to_nat word := val]> (_map bm)) (_size bm).

Definition set_word (bm : BitMap) (word : Z) : BitMap :=
  set_word_val bm word (not64 0).

Definition clear_word (bm : BitMap) (word : Z) : BitMap := set_word_val bm word 0.

Definition size_in_words (bm : BitMap) : Z :=
  word_index (u64 (_size bm + BitsPerWord - 1)).

Definition at_ (bm : BitMap) (index : Z) : bool :=
  negb (Z.land (map bm (word_index index)) (bit_mask index) =? 0).

Definition word_align_up (bit : Z) : Z := align_size_up bit BitsPerWord.
Definition word_align_down (bit : Z) : Z := align_size_down bit BitsPerWord.
Definition is_word_aligned (bit : Z) : bool := word_align_up bit =? bit.

(** ** Single bits *)

Definition set_bit (bm : BitMap) (bit : Z) : BitMap :=
  set_word_val bm (word_index bit)
    (Z.lor (map bm (word_index bit)) (bit_mask bit)).

Definition clear_bit (bm : BitMap) (bit : Z) : BitMap :=
  set_word_val bm (word_index bit)
    (Z.land (map bm (word_index bit)) (not64 (bit_mask bit))).

(** The compare-and-swap loops, run without interference: the first exchange
    succeeds.  [ParSetBit] below runs them with interference. *)
Definition par_set_bit (bm : BitMap) (bit : Z) : bool * BitMap :=
  let addr := word_index bit in
  let mask := bit_mask bit in
  let old_val := map bm addr in
  let new_val := Z.lor old_val mask in
  if new_val =? old_val then (false, bm) else (true, set_word_val bm addr new_val).

Definition par_clear_bit (bm : BitMap) (bit : Z) : bool * BitMap :=
  let addr := word_index bit in
  let mask := not64 (bit_mask bit) in
  let old_val := map bm addr in
  let new_val := Z.land old_val mask in
  if new_val =? old_val then (false, bm) else (true, set_word_val bm addr new_val).

Definition at_put (bm : BitMap) (offset : Z) (value : bool) : BitMap :=
  if value then set_bit bm offset else clear_bit bm offset.

Definition par_at_put (bm : BitMap) (bit : Z) (value : bool) : bool * BitMap :=
  if value then par_set_bit bm bit else par_clear_bit bm bit.

(** ** Ranges of bits *)

Definition inverted_bit_mask_for_range (beg end_ : Z) : Z :=
  let mask := u64 (bit_mask beg - 1) in
  if negb (bit_in_word end_ =? 0)
  then Z.lor mask (not64 (u64 (bit_mask end_ - 1)))
  else mask.

Definition set_range_within_word (bm : BitMap) (beg end_ : Z) : BitMap :=
  if negb (beg =? end_) then
    let mask := inverted_bit_mask_for_range beg end_ in
    set_word_val bm (word_index beg)
      (Z.lor (map bm (word_index beg)) (not64 mask))
  else bm.

Definition clear_range_within_word (bm : BitMap) (beg end_ : Z) : BitMap :=
  if negb (beg =? end_) then
    let mask := inverted_bit_mask_for_range beg end_ in
    set_word_val bm (word_index beg) (Z.land (map bm (word_index beg)) mask)
  else bm.

Definition par_put_range_within_word (bm : BitMap) (beg end_ : Z) (value : bool) : BitMap :=
  if negb (beg =? end_) then
    let pw := word_index beg in
    let w := map bm pw in
    let mr := inverted_bit_mask_for_range beg end_ in
    let nw := if value then Z.lor w (not64 mr) else Z.land w mr in
    set_word_val bm pw nw
  else bm.

(** [for (idx_t i = beg; i < end; ++i) map[i] = val;] *)
Fixpoint fill_words (n : nat) (bm : BitMap) (i val : Z) : BitMap :=
  match n with
  | O => bm
  | S n' => fill_words n' (set_word_val bm i val) (i + 1) val
  end.

Definition set_range_of_words (bm : BitMap) (beg end_ : Z) : BitMap :=
  fill_words (Z.to_nat (end_ - beg)) bm beg (not64 0).

Definition clear_range_of_words (bm : BitMap) (beg end_ : Z) : BitMap :=
  fill_words (Z.to_nat (end_ - beg)) bm beg 0.

(** The word that [memset] leaves when it stores the byte [c] eight times. *)
Definition memset_word (c : Z) : Z :=
  foldr (fun k acc => Z.lor (Z.shiftl c (8 * k)) acc) 0 [0; 1; 2; 3; 4; 5; 6; 7].

Definition set_large_range_of_words (bm : BitMap) (beg end_ : Z) : BitMap :=
  fill_words (Z.to_nat (end_ - beg)) bm beg (memset_word (u8 (Z.lnot 0))).

Definition clear_large_range_of_words (bm : BitMap) (beg end_ : Z) : BitMap :=
  fill_words (Z.to_nat (end_ - beg)) bm beg (memset_word 0).

Definition word_index_round_up (bm : BitMap) (bit : Z) : Z :=
  let bit_rounded_up := u64 (bit + (BitsPerWord - 1)) in
  if bit_rounded_up >? bit then word_index bit_rounded_up else size_in_words bm.

Definition set_range (bm : BitMap) (beg end_ : Z) : BitMap :=
  let beg_full_word := word_index_round_up bm beg in
  let end_full_word := word_index end_ in
  if beg_full_word <? end_full_word then
    let bm := set_range_within_word bm beg (bit_index beg_full_word) in
    let bm := set_range_of_words bm beg_full_word end_full_word in
    set_range_within_word bm (bit_index end_full_word) end_
  else
    let boundary := MIN2 (bit_index beg_full_word) end_ in
    let bm := set_range_within_word bm beg boundary in
    set_range_within_word bm boundary end_.

Definition clear_range (bm : BitMap) (beg end_ : Z) : BitMap :=
  let beg_full_word := word_index_round_up bm beg in
  let end_full_word := word_index end_ in
  if beg_full_word <? end_full_word then
    let bm := clear_range_within_word bm beg (bit_index beg_full_word) in
    let bm := clear_range_of_words bm beg_full_word end_full_word in
    clear_range_within_word bm (bit_index end_full_word) end_
  else
    let boundary := MIN2 (bit_index beg_full_word) end_ in
    let bm := clear_range_within_word bm beg boundary in
    clear_range_within_word bm boundary end_.

Definition set_large_range (bm : BitMap) (beg end_ : Z) : BitMap :=
  let beg_full_word := word_index_round_up bm beg in
  let end_full_word := word_index end_ in
  let bm := set_range_within_word bm beg (bit_index beg_full_word) in
  let bm := set_large_range_of_words bm beg_full_word end_full_word in
  set_range_within_word bm (bit_index end_full_word) end_.

Definition clear_large_range (bm : BitMap) (beg end_ : Z) : BitMap :=
  let beg_full_word := word_index_round_up bm beg in
  let end_full_word := word_index end_ in
  let bm := clear_range_within_word bm beg (bit_index beg_full_word) in
  let bm := clear_large_range_of_words bm beg_full_word end_full_word in
  clear_range_within_word bm (bit_index end_full_word) end_.

Definition at_put_range (bm : BitMap) (start_offset end_offset : Z) (value : bool) : BitMap :=
  if value then set_range bm start_offset end_offset
  else clear_range bm start_offset end_offset.

Definition par_at_put_range (bm : BitMap) (beg end_ : Z) (value : bool) : BitMap :=
  let beg_full_word := word_index_round_up bm beg in
  let end_full_word := word_index end_ in
  if beg_full_word <? end_full_word then
    let bm := par_put_range_within_word bm beg (bit_index beg_full_word) value in
    let bm := if value then set_range_of_words bm beg_full_word end_full_word
              else clear_range_of_words bm beg_full_word end_full_word in
    par_put_range_within_word bm (bit_index end_full_word) end_ value
  else
    let boundary := MIN2 (bit_index beg_full_word) end_ in
    let bm := par_put_range_within_word bm beg boundary value in
    par_put_range_within_word bm boundary end_ value.

Definition at_put_large_range (bm : BitMap) (beg end_ : Z) (value : bool) : BitMap :=
  if value then set_large_range bm beg end_ else clear_large_range bm beg end_.

Definition par_at_put_large_range (bm : BitMap) (beg end_ : Z) (value : bool) : BitMap :=
  let beg_full_word := word_index_round_up bm beg in
  let end_full_word := word_index end_ in
  let bm := par_put_range_within_word bm beg (bit_index beg_full_word) value in
  let bm := if value then set_large_range_of_words bm beg_full_word end_full_word
            else clear_large_range_of_words bm beg_full_word end_full_word in
  par_put_range_within_word bm (bit_index end_full_word) end_ value.

(** The versions with a hint about the size of the range. *)
Definition set_range_hint (bm : BitMap) (beg end_ : Z) (hint : RangeSizeHint) : BitMap :=
  if bool_decide (hint = small_range) && (u64 (end_ - beg) =? 1) then set_bit bm beg
  else if bool_decide (hint = large_range) then set_large_range bm beg end_
  else set_range bm beg end_.

Definition clear_range_hint (bm : BitMap) (beg end_ : Z) (hint : RangeSizeHint) : BitMap :=
  if bool_decide (hint = small_range) && (u64 (end_ - beg) =? 1) then clear_bit bm beg
  else if bool_decide (hint = large_range) then clear_large_range bm beg end_
  else clear_range bm beg end_.

Definition par_set_range_hint (bm : BitMap) (beg end_ : Z) (hint : RangeSizeHint) : BitMap :=
  if bool_decide (hint = small_range) && (u64 (end_ - beg) =? 1)
  then snd (par_at_put bm beg true)
  else if bool_decide (hint = large_range) then par_at_put_large_range bm beg end_ true
  else par_at_put_range bm beg end_ true.

Definition par_clear_range_hint (bm : BitMap) (beg end_ : Z) (hint : RangeSizeHint) : BitMap :=
  if bool_decide (hint = small_range) && (u64 (end_ - beg) =? 1)
  then snd (par_at_put bm beg false)
  else if bool_decide (hint = large_range) then par_at_put_large_range bm beg end_ false
  else par_at_put_range bm beg end_ false.

Definition clear (bm : BitMap) : BitMap := clear_range_of_words bm 0 (size_in_words bm).

Definition clear_large (bm : BitMap) : BitMap :=
  clear_large_range_of_words bm 0 (size_in_words bm).

(** ** Resizing

    The words of the new array that the copy does not reach are indeterminate
    until [clear_range_of_words] clears them; [fresh] stands for them.  With
    [in_resource_area] false the old array is released before it is copied, so
    what the copy reads from it is [stale]. *)
Definition resize (bm : BitMap) (size_in_bits : Z) (in_resource_area : bool)
    (fresh stale : list Z) : BitMap :=
  let old_size_in_words := size_in_words bm in
  let old_map := if in_resource_area then _map bm else stale in
  let bm1 := mkBitMap (_map bm) size_in_bits in
  let new_size_in_words := size_in_words bm1 in
  let n := Z.to_nat (MIN2 old_size_in_words new_size_in_words) in
  let bm2 := mkBitMap
    (take n old_map ++ drop n (take (Z.to_nat new_size_in_words) fresh)) size_in_bits in
  if new_size_in_words >? old_size_in_words
  then clear_range_of_words bm2 old_size_in_words (size_in_words bm2)
  else bm2.

Definition at_put_grow (bm : BitMap) (offset : Z) (value : bool) (fresh : list Z) : BitMap :=
  let bm := if offset >=? _size bm
            then resize bm (u64 (2 * MAX2 (_size bm) offset)) true fresh []
            else bm in
  at_put bm offset value.

(** ** Whole maps

    [for (index = 0; index < size; index++) dest_map[index] = f(...);] *)
Fixpoint zip_words (f : Z -> Z -> Z) (n : nat) (i off : Z) (bm other : BitMap) : BitMap :=
  match n with
  | O => bm
  | S n' =>
      zip_words f n' (i + 1) off
        (set_word_val bm i (f (map bm i) (map other (off + i)))) other
  end.

Definition set_union (bm other : BitMap) : BitMap :=
  zip_words Z.lor (Z.to_nat (size_in_words bm)) 0 0 bm other.

Definition set_difference (bm other : BitMap) : BitMap :=
  zip_words (fun x y => Z.land x (not64 y)) (Z.to_nat (size_in_words bm)) 0 0 bm other.

Definition set_intersection (bm other : BitMap) : BitMap :=
  zip_words Z.land (Z.to_nat (size_in_words bm)) 0 0 bm other.

(** [guarantee] fails for an offset that is not word aligned. *)
Definition set_intersection_at_offset (bm other : BitMap) (offset : Z) : option BitMap :=
  if offset mod (8 * 8) =? 0
  then Some (zip_words Z.land (Z.to_nat (size_in_words bm)) 0 (word_index offset) bm other)
  else None.

Definition set_from (bm other : BitMap) : BitMap :=
  zip_words (fun _ y => y) (Z.to_nat (size_in_words bm)) 0 0 bm other.

(** The versions that report whether the map changed. *)
Fixpoint zip_words_with_result (f : Z -> Z -> Z) (n : nat) (i : Z) (changed : bool)
    (bm other : BitMap) : bool * BitMap :=
  match n with
  | O => (changed, bm)
  | S n' =>
      let temp := f (map bm i) (map other i) in
      let changed := changed || negb (temp =? map bm i) in
      zip_words_with_result f n' (i + 1) changed (set_word_val bm i temp) other
  end.

Definition set_union_with_result (bm other : BitMap) : bool * BitMap :=
  zip_words_with_result Z.lor (Z.to_nat (size_in_words bm)) 0 false bm other.

Definition set_difference_with_result (bm other : BitMap) : bool * BitMap :=
  zip_words_with_result (fun x y => Z.land x (not64 y))
    (Z.to_nat (size_in_words bm)) 0 false bm other.

Definition set_intersection_with_result (bm other : BitMap) : bool * BitMap :=
  zip_words_with_result Z.land (Z.to_nat (size_in_words bm)) 0 false bm other.

(** [for (index = 0; index < size; index++) if (!p(...)) return false; return true;] *)
Fixpoint all_words (p : Z -> Z -> bool) (n : nat) (i : Z) (bm other : BitMap) : bool :=
  match n with
  | O => true
  | S n' => if p (map bm i) (map other i) then all_words p n' (i + 1) bm other else false
  end.

Definition contains (bm other : BitMap) : bool :=
  all_words (fun x y => Z.lor x y =? x) (Z.to_nat (size_in_words bm)) 0 bm other.

Definition intersects (bm other : BitMap) : bool :=
  negb (all_words (fun x y => Z.land x y =? 0) (Z.to_nat (size_in_words bm)) 0 bm other).

Definition is_same (bm other : BitMap) : bool :=
  all_words Z.eqb (Z.to_nat (size_in_words bm)) 0 bm other.

(** ** Specification by bits *)

(** The bit at an index, padding bits of the last word included. *)
Definition bit (bm : BitMap) (i : Z) : bool :=
  Z.testbit (map bm (word_index i)) (bit_in_word i).

(** The number of bits the word array holds. *)
Definition capacity (bm : BitMap) : Z := 64 * Z.of_nat (length (_map bm)).

(** The representation invariant: the array has the words the size asks for and
    every word is a 64-bit value; the size leaves room for the rounding. *)
Record wf (bm : BitMap) : Prop := {
  wf_size : 0 <= _size bm < 2 ^ 63;
  wf_length : Z.of_nat (length (_map bm)) = size_in_words bm;
  wf_words : Forall is_u64 (_map bm)
}.

#[export] Instance wf_dec bm : Decision (wf bm).
Proof.
  refine (cast_if_and3 (decide (0 <= _size bm < 2 ^ 63))
    (decide (Z.of_nat (length (_map bm)) = size_in_words bm))
    (decide (Forall is_u64 (_map bm)))); [by split | by intros [] ..].
Defined.

Lemma bit_in_word_mod i : bit_in_word i = i mod 64.
Proof.
  unfold bit_in_word. change (BitsPerWord - 1) with (Z.ones 6).
  by rewrite Z.land_ones.
Qed.

Lemma word_index_div i : word_index i = i / 64.
Proof. unfold word_index, LogBitsPerWord. by rewrite Z.shiftr_div_pow2. Qed.

Lemma bit_index_mul w : 0 <= w -> 64 * w < 2 ^ 64 -> bit_index w = 64 * w.
Proof.
  intros. unfold bit_index, LogBitsPerWord. rewrite Z.shiftl_mul_pow2 by lia. ulia.
Qed.

Lemma bit_mask_pow2 i : bit_mask i = 2 ^ (i mod 64).
Proof.
  unfold bit_mask. rewrite bit_in_word_mod, Z.shiftl_1_l. apply u64_small.
  assert (0 <= i mod 64 < 64) by lia.
  assert (2 ^ (i mod 64) < 2 ^ 64) by (apply Z.pow_lt_mono_r; lia).
  unfold is_u64. lia.
Qed.

Lemma size_in_words_eq bm :
  0 <= _size bm < 2 ^ 63 -> size_in_words bm = (_size bm + 63) / 64.
Proof.
  intros. unfold size_in_words, BitsPerWord. rewrite word_index_div. ulia.
Qed.

(** The size and the capacity differ by less than a word. *)
Lemma wf_capacity bm : wf bm -> _size bm <= capacity bm < _size bm + 64.
Proof.
  intros [Hs Hl _]. unfold capacity. rewrite Hl, size_in_words_eq by lia. lia.
Qed.

Lemma map_u64 bm w : wf bm -> is_u64 (map bm w).
Proof.
  intros [_ _ Hw]. unfold map. destruct (_map bm !! Z.to_nat w) eqn:E; simpl.
  - by eapply Forall_lookup_1 in Hw.
  - unfold is_u64. lia.
Qed.

Lemma map_bit_high bm w i : wf bm -> 64 <= i -> Z.testbit (map bm w) i = false.
Proof. intros. apply (testbit_high 64); [by apply map_u64 | lia]. Qed.

Lemma map_set_word_val bm w v w' :
  0 <= w -> w < Z.of_nat (length (_map bm)) -> 0 <= w' ->
  map (set_word_val bm w v) w' = if w' =? w then v else map bm w'.
Proof.
  intros. unfold map, set_word_val; simpl. destruct (Z.eqb_spec w' w) as [-> | Hne].
  - rewrite list_lookup_insert_eq by lia. done.
  - rewrite list_lookup_insert_ne by lia. done.
Qed.

Lemma wf_set_word_val bm w v : wf bm -> is_u64 v -> wf (set_word_val bm w v).
Proof.
  intros [Hs Hl Hw] Hv. split; simpl.
  - done.
  - rewrite length_insert. by rewrite Hl.
  - by apply Forall_insert.
Qed.

Lemma bit_set_word_val bm w v i :
  0 <= w -> w < Z.of_nat (length (_map bm)) -> 0 <= i ->
  bit (set_word_val bm w v) i = if i / 64 =? w then Z.testbit v (i mod 64) else bit bm i.
Proof.
  intros. unfold bit. rewrite word_index_div, bit_in_word_mod.
  rewrite map_set_word_val by lia. by destruct (i / 64 =? w).
Qed.

(** Reading a bit by masking. *)
Lemma at_bit bm i : at_ bm i = bit bm i.
Proof.
  unfold at_, bit. rewrite bit_mask_pow2, bit_in_word_mod.
  set (w := map bm (word_index i)). assert (0 <= i mod 64) by lia.
  destruct (Z.testbit w (i mod 64)) eqn:E; destruct (Z.eqb_spec (Z.land w (2 ^ (i mod 64))) 0) as [H0 | H0]; try done; exfalso.
  - assert (Z.testbit (Z.land w (2 ^ (i mod 64))) (i mod 64) = true) as Ht.
    { rewrite Z.land_spec, E, testbit_pow2 by lia. by rewrite Z.eqb_refl. }
    rewrite H0, Z.bits_0 in Ht. done.
  - apply H0. apply zero_bits. intros j Hj. rewrite Z.land_spec, testbit_pow2 by lia.
    destruct (Z.eqb_spec j (i mod 64)) as [-> | ?]; [by rewrite E | by rewrite andb_false_r].
Qed.

(** What an update of the range [beg, end) to the value [v] does to a map. *)
Record put_range (v : bool) (beg end_ : Z) (bm bm' : BitMap) : Prop := {
  pr_wf : wf bm';
  pr_size : _size bm' = _size bm;
  pr_bit : forall i, 0 <= i ->
    bit bm' i = if (beg <=? i) && (i <? end_) then v else bit bm i
}.

Lemma pr_length v beg end_ bm bm' :
  wf bm -> put_range v beg end_ bm bm' -> length (_map bm') = length (_map bm).
Proof.
  intros [Hs Hl _] [[Hs' Hl' _] He _].
  unfold size_in_words in *. rewrite He in *. lia.
Qed.

Lemma put_range_refl v beg bm : wf bm -> put_range v beg beg bm bm.
Proof.
  intros. split; [done | done |]. intros. case_cmp; done || lia.
Qed.

(** Adjacent ranges compose. *)
Lemma put_range_trans v a b c bm1 bm2 bm3 :
  a <= b <= c -> put_range v a b bm1 bm2 -> put_range v b c bm2 bm3 ->
  put_range v a c bm1 bm3.
Proof.
  intros ? [H1 H2 H3] [H4 H5 H6]. split; [done | congruence |].
  intros i Hi. rewrite H6, H3 by done. case_cmp; done || lia.
Qed.

(** One word of the array rewritten so that exactly the range changes. *)
Lemma put_range_word v beg end_ w bm :
  wf bm -> 0 <= beg -> beg < end_ <= capacity bm -> beg / 64 = (end_ - 1) / 64 ->
  is_u64 w ->
  (forall k, 0 <= k < 64 ->
     Z.testbit w k = if (beg mod 64 <=? k) && (k <? end_ - 64 * (beg / 64)) then v
                     else Z.testbit (map bm (beg / 64)) k) ->
  put_range v beg end_ bm (set_word_val bm (beg / 64) w).
Proof.
  intros Hwf Hb He Hsame Hw Hbits. unfold capacity in He.
  split; [by apply wf_set_word_val | done |].
  intros i Hi. rewrite bit_set_word_val by lia.
  destruct (Z.eqb_spec (i / 64) (beg / 64)) as [E | E].
  - rewrite Hbits by lia. unfold bit.
    rewrite word_index_div, bit_in_word_mod, E. case_cmp; done || lia.
  - case_cmp; done || lia.
Qed.

Lemma testbit_inverted_mask beg end_ k :
  0 <= k < 64 ->
  Z.testbit (inverted_bit_mask_for_range beg end_) k =
    (k <? beg mod 64) || (negb (end_ mod 64 =? 0) && (end_ mod 64 <=? k)).
Proof.
  intros Hk. unfold inverted_bit_mask_for_range.
  rewrite !bit_mask_pow2, bit_in_word_mod.
  rewrite !pow2_minus_1 by lia.
  destruct (Z.eqb_spec (end_ mod 64) 0); simpl.
  - rewrite testbit_ones by lia. by rewrite orb_false_r.
  - rewrite Z.lor_spec, testbit_not64, !testbit_ones by lia.
    case_cmp; done || lia.
Qed.

Lemma inverted_mask_u64 beg end_ : is_u64 (inverted_bit_mask_for_range beg end_).
Proof.
  unfold inverted_bit_mask_for_range. unfold is_u64.
  destruct (negb _); [apply lor_range |]; try apply wrap_range; lia.
Qed.

Lemma lor_u64 x y : is_u64 x -> is_u64 y -> is_u64 (Z.lor x y).
Proof. apply (lor_range 64). lia. Qed.

Lemma land_u64 x y : is_u64 x -> is_u64 (Z.land x y).
Proof. apply (land_range 64). lia. Qed.

Lemma not64_u64 x : is_u64 (not64 x).
Proof. apply u64_range. Qed.

#[export] Hint Resolve inverted_mask_u64 lor_u64 land_u64 not64_u64 map_u64 u64_range : vm.
#[export] Hint Resolve put_range_refl : vm.

(** Ranges within one word. *)
Lemma par_put_range_within_word_spec bm beg end_ v :
  wf bm -> 0 <= beg <= end_ -> end_ <= capacity bm ->
  (beg < end_ -> beg / 64 = (end_ - 1) / 64) ->
  put_range v beg end_ bm (par_put_range_within_word bm beg end_ v).
Proof.
  intros Hwf Hr Hc Hsame. unfold par_put_range_within_word.
  destruct (Z.eqb_spec beg end_) as [-> | Hne]; simpl; [auto with vm |].
  specialize (Hsame ltac:(lia)). rewrite word_index_div.
  apply put_range_word; [done | lia | lia | done | destruct v; auto with vm |].
  intros k Hk. destruct v.
  - rewrite Z.lor_spec, testbit_not64, testbit_inverted_mask by lia.
    case_cmp; rewrite ?orb_true_r, ?orb_false_r; done || lia.
  - rewrite Z.land_spec, testbit_inverted_mask by lia.
    case_cmp; rewrite ?andb_true_r, ?andb_false_r; done || lia.
Qed.

(** The sequential versions store the same words as the atomic one. *)
Lemma set_range_within_word_par bm beg end_ :
  set_range_within_word bm beg end_ = par_put_range_within_word bm beg end_ true.
Proof. done. Qed.

Lemma clear_range_within_word_par bm beg end_ :
  clear_range_within_word bm beg end_ = par_put_range_within_word bm beg end_ false.
Proof. done. Qed.

(** Ranges of whole words. *)
Lemma fill_words_spec n bm i v :
  wf bm -> 0 <= i -> i + Z.of_nat n <= Z.of_nat (length (_map bm)) ->
  put_range v (64 * i) (64 * (i + Z.of_nat n)) bm
    (fill_words n bm i (if v then not64 0 else 0)).
Proof.
  revert bm i. induction n as [| n IH]; intros bm i Hwf Hi Hn; simpl.
  - rewrite Z.add_0_r. auto with vm.
  - set (w := if v then not64 0 else 0).
    assert (put_range v (64 * i) (64 * (i + 1)) bm (set_word_val bm i w)) as H1.
    { pose proof (put_range_word v (64 * i) (64 * (i + 1)) w bm) as H.
      replace (64 * i / 64) with i in H by lia. apply H; unfold capacity; try lia.
      - done.
      - subst w. destruct v; [auto with vm | unfold is_u64; lia].
      - intros k Hk. subst w. destruct v.
        + rewrite testbit_not64 by lia. rewrite Z.bits_0. case_cmp; done || lia.
        + rewrite Z.bits_0. case_cmp; done || lia. }
    eapply put_range_trans; [| exact H1 |]; [lia |].
    replace (64 * (i + Z.of_nat (S n))) with (64 * (i + 1 + Z.of_nat n)) by lia.
    apply IH; [by apply pr_wf in H1 | lia |].
    rewrite (pr_length _ _ _ _ _ Hwf H1). lia.
Qed.

Lemma memset_word_ones : memset_word (u8 (Z.lnot 0)) = not64 0.
Proof. reflexivity. Qed.

Lemma memset_word_zero : memset_word 0 = 0.
Proof. reflexivity. Qed.

Lemma word_index_round_up_eq bm i :
  wf bm -> 0 <= i <= _size bm -> word_index_round_up bm i = (i + 63) / 64.
Proof.
  intros [Hs _ _] Hi. unfold word_index_round_up, BitsPerWord.
  rewrite u64_small by (unfold is_u64; lia). rewrite Z.gtb_ltb.
  destruct (Z.ltb_spec i (i + (64 - 1))); [| lia].
  rewrite word_index_div. by f_equal.
Qed.

(** *** Ranges

    The three parts of a range update, composed: the bits up to the first full
    word, the full words and the bits after the last full word. *)
Lemma put_range_three_parts v bm beg end_ (words : BitMap -> Z -> Z -> BitMap) :
  wf bm -> 0 <= beg <= end_ -> end_ <= _size bm -> (beg + 63) / 64 <= end_ / 64 ->
  (forall bm' i j, wf bm' -> 0 <= i <= j -> j <= Z.of_nat (length (_map bm')) ->
     put_range v (64 * i) (64 * j) bm' (words bm' i j)) ->
  let b := word_index_round_up bm beg in
  let e := word_index end_ in
  put_range v beg end_ bm
    (par_put_range_within_word
       (words (par_put_range_within_word bm beg (bit_index b) v) b e)
       (bit_index e) end_ v).
Proof.
  intros Hwf Hr Hs Hfull Hwords b e. pose proof (wf_capacity bm Hwf) as Hcap.
  pose proof (wf_size bm Hwf) as Hsz. unfold capacity in Hcap.
  subst b e. rewrite word_index_round_up_eq, word_index_div by (done || lia).
  rewrite !bit_index_mul by lia.
  set (b := (beg + 63) / 64) in *. set (e := end_ / 64) in *.
  assert (put_range v beg (64 * b) bm (par_put_range_within_word bm beg (64 * b) v)) as H1.
  { apply par_put_range_within_word_spec; [done | lia | unfold capacity; lia | lia]. }
  set (bm1 := par_put_range_within_word bm beg (64 * b) v) in *.
  pose proof (pr_wf _ _ _ _ _ H1) as Hwf1.
  pose proof (pr_length _ _ _ _ _ Hwf H1) as Hl1.
  assert (put_range v (64 * b) (64 * e) bm1 (words bm1 b e)) as H2.
  { apply Hwords; [done | lia | lia]. }
  set (bm2 := words bm1 b e) in *.
  pose proof (pr_wf _ _ _ _ _ H2) as Hwf2.
  pose proof (pr_length _ _ _ _ _ Hwf1 H2) as Hl2.
  eapply put_range_trans; [| exact H1 |]; [lia |].
  eapply put_range_trans; [| exact H2 |]; [lia |].
  apply par_put_range_within_word_spec; [done | lia | unfold capacity; lia | lia].
Qed.

Lemma put_range_two_parts v bm beg end_ :
  wf bm -> 0 <= beg <= end_ -> end_ <= _size bm -> end_ / 64 <= (beg + 63) / 64 ->
  let boundary := MIN2 (bit_index (word_index_round_up bm beg)) end_ in
  put_range v beg end_ bm
    (par_put_range_within_word (par_put_range_within_word bm beg boundary v)
       boundary end_ v).
Proof.
  intros Hwf Hr Hs Hfull boundary. pose proof (wf_capacity bm Hwf) as Hcap.
  pose proof (wf_size bm Hwf) as Hsz.
  assert (boundary = Z.min (64 * ((beg + 63) / 64)) end_) as Hb.
  { subst boundary. rewrite MIN2_min, word_index_round_up_eq by (done || lia).
    by rewrite bit_index_mul by lia. }
  assert (put_range v beg boundary bm (par_put_range_within_word bm beg boundary v)) as H1.
  { apply par_put_range_within_word_spec; [done | lia | lia | lia]. }
  eapply put_range_trans; [| exact H1 |]; [lia |].
  pose proof (pr_length _ _ _ _ _ Hwf H1) as Hl1. unfold capacity in *.
  apply par_put_range_within_word_spec;
    [by apply pr_wf in H1 | lia | unfold capacity; lia | lia].
Qed.

Lemma set_range_of_words_spec bm i j :
  wf bm -> 0 <= i <= j -> j <= Z.of_nat (length (_map bm)) ->
  put_range true (64 * i) (64 * j) bm (set_range_of_words bm i j).
Proof.
  intros. pose proof (fill_words_spec (Z.to_nat (j - i)) bm i true) as Hf.
  replace (i + Z.of_nat (Z.to_nat (j - i))) with j in Hf by lia.
  apply Hf; done || lia.
Qed.

Lemma clear_range_of_words_spec bm i j :
  wf bm -> 0 <= i <= j -> j <= Z.of_nat (length (_map bm)) ->
  put_range false (64 * i) (64 * j) bm (clear_range_of_words bm i j).
Proof.
  intros. pose proof (fill_words_spec (Z.to_nat (j - i)) bm i false) as Hf.
  replace (i + Z.of_nat (Z.to_nat (j - i))) with j in Hf by lia.
  apply Hf; done || lia.
Qed.

Lemma set_large_range_of_words_eq bm i j :
  set_large_range_of_words bm i j = set_range_of_words bm i j.
Proof. done. Qed.

Lemma clear_large_range_of_words_eq bm i j :
  clear_large_range_of_words bm i j = clear_range_of_words bm i j.
Proof. done. Qed.

Lemma par_at_put_range_correct bm beg end_ v :
  wf bm -> 0 <= beg <= end_ -> end_ <= _size bm ->
  put_range v beg end_ bm (par_at_put_range bm beg end_ v).
Proof.
  intros Hwf Hr Hs. unfold par_at_put_range.
  rewrite word_index_round_up_eq, word_index_div by (done || lia).
  destruct (Z.ltb_spec ((beg + 63) / 64) (end_ / 64)).
  - pose proof (put_range_three_parts v bm beg end_
      (fun b i j => if v then set_range_of_words b i j else clear_range_of_words b i j)) as H3.
    simpl in H3. rewrite word_index_round_up_eq, word_index_div in H3 by (done || lia).
    apply H3; [done | done | done | lia |]. intros. destruct v;
      [by apply set_range_of_words_spec | by apply clear_range_of_words_spec].
  - pose proof (put_range_two_parts v bm beg end_) as H2. simpl in H2.
    rewrite word_index_round_up_eq in H2 by (done || lia). apply H2; done || lia.
Qed.

Lemma par_at_put_large_range_correct bm beg end_ v :
  wf bm -> 0 <= beg <= end_ -> end_ <= _size bm -> (beg + 63) / 64 <= end_ / 64 ->
  put_range v beg end_ bm (par_at_put_large_range bm beg end_ v).
Proof.
  intros Hwf Hr Hs Hfull.
  apply (put_range_three_parts v bm beg end_
    (fun b i j => if v then set_large_range_of_words b i j
                  else clear_large_range_of_words b i j)); try done.
  intros. destruct v.
  - rewrite set_large_range_of_words_eq. by apply set_range_of_words_spec.
  - rewrite clear_large_range_of_words_eq. by apply clear_range_of_words_spec.
Qed.

(** The sequential routines perform the stores of the atomic ones. *)
Lemma at_put_range_par bm beg end_ v :
  at_put_range bm beg end_ v = par_at_put_range bm beg end_ v.
Proof. by destruct v. Qed.

Lemma at_put_large_range_par bm beg end_ v :
  at_put_large_range bm beg end_ v = par_at_put_large_range bm beg end_ v.
Proof. by destruct v. Qed.

(** *** Single bits *)
Lemma at_put_correct bm i v :
  wf bm -> 0 <= i < capacity bm -> put_range v i (i + 1) bm (at_put bm i v).
Proof.
  intros Hwf Hi. unfold at_put, set_bit, clear_bit. rewrite word_index_div.
  assert (0 <= i mod 64 < 64) by lia.
  assert (is_u64 (bit_mask i)) by apply u64_range.
  destruct v; apply put_range_word; try (done || lia); auto with vm;
    intros k Hk; rewrite bit_mask_pow2.
  - rewrite Z.lor_spec, testbit_pow2 by lia.
    case_cmp; rewrite ?orb_true_r, ?orb_false_r; done || lia.
  - rewrite Z.land_spec, testbit_not64, testbit_pow2 by lia.
    case_cmp; rewrite ?andb_true_r, ?andb_false_r; done || lia.
Qed.

Lemma lor_bit_mask_same w i :
  (Z.lor w (bit_mask i) =? w) = Z.testbit w (i mod 64).
Proof.
  rewrite bit_mask_pow2. assert (0 <= i mod 64) by lia.
  destruct (Z.eqb_spec (Z.lor w (2 ^ (i mod 64))) w) as [E | E].
  - rewrite <- E, Z.lor_spec, testbit_pow2 by lia. by rewrite Z.eqb_refl, orb_true_r.
  - symmetry. apply not_true_is_false. intros Ht. apply E. bits k.
    destruct (Z.eqb_spec k (i mod 64)) as [-> |];
      [by rewrite Ht | by rewrite orb_false_r].
Qed.

Lemma land_bit_mask_same w i :
  is_u64 w ->
  (Z.land w (not64 (bit_mask i)) =? w) = negb (Z.testbit w (i mod 64)).
Proof.
  intros Hw. rewrite bit_mask_pow2. assert (0 <= i mod 64 < 64) by lia.
  destruct (Z.eqb_spec (Z.land w (not64 (2 ^ (i mod 64)))) w) as [E | E].
  - rewrite <- E, Z.land_spec, testbit_not64, testbit_pow2 by lia.
    by rewrite Z.eqb_refl, !andb_false_r.
  - symmetry. apply not_true_is_false. intros Ht. apply E. bits k.
    destruct (Z.eqb_spec k (i mod 64)) as [-> |];
      [by destruct (Z.testbit w (i mod 64)) |].
    destruct (Z.ltb_spec k 64); [by rewrite andb_true_r |].
    by rewrite (testbit_high 64).
Qed.

(** The atomic versions store what the plain ones store, and report a change. *)
Lemma par_at_put_result bm i v :
  wf bm -> 0 <= i < capacity bm ->
  fst (par_at_put bm i v) = xorb (bit bm i) v /\
  put_range v i (i + 1) bm (snd (par_at_put bm i v)).
Proof.
  intros Hwf Hi. pose proof (at_put_correct bm i v Hwf Hi) as Hput.
  assert (forall b, bit bm i = b -> v = b -> put_range v i (i + 1) bm bm) as Hsame.
  { intros b Hb ->. split; [done | done |]. intros j Hj.
    case_cmp; try done. by replace j with i by lia. }
  unfold par_at_put, at_put, par_set_bit, par_clear_bit in *. unfold bit in *.
  rewrite bit_in_word_mod in *. destruct v.
  - rewrite lor_bit_mask_same. destruct (Z.testbit _ _) eqn:E; simpl; eauto.
  - rewrite land_bit_mask_same by auto with vm.
    destruct (Z.testbit _ _) eqn:E; simpl; eauto.
Qed.

(** *** Hints *)
Lemma range_hint_correct bm beg end_ hint v :
  wf bm -> 0 <= beg <= end_ -> end_ <= _size bm ->
  (hint = large_range -> (beg + 63) / 64 <= end_ / 64) ->
  put_range v beg end_ bm
    (if v then set_range_hint bm beg end_ hint else clear_range_hint bm beg end_ hint) /\
  put_range v beg end_ bm
    (if v then par_set_range_hint bm beg end_ hint
     else par_clear_range_hint bm beg end_ hint).
Proof.
  intros Hwf Hr Hs Hl. pose proof (wf_capacity bm Hwf). pose proof (wf_size bm Hwf).
  unfold set_range_hint, clear_range_hint, par_set_range_hint, par_clear_range_hint.
  destruct (bool_decide (hint = small_range) && (u64 (end_ - beg) =? 1)) eqn:Esm.
  - apply andb_true_iff in Esm as [_ Esm]. apply Z.eqb_eq in Esm.
    rewrite u64_small in Esm by ulia. replace end_ with (beg + 1) by lia.
    assert (0 <= beg < capacity bm) as Hin by lia.
    pose proof (at_put_correct bm beg v Hwf Hin).
    pose proof (par_at_put_result bm beg v Hwf Hin) as [_ ?].
    split; by destruct v.
  - pose proof (par_at_put_range_correct bm beg end_ v Hwf Hr Hs) as Hsmall.
    destruct (bool_decide (hint = large_range)) eqn:Hh.
    + apply bool_decide_eq_true in Hh. specialize (Hl Hh).
      pose proof (par_at_put_large_range_correct bm beg end_ v Hwf Hr Hs Hl).
      split; by destruct v.
    + split; by destruct v.
Qed.

(** *** Whole maps *)

Lemma wf_length_same bm other :
  wf bm -> wf other -> _size bm = _size other -> length (_map bm) = length (_map other).
Proof.
  intros [_ H1 _] [_ H2 _] Hs. unfold size_in_words in *. rewrite Hs in H1. lia.
Qed.

(** A word function acts bitwise when it is determined by its bits. *)
Definition bitwise (f : Z -> Z -> Z) (g : bool -> bool -> bool) : Prop :=
  forall x y, is_u64 x -> is_u64 y ->
    is_u64 (f x y) /\
    forall k, 0 <= k < 64 -> Z.testbit (f x y) k = g (Z.testbit x k) (Z.testbit y k).

Lemma bitwise_lor : bitwise Z.lor orb.
Proof. intros x y ? ?. split; [auto with vm |]. intros. apply Z.lor_spec. Qed.

Lemma bitwise_land : bitwise Z.land andb.
Proof. intros x y ? ?. split; [auto with vm |]. intros. apply Z.land_spec. Qed.

Lemma bitwise_diff : bitwise (fun x y => Z.land x (not64 y)) (fun a b => a && negb b).
Proof.
  intros x y ? ?. split; [auto with vm |]. intros k Hk. bits_simpl.
  by destruct (Z.ltb_spec k 64); [| lia].
Qed.

Lemma bitwise_snd : bitwise (fun _ y => y) (fun _ b => b).
Proof. by intros x y ? ?. Qed.

#[local] Hint Resolve bitwise_lor bitwise_land bitwise_diff bitwise_snd : vm.

(** The loop over the words combines the two maps bit by bit. *)
Lemma zip_words_spec f g n i off bm other :
  bitwise f g -> wf bm -> wf other -> 0 <= i -> 0 <= off ->
  i + Z.of_nat n <= Z.of_nat (length (_map bm)) ->
  let r := zip_words f n i off bm other in
  wf r /\ _size r = _size bm /\
  forall j, 0 <= j ->
    bit r j = if (64 * i <=? j) && (j <? 64 * (i + Z.of_nat n))
              then g (bit bm j) (bit other (64 * off + j)) else bit bm j.
Proof.
  intros Hf. revert i bm. induction n as [| n IH]; intros i bm Hwf Hwo Hi Hoff Hn; simpl.
  - split; [done |]. split; [done |]. intros. case_cmp; done || lia.
  - set (w := f (map bm i) (map other (off + i))).
    destruct (Hf (map bm i) (map other (off + i))) as [Hw Hbits]; [auto with vm .. |].
    fold w in Hw, Hbits.
    destruct (IH (i + 1) (set_word_val bm i w)) as (H1 & H2 & H3);
      try (done || lia); [by apply wf_set_word_val | simpl; rewrite length_insert; lia |].
    split; [done |]. split; [done |]. intros j Hj. rewrite H3 by done.
    rewrite bit_set_word_val by lia.
    destruct (Z.eqb_spec (j / 64) i) as [E | E]; [| case_cmp; done || lia].
    unfold bit. rewrite !word_index_div, !bit_in_word_mod.
    replace ((64 * off + j) / 64) with (off + i) by lia.
    replace ((64 * off + j) mod 64) with (j mod 64) by lia. rewrite E.
    rewrite Hbits by lia. case_cmp; done || lia.
Qed.

(** The loop over all words: bits inside the capacity combine, the rest are clear. *)
Lemma zip_all_words f g off bm other :
  bitwise f g -> wf bm -> wf other -> 0 <= off ->
  let r := zip_words f (Z.to_nat (size_in_words bm)) 0 off bm other in
  wf r /\ _size r = _size bm /\
  forall j, 0 <= j < _size bm -> bit r j = g (bit bm j) (bit other (64 * off + j)).
Proof.
  intros Hf Hwf Hwo Hoff. pose proof (wf_length bm Hwf) as Hl.
  destruct (zip_words_spec f g (Z.to_nat (size_in_words bm)) 0 off bm other)
    as (H1 & H2 & H3); try (done || lia).
  split; [done |]. split; [done |]. intros j Hj. rewrite H3 by lia.
  pose proof (wf_capacity bm Hwf) as Hc. unfold capacity in Hc. case_cmp; done || lia.
Qed.

(** Reporting a change does not alter what is stored. *)
Lemma zip_words_with_result_snd f n i c bm other :
  0 <= i -> snd (zip_words_with_result f n i c bm other) = zip_words f n i 0 bm other.
Proof.
  revert i c bm. induction n as [| n IH]; intros i c bm Hi; simpl; [done |].
  by rewrite IH by lia.
Qed.

(** The words an earlier iteration stored are not read again. *)
Lemma zip_words_with_result_fst f n i c bm other :
  0 <= i -> i + Z.of_nat n <= Z.of_nat (length (_map bm)) ->
  fst (zip_words_with_result f n i c bm other) =
    c || negb (all_words (fun x y => f x y =? x) n i bm other).
Proof.
  revert i c bm. induction n as [| n IH]; intros i c bm Hi Hn; simpl.
  - by rewrite orb_false_r.
  - rewrite IH by (simpl; rewrite ?length_insert; lia).
    assert (forall m k b, i + 1 <= k -> k + Z.of_nat m <= Z.of_nat (length (_map b)) ->
      length (_map b) = length (_map bm) ->
      all_words (fun x y => f x y =? x) m k (set_word_val b i (f (map bm i) (map other i))) other =
      all_words (fun x y => f x y =? x) m k b other) as Hskip.
    { induction m as [| m IHm]; intros k b Hk Hm Hlb; simpl; [done |].
      rewrite map_set_word_val by lia. destruct (Z.eqb_spec k i); [lia |].
      rewrite IHm by (simpl; lia). done. }
    rewrite Hskip by lia. destruct (f (map bm i) (map other i) =? map bm i); simpl.
    + by rewrite orb_false_r.
    + by rewrite orb_true_r.
Qed.

Lemma all_words_spec p n i bm other :
  all_words p n i bm other = true <->
  forall k, i <= k < i + Z.of_nat n -> p (map bm k) (map other k) = true.
Proof.
  revert i. induction n as [| n IH]; intros i; simpl.
  - split; [lia | done].
  - destruct (p (map bm i) (map other i)) eqn:E.
    + rewrite IH. split.
      * intros H k Hk. destruct (decide (k = i)) as [-> |]; [done | apply H; lia].
      * intros H k Hk. apply H. lia.
    + split; [done |]. intros H. rewrite H in E by lia. done.
Qed.

(** A test of all words that tests bits is a test of all bits. *)
Lemma all_words_bits p (q : bool -> bool -> bool) bm other :
  (forall x y, is_u64 x -> is_u64 y ->
     (p x y = true <-> forall k, 0 <= k < 64 -> q (Z.testbit x k) (Z.testbit y k) = true)) ->
  wf bm -> wf other ->
  all_words p (Z.to_nat (size_in_words bm)) 0 bm other = true <->
  forall j, 0 <= j < capacity bm -> q (bit bm j) (bit other j) = true.
Proof.
  intros Hpq Hwf Hwo. pose proof (wf_length bm Hwf) as Hl.
  rewrite all_words_spec. unfold capacity. split.
  - intros H j Hj. unfold bit. rewrite !word_index_div, !bit_in_word_mod.
    apply Hpq; [auto with vm | auto with vm | apply H; lia | lia].
  - intros H w Hw. apply Hpq; [auto with vm | auto with vm |]. intros k Hk.
    specialize (H (64 * w + k) ltac:(lia)). unfold bit in H.
    rewrite !word_index_div, !bit_in_word_mod in H.
    by replace ((64 * w + k) / 64) with w in H by lia;
      replace ((64 * w + k) mod 64) with k in H by lia.
Qed.

Lemma u64_eq_bits x y :
  is_u64 x -> is_u64 y ->
  (x =? y) = true <-> forall k, 0 <= k < 64 -> Z.testbit x k = Z.testbit y k.
Proof.
  intros Hx Hy. rewrite Z.eqb_eq. split; [by intros -> |]. intros H.
  apply Z.bits_inj'. intros k Hk. destruct (Z.lt_ge_cases k 64); [auto |].
  by rewrite !(testbit_high 64).
Qed.

Lemma contains_bits bm other :
  wf bm -> wf other ->
  contains bm other = true <->
  forall j, 0 <= j < capacity bm -> bit other j = true -> bit bm j = true.
Proof.
  intros. unfold contains. rewrite (all_words_bits _ (fun a b => eqb (a || b) a)); try done.
  - split; intros Hc j Hj; specialize (Hc j Hj); destruct (bit bm j), (bit other j); auto.
  - intros x y ? ?. rewrite u64_eq_bits by auto with vm.
    split; intros Hb k Hk; specialize (Hb k Hk); rewrite Z.lor_spec in *;
      destruct (Z.testbit x k), (Z.testbit y k); done.
Qed.

Lemma intersects_bits bm other :
  wf bm -> wf other ->
  intersects bm other = false <->
  forall j, 0 <= j < capacity bm -> bit bm j && bit other j = false.
Proof.
  intros. unfold intersects. rewrite negb_false_iff.
  rewrite (all_words_bits _ (fun a b => negb (a && b))); try done.
  - setoid_rewrite negb_true_iff. done.
  - intros x y ? ?. rewrite u64_eq_bits by (auto with vm; unfold is_u64; lia).
    setoid_rewrite Z.land_spec. setoid_rewrite Z.bits_0. setoid_rewrite negb_true_iff. done.
Qed.

Lemma is_same_bits bm other :
  wf bm -> wf other -> _size bm = _size other ->
  is_same bm other = true <-> bm = other.
Proof.
  intros Hwf Hwo Hs. pose proof (wf_length bm Hwf) as Hl.
  pose proof (wf_length_same bm other Hwf Hwo Hs) as Hlo.
  unfold is_same. rewrite all_words_spec. split.
  - intros H. destruct bm as [m1 s1], other as [m2 s2]; simpl in *. f_equal; [| done].
    apply list_eq_same_length with (length m1); [done | done |].
    intros i x y Hi Hx Hy. specialize (H (Z.of_nat i) ltac:(lia)).
    unfold map in H; simpl in H. rewrite Nat2Z.id, Hx, Hy in H. simpl in H. lia.
  - intros ->. intros. apply Z.eqb_refl.
Qed.

(** *** Resizing *)

(** A new array of the size in words [n] whose words are arbitrary 64-bit values. *)
Definition fresh_array (n : Z) (fresh : list Z) : Prop :=
  n <= Z.of_nat (length fresh) /\ Forall is_u64 fresh.

Lemma bit_beyond bm i : capacity bm <= i -> bit bm i = false.
Proof.
  unfold capacity. intros Hi. unfold bit, map. rewrite word_index_div.
  rewrite lookup_ge_None_2 by lia. apply Z.bits_0.
Qed.

Lemma resize_result bm n fresh :
  wf bm -> 0 <= n < 2 ^ 63 -> fresh_array (word_index (n + 63)) fresh ->
  let r := resize bm n true fresh [] in
  wf r /\ _size r = n /\ forall i, 0 <= i < capacity r -> bit r i = bit bm i.
Proof.
  intros Hwf Hn [Hlf Hwords]. rewrite word_index_div in Hlf.
  pose proof (wf_length bm Hwf) as Hl. pose proof (wf_size bm Hwf) as Hs.
  unfold resize. rewrite MIN2_min.
  set (old := size_in_words bm) in *.
  change (size_in_words (mkBitMap (_map bm) n)) with (size_in_words (mkBitMap [] n)).
  assert (size_in_words (mkBitMap [] n) = (n + 63) / 64) as -> by (by rewrite size_in_words_eq).
  set (new := (n + 63) / 64) in *.
  set (k := Z.to_nat (Z.min old new)).
  set (arr := take k (_map bm) ++ drop k (take (Z.to_nat new) fresh)).
  assert (length arr = Z.to_nat new) as Hla.
  { unfold arr. rewrite length_app, length_drop, !length_take. lia. }
  assert (wf (mkBitMap arr n)) as Hwf2.
  { split; simpl; [done | rewrite size_in_words_eq by done; simpl; lia |].
    apply Forall_app. split; [by apply Forall_take, wf_words |].
    by apply Forall_drop, Forall_take. }
  assert (forall i, 0 <= i < 64 * Z.min old new -> bit (mkBitMap arr n) i = bit bm i) as Hlow.
  { intros i Hi. unfold bit, map, arr. simpl. rewrite word_index_div.
    rewrite lookup_app_l by (rewrite length_take; lia).
    by rewrite lookup_take_lt by lia. }
  rewrite Z.gtb_ltb. destruct (Z.ltb_spec old new).
  - pose proof (clear_range_of_words_spec (mkBitMap arr n) old
      (size_in_words (mkBitMap arr n)) Hwf2) as Hc.
    rewrite <- (wf_length _ Hwf2) in *. simpl in Hc.
    destruct Hc as [Hc1 Hc2 Hc3]; [lia | lia |].
    split; [done |]. split; [done |]. intros i Hi. unfold capacity in Hi.
    rewrite Hc3 by lia. destruct (Z.leb_spec (64 * old) i); simpl.
    + rewrite (bit_beyond bm) by (unfold capacity; lia).
      case_cmp; [done |]. apply bit_beyond. unfold capacity; simpl. lia.
    + apply Hlow. lia.
  - split; [done |]. split; [done |]. unfold capacity; simpl. intros i Hi. apply Hlow. lia.
Qed.

Lemma at_put_grow_result bm offset v fresh :
  wf bm -> 0 <= offset < 2 ^ 62 -> _size bm < 2 ^ 62 -> 0 < Z.max (_size bm) offset ->
  fresh_array (word_index (2 * Z.max (_size bm) offset + 63)) fresh ->
  let r := at_put_grow bm offset v fresh in
  wf r /\ offset < _size r /\ _size bm <= _size r /\ bit r offset = v /\
  forall i, 0 <= i < capacity r -> i <> offset -> bit r i = bit bm i.
Proof.
  intros Hwf Ho Hs Hpos Hfresh. unfold at_put_grow.
  pose proof (wf_size bm Hwf). pose proof (wf_capacity bm Hwf).
  rewrite Z.geb_leb, MAX2_max. destruct (Z.leb_spec (_size bm) offset) as [Hge | Hlt].
  - rewrite u64_small by ulia. rewrite Z.max_r in * by lia.
    destruct (resize_result bm (2 * offset) fresh) as (Hw & Hsz & Hb); [done | lia | done |].
    set (b1 := resize bm (2 * offset) true fresh []) in *.
    pose proof (wf_capacity _ Hw).
    pose proof (at_put_correct b1 offset v Hw ltac:(lia)) as Hput.
    pose proof (pr_length _ _ _ _ _ Hw Hput) as Hlen. destruct Hput as [Hp1 Hp2 Hp3].
    split; [done |]. repeat split; try lia.
    + rewrite Hp3 by lia. case_cmp; done || lia.
    + intros i Hi Hne. unfold capacity in *. rewrite Hp3 by lia.
      rewrite Hb by lia. case_cmp; done || lia.
  - pose proof (at_put_correct bm offset v Hwf ltac:(lia)) as [Hp1 Hp2 Hp3].
    split; [done |]. repeat split; try lia.
    + rewrite Hp3 by lia. case_cmp; done || lia.
    + intros i Hi Hne. rewrite Hp3 by lia. case_cmp; done || lia.
Qed.

(** ** Properties *)

(** Every routine that sets or clears a range, with or without a size hint,
    sequential or atomic, leaves a well-formed map of the same size in which
    exactly the bits of [beg, end) have the new value. *)
Theorem range_update (bm : BitMap) (beg end_ : Z) (hint : RangeSizeHint) (v : bool) :
  wf bm -> 0 <= beg <= end_ -> end_ <= _size bm ->
  (hint = large_range -> (beg + 63) / 64 <= end_ / 64) ->
  put_range v beg end_ bm
    (if v then set_range_hint bm beg end_ hint else clear_range_hint bm beg end_ hint) /\
  put_range v beg end_ bm
    (if v then par_set_range_hint bm beg end_ hint
     else par_clear_range_hint bm beg end_ hint) /\
  put_range v beg end_ bm (at_put_range bm beg end_ v).
Proof.
  intros. destruct (range_hint_correct bm beg end_ hint v) as [H3 H4]; [done .. |].
  split; [done |]. split; [done |]. rewrite at_put_range_par. by apply par_at_put_range_correct.
Qed.

Lemma range_update_witness :
  let r := set_range_hint (mkBitMap [0; 0; 0] 192) 60 130 large_range in
  bit r 59 = false /\ bit r 60 = true /\ bit r 129 = true /\ bit r 130 = false.
Proof.
  destruct (range_update (mkBitMap [0; 0; 0] 192) 60 130 large_range true) as ([_ _ H] & _ & _);
    [decide_now | lia | simpl; lia | intros; lia |].
  simpl. rewrite !H by lia. done.
Defined.

(** The result of a bulk operation [g] with [other] on the bits of [bm]. *)
Definition bulk (g : bool -> bool -> bool) (bm other r : BitMap) : Prop :=
  wf r /\ _size r = _size bm /\
  forall j, 0 <= j < _size bm -> bit r j = g (bit bm j) (bit other j).

Lemma all_words_change f g bm other :
  bitwise f g -> wf bm -> wf other ->
  all_words (fun x y => f x y =? x) (Z.to_nat (size_in_words bm)) 0 bm other = true <->
  forall j, 0 <= j < capacity bm -> g (bit bm j) (bit other j) = bit bm j.
Proof.
  intros Hf Hwf Hwo. rewrite (all_words_bits _ (fun a b => eqb (g a b) a)); try done.
  - setoid_rewrite eqb_true_iff. done.
  - intros x y Hx Hy. destruct (Hf x y Hx Hy) as [Hu Hb]. rewrite u64_eq_bits by done.
    setoid_rewrite eqb_true_iff. split; intros H k Hk; specialize (H k Hk);
      rewrite Hb in * by done; done.
Qed.

Lemma bulk_with_result f g bm other :
  bitwise f g -> wf bm -> wf other ->
  let r := zip_words_with_result f (Z.to_nat (size_in_words bm)) 0 false bm other in
  snd r = zip_words f (Z.to_nat (size_in_words bm)) 0 0 bm other /\
  (fst r = false <-> forall j, 0 <= j < capacity bm -> g (bit bm j) (bit other j) = bit bm j).
Proof.
  intros Hf Hwf Hwo r. pose proof (wf_length bm Hwf). split.
  - by apply zip_words_with_result_snd.
  - unfold r. rewrite zip_words_with_result_fst by lia. simpl. rewrite negb_false_iff.
    by apply all_words_change.
Qed.

(** The bulk operations act bit by bit, the variants with a result store the
    same map and report [false] exactly when no bit changed, and the tests
    [contains], [intersects] and [is_same] decide inclusion, overlap and equality. *)
Theorem bulk_operations (bm other : BitMap) :
  wf bm -> wf other -> _size bm = _size other ->
  bulk orb bm other (set_union bm other) /\
  bulk andb bm other (set_intersection bm other) /\
  bulk (fun a b => a && negb b) bm other (set_difference bm other) /\
  bulk (fun _ b => b) bm other (set_from bm other) /\
  snd (set_union_with_result bm other) = set_union bm other /\
  snd (set_intersection_with_result bm other) = set_intersection bm other /\
  snd (set_difference_with_result bm other) = set_difference bm other /\
  (fst (set_union_with_result bm other) = false <-> contains bm other = true) /\
  (fst (set_difference_with_result bm other) = false <-> intersects bm other = false) /\
  (is_same bm other = true <-> bm = other).
Proof.
  intros Hwf Hwo Hs. unfold bulk.
  pose proof (zip_all_words Z.lor orb 0 bm other bitwise_lor Hwf Hwo ltac:(done)) as Hu.
  pose proof (zip_all_words Z.land andb 0 bm other bitwise_land Hwf Hwo ltac:(done)) as Hi.
  pose proof (zip_all_words _ _ 0 bm other bitwise_diff Hwf Hwo ltac:(done)) as Hd.
  pose proof (zip_all_words _ _ 0 bm other bitwise_snd Hwf Hwo ltac:(done)) as Hf.
  destruct (bulk_with_result _ _ bm other bitwise_lor Hwf Hwo) as [Hru Hcu].
  destruct (bulk_with_result _ _ bm other bitwise_land Hwf Hwo) as [Hri _].
  destruct (bulk_with_result _ _ bm other bitwise_diff Hwf Hwo) as [Hrd Hcd].
  do 7 (split; [done |]). split; [| split; [| by apply is_same_bits]].
  - unfold set_union_with_result. rewrite Hcu, contains_bits by done.
    clear. split; intros H j Hj; specialize (H j Hj);
      destruct (bit bm j), (bit other j); naive_solver.
  - unfold set_difference_with_result. rewrite Hcd, intersects_bits by done.
    clear. split; intros H j Hj; specialize (H j Hj);
      destruct (bit bm j), (bit other j); naive_solver.
Qed.

Lemma bulk_operations_witness :
  bit (set_union (mkBitMap [5] 10) (mkBitMap [2] 10)) 1 = true /\
  snd (set_union_with_result (mkBitMap [5] 10) (mkBitMap [2] 10)) =
    set_union (mkBitMap [5] 10) (mkBitMap [2] 10).
Proof.
  destruct (bulk_operations (mkBitMap [5] 10) (mkBitMap [2] 10)) as (H & _ & _ & _ & H' & _);
    [decide_now | decide_now | done |].
  split; [| done]. destruct H as (_ & _ & Hb). rewrite Hb by (simpl; lia). done.
Defined.

(** Growing a map on a store past its end: the stored bit reads back, every
    other bit reads as before (as 0 where there was none), and the map covers
    the offset.  [fresh] is the indeterminate content of the new array. *)
Theorem at_put_grow_ok (bm : BitMap) (offset : Z) (v : bool) (fresh : list Z) :
  wf bm -> 0 <= offset < 2 ^ 62 -> _size bm < 2 ^ 62 -> 0 < Z.max (_size bm) offset ->
  fresh_array (word_index (2 * Z.max (_size bm) offset + 63)) fresh ->
  let r := at_put_grow bm offset v fresh in
  wf r /\ offset < _size r /\ _size bm <= _size r /\ bit r offset = v /\
  forall i, 0 <= i < capacity r -> i <> offset -> bit r i = bit bm i.
Proof. by apply at_put_grow_result. Qed.

Lemma at_put_grow_ok_witness :
  let r := at_put_grow (mkBitMap [1] 64) 70 true [9; 9; 9] in
  bit r 70 = true /\ bit r 0 = true /\ bit r 100 = false.
Proof.
  destruct (at_put_grow_ok (mkBitMap [1] 64) 70 true [9; 9; 9]) as (_ & _ & _ & H1 & H2);
    [decide_now | lia | simpl; lia | simpl; lia
    | split; [by vm_compute | repeat constructor; unfold is_u64; lia] |].
  split; [done |]. split; (rewrite H2; [done | vm_compute; done | done]).
Defined.

(** The hypothesis that the map or the offset is positive is needed: a store at
    offset 0 of an empty map doubles the size 0 and writes outside the array. *)
Lemma at_put_grow_empty fresh :
  _size (at_put_grow (mkBitMap [] 0) 0 true fresh) = 0.
Proof. reflexivity. Qed.

(** With [in_resource_area] false, [resize] reads the old words after it has
    released them: the result is whatever the released memory holds. *)
Lemma resize_c_heap_stale :
  exists stale, _map (resize (mkBitMap [5] 64) 64 false [0] stale) <> [5].
Proof. exists [0]. vm_compute. congruence. Qed.

End BitMap.
