(* ===== verification/BitMapPar.v ===== *)
(** * Racing updates of a bit map

    [BitMap::par_set_bit] ([utilities/bitMap.inline.hpp]) run by any number of
    threads on one map, interleaved at the granularity of its shared-memory
    accesses: the load of the word, and each [Atomic::cmpxchg_ptr].  The marking
    threads of the collector claim objects by the result of this call. *)

From stdpp Require Import base list numbers relations.
From Stdlib Require Import ZArith Lia.
From S2P Require Import Prelude GlobalDefs BitMap.

Local Open Scope Z_scope.
Import BitMap.

Module ParSetBit.

(** Where a thread is in its call: before the load of [old_val], at the head of
    the loop with a value of [old_val], or returned. *)
Inductive pc := Load | Loop (old_val : Z) | Ret (result : bool).

Record thread := mkThread { th_bit : Z; th_pc : pc }.

Record state := mkState { bm : BitMap; threads : list thread }.

(** What the iteration of the loop, or the load, of one thread does. *)
Definition thread_step (b : BitMap) (th : thread) : option (BitMap * thread) :=
  let bit := th_bit th in
  let addr := word_index bit in
  let mask := bit_mask bit in
  match th_pc th with
  | Load => Some (b, mkThread bit (Loop (map b addr)))
  | Loop old_val =>
      let new_val := Z.lor old_val mask in
      if new_val =? old_val then Some (b, mkThread bit (Ret false))
      else
        let cur_val := map b addr in
        if cur_val =? old_val
        then Some (set_word_val b addr new_val, mkThread bit (Ret true))
        else Some (b, mkThread bit (Loop cur_val))
  | Ret _ => None
  end.

Inductive step : state -> state -> Prop :=
| step_thread s i th b' th' :
    threads s !! i = Some th ->
    thread_step (bm s) th = Some (b', th') ->
    step s (mkState b' (<[i := th']> (threads s))).

Definition initial (b : BitMap) (bits : list Z) : state :=
  mkState b ((fun i => mkThread i Load) <$> bits).

Definition returned (th : thread) : bool :=
  match th_pc th with Ret _ => true | _ => false end.

(** Thread [th] has set bit [i] and been told so. *)
Definition winner (i : Z) (th : thread) : bool :=
  (th_bit th =? i) && match th_pc th with Ret r => r | _ => false end.

Definition done (s : state) : Prop := Forall (fun th => returned th = true) (threads s).

(** ** The invariant *)

Record inv (b0 : BitMap) (s : state) : Prop := {
  inv_wf : wf (bm s);
  inv_size : capacity (bm s) = capacity b0;
  inv_range : Forall (fun th => 0 <= th_bit th < capacity b0) (threads s);
  (** a bit is set when it was set at the start or one thread won it *)
  inv_bits : forall i, 0 <= i ->
    Z.b2z (bit (bm s) i) = Z.b2z (bit b0 i) + count (winner i) (threads s);
  (** a thread that has returned sees its bit set *)
  inv_ret : forall th r, th ∈ threads s -> th_pc th = Ret r -> bit (bm s) (th_bit th) = true;
  (** what a thread has read is a subset of what the word holds *)
  inv_old : forall th old, th ∈ threads s -> th_pc th = Loop old ->
    is_u64 old /\
    forall k, 0 <= k -> Z.testbit old k = true ->
      Z.testbit (map (bm s) (th_bit th / 64)) k = true
}.

Lemma count_initial i bits : count (winner i) ((fun j => mkThread j Load) <$> bits) = 0.
Proof.
  induction bits as [| x l IH]; [done |]. unfold count in *.
  rewrite fmap_cons, sum_of_cons, IH. unfold winner. simpl. by rewrite andb_false_r.
Qed.

Lemma inv_initial b0 bits :
  wf b0 -> Forall (fun i => 0 <= i < capacity b0) bits -> inv b0 (initial b0 bits).
Proof.
  intros Hwf Hb. split; simpl; try done.
  - by apply Forall_fmap.
  - intros. rewrite count_initial. lia.
  - intros th r Hin. apply list_elem_of_fmap in Hin as (? & -> & ?). done.
  - intros th r Hin. apply list_elem_of_fmap in Hin as (? & -> & ?). done.
Qed.

(** A step that leaves the map alone keeps the invariant. *)
Lemma inv_quiet b0 s i th p :
  inv b0 s -> threads s !! i = Some th ->
  winner (th_bit th) th = false ->
  (forall r, p = Ret r -> r = false /\ bit (bm s) (th_bit th) = true) ->
  (forall old, p = Loop old -> old = map (bm s) (th_bit th / 64)) ->
  inv b0 (mkState (bm s) (<[i := mkThread (th_bit th) p]> (threads s))).
Proof.
  intros [Hwf Hsz Hrg Hbits Hret Hold] Hi Hw Hp1 Hp2.
  pose proof (Forall_lookup_1 _ _ _ _ Hrg Hi) as Hr; simpl in Hr.
  split; simpl; try done.
  - by apply Forall_insert.
  - intros j Hj. unfold count. rewrite (sum_of_insert _ _ _ th) by done.
    fold (count (winner j) (threads s)). rewrite Hbits by done.
    assert (winner j th = false) as ->.
    { unfold winner in *. rewrite Z.eqb_refl in Hw. simpl in Hw.
      destruct (th_pc th) as [| | []]; try done; by rewrite andb_false_r. }
    assert (winner j (mkThread (th_bit th) p) = false) as ->; [| simpl; lia].
    unfold winner; simpl. destruct p as [| | r]; try (by rewrite andb_false_r).
    destruct (Hp1 r) as [-> _]; [done |]. by rewrite andb_false_r.
  - intros th' r Hin Hpc. apply elem_of_insert_inv in Hin as [-> | Hin]; [| by eapply Hret].
    simpl in *. by destruct (Hp1 r Hpc).
  - intros th' old Hin Hpc. apply elem_of_insert_inv in Hin as [-> | Hin]; [| by eapply Hold].
    simpl in *. rewrite (Hp2 old Hpc). split; [by apply map_u64 |]. done.
Qed.

(** The successful exchange. *)
Lemma inv_win b0 s i th old :
  inv b0 s -> threads s !! i = Some th -> th_pc th = Loop old ->
  Z.lor old (bit_mask (th_bit th)) <> old ->
  map (bm s) (word_index (th_bit th)) = old ->
  inv b0 (mkState (set_bit (bm s) (th_bit th))
                  (<[i := mkThread (th_bit th) (Ret true)]> (threads s))).
Proof.
  intros [Hwf Hsz Hrg Hbits Hret Hold] Hi Hpc Hne Hcur.
  pose proof (Forall_lookup_1 _ _ _ _ Hrg Hi) as Hr; simpl in Hr.
  pose proof (at_put_correct (bm s) (th_bit th) true Hwf ltac:(lia)) as Hput.
  pose proof (pr_length _ _ _ _ _ Hwf Hput) as Hlen.
  unfold at_put in Hput, Hlen. destruct Hput as [Hp1 Hp2 Hp3].
  assert (bit (bm s) (th_bit th) = false) as Hclear.
  { unfold bit. rewrite Hcur, bit_in_word_mod, <- lor_bit_mask_same.
    by destruct (Z.eqb_spec (Z.lor old (bit_mask (th_bit th))) old). }
  assert (forall j, 0 <= j -> bit (bm s) j = true -> bit (set_bit (bm s) (th_bit th)) j = true)
    as Hmono by (intros j Hj Hb; rewrite Hp3 by done; by case_cmp).
  split; simpl; try done.
  - unfold capacity in *. by rewrite Hlen.
  - by apply Forall_insert.
  - intros j Hj. unfold count. rewrite (sum_of_insert _ _ _ th) by done.
    fold (count (winner j) (threads s)). specialize (Hbits j Hj).
    rewrite Hp3 by done.
    assert (winner j th = false) as -> by (unfold winner; by rewrite Hpc, andb_false_r).
    assert (winner j (mkThread (th_bit th) (Ret true)) = (th_bit th =? j)) as ->
      by (unfold winner; simpl; by rewrite andb_true_r).
    destruct (Z.eqb_spec (th_bit th) j) as [<- |].
    + rewrite Hclear in Hbits. case_cmp; simpl in *; lia.
    + case_cmp; simpl in *; lia.
  - intros th' r Hin Hpc'. apply elem_of_insert_inv in Hin as [-> | Hin]; simpl.
    + rewrite Hp3 by lia. case_cmp; done || lia.
    + rewrite Forall_forall in Hrg. specialize (Hrg th' Hin).
      apply Hmono; [lia |]. by eapply Hret.
  - intros th' o Hin Hpc'. apply elem_of_insert_inv in Hin as [-> | Hin]; [done |].
    destruct (Hold th' o Hin Hpc') as [Hu Hsub]. split; [done |]. intros k Hk Hb.
    specialize (Hsub k Hk Hb). rewrite Forall_forall in Hrg. specialize (Hrg th' Hin).
    assert (k < 64) by (destruct (Z.lt_ge_cases k 64); [done |];
      rewrite (testbit_high 64) in Hb by done; done).
    specialize (Hmono (64 * (th_bit th' / 64) + k) ltac:(lia)).
    unfold bit in Hmono. rewrite word_index_div, bit_in_word_mod in Hmono.
    replace ((64 * (th_bit th' / 64) + k) / 64) with (th_bit th' / 64) in Hmono by lia.
    replace ((64 * (th_bit th' / 64) + k) mod 64) with k in Hmono by lia. auto.
Qed.

Lemma inv_step b0 s s' : inv b0 s -> step s s' -> inv b0 s'.
Proof.
  intros Hinv Hst. destruct Hst as [s i th b' th' Hi Hst].
  pose proof (list_elem_of_lookup_2 _ _ _ Hi) as Hin.
  unfold thread_step in Hst. destruct (th_pc th) as [| old |] eqn:Hpc; simplify_eq.
  - apply inv_quiet; try done; [by unfold winner; rewrite Hpc, andb_false_r |].
    intros old [= <-]. by rewrite word_index_div.
  - destruct (inv_old _ _ Hinv th old Hin Hpc) as [Hu Hsub].
    pose proof (inv_range _ _ Hinv) as Hrg. rewrite Forall_forall in Hrg.
    specialize (Hrg th Hin).
    destruct (Z.eqb_spec (Z.lor old (bit_mask (th_bit th))) old) as [Heq | Hne]; simplify_eq.
    + apply inv_quiet; try done; [by unfold winner; rewrite Hpc, andb_false_r |].
      intros r [= <-]. split; [done |]. unfold bit.
      rewrite word_index_div, bit_in_word_mod. apply Hsub; [lia |].
      rewrite <- lor_bit_mask_same, Heq. apply Z.eqb_refl.
    + destruct (Z.eqb_spec (map (bm s) (word_index (th_bit th))) old) as [Hc | Hc]; simplify_eq.
      * by apply (inv_win b0 s i th (map (bm s) (word_index (th_bit th)))).
      * apply inv_quiet; try done; [by unfold winner; rewrite Hpc, andb_false_r |].
        intros o [= <-]. by rewrite word_index_div.
Qed.

Lemma inv_steps b0 s s' : inv b0 s -> rtc step s s' -> inv b0 s'.
Proof. intros Hi Hs. induction Hs; [done |]. eauto using inv_step. Qed.

(** ** Progress *)

Lemma step_progress s : ~ done s -> exists s', step s s'.
Proof.
  intros Hnd. apply not_all_exists in Hnd as (i & th & Hi & Hr).
  destruct (thread_step (bm s) th) as [[b' th'] |] eqn:E.
  - eexists. by econstructor.
  - unfold thread_step in E. unfold returned in Hr. destruct (th_pc th); try done.
    by repeat case_match.
Qed.

(** A bound on the steps a state can still take: every exchange that succeeds
    ends a call and can make the value of each other thread stale. *)
Definition weight (n : Z) (b : BitMap) (th : thread) : Z :=
  match th_pc th with
  | Load => n + 2
  | Loop old => n + (if map b (word_index (th_bit th)) =? old then 0 else 1)
  | Ret _ => 0
  end.

Definition bound (s : state) : Z :=
  let n := Z.of_nat (length (threads s)) + 1 in sum_of (weight n (bm s)) (threads s).

Lemma step_length s s' : step s s' -> length (threads s') = length (threads s).
Proof. intros Hst. destruct Hst; simpl. by rewrite length_insert. Qed.

Lemma weight_stale n b b' th : weight n b' th <= weight n b th + 1.
Proof. unfold weight. destruct (th_pc th); [lia | | lia]. repeat case_match; lia. Qed.

Lemma step_bound s s' : step s s' -> 0 <= bound s' < bound s.
Proof.
  intros Hst. pose proof (step_length _ _ Hst) as Hlen. unfold bound. rewrite Hlen.
  set (n := Z.of_nat (length (threads s)) + 1). split.
  { apply sum_of_nonneg. intros th _. unfold weight. destruct (th_pc th); repeat case_match; lia. }
  destruct Hst as [s i th b' th' Hi Hst]; simpl.
  rewrite (sum_of_insert _ _ _ th) by done.
  assert (forall b, sum_of (weight n b) (threads s) <=
                    sum_of (weight n (bm s)) (threads s) + (n - 1)) as Hstale.
  { intros b. transitivity (sum_of (fun t => weight n (bm s) t + 1) (threads s)).
    - apply sum_of_le. intros. apply weight_stale.
    - rewrite sum_of_add, sum_of_const. lia. }
  specialize (Hstale b'). unfold thread_step in Hst. unfold weight at 2 3. destruct (th_pc th) as [| old |]; simplify_eq; simpl.
  - rewrite Z.eqb_refl. lia.
  - destruct (_ =? old); simplify_eq; simpl; [repeat case_match; lia |].
    destruct (Z.eqb_spec (map (bm s) (word_index (th_bit th))) old); simplify_eq; simpl.
    + repeat case_match; lia.
    + rewrite Z.eqb_refl. destruct (Z.eqb_spec (map (bm s) (word_index (th_bit th))) old); done || lia.
Qed.

Lemma steps_bits s s' : rtc step s s' -> th_bit <$> threads s' = th_bit <$> threads s.
Proof.
  intros Hs. induction Hs as [| s s1 s' Hst _ IH]; [done |]. rewrite IH.
  destruct Hst as [s i th b' th' Hi Hst]; simpl. rewrite list_fmap_insert.
  apply list_insert_id. rewrite list_lookup_fmap, Hi. simpl. f_equal.
  unfold thread_step in Hst. destruct (th_pc th); repeat case_match; by simplify_eq.
Qed.

(** C32. Racing calls of [par_set_bit]: however the calls of the threads
    interleave, when all of them have returned every requested bit is set, no
    other bit has changed, and exactly one of the callers of a bit that was
    clear is told [true] (none when the bit was set already). *)
Theorem par_set_bit_race (b0 : BitMap) (bits : list Z) (s : state) :
  wf b0 -> Forall (fun i => 0 <= i < capacity b0) bits ->
  rtc step (initial b0 bits) s -> done s ->
  (forall i, i ∈ bits ->
     bit (bm s) i = true /\
     count (winner i) (threads s) = if bit b0 i then 0 else 1) /\
  (forall i, 0 <= i -> i ∉ bits -> bit (bm s) i = bit b0 i).
Proof.
  intros Hwf Hrg Hst Hdone.
  pose proof (inv_steps _ _ _ (inv_initial _ _ Hwf Hrg) Hst) as Hinv.
  pose proof (steps_bits _ _ Hst) as Hbits. simpl in Hbits.
  rewrite <- list_fmap_compose, list_fmap_id in Hbits. split.
  - intros i Hi. rewrite Forall_forall in Hrg. specialize (Hrg i Hi).
    assert (bit (bm s) i = true) as Hset.
    { rewrite <- Hbits in Hi. apply list_elem_of_fmap in Hi as (th & -> & Hin).
      unfold done in Hdone. rewrite Forall_forall in Hdone. specialize (Hdone th Hin). unfold returned in Hdone.
      destruct (th_pc th) eqn:Hpc; try done. by eapply inv_ret. }
    split; [done |]. pose proof (inv_bits _ _ Hinv i ltac:(lia)) as Hc.
    rewrite Hset in Hc. destruct (bit b0 i); simpl in Hc; lia.
  - intros i Hi Hni. pose proof (inv_bits _ _ Hinv i Hi) as Hc.
    assert (count (winner i) (threads s) = 0) as H0.
    { unfold count. transitivity (sum_of (fun _ => 0) (threads s)); [| by rewrite sum_of_const].
      apply sum_of_ext. intros th Hin. unfold winner.
      destruct (Z.eqb_spec (th_bit th) i); [| done]. subst i. destruct Hni.
      rewrite <- Hbits. by apply list_elem_of_fmap_2. }
    destruct (bit (bm s) i), (bit b0 i); simpl in Hc; done || lia.
Qed.

(** A run of three threads, two of which race for bit 3. *)
Lemma par_set_bit_race_witness :
  let b0 := mkBitMap [0; 0] 70 in
  exists s, rtc step (initial b0 [3; 3; 65]) s /\ done s /\
    count (winner 3) (threads s) = 1 /\ bit (bm s) 65 = true.
Proof.
  set (s := mkState (mkBitMap [8; 2] 70)
    [mkThread 3 (Ret false); mkThread 3 (Ret true); mkThread 65 (Ret true)]).
  assert (rtc step (initial (mkBitMap [0; 0] 70) [3; 3; 65]) s) as Hs.
  { eapply rtc_l; [eapply (step_thread _ 0); reflexivity |].
    eapply rtc_l; [eapply (step_thread _ 1); reflexivity |].
    eapply rtc_l; [eapply (step_thread _ 1); reflexivity |].
    eapply rtc_l; [eapply (step_thread _ 0); reflexivity |].
    eapply rtc_l; [eapply (step_thread _ 2); reflexivity |].
    eapply rtc_l; [eapply (step_thread _ 0); reflexivity |].
    eapply rtc_l; [eapply (step_thread _ 2); reflexivity |]. apply rtc_refl. }
  exists s. split; [done |]. split; [by repeat constructor |].
  assert (wf (mkBitMap [0; 0] 70)) as Hwf
    by (split; [simpl; lia | done | by repeat constructor]).
  destruct (par_set_bit_race (mkBitMap [0; 0] 70) [3; 3; 65] s Hwf) as [H _].
  - by repeat constructor.
  - exact Hs.
  - by repeat constructor.
  - split; [apply (H 3) | apply (H 65)]; repeat constructor.
Defined.

(** The loops of racing [par_set_bit] calls end: there is no infinite run,
    and until all calls have returned some thread can take a step. *)
Theorem par_set_bit_terminates (s : state) :
  sn step s /\ (done s \/ exists s', step s s').
Proof.
  split.
  - apply (sn_measure _ bound), step_bound.
  - destruct (decide (Forall (fun th => returned th = true) (threads s))); [by left | right].
    by apply step_progress.
Qed.

End ParSetBit.
