(* ===== verification/BitMapSearch.v ===== *)
(** * Searching, iterating and counting over a bit map

    The word-at-a-time searches of [utilities/bitMap.inline.hpp], and
    [iterate], [is_full], [is_empty] and [count_one_bits] of
    [utilities/bitMap.cpp].  Each is proved equal to its definition by single
    bits.  The inner loops shift a 64-bit word until a bit shows, so 64 (65 for
    the loops that also test for zero) iterations are enough fuel. *)

From stdpp Require Import base list numbers.
From Stdlib Require Import ZArith Lia.
From S2P Require Import Prelude GlobalDefs BitMap.

Local Open Scope Z_scope.
Import BitMap.

Module BitMapSearch.

(** [for (; !(res & 1); res_offset++) res = res >> 1;] *)
Fixpoint scan_one (fuel : nat) (res res_offset : Z) : Z :=
  match fuel with
  | O => res_offset
  | S f =>
      if negb (Z.land res 1 =? 0) then res_offset
      else scan_one f (Z.shiftr res 1) (u64 (res_offset + 1))
  end.

(** [for (; res & 1; res_offset++) res = res >> 1;] *)
Fixpoint scan_zero (fuel : nat) (res res_offset : Z) : Z :=
  match fuel with
  | O => res_offset
  | S f =>
      if Z.land res 1 =? 0 then res_offset
      else scan_zero f (Z.shiftr res 1) (u64 (res_offset + 1))
  end.

(** [for (; index < r_index; index++) ...] over the [n] words from [index]; the
    first word that is not [skip] ends it. *)
Fixpoint scan_words (scan : Z -> Z -> Z) (skip : Z) (n : nat) (bm : BitMap) (index : Z)
    : option Z :=
  match n with
  | O => None
  | S n' =>
      let res := map bm index in
      if negb (res =? skip) then Some (scan res (bit_index index))
      else scan_words scan skip n' bm (index + 1)
  end.

Definition get_next_one_offset_inline (bm : BitMap) (l_offset r_offset : Z) : Z :=
  if l_offset =? r_offset then l_offset
  else
    let index := word_index l_offset in
    let r_index := word_index (r_offset - 1) + 1 in
    let pos := bit_in_word l_offset in
    let res := Z.shiftr (map bm index) pos in
    if negb (res =? NoBits) then MIN2 (scan_one 64 res l_offset) r_offset
    else
      match scan_words (scan_one 64) NoBits (Z.to_nat (r_index - (index + 1))) bm (index + 1) with
      | Some res_offset => MIN2 res_offset r_offset
      | None => r_offset
      end.

Definition get_next_zero_offset_inline (bm : BitMap) (l_offset r_offset : Z) : Z :=
  if l_offset =? r_offset then l_offset
  else
    let index := word_index l_offset in
    let r_index := word_index (r_offset - 1) + 1 in
    let pos := Z.land l_offset (BitsPerWord - 1) in
    let res := Z.lor (Z.shiftr (map bm index) pos) (left_n_bits pos) in
    if negb (res =? AllBits) then MIN2 (scan_zero 64 res l_offset) r_offset
    else
      match scan_words (scan_zero 64) AllBits (Z.to_nat (r_index - (index + 1))) bm (index + 1) with
      | Some res_offset => MIN2 res_offset r_offset
      | None => r_offset
      end.

Definition get_next_one_offset_inline_aligned_right (bm : BitMap) (l_offset r_offset : Z) : Z :=
  if l_offset =? r_offset then l_offset
  else
    let index := word_index l_offset in
    let r_index := word_index r_offset in
    let res := Z.shiftr (map bm index) (bit_in_word l_offset) in
    if negb (res =? NoBits) then scan_one 64 res l_offset
    else
      match scan_words (scan_one 64) NoBits (Z.to_nat (r_index - (index + 1))) bm (index + 1) with
      | Some res_offset => res_offset
      | None => r_offset
      end.

Definition get_next_one_offset (bm : BitMap) (l_offset r_offset : Z) : Z :=
  get_next_one_offset_inline bm l_offset r_offset.

Definition get_next_zero_offset (bm : BitMap) (l_offset r_offset : Z) : Z :=
  get_next_zero_offset_inline bm l_offset r_offset.

Definition get_next_one_offset_from (bm : BitMap) (offset : Z) : Z :=
  get_next_one_offset bm offset (_size bm).

Definition get_next_zero_offset_from (bm : BitMap) (offset : Z) : Z :=
  get_next_zero_offset bm offset (_size bm).

(** The loop of [is_full] and [is_empty] over the whole words, then the rest. *)
Fixpoint test_words (ok : Z -> bool) (last : Z -> Z -> bool) (fuel : nat)
    (bm : BitMap) (word rest : Z) : bool :=
  match fuel with
  | O => false
  | S f =>
      if rest >=? BitsPerWord then
        if negb (ok (map bm word)) then false
        else test_words ok last f bm (word + 1) (rest - BitsPerWord)
      else (rest =? 0) || last (map bm word) rest
  end.

Definition is_full (bm : BitMap) : bool :=
  test_words (fun w => w =? AllBits)
    (fun w rest => Z.lor w (not64 (right_n_bits rest)) =? AllBits)
    (S (length (_map bm))) bm 0 (_size bm).

Definition is_empty (bm : BitMap) : bool :=
  test_words (fun w => w =? NoBits)
    (fun w rest => Z.land w (right_n_bits rest) =? NoBits)
    (S (length (_map bm))) bm 0 (_size bm).

(** ** Iteration

    The closure is a function on the state it works on; the state holds the
    bit map, which the closure may change. *)
Section Iterate.
Context {St : Type} (get_bm : St -> BitMap) (do_bit : Z -> St -> bool * St).

(** The inner loop; [inl] is an early [return false], [inr] the end of the loop. *)
Fixpoint iterate_word (fuel : nat) (index offset rightOffset rest : Z) (s : St) : St + St :=
  match fuel with
  | O => inr s
  | S f =>
      if (offset <? rightOffset) && negb (rest =? NoBits) then
        if negb (Z.land rest 1 =? 0) then
          let '(ok, s) := do_bit offset s in
          if negb ok then inl s
          else
            let rest := Z.shiftr (map (get_bm s) index) (Z.land offset (BitsPerWord - 1)) in
            iterate_word f index (offset + 1) rightOffset (Z.shiftr rest 1) s
        else iterate_word f index (offset + 1) rightOffset (Z.shiftr rest 1) s
      else inr s
  end.

Fixpoint iterate_words (fuel : nat) (index offset rightOffset endIndex : Z) (s : St)
    : bool * St :=
  match fuel with
  | O => (true, s)
  | S f =>
      if (offset <? rightOffset) && (index <? endIndex) then
        let rest := Z.shiftr (map (get_bm s) index) (Z.land offset (BitsPerWord - 1)) in
        match iterate_word 65 index offset rightOffset rest s with
        | inl s => (false, s)
        | inr s => iterate_words f (index + 1) (bit_index (index + 1)) rightOffset endIndex s
        end
      else (true, s)
  end.

Definition iterate (leftOffset rightOffset : Z) (s : St) : bool * St :=
  let startIndex := word_index leftOffset in
  let endIndex := MIN2 (word_index rightOffset + 1) (size_in_words (get_bm s)) in
  iterate_words (S (Z.to_nat (endIndex - startIndex))) startIndex leftOffset rightOffset
    endIndex s.

(** The reference: look at each bit in turn, in the state of that moment. *)
Fixpoint visit (n : nat) (i : Z) (s : St) : bool * St :=
  match n with
  | O => (true, s)
  | S n' =>
      if bit (get_bm s) i then
        let '(ok, s) := do_bit i s in
        if ok then visit n' (i + 1) s else (false, s)
      else visit n' (i + 1) s
  end.
End Iterate.

(** ** Counting *)

Fixpoint skip_zeros (fuel : nat) (w : Z) : Z :=
  match fuel with
  | O => w
  | S f => if Z.land w 1 =? 0 then skip_zeros f (Z.shiftr w 1) else w
  end.

Fixpoint num_set_bits_loop (fuel : nat) (w bits : Z) : Z :=
  match fuel with
  | O => bits
  | S f =>
      if negb (w =? 0) then
        num_set_bits_loop f (Z.shiftr (skip_zeros 64 w) 1) (bits + 1)
      else bits
  end.

Definition num_set_bits (w : Z) : Z := num_set_bits_loop 65 w 0.

Definition init_pop_count_table : list Z := num_set_bits <$> zseq 0 256.

Definition num_set_bits_from_table (table : list Z) (c : Z) : Z :=
  default 0 (table !! Z.to_nat c).

(** [for (j = 0; j < sizeof(bm_word_t); j++)] *)
Fixpoint count_bytes (table : list Z) (n : nat) (w sum : Z) : Z :=
  match n with
  | O => sum
  | S n' =>
      count_bytes table n' (Z.shiftr w 8)
        (u64 (sum + num_set_bits_from_table table (u8 (Z.land w 255))))
  end.

(** [for (i = 0; i < size_in_words(); i++)], [f] the effect of the body on the sum. *)
Fixpoint count_words (f : Z -> Z -> Z) (n : nat) (i : Z) (bm : BitMap) (sum : Z) : Z :=
  match n with
  | O => sum
  | S n' => count_words f n' (i + 1) bm (f (map bm i) sum)
  end.

Definition count_one_bits (bm : BitMap) : Z :=
  count_words (count_bytes init_pop_count_table 8) (Z.to_nat (size_in_words bm)) 0 bm 0.

(** ** The searches *)

Lemma land_1_testbit x : (Z.land x 1 =? 0) = negb (Z.testbit x 0).
Proof.
  change 1 with (Z.ones 1). rewrite Z.land_ones by lia.
  change (2 ^ 1) with 2. rewrite <- Z.bit0_mod. by destruct (Z.testbit x 0).
Qed.

Lemma scan_one_find n res off :
  0 <= off -> off + Z.of_nat n < 2 ^ 64 ->
  scan_one n res off = find_first (fun j => Z.testbit res (j - off)) n off.
Proof.
  revert res off. induction n as [| n IH]; intros res off Ho Hn; simpl; [done |].
  rewrite land_1_testbit, negb_involutive, Z.sub_diag.
  destruct (Z.testbit res 0); [done |]. rewrite u64_small by ulia.
  rewrite IH by lia. apply find_first_ext. intros j Hj.
  rewrite Z.shiftr_spec by lia. f_equal. lia.
Qed.

Lemma scan_zero_find n res off :
  0 <= off -> off + Z.of_nat n < 2 ^ 64 ->
  scan_zero n res off = find_first (fun j => negb (Z.testbit res (j - off))) n off.
Proof.
  revert res off. induction n as [| n IH]; intros res off Ho Hn; simpl; [done |].
  rewrite land_1_testbit, Z.sub_diag.
  destruct (Z.testbit res 0); [| done]. simpl. rewrite u64_small by ulia.
  rewrite IH by lia. apply find_first_ext. intros j Hj.
  rewrite Z.shiftr_spec by lia. do 2 f_equal. lia.
Qed.

#[local] Arguments scan_one : simpl never.
#[local] Arguments scan_zero : simpl never.

(** [x] is the first index of [a, b) at which [f] holds. *)
Definition first_in (f : Z -> bool) (a b x : Z) : Prop :=
  a <= x < b /\ f x = true /\ forall j, a <= j < x -> f j = false.

(** A bounded search that some index satisfies finds the first one. *)
Lemma find_first_in f n a :
  (exists k, a <= k < a + Z.of_nat n /\ f k = true) ->
  first_in f a (a + Z.of_nat n) (find_first f n a).
Proof.
  intros (k & Hk & Hf).
  pose proof (find_first_ge f n a). pose proof (find_first_le f n a).
  assert (find_first f n a < a + Z.of_nat n).
  { destruct (Z.lt_ge_cases (find_first f n a) (a + Z.of_nat n)); [done |].
    rewrite (find_first_false f n a k) in Hf by lia. done. }
  split; [lia |]. split; [by apply find_first_true |].
  intros j Hj. by apply (find_first_false f n a).
Qed.

(** The two inner loops find the first one bit and the first zero bit. *)
Lemma scan_one_word w off :
  is_u64 w -> (w =? NoBits) = false -> 0 <= off -> off + 64 < 2 ^ 64 ->
  first_in (fun j => Z.testbit w (j - off)) off (off + 64) (scan_one 64 w off).
Proof.
  intros Hw Hnz Ho Hlt. rewrite scan_one_find by lia. apply find_first_in.
  apply Z.eqb_neq in Hnz. unfold NoBits in Hnz.
  destruct (nonzero_bit w) as (i & Hi & Hb); [ulia |]. exists (off + i).
  assert (i < 64) by (destruct (Z.lt_ge_cases i 64); [done |];
    rewrite (testbit_high 64) in Hb by done; done).
  replace (off + i - off) with i by lia. split; [lia | done].
Qed.

Lemma scan_zero_word w off :
  is_u64 w -> (w =? AllBits) = false -> 0 <= off -> off + 64 < 2 ^ 64 ->
  first_in (fun j => negb (Z.testbit w (j - off))) off (off + 64) (scan_zero 64 w off).
Proof.
  intros Hw Hnz Ho Hlt. rewrite scan_zero_find by lia. apply find_first_in.
  apply Z.eqb_neq in Hnz. rewrite AllBits_ones in Hnz.
  destruct (nonzero_bit (not64 w)) as (i & Hi & Hb).
  { destruct (u64_range (Z.lnot w)) as [Hge _]. fold (not64 w) in Hge.
    destruct (Z.eq_dec (not64 w) 0) as [E | E]; [| lia]. destruct Hnz.
    apply Z.bits_inj'. intros i Hi. rewrite testbit_ones by lia.
    destruct (Z.ltb_spec i 64); [| by apply (testbit_high 64)].
    assert (Z.testbit (not64 w) i = false) as Hf by (rewrite E; apply Z.bits_0).
    rewrite testbit_not64 in Hf by lia. destruct (Z.ltb_spec i 64); [| lia].
    by destruct (Z.testbit w i). }
  rewrite testbit_not64 in Hb by lia. apply andb_true_iff in Hb as [Hlt' Hb].
  exists (off + i). replace (off + i - off) with i by lia. split; [lia | done].
Qed.

Lemma bit_word bm w k : 0 <= k < 64 -> bit bm (64 * w + k) = Z.testbit (map bm w) k.
Proof.
  intros. unfold bit. rewrite word_index_div, bit_in_word_mod.
  replace ((64 * w + k) / 64) with w by lia. by replace ((64 * w + k) mod 64) with k by lia.
Qed.

Section WordSearch.
(** A search for the first index with [f], by words: [skip] is the word in
    which no index satisfies [f] and [scan] finds the first index in a word. *)
Context (bm : BitMap) (f : Z -> bool) (scan : Z -> Z -> Z) (skip : Z).
Hypothesis skip_none : forall w k,
  map bm w = skip -> 0 <= k < 64 -> f (64 * w + k) = false.
Hypothesis scan_first : forall w,
  0 <= w -> 64 * w + 64 < 2 ^ 64 -> (map bm w =? skip) = false ->
  first_in f (64 * w) (64 * w + 64) (scan (map bm w) (64 * w)).

Lemma scan_words_spec n i :
  0 <= i -> 64 * (i + Z.of_nat n) < 2 ^ 64 ->
  match scan_words scan skip n bm i with
  | Some x => first_in f (64 * i) (64 * (i + Z.of_nat n)) x
  | None => forall j, 64 * i <= j < 64 * (i + Z.of_nat n) -> f j = false
  end.
Proof.
  revert i. induction n as [| n IH]; intros i Hi Hn; simpl; [lia |].
  rewrite bit_index_mul by lia. destruct (map bm i =? skip) eqn:E; simpl.
  - apply Z.eqb_eq in E.
    assert (forall j, 64 * i <= j < 64 * i + 64 -> f j = false) as Hnone.
    { intros j Hj. replace j with (64 * i + (j - 64 * i)) by lia.
      apply skip_none; [done | lia]. }
    specialize (IH (i + 1) ltac:(lia) ltac:(lia)). destruct (scan_words _ _ _ _ _) as [x |].
    + destruct IH as (Hx & Hf & Hlow). split; [lia |]. split; [done |]. intros j Hj.
      destruct (Z.lt_ge_cases j (64 * i + 64)); [apply Hnone; lia | apply Hlow; lia].
    + intros j Hj.
      destruct (Z.lt_ge_cases j (64 * i + 64)); [apply Hnone; lia | apply IH; lia].
  - destruct (scan_first i) as (Hx & Hf & Hlow); [lia | lia | done |].
    split; [lia |]. by split.
Qed.

(** The whole search: the rest of the first word, then the following words. *)
Lemma word_search_spec l r n (found : bool) (first : Z) :
  0 <= l < r -> r < 2 ^ 63 -> n = Z.to_nat ((r + 63) / 64 - (l / 64 + 1)) ->
  (if found then first_in f l (64 * (l / 64 + 1)) first
   else forall j, l <= j < 64 * (l / 64 + 1) -> f j = false) ->
  (if found then MIN2 first r
   else match scan_words scan skip n bm (l / 64 + 1) with
        | Some x => MIN2 x r
        | None => r
        end) = find_first f (Z.to_nat (r - l)) l.
Proof.
  intros Hl Hr -> Hfirst. symmetry. set (n := Z.to_nat ((r + 63) / 64 - (l / 64 + 1))).
  assert (forall x b, first_in f l b x -> find_first f (Z.to_nat (r - l)) l = MIN2 x r) as Hmin.
  { intros x b (Hx & Hf & Hlow). rewrite MIN2_min. apply find_first_unique; [lia | |].
    - intros j Hj. apply Hlow. lia.
    - intros. by rewrite Z.min_l by lia. }
  destruct found; [by eapply Hmin |].
  pose proof (scan_words_spec n (l / 64 + 1) ltac:(lia) ltac:(lia)) as Hw.
  destruct (scan_words _ _ _ _ _) as [x |].
  - destruct Hw as (Hx & Hf & Hlow). apply (Hmin x (x + 1)). split; [lia |]. split; [done |].
    intros j Hj. destruct (Z.lt_ge_cases j (64 * (l / 64 + 1)));
      [apply Hfirst; lia | apply Hlow; lia].
  - apply find_first_unique; [lia | | lia]. intros j Hj.
    destruct (Z.lt_ge_cases j (64 * (l / 64 + 1))); [apply Hfirst; lia | apply Hw; lia].
Qed.
End WordSearch.

Lemma first_in_ext f g a b b' x :
  (forall j, a <= j < b -> f j = g j) -> b <= b' \/ x < b' ->
  first_in f a b x -> first_in g a b' x.
Proof.
  intros He Hb (Hx & Hf & Hlow). split; [lia |]. split.
  - by rewrite <- He by lia.
  - intros j Hj. rewrite <- He by lia. by apply Hlow.
Qed.

Lemma skip_none_one bm w k :
  map bm w = NoBits -> 0 <= k < 64 -> bit bm (64 * w + k) = false.
Proof. intros E Hk. rewrite bit_word, E by done. apply Z.bits_0. Qed.

Lemma skip_none_zero bm w k :
  map bm w = AllBits -> 0 <= k < 64 -> negb (bit bm (64 * w + k)) = false.
Proof.
  intros E Hk. rewrite bit_word, E, AllBits_ones, testbit_ones by lia. case_cmp; done || lia.
Qed.

Lemma scan_first_one bm w :
  wf bm -> 0 <= w -> 64 * w + 64 < 2 ^ 64 -> (map bm w =? NoBits) = false ->
  first_in (bit bm) (64 * w) (64 * w + 64) (scan_one 64 (map bm w) (64 * w)).
Proof.
  intros Hwf Hw Hlt Hne. eapply first_in_ext; [| by left | apply scan_one_word; auto with vm lia].
  intros j Hj. simpl. rewrite <- bit_word by lia. f_equal. lia.
Qed.

Lemma scan_first_zero bm w :
  wf bm -> 0 <= w -> 64 * w + 64 < 2 ^ 64 -> (map bm w =? AllBits) = false ->
  first_in (fun j => negb (bit bm j)) (64 * w) (64 * w + 64)
    (scan_zero 64 (map bm w) (64 * w)).
Proof.
  intros Hwf Hw Hlt Hne. eapply first_in_ext; [| by left | apply scan_zero_word; auto with vm lia].
  intros j Hj. simpl. rewrite <- bit_word by lia. do 2 f_equal. lia.
Qed.

(** The first word, shifted so that [l] is its lowest bit. *)
Lemma shifted_bit bm l j :
  l <= j < 64 * (l / 64 + 1) ->
  Z.testbit (Z.shiftr (map bm (l / 64)) (l mod 64)) (j - l) = bit bm j.
Proof.
  intros Hj. rewrite Z.shiftr_spec by lia.
  replace j with (64 * (l / 64) + (j - l + l mod 64)) at 2 by lia. by rewrite bit_word by lia.
Qed.

Lemma shifted_u64 bm l : wf bm -> is_u64 (Z.shiftr (map bm (l / 64)) (l mod 64)).
Proof. intros Hwf. apply (shiftr_range 64); [lia | by apply map_u64]. Qed.

Lemma testbit_left_n_bits n k :
  0 <= n < 64 -> 0 <= k -> Z.testbit (left_n_bits n) k = (64 - n <=? k) && (k <? 64).
Proof.
  intros Hn Hk. unfold left_n_bits, BitsPerWord. rewrite Z.geb_leb.
  destruct (Z.leb_spec 64 n); [lia |].
  rewrite testbit_wrap, Z.shiftl_spec by lia.
  destruct (Z.leb_spec (64 - n) k).
  - rewrite testbit_right_n_bits by lia. case_cmp; done || lia.
  - rewrite Z.testbit_neg_r by lia. by rewrite andb_false_r.
Qed.

Lemma first_word_one bm l :
  wf bm -> 0 <= l < 2 ^ 63 ->
  let res := Z.shiftr (map bm (l / 64)) (l mod 64) in
  if negb (res =? NoBits) then first_in (bit bm) l (64 * (l / 64 + 1)) (scan_one 64 res l)
  else forall j, l <= j < 64 * (l / 64 + 1) -> bit bm j = false.
Proof.
  intros Hwf Hl res. pose proof (shifted_u64 bm l Hwf) as Hu. fold res in Hu.
  pose proof (shifted_bit bm l) as Hb. fold res in Hb.
  destruct (res =? NoBits) eqn:E; simpl.
  - intros j Hj. rewrite <- Hb by done. apply Z.eqb_eq in E. rewrite E. apply Z.bits_0.
  - destruct (scan_one_word res l) as (Hx & Hf & Hlow); [done | done | lia | lia |].
    assert (scan_one 64 res l < 64 * (l / 64 + 1)) as Hin.
    { destruct (Z.lt_ge_cases (scan_one 64 res l) (64 * (l / 64 + 1))); [done |].
      subst res. rewrite Z.shiftr_spec, map_bit_high in Hf by (done || lia). done. }
    split; [lia |]. split; [by rewrite <- Hb by lia |].
    intros j Hj. rewrite <- Hb by lia. by apply Hlow.
Qed.

Lemma first_word_zero bm l :
  wf bm -> 0 <= l < 2 ^ 63 ->
  let res := Z.lor (Z.shiftr (map bm (l / 64)) (l mod 64)) (left_n_bits (l mod 64)) in
  if negb (res =? AllBits)
  then first_in (fun j => negb (bit bm j)) l (64 * (l / 64 + 1)) (scan_zero 64 res l)
  else forall j, l <= j < 64 * (l / 64 + 1) -> negb (bit bm j) = false.
Proof.
  intros Hwf Hl res.
  assert (is_u64 res) as Hu.
  { apply lor_u64; [by apply shifted_u64 | apply u64_range]. }
  assert (forall j, l <= j < l + 64 -> Z.testbit res (j - l) =
    if j <? 64 * (l / 64 + 1) then bit bm j else true) as Hb.
  { intros j Hj. subst res. rewrite Z.lor_spec, testbit_left_n_bits by lia.
    destruct (Z.ltb_spec j (64 * (l / 64 + 1))).
    - rewrite shifted_bit by lia. case_cmp; try lia; by rewrite orb_false_r.
    - case_cmp; try lia; by rewrite ?orb_true_r. }
  destruct (res =? AllBits) eqn:E; simpl.
  - intros j Hj. apply Z.eqb_eq in E. specialize (Hb j ltac:(lia)).
    rewrite E, AllBits_ones, testbit_ones in Hb by lia.
    destruct (Z.ltb_spec j (64 * (l / 64 + 1))); [| lia]. rewrite <- Hb.
    case_cmp; done || lia.
  - destruct (scan_zero_word res l) as (Hx & Hf & Hlow); [done | done | lia | lia |].
    assert (scan_zero 64 res l < 64 * (l / 64 + 1)) as Hin.
    { rewrite Hb in Hf by lia. by destruct (Z.ltb_spec (scan_zero 64 res l) (64 * (l / 64 + 1))). }
    assert (forall j, l <= j < 64 * (l / 64 + 1) -> Z.testbit res (j - l) = bit bm j) as Hb'.
    { intros j Hj. rewrite Hb by lia. by destruct (Z.ltb_spec j (64 * (l / 64 + 1))); [| lia]. }
    split; [lia |]. split; [by rewrite <- Hb' by lia |].
    intros j Hj. rewrite <- Hb' by lia. by apply Hlow.
Qed.

Lemma next_one_find bm l r :
  wf bm -> 0 <= l <= r -> r <= _size bm ->
  get_next_one_offset_inline bm l r = find_first (bit bm) (Z.to_nat (r - l)) l.
Proof.
  intros Hwf Hl Hr. pose proof (wf_size bm Hwf). unfold get_next_one_offset_inline.
  destruct (Z.eqb_spec l r) as [-> | Hne]; [by rewrite Z.sub_diag |].
  rewrite !word_index_div, bit_in_word_mod.
  replace ((r - 1) / 64 + 1) with ((r + 63) / 64) by lia.
  apply (word_search_spec bm (bit bm) (scan_one 64) NoBits); try lia.
  - apply skip_none_one.
  - intros. by apply scan_first_one.
  - by apply first_word_one; [| lia].
Qed.

Lemma next_zero_find bm l r :
  wf bm -> 0 <= l <= r -> r <= _size bm ->
  get_next_zero_offset_inline bm l r =
    find_first (fun j => negb (bit bm j)) (Z.to_nat (r - l)) l.
Proof.
  intros Hwf Hl Hr. pose proof (wf_size bm Hwf). unfold get_next_zero_offset_inline.
  destruct (Z.eqb_spec l r) as [-> | Hne]; [by rewrite Z.sub_diag |].
  fold (bit_in_word l). rewrite !word_index_div, bit_in_word_mod.
  replace ((r - 1) / 64 + 1) with ((r + 63) / 64) by lia.
  apply (word_search_spec bm (fun j => negb (bit bm j)) (scan_zero 64) AllBits); try lia.
  - apply skip_none_zero.
  - intros. by apply scan_first_zero.
  - by apply first_word_zero; [| lia].
Qed.

(** With an aligned right end no bit past it can be found. *)
Lemma next_one_aligned_find bm l r :
  wf bm -> 0 <= l <= r -> r <= _size bm -> r mod 64 = 0 ->
  get_next_one_offset_inline_aligned_right bm l r =
    find_first (bit bm) (Z.to_nat (r - l)) l.
Proof.
  intros Hwf Hl Hr Ha. pose proof (wf_size bm Hwf).
  rewrite <- next_one_find by done.
  unfold get_next_one_offset_inline, get_next_one_offset_inline_aligned_right.
  destruct (Z.eqb_spec l r) as [-> | Hne]; [done |].
  rewrite !word_index_div, bit_in_word_mod.
  replace ((r - 1) / 64 + 1) with (r / 64) by lia. rewrite !MIN2_min.
  pose proof (first_word_one bm l Hwf ltac:(lia)) as Hfirst. simpl in Hfirst.
  destruct (negb _).
  - destruct Hfirst as (Hx & _). lia.
  - pose proof (scan_words_spec bm (bit bm) (scan_one 64) NoBits (skip_none_one bm)
      (fun w H1 H2 => scan_first_one bm w Hwf H1 H2)
      (Z.to_nat (r / 64 - (l / 64 + 1))) (l / 64 + 1) ltac:(lia) ltac:(lia)) as Hw.
    destruct (scan_words _ _ _ _ _) as [x |]; [| done].
    destruct Hw as (Hx & _). rewrite MIN2_min. lia.
Qed.

(** C33. The word-at-a-time searches are the searches by single bits: the result
    is the first one (zero) bit of [l, r), or [r]; the variant for an aligned
    right end returns the same. *)
Theorem search_equiv (bm : BitMap) (l r : Z) :
  wf bm -> 0 <= l <= r -> r <= _size bm ->
  get_next_one_offset bm l r = find_first (bit bm) (Z.to_nat (r - l)) l /\
  get_next_zero_offset bm l r = find_first (fun j => negb (bit bm j)) (Z.to_nat (r - l)) l /\
  (r mod 64 = 0 ->
   get_next_one_offset_inline_aligned_right bm l r = get_next_one_offset bm l r).
Proof.
  intros. unfold get_next_one_offset, get_next_zero_offset.
  split; [by apply next_one_find |]. split; [by apply next_zero_find |].
  intros. rewrite next_one_aligned_find by done. by rewrite next_one_find.
Qed.

(** A search that crosses a word boundary; bit 130 is the only bit set. *)
Lemma search_equiv_witness :
  let bm := mkBitMap [0; 0; 4] 150 in
  get_next_one_offset bm 5 140 = 130 /\ get_next_zero_offset bm 130 150 = 131.
Proof.
  assert (wf (mkBitMap [0; 0; 4] 150)) as Hwf
    by (split; [simpl; lia | done | by repeat constructor]).
  destruct (search_equiv (mkBitMap [0; 0; 4] 150) 5 140) as (H1 & _); [done | lia | simpl; lia |].
  destruct (search_equiv (mkBitMap [0; 0; 4] 150) 130 150) as (_ & H2 & _);
    [done | lia | simpl; lia |].
  split; [rewrite H1 | rewrite H2]; by vm_compute.
Defined.

(** ** Iteration *)

Section IterateProof.
Context {St : Type} (get_bm : St -> BitMap) (do_bit : Z -> St -> bool * St) (N : Z).

(** The closure may change the bits of the map but not its size. *)
Definition sized (s : St) : Prop := wf (get_bm s) /\ _size (get_bm s) = N.

Context (do_bit_sized : forall i s, sized s -> sized (snd (do_bit i s))).

Abbreviation visit := (visit get_bm do_bit).

Lemma visit_none n i s :
  (forall j, i <= j < i + Z.of_nat n -> bit (get_bm s) j = false) -> visit n i s = (true, s).
Proof.
  revert i. induction n as [| n IH]; intros i H; simpl; [done |].
  rewrite H by lia. apply IH. intros. apply H. lia.
Qed.

Lemma visit_app n m i s :
  visit (n + m) i s =
    let '(ok, s') := visit n i s in
    if ok then visit m (i + Z.of_nat n) s' else (false, s').
Proof.
  revert i s. induction n as [| n IH]; intros i s; simpl.
  - by rewrite Z.add_0_r.
  - replace (i + Z.of_nat (S n)) with (i + 1 + Z.of_nat n) by lia.
    destruct (bit (get_bm s) i); [| apply IH].
    destruct (do_bit i s) as [[] s']; [apply IH | done].
Qed.

Lemma visit_sized n i s : sized s -> sized (snd (visit n i s)).
Proof.
  revert i s. induction n as [| n IH]; intros i s Hs; simpl; [done |].
  destruct (bit (get_bm s) i); [| by apply IH].
  pose proof (do_bit_sized i s Hs). destruct (do_bit i s) as [[] s']; [by apply IH | done].
Qed.

Lemma iterate_word_visit n w o r s :
  sized s -> 64 * w <= o <= 64 * w + 64 -> 64 * w + 64 - o < Z.of_nat n ->
  iterate_word get_bm do_bit n w o r (Z.shiftr (map (get_bm s) w) (o - 64 * w)) s =
    let '(ok, s') := visit (Z.to_nat (Z.min (64 * w + 64) r - o)) o s in
    if ok then inr s' else inl s'.
Proof.
  revert o s. induction n as [| n IH]; intros o s Hs Ho Hn; [lia |]. simpl.
  assert (is_u64 (map (get_bm s) w)) as Hu by (apply map_u64, Hs).
  assert (forall k, 0 <= k ->
    Z.testbit (Z.shiftr (map (get_bm s) w) (o - 64 * w)) k =
    (k <? 64 * w + 64 - o) && bit (get_bm s) (o + k)) as Hbit.
  { intros k Hk. rewrite Z.shiftr_spec by lia. destruct (Z.ltb_spec k (64 * w + 64 - o)); simpl.
    - rewrite <- bit_word by lia. f_equal. lia.
    - apply (testbit_high 64); [done | lia]. }
  assert (o < 64 * w + 64 -> Z.land o (BitsPerWord - 1) = o - 64 * w) as Hpos.
  { intros. fold (bit_in_word o). rewrite bit_in_word_mod. lia. }
  set (rest := Z.shiftr (map (get_bm s) w) (o - 64 * w)) in *.
  destruct (Z.ltb_spec o r); simpl.
  2: { replace (Z.to_nat (Z.min (64 * w + 64) r - o)) with O by lia. done. }
  destruct (Z.eqb_spec rest NoBits) as [E | E]; simpl.
  { rewrite visit_none; [done |]. intros j Hj. specialize (Hbit (j - o) ltac:(lia)).
    rewrite E, Z.bits_0 in Hbit. replace (o + (j - o)) with j in Hbit by lia.
    by destruct (Z.ltb_spec (j - o) (64 * w + 64 - o)); [| lia]. }
  assert (o < 64 * w + 64) as Hlt.
  { destruct (Z.lt_ge_cases o (64 * w + 64)); [done |]. destruct E.
    apply zero_bits. intros k Hk. rewrite Hbit by done. case_cmp; done || lia. }
  replace (Z.to_nat (Z.min (64 * w + 64) r - o))
    with (S (Z.to_nat (Z.min (64 * w + 64) r - (o + 1)))) by lia. simpl.
  assert (forall x, Z.shiftr (Z.shiftr x (o - 64 * w)) 1 = Z.shiftr x (o + 1 - 64 * w)) as Hsh.
  { intros x. rewrite Z.shiftr_shiftr by lia. f_equal. lia. }
  rewrite land_1_testbit, negb_involutive, Hbit, Z.add_0_r by lia.
  destruct (Z.ltb_spec 0 (64 * w + 64 - o)); [| lia]. simpl.
  destruct (bit (get_bm s) o).
  - pose proof (do_bit_sized o s Hs) as Hs'.
    destruct (do_bit o s) as [[] s']; simpl in *; [| done].
    rewrite Hpos, Hsh by done. apply IH; [done | lia | lia].
  - subst rest. rewrite Hsh. apply IH; [done | lia | lia].
Qed.

Lemma iterate_words_visit n w o r e s :
  sized s -> 0 <= o -> o / 64 = w -> r <= N -> e = Z.min (r / 64 + 1) ((N + 63) / 64) ->
  e - w < Z.of_nat n ->
  iterate_words get_bm do_bit n w o r e s = visit (Z.to_nat (r - o)) o s.
Proof.
  revert w o s. induction n as [| n IH]; intros w o s Hs Ho Hw Hr He Hn.
  - simpl. replace (Z.to_nat (r - o)) with O by lia. done.
  - pose proof Hs as [Hwf Hsz]. pose proof (wf_size _ Hwf) as Hlim. rewrite Hsz in Hlim.
    cbn [iterate_words]. destruct (Z.ltb_spec o r); simpl andb.
    2: { replace (Z.to_nat (r - o)) with O by lia. done. }
    destruct (Z.ltb_spec w e); [| lia].
    fold (bit_in_word o). rewrite bit_in_word_mod.
    replace (o mod 64) with (o - 64 * w) by lia.
    rewrite iterate_word_visit by (done || lia).
    replace (Z.to_nat (r - o)) with
      (Z.to_nat (Z.min (64 * w + 64) r - o) + Z.to_nat (r - 64 * (w + 1)))%nat by lia.
    rewrite visit_app.
    pose proof (visit_sized (Z.to_nat (Z.min (64 * w + 64) r - o)) o s Hs) as Hs'.
    destruct (visit _ o s) as [[] s']; [| done].
    rewrite bit_index_mul by lia. simpl in Hs'.
    rewrite (IH (w + 1) (64 * (w + 1)) s') by (done || lia).
    destruct (Z.le_gt_cases r (64 * (w + 1))).
    + by replace (Z.to_nat (r - 64 * (w + 1))) with O by lia.
    + f_equal. lia.
Qed.

Lemma iterate_visit l r s :
  sized s -> 0 <= l <= r -> r <= N ->
  iterate get_bm do_bit l r s = visit (Z.to_nat (r - l)) l s.
Proof.
  intros Hs Hl Hr. pose proof Hs as [Hwf Hsz]. pose proof (wf_size _ Hwf).
  unfold iterate. rewrite !word_index_div, MIN2_min, size_in_words_eq, Hsz by done.
  apply iterate_words_visit; done || lia.
Qed.
End IterateProof.

(** [iterate] is the loop that looks at each bit of [l, r) in turn, in the
    map as the closure has left it by then, and stops at the first bit the
    closure refuses; the closure may set and clear bits while it runs. *)
Theorem iterate_equiv {St : Type} (get_bm : St -> BitMap) (do_bit : Z -> St -> bool * St)
    (N l r : Z) (s : St) :
  (forall i s, sized get_bm N s -> sized get_bm N (snd (do_bit i s))) ->
  sized get_bm N s -> 0 <= l <= r -> r <= N ->
  iterate get_bm do_bit l r s = visit get_bm do_bit (Z.to_nat (r - l)) l s.
Proof. intros. by apply (iterate_visit get_bm do_bit N). Qed.

(** A closure that clears bit 65 when it visits bit 63: bit 65 is not visited. *)
Lemma iterate_equiv_witness :
  let do_bit i (s : BitMap * list Z) :=
    (true, (if i =? 63 then clear_bit (fst s) 65 else fst s, snd s ++ [i])) in
  snd (snd (iterate fst do_bit 2 100 (mkBitMap [2 ^ 63 + 4; 7] 100, []))) = [2; 63; 64; 66].
Proof.
  intros do_bit.
  assert (forall i s, sized fst 100 s -> sized fst 100 (snd (do_bit i s))) as Hcl.
  { intros i [b l] [Hw Hs]. unfold do_bit, sized; simpl in *. destruct (i =? 63); [| done].
    split; [| done]. apply wf_set_word_val; [done |]. apply land_u64. by apply map_u64. }
  rewrite (iterate_equiv fst do_bit 100 2 100 _ Hcl).
  - vm_compute. reflexivity.
  - split; [| done]. split; [simpl; lia | done |].
    repeat constructor; simpl; unfold is_u64; lia.
  - lia.
  - lia.
Defined.

(** ** Full and empty maps *)

Lemma test_words_spec f ok last n bm w rest :
  (forall w, ok (map bm w) = true <-> forall k, 0 <= k < 64 -> f (64 * w + k) = true) ->
  (forall w rest, 0 < rest < 64 ->
     last (map bm w) rest = true <-> forall k, 0 <= k < rest -> f (64 * w + k) = true) ->
  0 <= rest -> rest / 64 < Z.of_nat n ->
  test_words ok last n bm w rest = true <->
  forall j, 64 * w <= j < 64 * w + rest -> f j = true.
Proof.
  intros Hok Hlast. revert w rest. induction n as [| n IH]; intros w rest Hr Hn; [lia |].
  simpl. rewrite Z.geb_leb. unfold BitsPerWord.
  destruct (Z.leb_spec 64 rest).
  - destruct (ok (map bm w)) eqn:E; simpl.
    + rewrite IH by lia. rewrite Hok in E. split.
      * intros Hi j Hj. destruct (Z.lt_ge_cases j (64 * w + 64)).
        -- replace j with (64 * w + (j - 64 * w)) by lia. apply E. lia.
        -- apply Hi. lia.
      * intros Hi j Hj. apply Hi. lia.
    + split; [done |]. intros Hi. assert (ok (map bm w) = true); [| congruence].
      apply Hok. intros. apply Hi. lia.
  - destruct (Z.eqb_spec rest 0) as [-> | Hne]; simpl; [split; [lia | done] |].
    rewrite Hlast by lia. split.
    + intros Hi j Hj. replace j with (64 * w + (j - 64 * w)) by lia. apply Hi. lia.
    + intros Hi k Hk. apply Hi. lia.
Qed.

Lemma is_full_bits bm :
  wf bm -> is_full bm = true <-> forall j, 0 <= j < _size bm -> bit bm j = true.
Proof.
  intros Hwf. pose proof (wf_capacity bm Hwf) as Hc. pose proof (wf_size bm Hwf).
  unfold capacity in Hc. unfold is_full.
  rewrite (test_words_spec (bit bm)); [done | | | lia | lia].
  - intros w. rewrite u64_eq_bits by (auto with vm; by vm_compute).
    rewrite AllBits_ones. split; intros H' k Hk; specialize (H' k Hk).
    + rewrite bit_word, H', testbit_ones by lia. case_cmp; done || lia.
    + rewrite bit_word in H' by lia. rewrite H', testbit_ones by lia. case_cmp; done || lia.
  - intros w rest Hrest. rewrite u64_eq_bits by (auto with vm; by vm_compute).
    rewrite AllBits_ones. split; intros H' k Hk.
    + specialize (H' k ltac:(lia)). rewrite bit_word by lia.
      rewrite Z.lor_spec, testbit_not64, testbit_right_n_bits, testbit_ones in H' by lia.
      destruct (Z.testbit _ k); [done |]. revert H'. case_cmp; done || lia.
    + rewrite Z.lor_spec, testbit_not64, testbit_right_n_bits, testbit_ones by lia.
      destruct (Z.lt_ge_cases k rest).
      * specialize (H' k ltac:(lia)). rewrite bit_word in H' by lia. rewrite H'.
        case_cmp; done || lia.
      * case_cmp; try lia; by rewrite orb_true_r.
Qed.

Lemma is_empty_bits bm :
  wf bm -> is_empty bm = true <-> forall j, 0 <= j < _size bm -> bit bm j = false.
Proof.
  intros Hwf. pose proof (wf_capacity bm Hwf) as Hc. pose proof (wf_size bm Hwf).
  unfold capacity in Hc. unfold is_empty.
  rewrite (test_words_spec (fun j => negb (bit bm j))).
  - setoid_rewrite negb_true_iff. done.
  - intros w. rewrite u64_eq_bits by (auto with vm; by vm_compute).
    setoid_rewrite negb_true_iff. setoid_rewrite Z.bits_0.
    split; intros H' k Hk; specialize (H' k Hk); rewrite bit_word in * by lia; done.
  - intros w rest Hrest. rewrite u64_eq_bits by (auto with vm; by vm_compute).
    setoid_rewrite negb_true_iff. setoid_rewrite Z.bits_0. setoid_rewrite Z.land_spec.
    split; intros H' k Hk.
    + specialize (H' k ltac:(lia)). rewrite bit_word by lia.
      rewrite testbit_right_n_bits in H' by lia.
      destruct (Z.testbit _ k); [| done]. revert H'. case_cmp; done || lia.
    + rewrite testbit_right_n_bits by lia. destruct (Z.lt_ge_cases k rest).
      * specialize (H' k ltac:(lia)). rewrite bit_word in H' by lia. by rewrite H'.
      * case_cmp; try lia; by rewrite andb_false_r.
  - lia.
  - lia.
Qed.

(** ** Counting *)

Lemma table_count c :
  0 <= c < 256 ->
  num_set_bits_from_table init_pop_count_table c = count (Z.testbit c) (zseq 0 8).
Proof.
  intros Hc.
  assert (Forall (fun c => num_set_bits_from_table init_pop_count_table c =
    count (Z.testbit c) (zseq 0 8)) (zseq 0 256)) as H by (refine (bool_decide_eq_true_1 _ _); vm_compute; reflexivity).
  eapply Forall_lookup_1 in H; [| apply (lookup_zseq 0 256 (Z.to_nat c)); lia].
  rewrite Z.add_0_l, Z2Nat.id in H by lia. exact H.
Qed.

Section CountProof.
Context (table : list Z).
Hypothesis table_ok : forall c,
  0 <= c < 256 -> num_set_bits_from_table table c = count (Z.testbit c) (zseq 0 8).

Lemma count_bytes_spec n w sum :
  0 <= sum -> sum + 8 * Z.of_nat n < 2 ^ 64 ->
  count_bytes table n w sum = sum + count (Z.testbit w) (zseq 0 (8 * n)).
Proof.
  revert w sum. induction n as [| n IH]; intros w sum Hs Hn.
  { unfold count, sum_of; simpl. lia. }
  cbn [count_bytes]. replace (8 * S n)%nat with (8 + 8 * n)%nat by lia.
  rewrite zseq_app, count_app.
  change 255 with (Z.ones 8). rewrite Z.land_ones by lia. fold (u8 w).
  assert (0 <= u8 w < 256) by (apply (wrap_range 8); lia).
  rewrite (wrap_small 8 (u8 w)) by lia. rewrite table_ok by done.
  assert (count (Z.testbit (u8 w)) (zseq 0 8) = count (Z.testbit w) (zseq 0 8)) as ->.
  { apply count_ext. intros k Hk. apply elem_of_zseq in Hk.
    rewrite testbit_wrap by lia. case_cmp; done || lia. }
  pose proof (count_bounds (Z.testbit w) (zseq 0 8)) as Hb. rewrite length_zseq in Hb.
  rewrite u64_small by ulia. rewrite IH by lia.
  rewrite (count_zseq_shift _ 0 8), <- Z.add_assoc. do 2 f_equal.
  apply count_ext. intros k Hk. apply elem_of_zseq in Hk. by rewrite Z.shiftr_spec by lia.
Qed.

Lemma count_word bm i :
  count (bit bm) (zseq (64 * i) 64) = count (Z.testbit (map bm i)) (zseq 0 64).
Proof.
  rewrite <- (Z.add_0_l (64 * i)), count_zseq_shift.
  apply count_ext. intros k Hk. apply elem_of_zseq in Hk.
  by rewrite Z.add_comm, bit_word by lia.
Qed.

Lemma count_bytes_word w sum :
  0 <= sum -> sum + 64 < 2 ^ 64 ->
  count_bytes table 8 w sum = sum + count (Z.testbit w) (zseq 0 64).
Proof. intros. apply (count_bytes_spec 8 w sum); lia. Qed.

Lemma count_words_spec f n i bm sum :
  (forall w sum, 0 <= sum -> sum + 64 < 2 ^ 64 ->
     f w sum = sum + count (Z.testbit w) (zseq 0 64)) ->
  0 <= i -> 0 <= sum -> sum + 64 * Z.of_nat n < 2 ^ 64 ->
  count_words f n i bm sum = sum + count (bit bm) (zseq (64 * i) (64 * n)).
Proof.
  intros Hf. revert i sum. induction n as [| n IH]; intros i sum Hi Hs Hn.
  { rewrite Nat.mul_0_r. symmetry. apply Z.add_0_r. }
  cbn [count_words]. rewrite Nat.mul_succ_r, Nat.add_comm, zseq_app, count_app, count_word.
  rewrite Hf by lia.
  pose proof (count_bounds (Z.testbit (map bm i)) (zseq 0 64)) as Hb. rewrite length_zseq in Hb.
  rewrite IH by lia.
  replace (64 * (i + 1)) with (64 * i + Z.of_nat 64) by lia.
  by rewrite Z.add_assoc.
Qed.

End CountProof.

Lemma count_one_bits_spec bm :
  wf bm -> count_one_bits bm = count (bit bm) (zseq 0 (64 * length (_map bm))).
Proof.
  intros Hwf. pose proof (wf_length bm Hwf). pose proof (wf_capacity bm Hwf) as Hc.
  pose proof (wf_size bm Hwf). unfold capacity in Hc. unfold count_one_bits.
  rewrite (count_words_spec _ _ _ _ _ (count_bytes_word _ table_count)) by lia. rewrite Z.add_0_l, Z.mul_0_r. do 3 f_equal. lia.
Qed.

(** The table-driven population count and the whole-map tests mean what they
    say: [count_one_bits] is the number of set bits of the words, [is_empty]
    (resp. [is_full]) that no (every) bit below the size is set. *)
Theorem count_and_tests (bm : BitMap) :
  wf bm ->
  count_one_bits bm = count (bit bm) (zseq 0 (64 * length (_map bm))) /\
  (is_empty bm = true <-> forall j, 0 <= j < _size bm -> bit bm j = false) /\
  (is_full bm = true <-> forall j, 0 <= j < _size bm -> bit bm j = true).
Proof. auto using count_one_bits_spec, is_empty_bits, is_full_bits. Qed.

Lemma count_and_tests_witness :
  count_one_bits (mkBitMap [7; 2 ^ 40] 128) = 4 /\ is_empty (mkBitMap [7; 2 ^ 40] 128) = false.
Proof.
  destruct (count_and_tests (mkBitMap [7; 2 ^ 40] 128)) as (H & _ & _).
  - split; [simpl; lia | done | repeat constructor; unfold is_u64; lia].
  - split; [rewrite H |]; by vm_compute.
Defined.

End BitMapSearch.
