(* ===== verification/ParMarkBitMap.v ===== *)
(** * The mark bit map of the parallel compactor

    [gc_implementation/parallelScavenge/parMarkBitMap.hpp] and [.cpp].  Two bit
    maps record the first and the last unit of every live object; the queries
    that the compactor makes (object sizes, live words in a range, iteration
    over the live objects and the dead space between them) are searches in them.

    The abstraction is the list of the marked objects in address order, each
    given by its first and last bit. *)

From stdpp Require Import base sets list numbers sorting.
From Stdlib Require Import ZArith Lia.
From S2P Require Import Prelude GlobalDefs MemRegion BitMap BitMapSearch.

Local Open Scope Z_scope.
Import BitMap BitMapSearch.

Module ParMarkBitMap.

Inductive IterationStatus := incomplete | complete | full | would_overflow.

#[export] Instance IterationStatus_eq_dec : EqDecision IterationStatus.
Proof. solve_decision. Defined.

Record ParMarkBitMap := mkParMarkBitMap {
  _region_start : Z;
  _region_size : Z;
  _beg_bits : BitMap;
  _end_bits : BitMap;
  _reserved_byte_size : Z
}.

Section Operations.
(** The binary logarithm of the object alignment in words. *)
Context (LogMinObjAlignment : Z).

Definition obj_granularity : Z := u64 (Z.shiftl 1 LogMinObjAlignment).
Definition obj_granularity_shift : Z := LogMinObjAlignment.

Definition bits_to_words (bits : Z) : Z := u64 (Z.shiftl bits obj_granularity_shift).
Definition words_to_bits (words : Z) : Z := Z.shiftr words obj_granularity_shift.

Definition bits_required (words : Z) : Z := words_to_bits (u64 (words * 2)).
Definition bits_required_region (covered_region : MemRegion.MemRegion) : Z :=
  bits_required (MemRegion.word_size covered_region).

(** [page_sz] and [granularity] come from the operating system, [expanded] is
    the outcome of committing the reserved space and [memory] its words. *)
Definition initialize (pm : ParMarkBitMap) (covered_region : MemRegion.MemRegion)
    (page_sz granularity : Z) (expanded : bool) (memory : list Z) : bool * ParMarkBitMap :=
  let bits := bits_required_region covered_region in
  let words := bits / BitsPerWord in
  let raw_bytes := u64 (words * 8) in
  let reserved_byte_size := align_size_up raw_bytes (MAX2 page_sz granularity) in
  if expanded then
    (true,
     mkParMarkBitMap (MemRegion.start covered_region) (MemRegion.word_size covered_region)
       (mkBitMap (take (Z.to_nat (words / 2)) memory) (bits / 2))
       (mkBitMap (take (Z.to_nat (words / 2)) (drop (Z.to_nat (words / 2)) memory)) (bits / 2))
       reserved_byte_size)
  else
    (false, mkParMarkBitMap 0 0 (_beg_bits pm) (_end_bits pm) reserved_byte_size).

Definition region_start (pm : ParMarkBitMap) : Z := _region_start pm.
Definition region_size (pm : ParMarkBitMap) : Z := _region_size pm.
Definition region_end (pm : ParMarkBitMap) : Z := hw_add (region_start pm) (region_size pm).
Definition size (pm : ParMarkBitMap) : Z := _size (_beg_bits pm).

Definition addr_to_bit (pm : ParMarkBitMap) (addr : Z) : Z :=
  words_to_bits (pointer_delta addr (region_start pm)).
Definition bit_to_addr (pm : ParMarkBitMap) (bit : Z) : Z :=
  hw_add (region_start pm) (bits_to_words bit).

Definition is_obj_beg (pm : ParMarkBitMap) (bit : Z) : bool := at_ (_beg_bits pm) bit.
Definition is_obj_end (pm : ParMarkBitMap) (bit : Z) : bool := at_ (_end_bits pm) bit.
Definition is_marked (pm : ParMarkBitMap) (bit : Z) : bool := is_obj_beg pm bit.
Definition is_marked_addr (pm : ParMarkBitMap) (addr : Z) : bool :=
  is_marked pm (addr_to_bit pm addr).
Definition is_unmarked (pm : ParMarkBitMap) (bit : Z) : bool := negb (is_marked pm bit).
Definition is_unmarked_addr (pm : ParMarkBitMap) (addr : Z) : bool :=
  negb (is_marked_addr pm addr).

Definition obj_size (beg_bit end_bit : Z) : Z := bits_to_words (u64 (end_bit - beg_bit + 1)).
Definition obj_size_addr (beg_addr end_addr : Z) : Z :=
  u64 (pointer_delta end_addr beg_addr + obj_granularity).
Definition obj_size_at (pm : ParMarkBitMap) (beg_bit : Z) : Z :=
  let end_bit := get_next_one_offset_inline (_end_bits pm) beg_bit (size pm) in
  obj_size beg_bit end_bit.
Definition obj_size_at_addr (pm : ParMarkBitMap) (addr : Z) : Z :=
  obj_size_at pm (addr_to_bit pm addr).

Definition find_obj_beg (pm : ParMarkBitMap) (beg end_ : Z) : Z :=
  get_next_one_offset_inline_aligned_right (_beg_bits pm) beg end_.
Definition find_obj_end (pm : ParMarkBitMap) (beg end_ : Z) : Z :=
  get_next_one_offset_inline_aligned_right (_end_bits pm) beg end_.

Definition find_obj_beg_addr (pm : ParMarkBitMap) (beg end_ : Z) : Z :=
  let beg_bit := addr_to_bit pm beg in
  let end_bit := addr_to_bit pm end_ in
  let search_end := word_align_up end_bit in
  bit_to_addr pm (MIN2 (find_obj_beg pm beg_bit search_end) end_bit).
Definition find_obj_end_addr (pm : ParMarkBitMap) (beg end_ : Z) : Z :=
  let beg_bit := addr_to_bit pm beg in
  let end_bit := addr_to_bit pm end_ in
  let search_end := word_align_up end_bit in
  bit_to_addr pm (MIN2 (find_obj_end pm beg_bit search_end) end_bit).

Definition clear_range (pm : ParMarkBitMap) (beg end_ : Z) : ParMarkBitMap :=
  mkParMarkBitMap (_region_start pm) (_region_size pm)
    (BitMap.clear_range (_beg_bits pm) beg end_)
    (BitMap.clear_range (_end_bits pm) beg end_) (_reserved_byte_size pm).

Definition mark_obj (pm : ParMarkBitMap) (addr size : Z) : bool * ParMarkBitMap :=
  let beg_bit := addr_to_bit pm addr in
  let '(ok, beg_bits) := par_set_bit (_beg_bits pm) beg_bit in
  if ok then
    let end_bit := addr_to_bit pm (hw_sub (hw_add addr size) 1) in
    let '(_, end_bits) := par_set_bit (_end_bits pm) end_bit in
    (true, mkParMarkBitMap (_region_start pm) (_region_size pm) beg_bits end_bits
             (_reserved_byte_size pm))
  else
    (false, mkParMarkBitMap (_region_start pm) (_region_size pm) beg_bits (_end_bits pm)
              (_reserved_byte_size pm)).

(** The loop consumes at least one bit of the range per iteration. *)
Fixpoint live_words_loop (fuel : nat) (pm : ParMarkBitMap) (end_bit range_end beg_bit live_bits : Z)
    : option Z :=
  match fuel with
  | O => None
  | S f =>
      if beg_bit <? end_bit then
        let tmp_end := find_obj_end pm beg_bit range_end in
        let live_bits := u64 (live_bits + u64 (tmp_end - beg_bit + 1)) in
        live_words_loop f pm end_bit range_end
          (find_obj_beg pm (u64 (tmp_end + 1)) range_end) live_bits
      else Some live_bits
  end.

Definition live_words_in_range (pm : ParMarkBitMap) (beg_addr end_obj : Z) : option Z :=
  let end_bit := addr_to_bit pm end_obj in
  let range_end := word_align_up end_bit in
  let beg_bit := find_obj_beg pm (addr_to_bit pm beg_addr) range_end in
  option_map bits_to_words
    (live_words_loop (S (Z.to_nat (size pm))) pm end_bit range_end beg_bit 0).

Section Iterate.
(** The closures as functions on the state they share. *)
Context {St : Type}.
Context (live_do_addr dead_do_addr : Z -> Z -> St -> IterationStatus * St).
Context (set_source : Z -> St -> St).

Fixpoint iterate_loop (fuel : nat) (pm : ParMarkBitMap) (range_end search_end cur_beg : Z) (s : St)
    : option (IterationStatus * St) :=
  match fuel with
  | O => None
  | S f =>
      if cur_beg <? range_end then
        let cur_end := find_obj_end pm cur_beg search_end in
        if cur_end >=? range_end then
          Some (incomplete, set_source (bit_to_addr pm cur_beg) s)
        else
          let size := obj_size cur_beg cur_end in
          let '(status, s) := live_do_addr (bit_to_addr pm cur_beg) size s in
          if negb (bool_decide (status = incomplete)) then Some (status, s)
          else iterate_loop f pm range_end search_end
                 (find_obj_beg pm (u64 (cur_end + 1)) search_end) s
      else Some (complete, set_source (bit_to_addr pm range_end) s)
  end.

Definition iterate (pm : ParMarkBitMap) (range_beg range_end : Z) (s : St)
    : option (IterationStatus * St) :=
  let search_end := word_align_up range_end in
  let cur_beg := find_obj_beg pm range_beg search_end in
  iterate_loop (S (Z.to_nat (size pm))) pm range_end search_end cur_beg s.

Fixpoint iterate_dead_loop (fuel : nat) (pm : ParMarkBitMap)
    (range_end dead_range_end live_search_end dead_search_end cur_beg : Z) (s : St)
    : option (IterationStatus * St) :=
  match fuel with
  | O => None
  | S f =>
      if cur_beg <? range_end then
        let cur_end := find_obj_end pm cur_beg live_search_end in
        if cur_end >=? range_end then
          Some (incomplete, set_source (bit_to_addr pm cur_beg) s)
        else
          let size := obj_size cur_beg cur_end in
          let '(status, s) := live_do_addr (bit_to_addr pm cur_beg) size s in
          if negb (bool_decide (status = incomplete)) then Some (status, s)
          else
            let dead_space_beg := u64 (cur_end + 1) in
            let cur_beg := find_obj_beg pm dead_space_beg dead_search_end in
            let s :=
              if cur_beg >? dead_space_beg then
                let dead_space_end := MIN2 (u64 (cur_beg - 1)) (u64 (dead_range_end - 1)) in
                let size := obj_size dead_space_beg dead_space_end in
                snd (dead_do_addr (bit_to_addr pm dead_space_beg) size s)
              else s in
            iterate_dead_loop f pm range_end dead_range_end live_search_end dead_search_end
              cur_beg s
      else Some (complete, set_source (bit_to_addr pm range_end) s)
  end.

Definition iterate_dead (pm : ParMarkBitMap) (range_beg range_end dead_range_end : Z) (s : St)
    : option (IterationStatus * St) :=
  let live_search_end := word_align_up range_end in
  let dead_search_end := word_align_up dead_range_end in
  let '(cur_beg, s) :=
    if (range_beg <? range_end) && is_unmarked pm range_beg then
      let cur_beg := find_obj_beg pm (u64 (range_beg + 1)) dead_search_end in
      let dead_space_end := MIN2 (u64 (cur_beg - 1)) (u64 (dead_range_end - 1)) in
      let size := obj_size range_beg dead_space_end in
      (cur_beg, snd (dead_do_addr (bit_to_addr pm range_beg) size s))
    else (range_beg, s) in
  iterate_dead_loop (S (Z.to_nat (size pm))) pm range_end dead_range_end
    live_search_end dead_search_end cur_beg s.

Definition iterate_addr (pm : ParMarkBitMap) (range_beg range_end : Z) (s : St)
    : option (IterationStatus * St) :=
  iterate pm (addr_to_bit pm range_beg) (addr_to_bit pm range_end) s.

Definition iterate_dead_addr (pm : ParMarkBitMap) (range_beg range_end dead_range_end : Z) (s : St)
    : option (IterationStatus * St) :=
  iterate_dead pm (addr_to_bit pm range_beg) (addr_to_bit pm range_end)
    (addr_to_bit pm dead_range_end) s.
End Iterate.
End Operations.

(** ** The abstraction: the marked objects in address order *)

(** An object by its first and last bit. *)
Definition obj : Type := Z * Z.

Definition before (o o' : obj) : Prop := o.2 < o'.1.

Record repr (pm : ParMarkBitMap) (objs : list obj) : Prop := {
  r_beg : wf (_beg_bits pm);
  r_end : wf (_end_bits pm);
  r_size : _size (_end_bits pm) = size pm;
  r_aligned : size pm mod 64 = 0;
  r_sorted : StronglySorted before objs;
  r_range : Forall (fun o => 0 <= o.1 <= o.2 /\ o.2 < size pm) objs;
  r_beg_bit : forall i, 0 <= i < size pm ->
    bit (_beg_bits pm) i = true <-> exists o, o ∈ objs /\ o.1 = i;
  r_end_bit : forall i, 0 <= i < size pm ->
    bit (_end_bits pm) i = true <-> exists o, o ∈ objs /\ o.2 = i
}.

(** The objects that begin at [i] or later. *)
Fixpoint from (i : Z) (objs : list obj) : list obj :=
  match objs with
  | [] => []
  | o :: l => if i <=? o.1 then o :: l else from i l
  end.

(** Where the first object of a list begins, [e] when there is none before [e]. *)
Definition next_beg (objs : list obj) (e : Z) : Z :=
  match objs with [] => e | o :: _ => Z.min o.1 e end.

Lemma sorted_disjoint objs o o' :
  StronglySorted before objs -> o ∈ objs -> o' ∈ objs ->
  o = o' \/ before o o' \/ before o' o.
Proof.
  induction 1 as [| x l Hs IH Hx]; intros H1 H2; [by apply elem_of_nil in H1 |].
  rewrite Forall_forall in Hx. apply elem_of_cons in H1, H2.
  destruct H1 as [-> | H1], H2 as [-> | H2]; auto.
Qed.

Lemma from_in objs i o : o ∈ from i objs -> o ∈ objs.
Proof.
  induction objs as [| x l IH]; simpl; [done |].
  destruct (i <=? x.1); [done |]. intros. right. auto.
Qed.

Lemma from_head objs i o l :
  from i objs = o :: l ->
  o ∈ objs /\ i <= o.1 /\ (forall o', o' ∈ objs -> o' = o \/ o' ∈ l \/ o'.1 < i).
Proof.
  induction objs as [| x m IH]; simpl; [done |].
  destruct (Z.leb_spec i x.1) as [Hle | Hlt].
  - intros [= -> ->]. split; [by left |]. split; [done |].
    intros o' Ho'. apply elem_of_cons in Ho'. tauto.
  - intros H. destruct (IH H) as (H1 & H2 & H3). split; [by right |]. split; [done |].
    intros o' Ho'. apply elem_of_cons in Ho' as [-> | Ho']; [auto | by apply H3].
Qed.

Lemma from_nil objs i : from i objs = [] -> forall o, o ∈ objs -> o.1 < i.
Proof.
  induction objs as [| x m IH]; simpl; [intros _ o Ho; by apply elem_of_nil in Ho |].
  destruct (Z.leb_spec i x.1); [done |]. intros H' o Ho.
  apply elem_of_cons in Ho as [-> | Ho]; auto.
Qed.

Lemma from_sorted objs i : StronglySorted before objs -> StronglySorted before (from i objs).
Proof.
  induction objs as [| x l IH]; intros Hs; simpl; [done |].
  destruct (i <=? x.1); [done |]. apply StronglySorted_inv in Hs as [Hs _]. auto.
Qed.

Lemma from_length objs i : (length (from i objs) <= length objs)%nat.
Proof. induction objs as [| x l IH]; simpl; [lia |]. destruct (i <=? x.1); simpl; lia. Qed.

(** A bit that begins no object can be skipped. *)
Lemma from_skip objs i :
  (forall o, o ∈ objs -> o.1 <> i) -> from (i + 1) objs = from i objs.
Proof.
  induction objs as [| x m IH]; intros Hno; simpl; [done |].
  assert (x.1 <> i) by (apply Hno; by left).
  rewrite IH by (intros; apply Hno; by right). case_cmp; done || lia.
Qed.

(** Past the end of the first object from [i] come the objects after it. *)
Lemma from_next objs N i o l :
  StronglySorted before objs -> Forall (fun o => 0 <= o.1 <= o.2 /\ o.2 < N) objs ->
  from i objs = o :: l -> from (o.2 + 1) objs = l.
Proof.
  induction objs as [| x m IH]; intros Hs Hr; simpl; [done |].
  apply StronglySorted_inv in Hs as [Hs Hx]. apply Forall_cons in Hr as [Hrx Hr].
  destruct (Z.leb_spec i x.1) as [Hle | Hlt].
  - intros [= -> ->]. destruct (Z.leb_spec (o.2 + 1) o.1); [lia |].
    destruct l as [| y l]; [done |]. simpl. apply Forall_cons in Hx as [Hxy _].
    unfold before in Hxy. by destruct (Z.leb_spec (o.2 + 1) y.1); [| lia].
  - intros H. rewrite (IH Hs Hr H).
    destruct (Z.leb_spec (o.2 + 1) x.1) as [Hge |]; [| done].
    destruct (from_head m i o l H) as (Ho & Hi & _).
    rewrite Forall_forall in Hx, Hr. specialize (Hx o Ho). specialize (Hr o Ho).
    unfold before in Hx. lia.
Qed.

(** Disjoint objects: no more of them than bits. *)
Lemma sorted_length objs N lo :
  StronglySorted before objs -> Forall (fun o => 0 <= o.1 <= o.2 /\ o.2 < N) objs ->
  0 <= lo -> Forall (fun o : obj => lo <= o.1) objs ->
  objs = [] \/ lo + Z.of_nat (length objs) <= N.
Proof.
  revert lo. induction objs as [| x m IH]; intros lo Hs Hr Hlo Hf; [auto |].
  right. apply StronglySorted_inv in Hs as [Hs Hx]. apply Forall_cons in Hr as [Hrx Hr].
  apply Forall_cons in Hf as [Hfx Hf]. simpl.
  destruct (IH (x.2 + 1) Hs Hr) as [-> | H]; [lia | | simpl; lia | lia].
  eapply Forall_impl; [exact Hx |]. unfold before. intros; lia.
Qed.

(** ** The searches, on the abstraction *)

Section Searches.
Context (pm : ParMarkBitMap) (objs : list obj) (Hr : repr pm objs).

Lemma repr_size : 0 <= size pm < 2 ^ 63.
Proof. apply wf_size, Hr. Qed.

Lemma obj_range o : o ∈ objs -> 0 <= o.1 <= o.2 /\ o.2 < size pm.
Proof. pose proof (r_range _ _ Hr) as H. rewrite Forall_forall in H. auto. Qed.

Lemma find_obj_beg_spec i e :
  0 <= i <= e -> e <= size pm -> e mod 64 = 0 ->
  find_obj_beg pm i e = next_beg (from i objs) e.
Proof.
  intros Hi He Ha. unfold find_obj_beg.
  rewrite next_one_aligned_find by (try apply Hr; done).
  assert (forall j, 0 <= j < size pm -> (forall o, o ∈ objs -> o.1 <> j) ->
    bit (_beg_bits pm) j = false) as Hclear.
  { intros j Hj Hno. apply not_true_is_false. rewrite (r_beg_bit _ _ Hr) by done.
    intros (o & Ho & Heq). by apply (Hno o). }
  destruct (from i objs) as [| o l] eqn:E; simpl.
  - pose proof (from_nil objs i E) as Hn. apply find_first_unique; [lia | | lia].
    intros j Hj. apply Hclear; [lia |]. intros o Ho. specialize (Hn o Ho). lia.
  - destruct (from_head objs i o l E) as (Ho & Hio & Hoth).
    pose proof (from_sorted objs i (r_sorted _ _ Hr)) as Hs. rewrite E in Hs.
    apply StronglySorted_inv in Hs as [_ Hs]. rewrite Forall_forall in Hs.
    pose proof (obj_range o Ho). apply find_first_unique; [lia | |].
    + intros j Hj. apply Hclear; [lia |]. intros o' Ho'.
      destruct (Hoth o' Ho') as [-> | [Hl | Hlt]]; [lia | | lia].
      specialize (Hs o' Hl). unfold before in Hs. lia.
    + intros Hlt. apply (r_beg_bit _ _ Hr); [lia |]. exists o. split; [done | lia].
Qed.

(** The search from any bit of an object finds its end. *)
Lemma find_obj_end_within o i e :
  o ∈ objs -> o.1 <= i <= o.2 -> i <= e -> e <= size pm -> e mod 64 = 0 ->
  find_obj_end pm i e = Z.min o.2 e.
Proof.
  intros Ho Hi Hie He Ha. pose proof (obj_range o Ho). unfold find_obj_end.
  rewrite next_one_aligned_find; [| apply Hr | lia | by rewrite (r_size _ _ Hr) | done].
  apply find_first_unique; [lia | |].
  - intros j Hj. apply not_true_is_false. rewrite (r_end_bit _ _ Hr) by lia.
    intros (o' & Ho' & <-). pose proof (obj_range o' Ho').
    destruct (sorted_disjoint objs o o' (r_sorted _ _ Hr) Ho Ho') as [-> | [Hb | Hb]];
      unfold before in *; lia.
  - intros Hlt. apply (r_end_bit _ _ Hr); [lia |]. exists o. split; [done | lia].
Qed.

Lemma find_obj_end_spec o e :
  o ∈ objs -> o.1 <= e -> e <= size pm -> e mod 64 = 0 ->
  find_obj_end pm o.1 e = Z.min o.2 e.
Proof. intros Ho. pose proof (obj_range o Ho). apply (find_obj_end_within o); [done | lia]. Qed.

(** The size search of a marked object. *)
Lemma obj_end_found o :
  o ∈ objs -> get_next_one_offset_inline (_end_bits pm) o.1 (size pm) = o.2.
Proof.
  intros Ho. pose proof (obj_range o Ho). pose proof (r_size _ _ Hr) as Hs.
  rewrite next_one_find; [| apply Hr | lia | lia].
  rewrite <- (next_one_aligned_find (_end_bits pm)); [| apply Hr | lia | lia | apply Hr].
  fold (find_obj_end pm o.1 (size pm)).
  rewrite find_obj_end_spec; [lia | done | lia | lia | apply Hr].
Qed.

Lemma word_align_up_spec i :
  0 <= i <= size pm ->
  i <= word_align_up i <= size pm /\ word_align_up i mod 64 = 0 /\ word_align_up i < i + 64.
Proof.
  intros Hi. pose proof repr_size. pose proof (r_aligned _ _ Hr).
  unfold word_align_up. change BitsPerWord with (2 ^ 6).
  rewrite align_size_up_pow2 by ulia. lia.
Qed.

Lemma objs_fuel i : (length (from i objs) <= Z.to_nat (size pm))%nat.
Proof.
  pose proof (from_length objs i). pose proof repr_size.
  destruct (sorted_length objs (size pm) 0) as [-> | H'];
    [apply Hr | apply Hr | lia | | simpl in *; lia | lia].
  eapply Forall_impl; [apply Hr |]. simpl. intros; lia.
Qed.

(** *** Live words *)

(** The bits of the objects of a list that begin before [e]. *)
Definition live_bits (l : list obj) (e : Z) : Z :=
  sum_of (fun o => if o.1 <? e then o.2 - o.1 + 1 else 0) l.

Lemma live_bits_past l e o :
  StronglySorted before (o :: l) -> o.1 <= o.2 -> Forall (fun o => o.1 <= o.2) l -> e <= o.1 ->
  live_bits (o :: l) e = 0.
Proof.
  intros Hs Ho Hl He. unfold live_bits.
  transitivity (sum_of (fun _ : obj => 0) (o :: l)); [| by rewrite sum_of_const].
  apply sum_of_ext. intros x Hx. apply StronglySorted_inv in Hs as [_ Hs].
  rewrite Forall_forall in Hs. apply elem_of_cons in Hx as [-> | Hx].
  - by destruct (Z.ltb_spec o.1 e); [lia |].
  - specialize (Hs x Hx). unfold before in Hs. by destruct (Z.ltb_spec x.1 e); [lia |].
Qed.

Lemma live_words_loop_spec n i l eo re acc :
  eo ∈ objs -> re = word_align_up eo.1 -> 0 <= i <= re ->
  from i objs = l -> (length l < n)%nat -> 0 <= acc <= next_beg l re ->
  live_words_loop n pm eo.1 re (next_beg l re) acc = Some (acc + live_bits l eo.1).
Proof.
  intros Heo -> Hi. pose proof (obj_range eo Heo) as Heor. pose proof repr_size.
  destruct (word_align_up_spec eo.1 ltac:(lia)) as (Hre & Hal & _).
  set (re := word_align_up eo.1) in *.
  revert i l acc Hi. induction n as [| n IH]; intros i l acc Hi Hl Hn Hacc; [lia |].
  simpl. destruct l as [| o l]; simpl in *.
  { destruct (Z.ltb_spec re eo.1); [lia |]. unfold live_bits, sum_of; simpl. f_equal. lia. }
  destruct (from_head objs i o l Hl) as (Ho & Hio & _). pose proof (obj_range o Ho).
  pose proof (from_sorted objs i (r_sorted _ _ Hr)) as Hs. rewrite Hl in Hs.
  destruct (Z.ltb_spec (Z.min o.1 re) eo.1) as [Hlt | Hge].
  - rewrite Z.min_l in * by lia.
    assert (o.2 < eo.1).
    { destruct (sorted_disjoint objs o eo (r_sorted _ _ Hr) Ho Heo) as [-> | [Hb | Hb]];
        unfold before in *; lia. }
    rewrite find_obj_end_spec by (done || lia). rewrite Z.min_l by lia.
    rewrite !u64_small by ulia.
    pose proof (from_next objs (size pm) i o l (r_sorted _ _ Hr) (r_range _ _ Hr) Hl) as Hnx.
    rewrite find_obj_beg_spec, Hnx by (done || lia).
    assert (o.2 + 1 <= next_beg l re).
    { destruct l as [| o' l']; simpl; [lia |]. apply StronglySorted_inv in Hs as [_ Hs].
      apply Forall_cons in Hs as [Hs _]. unfold before in Hs. lia. }
    rewrite (IH (o.2 + 1) l) by (done || lia). f_equal. unfold live_bits.
    rewrite sum_of_cons. destruct (Z.ltb_spec o.1 eo.1); lia.
  - f_equal. rewrite live_bits_past; [lia | done | lia | | lia].
    rewrite Forall_forall. intros x Hx. destruct (obj_range x); [| lia].
    apply (from_in objs i). rewrite Hl. by right.
Qed.
End Searches.

(** *** Iteration *)

Section IterateProof.
Context (pm : ParMarkBitMap) (objs : list obj) (Hr : repr pm objs).
Context (shift : Z) {St : Type}.
Context (live dead : Z -> Z -> St -> IterationStatus * St) (set_source : Z -> St -> St).

Abbreviation bit_to_addr := (bit_to_addr shift).
Abbreviation obj_size := (obj_size shift).

(** The walk over the objects of a list: those that end in the range go to the
    closure, an object that crosses the end of the range ends the walk. *)
Fixpoint walk (range_end : Z) (l : list obj) (s : St) : IterationStatus * St :=
  match l with
  | [] => (complete, set_source (bit_to_addr pm range_end) s)
  | o :: l =>
      if o.1 <? range_end then
        if range_end <=? o.2 then (incomplete, set_source (bit_to_addr pm o.1) s)
        else
          let '(status, s) := live (bit_to_addr pm o.1) (obj_size o.1 o.2) s in
          if bool_decide (status = incomplete) then walk range_end l s else (status, s)
      else (complete, set_source (bit_to_addr pm range_end) s)
  end.

(** The dead space [p, q) goes to the dead closure unless it is empty. *)
Definition gap (p q : Z) (s : St) : St :=
  if p <? q then snd (dead (bit_to_addr pm p) (obj_size p (q - 1)) s) else s.

(** The walk that reports the dead space up to the next object, or to the end of
    the dead range, after every object. *)
Fixpoint walk_dead (range_end dead_end : Z) (l : list obj) (s : St) : IterationStatus * St :=
  match l with
  | [] => (complete, set_source (bit_to_addr pm range_end) s)
  | o :: l =>
      if o.1 <? range_end then
        if range_end <=? o.2 then (incomplete, set_source (bit_to_addr pm o.1) s)
        else
          let '(status, s) := live (bit_to_addr pm o.1) (obj_size o.1 o.2) s in
          if bool_decide (status = incomplete)
          then walk_dead range_end dead_end l (gap (o.2 + 1) (next_beg l dead_end) s)
          else (status, s)
      else (complete, set_source (bit_to_addr pm range_end) s)
  end.

Lemma iterate_loop_spec n i l re s :
  0 <= i -> i <= word_align_up re -> 0 <= re <= size pm ->
  from i objs = l -> (length l < n)%nat ->
  iterate_loop shift live set_source n pm re (word_align_up re) (next_beg l (word_align_up re)) s =
    Some (walk re l s).
Proof.
  intros Hi0 Hi Hre. pose proof (repr_size pm objs Hr).
  destruct (word_align_up_spec pm objs Hr re Hre) as (Hse & Hal & _).
  set (se := word_align_up re) in *.
  revert i l s Hi0 Hi. induction n as [| n IH]; intros i l s Hi0 Hi Hl Hn; [lia |].
  simpl. destruct l as [| o l]; simpl in *.
  { by destruct (Z.ltb_spec se re); [lia |]. }
  destruct (from_head objs i o l Hl) as (Ho & Hio & _).
  pose proof (obj_range pm objs Hr o Ho).
  destruct (Z.ltb_spec (Z.min o.1 se) re), (Z.ltb_spec o.1 re); try lia; [| done].
  rewrite Z.min_l by lia. rewrite (find_obj_end_spec pm objs Hr) by (done || lia).
  rewrite Z.geb_leb. destruct (Z.leb_spec re (Z.min o.2 se)), (Z.leb_spec re o.2);
    try lia; [done |].
  rewrite Z.min_l by lia. destruct (live _ _ s) as [status s'].
  destruct (bool_decide (status = incomplete)); simpl; [| done].
  rewrite u64_small by ulia. rewrite (find_obj_beg_spec pm objs Hr) by (done || lia).
  pose proof (from_next objs (size pm) i o l (r_sorted _ _ Hr) (r_range _ _ Hr) Hl) as Hnx.
  rewrite Hnx. apply (IH (o.2 + 1)); done || lia.
Qed.

Lemma iterate_dead_loop_spec n i l re de s :
  0 <= i <= de -> 0 <= re <= de -> de <= size pm -> de mod 64 = 0 ->
  from i objs = l -> (length l < n)%nat ->
  iterate_dead_loop shift live dead set_source n pm re de (word_align_up re) de
    (next_beg l de) s = Some (walk_dead re de l s).
Proof.
  intros Hi Hre Hde Hda. pose proof (repr_size pm objs Hr).
  destruct (word_align_up_spec pm objs Hr re ltac:(lia)) as (Hse & Hal & _).
  set (se := word_align_up re) in *.
  revert i l s Hi. induction n as [| n IH]; intros i l s Hi Hl Hn; [lia |].
  simpl. destruct l as [| o l]; simpl in *.
  { by destruct (Z.ltb_spec de re); [lia |]. }
  destruct (from_head objs i o l Hl) as (Ho & Hio & _).
  pose proof (obj_range pm objs Hr o Ho).
  destruct (Z.ltb_spec (Z.min o.1 de) re), (Z.ltb_spec o.1 re); try lia; [| done].
  rewrite (Z.min_l o.1) by lia. rewrite (find_obj_end_spec pm objs Hr) by (done || lia).
  rewrite Z.geb_leb. destruct (Z.leb_spec re (Z.min o.2 se)), (Z.leb_spec re o.2);
    try lia; [done |].
  rewrite Z.min_l by lia. destruct (live _ _ s) as [status s'].
  destruct (bool_decide (status = incomplete)); simpl; [| done].
  rewrite (u64_small (o.2 + 1)) by ulia.
  rewrite (find_obj_beg_spec pm objs Hr) by (done || lia).
  pose proof (from_next objs (size pm) i o l (r_sorted _ _ Hr) (r_range _ _ Hr) Hl) as Hnx.
  rewrite Hnx, (IH (o.2 + 1)) by (done || lia). do 2 f_equal.
  assert (next_beg l de <= de) by (destruct l; simpl; lia).
  unfold gap. rewrite Z.gtb_ltb. destruct (Z.ltb_spec (o.2 + 1) (next_beg l de)); [| done].
  rewrite !u64_small, MIN2_min, Z.min_l by ulia. done.
Qed.

Lemma iterate_spec rb re s :
  0 <= rb <= re -> re <= size pm ->
  iterate shift live set_source pm rb re s = Some (walk re (from rb objs) s).
Proof.
  intros Hb He. destruct (word_align_up_spec pm objs Hr re ltac:(lia)) as (Hse & Hal & _).
  unfold iterate. rewrite (find_obj_beg_spec pm objs Hr) by (done || lia).
  apply (iterate_loop_spec _ rb); [lia | lia | lia | done |].
  pose proof (objs_fuel pm objs Hr rb). lia.
Qed.

Lemma iterate_dead_spec rb re de s :
  0 <= rb <= re -> re <= de -> de <= size pm -> de mod 64 = 0 ->
  iterate_dead shift live dead set_source pm rb re de s =
    Some (if rb <? re
          then walk_dead re de (from rb objs) (gap rb (next_beg (from rb objs) de) s)
          else (complete, set_source (bit_to_addr pm re) s)).
Proof.
  intros Hb He Hd Hda. pose proof (repr_size pm objs Hr).
  destruct (word_align_up_spec pm objs Hr de ltac:(lia)) as (Hse & Hal & Hlt).
  unfold iterate_dead. replace (word_align_up de) with de in * by lia.
  destruct (Z.ltb_spec rb re) as [Hlt' | Hge]; cbn [andb].
  2: { replace rb with re by lia. simpl. by rewrite Z.ltb_irrefl. }
  assert (forall s', iterate_dead_loop shift live dead set_source (S (Z.to_nat (size pm))) pm re de
    (word_align_up re) de (next_beg (from rb objs) de) s' =
    Some (walk_dead re de (from rb objs) s')) as Hloop.
  { intros s'. apply (iterate_dead_loop_spec _ rb); try (done || lia).
    pose proof (objs_fuel pm objs Hr rb). lia. }
  destruct (is_unmarked pm rb) eqn:Hu.
  - unfold is_unmarked, is_marked, is_obj_beg in Hu. rewrite at_bit in Hu.
    assert (forall o, o ∈ objs -> o.1 <> rb) as Hno.
    { intros o Ho Heq. destruct (r_beg_bit _ _ Hr rb ltac:(lia)) as [_ Hbb].
      rewrite Hbb in Hu by eauto. done. }
    rewrite (u64_small (rb + 1)) by ulia.
    rewrite (find_obj_beg_spec pm objs Hr), from_skip by (done || lia).
    rewrite Hloop. do 2 f_equal.
    assert (rb < next_beg (from rb objs) de <= de).
    { destruct (from rb objs) as [| o l] eqn:E; simpl in *; [lia |].
      destruct (from_head objs rb o l E) as (Ho & Hle & _). specialize (Hno o Ho). lia. }
    unfold gap. destruct (Z.ltb_spec rb (next_beg (from rb objs) de)); [| lia].
    rewrite !u64_small, MIN2_min, Z.min_l by ulia. done.
  - assert (next_beg (from rb objs) de = rb) as Hnb.
    { unfold is_unmarked, is_marked, is_obj_beg in Hu. rewrite at_bit in Hu.
      apply negb_false_iff in Hu. apply (r_beg_bit _ _ Hr) in Hu as (o & Ho & Heq); [| lia].
      destruct (from rb objs) as [| o' l] eqn:E; simpl in *.
      - pose proof (from_nil objs rb E o Ho). lia.
      - destruct (from_head objs rb o' l E) as (Ho' & Hle & Hoth).
        destruct (sorted_disjoint objs o o' (r_sorted _ _ Hr) Ho Ho') as [-> | [Hx | Hx]];
          [lia | | unfold before in Hx; pose proof (obj_range pm objs Hr o' Ho'); lia].
        destruct (Hoth o Ho) as [-> | [Hin | ?]]; [lia | | lia].
        pose proof (from_sorted objs rb (r_sorted _ _ Hr)) as Hs. rewrite E in Hs.
        apply StronglySorted_inv in Hs as [_ Hs]. rewrite Forall_forall in Hs.
        specialize (Hs o Hin). unfold before in *.
        pose proof (obj_range pm objs Hr o Ho). pose proof (obj_range pm objs Hr o' Ho'). lia. }
    rewrite <- Hnb at 1. rewrite Hloop. unfold gap. rewrite Hnb, Z.ltb_irrefl. done.
Qed.
End IterateProof.

(** *** Addresses *)

(** The covered region lies in the address space. *)
Record geom (shift : Z) (pm : ParMarkBitMap) : Prop := {
  g_shift : 0 <= shift < 32;
  g_start : 0 <= _region_start pm;
  g_end : _region_start pm + 8 * (size pm * 2 ^ shift) < 2 ^ 64
}.

Lemma bit_to_addr_eq shift pm b :
  geom shift pm -> 0 <= b <= size pm ->
  bit_to_addr shift pm b = _region_start pm + 8 * (b * 2 ^ shift).
Proof.
  intros [Hs Hst He] Hb. unfold bit_to_addr, bits_to_words, obj_granularity_shift.
  rewrite Z.shiftl_mul_pow2 by lia.
  assert (0 <= b * 2 ^ shift <= size pm * 2 ^ shift) by nia.
  rewrite u64_small by ulia. apply hw_add_small; unfold region_start, is_u64; lia.
Qed.

Lemma addr_to_bit_eq shift pm b r :
  geom shift pm -> 0 <= b -> 0 <= r < 2 ^ shift -> b * 2 ^ shift + r <= size pm * 2 ^ shift ->
  addr_to_bit shift pm (_region_start pm + 8 * (b * 2 ^ shift + r)) = b.
Proof.
  intros [Hs Hst He] Hb Hr0 Hle. unfold addr_to_bit, words_to_bits, region_start.
  assert (0 <= b * 2 ^ shift) by nia.
  rewrite pointer_delta_small by (unfold is_u64; lia).
  replace ((_region_start pm + 8 * (b * 2 ^ shift + r) - _region_start pm) / 8)
    with (b * 2 ^ shift + r) by lia.
  unfold obj_granularity_shift. rewrite Z.shiftr_div_pow2 by lia.
  rewrite Z.div_add_l by lia. rewrite Z.div_small by lia. lia.
Qed.

Lemma addr_bit_roundtrip shift pm b :
  geom shift pm -> 0 <= b <= size pm -> addr_to_bit shift pm (bit_to_addr shift pm b) = b.
Proof.
  intros Hg Hb. rewrite bit_to_addr_eq by done. pose proof Hg as [Hs _ _].
  pose proof (addr_to_bit_eq shift pm b 0 Hg). rewrite Z.add_0_r in *. apply H; nia.
Qed.

(** *** Marking *)

Lemma par_set_bit_clear bm i :
  wf bm -> 0 <= i < _size bm -> bit bm i = false ->
  fst (par_set_bit bm i) = true /\ put_range true i (i + 1) bm (snd (par_set_bit bm i)).
Proof.
  intros Hwf Hi Hb. pose proof (wf_capacity bm Hwf).
  destruct (par_at_put_result bm i true Hwf ltac:(lia)) as [H1 H2]. by rewrite Hb in H1.
Qed.

Lemma par_set_bit_set bm i :
  wf bm -> bit bm i = true -> par_set_bit bm i = (false, bm).
Proof.
  intros Hwf Hb. unfold bit in Hb. rewrite bit_in_word_mod in Hb.
  unfold par_set_bit. by rewrite lor_bit_mask_same, Hb.
Qed.

(** Setting the begin and the end bit of a new object adds it to the list. *)
Lemma repr_add pm l1 l2 o bb eb :
  repr pm (l1 ++ l2) -> StronglySorted before (l1 ++ o :: l2) ->
  0 <= o.1 <= o.2 -> o.2 < size pm ->
  put_range true o.1 (o.1 + 1) (_beg_bits pm) bb ->
  put_range true o.2 (o.2 + 1) (_end_bits pm) eb ->
  repr (mkParMarkBitMap (_region_start pm) (_region_size pm) bb eb (_reserved_byte_size pm))
    (l1 ++ o :: l2).
Proof.
  intros Hr Hs Ho Hsz [Hb1 Hb2 Hb3] [He1 He2 He3].
  assert (forall x, x ∈ l1 ++ o :: l2 <-> x = o \/ x ∈ l1 ++ l2) as Hin.
  { intros x. rewrite !elem_of_app, elem_of_cons. tauto. }
  split; unfold size in *; simpl; try done.
  - by rewrite He2, Hb2, (r_size _ _ Hr).
  - rewrite Hb2. apply Hr.
  - rewrite Hb2. rewrite Forall_forall. intros x Hx. apply Hin in Hx as [-> | Hx]; [lia |].
    by apply (obj_range pm _ Hr).
  - intros i Hi. rewrite Hb2 in Hi. rewrite Hb3 by lia.
    pose proof (r_beg_bit _ _ Hr i Hi) as Hbit. setoid_rewrite Hin.
    destruct (Z.leb_spec o.1 i), (Z.ltb_spec i (o.1 + 1)); simpl; rewrite ?Hbit.
    + split; [| done]. intros _. exists o. split; [auto | lia].
    + split; intros (x & Hx & <-); [by eauto | destruct Hx as [-> | ?]; [lia | eauto]].
    + split; intros (x & Hx & <-); [by eauto | destruct Hx as [-> | ?]; [lia | eauto]].
    + lia.
  - intros i Hi. rewrite Hb2 in Hi. rewrite He3 by lia.
    pose proof (r_end_bit _ _ Hr i Hi) as Hbit. setoid_rewrite Hin.
    destruct (Z.leb_spec o.2 i), (Z.ltb_spec i (o.2 + 1)); simpl; rewrite ?Hbit.
    + split; [| done]. intros _. exists o. split; [auto | lia].
    + split; intros (x & Hx & <-); [by eauto | destruct Hx as [-> | ?]; [lia | eauto]].
    + split; intros (x & Hx & <-); [by eauto | destruct Hx as [-> | ?]; [lia | eauto]].
    + lia.
Qed.

(** A new object is apart from the objects around it. *)
Lemma sorted_apart l1 l2 o x :
  StronglySorted before (l1 ++ o :: l2) -> x ∈ l1 ++ l2 -> before x o \/ before o x.
Proof.
  intros Hs Hx. apply elem_of_app in Hx as [Hx | Hx]; [left | right].
  - eapply StronglySorted_app_1_elem_of; [done | done |]. by left.
  - apply StronglySorted_app_1_r, StronglySorted_inv in Hs as [_ Hs].
    rewrite Forall_forall in Hs. auto.
Qed.

Lemma live_bits_bounds l N lo e :
  StronglySorted before l -> Forall (fun o => 0 <= o.1 <= o.2 /\ o.2 < N) l ->
  0 <= lo <= N -> Forall (fun o : obj => lo <= o.1) l ->
  0 <= live_bits l e <= N - lo.
Proof.
  revert lo. induction l as [| x m IH]; intros lo Hs Hr Hlo Hf.
  { unfold live_bits, sum_of; simpl. lia. }
  apply StronglySorted_inv in Hs as [Hs Hx]. apply Forall_cons in Hr as [Hrx Hr].
  apply Forall_cons in Hf as [Hfx Hf]. unfold live_bits in *. rewrite sum_of_cons.
  specialize (IH (x.2 + 1) Hs Hr ltac:(lia)). destruct (Z.ltb_spec x.1 e); simpl.
  - destruct IH; [| lia]. eapply Forall_impl; [exact Hx |]. unfold before. intros; lia.
  - destruct IH; [| lia]. eapply Forall_impl; [exact Hx |]. unfold before. intros; lia.
Qed.

Lemma initialize_empty shift pm covered page_sz granularity memory :
  0 <= shift < 32 -> MemRegion.wf covered ->
  MemRegion.word_size covered mod (64 * 2 ^ shift) = 0 ->
  Forall (fun w => w = 0) memory ->
  2 * MemRegion.word_size covered / 2 ^ shift / 64 <= Z.of_nat (length memory) ->
  let r := initialize shift pm covered page_sz granularity true memory in
  fst r = true /\ repr (snd r) [] /\
  size (snd r) * 2 ^ shift = MemRegion.word_size covered.
Proof.
  intros Hs (H1 & H2 & H3 & H4) Hmod Hzero Hlen. set (n := MemRegion.word_size covered) in *.
  change (MemRegion._word_size covered) with n in *.
  assert (0 < 2 ^ shift) by lia.
  assert (exists k, n = k * (64 * 2 ^ shift) /\ 0 <= k) as (k & Hk & Hk0).
  { apply Z.mod_divide in Hmod as [k Hk]; [| lia]. exists k. split; [done | nia]. }
  assert (bits_required_region shift covered = 128 * k) as Hbits.
  { unfold bits_required_region, bits_required, words_to_bits, obj_granularity_shift. fold n.
    rewrite u64_small by ulia. rewrite Z.shiftr_div_pow2 by lia.
    rewrite Hk. replace (k * (64 * 2 ^ shift) * 2) with ((128 * k) * 2 ^ shift) by lia.
    apply Z.div_mul. lia. }
  replace (2 * n / 2 ^ shift / 64) with (2 * k) in Hlen.
  2: { rewrite Hk. replace (2 * (k * (64 * 2 ^ shift))) with ((128 * k) * 2 ^ shift) by lia.
       rewrite Z.div_mul by lia. lia. }
  unfold initialize. rewrite Hbits. unfold BitsPerWord; simpl.
  replace (128 * k / 64 / 2) with k by lia. replace (128 * k / 2) with (64 * k) by lia.
  assert (forall m, Forall (fun w => w = 0) m -> Z.of_nat (length m) = k ->
    wf (mkBitMap m (64 * k)) /\ forall i, bit (mkBitMap m (64 * k)) i = false) as Hmap.
  { intros m Hm Hl. split.
    - split; simpl; [nia | rewrite size_in_words_eq by (simpl; nia); simpl; lia |].
      eapply Forall_impl; [exact Hm |]. intros w ->. decide_now.
    - intros i. unfold bit, BitMap.map; simpl.
      destruct (m !! Z.to_nat (word_index i)) as [w |] eqn:E; simpl; [| apply Z.bits_0].
      rewrite (Forall_lookup_1 _ _ _ _ Hm E). apply Z.bits_0. }
  destruct (Hmap (take (Z.to_nat k) memory)) as [Hw1 Hb1];
    [by apply Forall_take | rewrite length_take; lia |].
  destruct (Hmap (take (Z.to_nat k) (drop (Z.to_nat k) memory))) as [Hw2 Hb2];
    [by apply Forall_take, Forall_drop | rewrite length_take, length_drop; lia |].
  split; [done |]. split; [| unfold size; simpl; lia].
  split; unfold size; simpl; try done.
  - lia.
  - constructor.
  - intros i Hi. rewrite Hb1. split; [done | intros (o & Ho & _); by apply elem_of_nil in Ho].
  - intros i Hi. rewrite Hb2. split; [done | intros (o & Ho & _); by apply elem_of_nil in Ho].
Qed.

(** ** Properties *)

(** Marking an object that is apart from the marked ones reports [true] and
    adds exactly that object; marking it again reports [false] and changes
    nothing; and the size search finds the size it was marked with. *)
Theorem mark_obj_adds (shift : Z) (pm : ParMarkBitMap) (l1 l2 : list obj) (b e : Z) :
  geom shift pm -> repr pm (l1 ++ l2) -> StronglySorted before (l1 ++ (b, e) :: l2) ->
  0 <= b <= e -> e < size pm ->
  let addr := bit_to_addr shift pm b in
  let words := (e - b + 1) * 2 ^ shift in
  let '(ok, pm') := mark_obj shift pm addr words in
  ok = true /\ repr pm' (l1 ++ (b, e) :: l2) /\
  mark_obj shift pm' addr words = (false, pm') /\
  obj_size_at_addr shift pm' addr = words.
Proof.
  intros Hg Hr Hs Hbe He addr words. pose proof (repr_size pm _ Hr) as Hsz.
  pose proof Hg as [Hsh Hst Hend].
  assert (addr_to_bit shift pm addr = b) as Hbit by (apply addr_bit_roundtrip; done || lia).
  assert (addr = _region_start pm + 8 * (b * 2 ^ shift)) as Haddr
    by (apply bit_to_addr_eq; done || lia).
  assert (0 < 2 ^ shift) by lia.
  assert (addr_to_bit shift pm (hw_sub (hw_add addr words) 1) = e) as Hebit.
  { rewrite hw_add_small by (unfold is_u64; nia). unfold hw_sub, HeapWordSize.
    rewrite u64_small by (unfold is_u64; nia).
    replace (addr + 8 * words - 1 * 8)
      with (_region_start pm + 8 * (e * 2 ^ shift + (2 ^ shift - 1))) by nia.
    apply addr_to_bit_eq; [done | lia | lia | nia]. }
  destruct (par_set_bit_clear (_beg_bits pm) b) as [Hb1 Hb2]; [apply Hr | unfold size in *; lia | |].
  { apply not_true_is_false. rewrite (r_beg_bit _ _ Hr) by lia. intros (x & Hx & Heq).
    pose proof (obj_range pm _ Hr x Hx).
    destruct (sorted_apart _ _ _ _ Hs Hx) as [Hq | Hq]; unfold before in Hq; simpl in Hq; lia. }
  destruct (par_set_bit_clear (_end_bits pm) e) as [He1 He2];
    [apply Hr | rewrite (r_size _ _ Hr); lia | |].
  { apply not_true_is_false. rewrite (r_end_bit _ _ Hr) by lia. intros (x & Hx & Heq).
    pose proof (obj_range pm _ Hr x Hx).
    destruct (sorted_apart _ _ _ _ Hs Hx) as [Hq | Hq]; unfold before in Hq; simpl in Hq; lia. }
  unfold mark_obj. rewrite Hbit, Hebit.
  destruct (par_set_bit (_beg_bits pm) b) as [ok bb], (par_set_bit (_end_bits pm) e) as [? eb].
  simpl in Hb1, Hb2, He2. subst ok. split; [done |].
  pose proof (repr_add pm l1 l2 (b, e) bb eb Hr Hs Hbe He Hb2 He2) as Hr'.
  set (pm' := mkParMarkBitMap _ _ bb eb _) in *. split; [done |].
  assert (size pm' = size pm) as Hsz' by (unfold size; simpl; apply Hb2).
  assert ((b, e) ∈ l1 ++ (b, e) :: l2) as Hin by (apply elem_of_app; right; by left).
  change (addr_to_bit shift pm' addr) with (addr_to_bit shift pm addr). rewrite Hbit. split.
  - rewrite par_set_bit_set; [done | apply Hr' |].
    apply (r_beg_bit _ _ Hr'); [lia |]. by exists (b, e).
  - unfold obj_size_at_addr, obj_size_at.
    change (addr_to_bit shift pm' addr) with (addr_to_bit shift pm addr). rewrite Hbit.
    pose proof (obj_end_found pm' _ Hr' (b, e) Hin) as Hfound. cbn [fst snd] in Hfound.
    rewrite Hfound.
    unfold obj_size, bits_to_words, obj_granularity_shift.
    rewrite (u64_small (e - b + 1)) by ulia. rewrite Z.shiftl_mul_pow2 by lia.
    apply u64_small. unfold is_u64. nia.
Qed.

(** A map of 128 units whose marked objects are given by their bits. *)
Definition sample (beg_words end_words : list Z) : ParMarkBitMap :=
  mkParMarkBitMap 4096 128 (mkBitMap beg_words 128) (mkBitMap end_words 128) 32.

(** A bit map denotes a set of indices, checked by evaluation. *)
Lemma bits_by_evaluation (bm : BitMap) (f : obj -> Z) (objs : list obj) (N : Z) :
  forallb (fun i => eqb (bit bm i) (existsb (fun o => f o =? i) objs)) (zseq 0 (Z.to_nat N)) = true ->
  forall i, 0 <= i < N -> bit bm i = true <-> exists o, o ∈ objs /\ f o = i.
Proof.
  intros H i Hi. rewrite forallb_forall in H.
  specialize (H i). rewrite <- list_elem_of_In, elem_of_zseq in H. specialize (H ltac:(lia)).
  apply eqb_prop in H. rewrite H, existsb_exists.
  split; intros (o & Ho & Heq); exists o; rewrite <- list_elem_of_In in * || rewrite list_elem_of_In in *;
    (split; [done | lia]).
Qed.

(** The two objects of bits 3 to 5 and 70 to 70. *)
Lemma sample_repr : repr (sample [8; 64] [32; 64]) [(3, 5); (70, 70)].
Proof.
  split; try done; try decide_now.
  - repeat constructor; unfold before; simpl; lia.
  - apply bits_by_evaluation. by vm_compute.
  - apply (bits_by_evaluation _ snd). by vm_compute.
Qed.

Lemma sample_geom bw ew : geom 0 (sample bw ew).
Proof. split; simpl; unfold size; simpl; lia. Qed.

Lemma mark_obj_adds_witness :
  fst (mark_obj 0 (sample [8; 64] [32; 64]) (4096 + 8 * 10) 4) = true /\
  repr (snd (mark_obj 0 (sample [8; 64] [32; 64]) (4096 + 8 * 10) 4)) [(3, 5); (10, 13); (70, 70)].
Proof.
  pose proof (mark_obj_adds 0 (sample [8; 64] [32; 64]) [(3, 5)] [(70, 70)] 10 13
    (sample_geom _ _) sample_repr) as H. cbv zeta in H.
  destruct (mark_obj 0 (sample [8; 64] [32; 64]) (4096 + 8 * 10) 4) as [ok pm'] eqn:E.
  change (bit_to_addr 0 (sample [8; 64] [32; 64]) 10) with (4096 + 8 * 10) in H.
  change ((13 - 10 + 1) * 2 ^ 0) with 4 in H. rewrite E in H.
  destruct H as (H1 & H2 & _); [| lia | unfold size; simpl; lia | done].
  repeat constructor; unfold before; simpl; lia.
Defined.

(** The live words before an object, counted from the bit [i]. *)
Lemma live_words_in_range_eq (shift : Z) (pm : ParMarkBitMap) (objs : list obj) (eo : obj) (i : Z) :
  geom shift pm -> repr pm objs -> eo ∈ objs -> 0 <= i <= eo.1 ->
  live_words_in_range shift pm (bit_to_addr shift pm i) (bit_to_addr shift pm eo.1) =
    Some (live_bits (from i objs) eo.1 * 2 ^ shift).
Proof.
  intros Hg Hr Heo Hi. pose proof (obj_range pm objs Hr eo Heo).
  pose proof (repr_size pm objs Hr).
  destruct (word_align_up_spec pm objs Hr eo.1 ltac:(lia)) as (Hre & Hal & _).
  unfold live_words_in_range. rewrite !addr_bit_roundtrip by (done || lia).
  rewrite (find_obj_beg_spec pm objs Hr) by (done || lia).
  rewrite (live_words_loop_spec pm objs Hr _ i (from i objs) eo) with (acc := 0); try done.
  - simpl. f_equal. unfold bits_to_words, obj_granularity_shift.
    destruct Hg as [Hsh Hst Hend]. rewrite Z.shiftl_mul_pow2 by lia. apply u64_small.
    assert (Forall (fun o => 0 <= o.1 <= o.2 /\ o.2 < size pm) (from i objs)) as Hf.
    { rewrite Forall_forall. intros x Hx. apply (obj_range pm objs Hr). by eapply from_in. }
    pose proof (live_bits_bounds (from i objs) (size pm) 0 eo.1
      (from_sorted objs i (r_sorted _ _ Hr)) Hf ltac:(lia)) as Hb.
    destruct Hb; [eapply Forall_impl; [exact Hf |]; simpl; intros; lia |].
    unfold is_u64. nia.
  - lia.
  - pose proof (objs_fuel pm objs Hr i). lia.
  - destruct (from i objs) as [| o l] eqn:E; simpl; [lia |].
    destruct (from_head objs i o l E) as (Ho & ? & _). lia.
Qed.

(** C29. Both iterations return, and they are the walks over the marked objects of
    the range in address order: every object that ends in the range goes to the
    live closure with its address and size, an object that crosses the end of
    the range or a closure that is full stops the walk, and the dead space
    between the objects goes to the dead closure. *)
Theorem iterate_walk {St : Type} (shift : Z) (pm : ParMarkBitMap) (objs : list obj)
    (live dead : Z -> Z -> St -> IterationStatus * St) (set_source : Z -> St -> St)
    (rb re de : Z) (s : St) :
  repr pm objs -> 0 <= rb <= re -> re <= de -> de <= size pm -> de mod 64 = 0 ->
  iterate shift live set_source pm rb re s =
    Some (walk pm shift live set_source re (from rb objs) s) /\
  iterate_dead shift live dead set_source pm rb re de s =
    Some (if rb <? re
          then walk_dead pm shift live dead set_source re de (from rb objs)
                 (gap pm shift dead rb (next_beg (from rb objs) de) s)
          else (complete, set_source (bit_to_addr shift pm re) s)).
Proof.
  intros Hr Hb He Hd Hda. split.
  - apply (iterate_spec pm objs Hr); exact dead || lia.
  - apply (iterate_dead_spec pm objs Hr); done || lia.
Qed.

(** The closures record what they are given. *)
Lemma iterate_walk_witness :
  let note (k : Z) a n (s : list (Z * Z * Z)) := (incomplete, s ++ [(k, a, n)]) in
  iterate_dead 0 (note 1) (note 0) (fun _ s => s) (sample [8; 64] [32; 64]) 0 128 128 [] =
    Some (complete, [(0, 4096, 3); (1, 4120, 3); (0, 4144, 64); (1, 4656, 1); (0, 4664, 57)]).
Proof.
  intros note.
  destruct (iterate_walk 0 (sample [8; 64] [32; 64]) _ (note 1) (note 0) (fun _ s => s) 0 128 128 []
    sample_repr) as [_ H]; [lia | lia | by vm_compute | done |].
  rewrite H. by vm_compute.
Defined.

End ParMarkBitMap.
