(* ===== verification/Container.v ===== *)
(** * Containers of the big-data-aware old generation

    [bda/bdaGlobals.hpp], [struct container]: the header, kept in the C heap, of a
    segment of the old generation.  Segments are linked twice: [_next] and
    [_previous] chain the elements of a queue, [_next_segment] and
    [_prev_segment] the segments of one container.

    The C heap is a finite map from addresses to headers; an access to an address
    outside it is stuck. *)

From stdpp Require Import base gmap list numbers.
From Stdlib Require Import ZArith Lia.
From S2P Require Import Prelude GlobalDefs.

Local Open Scope Z_scope.

Module Container.

Record container := mkContainer {
  _top : Z;
  _start : Z;
  _end : Z;
  _hard_end : Z;
  _saved_top : Z;
  _space_id : Z;
  _next_segment : Z;
  _prev_segment : Z;
  _next : Z;
  _previous : Z
}.

#[export] Instance container_eq_dec : EqDecision container.
Proof. solve_decision. Defined.

Definition with_top (c : container) (v : Z) : container :=
  mkContainer v (_start c) (_end c) (_hard_end c) (_saved_top c) (_space_id c)
    (_next_segment c) (_prev_segment c) (_next c) (_previous c).
Definition with_saved_top (c : container) (v : Z) : container :=
  mkContainer (_top c) (_start c) (_end c) (_hard_end c) v (_space_id c)
    (_next_segment c) (_prev_segment c) (_next c) (_previous c).
(** [_space_id] is a signed [char]. *)
Definition with_space_id (c : container) (v : Z) : container :=
  mkContainer (_top c) (_start c) (_end c) (_hard_end c) (_saved_top c) (i8 v)
    (_next_segment c) (_prev_segment c) (_next c) (_previous c).
Definition with_next_segment (c : container) (v : Z) : container :=
  mkContainer (_top c) (_start c) (_end c) (_hard_end c) (_saved_top c) (_space_id c)
    v (_prev_segment c) (_next c) (_previous c).
Definition with_prev_segment (c : container) (v : Z) : container :=
  mkContainer (_top c) (_start c) (_end c) (_hard_end c) (_saved_top c) (_space_id c)
    (_next_segment c) v (_next c) (_previous c).
Definition with_next (c : container) (v : Z) : container :=
  mkContainer (_top c) (_start c) (_end c) (_hard_end c) (_saved_top c) (_space_id c)
    (_next_segment c) (_prev_segment c) v (_previous c).
Definition with_previous (c : container) (v : Z) : container :=
  mkContainer (_top c) (_start c) (_end c) (_hard_end c) (_saved_top c) (_space_id c)
    (_next_segment c) (_prev_segment c) (_next c) v.

(** A header with every field reset, as [memset] leaves it. *)
Definition zeroed : container := mkContainer 0 0 0 0 0 0 0 0 0 0.

(** ** The C heap *)

Abbreviation heap := (gmap Z container).

(** [*p]; stuck when [p] is not the address of a header. *)
Definition load (p : Z) : M heap container := fun h =>
  match h !! p with Some c => Some (c, h) | None => None end.

(** [p->field = v] *)
Definition store (p : Z) (f : container -> container) : M heap unit := fun h =>
  match h !! p with Some c => Some (tt, <[p := f c]> h) | None => None end.

(** [p->field] *)
Definition field (f : container -> Z) (p : Z) : M heap Z := c ← load p; mret (f c).

Lemma load_run h p c : h !! p = Some c -> load p h = Some (c, h).
Proof. intros H. unfold load. by rewrite H. Qed.

Lemma store_run h p c f : h !! p = Some c -> store p f h = Some (tt, <[p := f c]> h).
Proof. intros H. unfold store. by rewrite H. Qed.

Lemma field_run h p c f : h !! p = Some c -> field f p h = Some (f c, h).
Proof. intros H. unfold field, mbind, M_bind. by rewrite (load_run _ _ _ H). Qed.

End Container.
