(* ===== verification/GenQueue.v ===== *)
(** * The queue of containers

    [bda/gen_queue.hpp]: a doubly linked queue with a counter, inserted at one end
    and removed at the other.  The spaces of the old generation keep their
    containers and their pools of free containers in such queues.

    The abstraction is the list of the elements from the removal end to the
    insertion end.  [GenQueuePar] runs [enqueue] with racing threads. *)

From Stdlib Require Import ZArith Lia.
From stdpp Require Import base numbers gmap sets list.
From S2P Require Import Prelude GlobalDefs Container.

Local Open Scope Z_scope.
Import Container.

Module GenQueue.

Record GenQueue := mkGenQueue { _insert_end : Z; _remove_end : Z; _n_elements : Z }.

Definition create : GenQueue := mkGenQueue NULL NULL 0.
Definition destroy (q : GenQueue) : GenQueue := mkGenQueue NULL NULL 0.

Definition peek (q : GenQueue) : Z := _remove_end q.
Definition bot (q : GenQueue) : Z := _insert_end q.
Definition n_elements (q : GenQueue) : Z := _n_elements q.

Definition set_insert_end (q : GenQueue) (el : Z) : GenQueue :=
  mkGenQueue el (_remove_end q) (_n_elements q).
Definition set_remove_end (q : GenQueue) (el : Z) : GenQueue :=
  mkGenQueue (_insert_end q) el (_n_elements q).
Definition add_elements (q : GenQueue) (d : Z) : GenQueue :=
  mkGenQueue (_insert_end q) (_remove_end q) (i32 (_n_elements q + d)).

(** Without interference the exchange succeeds at once. *)
Definition enqueue (q : GenQueue) (el : Z) : M heap GenQueue :=
  let temp := _insert_end q in
  let q := set_insert_end q el in
  store el (fun c => with_previous c temp);;
  when (negb (temp =? NULL)) (store temp (fun c => with_next c el));;
  prev ← field _previous el;
  let q := if (prev =? NULL) && (_remove_end q =? NULL) then set_remove_end q el else q in
  mret (add_elements q 1).

Definition enqueue_no_mt (q : GenQueue) (el : Z) : M heap GenQueue :=
  let old_end := _insert_end q in
  let q := set_insert_end q el in
  store el (fun c => with_previous c old_end);;
  when (negb (old_end =? NULL)) (store old_end (fun c => with_next c el));;
  prev ← field _previous el;
  let q := if (prev =? NULL) && (_remove_end q =? NULL) then set_remove_end q el else q in
  mret (add_elements q 1).

Definition dequeue (q : GenQueue) : M heap (Z * GenQueue) :=
  let temp := _remove_end q in
  if temp =? NULL then mret (temp, q)
  else
    next ← field _next temp;
    let q := set_remove_end q next in
    when (negb (next =? NULL)) (store next (fun c => with_previous c NULL));;
    let q := if _remove_end q =? NULL then set_insert_end q NULL else q in
    store temp (fun c => with_next c NULL);;
    mret (temp, add_elements q (-1)).

(** The links between the segments of a container, when one of them leaves. *)
Definition unlink_segment (el : Z) : M heap unit :=
  prev_segment ← field _prev_segment el;
  next_segment ← field _next_segment el;
  if prev_segment =? NULL then
    when (negb (next_segment =? NULL)) (store next_segment (fun c => with_prev_segment c NULL))
  else
    store prev_segment (fun c => with_next_segment c next_segment);;
    when (negb (next_segment =? NULL))
      (store next_segment (fun c => with_prev_segment c prev_segment)).

Definition remove_element (q : GenQueue) (el : Z) : M heap GenQueue :=
  q ← (if _remove_end q =? el then
         r ← dequeue q; mret (snd r)
       else if _insert_end q =? el then
         prev ← field _previous el;
         let q := set_insert_end q prev in
         store (_insert_end q) (fun c => with_next c NULL);;
         mret q
       else
         prev ← field _previous el;
         next ← field _next el;
         store prev (fun c => with_next c next);;
         store next (fun c => with_previous c prev);;
         mret q);
  unlink_segment el;;
  mret (add_elements q (-1)).

(** The lock of [remove_element_mt] is held for the whole call. *)
Definition remove_element_mt (q : GenQueue) (el : Z) : M heap GenQueue := remove_element q el.

Definition phantom_remove (q : GenQueue) : GenQueue := add_elements q (-1).

(** The iterator: its element is an address, [++] follows [_next]. *)
Definition iterator (q : GenQueue) : Z := _remove_end q.
Definition iterator_next (cur : Z) : M heap Z := field _next cur.

(** The loop from the iterator of a queue until its element is NULL, for a body
    that does not change the links; [fuel] bounds the number of elements. *)
Fixpoint for_each {A} (fuel : nat) (cur : Z) (body : Z -> A -> M heap A) (a : A) : M heap A :=
  match fuel with
  | O => stuck
  | S f =>
      if cur =? NULL then mret a
      else
        a ← body cur a;
        next ← iterator_next cur;
        for_each f next body a
  end.

(** ** The abstraction *)

(** [l] is chained from an element before it, [p], to one after it, [q]. *)
Fixpoint dll (h : heap) (p : Z) (l : list Z) (q : Z) : Prop :=
  match l with
  | [] => True
  | x :: l' =>
      exists c, h !! x = Some c /\ _previous c = p /\ _next c = hd q l' /\ dll h x l' q
  end.

(** The last element, or [d]. *)
Fixpoint last_or (d : Z) (l : list Z) : Z :=
  match l with [] => d | x :: l' => last_or x l' end.

Record linked (h : heap) (q : GenQueue) (l : list Z) : Prop := {
  lk_nodup : NoDup l;
  lk_null : NULL ∉ l;
  lk_chain : dll h NULL l NULL;
  lk_remove : _remove_end q = hd NULL l;
  lk_insert : _insert_end q = last_or NULL l
}.

(** The counter is right as well. *)
Record repr (h : heap) (q : GenQueue) (l : list Z) : Prop := {
  rp_linked : linked h q l;
  rp_count : _n_elements q = i32 (Z.of_nat (length l))
}.

(** Two heaps agree on the queue links of an element. *)
Definition same_links (h h' : heap) (x : Z) : Prop :=
  forall c, h !! x = Some c ->
    exists c', h' !! x = Some c' /\ _next c' = _next c /\ _previous c' = _previous c.

Lemma dll_frame h h' p l q :
  (forall x, x ∈ l -> same_links h h' x) -> dll h p l q -> dll h' p l q.
Proof.
  revert p. induction l as [| x l IH]; intros p Hf Hd; simpl in *; [done |].
  destruct Hd as (c & Hc & Hp & Hn & Hd). destruct (Hf x ltac:(by left) c Hc) as (c' & Hc' & ? & ?).
  exists c'. split; [done |]. split; [congruence |]. split; [congruence |].
  apply IH; [| done]. intros y Hy. apply Hf. by right.
Qed.

Lemma dll_insert_other h p l q x c : x ∉ l -> dll h p l q -> dll (<[x := c]> h) p l q.
Proof.
  intros Hx. apply dll_frame. intros y Hy d Hd. exists d.
  rewrite lookup_insert_ne by (intros ->; done). done.
Qed.

Lemma hd_app (l1 l2 : list Z) d : hd d (l1 ++ l2) = hd (hd d l2) l1.
Proof. by destruct l1. Qed.

Lemma dll_app h p l1 l2 q :
  dll h p (l1 ++ l2) q <-> dll h p l1 (hd q l2) /\ dll h (last_or p l1) l2 q.
Proof.
  revert p. induction l1 as [| x l1 IH]; intros p; simpl; [tauto |].
  setoid_rewrite IH. rewrite hd_app. split.
  - intros (c & ? & ? & ? & ? & ?). split; [exists c |]; done.
  - intros ((c & ? & ? & ? & ?) & ?). exists c. done.
Qed.

Lemma last_or_app d l1 l2 : last_or d (l1 ++ l2) = last_or (last_or d l1) l2.
Proof. revert d. induction l1; intros; simpl; auto. Qed.

Lemma last_or_snoc d l x : last_or d (l ++ [x]) = x.
Proof. by rewrite last_or_app. Qed.

(** A non-empty list ends with its last element. *)
Lemma last_or_split d l : l = [] \/ exists l', l = l' ++ [last_or d l].
Proof.
  destruct l as [| x l] using rev_ind; [by left | right]. exists l. by rewrite last_or_snoc.
Qed.

Lemma last_or_null l : NULL ∉ l -> last_or NULL l = NULL <-> l = [].
Proof.
  intros Hn. destruct (last_or_split NULL l) as [-> | [l' E]]; [done |]. split; [| by intros ->].
  intros H. rewrite H in E. subst. destruct Hn. apply elem_of_app. right. by left.
Qed.

Lemma hd_null (l : list Z) : NULL ∉ l -> hd NULL l = NULL <-> l = [].
Proof. destruct l as [| x l]; intros Hn; simpl; [done |]. split; [| done]. intros ->. destruct Hn. by left. Qed.

Lemma dll_lookup h p l q x : dll h p l q -> x ∈ l -> is_Some (h !! x).
Proof.
  revert p. induction l as [| y l IH]; intros p Hd Hx; [by apply elem_of_nil in Hx |].
  destruct Hd as (c & Hc & _ & _ & Hd). apply elem_of_cons in Hx as [-> | Hx]; eauto.
Qed.

(** ** The operations on the abstraction *)

(** A header without its queue links. *)
Definition erase (c : container) : container := with_previous (with_next c NULL) NULL.

(** Nothing but queue links differs between two heaps. *)
Definition same_data (h h' : heap) : Prop := erase <$> h' = erase <$> h.

(** Elements outside [l] are untouched. *)
Definition frame (l : list Z) (h h' : heap) : Prop := forall x, x ∉ l -> h' !! x = h !! x.

Lemma same_data_store h x c f :
  h !! x = Some c -> erase (f c) = erase c -> same_data h (<[x := f c]> h).
Proof.
  intros Hx He. unfold same_data. rewrite fmap_insert, He.
  apply insert_id. by rewrite lookup_fmap, Hx.
Qed.

Lemma same_data_trans h1 h2 h3 : same_data h1 h2 -> same_data h2 h3 -> same_data h1 h3.
Proof. unfold same_data. congruence. Qed.

Lemma same_data_lookup h h' x c :
  same_data h h' -> h !! x = Some c -> exists c', h' !! x = Some c' /\ erase c' = erase c.
Proof.
  intros Hs Hx. assert ((erase <$> h') !! x = Some (erase c)) as H
    by (rewrite Hs, lookup_fmap, Hx; done).
  rewrite lookup_fmap in H. destruct (h' !! x) as [c' |]; [| done].
  exists c'. split; [done |]. apply (inj Some). exact H.
Qed.

Lemma frame_insert l h h' x c : frame l h h' -> x ∈ l -> frame l h (<[x := c]> h').
Proof. intros Hf Hx y Hy. rewrite lookup_insert_ne by (intros ->; done). auto. Qed.

Lemma frame_refl l h : frame l h h.
Proof. done. Qed.

(** Insertion at the end of the chain. *)
Lemma enqueue_run h q l el c :
  linked h q l -> el ∉ l -> el <> NULL -> h !! el = Some c -> _next c = NULL ->
  exists h', enqueue q el h = Some (mkGenQueue el (hd NULL (l ++ [el])) (i32 (_n_elements q + 1)), h') /\
    linked h' (mkGenQueue el (hd NULL (l ++ [el])) (i32 (_n_elements q + 1))) (l ++ [el]) /\
    same_data h h' /\ frame (el :: l) h h'.
Proof.
  intros [Hnd Hnn Hd Hr Hi] Hel Hne Hc Hcn. unfold enqueue. rewrite Hi.
  set (h1 := <[el := with_previous c (last_or NULL l)]> h).
  assert (same_data h h1) as Hs1
    by (apply (same_data_store h el c (fun c => with_previous c (last_or NULL l))); done).
  mrun (store_run _ _ _ _ Hc). fold h1.
  assert (NoDup (l ++ [el])) as Hnd'.
  { apply NoDup_app. split; [done |]. split; [| apply NoDup_singleton].
    intros x Hx ->%list_elem_of_singleton. done. }
  assert (NULL ∉ l ++ [el]) as Hnn'.
  { rewrite elem_of_app, list_elem_of_singleton. intros [? | ?]; done. }
  destruct (last_or_split NULL l) as [-> | [l' E]].
  - simpl last_or. rewrite Z.eqb_refl, when_false, M_ret_bind.
    assert (h1 !! el = Some (with_previous c NULL)) as Hel1 by apply lookup_insert_eq.
    mrun (field_run _ _ _ _ Hel1). simpl in *. rewrite Hr.
    exists h1. split; [done |]. split; [| split; [done |]].
    + split; try done. simpl. exists (with_previous c NULL). done.
    + apply frame_insert; [apply frame_refl | by left].
  - set (t := last_or NULL l) in *.
    assert (t ∈ l) as Ht by (rewrite E; apply elem_of_app; right; by left).
    assert (t <> NULL) as Htn by congruence. assert (t <> el) as Hte by congruence.
    destruct (Z.eqb_spec t NULL); [done |]. simpl.
    destruct (dll_lookup _ _ _ _ t Hd Ht) as [ct Hct].
    assert (h1 !! t = Some ct) as Hct1 by (unfold h1; rewrite lookup_insert_ne by done; done).
    mrun (store_run _ _ _ _ Hct1).
    set (h2 := <[t := with_next ct el]> h1).
    assert (h2 !! el = Some (with_previous c t)) as Hel2
      by (unfold h2; rewrite lookup_insert_ne by done; apply lookup_insert_eq).
    mrun (field_run _ _ _ _ Hel2). simpl.
    destruct (Z.eqb_spec t NULL); [done |]. simpl.
    exists h2. split.
    { rewrite M_ret_run. unfold add_elements, set_insert_end; simpl. rewrite Hr.
      destruct l as [| z l]; [by destruct l' | done]. }
    split; [| split].
    + split; simpl; try done.
      * apply dll_app. simpl. rewrite E in Hd. apply dll_app in Hd as [Hd1 Hd2]. simpl in Hd1, Hd2.
        destruct Hd2 as (ct' & Hct' & Hp & Hn & _).
        assert (ct' = ct) as -> by congruence.
        assert (t ∉ l') as Htl'.
        { rewrite E in Hnd. apply NoDup_app in Hnd as (_ & Hnd & _). intros Hin.
          apply (Hnd t Hin). by left. }
        assert (el ∉ l') as Hell' by (intros Hin; apply Hel; rewrite E; apply elem_of_app; auto).
        split.
        -- rewrite E at 1. apply dll_app. simpl. split.
           ++ by apply dll_insert_other, dll_insert_other.
           ++ exists (with_next ct el). split; [apply lookup_insert_eq | done].
        -- exists (with_previous c t). done.
      * by rewrite last_or_snoc.
    + eapply same_data_trans; [exact Hs1 |].
      apply (same_data_store h1 t ct (fun c => with_next c el)); done.
    + apply frame_insert; [apply frame_insert; [apply frame_refl | by left] | by right].
Qed.

Lemma enqueue_no_mt_eq q el : enqueue_no_mt q el = enqueue q el.
Proof. done. Qed.

Lemma dequeue_empty h q : linked h q [] -> dequeue q h = Some ((NULL, q), h).
Proof. intros [_ _ _ Hr _]. unfold dequeue. rewrite Hr. done. Qed.

(** Removal at the front of the chain. *)
Lemma dequeue_run h q x l :
  linked h q (x :: l) ->
  exists h', dequeue q h =
      Some ((x, mkGenQueue (last_or NULL l) (hd NULL l) (i32 (_n_elements q - 1))), h') /\
    linked h' (mkGenQueue (last_or NULL l) (hd NULL l) (i32 (_n_elements q - 1))) l /\
    same_data h h' /\ frame (x :: l) h h' /\
    (exists c, h' !! x = Some c /\ _next c = NULL /\ _previous c = NULL).
Proof.
  intros [Hnd Hnn Hd Hr Hi]. simpl in *. unfold dequeue. rewrite Hr.
  apply NoDup_cons in Hnd as [Hx Hnd]. apply not_elem_of_cons in Hnn as [Hxn Hnn].
  destruct (Z.eqb_spec x NULL); [done |].
  destruct Hd as (c & Hc & Hp & Hn & Hd).
  mrun (field_run _ _ _ _ Hc). rewrite Hn.
  destruct l as [| y l]; simpl.
  - rewrite M_ret_bind. mrun (store_run _ _ _ _ Hc).
    eexists. split; [done |]. split; [by split |]. split.
    { apply (same_data_store h x c (fun c => with_next c NULL)); done. }
    split; [apply frame_insert; [apply frame_refl | by left] |].
    exists (with_next c NULL). split; [apply lookup_insert_eq | done].
  - apply not_elem_of_cons in Hx as [Hxy Hx]. pose proof Hnn as [Hyn Hnn']%not_elem_of_cons.
    destruct (Z.eqb_spec y NULL); [done |]. simpl.
    destruct Hd as (cy & Hcy & Hpy & Hny & Hd).
    mrun (store_run _ _ _ _ Hcy).
    set (h1 := <[y := with_previous cy NULL]> h).
    assert (h1 !! x = Some c) as Hc1 by (unfold h1; by rewrite lookup_insert_ne).
    mrun (store_run _ _ _ _ Hc1).
    destruct (Z.eqb_spec y NULL); [done |].
    eexists. split; [rewrite M_ret_run; unfold add_elements, set_remove_end; simpl; by rewrite Hi |].
    pose proof Hnd as [Hyl Hnd']%NoDup_cons.
    split; [| split; [| split]].
    + split; simpl; try done. exists (with_previous cy NULL).
      rewrite lookup_insert_ne by done. split; [apply lookup_insert_eq |]. split; [done |].
      split; [done |]. by apply dll_insert_other, dll_insert_other.
    + eapply same_data_trans;
        [apply (same_data_store h y cy (fun c => with_previous c NULL)); done |].
      apply (same_data_store h1 x c (fun c => with_next c NULL)); done.
    + apply frame_insert; [apply frame_insert; [apply frame_refl |] | by left]. right. by left.
    + exists (with_next c NULL). split; [apply lookup_insert_eq | done].
Qed.

(** *** Removal of any element *)

(** An address that may be followed: NULL or a header. *)
Definition valid (h : heap) (p : Z) : Prop := p = NULL \/ is_Some (h !! p).

Definition links_kept (h h' : heap) : Prop := forall x, same_links h h' x.

Lemma links_kept_refl h : links_kept h h.
Proof. intros x c Hc. eauto. Qed.

Lemma links_kept_trans h1 h2 h3 : links_kept h1 h2 -> links_kept h2 h3 -> links_kept h1 h3.
Proof.
  intros H1 H2 x c Hc. destruct (H1 x c Hc) as (c2 & Hc2 & ? & ?).
  destruct (H2 x c2 Hc2) as (c3 & Hc3 & ? & ?). exists c3. split; [done |]. split; congruence.
Qed.

Lemma links_kept_store h p c f :
  h !! p = Some c -> _next (f c) = _next c -> _previous (f c) = _previous c ->
  links_kept h (<[p := f c]> h).
Proof.
  intros Hp Hn Hv x d Hd. destruct (decide (x = p)) as [-> | Hne].
  - exists (f c). rewrite lookup_insert_eq. simplify_eq. done.
  - exists d. rewrite lookup_insert_ne by done. done.
Qed.

Lemma unlink_segment_run h el c :
  h !! el = Some c -> valid h (_prev_segment c) -> valid h (_next_segment c) ->
  exists h', unlink_segment el h = Some (tt, h') /\ links_kept h h'.
Proof.
  intros Hc Hp Hn. unfold unlink_segment. do 2 mrun (field_run _ _ _ _ Hc).
  destruct (Z.eqb_spec (_prev_segment c) NULL) as [E | E].
  - destruct (Z.eqb_spec (_next_segment c) NULL) as [E' | E']; simpl.
    { exists h. split; [done | apply links_kept_refl]. }
    destruct Hn as [? | [cn Hcn]]; [done |]. rewrite (store_run _ _ _ _ Hcn).
    eexists. split; [done |]. by apply (links_kept_store h _ cn (fun c => with_prev_segment c NULL)).
  - destruct Hp as [? | [cp Hcp]]; [done |]. mrun (store_run _ _ _ _ Hcp).
    set (h1 := <[_prev_segment c := _]> h).
    assert (links_kept h h1) as H1
      by (by apply (links_kept_store h _ cp (fun d => with_next_segment d (_next_segment c)))).
    destruct (Z.eqb_spec (_next_segment c) NULL) as [E' | E']; simpl; [by exists h1 |].
    destruct Hn as [? | [cn Hcn]]; [done |].
    assert (exists cn', h1 !! _next_segment c = Some cn') as [cn' Hcn'].
    { destruct (H1 _ _ Hcn) as (d & Hd & _). eauto. }
    rewrite (store_run _ _ _ _ Hcn'). eexists. split; [done |].
    eapply links_kept_trans; [exact H1 |].
    by apply (links_kept_store h1 _ cn' (fun d => with_prev_segment d (_prev_segment c))).
Qed.

(** The chain without its last element. *)
Lemma dll_drop_last h l a x :
  NoDup (l ++ [a; x]) -> dll h NULL (l ++ [a; x]) NULL ->
  exists ca cx, h !! a = Some ca /\ h !! x = Some cx /\ _previous cx = a /\
    dll (<[a := with_next ca NULL]> h) NULL (l ++ [a]) NULL.
Proof.
  intros Hnd Hd. apply dll_app in Hd as [Hd1 (ca & Ha & Hpa & Hna & cx & Hx & Hpx & Hnx & _)].
  apply NoDup_app in Hnd as (_ & Hnd & _). exists ca, cx.
  split; [done |]. split; [done |]. split; [done |]. apply dll_app. simpl. split.
  - apply dll_insert_other; [| done]. intros Hin. apply (Hnd a Hin). by left.
  - exists (with_next ca NULL). by rewrite lookup_insert_eq.
Qed.

(** The chain without an inner element. *)
Lemma dll_drop_inner h l a x y l2 :
  NoDup (l ++ a :: x :: y :: l2) -> dll h NULL (l ++ a :: x :: y :: l2) NULL ->
  exists ca cx cy, h !! a = Some ca /\ h !! x = Some cx /\ h !! y = Some cy /\
    a <> y /\ _previous cx = a /\ _next cx = y /\
    dll (<[y := with_previous cy a]> (<[a := with_next ca y]> h)) NULL (l ++ a :: y :: l2) NULL.
Proof.
  intros Hnd Hd.
  apply dll_app in Hd as [Hd1 (ca & Ha & Hpa & Hna & cx & Hx & Hpx & Hnx & cy & Hy & Hpy & Hny & Hd2)].
  apply NoDup_app in Hnd as (_ & Hnd & Hnd2).
  apply NoDup_cons in Hnd2 as [Ha2 Hnd2]. apply NoDup_cons in Hnd2 as [_ Hnd2].
  apply NoDup_cons in Hnd2 as [Hy2 Hnd2]. rewrite !not_elem_of_cons in Ha2.
  destruct Ha2 as (Hax & Hay & Ha2).
  exists ca, cx, cy. do 6 (split; [done |]). apply dll_app. simpl. split.
  - apply dll_insert_other; [| apply dll_insert_other; [| done]].
    + intros Hin. apply (Hnd y Hin). do 2 right. by left.
    + intros Hin. apply (Hnd a Hin). by left.
  - exists (with_next ca y). rewrite lookup_insert_ne, lookup_insert_eq by done.
    do 3 (split; [done |]). exists (with_previous cy a). rewrite lookup_insert_eq.
    do 3 (split; [done |]). by apply dll_insert_other, dll_insert_other.
Qed.

Lemma linked_kept h h' q l : links_kept h h' -> linked h q l -> linked h' q l.
Proof. intros Hk [? ? Hd ? ?]. split; try done. eapply dll_frame; [| exact Hd]. auto. Qed.

Lemma linked_count h q l n : linked h q l -> linked h (mkGenQueue (_insert_end q) (_remove_end q) n) l.
Proof. intros [? ? ? ? ?]. by split. Qed.

(** The headers keep their segment links while the queue is relinked. *)
Lemma segments_kept h h' x c :
  same_data h h' -> h !! x = Some c ->
  exists c', h' !! x = Some c' /\ _prev_segment c' = _prev_segment c /\
             _next_segment c' = _next_segment c.
Proof.
  intros Hs Hx. destruct (same_data_lookup _ _ _ _ Hs Hx) as (c' & Hc' & He).
  exists c'. split; [done |]. destruct c, c'. unfold erase in He. simpl in He. by simplify_eq.
Qed.

Lemma valid_kept h h' p : same_data h h' -> valid h p -> valid h' p.
Proof.
  intros Hs [? | [c Hc]]; [by left | right].
  destruct (same_data_lookup _ _ _ _ Hs Hc) as (c' & Hc' & _). eauto.
Qed.

(** The first part of [remove_element]: the element leaves the chain. *)
Lemma remove_link h q l1 x l2 :
  linked h q (l1 ++ x :: l2) ->
  exists h' q',
    (if _remove_end q =? x then r ← dequeue q; mret (snd r)
     else if _insert_end q =? x then
       prev ← field _previous x;
       let q := set_insert_end q prev in
       store (_insert_end q) (fun c => with_next c NULL);; mret q
     else
       prev ← field _previous x; next ← field _next x;
       store prev (fun c => with_next c next);;
       store next (fun c => with_previous c prev);; mret q) h = Some (q', h') /\
    linked h' q' (l1 ++ l2) /\ same_data h h' /\
    _n_elements q' = if decide (l1 = []) then i32 (_n_elements q - 1) else _n_elements q.
Proof.
  intros Hl. pose proof Hl as [Hnd Hnn Hd Hr Hi].
  destruct (last_or_split NULL l1) as [-> | [l' E]].
  { simpl in *. rewrite Hr, Z.eqb_refl. destruct (dequeue_run h q x l2 Hl) as (h' & Hrun & Hl' & Hs & _).
    mrun Hrun. eexists _, _. split; [done |]. split; [done |]. split; [done |]. done. }
  destruct (decide (l1 = [])) as [-> | Hne]; [by destruct l' |].
  set (a := last_or NULL l1) in *. clearbody a. subst l1. rewrite <- app_assoc in *. simpl in *.
  assert (_remove_end q <> x) as Hrx.
  { rewrite Hr. destruct l' as [| z l']; simpl; intros ->.
    - apply NoDup_cons in Hnd as [Hnd _]. apply Hnd. by left.
    - apply NoDup_cons in Hnd as [Hnd _]. apply Hnd, elem_of_app. right. right. by left. }
  destruct (Z.eqb_spec (_remove_end q) x); [done |].
  destruct l2 as [| y l2].
  - destruct (dll_drop_last _ _ _ _ Hnd Hd) as (ca & cx & Ha & Hx & Hpx & Hd').
    rewrite Hi, last_or_app. simpl. rewrite Z.eqb_refl.
    mrun (field_run _ _ _ _ Hx). rewrite Hpx. simpl. mrun (store_run _ _ _ _ Ha).
    eexists _, _. split; [done |]. split; [| split; [| done]].
    + split; simpl; [.. | by rewrite last_or_snoc].
      * apply NoDup_app in Hnd as (H1 & H2 & H3). apply NoDup_app. split; [done |].
        split; [| apply NoDup_singleton]. intros z Hz ->%list_elem_of_singleton.
        apply (H2 a Hz). by left.
      * intros Hin. apply Hnn. apply elem_of_app in Hin as [? | ->%list_elem_of_singleton];
          apply elem_of_app; [by left | right; by left].
      * done.
      * rewrite Hr. by destruct l'.
    + by apply (same_data_store h a ca (fun c => with_next c NULL)).
  - destruct (dll_drop_inner _ _ _ _ _ _ Hnd Hd)
      as (ca & cx & cy & Ha & Hx & Hy & Hay & Hpx & Hnx & Hd').
    assert (_insert_end q <> x) as Hix.
    { rewrite Hi, last_or_app. simpl. intros E.
      apply NoDup_app in Hnd as (_ & _ & Hnd). apply NoDup_cons in Hnd as [_ Hnd].
      apply NoDup_cons in Hnd as [Hnd _]. apply Hnd.
      destruct (last_or_split y (y :: l2)) as [? | [m Em]]; [done |].
      simpl in Em. rewrite Em, E. apply elem_of_app. right. by left. }
    destruct (Z.eqb_spec (_insert_end q) x); [done |].
    do 2 mrun (field_run _ _ _ _ Hx). rewrite Hpx, Hnx. mrun (store_run _ _ _ _ Ha).
    assert (<[a := with_next ca y]> h !! y = Some cy) as Hy'
      by (rewrite lookup_insert_ne; done).
    mrun (store_run _ _ _ _ Hy'). eexists _, _. split; [done |]. split; [| split; [| done]].
    + split; [.. | rewrite Hi, !last_or_app; done].
      * apply NoDup_app in Hnd as (H1 & H2 & H3). apply NoDup_app. split; [done |]. split.
        -- intros z Hz Hin. apply (H2 z Hz). apply elem_of_cons in Hin as [-> | Hin]; [by left |].
           do 2 right. done.
        -- apply NoDup_cons in H3 as [H3 H4]. apply NoDup_cons in H4 as [_ H4].
           apply NoDup_cons. split; [| done]. intros Hin. apply H3. by right.
      * intros Hin. apply Hnn. apply elem_of_app in Hin as [? | Hin]; apply elem_of_app; [by left |].
        right. apply elem_of_cons in Hin as [-> | Hin]; [by left | do 2 right; done].
      * done.
      * rewrite Hr. by destruct l'.
    + eapply same_data_trans;
        [by apply (same_data_store h a ca (fun c => with_next c y)) |].
      by apply (same_data_store _ y cy (fun c => with_previous c a)).
Qed.

Lemma remove_element_run h q l1 x l2 c :
  linked h q (l1 ++ x :: l2) -> h !! x = Some c ->
  valid h (_prev_segment c) -> valid h (_next_segment c) ->
  exists h' q', remove_element q x h = Some (q', h') /\ linked h' q' (l1 ++ l2) /\
    _n_elements q' =
      i32 ((if decide (l1 = []) then i32 (_n_elements q - 1) else _n_elements q) - 1).
Proof.
  intros Hl Hx Hp Hn. destruct (remove_link h q l1 x l2 Hl) as (h1 & q1 & Hrun & Hl1 & Hs & Hc).
  unfold remove_element. mrun Hrun.
  destruct (segments_kept _ _ _ _ Hs Hx) as (c1 & Hc1 & E1 & E2).
  destruct (unlink_segment_run h1 x c1) as (h2 & Hu & Hk);
    [done | rewrite E1; by eapply valid_kept | rewrite E2; by eapply valid_kept |].
  mrun Hu. eexists _, _. split; [done |]. split.
  - apply linked_count. by eapply linked_kept.
  - unfold add_elements; simpl. by rewrite Hc.
Qed.

(** *** Iteration *)

(** A body that keeps the links sees the elements in order. *)
Lemma for_each_run {A} (body : Z -> A -> M heap A) (step : Z -> A -> A) (I : heap -> Prop) h l n a p :
  (forall x a h, I h -> x ∈ l ->
     exists h', body x a h = Some (step x a, h') /\ I h' /\ links_kept h h') ->
  I h -> NULL ∉ l -> dll h p l NULL -> (length l < n)%nat ->
  exists h', for_each n (hd NULL l) body a h = Some (foldl (fun a x => step x a) a l, h') /\
    I h' /\ links_kept h h'.
Proof.
  revert h n a p. induction l as [| x l IH]; intros h n a p Hb HI Hnn Hd Hn;
    (destruct n as [| n]; [simpl in Hn; lia |]); simpl.
  - exists h. split; [done |]. split; [done | apply links_kept_refl].
  - apply not_elem_of_cons in Hnn as [Hxn Hnn]. destruct (Z.eqb_spec x NULL); [done |].
    destruct Hd as (c & Hc & Hp & Hnx & Hd).
    destruct (Hb x a h HI ltac:(by left)) as (h1 & Hrun & HI1 & Hk1). mrun Hrun.
    destruct (Hk1 x c Hc) as (c1 & Hc1 & Hn1 & _).
    unfold iterator_next. mrun (field_run _ _ _ _ Hc1). rewrite Hn1, Hnx.
    destruct (IH h1 n (step x a) x) as (h2 & Hrun2 & HI2 & Hk2).
    + intros y b h' HI' Hy. apply Hb; [done | by right].
    + done.
    + done.
    + eapply dll_frame; [| exact Hd]. auto.
    + simpl in Hn. lia.
    + exists h2. split; [done |]. split; [done |]. by eapply links_kept_trans.
Qed.

(** ** The contract: a list with insertion at the end and removal anywhere *)

Inductive op :=
| Enqueue (el : Z)
| EnqueueNoMt (el : Z)
| Dequeue
| Remove (el : Z)
| RemoveMt (el : Z)
| PhantomRemove.

#[export] Instance op_eq_dec : EqDecision op.
Proof. solve_decision. Defined.

Definition spec_step (o : op) (l : list Z) : list Z * Z :=
  match o with
  | Enqueue el | EnqueueNoMt el => (l ++ [el], NULL)
  | Dequeue => (tl l, hd NULL l)
  | Remove el | RemoveMt el => (filter (fun x => x <> el) l, NULL)
  | PhantomRemove => (l, NULL)
  end.

(** What the operations add to the counter. *)
Definition change (o : op) (l : list Z) : Z :=
  match o with
  | Enqueue _ | EnqueueNoMt _ => 1
  | Dequeue => match l with [] => 0 | _ => -1 end
  | Remove el | RemoveMt el => if decide (el = hd NULL l) then -2 else -1
  | PhantomRemove => -1
  end.

(** What the callers ensure: an element enters one queue at a time with its
    [_next] reset, and an element that is removed is in the queue. *)
Definition allowed (h : heap) (l : list Z) (o : op) : Prop :=
  match o with
  | Enqueue el | EnqueueNoMt el =>
      (el ∉ l) /\ el <> NULL /\ exists c, h !! el = Some c /\ _next c = NULL
  | Dequeue | PhantomRemove => True
  | Remove el | RemoveMt el =>
      (el ∈ l) /\ exists c, h !! el = Some c /\ valid h (_prev_segment c) /\ valid h (_next_segment c)
  end.

Definition run_op (o : op) (q : GenQueue) : M heap (Z * GenQueue) :=
  match o with
  | Enqueue el => q ← enqueue q el; mret (NULL, q)
  | EnqueueNoMt el => q ← enqueue_no_mt q el; mret (NULL, q)
  | Dequeue => dequeue q
  | Remove el => q ← remove_element q el; mret (NULL, q)
  | RemoveMt el => q ← remove_element_mt q el; mret (NULL, q)
  | PhantomRemove => mret (NULL, phantom_remove q)
  end.

Lemma filter_remove (l1 l2 : list Z) x :
  NoDup (l1 ++ x :: l2) -> filter (fun y => y <> x) (l1 ++ x :: l2) = l1 ++ l2.
Proof.
  intros Hnd. apply NoDup_app in Hnd as (_ & Hnd1 & Hnd2). apply NoDup_cons in Hnd2 as [Hx _].
  rewrite filter_app, filter_cons_False by tauto. f_equal.
  - induction l1 as [| y l1 IH]; [done |].
    rewrite filter_cons_True.
    + f_equal. apply IH. intros z Hz. apply Hnd1. by right.
    + intros ->. apply (Hnd1 x); by left.
  - clear Hnd1. induction l2 as [| y l2 IH]; [done |]. apply not_elem_of_cons in Hx as [Hxy Hx].
    rewrite filter_cons_True by congruence. f_equal. by apply IH.
Qed.

Lemma enqueue_op h q l el :
  linked h q l -> allowed h l (Enqueue el) ->
  exists h' q', (q ← enqueue q el; mret (NULL, q)) h = Some ((NULL, q'), h') /\
    linked h' q' (l ++ [el]) /\ _n_elements q' = i32 (_n_elements q + 1).
Proof.
  intros Hl (H1 & H2 & c & H3 & H4). destruct (enqueue_run h q l el c Hl H1 H2 H3 H4) as (h' & Hrun & Hl' & _).
  mrun Hrun. by eexists _, _.
Qed.

Lemma remove_op h q l el :
  linked h q l -> allowed h l (Remove el) ->
  exists h' q', (q ← remove_element q el; mret (NULL, q)) h = Some ((NULL, q'), h') /\
    linked h' q' (filter (fun x => x <> el) l) /\ _n_elements q' = i32 (_n_elements q + change (Remove el) l).
Proof.
  intros Hl (Hin & c & Hc & Hp & Hs). apply list_elem_of_split in Hin as (l1 & l2 & ->).
  destruct (remove_element_run h q l1 el l2 c Hl Hc Hp Hs) as (h' & q' & Hrun & Hl' & Hn').
  pose proof (lk_nodup _ _ _ Hl) as Hnd. mrun Hrun. eexists _, _. split; [done |].
  rewrite filter_remove by done. split; [done |]. rewrite Hn'. destruct l1 as [| z l1]; simpl.
  - rewrite decide_True by done. change (i32 (i32 (_n_elements q + -1) + -1) = i32 (_n_elements q + -2)).
    rewrite swrap_add by done. f_equal. lia.
  - rewrite decide_False; [done |]. intros ->. simpl in Hnd. apply NoDup_cons in Hnd as [Hz _].
    apply Hz, elem_of_app. right. by left.
Qed.

(** C19. The operations that insert and remove implement those of a list.  An operation that the
    callers may use runs to completion, returns what the operation on the list returns
    and leaves a well-linked queue of the resulting list: [enqueue] and [enqueue_no_mt] of a header
    that is in no queue, with its [_next] reset, append it; [dequeue] takes the first element, or returns
    [NULL]; [remove_element] and [remove_element_mt] of an element of the queue take it out, wherever it
    is; [phantom_remove] leaves the elements.  The counter, whatever it was, follows the length, except
    that removing the first element by [remove_element] takes 2 from it and [phantom_remove] takes 1. *)
Theorem queue_refines_list (h : heap) (q : GenQueue) (l : list Z) (o : op) :
  linked h q l -> i32 (_n_elements q) = _n_elements q -> allowed h l o ->
  exists h' q', run_op o q h = Some ((snd (spec_step o l), q'), h') /\
    linked h' q' (fst (spec_step o l)) /\
    _n_elements q' = i32 (_n_elements q + change o l).
Proof.
  intros Hl Hint Ho. destruct o as [el | el | | el | el |].
  - by apply enqueue_op.
  - by apply enqueue_op.
  - destruct l as [| x l].
    + cbn [run_op]. rewrite (dequeue_empty h q Hl). eexists _, _. split; [done |]. split; [done |].
      cbn [change]. by rewrite Z.add_0_r.
    + destruct (dequeue_run h q x l Hl) as (h' & Hrun & Hl' & _). by eexists _, _.
  - by apply remove_op.
  - by apply remove_op.
  - exists h. eexists. split; [done |]. split; [| done]. by destruct Hl.
Qed.

Lemma create_repr h : repr h create [].
Proof. split; [| done]. split; try done; [constructor | by intros ?%elem_of_nil]. Qed.

(** A queue of the two elements 100 and 200. *)
Definition sample_heap : heap :=
  <[100 := with_next zeroed 200]> (<[200 := with_previous zeroed 100]> ∅).
Definition sample_queue : GenQueue := mkGenQueue 200 100 2.

Lemma sample_linked : repr sample_heap sample_queue [100; 200].
Proof.
  split; [| done]. split; try done.
  - decide_now.
  - intros Hin. rewrite !elem_of_cons, elem_of_nil in Hin. unfold NULL in Hin. lia.
  - exists (with_next zeroed 200). do 3 (split; [done |]).
    exists (with_previous zeroed 100). done.
Qed.

Lemma queue_refines_list_witness :
  exists h' q', run_op Dequeue sample_queue sample_heap = Some ((100, q'), h') /\
    linked h' q' [200] /\ _n_elements q' = 1.
Proof.
  destruct (queue_refines_list sample_heap sample_queue [100; 200] Dequeue (rp_linked _ _ _ sample_linked) eq_refl I)
    as (h' & q' & Hrun & Hl & Hn). exists h', q'. split; [exact Hrun |]. split; [exact Hl | exact Hn].
Defined.

(** [remove_element] of the first element decrements the counter twice, once in
    [dequeue] and once at its end: a queue of two elements is left with one
    element and a counter of 0. *)
Theorem remove_first_counts_twice :
  exists h' q', remove_element sample_queue 100 sample_heap = Some (q', h') /\
    linked h' q' [200] /\ n_elements q' = 0.
Proof.
  destruct (remove_element_run sample_heap sample_queue [] 100 [200] (with_next zeroed 200))
    as (h' & q' & Hrun & Hl & Hn); [apply sample_linked | done | by left | by left |].
  exists h', q'. split; [done |]. split; [done |]. exact Hn.
Qed.

End GenQueue.
