(* ===== verification/GenQueuePar.v ===== *)
(** * Racing insertions into a queue of containers

    [GenQueue::enqueue] ([bda/gen_queue.hpp]) run by any number of threads, each
    with an element of its own, interleaved at every access to the queue and to
    the headers: the load and the exchange of [_insert_end], the stores to
    [_previous] and [_next], the test and the store of [_remove_end] and the
    increment of the counter. *)

From Stdlib Require Import ZArith Lia.
From stdpp Require Import base numbers gmap sets list relations.
From S2P Require Import Prelude GlobalDefs Container GenQueue.

Local Open Scope Z_scope.
Import Container GenQueue.

Module GenQueuePar.

(** Where the call for an element is. *)
Inductive pc :=
| Load
| Cas (temp : Z)
| SetPrev (temp : Z)
| SetNext (temp : Z)
| Check
| SetRemove
| Inc
| Done.

#[export] Instance pc_eq_dec : EqDecision pc.
Proof. solve_decision. Defined.

(** The calls by their elements, which are distinct. *)
Record state := mkState { hp : heap; queue : GenQueue; calls : gmap Z pc }.

Definition call_step (h : heap) (q : GenQueue) (el : Z) (p : pc) : option (heap * GenQueue * pc) :=
  match p with
  | Load => Some (h, q, Cas (_insert_end q))
  | Cas temp =>
      if _insert_end q =? temp then Some (h, set_insert_end q el, SetPrev temp)
      else Some (h, q, Load)
  | SetPrev temp => c ← h !! el; Some (<[el := with_previous c temp]> h, q, SetNext temp)
  | SetNext temp =>
      if negb (temp =? NULL) then c ← h !! temp; Some (<[temp := with_next c el]> h, q, Check)
      else Some (h, q, Check)
  | Check =>
      c ← h !! el;
      Some (h, q, if (_previous c =? NULL) && (_remove_end q =? NULL) then SetRemove else Inc)
  | SetRemove => Some (h, set_remove_end q el, Inc)
  | Inc => Some (h, add_elements q 1, Done)
  | Done => None
  end.

Inductive step : state -> state -> Prop :=
| step_call s el p h' q' p' :
    calls s !! el = Some p ->
    call_step (hp s) (queue s) el p = Some (h', q', p') ->
    step s (mkState h' q' (<[el := p']> (calls s))).

(** The step of a call at [p] is its exchange. *)
Definition exchanges (q : GenQueue) (p : pc) : bool :=
  match p with Cas temp => _insert_end q =? temp | _ => false end.

(** A run, with the elements in the order of their exchanges. *)
Inductive trace : list Z -> state -> state -> Prop :=
| trace_nil s : trace [] s s
| trace_cons s el p h' q' p' L s' :
    calls s !! el = Some p ->
    call_step (hp s) (queue s) el p = Some (h', q', p') ->
    trace L (mkState h' q' (<[el := p']> (calls s))) s' ->
    trace ((if exchanges (queue s) p then [el] else []) ++ L) s s'.

Definition initial (h : heap) (q : GenQueue) (els : list Z) : state :=
  mkState h q (list_to_map ((fun x => (x, Load)) <$> els)).

Definition done (s : state) : Prop := forall el p, calls s !! el = Some p -> p = Done.

(** ** Phases *)

Definition waiting (p : pc) : bool := match p with Load | Cas _ => true | _ => false end.

Definition phase (f : pc -> bool) (T : gmap Z pc) (x : Z) : bool :=
  match T !! x with Some p => f p | None => false end.

Definition prev_pending := phase (fun p => match p with SetPrev _ => true | _ => false end).
Definition next_pending :=
  phase (fun p => match p with SetPrev _ | SetNext _ => true | _ => false end).
Definition unset :=
  phase (fun p => match p with SetPrev _ | SetNext _ | Check | SetRemove => true | _ => false end).

Lemma phase_insert_eq f T x p : phase f (<[x := p]> T) x = f p.
Proof. unfold phase. by rewrite lookup_insert_eq. Qed.

Lemma phase_insert_ne f T x y p : x <> y -> phase f (<[x := p]> T) y = phase f T y.
Proof. intros. unfold phase. by rewrite lookup_insert_ne. Qed.

Definition finished (T : gmap Z pc) : Z :=
  Z.of_nat (size (filter (fun kv : Z * pc => kv.2 = Done) T)).

(** ** The invariant, for the list [F] of the elements in the order of their
    exchanges; [l0] is the queue at the start. *)

Record inv (l0 : list Z) (n0 : Z) (F : list Z) (s : state) : Prop := {
  i_nodup : NoDup F;
  i_null : NULL ∉ F;
  i_insert : _insert_end (queue s) = last_or NULL F;
  i_remove : _remove_end (queue s) =
    match F with [] => NULL | x :: _ => if unset (calls s) x then NULL else x end;
  i_count : _n_elements (queue s) = i32 (n0 + finished (calls s));
  (** the links of an element that has entered *)
  i_links : forall F1 x F2, F = F1 ++ x :: F2 ->
    exists c, hp s !! x = Some c /\
      (prev_pending (calls s) x = false -> _previous c = last_or NULL F1) /\
      _next c = match F2 with
                | [] => NULL
                | y :: _ => if next_pending (calls s) y then NULL else y
                end;
  (** the calls that have not exchanged yet *)
  i_wait : forall x p, calls s !! x = Some p -> waiting p = true ->
    (x ∉ F) /\ x <> NULL /\ exists c, hp s !! x = Some c /\ _next c = NULL;
  i_in : forall x p, calls s !! x = Some p -> waiting p = false -> x ∈ F;
  i_from : forall x, (x ∈ F) <-> (x ∈ l0) \/ exists p, calls s !! x = Some p /\ waiting p = false;
  i_old : forall x, x ∈ l0 -> calls s !! x = None;
  (** what a call has read as the end is its predecessor *)
  i_pred : forall x t, calls s !! x = Some (SetPrev t) \/ calls s !! x = Some (SetNext t) ->
    exists F1 F2, F = F1 ++ x :: F2 /\ last_or NULL F1 = t;
  i_first : forall x, calls s !! x = Some SetRemove -> exists F2, F = x :: F2
}.

Lemma finished_step T x p p' :
  T !! x = Some p -> p <> Done ->
  finished (<[x := p']> T) = finished T + (if decide (p' = Done) then 1 else 0).
Proof.
  intros Hx Hp. unfold finished. destruct (decide (p' = Done)) as [-> | Hne].
  - rewrite map_filter_insert_True by done. rewrite map_size_insert_None.
    + lia.
    + apply map_lookup_filter_None. right. intros q Hq. simplify_eq. done.
  - rewrite map_filter_insert_False by done.
    rewrite map_filter_delete, delete_id.
    + lia.
    + apply map_lookup_filter_None. right. intros q Hq. simplify_eq. done.
Qed.

Section Preservation.
Context (l0 : list Z) (n0 : Z).

(** A step after the exchange that moves one call on: the list stays as it is, and
    only what mentions the moved call has to be shown. *)
Lemma inv_move F s el p p' h' q' :
  inv l0 n0 F s -> calls s !! el = Some p -> waiting p = false -> waiting p' = false ->
  p <> Done ->
  _insert_end q' = _insert_end (queue s) ->
  _remove_end q' =
    match F with [] => NULL | x :: _ => if unset (<[el := p']> (calls s)) x then NULL else x end ->
  _n_elements q' =
    i32 (_n_elements (queue s) + (if decide (p' = Done) then 1 else 0)) ->
  (forall F1 x F2, F = F1 ++ x :: F2 ->
    exists c, h' !! x = Some c /\
      (prev_pending (<[el := p']> (calls s)) x = false -> _previous c = last_or NULL F1) /\
      _next c = match F2 with
                | [] => NULL
                | y :: _ => if next_pending (<[el := p']> (calls s)) y then NULL else y
                end) ->
  (forall x, x ∉ F -> h' !! x = hp s !! x) ->
  (forall t, p' = SetPrev t \/ p' = SetNext t -> p = SetPrev t \/ p = SetNext t) ->
  (p' = SetRemove -> exists F2, F = el :: F2) ->
  inv l0 n0 F (mkState h' q' (<[el := p']> (calls s))).
Proof.
  intros [Hnd Hnn Hi Hr Hc Hl Hw Hin Hfr Hold Hpr Hfi] Hel Hwp Hwp' Hnd' Hi' Hr' Hc' Hl' Hf' Hp' Hs'.
  split; simpl; try done.
  - by rewrite Hi'.
  - rewrite Hc', Hc, swrap_add, (finished_step _ _ p) by done. f_equal. lia.
  - intros x q Hx Hwq. destruct (decide (el = x)) as [<- | Hne].
    { rewrite lookup_insert_eq in Hx. simplify_eq. congruence. }
    rewrite lookup_insert_ne in Hx by done. destruct (Hw x q Hx Hwq) as (H1 & H2 & H3).
    split; [done |]. split; [done |]. by rewrite Hf'.
  - intros x q Hx Hwq. destruct (decide (el = x)) as [<- | Hne].
    { by eapply Hin. }
    rewrite lookup_insert_ne in Hx by done. by eapply Hin.
  - intros x. rewrite Hfr. split; (intros [? | (q & Hq & Hwq)]; [by left | right]).
    + destruct (decide (el = x)) as [<- | Hne].
      * exists p'. by rewrite lookup_insert_eq.
      * exists q. by rewrite lookup_insert_ne.
    + destruct (decide (el = x)) as [<- | Hne]; [by exists p |].
      exists q. by rewrite lookup_insert_ne in Hq.
  - intros x Hx. rewrite lookup_insert_ne; [by apply Hold |].
    intros ->. rewrite (Hold x Hx) in Hel. done.
  - intros x t Hx. destruct (decide (el = x)) as [<- | Hne].
    + rewrite lookup_insert_eq in Hx. apply Hpr.
      destruct (Hp' t) as [-> | ->]; [destruct Hx; simplify_eq; auto | by left | by right].
    + rewrite lookup_insert_ne in Hx by done. by apply Hpr.
  - intros x Hx. destruct (decide (el = x)) as [<- | Hne].
    + rewrite lookup_insert_eq in Hx. simplify_eq. auto.
    + rewrite lookup_insert_ne in Hx by done. by apply Hfi.
Qed.

(** A step that only changes the phase of a call, in a way the links do not see. *)
Lemma links_phase F (T : gmap Z pc) el p p' (h : heap) :
  T !! el = Some p ->
  (forall x, prev_pending (<[el := p']> T) x = prev_pending T x) ->
  (forall x, next_pending (<[el := p']> T) x = next_pending T x) ->
  (forall F1 x F2, F = F1 ++ x :: F2 ->
    exists c, h !! x = Some c /\
      (prev_pending T x = false -> _previous c = last_or NULL F1) /\
      _next c = match F2 with [] => NULL | y :: _ => if next_pending T y then NULL else y end) ->
  forall F1 x F2, F = F1 ++ x :: F2 ->
    exists c, h !! x = Some c /\
      (prev_pending (<[el := p']> T) x = false -> _previous c = last_or NULL F1) /\
      _next c = match F2 with
                | [] => NULL
                | y :: _ => if next_pending (<[el := p']> T) y then NULL else y
                end.
Proof.
  intros Hel Hp Hn Hl F1 x F2 E. destruct (Hl F1 x F2 E) as (c & Hc & H1 & H2).
  exists c. split; [done |]. split; [by rewrite Hp |]. rewrite H2.
  destruct F2; [done |]. by rewrite Hn.
Qed.

Lemma phase_same f T el p p' :
  T !! el = Some p -> f p = f p' -> forall x, phase f (<[el := p']> T) x = phase f T x.
Proof.
  intros Hel Hf x. destruct (decide (el = x)) as [<- | Hne].
  - rewrite phase_insert_eq. unfold phase. by rewrite Hel.
  - by apply phase_insert_ne.
Qed.

(** The exchange: the element enters at the end. *)
Lemma inv_enter F s el :
  inv l0 n0 F s -> calls s !! el = Some (Cas (_insert_end (queue s))) ->
  inv l0 n0 (F ++ [el])
    (mkState (hp s) (set_insert_end (queue s) el)
       (<[el := SetPrev (_insert_end (queue s))]> (calls s))).
Proof.
  intros [Hnd Hnn Hi Hr Hc Hl Hw Hin Hfr Hold Hpr Hfi] Hel.
  destruct (Hw el _ Hel eq_refl) as (Hel1 & Hel2 & ce & Hce & Hcen).
  assert (forall f x, x ∈ F -> phase f (<[el := SetPrev (_insert_end (queue s))]> (calls s)) x =
    phase f (calls s) x) as Hph by (intros f x Hx; apply phase_insert_ne; intros ->; done).
  split; simpl.
  - apply NoDup_app. split; [done |]. split; [| apply NoDup_singleton].
    intros x Hx ->%list_elem_of_singleton. done.
  - rewrite elem_of_app, list_elem_of_singleton. intros [? | ?]; done.
  - by rewrite last_or_snoc.
  - destruct F as [| x F]; simpl.
    + unfold unset. rewrite phase_insert_eq. done.
    + unfold unset. rewrite Hph by (by left). done.
  - rewrite Hc, (finished_step _ _ _ _ Hel) by done. f_equal. simpl. lia.
  - intros F1 x F2 E. apply snoc_split in E as [(-> & -> & ->) | (F2' & -> & E)].
    + exists ce. split; [done |]. split; [| done]. unfold prev_pending.
      by rewrite phase_insert_eq.
    + assert (x ∈ F) as Hx by (rewrite E; apply elem_of_app; right; by left).
      destruct (Hl F1 x F2' E) as (c & Hc1 & H1 & H2). exists c. split; [done |]. split.
      * unfold prev_pending in *. by rewrite Hph.
      * rewrite H2. destruct F2' as [| y F2']; simpl.
        -- unfold next_pending. by rewrite phase_insert_eq.
        -- unfold next_pending. rewrite Hph; [done |].
           rewrite E. apply elem_of_app. right. right. by left.
  - intros x q Hx Hwq. destruct (decide (el = x)) as [<- | Hne].
    { rewrite lookup_insert_eq in Hx. by simplify_eq. }
    rewrite lookup_insert_ne in Hx by done. destruct (Hw x q Hx Hwq) as (H1 & H2 & H3).
    split; [| done]. rewrite elem_of_app, list_elem_of_singleton. intros [? | ?]; congruence.
  - intros x q Hx Hwq. apply elem_of_app. destruct (decide (el = x)) as [<- | Hne].
    { right. by left. }
    rewrite lookup_insert_ne in Hx by done. left. by eapply Hin.
  - intros x. rewrite elem_of_app, list_elem_of_singleton, Hfr. split.
    + intros [[? | (q & Hq & Hwq)] | ->]; [by left | right | right].
      * exists q. rewrite lookup_insert_ne; [done |]. intros ->. by simplify_eq.
      * eexists. rewrite lookup_insert_eq. done.
    + intros [? | (q & Hq & Hwq)]; [by left; left |].
      destruct (decide (el = x)) as [<- | Hne]; [by right |].
      rewrite lookup_insert_ne in Hq by done. left. right. eauto.
  - intros x Hx. rewrite lookup_insert_ne; [by apply Hold |].
    intros ->. rewrite (Hold x Hx) in Hel. done.
  - intros x t Hx. destruct (decide (el = x)) as [<- | Hne].
    + rewrite lookup_insert_eq in Hx. exists F, []. split; [done |].
      destruct Hx; by simplify_eq.
    + rewrite lookup_insert_ne in Hx by done. destruct (Hpr x t Hx) as (F1 & F2 & -> & ?).
      exists F1, (F2 ++ [el]). split; [by rewrite <- app_assoc | done].
  - intros x Hx. destruct (decide (el = x)) as [<- | Hne].
    + rewrite lookup_insert_eq in Hx. done.
    + rewrite lookup_insert_ne in Hx by done. destruct (Hfi x Hx) as [F2 ->]. by eexists.
Qed.

(** A waiting call that stays waiting. *)
Lemma inv_wait_step F s el p p' :
  inv l0 n0 F s -> calls s !! el = Some p -> waiting p = true -> waiting p' = true ->
  inv l0 n0 F (mkState (hp s) (queue s) (<[el := p']> (calls s))).
Proof.
  intros [Hnd Hnn Hi Hr Hc Hl Hw Hin Hfr Hold Hpr Hfi] Hel Hwp Hwp'.
  assert (forall f, (forall p, waiting p = true -> f p = false) ->
    forall x, phase f (<[el := p']> (calls s)) x = phase f (calls s) x) as Hph.
  { intros f Hf. apply (phase_same f _ _ p); [done |]. rewrite !Hf by done. done. }
  split; simpl; try done.
  - destruct F as [| x F]; [done |]. unfold unset. rewrite Hph; [done | by intros []].
  - rewrite Hc, (finished_step _ _ p) by (done || by intros ->).
    destruct (decide (p' = Done)) as [-> | ?]; [done |]. f_equal. lia.
  - apply (links_phase F _ _ p); try done; apply Hph; by intros [].
  - intros x q Hx Hwq. destruct (decide (el = x)) as [<- | Hne]; [by eapply Hw |].
    rewrite lookup_insert_ne in Hx by done. by eapply Hw.
  - intros x q Hx Hwq. destruct (decide (el = x)) as [<- | Hne].
    { rewrite lookup_insert_eq in Hx. simplify_eq. congruence. }
    rewrite lookup_insert_ne in Hx by done. by eapply Hin.
  - intros x. rewrite Hfr. split; (intros [? | (q & Hq & Hwq)]; [by left | right; exists q]).
    + rewrite lookup_insert_ne; [done |]. intros ->. congruence.
    + rewrite lookup_insert_ne in Hq; [done |]. intros ->.
      rewrite lookup_insert_eq in Hq. congruence.
  - intros x Hx. rewrite lookup_insert_ne; [by apply Hold |].
    intros ->. rewrite (Hold x Hx) in Hel. done.
  - intros x t Hx. destruct (decide (el = x)) as [<- | Hne].
    + rewrite lookup_insert_eq in Hx. destruct Hx; simplify_eq; done.
    + rewrite lookup_insert_ne in Hx by done. by apply Hpr.
  - intros x Hx. destruct (decide (el = x)) as [<- | Hne].
    + rewrite lookup_insert_eq in Hx. by simplify_eq.
    + rewrite lookup_insert_ne in Hx by done. by apply Hfi.
Qed.
Lemma count_stable F s :
  inv l0 n0 F s -> _n_elements (queue s) = i32 (_n_elements (queue s) + 0).
Proof. intros Hinv. rewrite (i_count _ _ _ _ Hinv), swrap_add by done. f_equal. lia. Qed.

(** The step after the exchange that stores [_previous]. *)
Lemma inv_set_prev F s el t c :
  inv l0 n0 F s -> calls s !! el = Some (SetPrev t) -> hp s !! el = Some c ->
  inv l0 n0 F (mkState (<[el := with_previous c t]> (hp s)) (queue s)
                       (<[el := SetNext t]> (calls s))).
Proof.
  intros Hinv Hel Hc. pose proof (i_in _ _ _ _ Hinv el _ Hel eq_refl) as HelF.
  destruct (i_pred _ _ _ _ Hinv el t (or_introl Hel)) as (G1 & G2 & EF & Ht).
  apply (inv_move F s el (SetPrev t)); try done.
  - rewrite (i_remove _ _ _ _ Hinv). destruct F; [done |].
    unfold unset. by rewrite (phase_same _ _ _ (SetPrev t)).
  - by apply (count_stable F).
  - intros F1 x F2 E. destruct (i_links _ _ _ _ Hinv F1 x F2 E) as (d & Hd & H1 & H2).
    assert (match F2 with [] => NULL | y :: _ => if next_pending (calls s) y then NULL else y end =
      match F2 with [] => NULL
      | y :: _ => if next_pending (<[el := SetNext t]> (calls s)) y then NULL else y end) as HN.
    { destruct F2; [done |]. unfold next_pending. by rewrite (phase_same _ _ _ (SetPrev t)). }
    destruct (decide (el = x)) as [<- | Hne].
    + assert (d = c) as -> by congruence. exists (with_previous c t). rewrite lookup_insert_eq.
      split; [done |]. rewrite <- HN. split; [| done]. intros _. simpl.
      pose proof (i_nodup _ _ _ _ Hinv) as Hnd. rewrite E in Hnd, EF.
      destruct (split_unique _ _ _ _ _ Hnd EF) as [-> ->]. done.
    + exists d. rewrite lookup_insert_ne by done. split; [done |]. rewrite <- HN.
      split; [| done]. unfold prev_pending. rewrite phase_insert_ne by done. done.
  - intros x Hx. apply lookup_insert_ne. congruence.
  - intros u [? | ?]; simplify_eq; by left.
Qed.

(** The store of [_next] into the predecessor. *)
Lemma inv_set_next F s el t h' :
  inv l0 n0 F s -> calls s !! el = Some (SetNext t) ->
  (if negb (t =? NULL) then exists c, hp s !! t = Some c /\ h' = <[t := with_next c el]> (hp s)
   else h' = hp s) ->
  inv l0 n0 F (mkState h' (queue s) (<[el := Check]> (calls s))).
Proof.
  intros Hinv Hel Hh. pose proof (i_in _ _ _ _ Hinv el _ Hel eq_refl) as HelF.
  destruct (i_pred _ _ _ _ Hinv el t (or_intror Hel)) as (G1 & G2 & EF & Ht).
  pose proof (i_nodup _ _ _ _ Hinv) as Hnd. pose proof (i_null _ _ _ _ Hinv) as Hnn.
  apply (inv_move F s el (SetNext t)); try done.
  - rewrite (i_remove _ _ _ _ Hinv). destruct F; [done |].
    unfold unset. by rewrite (phase_same _ _ _ (SetNext t)).
  - by apply (count_stable F).
  - intros F1 x F2 E. destruct (i_links _ _ _ _ Hinv F1 x F2 E) as (d & Hd & H1 & H2).
    assert (forall x, prev_pending (<[el := Check]> (calls s)) x = prev_pending (calls s) x) as HP
      by (apply (phase_same _ _ _ (SetNext t)); done).
    assert (forall y, y <> el ->
      next_pending (<[el := Check]> (calls s)) y = next_pending (calls s) y) as HN
      by (intros; by apply phase_insert_ne).
    assert (next_pending (<[el := Check]> (calls s)) el = false) as HNel
      by (apply phase_insert_eq).
    destruct F2 as [| y F2]; [| destruct (decide (y = el)) as [-> | Hye]].
    + (* the last element: it is not the predecessor of [el] *)
      assert (h' !! x = hp s !! x) as Hx.
      { destruct (Z.eqb_spec t NULL) as [-> | Htn]; simpl in Hh; [by subst |].
        destruct Hh as (c & Hc & ->). apply lookup_insert_ne. intros ->.
        destruct (last_or_split NULL G1) as [-> | [G1' EG]]; [done |].
        rewrite Ht in EG. subst G1. rewrite E, <- app_assoc in EF. simpl in EF.
        rewrite E in Hnd. destruct (split_unique _ _ _ _ _ Hnd EF) as [_ E2]. done. }
      exists d. rewrite Hx, HP. done.
    + (* the predecessor of [el] *)
      assert (F1 ++ x :: el :: F2 = (F1 ++ [x]) ++ el :: F2) as Ha by (by rewrite <- app_assoc).
      rewrite E, Ha in EF, Hnd. destruct (split_unique _ _ _ _ _ Hnd EF) as [<- <-].
      rewrite last_or_snoc in Ht. subst t. rewrite HNel.
      assert (x <> NULL) as Hxn
        by (intros ->; apply Hnn; rewrite E; apply elem_of_app; right; by left).
      destruct (Z.eqb_spec x NULL); [done |]. destruct Hh as (c & Hc & ->).
      exists (with_next d el). assert (d = c) as -> by congruence. rewrite lookup_insert_eq.
      rewrite HP. done.
    + (* any other element *)
      rewrite HN by done.
      assert (h' !! x = hp s !! x) as Hx.
      { destruct (Z.eqb_spec t NULL) as [-> | Htn]; simpl in Hh; [by subst |].
        destruct Hh as (c & Hc & ->). apply lookup_insert_ne. intros ->.
        destruct (last_or_split NULL G1) as [-> | [G1' EG]]; [done |].
        rewrite Ht in EG. subst G1. rewrite E, <- app_assoc in EF. simpl in EF.
        rewrite E in Hnd. destruct (split_unique _ _ _ _ _ Hnd EF) as [_ E2]. by simplify_eq. }
      exists d. rewrite Hx, HP. done.
  - intros x Hx. destruct (Z.eqb_spec t NULL) as [-> | Htn]; simpl in Hh; [by subst |].
    destruct Hh as (c & Hc & ->). apply lookup_insert_ne. intros ->.
    destruct (last_or_split NULL G1) as [-> | [G1' EG]]; [done |]. apply Hx.
    rewrite EF, EG, Ht. apply elem_of_app. left. apply elem_of_app. right. by left.
  - intros u [? | ?]; done.
Qed.

(** The phases at which the queue is as the links say. *)
Lemma inv_check F s el c :
  inv l0 n0 F s -> calls s !! el = Some Check -> hp s !! el = Some c ->
  inv l0 n0 F (mkState (hp s) (queue s)
    (<[el := if (_previous c =? NULL) && (_remove_end (queue s) =? NULL) then SetRemove else Inc]>
       (calls s))).
Proof.
  intros Hinv Hel Hc. pose proof (i_in _ _ _ _ Hinv el _ Hel eq_refl) as HelF.
  pose proof (i_null _ _ _ _ Hinv) as Hnn.
  apply list_elem_of_split in HelF as (G1 & G2 & EF).
  destruct (i_links _ _ _ _ Hinv G1 el G2 EF) as (d & Hd & Hprev & _).
  assert (d = c) as -> by congruence.
  assert (_previous c = last_or NULL G1) as Hp
    by (apply Hprev; unfold prev_pending, phase; by rewrite Hel). clear Hprev.
  assert (G1 = [] -> _remove_end (queue s) = NULL) as Hrn.
  { intros ->. rewrite (i_remove _ _ _ _ Hinv), EF. simpl. unfold unset, phase. by rewrite Hel. }
  assert (_previous c = NULL <-> G1 = []) as Hfirst.
  { rewrite Hp. apply last_or_null. intros Hin. apply Hnn. rewrite EF. apply elem_of_app. by left. }
  set (p' := if (_previous c =? NULL) && (_remove_end (queue s) =? NULL) then SetRemove else Inc).
  assert (p' = SetRemove /\ G1 = [] \/ p' = Inc /\ G1 <> []) as Hcase.
  { unfold p'. destruct (Z.eqb_spec (_previous c) NULL) as [E | E]; simpl.
    - apply Hfirst in E. rewrite Hrn by done. by left.
    - right. split; [done |]. intros E'. by apply E, Hfirst. }
  clearbody p'.
  apply (inv_move F s el Check); try done.
  - by destruct Hcase as [[-> _] | [-> _]].
  - rewrite (i_remove _ _ _ _ Hinv). destruct Hcase as [[-> _] | [-> Hne]].
    + destruct F; [done |]. unfold unset. by rewrite (phase_same _ _ _ Check).
    + destruct F as [| x F]; [done |]. unfold unset. rewrite phase_insert_ne; [done |].
      intros ->. destruct G1; [done |]. simplify_eq/=.
      pose proof (i_nodup _ _ _ _ Hinv) as [Hx _]%NoDup_cons. apply Hx, elem_of_app.
      right. by left.
  - destruct (decide (p' = Done)) as [-> | _]; [by destruct Hcase as [[? _] | [? _]] |].
    by apply (count_stable F).
  - apply (links_phase F _ _ Check); [done | | | apply Hinv];
      (apply (phase_same _ _ _ Check); [done |]; by destruct Hcase as [[-> _] | [-> _]]).
  - intros t [? | ?]; destruct Hcase as [[? _] | [? _]]; congruence.
  - intros ->. destruct Hcase as [[_ ->] | [? _]]; [| done]. by exists G2.
Qed.

Lemma inv_set_remove F s el :
  inv l0 n0 F s -> calls s !! el = Some SetRemove ->
  inv l0 n0 F (mkState (hp s) (set_remove_end (queue s) el) (<[el := Inc]> (calls s))).
Proof.
  intros Hinv Hel. destruct (i_first _ _ _ _ Hinv el Hel) as [F2 EF].
  apply (inv_move F s el SetRemove); try done.
  - simpl. rewrite EF. unfold unset. by rewrite phase_insert_eq.
  - by apply (count_stable F).
  - apply (links_phase F _ _ SetRemove); [done | | | apply Hinv];
      by apply (phase_same _ _ _ SetRemove).
  - intros t [? | ?]; done.
Qed.

Lemma inv_inc F s el :
  inv l0 n0 F s -> calls s !! el = Some Inc ->
  inv l0 n0 F (mkState (hp s) (add_elements (queue s) 1) (<[el := Done]> (calls s))).
Proof.
  intros Hinv Hel. apply (inv_move F s el Inc); try done.
  - simpl. rewrite (i_remove _ _ _ _ Hinv). destruct F; [done |].
    unfold unset. by rewrite (phase_same _ _ _ Inc).
  - apply (links_phase F _ _ Inc); [done | | | apply Hinv];
      by apply (phase_same _ _ _ Inc).
  - intros t [? | ?]; done.
Qed.

Lemma inv_call F s el p h' q' p' :
  inv l0 n0 F s -> calls s !! el = Some p -> call_step (hp s) (queue s) el p = Some (h', q', p') ->
  inv l0 n0 (F ++ if exchanges (queue s) p then [el] else []) (mkState h' q' (<[el := p']> (calls s))).
Proof.
  intros Hinv Hel Hst. destruct p as [| t | t | t | | | |]; simpl in Hst; simplify_eq; cbn [exchanges]; rewrite ?app_nil_r.
  - by apply (inv_wait_step F s el Load).
  - destruct (Z.eqb_spec (_insert_end (queue s)) t) as [<- | Hne]; simplify_eq; [by apply inv_enter |].
    rewrite app_nil_r. by apply (inv_wait_step F s el (Cas t)).
  - destruct (hp s !! el) as [c |] eqn:Hc; simplify_eq/=. by apply inv_set_prev.
  - destruct (negb (t =? NULL)) eqn:E.
    + destruct (hp s !! t) as [c |] eqn:Hc; simplify_eq/=.
      apply (inv_set_next F s el t); [done | done |]. rewrite E. eauto.
    + simplify_eq. apply (inv_set_next F s el t); [done | done |]. by rewrite E.
  - destruct (hp s !! el) as [c |] eqn:Hc; simplify_eq/=. by apply inv_check.
  - by apply inv_set_remove.
  - by apply inv_inc.
Qed.

Lemma inv_trace F L s s' : inv l0 n0 F s -> trace L s s' -> inv l0 n0 (F ++ L) s'.
Proof.
  intros Hinv Htr. revert F Hinv. induction Htr as [s | s el p h' q' p' L s' Hel Hst _ IH]; intros F Hinv.
  - by rewrite app_nil_r.
  - rewrite app_assoc. apply IH. by apply inv_call.
Qed.

(** Every run has such an order. *)
Lemma steps_trace s s' : rtc step s s' -> exists L, trace L s s'.
Proof.
  induction 1 as [s | s s1 s' Hst _ [L HL]]; [exists []; constructor |].
  destruct Hst as [s el p h' q' p' Hel Hst]. eexists. by eapply trace_cons.
Qed.

Lemma trace_steps L s s' : trace L s s' -> rtc step s s'.
Proof.
  induction 1 as [s | s el p h' q' p' L s' Hel Hst _ IH]; [done |]. eapply rtc_l; [by eapply step_call | done].
Qed.

Lemma inv_run F s s' : inv l0 n0 F s -> rtc step s s' -> exists L, inv l0 n0 (F ++ L) s'.
Proof. intros Hinv [L HL]%steps_trace. exists L. by eapply inv_trace. Qed.

(** No call is ever stuck. *)
Lemma inv_enabled F s el p :
  inv l0 n0 F s -> calls s !! el = Some p -> p <> Done -> is_Some (call_step (hp s) (queue s) el p).
Proof.
  intros Hinv Hel Hne.
  assert (waiting p = false -> exists c, hp s !! el = Some c) as Hhdr.
  { intros Hw. pose proof (i_in _ _ _ _ Hinv el p Hel Hw) as Hin.
    apply list_elem_of_split in Hin as (F1 & F2 & E).
    destruct (i_links _ _ _ _ Hinv F1 el F2 E) as (c & Hc & _). eauto. }
  destruct p as [| t | t | t | | | |]; simpl; try done.
  - by destruct (_ =? t).
  - destruct Hhdr as [c ->]; [done |]. done.
  - destruct (Z.eqb_spec t NULL); simpl; [done |].
    destruct (i_pred _ _ _ _ Hinv el t (or_intror Hel)) as (F1 & F2 & E & Ht).
    destruct (last_or_split NULL F1) as [-> | [F1' E1]]; [done |].
    rewrite Ht in E1. subst F1. rewrite <- app_assoc in E. simpl in E.
    destruct (i_links _ _ _ _ Hinv _ t _ E) as (c & -> & _). done.
  - destruct Hhdr as [c ->]; [done |]. done.
Qed.
End Preservation.

(** What the callers provide: new elements, each with [_next] reset. *)
Definition fresh_elements (h : heap) (l0 els : list Z) : Prop :=
  NoDup els /\ forall el, el ∈ els ->
    (el ∉ l0) /\ el <> NULL /\ exists c, h !! el = Some c /\ _next c = NULL.

Lemma inv_start h q l0 els :
  repr h q l0 -> fresh_elements h l0 els ->
  inv l0 (Z.of_nat (length l0)) l0 (initial h q els).
Proof.
  intros [[Hnd Hnn Hd Hr Hi] Hc] [Hnde Hels].
  assert (forall x p, calls (initial h q els) !! x = Some p -> p = Load /\ x ∈ els) as Hcalls
    by (intros x p; apply list_to_map_const; done).
  assert (forall f x, f Load = false -> phase f (calls (initial h q els)) x = false) as Hph.
  { intros f x Hf. unfold phase. destruct (calls (initial h q els) !! x) eqn:E; [| done].
    by destruct (Hcalls x p E) as [-> _]. }
  split; try done.
  - simpl. rewrite Hr. destruct l0; [done |]. unfold unset. by rewrite Hph.
  - simpl. rewrite Hc. f_equal. unfold finished.
    assert (filter (fun kv : Z * pc => kv.2 = Done) (calls (initial h q els)) = ∅) as E.
    { apply map_empty_filter_2. intros x p Hx. destruct (Hcalls x p Hx) as [-> _]. done. }
    unfold initial in E. simpl in E. rewrite E, map_size_empty. lia.
  - intros F1 x F2 E. rewrite E in Hd. apply dll_app in Hd as [_ (c & Hx & Hp & Hn & _)].
    exists c. split; [done |]. split; [done |]. rewrite Hn. destruct F2; [done |].
    unfold next_pending. by rewrite Hph.
  - intros x p Hx _. destruct (Hcalls x p Hx) as [-> Hin]. by apply Hels.
  - intros x p Hx Hw. by destruct (Hcalls x p Hx) as [-> _].
  - intros x. split; [by left |]. intros [? | (p & Hp & Hw)]; [done |].
    by destruct (Hcalls x p Hp) as [-> _].
  - intros x Hx. destruct (calls (initial h q els) !! x) eqn:E; [| done].
    destruct (Hcalls x p E) as [_ Hin]. by destruct (Hels x Hin).
  - intros x t [Hx | Hx]; by destruct (Hcalls _ _ Hx).
  - intros x Hx. by destruct (Hcalls _ _ Hx).
Qed.

Lemma step_dom s s' x : step s s' -> is_Some (calls s' !! x) <-> is_Some (calls s !! x).
Proof.
  intros Hst. destruct Hst as [s el p h' q' p' Hel Hst]. simpl.
  destruct (decide (el = x)) as [<- | Hne].
  - rewrite lookup_insert_eq, Hel. done.
  - by rewrite lookup_insert_ne.
Qed.

Lemma steps_dom s s' x : rtc step s s' -> is_Some (calls s' !! x) <-> is_Some (calls s !! x).
Proof.
  intros Hst. induction Hst as [| s s1 s' Hst _ IH]; [done |].
  rewrite IH. by apply step_dom.
Qed.

(** The links of a finished state are those of a chain. *)
Lemma links_dll l0 n0 F s :
  inv l0 n0 F s -> done s -> dll (hp s) NULL F NULL.
Proof.
  intros Hinv Hd.
  assert (forall f x, f Done = false -> phase f (calls s) x = false) as Hph.
  { intros f x Hf. unfold phase. destruct (calls s !! x) eqn:E; [| done].
    by rewrite (Hd x p E). }
  assert (forall F2 F1, F = F1 ++ F2 -> dll (hp s) (last_or NULL F1) F2 NULL) as H;
    [| by apply (H F [])].
  induction F2 as [| x F2 IH]; intros F1 E; simpl; [done |].
  destruct (i_links _ _ _ _ Hinv F1 x F2 E) as (c & Hc & Hp & Hn). exists c.
  split; [done |]. split; [apply Hp; by apply Hph |]. split.
  - rewrite Hn. destruct F2; [done |]. unfold next_pending. by rewrite Hph.
  - specialize (IH (F1 ++ [x])). rewrite last_or_snoc in IH. apply IH. by rewrite <- app_assoc.
Qed.

Lemma finished_all T : (forall el p, T !! el = Some p -> p = Done) -> finished T = Z.of_nat (size T).
Proof.
  intros H. unfold finished. do 2 f_equal. apply map_filter_id. intros el p Hel. simpl. by eapply H.
Qed.

(** C3. Racing insertions are safe.  Any number of calls, each with an element of its own,
    interleave in any way.  When all have returned, the elements whose exchanges succeeded are all the
    new elements, each once, and the queue is well linked and holds the old elements followed
    by the new ones in the order of these exchanges; the counter is right.  ([steps_trace]: every run
    has such an order.) *)
Theorem enqueue_race (h : heap) (q : GenQueue) (l0 els L : list Z) (s : state) :
  repr h q l0 -> fresh_elements h l0 els ->
  trace L (initial h q els) s -> done s ->
  L ≡ₚ els /\ repr (hp s) (queue s) (l0 ++ L).
Proof.
  intros Hr Hf Htr Hdone. pose proof (trace_steps _ _ _ Htr) as Hst.
  pose proof (inv_trace _ _ _ _ _ _ (inv_start h q l0 els Hr Hf) Htr) as Hinv.
  pose proof Hf as [Hnde Hels]. pose proof (i_nodup _ _ _ _ Hinv) as Hnd.
  apply NoDup_app in Hnd as (_ & Hdisj & HndL).
  assert (forall x, is_Some (calls s !! x) <-> x ∈ els) as Hdom.
  { intros x. rewrite (steps_dom _ _ x Hst). simpl. split.
    - intros [p Hp]. by apply list_to_map_const in Hp as [_ ?].
    - intros Hx. exists Load. by apply list_to_map_const. }
  assert (L ≡ₚ els) as HL.
  { apply NoDup_Permutation; [done | done |]. intros x. split.
    - intros Hx. assert (x ∈ l0 ++ L) as HxF by (apply elem_of_app; by right).
      apply (i_from _ _ _ _ Hinv) in HxF as [Hx0 | (p & Hp & _)]; [by destruct (Hdisj x Hx0) |].
      apply Hdom. eauto.
    - intros Hx. destruct (proj2 (Hdom x) Hx) as [p Hp].
      pose proof (Hdone x p Hp) as ->.
      pose proof (i_in _ _ _ _ Hinv x Done Hp eq_refl) as HxF.
      apply elem_of_app in HxF as [Hx0 | ?]; [| done]. by destruct (Hels x Hx). }
  split; [done |]. split.
  - split; [apply Hinv | apply Hinv | by eapply links_dll | | apply Hinv].
    rewrite (i_remove _ _ _ _ Hinv). destruct (l0 ++ L) as [| x F]; [done |].
    unfold unset, phase. destruct (calls s !! x) as [p |] eqn:E; [| done].
    by rewrite (Hdone x p E).
  - rewrite (i_count _ _ _ _ Hinv), finished_all by done. f_equal. rewrite length_app.
    rewrite HL. assert (size (calls s) = length els) as ->; [| lia].
    rewrite <- size_dom. rewrite <- (size_list_to_set (C := gset Z) els) by done. f_equal.
    apply set_eq. intros x. rewrite elem_of_dom, elem_of_list_to_set. apply Hdom.
Qed.

(** A run given by the elements whose calls step. *)
Fixpoint run (sched : list Z) (s : state) : option state :=
  match sched with
  | [] => Some s
  | el :: sched =>
      p ← calls s !! el;
      r ← call_step (hp s) (queue s) el p;
      run sched (mkState r.1.1 r.1.2 (<[el := r.2]> (calls s)))
  end.

Lemma run_steps sched s s' : run sched s = Some s' -> rtc step s s'.
Proof.
  revert s. induction sched as [| el sched IH]; intros s H; simpl in H; simplify_eq; [done |].
  destruct (calls s !! el) as [p |] eqn:Hp; simplify_eq/=.
  destruct (call_step (hp s) (queue s) el p) as [[[h' q'] p'] |] eqn:Hs; simplify_eq/=.
  eapply rtc_l; [by eapply step_call | by apply IH].
Qed.

(** The elements in the order in which a run exchanges them. *)
Fixpoint entered (sched : list Z) (s : state) : list Z :=
  match sched with
  | [] => []
  | el :: sched =>
      match calls s !! el with
      | Some p =>
          match call_step (hp s) (queue s) el p with
          | Some r =>
              (if exchanges (queue s) p then [el] else []) ++
              entered sched (mkState r.1.1 r.1.2 (<[el := r.2]> (calls s)))
          | None => []
          end
      | None => []
      end
  end.

Lemma run_trace sched s s' : run sched s = Some s' -> trace (entered sched s) s s'.
Proof.
  revert s. induction sched as [| el sched IH]; intros s H; simpl in H |- *; simplify_eq; [constructor |].
  destruct (calls s !! el) as [p |] eqn:Hp; simplify_eq/=.
  destruct (call_step (hp s) (queue s) el p) as [[[h' q'] p'] |] eqn:Hs; simplify_eq/=.
  eapply trace_cons; [done | done | by apply IH].
Qed.

Lemma done_by_evaluation s :
  bool_decide (map_Forall (fun _ p => p = Done) (calls s)) = true -> done s.
Proof. intros H%bool_decide_eq_true el p Hel. by apply (H el). Qed.

Lemma fresh_sample : fresh_elements (<[300 := zeroed]> (<[400 := zeroed]> ∅)) [] [300; 400].
Proof.
  split; [decide_now |]. intros el Hel. rewrite !elem_of_cons, elem_of_nil in Hel.
  split; [by intros ?%elem_of_nil |].
  destruct Hel as [-> | [-> | []]]; (split; [done |]); by exists zeroed.
Qed.

(** Two threads insert 300 and 400 into the empty queue; 400 makes its exchange
    first and 300 completes before it. *)
Lemma enqueue_race_witness :
  let h := <[300 := zeroed]> (<[400 := zeroed]> ∅) in
  exists s, rtc step (initial h create [300; 400]) s /\ done s /\
    repr (hp s) (queue s) [400; 300] /\ peek (queue s) = 400.
Proof.
  intros h.
  pose (r := run [300; 400; 400; 300; 300; 300; 300; 300; 300; 300; 400; 400; 400; 400; 400]
               (initial h create [300; 400])).
  destruct r as [s |] eqn:E; [| by vm_compute in E].
  assert (trace [400; 300] (initial h create [300; 400]) s) as Hs.
  { pose proof (run_trace _ _ _ E) as Htr. vm_compute in Htr. exact Htr. }
  assert (done s /\ peek (queue s) = 400) as [Hd Hp].
  { vm_compute in E. injection E as <-. split; [apply done_by_evaluation; by vm_compute | done]. }
  destruct (enqueue_race h create [] [300; 400] [400; 300] s) as (_ & Hr); [| | exact Hs | exact Hd |].
  - apply create_repr.
  - apply fresh_sample.
  - exists s. split; [by apply (trace_steps [400; 300]) |]. split; [exact Hd |]. split; [exact Hr | exact Hp].
Defined.

(** ** Termination *)

Definition weight (n : Z) (q : GenQueue) (p : pc) : Z :=
  match p with
  | Load => 2 * n + 6
  | Cas t => 2 * n + (if _insert_end q =? t then 5 else 7)
  | SetPrev _ => 5
  | SetNext _ => 4
  | Check => 3
  | SetRemove => 2
  | Inc => 1
  | Done => 0
  end.

Definition call_weight (n : Z) (s : state) (el : Z) : Z :=
  match calls s !! el with Some p => weight n (queue s) p | None => 0 end.

Definition bound (els : list Z) (s : state) : Z :=
  sum_of (call_weight (Z.of_nat (length els)) s) els.

(** Only the exchange changes what the other calls compare with. *)
Lemma step_weight n els s s' :
  NoDup els -> n = Z.of_nat (length els) ->
  (forall x, is_Some (calls s !! x) -> x ∈ els) -> step s s' ->
  0 <= bound els s' < bound els s.
Proof.
  intros Hnd Hn Hels Hst. unfold bound. rewrite <- Hn. split.
  { apply sum_of_nonneg. intros x _. unfold call_weight. destruct (calls s' !! x) as [p |]; [| done].
    destruct p; simpl; try lia. destruct (_ =? _); lia. }
  destruct Hst as [s el p h' q' p' Hel Hst].
  assert (el ∈ els) as Hin by (apply Hels; eauto).
  set (s' := mkState h' q' (<[el := p']> (calls s))).
  assert (call_weight n s el = weight n (queue s) p) as E1 by (unfold call_weight; by rewrite Hel).
  assert (call_weight n s' el = weight n q' p') as E2
    by (unfold call_weight; simpl; by rewrite lookup_insert_eq).
  assert (forall y, y <> el -> _insert_end q' = _insert_end (queue s) ->
    call_weight n s' y <= call_weight n s y + 0) as Hquiet.
  { intros y Hy He. unfold call_weight; simpl. rewrite lookup_insert_ne by done.
    destruct (calls s !! y) as [r |]; [| lia]. destruct r; simpl; rewrite ?He; lia. }
  assert (forall y, y <> el -> call_weight n s' y <= call_weight n s y + 2) as Hany.
  { intros y Hy. unfold call_weight; simpl. rewrite lookup_insert_ne by done.
    destruct (calls s !! y) as [r |]; [| lia]. destruct r; simpl; try lia.
    destruct (_ =? _), (_ =? _); lia. }
  destruct (decide (_insert_end q' = _insert_end (queue s))) as [He | He].
  - pose proof (sum_of_change (call_weight n s) (call_weight n s') 0 els el Hnd Hin
      (fun y Hy => Hquiet y Hy He) ltac:(lia)) as Hsum.
    rewrite E1, E2 in Hsum. enough (weight n q' p' < weight n (queue s) p) by lia.
    assert (0 < n) as Hpos by (destruct els; [by apply elem_of_nil in Hin | simpl in Hn; lia]).
    clear -Hst Hel He Hpos. destruct p as [| t | t | t | | | |]; simpl in Hst; simplify_eq; simpl.
    + rewrite Z.eqb_refl. lia.
    + destruct (Z.eqb_spec (_insert_end (queue s)) t); simplify_eq; simpl; lia.
    + destruct (hp s !! el); simplify_eq/=. lia.
    + destruct (negb (t =? NULL)); [destruct (hp s !! t) |]; simplify_eq/=; lia.
    + destruct (hp s !! el); simplify_eq/=. destruct (_ && _); simpl; lia.
    + lia.
    + lia.
  - pose proof (sum_of_change (call_weight n s) (call_weight n s') 2 els el Hnd Hin Hany
      ltac:(lia)) as Hsum.
    rewrite E1, E2 in Hsum.
    destruct p as [| t | t | t | | | |]; simpl in Hst; simplify_eq; try done.
    + destruct (Z.eqb_spec (_insert_end (queue s)) t); simplify_eq. simpl in Hsum.
      rewrite Z.eqb_refl in Hsum. lia.
    + destruct (hp s !! el); simplify_eq/=.
    + destruct (negb (t =? NULL)); [destruct (hp s !! t) |]; simplify_eq/=.
    + destruct (hp s !! el); simplify_eq/=.
Qed.

(** C34. Racing insertions end: no run is infinite, and in every state that a run
    reaches each call that has not returned can take its next step, so no call
    meets a null or dangling header. *)
Theorem enqueue_race_terminates (h : heap) (q : GenQueue) (l0 els : list Z) (s : state) :
  repr h q l0 -> fresh_elements h l0 els -> rtc step (initial h q els) s ->
  sn step s /\
  (forall el p, calls s !! el = Some p -> p <> Done -> exists s', step s s' /\
     calls s' !! el <> Some p).
Proof.
  intros Hr Hf Hst. destruct (inv_run _ _ _ _ _ (inv_start h q l0 els Hr Hf) Hst) as [L Hinv].
  destruct Hf as [Hnd Hels]. split.
  - apply (sn_measure_inv _ (fun s => forall x, is_Some (calls s !! x) -> x ∈ els) (bound els)).
    + intros s1 s2 Hs1 H12. split.
      * intros x Hx. apply Hs1. by apply (step_dom _ _ x H12).
      * by apply (step_weight (Z.of_nat (length els))).
    + intros x Hx. apply (steps_dom _ _ x Hst) in Hx as [p Hp]. simpl in Hp.
      by apply list_to_map_const in Hp as [_ ?].
  - intros el p Hel Hne. destruct (inv_enabled _ _ _ s el p Hinv Hel Hne) as [[[h' q'] p'] Hcs].
    exists (mkState h' q' (<[el := p']> (calls s))). split; [by econstructor |]. simpl.
    rewrite lookup_insert_eq. intros [= ->].
    destruct p as [| t | t | t | | | |]; simpl in Hcs; simplify_eq.
    + destruct (_ =? _); simplify_eq.
    + destruct (hp s !! el); simplify_eq/=.
    + destruct (negb _); [destruct (hp s !! t) |]; simplify_eq/=.
    + destruct (hp s !! el); simplify_eq/=. by destruct (_ && _).
Qed.

Lemma enqueue_race_terminates_witness :
  sn step (initial (<[300 := zeroed]> (<[400 := zeroed]> ∅)) create [300; 400]).
Proof.
  apply (enqueue_race_terminates (<[300 := zeroed]> (<[400 := zeroed]> ∅)) create [] [300; 400]);
    [apply create_repr | apply fresh_sample | apply rtc_refl].
Defined.

End GenQueuePar.
