(* ===== verification/RefQueue.v ===== *)
(** * The queue of references to big-data objects

    [bda/refqueue.hpp] and [bda/refqueue.cpp]: a singly linked queue in which the
    mutators leave the references that the young collection is to process.  Used
    by one thread at a time it implements a list; [RefQueuePar] runs insertions by
    racing threads. *)

From Stdlib Require Import ZArith Lia.
From stdpp Require Import base numbers gmap sets list relations.
From S2P Require Import Prelude GlobalDefs.

Local Open Scope Z_scope.

Module RefQueue.

Record Ref := mkRef { _next : Z; _actual_ref : Z; _region : Z }.

Inductive RefType := element | container.

(** The constructor. *)
Definition new_Ref (obj r : Z) : Ref := mkRef NULL obj r.

Definition set_next (ref : Ref) (n : Z) : Ref := mkRef n (_actual_ref ref) (_region ref).

Abbreviation heap := (gmap Z Ref).

Record RefQueue := mkRefQueue { _insert_end : Z; _remove_end : Z }.

Definition create : RefQueue := mkRefQueue NULL NULL.

Definition set_insert_end (q : RefQueue) (ref : Z) : RefQueue := mkRefQueue ref (_remove_end q).
Definition set_remove_end (q : RefQueue) (ref : Z) : RefQueue := mkRefQueue (_insert_end q) ref.

Definition peek (q : RefQueue) : Z := _remove_end q.
Definition is_empty (q : RefQueue) : bool :=
  (_insert_end q =? NULL) && (_remove_end q =? NULL).
Definition clear (q : RefQueue) : bool * RefQueue :=
  (true, set_remove_end (set_insert_end q NULL) NULL).

Definition next (p : Z) : M heap Z := fun h =>
  match h !! p with Some r => Some (_next r, h) | None => None end.
Definition store_next (p n : Z) : M heap unit := fun h =>
  match h !! p with Some r => Some (tt, <[p := set_next r n]> h) | None => None end.

(** [ref] is the address the allocator returns for the new [Ref]. *)
Definition enqueue (q : RefQueue) (ref obj r : Z) : M heap RefQueue :=
  modify (fun h => <[ref := new_Ref obj r]> h);;
  let temp := _insert_end q in
  let q := set_insert_end q ref in
  when (negb (temp =? NULL)) (store_next temp ref);;
  mret (if _remove_end q =? NULL then set_remove_end q ref else q).

Definition dequeue (q : RefQueue) : M heap (Z * RefQueue) :=
  let temp := _remove_end q in
  if temp =? NULL then mret (temp, q)
  else
    n ← next temp;
    let q := set_remove_end q n in
    mret (temp, if _remove_end q =? NULL then set_insert_end q NULL else q).

(** ** The abstraction: the objects and regions, oldest first *)

(** The [Ref]s at the addresses [l] are chained and end with NULL. *)
Fixpoint chain (h : heap) (l : list Z) (vs : list (Z * Z)) : Prop :=
  match l, vs with
  | [], [] => True
  | a :: l', (obj, r) :: vs' => h !! a = Some (mkRef (hd NULL l') obj r) /\ chain h l' vs'
  | _, _ => False
  end.

Record repr (h : heap) (q : RefQueue) (l : list Z) (vs : list (Z * Z)) : Prop := {
  rq_nodup : NoDup l;
  rq_null : NULL ∉ l;
  rq_chain : chain h l vs;
  rq_remove : _remove_end q = hd NULL l;
  rq_insert : _insert_end q = List.last l NULL
}.

Lemma chain_other h l vs a x : a ∉ l -> chain h l vs -> chain (<[a := x]> h) l vs.
Proof.
  revert vs. induction l as [| b l IH]; intros vs Ha Hc; [by destruct vs |].
  destruct vs as [| [obj r] vs]; [done |]. simpl in *. destruct Hc as [Hb Hc].
  apply not_elem_of_cons in Ha as [Hab Ha]. rewrite lookup_insert_ne by done. auto.
Qed.

Lemma chain_ext h h' l vs : (forall a, a ∈ l -> h' !! a = h !! a) -> chain h l vs -> chain h' l vs.
Proof.
  revert vs. induction l as [| b l IH]; intros vs Hh Hc; [by destruct vs |].
  destruct vs as [| [obj r] vs]; [done |]. simpl in *. destruct Hc as [Hb Hc].
  rewrite Hh by (by left). split; [done |]. apply IH; [| done]. intros a Ha. apply Hh. by right.
Qed.

Lemma chain_snoc h l b vs ov rv x obj r :
  NoDup (l ++ [b]) -> x ∉ l ++ [b] -> chain h (l ++ [b]) (vs ++ [(ov, rv)]) ->
  h !! b = Some (mkRef NULL ov rv) /\
  chain (<[b := mkRef x ov rv]> (<[x := mkRef NULL obj r]> h)) (l ++ [b; x])
    (vs ++ [(ov, rv); (obj, r)]).
Proof.
  revert vs. induction l as [| a l IH]; intros vs Hnd Hx Hc; simpl in *.
  - destruct vs as [| [] vs]; simpl in Hc; [| by destruct Hc as [_ Hc]; destruct vs].
    destruct Hc as [Hb _]. split; [done |].
    assert (x <> b) by (intros ->; apply Hx; by left).
    rewrite lookup_insert_eq. rewrite lookup_insert_ne, lookup_insert_eq by done. done.
  - destruct vs as [| [o1 r1] vs]; simpl in Hc.
    { destruct Hc as [_ Hc]. by destruct l. }
    destruct Hc as [Ha Hc]. apply NoDup_cons in Hnd as [Hal Hnd].
    apply not_elem_of_cons in Hx as [Hxa Hx].
    destruct (IH vs Hnd Hx Hc) as [Hb Hc']. split; [done |]. simpl. split; [| done].
    rewrite lookup_insert_ne by (intros ->; apply Hal, elem_of_app; right; by left).
    rewrite lookup_insert_ne by done. rewrite Ha. do 2 f_equal. by destruct l.
Qed.

Lemma chain_length h l vs : chain h l vs -> length vs = length l.
Proof.
  revert vs. induction l as [| a l IH]; intros [| [] vs] Hc; simpl in *; try done.
  f_equal. apply IH. by destruct Hc.
Qed.

Lemma ref_enqueue_run h q l vs ref obj r :
  repr h q l vs -> ref ∉ l -> ref <> NULL ->
  exists h' q', enqueue q ref obj r h = Some (q', h') /\ repr h' q' (l ++ [ref]) (vs ++ [(obj, r)]).
Proof.
  intros [Hnd Hnn Hc Hr Hi] Href Hne. unfold enqueue.
  assert (NoDup (l ++ [ref])) as Hnd'.
  { apply NoDup_app. split; [done |]. split; [| apply NoDup_singleton].
    intros x Hx ->%list_elem_of_singleton. done. }
  assert (NULL ∉ l ++ [ref]) as Hnn'.
  { rewrite elem_of_app, list_elem_of_singleton. intros [? | ?]; done. }
  pose proof (chain_length _ _ _ Hc) as Hlen. rewrite Hi.
  destruct l as [| b l _] using rev_ind.
  - destruct vs; [| done]. simpl in *. rewrite Hr. eexists _, _. split; [done |].
    split; simpl; try done. by rewrite lookup_insert_eq.
  - rewrite last_last. destruct vs as [| [ov rv] vs _] using rev_ind.
    { by rewrite length_app in Hlen; destruct l. }
    assert (b <> NULL) as Hb by (intros ->; apply Hnn, elem_of_app; right; by left).
    destruct (Z.eqb_spec b NULL); [done |].
    destruct (chain_snoc h l b vs ov rv ref obj r Hnd Href Hc) as [Hbv Hc'].
    assert (ref <> b) as Hrb by (intros ->; apply Href, elem_of_app; right; by left).
    simpl. unfold mbind, M_bind, modify, store_next. rewrite lookup_insert_ne, Hbv by done.
    assert (_remove_end q <> NULL) as Hrn.
    { rewrite Hr. destruct l; simpl; [done |]. intros ->. apply Hnn. by left. }
    destruct (Z.eqb_spec (_remove_end q) NULL); [done |].
    eexists _, _. split; [done |]. rewrite <- !app_assoc. simpl. split; simpl; try done.
    + by rewrite <- app_assoc in Hnd'.
    + by rewrite <- app_assoc in Hnn'.
    + rewrite Hr. by destruct l.
    + change [b; ref] with ([b] ++ [ref]). by rewrite app_assoc, last_last.
Qed.

Lemma ref_dequeue_run h q l vs :
  repr h q l vs ->
  match l, vs with
  | a :: l', v :: vs' =>
      exists q', dequeue q h = Some ((a, q'), h) /\ repr h q' l' vs' /\
        h !! a = Some (mkRef (hd NULL l') (fst v) (snd v))
  | _, _ => dequeue q h = Some ((NULL, q), h)
  end.
Proof.
  intros [Hnd Hnn Hc Hr Hi]. unfold dequeue. rewrite Hr.
  destruct l as [| a l]; [by destruct vs |]. destruct vs as [| [obj r] vs]; [done |].
  simpl in *. destruct Hc as [Ha Hc]. apply not_elem_of_cons in Hnn as [Han Hnn].
  apply NoDup_cons in Hnd as [_ Hnd]. destruct (Z.eqb_spec a NULL); [done |].
  unfold mbind, M_bind, next. rewrite Ha. simpl. eexists. split; [done |]. split; [| done].
  destruct l as [| b l]; simpl.
  - by split.
  - destruct (Z.eqb_spec b NULL) as [-> | ?].
    { destruct Hnn. by left. }
    split; done.
Qed.

(** Used by one thread at a time, the queue is a list of references: an
    insertion appends the reference, a removal returns the references in the
    order they were inserted, NULL when there is none, and [is_empty] says so. *)
Theorem refqueue_refines_list (h : heap) (q : RefQueue) (l : list Z) (vs : list (Z * Z))
    (ref obj r : Z) :
  repr h q l vs -> ref ∉ l -> ref <> NULL ->
  (is_empty q = true <-> vs = []) /\
  (exists h' q', enqueue q ref obj r h = Some (q', h') /\ repr h' q' (l ++ [ref]) (vs ++ [(obj, r)])) /\
  match l, vs with
  | a :: l', v :: vs' =>
      exists q', dequeue q h = Some ((a, q'), h) /\ repr h q' l' vs' /\
        h !! a = Some (mkRef (hd NULL l') (fst v) (snd v))
  | _, _ => dequeue q h = Some ((NULL, q), h)
  end.
Proof.
  intros Hq Href Hne. split; [| split; [by apply ref_enqueue_run | by apply ref_dequeue_run]].
  destruct Hq as [Hnd Hnn Hc Hr Hi]. unfold is_empty. rewrite Hr, Hi.
  destruct l as [| a l]; [by destruct vs |]. destruct vs as [| v vs]; [done |].
  split; [| done]. intros H%andb_true_iff. destruct H as [_ H].
  apply Z.eqb_eq in H. simpl in H. subst. destruct Hnn. by left.
Qed.

Lemma refqueue_refines_list_witness :
  exists h' q', enqueue create 64 7 1 ∅ = Some (q', h') /\ repr h' q' [64] [(7, 1)].
Proof.
  destruct (refqueue_refines_list ∅ create [] [] 64 7 1) as (_ & (h' & q' & Hrun & Hr) & _).
  - split; try done; [constructor | by intros ?%elem_of_nil].
  - by intros ?%elem_of_nil.
  - done.
  - exists h', q'. done.
Defined.

End RefQueue.
