(* ===== verification/RefQueuePar.v ===== *)
(** * Racing insertions into the queue of references

    [RefQueue::enqueue] ([bda/refqueue.hpp]) run by any number of mutators, each with a [Ref] of its
    own, interleaved at every access to the queue and to the [Ref]s: the load and the
    exchange of [_insert_end], the store to [_next], and the test and the store of [_remove_end].

    Unlike [GenQueue::enqueue], the call does not test that its [Ref] has no predecessor before it
    makes itself the first element.  The theorem says what this costs. *)

From Stdlib Require Import ZArith Lia.
From stdpp Require Import base numbers gmap sets list relations.
From S2P Require Import Prelude GlobalDefs RefQueue.

Local Open Scope Z_scope.

Module RefQueuePar.
Import RefQueue.

Inductive pc :=
| Load
| Cas (temp : Z)
| SetNext (temp : Z)
| Check
| SetRemove
| Done.

(** The calls by the addresses of their [Ref]s, which are distinct. *)
Record state := mkState { hp : heap; queue : RefQueue; calls : gmap Z pc }.

(** The steps of the call that inserts the [Ref] at [ref], already constructed. *)
Definition call_step (h : heap) (q : RefQueue) (ref : Z) (p : pc) : option (heap * RefQueue * pc) :=
  match p with
  | Load => Some (h, q, Cas (_insert_end q))
  | Cas temp =>
      if _insert_end q =? temp then Some (h, set_insert_end q ref, SetNext temp)
      else Some (h, q, Load)
  | SetNext temp =>
      if negb (temp =? NULL) then x ← h !! temp; Some (<[temp := set_next x ref]> h, q, Check)
      else Some (h, q, Check)
  | Check => Some (h, q, if _remove_end q =? NULL then SetRemove else Done)
  | SetRemove => Some (h, set_remove_end q ref, Done)
  | Done => None
  end.

(** The step of a call at [p] is its exchange. *)
Definition exchanges (q : RefQueue) (p : pc) : bool :=
  match p with Cas temp => _insert_end q =? temp | _ => false end.

(** A run, with the [Ref]s in the order of their exchanges. *)
Inductive trace : list Z -> state -> state -> Prop :=
| trace_nil s : trace [] s s
| trace_cons s ref p h' q' p' L s' :
    calls s !! ref = Some p ->
    call_step (hp s) (queue s) ref p = Some (h', q', p') ->
    trace L (mkState h' q' (<[ref := p']> (calls s))) s' ->
    trace ((if exchanges (queue s) p then [ref] else []) ++ L) s s'.

Definition initial (h : heap) (q : RefQueue) (refs : list Z) : state :=
  mkState h q (list_to_map ((fun x => (x, Load)) <$> refs)).

Definition done (s : state) : Prop := forall ref p, calls s !! ref = Some p -> p = Done.

(** ** The invariant *)

Definition waiting (p : pc) : bool := match p with Load | Cas _ => true | _ => false end.

(** The link to the [Ref] at [y] has not been stored. *)
Definition unlinked (T : gmap Z pc) (y : Z) : bool :=
  match T !! y with Some (SetNext _) => true | _ => false end.

Section Race.
(** The object and the region of each [Ref], and the queue at the start. *)
Context (val : Z -> Z * Z) (l0 : list Z).

Record inv (F : list Z) (s : state) : Prop := {
  i_nodup : NoDup F;
  i_null : NULL ∉ F;
  i_insert : _insert_end (queue s) = List.last F NULL;
  i_links : forall F1 x F2, F = F1 ++ x :: F2 ->
    hp s !! x = Some (mkRef (match F2 with
                             | [] => NULL
                             | y :: _ => if unlinked (calls s) y then NULL else y
                             end) (val x).1 (val x).2);
  i_wait : forall x p, calls s !! x = Some p -> waiting p = true ->
    (x ∉ F) /\ x <> NULL /\ hp s !! x = Some (new_Ref (val x).1 (val x).2);
  i_from : forall x, (x ∈ F) <-> (x ∈ l0) \/ exists p, calls s !! x = Some p /\ waiting p = false;
  i_old : forall x, x ∈ l0 -> calls s !! x = None;
  i_pred : forall x t, calls s !! x = Some (SetNext t) ->
    exists F1 F2, F = F1 ++ x :: F2 /\ List.last F1 NULL = t;
  (** a queue that was not empty keeps its first element; one that was has none, or one that entered *)
  i_first : l0 <> [] -> _remove_end (queue s) = hd NULL l0 /\ forall x, calls s !! x <> Some SetRemove;
  i_remove : _remove_end (queue s) = NULL \/ _remove_end (queue s) ∈ F;
  i_done : forall x, calls s !! x = Some Done -> _remove_end (queue s) <> NULL
}.

Lemma unlinked_ne T x p y : x <> y -> unlinked (<[x := p]> T) y = unlinked T y.
Proof. intros. unfold unlinked. by rewrite lookup_insert_ne. Qed.

(** The call of [ref], whose [Ref] has entered or which stays out, moves on from [p] to [p'].  Heap and
    links are as before, up to the phase of the link to [ref]. *)
Lemma ref_inv_move F s ref p p' h' q' :
  inv F s -> calls s !! ref = Some p -> waiting p' = waiting p ->
  (forall F1 x F2, F = F1 ++ x :: F2 ->
     h' !! x = Some (mkRef (match F2 with [] => NULL | y :: _ => if unlinked (<[ref := p']> (calls s)) y then NULL else y end)
                      (val x).1 (val x).2)) ->
  (forall x p, calls s !! x = Some p -> waiting p = true -> h' !! x = hp s !! x) ->
  _insert_end q' = _insert_end (queue s) ->
  (forall t, p' <> SetNext t) ->
  (l0 <> [] -> _remove_end q' = _remove_end (queue s) /\ p' <> SetRemove) ->
  (_remove_end q' = _remove_end (queue s) \/ _remove_end q' ∈ F) ->
  (p' = Done -> _remove_end q' <> NULL) ->
  inv F (mkState h' q' (<[ref := p']> (calls s))).
Proof.
  intros [Hnd Hnn Hins Hl Hw Hf Ho Hp Hfi Hr Hd] Hc Hph Hl' Hw' Hins' Hns Hfi' Hr' Hd'.
  split; cbn [hp queue calls]; try done.
  - congruence.
  - intros x px [[<- <-] | [Hne Hx]]%lookup_insert_Some Hpx.
    + rewrite (Hw' ref p) by (congruence || done). apply (Hw ref p); congruence.
    + rewrite (Hw' x px) by done. by apply (Hw x px).
  - intros x. rewrite Hf. split; (intros [? | (px & Hx & Hpx)]; [by left |]; right).
    + destruct (decide (ref = x)) as [<- | Hne].
      * exists p'. rewrite lookup_insert_eq. split; [done |]. congruence.
      * exists px. by rewrite lookup_insert_ne.
    + apply lookup_insert_Some in Hx as [[<- <-] | [Hne Hx]]; [exists p; split; congruence | by exists px].
  - intros x Hx. rewrite lookup_insert_ne; [by apply Ho |]. intros <-. rewrite (Ho ref Hx) in Hc. done.
  - intros x t [[<- E] | [Hne Hx]]%lookup_insert_Some; [by destruct (Hns t) | by apply Hp].
  - intros Hne0. destruct (Hfi Hne0) as [E Hns']. destruct (Hfi' Hne0) as [E' Hp']. split; [congruence |].
    intros x [[<- ?] | [_ Hx]]%lookup_insert_Some; [done |]. by apply (Hns' x).
  - destruct Hr' as [-> | ?]; [done | by right].
  - intros x [[<- ->] | [_ Hx]]%lookup_insert_Some; [by apply Hd' |].
    destruct Hr' as [-> | Hin]; [by apply (Hd x) |]. intros E. rewrite E in Hin. done.
Qed.

Lemma unlinked_same T ref p p' y :
  T !! ref = Some p -> (forall t, p <> SetNext t) -> (forall t, p' <> SetNext t) ->
  unlinked (<[ref := p']> T) y = unlinked T y.
Proof.
  intros Hr Hp Hp'. destruct (decide (ref = y)) as [<- | Hne]; [| by apply unlinked_ne].
  unfold unlinked. rewrite lookup_insert_eq, Hr.
  destruct p, p'; try done; match goal with H : forall t, SetNext ?x <> SetNext t |- _ => by destruct (H x) end.
Qed.

(** A step that stores nothing to the heap. *)
Lemma ref_inv_quiet F s ref p p' q' :
  inv F s -> calls s !! ref = Some p -> waiting p' = waiting p ->
  (forall t, p <> SetNext t) -> (forall t, p' <> SetNext t) ->
  _insert_end q' = _insert_end (queue s) ->
  (l0 <> [] -> _remove_end q' = _remove_end (queue s) /\ p' <> SetRemove) ->
  (_remove_end q' = _remove_end (queue s) \/ _remove_end q' ∈ F) ->
  (p' = Done -> _remove_end q' <> NULL) ->
  inv F (mkState (hp s) q' (<[ref := p']> (calls s))).
Proof.
  intros Hinv Hc Hw Hp Hp' Hi Hf Hr Hd. apply (ref_inv_move F s ref p); try done.
  intros F1 x F2 E. rewrite (i_links _ _ Hinv F1 x F2 E). destruct F2 as [| y F2]; [done |].
  by rewrite (unlinked_same _ _ p).
Qed.

(** The exchange: the [Ref] enters behind the last one. *)
Lemma ref_inv_enter F s ref :
  inv F s -> calls s !! ref = Some (Cas (_insert_end (queue s))) ->
  inv (F ++ [ref]) (mkState (hp s) (set_insert_end (queue s) ref) (<[ref := SetNext (_insert_end (queue s))]> (calls s))).
Proof.
  intros [Hnd Hnn Hins Hl Hw Hf Ho Hp Hfi Hr Hd] Hc. destruct (Hw ref _ Hc eq_refl) as (Hrf & Hrn & Hrh).
  assert (forall y, y ∈ F -> ref <> y) as Hne by (intros y Hy ->; done).
  split; cbn [hp queue calls set_insert_end _insert_end _remove_end].
  - apply NoDup_app. split; [done |]. split; [| apply NoDup_singleton]. intros x Hx ->%list_elem_of_singleton. done.
  - rewrite elem_of_app, list_elem_of_singleton. by intros [? | ?].
  - by rewrite last_last.
  - intros F1 x F2 E. apply snoc_split in E as [(-> & -> & ->) | (F2' & -> & E)]; [done |].
    rewrite (Hl F1 x F2' E). destruct F2' as [| y F2']; cbn [app].
    + unfold unlinked. by rewrite lookup_insert_eq.
    + rewrite unlinked_ne; [done |]. apply Hne. rewrite E. apply elem_of_app. right. right. by left.
  - intros x px [[<- <-] | [Hx1 Hx]]%lookup_insert_Some Hpx; [done |]. destruct (Hw x px Hx Hpx) as (? & ? & ?).
    split; [| done]. rewrite elem_of_app, list_elem_of_singleton. intros [? | ->]; done.
  - intros x. rewrite elem_of_app, list_elem_of_singleton, Hf. split.
    + intros [[? | (px & Hx & Hpx)] | ->]; [by left | right | right; eexists; by rewrite lookup_insert_eq].
      exists px. rewrite lookup_insert_ne; [done |]. intros <-. rewrite Hc in Hx. by injection Hx as <-.
    + intros [? | (px & [[<- <-] | [Hx1 Hx]]%lookup_insert_Some & Hpx)]; [by left; left | by right | left; right; eauto].
  - intros x Hx. rewrite lookup_insert_ne; [by apply Ho |]. intros <-. rewrite (Ho ref Hx) in Hc. done.
  - intros x t [[<- [= <-]] | [Hx1 Hx]]%lookup_insert_Some; [by exists F, []; rewrite Hins |].
    destruct (Hp x t Hx) as (F1 & F2 & -> & Ht). exists F1, (F2 ++ [ref]). by rewrite <- app_assoc.
  - intros H0. destruct (Hfi H0) as [E Hns]. split; [done |].
    intros x [[_ ?] | [_ Hx]]%lookup_insert_Some; [done | by apply (Hns x)].
  - rewrite elem_of_app. destruct Hr; [by left | right; by left].
  - intros x [[_ ?] | [_ Hx]]%lookup_insert_Some; [done | by apply (Hd x)].
Qed.

(** The store to the link of the predecessor, if there is one. *)
Lemma ref_inv_set_next F s ref t h' :
  inv F s -> calls s !! ref = Some (SetNext t) ->
  (if negb (t =? NULL) then exists x, hp s !! t = Some x /\ h' = <[t := set_next x ref]> (hp s) else h' = hp s) ->
  inv F (mkState h' (queue s) (<[ref := Check]> (calls s))).
Proof.
  intros Hinv Hc Hh. pose proof Hinv as [Hnd Hnn _ Hl Hw _ _ Hp Hfi _ _].
  destruct (Hp ref t Hc) as (G1 & G2 & EF & Ht).
  assert (forall F1 x F2, F = F1 ++ x :: F2 -> hd NULL F2 <> ref ->
    hp s !! x = Some (mkRef (match F2 with [] => NULL | y :: _ => if unlinked (<[ref := Check]> (calls s)) y then NULL else y end)
                       (val x).1 (val x).2)) as Hsame.
  { intros F1 x F2 E Hne. rewrite (Hl F1 x F2 E). destruct F2 as [| y F2]; [done |]. rewrite unlinked_ne; [done |]. by intros ->. }
  assert (forall F1 x F2, F = F1 ++ x :: F2 -> hd NULL F2 = ref -> ref <> NULL -> F1 ++ [x] = G1) as Hpred.
  { intros F1 x F2 E Ehd Hrn. destruct F2 as [| y F2]; [done |]. cbn in Ehd. subst y.
    replace (F1 ++ x :: ref :: F2) with ((F1 ++ [x]) ++ ref :: F2) in E by (by rewrite <- app_assoc).
    rewrite E in EF, Hnd. by destruct (split_unique _ _ _ _ _ Hnd EF). }
  assert (ref <> NULL) as Hrn by (intros ->; apply Hnn; rewrite EF; apply elem_of_app; right; by left).
  destruct (Z.eqb_spec t NULL) as [Et | Et]; cbn [negb] in Hh.
  - subst h'. assert (G1 = []) as HG.
    { destruct G1 as [| z G1 _] using rev_ind; [done |]. rewrite last_last in Ht. destruct Hnn.
      rewrite EF, <- Et, <- Ht. apply elem_of_app. left. apply elem_of_app. right. by left. }
    apply (ref_inv_move F s ref (SetNext t)); try done; [| by left].
    intros F1 x F2 E. apply (Hsame F1 x F2 E). intros Ehd. specialize (Hpred F1 x F2 E Ehd Hrn). rewrite HG in Hpred.
    by destruct F1.
  - destruct Hh as (x & Hx & ->). destruct G1 as [| z G1 _] using rev_ind; [done |]. rewrite last_last in Ht. subst z.
    assert (t ∈ F) as HtF by (rewrite EF; apply elem_of_app; left; apply elem_of_app; right; by left).
    apply (ref_inv_move F s ref (SetNext t)); try done; [| | by left].
    + intros F1 y F2 E. destruct (decide (y = t)) as [-> | Hne].
      * rewrite lookup_insert_eq. replace (F1 ++ t :: F2) with (F1 ++ t :: F2) in E by done.
        rewrite EF, <- app_assoc in E. cbn [app] in E. rewrite EF, <- app_assoc in Hnd. cbn [app] in Hnd.
        destruct (split_unique _ _ _ _ _ Hnd E) as [-> <-].
        pose proof (Hl F1 t (ref :: G2)) as Hlt. rewrite EF, <- app_assoc in Hlt. specialize (Hlt eq_refl).
        rewrite Hx in Hlt. injection Hlt as ->. unfold unlinked. by rewrite lookup_insert_eq.
      * rewrite lookup_insert_ne by done. apply (Hsame F1 y F2 E). intros Ehd.
        specialize (Hpred F1 y F2 E Ehd Hrn). by apply app_inj_tail in Hpred as [_ ->].
    + intros y py Hy Hpy. rewrite lookup_insert_ne; [done |]. intros <-. by destruct (Hw t py Hy Hpy).
Qed.

Lemma ref_inv_call F s ref p h' q' p' :
  inv F s -> calls s !! ref = Some p -> call_step (hp s) (queue s) ref p = Some (h', q', p') ->
  inv (F ++ if exchanges (queue s) p then [ref] else []) (mkState h' q' (<[ref := p']> (calls s))).
Proof.
  intros Hinv Hc Hst. destruct p as [| t | t | | |]; simpl in Hst; simplify_eq; cbn [exchanges]; rewrite ?app_nil_r.
  - apply (ref_inv_quiet F s ref Load); try done. by left.
  - destruct (Z.eqb_spec (_insert_end (queue s)) t) as [<- | Hne]; simplify_eq; [by apply ref_inv_enter |].
    rewrite app_nil_r. apply (ref_inv_quiet F s ref (Cas t)); try done. by left.
  - assert (p' = Check /\ q' = queue s /\ if negb (t =? NULL)
      then exists x, hp s !! t = Some x /\ h' = <[t := set_next x ref]> (hp s) else h' = hp s) as (-> & -> & Hh).
    { destruct (negb (t =? NULL)); [| by simplify_eq].
      destruct (hp s !! t) as [x |] eqn:Hx; simplify_eq/=. split; [done |]. split; [done |]. by exists x. }
    by apply (ref_inv_set_next F s ref t).
  - apply (ref_inv_quiet F s ref Check); try done; [by case_match | by case_match | | by left |].
    + intros H0. split; [done |]. destruct (i_first _ _ Hinv H0) as [E _].
      destruct (Z.eqb_spec (_remove_end (queue s)) NULL) as [E' |]; [| done].
      assert (hd NULL l0 ∈ l0) as Hin by (destruct l0; [done | by left]). intros _. apply (i_null _ _ Hinv).
      rewrite <- E', E. apply (i_from _ _ Hinv). by left.
    + by destruct (Z.eqb_spec (_remove_end (queue s)) NULL).
  - assert (ref ∈ F) as HrF by (apply (i_from _ _ Hinv); right; by eexists).
    apply (ref_inv_quiet F s ref SetRemove); try done.
    + intros H0. by destruct (proj2 (i_first _ _ Hinv H0) ref).
    + by right.
    + intros _. cbn. intros ->. by apply (i_null _ _ Hinv).
Qed.

Lemma ref_inv_trace F L s s' : inv F s -> trace L s s' -> inv (F ++ L) s'.
Proof.
  intros Hinv Htr. revert F Hinv. induction Htr as [s | s ref p h' q' p' L s' Hc Hst _ IH]; intros F Hinv.
  - by rewrite app_nil_r.
  - rewrite app_assoc. apply IH. by apply ref_inv_call.
Qed.

End Race.

(** ** The race *)

(** [Ref]s that are constructed and in no queue. *)
Definition fresh_refs (val : Z -> Z * Z) (h : heap) (l0 refs : list Z) : Prop :=
  NoDup refs /\ forall r, r ∈ refs -> (r ∉ l0) /\ r <> NULL /\ h !! r = Some (new_Ref (val r).1 (val r).2).

Lemma ref_chain_split val h F1 x F2 :
  chain h (F1 ++ x :: F2) (val <$> (F1 ++ x :: F2)) -> h !! x = Some (mkRef (hd NULL F2) (val x).1 (val x).2).
Proof.
  induction F1 as [| y F1 IH]; cbn [app chain fmap list_fmap].
  - destruct (val x) as [obj r] eqn:E. intros [H _]. by rewrite H.
  - destruct (val y). intros [_ H]. by apply IH.
Qed.

Lemma ref_inv_start val h q l0 refs :
  repr h q l0 (val <$> l0) -> fresh_refs val h l0 refs -> inv val l0 l0 (initial h q refs).
Proof.
  intros [Hnd Hnn Hc Hr Hi] [Hndr Href]. split; cbn [hp queue calls initial]; try done.
  - intros F1 x F2 E. rewrite E in Hc. rewrite (ref_chain_split val h F1 x F2 Hc). destruct F2 as [| y F2]; [done |].
    unfold unlinked. destruct (_ !! y) as [p |] eqn:Ey; [| done]. by apply list_to_map_const in Ey as [-> _].
  - intros x p Hx _. apply list_to_map_const in Hx as [_ Hx]; [| done]. by apply Href.
  - intros x. split; [by left |]. intros [? | (p & Hx & Hp)]; [done |]. by apply list_to_map_const in Hx as [-> _].
  - intros x Hx. destruct (_ !! x) as [p |] eqn:Ex; [| done]. apply list_to_map_const in Ex as [_ Ex]; [| done].
    by destruct (Href x Ex).
  - intros x t Hx. by apply list_to_map_const in Hx as [? _].
  - intros _. split; [done |]. intros x Hx. by apply list_to_map_const in Hx as [? _].
  - rewrite Hr. destruct l0 as [| x l]; [by left | right; by left].
  - intros x Hx. by apply list_to_map_const in Hx as [? _].
Qed.

(** When every call has returned the links are those of the list, from any element on. *)
Lemma ref_done_chain val l0 F s F1 F2 :
  inv val l0 F s -> done s -> F = F1 ++ F2 -> chain (hp s) F2 (val <$> F2).
Proof.
  intros Hinv Hd. revert F1. induction F2 as [| x F2 IH]; intros F1 E; [done |]. cbn [fmap list_fmap chain].
  rewrite (i_links _ _ _ _ Hinv F1 x F2 E). destruct (val x) as [obj r]. split.
  - destruct F2 as [| y F2]; [done |]. unfold unlinked. destruct (calls s !! y) as [p |] eqn:Ey; [| done].
    by rewrite (Hd y p Ey).
  - apply (IH (F1 ++ [x])). by rewrite <- app_assoc.
Qed.

Lemma ref_trace_dom L s s' x : trace L s s' -> is_Some (calls s' !! x) <-> is_Some (calls s !! x).
Proof.
  induction 1 as [s | s ref p h' q' p' L s' Hc _ _ IH]; [done |]. rewrite IH. cbn [calls].
  destruct (decide (ref = x)) as [<- | Hne]; [rewrite lookup_insert_eq, Hc; by split; eauto | by rewrite lookup_insert_ne].
Qed.

Lemma ref_entered_all val l0 refs L s :
  inv val l0 (l0 ++ L) s -> done s -> NoDup refs -> (forall r, r ∈ refs -> r ∉ l0) ->
  (forall x, is_Some (calls s !! x) <-> x ∈ refs) -> L ≡ₚ refs.
Proof.
  intros Hinv Hd Hnd Hr Hdom. pose proof (i_nodup _ _ _ _ Hinv) as Hn. apply NoDup_app in Hn as (_ & Hdis & HnL).
  apply NoDup_Permutation; [done | done |]. intros x. split.
  - intros Hx. assert (x ∈ l0 ++ L) as HxF by (apply elem_of_app; by right).
    apply (i_from _ _ _ _ Hinv) in HxF as [Hx0 | (p & Hp & _)]; [by destruct (Hdis x Hx0) |]. apply Hdom. eauto.
  - intros Hx. destruct (proj2 (Hdom x) Hx) as [p Hp]. assert (x ∈ l0 ++ L) as HxF.
    { apply (i_from _ _ _ _ Hinv). right. exists p. split; [done |]. by rewrite (Hd x p Hp). }
    apply elem_of_app in HxF as [Hx0 |]; [| done]. by destruct (Hr x Hx).
Qed.

(** C40. Racing insertions, in any interleaving.  When all calls have returned, all [Ref]s have made
    their exchange once.  A queue that was not empty keeps its elements and has the new ones behind
    them, in the order of the exchanges.  A queue that was empty holds the [Ref]s from
    some element of that order on, correctly linked: those whose exchanges came before are
    lost ([refqueue_race_loses] is a run in which there are some). *)
Theorem refqueue_race (val : Z -> Z * Z) (h : heap) (q : RefQueue) (l0 refs L : list Z) (s : state)
    (Hq : repr h q l0 (val <$> l0)) (Hfresh : fresh_refs val h l0 refs)
    (Hrun : trace L (initial h q refs) s) (Hdone : done s) :
  L ≡ₚ refs
  /\ (l0 <> [] -> repr (hp s) (queue s) (l0 ++ L) (val <$> l0 ++ L))
  /\ (l0 = [] -> refs <> [] ->
      exists lost x kept, L = lost ++ x :: kept /\ repr (hp s) (queue s) (x :: kept) (val <$> x :: kept)).
Proof.
  pose proof (ref_inv_trace val l0 _ _ _ _ (ref_inv_start val h q l0 refs Hq Hfresh) Hrun) as Hinv.
  destruct Hfresh as [Hnd Href].
  assert (L ≡ₚ refs) as HL.
  { apply (ref_entered_all val l0 refs L s Hinv Hdone Hnd); [intros r Hr; by apply Href |]. intros x.
    rewrite (ref_trace_dom _ _ _ x Hrun). cbn [calls initial]. split.
    - intros [p Hp]. by apply list_to_map_const in Hp as [_ ?].
    - intros Hx. exists Load. by apply list_to_map_const. }
  pose proof Hinv as [Hn Hnn Hins _ _ _ _ _ Hfi Hrm Hdn]. split; [done |]. split.
  - intros H0. split; [done | done | by apply (ref_done_chain val l0 (l0 ++ L) s []) | | done].
    rewrite (proj1 (Hfi H0)). by destruct l0.
  - intros -> Hne. cbn [app] in *. destruct refs as [| r refs]; [done |].
    assert (r ∈ L) as Hr by (rewrite HL; by left).
    assert (calls s !! r = Some Done) as Hrd.
    { apply (i_from _ _ _ _ Hinv) in Hr as [Hr | (p & Hp & _)]; [by apply elem_of_nil in Hr |]. by rewrite (Hdone r p Hp) in Hp. }
    destruct Hrm as [E | Hin]; [by destruct (Hdn r Hrd) |].
    apply list_elem_of_split in Hin as (lost & kept & E). exists lost, (_remove_end (queue s)), kept. split; [done |].
    split.
    + rewrite E in Hn. by apply NoDup_app in Hn as (_ & _ & ?).
    + intros Hk. apply Hnn. rewrite E. apply elem_of_app. by right.
    + by apply (ref_done_chain val [] L s lost).
    + done.
    + rewrite Hins. rewrite E at 1. clear. induction lost as [| y lost IH]; [done |]. cbn [app]. rewrite <- IH. by destruct lost.
Qed.

(** ** Runs by schedules *)

Fixpoint run (sched : list Z) (s : state) : option state :=
  match sched with
  | [] => Some s
  | ref :: sched =>
      p ← calls s !! ref;
      x ← call_step (hp s) (queue s) ref p;
      run sched (mkState x.1.1 x.1.2 (<[ref := x.2]> (calls s)))
  end.

(** What [dequeue] would return, call after call. *)
Fixpoint drain (fuel : nat) (h : heap) (q : RefQueue) : list Z :=
  match fuel with
  | O => []
  | S f =>
      match dequeue q h with
      | Some ((a, q'), h') => if a =? NULL then [] else a :: drain f h' q'
      | None => []
      end
  end.

(** The [Ref]s in the order in which a run exchanges them. *)
Fixpoint entered (sched : list Z) (s : state) : list Z :=
  match sched with
  | [] => []
  | ref :: sched =>
      match calls s !! ref with
      | Some p =>
          match call_step (hp s) (queue s) ref p with
          | Some x =>
              (if exchanges (queue s) p then [ref] else []) ++
              entered sched (mkState x.1.1 x.1.2 (<[ref := x.2]> (calls s)))
          | None => []
          end
      | None => []
      end
  end.

Lemma refs_run_trace sched s s' : run sched s = Some s' -> trace (entered sched s) s s'.
Proof.
  revert s. induction sched as [| ref sched IH]; intros s H; simpl in H |- *; simplify_eq; [constructor |].
  destruct (calls s !! ref) as [p |] eqn:Hp; simplify_eq/=.
  destruct (call_step (hp s) (queue s) ref p) as [[[h' q'] p'] |] eqn:Hs; simplify_eq/=.
  eapply trace_cons; [done | done | by apply IH].
Qed.

(** Two calls, for the [Ref]s at 64 and 128, on an empty queue. *)
Definition race_heap : heap := <[64 := new_Ref 7 1]> (<[128 := new_Ref 9 1]> ∅).
Definition race_val (x : Z) : Z * Z := if x =? 64 then (7, 1) else (9, 1).
Definition race_sched : list Z := [64; 64; 128; 128; 128; 128; 128; 64; 64].
Definition race_end : state := default (initial race_heap create []) (run race_sched (initial race_heap create [64; 128])).

(** The call for 64 makes its exchange first, the call for 128 runs to its end and, finding
    [_remove_end] still NULL, makes itself the first element; both calls return and the
    removals yield 128 only. *)
Example refqueue_race_loses :
  calls race_end = <[64 := Done]> (<[128 := Done]> ∅) /\ drain 10 (hp race_end) (queue race_end) = [128].
Proof. split; vm_compute; reflexivity. Qed.

Lemma refqueue_race_witness :
  exists lost x kept, [64; 128] = lost ++ x :: kept /\
    repr (hp race_end) (queue race_end) (x :: kept) (race_val <$> x :: kept).
Proof.
  destruct (refqueue_race race_val race_heap create [] [64; 128] [64; 128] race_end) as (_ & _ & H).
  - split; try done; [constructor | by intros ?%elem_of_nil].
  - split; [decide_now |]. intros r Hr. rewrite !elem_of_cons, elem_of_nil in Hr.
    split; [by intros ?%elem_of_nil |]. destruct Hr as [-> | [-> | []]]; (split; [done |]); reflexivity.
  - assert (run race_sched (initial race_heap create [64; 128]) = Some race_end) as E by (vm_compute; reflexivity).
    apply refs_run_trace in E. vm_compute in E |- *. exact E.
  - intros ref p Hp. change (calls race_end) with (<[64 := Done]> (<[128 := Done]> ∅) : gmap Z pc) in Hp.
    apply lookup_insert_Some in Hp as [[_ <-] | [_ Hp]]; [reflexivity |].
    apply lookup_insert_Some in Hp as [[_ <-] | [_ Hp]]; [reflexivity |]. rewrite lookup_empty in Hp. discriminate Hp.
  - apply H; [reflexivity | discriminate].
Defined.

End RefQueuePar.
