(* ===== verification/BDARegion.v ===== *)
(** * Region identifiers

    [bda/bdaGlobals.hpp] and [bda/bdaGlobals.cpp], [class BDARegion]: a 32-bit
    identifier of the space an object belongs to.  Identifier 1 is the space of
    general objects; the class with number [k], from 1, has the identifier [2^k]
    for its containers and [2^k | 1] for their elements.

    The identifiers live in one array of the C heap, and the collector passes
    pointers into that array.  A pointer is its address; the array is a [table]. *)

From Stdlib Require Import ZArith Lia String.
From stdpp Require Import base numbers strings list.
From S2P Require Import Prelude GlobalDefs.

Local Open Scope Z_scope.

Module BDARegion.

Definition region_shift : Z := 1.
Definition no_region : Z := 0.
Definition region_start : Z := 1.
Definition other_mask : Z := 1.
Definition container_mask : Z := u64 (Z.shiftl 1 63 - 2).
Definition badheap_mask : Z := u32 (Z.shiftl 1 32 - 1).
Definition badHeapWord : Z := 0xBAADBABE.

Inductive BDAType : Set := other | container | element.

#[export] Instance BDAType_eq_dec : EqDecision BDAType.
Proof. solve_decision. Defined.

(** [bool operator==(const BDARegion& comp)] *)
Definition eq_region (v w : Z) : bool := v =? w.

(** The member [mask_out_element], which has no exception for [region_start]. *)
Definition mask_out (value : Z) : Z := u32 (Z.land value container_mask).

(** The static [mask_out_element]. *)
Definition mask_out_element (value : Z) : Z :=
  if negb (value =? region_start) then u32 (Z.land value container_mask)
  else region_start.

Definition set_element (value : Z) : Z := Z.lor value 1.

Definition get_bda_type (value : Z) : BDAType :=
  if negb (Z.land value other_mask =? 0) && negb (Z.land value container_mask =? 0)
  then element
  else if negb (Z.land value other_mask =? 0) then other
  else container.

Definition space_id (value : Z) : Z := log2_intptr value + 1.

Definition is_null_region (value : Z) : bool := value =? no_region.

Definition is_element (v : Z) : bool := Z.land v (not64 container_mask) =? region_start.

Definition is_bad_region (v : Z) : bool :=
  (Z.land v badheap_mask =? badHeapWord) || (v =? 0).

(** [toString] switches on the type constants, so it names the identifiers 1, 2
    and 3 only. *)
Definition toString (value : Z) : string :=
  if value =? 1 then "General Object"
  else if value =? 2 then "Container Object"
  else if value =? 3 then "Element Object"
  else "[No Region Assigned]".

(** ** Pointers into the array of identifiers *)

(** [sizeof(BDARegion)] *)
Definition region_bytes : Z := 4.

(** An array of [BDARegion] at the address [data]. *)
Record table := mkTable { data : Z; cells : list Z }.

(** [&_region_data[idx]] *)
Definition elem_addr (t : table) (idx : Z) : Z := data t + idx * region_bytes.

(** [v->value()]; [None] when [v] does not point to an element of the array. *)
Definition value_at (t : table) (v : Z) : option Z :=
  if (data t <=? v) && ((v - data t) mod region_bytes =? 0)
  then cells t !! Z.to_nat ((v - data t) / region_bytes) else None.

(** The two static limits of the array. *)
Record limits := mkLimits { region_start_addr : Z; region_end_addr : Z }.

Definition is_bad_region_ptr (l : limits) (ptr : Z) : bool :=
  (ptr <? region_start_addr l) || (ptr >? region_end_addr l).

Definition is_valid (l : limits) (v : Z) : bool :=
  negb (is_bad_region_ptr l v) && negb (v =? region_start_addr l).

(** [KlassRegionMap::no_region_ptr], [region_start_ptr] *)
Definition no_region_ptr (t : table) : Z := elem_addr t 0.
Definition region_start_ptr (t : table) : Z := elem_addr t 1.

Definition space_id_ptr (l : limits) (t : table) (v : Z) : option Z :=
  if is_bad_region_ptr l v then Some 0
  else value ← value_at t v; Some (log2_intptr value + 1).

Definition mask_out_element_ptr (l : limits) (t : table) (v : Z) : option Z :=
  if is_bad_region_ptr l v then Some (region_start_ptr t)
  else
    value ← value_at t v;
    let idx := log2_intptr value in
    if is_odd idx && (idx >? 2) then Some (v - region_bytes) else Some v.

(** ** The array of [n] classes *)

(** The identifiers of class [k]: container, then element. *)
Definition class_cells (k : Z) : list Z := [2 ^ k; 2 ^ k + 1].

(** The array for [n] classes, as the constructor of [KlassRegionMap] lays it out. *)
Definition layout (n : nat) : list Z :=
  [no_region; region_start] ++ (zseq 1 n ≫= class_cells).

Definition laid_out (n : nat) (l : limits) (t : table) : Prop :=
  cells t = layout n /\ 0 < data t
  /\ region_start_addr l = data t
  /\ region_end_addr l = elem_addr t (2 * Z.of_nat n + 1).

#[export] Instance laid_out_dec n l t : Decision (laid_out n l t).
Proof. unfold laid_out. apply _. Defined.

Lemma length_layout n : length (layout n) = (2 * n + 2)%nat.
Proof.
  unfold layout. rewrite length_app.
  assert (H : forall i, length (zseq i n ≫= class_cells) = (2 * n)%nat).
  { induction n as [|n IH]; intros i; [done|].
    cbn [zseq]. rewrite bind_cons, length_app, IH. simpl. lia. }
  rewrite H. simpl. lia.
Qed.

Lemma lookup_classes i n k b :
  (k < n)%nat -> (b < 2)%nat ->
  (zseq i n ≫= class_cells) !! (2 * k + b)%nat = Some (2 ^ (i + Z.of_nat k) + Z.of_nat b).
Proof.
  revert i k. induction n as [|n IH]; intros i k Hk Hb; [lia|].
  cbn [zseq]. rewrite bind_cons.
  destruct k as [|k].
  - rewrite lookup_app_l by (simpl; lia).
    replace (i + Z.of_nat 0) with i by lia.
    destruct b as [|[|b]]; [|done|lia]. simpl. f_equal. lia.
  - rewrite lookup_app_r by (simpl; lia). simpl length.
    replace (2 * S k + b - 2)%nat with (2 * k + b)%nat by lia.
    rewrite IH by lia. do 3 f_equal. lia.
Qed.

Lemma lookup_layout n k b :
  (1 <= k <= n)%nat -> (b < 2)%nat ->
  layout n !! (2 * k + b)%nat = Some (2 ^ Z.of_nat k + Z.of_nat b).
Proof.
  intros Hk Hb. unfold layout. rewrite lookup_app_r by (simpl; lia). simpl length.
  replace (2 * k + b - 2)%nat with (2 * (k - 1) + b)%nat by lia.
  rewrite lookup_classes by lia. do 3 f_equal. lia.
Qed.

Lemma value_at_elem t i v :
  cells t !! i = Some v -> value_at t (elem_addr t (Z.of_nat i)) = Some v.
Proof.
  intros H. unfold value_at, elem_addr, region_bytes.
  replace (data t + Z.of_nat i * 4 - data t) with (Z.of_nat i * 4) by lia.
  rewrite Z.mod_mul, Z.div_mul, Nat2Z.id by lia.
  replace (data t <=? data t + Z.of_nat i * 4) with true by (symmetry; apply Z.leb_le; lia).
  done.
Qed.

Lemma log2_class k b : (k <= 31)%nat -> (b < 2)%nat -> (1 <= k)%nat ->
  log2_intptr (2 ^ Z.of_nat k + Z.of_nat b) = Z.of_nat k.
Proof.
  intros Hk Hb H1.
  assert (2 ^ 1 <= 2 ^ Z.of_nat k <= 2 ^ 31) by (split; apply Z.pow_le_mono_r; lia).
  rewrite log2_intptr_pos by lia.
  apply Z.log2_unique; [lia|]. rewrite Z.pow_succ_r by lia. lia.
Qed.

(** ** Decoding of identifiers *)

(** Every identifier of the array but the first fits its 32 bits. *)
Lemma class_range k b : (1 <= k <= 31)%nat -> (b < 2)%nat ->
  0 < 2 ^ Z.of_nat k + Z.of_nat b < 2 ^ 32.
Proof.
  intros Hk Hb.
  assert (2 ^ 1 <= 2 ^ Z.of_nat k <= 2 ^ 31) by (split; apply Z.pow_le_mono_r; lia). lia.
Qed.

Lemma testbit_class k b i : (1 <= k)%nat -> (b < 2)%nat -> 0 <= i ->
  Z.testbit (2 ^ Z.of_nat k + Z.of_nat b) i
  = ((i =? Z.of_nat k) || ((i =? 0) && (b =? 1)%nat)).
Proof.
  intros Hk Hb Hi.
  assert (E : 2 ^ Z.of_nat k + Z.of_nat b = Z.lor (2 ^ Z.of_nat k) (Z.of_nat b)).
  { assert (L : Z.land (2 ^ Z.of_nat k) (Z.of_nat b) = 0).
    { destruct b as [|[|b]]; [by rewrite Z.land_0_r| |lia].
      bits j. change (Z.of_nat 1) with (2 ^ 0).
      rewrite Z.bits_0, !testbit_pow2 by lia. case_cmp; lia. }
    by rewrite Z.add_nocarry_lxor, Z.lxor_lor by done. }
  rewrite E, Z.lor_spec, testbit_pow2 by lia. f_equal.
  destruct b as [|[|b]]; [..|lia].
  - by rewrite Z.bits_0, andb_false_r.
  - change (Z.of_nat 1) with (2 ^ 0). rewrite testbit_pow2 by lia. by rewrite andb_true_r.
Qed.

Lemma land_1 v : Z.land v 1 = v mod 2.
Proof. change 1 with (Z.ones 1) at 1. by rewrite Z.land_ones by lia. Qed.

Lemma class_mod_2 k b : (1 <= k)%nat -> (b < 2)%nat ->
  (2 ^ Z.of_nat k + Z.of_nat b) mod 2 = Z.of_nat b.
Proof.
  intros Hk Hb. replace (Z.of_nat k) with (Z.succ (Z.of_nat (k - 1))) by lia.
  rewrite Z.pow_succ_r by lia. lia.
Qed.

Lemma lor_class k : (1 <= k)%nat -> Z.lor (2 ^ Z.of_nat k) 1 = 2 ^ Z.of_nat k + 1.
Proof.
  intros Hk. apply Z.bits_inj'; intros i Hi. rewrite Z.lor_spec.
  change (2 ^ Z.of_nat k + 1) with (2 ^ Z.of_nat k + Z.of_nat 1).
  rewrite testbit_class, testbit_pow2 by lia.
  change 1 with (2 ^ 0). rewrite testbit_pow2 by lia. by rewrite andb_true_r.
Qed.

Lemma class_land_container k b : (1 <= k <= 31)%nat -> (b < 2)%nat ->
  Z.land (2 ^ Z.of_nat k + Z.of_nat b) container_mask = 2 ^ Z.of_nat k.
Proof.
  intros Hk Hb. change container_mask with (Z.shiftl (Z.ones 62) 1).
  apply Z.bits_inj'; intros i Hi.
  rewrite Z.land_spec, testbit_class, testbit_pow2, Z.shiftl_spec by lia.
  destruct (Z.eqb_spec i (Z.of_nat k)) as [->|Hne]; simpl.
  - by rewrite Z.ones_spec_low by lia.
  - destruct (Z.eqb_spec i 0) as [->|]; [|done]. simpl. by rewrite andb_false_r.
Qed.

(** The operations on identifiers decode what the identifiers encode.  For
    the container ([b = 0]) and the element ([b = 1]) of each class that a 32-bit
    identifier can number: the type is the encoded one, masking the element bit
    gives the identifier of the container, setting it that of the element, and the
    number of the space is one more than that of the class.  The identifier of
    general objects is of type [other], masking leaves it, and it is in space 1. *)
Theorem region_codec (k b : nat) (Hk : (1 <= k <= 31)%nat) (Hb : (b < 2)%nat) :
  let v := 2 ^ Z.of_nat k + Z.of_nat b in
  get_bda_type v = (if (b =? 1)%nat then element else container)
  /\ is_element v = (b =? 1)%nat
  /\ mask_out v = 2 ^ Z.of_nat k
  /\ mask_out_element v = 2 ^ Z.of_nat k
  /\ set_element v = 2 ^ Z.of_nat k + 1
  /\ space_id v = Z.of_nat k + 1
  /\ is_null_region v = false
  /\ get_bda_type region_start = other
  /\ mask_out_element region_start = region_start
  /\ mask_out region_start = no_region
  /\ space_id region_start = 1.
Proof.
  pose proof (class_range k b Hk Hb) as Hr. pose proof (class_range k 0 Hk ltac:(lia)).
  cbv zeta. unfold get_bda_type, is_element, mask_out, mask_out_element, set_element,
    space_id, is_null_region, other_mask.
  assert (Hne : (2 ^ Z.of_nat k + Z.of_nat b =? region_start) = false).
  { apply Z.eqb_neq. unfold region_start.
    assert (2 ^ 1 <= 2 ^ Z.of_nat k) by (apply Z.pow_le_mono_r; lia). lia. }
  rewrite Hne, class_land_container, log2_class, land_1, class_mod_2 by lia. simpl negb.
  rewrite wrap_small by lia.
  assert ((2 ^ Z.of_nat k =? 0) = false) as -> by (apply Z.eqb_neq; lia).
  rewrite andb_true_r. split_and!; try reflexivity; try lia.
  - destruct b as [|[|b]]; [done..|lia].
  - change (not64 container_mask) with (Z.lor (2 ^ 63) 1).
    rewrite Z.land_lor_distr_r, land_1, class_mod_2 by lia.
    replace (Z.land _ (2 ^ 63)) with 0; [destruct b as [|[|b]]; [done..|lia]|].
    symmetry. apply Z.bits_inj'; intros i Hi.
    rewrite Z.land_spec, Z.bits_0, testbit_class, testbit_pow2 by lia. case_cmp; lia.
  - apply Z.bits_inj'; intros i Hi. rewrite Z.lor_spec.
    change (2 ^ Z.of_nat k + 1) with (2 ^ Z.of_nat k + Z.of_nat 1).
    rewrite !testbit_class by lia. change 1 with (2 ^ 0) at 1. rewrite testbit_pow2 by lia.
    simpl (1 =? 1)%nat. destruct b as [|[|b]]; case_cmp; lia.
  - unfold no_region. apply Z.eqb_neq. lia.
Qed.

(** The element of class 3. *)
Lemma region_codec_witness : mask_out_element 9 = 8 /\ get_bda_type 9 = element.
Proof.
  pose proof (region_codec 3 1 ltac:(lia) ltac:(lia)) as (H1 & _ & _ & H2 & _).
  split; [exact H2 | exact H1].
Defined.

(** ** Masking through pointers *)

(** The address of the container ([b = 0]) or element ([b = 1]) of class [k]. *)
Definition class_ptr (t : table) (k b : nat) : Z := elem_addr t (Z.of_nat (2 * k + b)).

Lemma class_ptr_good n l t k b :
  laid_out n l t -> (1 <= k <= n)%nat -> (b < 2)%nat ->
  is_bad_region_ptr l (class_ptr t k b) = false
  /\ value_at t (class_ptr t k b) = Some (2 ^ Z.of_nat k + Z.of_nat b).
Proof.
  intros (Hc & Hp & Hs & He) Hk Hb. split.
  - unfold is_bad_region_ptr, class_ptr. rewrite Hs, He.
    unfold elem_addr, region_bytes. rewrite Z.gtb_ltb. case_cmp; lia.
  - apply value_at_elem. rewrite Hc. by apply lookup_layout.
Qed.

Lemma mask_out_element_ptr_class n l t k b :
  laid_out n l t -> (n <= 31)%nat -> (1 <= k <= n)%nat -> (b < 2)%nat ->
  mask_out_element_ptr l t (class_ptr t k b)
  = Some (class_ptr t k b - (if Z.odd (Z.of_nat k) && (2 <? k)%nat then region_bytes else 0)).
Proof.
  intros Hl Hn Hk Hb. destruct (class_ptr_good n l t k b Hl Hk Hb) as [E1 E2].
  unfold mask_out_element_ptr. rewrite E1, E2. simpl.
  rewrite log2_class, is_odd_spec by lia.
  destruct (Z.odd (Z.of_nat k)); simpl; [|f_equal; lia].
  destruct (Nat.ltb_spec 2 k); destruct (Z.gtb_spec (Z.of_nat k) 2); try lia.
  all: f_equal; lia.
Qed.

(** C39. The pointer version of [mask_out_element] tests the parity of the logarithm of
    the identifier, which is the number of the class, and not that of the position in
    the array.  So it returns the address of the container of the class for exactly
    these arguments: the containers of the classes that are even or at most 2, and
    the elements of the odd classes from 3 on.  A pointer outside the array gives
    the entry of general objects. *)
Theorem mask_out_element_ptr_right_iff (n : nat) (l : limits) (t : table) (k b : nat)
    (Hl : laid_out n l t) (Hn : (n <= 31)%nat) (Hk : (1 <= k <= n)%nat) (Hb : (b < 2)%nat) :
  (mask_out_element_ptr l t (class_ptr t k b) = Some (class_ptr t k 0)
   <-> (Z.odd (Z.of_nat k) && (2 <? k)%nat) = (b =? 1)%nat)
  /\ mask_out_element_ptr l t NULL = Some (region_start_ptr t).
Proof.
  split.
  - rewrite (mask_out_element_ptr_class n) by done.
    unfold class_ptr, elem_addr, region_bytes.
    destruct b as [|[|b]]; [..|lia]; destruct (Z.odd (Z.of_nat k) && (2 <? k)%nat); simpl;
      (split; [intros [= H]; first [done | lia] | intros H; first [discriminate | f_equal; lia]]).
  - destruct Hl as (_ & Hp & Hs & _).
    unfold mask_out_element_ptr, is_bad_region_ptr. rewrite Hs.
    replace (NULL <? data t) with true; [done|]. symmetry. apply Z.ltb_lt. unfold NULL. lia.
Qed.

(** Three classes: the pointer to the container of class 3 is taken to that of the
    element of class 2, and the pointer to the element of class 1 is left alone. *)
Lemma mask_out_element_ptr_right_iff_witness :
  let t := mkTable 4096 (layout 3) in
  let l := mkLimits 4096 (4096 + 7 * 4) in
  ~ mask_out_element_ptr l t (class_ptr t 3 0) = Some (class_ptr t 3 0)
  /\ ~ mask_out_element_ptr l t (class_ptr t 1 1) = Some (class_ptr t 1 0)
  /\ mask_out_element_ptr l t (class_ptr t 3 0) = Some (class_ptr t 2 1).
Proof.
  intros t l. assert (Hl : laid_out 3 l t) by decide_now.
  destruct (mask_out_element_ptr_right_iff 3 l t 3 0 Hl ltac:(lia) ltac:(lia) ltac:(lia)) as [H1 _].
  destruct (mask_out_element_ptr_right_iff 3 l t 1 1 Hl ltac:(lia) ltac:(lia) ltac:(lia)) as [H2 _].
  split_and!; [intros H; apply H1 in H; discriminate | intros H; apply H2 in H; discriminate |].
  vm_compute. reflexivity.
Defined.

End BDARegion.
