(* ===== verification/KlassRegionMap.v ===== *)
(** * The map from classes to regions

    [oops/klassRegionMap.hpp] and [oops/klassRegionMap.cpp]: the flag [BDAKlasses]
    lists the names of the classes whose instances get a space of their own;
    [KlassRegionMap] parses it, lays out the array of region identifiers, and keeps
    a hash table from loaded classes to regions.  The operations of
    [BasicHashtable] that it uses ([utilities/hashtable.hpp], [hashtable.inline.hpp])
    are modelled with each chain of a bucket as a list.

    A C string is the list of its characters before the terminator.  A write past
    the end of a buffer or of an array is undefined: [None]. *)

From Stdlib Require Import ZArith Lia String Ascii.
From stdpp Require Import base numbers strings gmap list.
From S2P Require Import Prelude GlobalDefs BDARegion.

Local Open Scope Z_scope.

Module KlassRegionMap.
Import BDARegion.

Abbreviation cstr := (list ascii).

(** A string literal. *)
Abbreviation str := list_ascii_of_string.

(** ** Parsing of the flag *)

Record KlassRegionEl := mkEl { klass_name : cstr; region_id : Z }.

#[export] Instance KlassRegionEl_eq_dec : EqDecision KlassRegionEl.
Proof. solve_decision. Defined.

Definition equals_name (name : cstr) (value : KlassRegionEl) : bool :=
  bool_decide (name = klass_name value).

(** [_next_region] and [_bda_class_names] while the flag is parsed. *)
Record parse_state := mkParse { _next_region : Z; _bda_class_names : list KlassRegionEl }.

(** [buffer[pos++] = c] for a buffer of [size] bytes, of which the first
    [pos] hold [buffer]. *)
Definition put (size : nat) (buffer : cstr) (c : ascii) : option cstr :=
  if decide (length buffer < size)%nat then Some (buffer ++ [c]) else None.

Definition NUL : ascii := "000"%char.

(** The loop of [parse_from_line]. *)
Fixpoint line_loop (line : cstr) (delimiter : option ascii) (buffer : cstr) : option cstr :=
  match line with
  | [] => Some buffer
  | c :: rest =>
    if decide (c = NUL) then Some buffer else
    let delimiter :=
      match delimiter with
      | Some d => Some d
      | None => if decide (c = "."%char) then Some "."%char
                else if decide (c = "/"%char) then Some "/"%char else None
      end in
    buffer ← put 64 buffer
      (if decide (c = "/"%char \/ c = "."%char) then default c delimiter else c);
    line_loop rest delimiter buffer
  end.

Definition parse_from_line (line : cstr) (s : parse_state) : option parse_state :=
  buffer ← line_loop line None [];
  if decide (length buffer <> 0%nat) then
    _ ← put 64 buffer NUL;
    let next := u32 (Z.shiftl (_next_region s) region_shift) in
    Some (mkParse next (_bda_class_names s ++ [mkEl buffer next]))
  else Some s.

(** The loop of [parse_from_string] and what follows it. *)
Fixpoint parse_from_string (line : cstr) (buffer : cstr) (s : parse_state) : option parse_state :=
  match line with
  | [] => _ ← put 256 buffer NUL; parse_from_line buffer s
  | c :: rest =>
    if decide (c = NUL) then _ ← put 256 buffer NUL; parse_from_line buffer s
    else if decide (c = ","%char) then
      _ ← put 256 buffer NUL;
      s ← parse_from_line buffer s;
      parse_from_string rest [] s
    else
      buffer ← put 256 buffer c;
      parse_from_string rest buffer s
  end.

(** ** The hash table *)

Record entry := mkEntry { e_hash : Z; e_klass : Z; e_literal : Z }.

#[export] Instance entry_eq_dec : EqDecision entry.
Proof. solve_decision. Defined.

(** The chains, by index; an absent index is an empty chain. *)
Record Hashtable := mkHashtable {
  _table_size : Z;
  _buckets : gmap Z (list entry);
  _number_of_entries : Z
}.

#[export] Instance Hashtable_eq_dec : EqDecision Hashtable.
Proof. solve_decision. Defined.

(** [BasicHashtable(int table_size, int entry_size)] *)
Definition new_Hashtable (table_size : Z) : Hashtable := mkHashtable table_size ∅ 0.

Definition hash_to_index (t : Hashtable) (full_hash : Z) : Z := full_hash mod _table_size t.

Definition bucket (t : Hashtable) (i : Z) : list entry := default [] (_buckets t !! i).

(** [BasicHashtable::add_entry]: the entry becomes the head of its chain. *)
Definition link_entry (t : Hashtable) (index : Z) (e : entry) : Hashtable :=
  mkHashtable (_table_size t) (<[index := e :: bucket t index]> (_buckets t))
    (i32 (_number_of_entries t + 1)).

(** The flags the hash of a class depends on. *)
Record config := mkConfig {
  UseCompressedClassPointers : bool;
  narrow_klass_base : Z;
  narrow_klass_shift : Z
}.

Definition encode_klass_not_null (g : config) (v : Z) : Z :=
  u32 (Z.shiftr (pointer_delta_sz v (narrow_klass_base g) 1) (narrow_klass_shift g)).

Definition compressed_ptr (g : config) (k : Z) : Z :=
  if UseCompressedClassPointers g then encode_klass_not_null g k
  else Z.land k 0xFFFFFFFF.

(** [KlassRegionHashtable::add_entry] *)
Definition table_add_entry (g : config) (t : Hashtable) (k region : Z) : Hashtable :=
  let h := compressed_ptr g k in
  link_entry t (hash_to_index t h) (mkEntry h k region).

(** The [while] loop of [get_region] from the entry [e] with successors [chain]: the
    first entry of [k], or the end of the chain. *)
Fixpoint chain_find (k : Z) (e : entry) (chain : list entry) : option entry :=
  if e_klass e =? k then Some e
  else match chain with [] => None | e' :: chain => chain_find k e' chain end.

(** [KlassRegionHashtable::get_region]; [region_elem] is the search for
    [region_start] in the array. *)
Definition get_region (g : config) (rt : table) (region_elem : option Z)
    (t : Hashtable) (k : Z) : option (Z * Hashtable) :=
  if _number_of_entries t =? 0 then Some (no_region_ptr rt, t)
  else
    match bucket t (hash_to_index t (compressed_ptr g k)) with
    | [] => r ← region_elem; Some (r, table_add_entry g t k r)
    | e :: [] => Some (e_literal e, t)
    | e :: chain =>
      match chain_find k e chain with
      | Some e => Some (e_literal e, t)
      | None => Some (region_start_ptr rt, table_add_entry g t k (region_start_ptr rt))
      end
    end.

(** ** The map *)

Record KlassRegionMap := mkMap {
  _class_names : list KlassRegionEl;
  _region_data : table;
  _region_data_sz : Z;
  _limits : limits;
  _region_map : option Hashtable
}.

Definition with_region_map (m : KlassRegionMap) (t : Hashtable) : KlassRegionMap :=
  mkMap (_class_names m) (_region_data m) (_region_data_sz m) (_limits m) (Some t).

(** [_region_data[idx] = v] *)
Definition set_cell (cs : list Z) (idx v : Z) : option (list Z) :=
  if (0 <=? idx) && (idx <? Z.of_nat (length cs)) then Some (<[Z.to_nat idx := v]> cs) else None.

(** The [for] loop of the constructor, for the [n] values of [j] left. *)
Fixpoint fill_loop (n : nat) (reg : Z) (cs : list Z) : option (list Z) :=
  match n with
  | O => Some cs
  | S n =>
    let reg := u32 (Z.shiftl reg region_shift) in
    let idx := log2_intptr reg * 2 in
    cs ← set_cell cs idx reg;
    cs ← set_cell cs (idx + 1) (Z.lor reg 1);
    fill_loop n reg cs
  end.

(** [KlassRegionMap()].  [addr] is the address of the new array and [junk] its
    contents before it is filled. *)
Definition new_KlassRegionMap (BDAKlasses : cstr) (addr : Z) (junk : Z -> Z)
    : option KlassRegionMap :=
  s ← parse_from_string BDAKlasses [] (mkParse region_start []);
  let n := length (_bda_class_names s) in
  let sz := 2 * Z.of_nat n + 2 in
  cs ← set_cell (junk <$> zseq 0 (Z.to_nat sz)) 0 no_region;
  cs ← set_cell cs 1 region_start;
  cs ← fill_loop n region_start cs;
  let t := mkTable addr cs in
  Some (mkMap (_bda_class_names s) t sz (mkLimits addr (elem_addr t (sz - 1)))
          (Some (new_Hashtable 4096))).

(** [region_elem]: the first element with the value [r]; the search has no bound
    of its own, so leaving the array is undefined. *)
Definition region_elem (m : KlassRegionMap) (r : Z) : option Z :=
  match list_find (r =.) (cells (_region_data m)) with
  | Some (i, _) => Some (elem_addr (_region_data m) (Z.of_nat i))
  | None => None
  end.

Definition last_region_ptr (m : KlassRegionMap) : Z :=
  elem_addr (_region_data m) (_region_data_sz m - 1).

Definition number_bdaregions (m : KlassRegionMap) : Z := Z.of_nat (length (_class_names m)).

(** A loaded class: its address, its external name, [super_depth()] and the names
    of its primary supers, [None] where the slot is [NULL]. *)
Record Klass := mkKlass {
  k_addr : Z;
  super_depth : nat;
  primary_supers : list (option cstr)
}.

Definition primary_super_limit : nat := 8.

Definition primary_super_of_depth (k : Klass) (i : nat) : option cstr :=
  default None (primary_supers k !! i).

(** [GrowableArray::find] with [equals_name] *)
Definition find_name (m : KlassRegionMap) (name : cstr) : Z :=
  match list_find (fun e => equals_name name e = true) (_class_names m) with
  | Some (i, _) => Z.of_nat i
  | None => -1
  end.

Definition is_bda_type (m : KlassRegionMap) (name : cstr) : bool := find_name m name >=? 0.

(** [bda_type], for a class with the external name [name]. *)
Definition bda_type (m : KlassRegionMap) (name : cstr) : option Z :=
  let i := find_name m name in
  el ← (if i <? 0 then None else _class_names m !! Z.to_nat i);
  let idx := log2_intptr (region_id el) * 2 in
  Some (elem_addr (_region_data m) idx).

Definition add_region_entry (g : config) (m : KlassRegionMap) (k r : Z) : option KlassRegionMap :=
  t ← _region_map m; Some (with_region_map m (table_add_entry g t k r)).

Definition add_other_entry (g : config) (m : KlassRegionMap) (k : Z) : option KlassRegionMap :=
  t ← _region_map m;
  Some (with_region_map m (table_add_entry g t k (region_start_ptr (_region_data m)))).

(** The [for] loop of [add_entry] from [index], [n] iterations before it ends. *)
Fixpoint add_entry_loop (g : config) (m : KlassRegionMap) (k : Klass) (n index : nat)
    : option KlassRegionMap :=
  match n with
  | O => add_other_entry g m (k_addr k)
  | S n =>
    if (index =? primary_super_limit)%nat then add_other_entry g m (k_addr k)
    else
      match primary_super_of_depth k index with
      | Some name =>
        if is_bda_type m name then
          region ← bda_type m name; add_region_entry g m (k_addr k) region
        else add_entry_loop g m k n (S index)
      | None => add_entry_loop g m k n (S index)
      end
  end.

Definition add_entry (g : config) (m : KlassRegionMap) (k : Klass) : option KlassRegionMap :=
  add_entry_loop g m k (S (super_depth k)) 0.

Definition region_for_klass (g : config) (m : KlassRegionMap) (k : Z)
    : option (Z * KlassRegionMap) :=
  match _region_map m with
  | Some t =>
    '(r, t) ← get_region g (_region_data m) (region_elem m region_start) t k;
    Some (r, with_region_map m t)
  | None => Some (NULL, m)
  end.

Definition is_bda_klass (g : config) (m : KlassRegionMap) (k : Z)
    : option (Z * KlassRegionMap) :=
  '(r, m) ← region_for_klass g m k;
  if negb (r =? no_region_ptr (_region_data m)) && negb (r =? region_start_ptr (_region_data m))
  then Some (r, m) else Some (NULL, m).

(** ** What the flag means *)

(** The pieces between the commas. *)
Fixpoint split_commas (line : cstr) (piece : cstr) : list cstr :=
  match line with
  | [] => [piece]
  | c :: rest => if decide (c = ","%char) then piece :: split_commas rest []
                 else split_commas rest (piece ++ [c])
  end.

Definition is_sep (c : ascii) : bool := bool_decide (c = "."%char \/ c = "/"%char).

(** A name with every separator replaced by its first one. *)
Definition one_sep (name : cstr) : cstr :=
  match filter (fun c => is_sep c = true) name with
  | [] => name
  | d :: _ => (fun c => if is_sep c then d else c) <$> name
  end.

(** The names a flag lists, empty ones left out. *)
Definition names_of (line : cstr) : list cstr :=
  filter (fun p => p <> []) (one_sep <$> split_commas line []).

(** The classes of a list of names: class [i], from 1, has the identifier [2^i]. *)
Definition classes_of (names : list cstr) : list KlassRegionEl :=
  imap (fun i name => mkEl name (2 ^ Z.of_nat (S i))) names.

(** ** The parser computes it *)

(** The rest of a name after the separator [d] was seen. *)
Definition norm (d : option ascii) (line : cstr) : cstr :=
  match d with
  | Some d => (fun c => if is_sep c then d else c) <$> line
  | None => one_sep line
  end.

Lemma one_sep_cons c line :
  one_sep (c :: line) = if is_sep c then c :: norm (Some c) line else c :: one_sep line.
Proof.
  unfold one_sep. rewrite filter_cons.
  destruct (is_sep c) eqn:E; simpl; [by rewrite E|].
  destruct (filter _ line); simpl; by rewrite ?E.
Qed.

Lemma length_one_sep line : length (one_sep line) = length line.
Proof. unfold one_sep. destruct (filter _ line); [done|]. by rewrite length_fmap. Qed.

Lemma line_loop_run line d buffer :
  NUL ∉ line -> (length buffer <= 64)%nat ->
  line_loop line d buffer =
    if decide (length buffer + length line <= 64)%nat then Some (buffer ++ norm d line) else None.
Proof.
  revert d buffer. induction line as [|c line IH]; intros d buffer Hn Hb; cbn [line_loop].
  - simpl. rewrite decide_True by lia. destruct d; simpl; by rewrite app_nil_r.
  - apply not_elem_of_cons in Hn as [Hc Hn]. rewrite decide_False by done. cbv zeta.
    unfold put. destruct (decide (length buffer < 64)%nat) as [Hlt|Hge]; simpl mbind; [|].
    2: { cbn [length]. by rewrite decide_False by lia. }
    rewrite IH by first [done | rewrite length_app; simpl; lia].
    rewrite length_app. cbn [length].
    replace (length buffer + 1 + length line)%nat with (length buffer + S (length line))%nat by lia.
    destruct (decide (length buffer + S (length line) <= 64)%nat); [|done].
    rewrite <- app_assoc. do 2 f_equal.
    destruct d as [d|]; cbn [norm app default fmap list_fmap].
    + f_equal. unfold is_sep. repeat case_decide; try case_bool_decide; naive_solver.
    + rewrite one_sep_cons. unfold is_sep.
      repeat case_decide; try case_bool_decide; simpl; naive_solver.
Qed.

(** What one name does to the parser's state. *)
Definition push (s : parse_state) (name : cstr) : parse_state :=
  if decide (name = []) then s else
  let next := u32 (Z.shiftl (_next_region s) region_shift) in
  mkParse next (_bda_class_names s ++ [mkEl name next]).

Lemma parse_from_line_run line s :
  NUL ∉ line ->
  parse_from_line line s =
    if decide (length line < 64)%nat then Some (push s (one_sep line)) else None.
Proof.
  intros Hn. unfold parse_from_line. rewrite line_loop_run by first [done | simpl; lia].
  cbn [length norm app]. rewrite Nat.add_0_l.
  destruct (decide (length line <= 64)%nat); simpl mbind; [|by rewrite decide_False by lia].
  unfold push, put. rewrite length_one_sep.
  destruct (decide (one_sep line = [])) as [E|E].
  - apply (f_equal length) in E. rewrite length_one_sep in E. simpl in E.
    rewrite decide_False by lia. by rewrite decide_True by lia.
  - assert (length line <> 0)%nat.
    { intros H. apply E, nil_length_inv. by rewrite length_one_sep. }
    rewrite decide_True by done. by destruct (decide (length line < 64)%nat).
Qed.

Lemma split_commas_head line piece :
  exists p ps, split_commas line piece = p :: ps /\ (length piece <= length p)%nat.
Proof.
  revert piece. induction line as [|c line IH]; intros piece; cbn [split_commas]; [eauto|].
  case_decide; [eauto|]. destruct (IH (piece ++ [c])) as (p & ps & -> & Hp).
  exists p, ps. split; [done|]. rewrite length_app in Hp. simpl in Hp. lia.
Qed.

Lemma parse_from_string_run line buffer s :
  NUL ∉ line -> NUL ∉ buffer ->
  parse_from_string line buffer s =
    if decide (Forall (fun p => (length p < 64)%nat) (split_commas line buffer))
    then Some (foldl push s (one_sep <$> split_commas line buffer)) else None.
Proof.
  revert buffer s. induction line as [|c line IH]; intros buffer s Hn Hb;
    cbn [parse_from_string split_commas]; unfold put.
  - destruct (decide (length buffer < 256)%nat); simpl mbind.
    + rewrite parse_from_line_run by done.
      destruct (decide (length buffer < 64)%nat).
      * rewrite decide_True; [done|]. by apply Forall_singleton.
      * rewrite decide_False; [done|]. intros [H _]%Forall_cons. simpl in H. lia.
    + rewrite decide_False; [done|]. intros [H _]%Forall_cons. simpl in H. lia.
  - apply not_elem_of_cons in Hn as [Hc Hn]. rewrite decide_False by done.
    destruct (decide (c = ","%char)).
    + destruct (decide (length buffer < 256)%nat); simpl mbind.
      2: { rewrite decide_False; [done|]. intros [H' _]%Forall_cons. simpl in H'. lia. }
      rewrite parse_from_line_run by done.
      destruct (decide (length buffer < 64)%nat); simpl mbind.
      2: { rewrite decide_False; [done|]. intros [H _]%Forall_cons. simpl in H. lia. }
      rewrite IH by (set_solver). apply decide_ext. rewrite Forall_cons. naive_solver.
    + destruct (decide (length buffer < 256)%nat); simpl mbind.
      * apply IH; [done|]. set_solver.
      * rewrite decide_False; [done|].
        destruct (split_commas_head line (buffer ++ [c])) as (p & ps & -> & H).
        rewrite length_app in H. simpl in H. intros [H' _]%Forall_cons. simpl in H'. lia.
Qed.

Lemma next_reg k : (k < 31)%nat ->
  u32 (Z.shiftl (2 ^ Z.of_nat k) region_shift) = 2 ^ Z.of_nat (S k).
Proof.
  intros Hk. rewrite Z.shiftl_mul_pow2 by (unfold region_shift; lia).
  unfold region_shift. rewrite <- Z.pow_add_r by lia.
  replace (Z.of_nat k + 1) with (Z.of_nat (S k)) by lia.
  apply wrap_small. split; [lia|]. apply Z.pow_lt_mono_r; lia.
Qed.

Lemma push_all_length l s :
  length (_bda_class_names (foldl push s l))
  = (length (_bda_class_names s) + length (filter (fun p => p <> []) l))%nat.
Proof.
  revert s. induction l as [|p l IH]; intros s; cbn [foldl]; [simpl; lia|].
  rewrite IH, filter_cons. unfold push. case_decide as Hp.
  - by rewrite decide_False by naive_solver.
  - rewrite decide_True by done. cbn [_bda_class_names length]. rewrite length_app. simpl. lia.
Qed.

Lemma push_all l s k :
  _next_region s = 2 ^ Z.of_nat k -> (k + length (filter (fun p => p <> []) l) <= 31)%nat ->
  _bda_class_names (foldl push s l)
  = _bda_class_names s
    ++ imap (fun i name => mkEl name (2 ^ Z.of_nat (k + S i))) (filter (fun p => p <> []) l).
Proof.
  revert s k. induction l as [|p l IH]; intros s k Hs Hk; cbn [foldl];
    [by rewrite app_nil_r|].
  rewrite filter_cons in Hk |- *. unfold push at 2. destruct (decide (p = [])) as [Hp|Hp].
  - rewrite decide_False in Hk |- * by naive_solver. by apply IH.
  - rewrite decide_True in Hk |- * by done. cbn [length] in Hk.
    rewrite Hs, next_reg, (IH _ (S k)) by (try done; lia). cbn [_bda_class_names imap].
    rewrite <- app_assoc. f_equal. cbn [app]. f_equal; [do 3 f_equal; lia|].
    apply imap_ext. intros i x _. simpl. do 3 f_equal. lia.
Qed.

(** ** The constructor *)

Lemma set_cell_app pre x suf idx v :
  idx = Z.of_nat (length pre) ->
  set_cell (pre ++ x :: suf) idx v = Some (pre ++ v :: suf).
Proof.
  intros ->. unfold set_cell. rewrite length_app. cbn [length].
  replace (0 <=? Z.of_nat (length pre)) with true by (symmetry; apply Z.leb_le; lia).
  replace (Z.of_nat (length pre) <? _) with true by (symmetry; apply Z.ltb_lt; lia).
  rewrite Nat2Z.id, insert_app_r_alt, Nat.sub_diag by lia. done.
Qed.

Lemma fill_loop_ok n k pre suf :
  (k + n <= 31)%nat -> length pre = (2 * k + 2)%nat -> length suf = (2 * n)%nat ->
  fill_loop n (2 ^ Z.of_nat k) (pre ++ suf)
  = Some (pre ++ (zseq (Z.of_nat (S k)) n ≫= class_cells)).
Proof.
  revert k pre suf. induction n as [|n IH]; intros k pre suf Hk Hpre Hsuf; cbn [fill_loop].
  - destruct suf; [done|simpl in Hsuf; lia].
  - destruct suf as [|a [|b suf]]; simpl in Hsuf; try lia. cbv zeta.
    rewrite next_reg by lia.
    assert (L : log2_intptr (2 ^ Z.of_nat (S k)) = Z.of_nat (S k)) by (apply exact_log2_pow2; lia).
    rewrite L, set_cell_app by lia. simpl mbind.
    rewrite cons_middle, app_assoc.
    rewrite set_cell_app by (rewrite length_app; simpl; lia). simpl mbind.
    rewrite cons_middle, app_assoc.
    rewrite IH by (rewrite ?length_app; simpl; lia).
    rewrite lor_class, <- !app_assoc by lia.
    by replace (Z.of_nat (S (S k))) with (Z.of_nat (S k) + 1) by lia.
Qed.

Lemma fill_loop_overflow n k cs :
  (k <= 31)%nat -> (31 < k + n)%nat -> fill_loop n (2 ^ Z.of_nat k) cs = None.
Proof.
  revert k cs. induction n as [|n IH]; intros k cs Hk Hn; [lia|]. cbn [fill_loop]. cbv zeta.
  destruct (decide (k = 31%nat)) as [->|]; [done|].
  rewrite next_reg by lia.
  destruct (set_cell cs _ _) as [cs'|]; [|done]. simpl mbind.
  destruct (set_cell cs' _ _) as [cs''|]; [|done]. simpl mbind. apply IH; lia.
Qed.

(** A flag the constructor can take: every piece fits the buffer of 64 bytes, and
    the identifiers fit 32 bits. *)
Definition flag_ok (line : cstr) : Prop :=
  Forall (fun p => (length p < 64)%nat) (split_commas line [])
  /\ (length (names_of line) <= 31)%nat.

#[export] Instance flag_ok_dec line : Decision (flag_ok line).
Proof. unfold flag_ok. apply _. Defined.

Lemma first_cells junk n :
  exists suf, length suf = (2 * n)%nat
  /\ forall v w, (cs ← set_cell (junk <$> zseq 0 (Z.to_nat (2 * Z.of_nat n + 2))) 0 v;
                  set_cell cs 1 w) = Some ([v; w] ++ suf).
Proof.
  exists (junk <$> zseq 2 (2 * n)). split; [by rewrite length_fmap, length_zseq|].
  intros v w. replace (Z.to_nat _) with (S (S (2 * n)))%nat by lia.
  change (junk <$> zseq 0 _) with ([] ++ junk 0 :: junk 1 :: (junk <$> zseq 2 (2 * n))).
  rewrite set_cell_app by done. cbn [mbind option_bind app].
  by apply (set_cell_app [v]).
Qed.

Lemma constructor_run line addr junk :
  NUL ∉ line -> 0 < addr ->
  match new_KlassRegionMap line addr junk with
  | Some m =>
    flag_ok line
    /\ _class_names m = classes_of (names_of line)
    /\ laid_out (length (names_of line)) (_limits m) (_region_data m)
    /\ data (_region_data m) = addr
    /\ last_region_ptr m = region_end_addr (_limits m)
    /\ number_bdaregions m = Z.of_nat (length (names_of line))
    /\ _region_map m = Some (new_Hashtable 4096)
  | None => ~ flag_ok line
  end.
Proof.
  intros Hn Ha.
  unfold new_KlassRegionMap, flag_ok. rewrite parse_from_string_run by (try done; set_solver).
  destruct (decide (Forall _ _)) as [Hf|Hf]; simpl mbind; [|naive_solver].
  set (s := foldl push _ _).
  assert (El : length (_bda_class_names s) = length (names_of line))
    by (unfold s; by rewrite push_all_length).
  rewrite El. set (n := length (names_of line)).
  destruct (first_cells junk n) as (suf & Hsuf & E).
  specialize (E no_region region_start).
  destruct (set_cell _ 0 no_region) as [cs|]; simpl in E |- *; [|done]. rewrite E.
  cbn [mbind option_bind]. change (fill_loop n region_start) with (fill_loop n (2 ^ Z.of_nat 0)).
  destruct (decide (n <= 31)%nat) as [Hle|Hgt].
  - change (no_region :: region_start :: suf) with ([no_region; region_start] ++ suf).
    rewrite fill_loop_ok by done. cbn [mbind option_bind].
    cbn [_class_names _region_data _limits _region_map _region_data_sz number_bdaregions].
    assert (Es : _bda_class_names s = classes_of (names_of line)).
    { unfold s. by rewrite (push_all _ _ 0) by done. }
    unfold laid_out, elem_addr, last_region_ptr, number_bdaregions. cbn.
    rewrite El. split_and!; try done; unfold n; lia.
  - rewrite fill_loop_overflow by lia. naive_solver.
Qed.

(** C31. The constructor interprets the flag [BDAKlasses].  It succeeds exactly when
    every name in it, between commas, has less than 64 characters and it has at most
    31 names that are not empty; otherwise it writes outside a buffer or the array.
    When it succeeds, the names are the pieces of the flag with each separator
    replaced by the first one, numbered from 1 in their order with the identifiers
    [2^i], and the array holds the identifiers of all of them, its limits set. *)
Theorem constructor_spec (line : cstr) (addr : Z) (junk : Z -> Z)
    (Hn : NUL ∉ line) (Ha : 0 < addr) :
  match new_KlassRegionMap line addr junk with
  | Some m =>
    flag_ok line
    /\ _class_names m = classes_of (names_of line)
    /\ laid_out (length (names_of line)) (_limits m) (_region_data m)
    /\ data (_region_data m) = addr
    /\ last_region_ptr m = region_end_addr (_limits m)
    /\ number_bdaregions m = Z.of_nat (length (names_of line))
    /\ _region_map m = Some (new_Hashtable 4096)
  | None => ~ flag_ok line
  end.
Proof. by apply constructor_run. Qed.

(** Two names, with separators mixed in the first and an empty piece between them. *)
Lemma constructor_spec_witness :
  _class_names <$> new_KlassRegionMap (str "java.util/Map,,org.Row") 4096 (fun _ => 0)
  = Some [mkEl (str "java.util.Map") 2; mkEl (str "org.Row") 4].
Proof.
  pose proof (constructor_spec (str "java.util/Map,,org.Row") 4096 (fun _ => 0)
    ltac:(decide_now) ltac:(lia)) as H.
  destruct (new_KlassRegionMap _ _ _) as [m|] eqn:E.
  - destruct H as (_ & H & _). simpl. rewrite H. vm_compute. reflexivity.
  - exfalso. apply H. decide_now.
Defined.

(** ** Lookups *)

(** The literal of the first entry of [k] in a chain. *)
Fixpoint first_of (k : Z) (chain : list entry) : option Z :=
  match chain with
  | [] => None
  | e :: chain => if e_klass e =? k then Some (e_literal e) else first_of k chain
  end.

Lemma chain_find_first k e chain :
  e_literal <$> chain_find k e chain = first_of k (e :: chain).
Proof.
  revert e. induction chain as [|e' chain IH]; intros e; simpl; [by case_match|].
  destruct (e_klass e =? k); [done|]. apply IH.
Qed.

(** The chain [k] belongs to. *)
Definition chain_of (g : config) (t : Hashtable) (k : Z) : list entry :=
  bucket t (hash_to_index t (compressed_ptr g k)).

(** A table with at most [b] entries, so that their number does not overflow. *)
Definition sized (t : Hashtable) (b : Z) : Prop :=
  0 <= _number_of_entries t <= b /\ (_number_of_entries t = 0 -> _buckets t = ∅).

Lemma sized_weaken t b b' : sized t b -> b <= b' -> sized t b'.
Proof. unfold sized. intros [? ?] ?. split; [lia|done]. Qed.

Lemma table_add_entry_sized g t k r b :
  sized t b -> b + 1 < 2 ^ 31 ->
  sized (table_add_entry g t k r) (b + 1) /\ 0 < _number_of_entries (table_add_entry g t k r).
Proof.
  unfold sized. intros [Hn He] Hb. simpl. rewrite swrap_small by lia. split; [split; [|intros ?]|]; lia.
Qed.

(** Adding an entry of [k] makes it the one that is found; adding one of another
    class leaves what is found for [k]. *)
Lemma first_of_add g t k' k r :
  first_of k (chain_of g (table_add_entry g t k' r) k)
  = if k' =? k then Some r else first_of k (chain_of g t k).
Proof.
  unfold chain_of, table_add_entry, link_entry, hash_to_index, bucket at 1. simpl.
  destruct (Z.eqb_spec k' k) as [->|Hne].
  - rewrite lookup_insert_eq. simpl. by rewrite Z.eqb_refl.
  - destruct (decide (compressed_ptr g k' mod _table_size t = compressed_ptr g k mod _table_size t)) as [E|E].
    + rewrite E, lookup_insert_eq. simpl. by rewrite (proj2 (Z.eqb_neq k' k)) by done.
    + by rewrite lookup_insert_ne by done.
Qed.

(** The lookup of a class that has an entry. *)
Lemma get_region_found g rt re t k r b :
  sized t b -> first_of k (chain_of g t k) = Some r -> get_region g rt re t k = Some (r, t).
Proof.
  intros [Hn He] Hf. unfold get_region.
  destruct (Z.eqb_spec (_number_of_entries t) 0) as [H0|_].
  { specialize (He H0). unfold chain_of, bucket in Hf. rewrite He, lookup_empty in Hf. done. }
  fold (chain_of g t k). destruct (chain_of g t k) as [|e [|e' chain]]; [done| |].
  - simpl in Hf. by case_match; simplify_eq.
  - rewrite <- chain_find_first in Hf. destruct (chain_find k e _); by simplify_eq/=.
Qed.

(** A lookup of another class, whatever it returns, adds at most an entry of that
    class. *)
Lemma get_region_other g rt r0 t k :
  exists r t', get_region g rt (Some r0) t k = Some (r, t')
  /\ (t' = t \/ exists r', t' = table_add_entry g t k r' /\ first_of k (chain_of g t k) = None).
Proof.
  unfold get_region. case_match; [eauto|]. fold (chain_of g t k).
  destruct (chain_of g t k) as [|e [|e' chain]]; simpl mbind; [by eauto 10..|].
  destruct (chain_find k e (e' :: chain)) eqn:E; [by eauto|].
  do 2 eexists. split; [done|]. right. eexists. split; [done|].
  by rewrite <- chain_find_first, E.
Qed.

(** ** Classification *)

(** The names of the primary supers of a class, the root first. *)
Definition super_names (k : Klass) : list cstr :=
  omap (primary_super_of_depth k) (seq 0 (Nat.min (S (super_depth k)) primary_super_limit)).

(** The region of the first of [supers] that is listed. *)
Definition region_of (names : list cstr) (rt : table) (supers : list cstr) : Z :=
  match list_find (fun name => name ∈ names) supers with
  | Some (_, name) =>
    match list_find (name =.) names with
    | Some (i, _) => class_ptr rt (S i) 0
    | None => region_start_ptr rt
    end
  | None => region_start_ptr rt
  end.

(** A map for the classes [names], with a hash table of at most [b] entries. *)
Definition ready (names : list cstr) (m : KlassRegionMap) (t : Hashtable) (b : Z) : Prop :=
  _class_names m = classes_of names
  /\ (length names <= 31)%nat
  /\ laid_out (length names) (_limits m) (_region_data m)
  /\ _region_map m = Some t /\ sized t b.

Lemma list_find_names name names (f : nat -> cstr -> KlassRegionEl) :
  (forall i x, klass_name (f i x) = x) ->
  fst <$> list_find (fun e => equals_name name e = true) (imap f names)
  = fst <$> list_find (name =.) names.
Proof.
  revert f. induction names as [|x names IH]; intros f Hf; [done|]. cbn [imap list_find].
  destruct (decide (name = x)) as [->|Hne].
  - rewrite decide_True; [done|]. apply bool_decide_eq_true. by rewrite Hf.
  - rewrite decide_False by (unfold equals_name; by rewrite bool_decide_eq_true, Hf).
    specialize (IH (f ∘ S) (fun i y => Hf (S i) y)).
    destruct (list_find _ (imap _ _)) as [[? ?]|], (list_find _ names) as [[? ?]|]; by simplify_eq/=.
Qed.

Lemma find_name_run names m name :
  _class_names m = classes_of names ->
  find_name m name = match list_find (name =.) names with Some (i, _) => Z.of_nat i | None => -1 end.
Proof.
  intros E. unfold find_name. rewrite E. unfold classes_of.
  pose proof (list_find_names name names (fun i n => mkEl n (2 ^ Z.of_nat (S i)))
    ltac:(done)) as H.
  destruct (list_find _ (imap _ _)) as [[? ?]|], (list_find _ names) as [[? ?]|]; by simplify_eq/=.
Qed.

Lemma is_bda_type_run names m name :
  _class_names m = classes_of names -> is_bda_type m name = bool_decide (name ∈ names).
Proof.
  intros E. unfold is_bda_type. rewrite (find_name_run names) by done.
  destruct (list_find _ names) as [[i x]|] eqn:F.
  - apply list_find_Some in F as (F & -> & _). rewrite bool_decide_true.
    + rewrite Z.geb_leb. apply Z.leb_le. lia.
    + by eapply list_elem_of_lookup_2.
  - apply list_find_None in F. rewrite bool_decide_false; [done|].
    intros H. eapply (Forall_forall _ _) in F; [|done]. done.
Qed.

Lemma bda_type_run names m name i x :
  _class_names m = classes_of names -> (length names <= 31)%nat ->
  list_find (name =.) names = Some (i, x) ->
  bda_type m name = Some (class_ptr (_region_data m) (S i) 0).
Proof.
  intros E Hn F. unfold bda_type. rewrite (find_name_run names), F by done.
  apply list_find_Some in F as (F & _ & _). pose proof (lookup_lt_Some _ _ _ F).
  replace (Z.of_nat i <? 0) with false by (symmetry; apply Z.ltb_ge; lia).
  rewrite Nat2Z.id, E. unfold classes_of. rewrite list_lookup_imap, F.
  cbn [fmap option_fmap option_map mbind option_bind region_id].
  replace (log2_intptr _) with (Z.of_nat (S i)) by (symmetry; apply exact_log2_pow2; lia).
  unfold class_ptr. f_equal. f_equal. lia.
Qed.

Lemma add_entry_loop_run g names m t b k n index :
  ready names m t b -> (index <= primary_super_limit)%nat ->
  add_entry_loop g m k n index =
    Some (with_region_map m (table_add_entry g t (k_addr k)
      (region_of names (_region_data m)
        (omap (primary_super_of_depth k) (seq index (Nat.min n (primary_super_limit - index))))))).
Proof.
  intros (E & Hn & _ & Ht & _). revert index.
  assert (Eo : add_other_entry g m (k_addr k) = Some (with_region_map m
    (table_add_entry g t (k_addr k) (region_start_ptr (_region_data m))))).
  { unfold add_other_entry. by rewrite Ht. }
  induction n as [|n IH]; intros index Hi; cbn [add_entry_loop]; [done|].
  destruct (Nat.eqb_spec index primary_super_limit) as [->|Hne].
  { by rewrite Eo, Nat.sub_diag, Nat.min_0_r. }
  replace (Nat.min (S n) (primary_super_limit - index))
    with (S (Nat.min n (primary_super_limit - S index))) by lia.
  cbn [seq omap list_omap]. rewrite IH by lia.
  destruct (primary_super_of_depth k index) as [name|]; [|done].
  rewrite (is_bda_type_run names) by done. unfold region_of at 2. cbn [list_find].
  case_bool_decide as Hin.
  - rewrite decide_True by done.
    destruct (list_find (name =.) names) as [[i x]|] eqn:F.
    + rewrite (bda_type_run names _ _ i x) by done. simpl. unfold add_region_entry. by rewrite Ht.
    + apply list_find_None in F. eapply (Forall_forall _ _) in F; [|done]. done.
  - rewrite decide_False by done. unfold region_of.
    by destruct (list_find _ (omap _ _)) as [[? ?]|].
Qed.

Lemma add_entry_run g names m t b k :
  ready names m t b ->
  add_entry g m k = Some (with_region_map m (table_add_entry g t (k_addr k)
    (region_of names (_region_data m) (super_names k)))).
Proof.
  intros H. unfold add_entry. rewrite (add_entry_loop_run g names m t b) by (done || lia).
  by rewrite Nat.sub_0_r.
Qed.

Lemma region_elem_start names m t b :
  ready names m t b ->
  region_elem m region_start = Some (region_start_ptr (_region_data m)).
Proof. intros (_ & _ & (Hc & _) & _). unfold region_elem. by rewrite Hc. Qed.

(** ** Histories *)

(** The class file parser loads a class; the allocator looks one up. *)
Inductive op := Load (k : Klass) | Lookup (k : Z).

Definition exec (g : config) (m : KlassRegionMap) (o : op) : option KlassRegionMap :=
  match o with
  | Load k => add_entry g m k
  | Lookup k => snd <$> region_for_klass g m k
  end.

Fixpoint execs (g : config) (m : KlassRegionMap) (os : list op) : option KlassRegionMap :=
  match os with [] => Some m | o :: os => m ← exec g m o; execs g m os end.

(** The operation does not load the class at [k]. *)
Definition not_load (k : Z) (o : op) : Prop :=
  match o with Load k' => k_addr k' <> k | Lookup _ => True end.

#[export] Instance not_load_dec k o : Decision (not_load k o).
Proof. destruct o; simpl; apply _. Defined.

Lemma execs_app g m os1 os2 :
  execs g m (os1 ++ os2) = m ← execs g m os1; execs g m os2.
Proof.
  revert m. induction os1 as [|o os1 IH]; intros m; [done|]. cbn [app execs].
  destruct (exec g m o); [apply IH|done].
Qed.

Lemma ready_add g names m t b k r :
  ready names m t b -> b + 1 < 2 ^ 31 ->
  ready names (with_region_map m (table_add_entry g t k r)) (table_add_entry g t k r) (b + 1).
Proof.
  intros (E & Hn & Hl & Ht & Hs) Hb.
  destruct (table_add_entry_sized g t k r b Hs Hb) as [? _]. by split_and!.
Qed.

Lemma with_same m t : _region_map m = Some t -> with_region_map m t = m.
Proof. destruct m. unfold with_region_map. simpl. by intros ->. Qed.

Lemma region_for_klass_run g names m t b k r t' :
  ready names m t b ->
  get_region g (_region_data m) (Some (region_start_ptr (_region_data m))) t k = Some (r, t') ->
  region_for_klass g m k = Some (r, with_region_map m t').
Proof.
  intros Hr H. unfold region_for_klass.
  rewrite (region_elem_start names m t b) by done. destruct Hr as (_ & _ & _ & -> & _).
  by rewrite H.
Qed.

Lemma exec_ready g names m t b o :
  ready names m t b -> b + 1 < 2 ^ 31 ->
  exists m' t', exec g m o = Some m' /\ ready names m' t' (b + 1)
  /\ _region_data m' = _region_data m
  /\ (forall k r, not_load k o -> first_of k (chain_of g t k) = Some r ->
        first_of k (chain_of g t' k) = Some r).
Proof.
  intros Hr Hb. destruct o as [k|k]; cbn [exec not_load].
  - rewrite (add_entry_run g names m t b) by done.
    do 2 eexists. split; [done|]. split; [by apply ready_add|]. split; [done|].
    intros k' r Hne Hf. rewrite first_of_add. by rewrite (proj2 (Z.eqb_neq _ _)) by done.
  - destruct (get_region_other g (_region_data m) (region_start_ptr (_region_data m)) t k)
      as (r & t' & Hg & Ht').
    rewrite (region_for_klass_run g names m t b k r t') by done. simpl.
    do 2 eexists. split; [done|]. destruct Ht' as [->|(r' & -> & Hnone)].
    + rewrite with_same by apply Hr. split; [|done].
      destruct Hr as (? & ? & ? & ? & Hs). split_and!; try done.
      eapply sized_weaken; [exact Hs|lia].
    + split; [by apply ready_add|]. split; [done|].
      intros k' r0 _ Hf. rewrite first_of_add. by destruct (Z.eqb_spec k k'); simplify_eq.
Qed.

Lemma execs_ready g names m t b os :
  ready names m t b -> b + Z.of_nat (length os) < 2 ^ 31 ->
  exists m' t', execs g m os = Some m' /\ ready names m' t' (b + Z.of_nat (length os))
  /\ _region_data m' = _region_data m
  /\ (forall k r, Forall (not_load k) os -> first_of k (chain_of g t k) = Some r ->
        first_of k (chain_of g t' k) = Some r).
Proof.
  revert m t b. induction os as [|o os IH]; intros m t b Hr Hb; cbn [execs].
  - exists m, t. rewrite Z.add_0_r. naive_solver.
  - cbn [length] in Hb |- *.
    destruct (exec_ready g names m t b o Hr ltac:(lia)) as (m1 & t1 & -> & Hr1 & Hd1 & Hf1).
    cbn [mbind option_bind].
    destruct (IH m1 t1 (b + 1) Hr1 ltac:(lia)) as (m2 & t2 & -> & Hr2 & Hd2 & Hf2).
    exists m2, t2. split; [done|]. split; [by replace (b + _) with (b + 1 + Z.of_nat (length os)) by lia|].
    split; [congruence|]. intros k r [Ho Hos]%Forall_cons Hf. eauto.
Qed.

(** What [is_bda_klass] makes of a region. *)
Lemma region_of_bda names rt supers :
  (length names <= 31)%nat ->
  negb (region_of names rt supers =? no_region_ptr rt)
  && negb (region_of names rt supers =? region_start_ptr rt)
  = bool_decide (Exists (fun name => name ∈ names) supers).
Proof.
  intros Hn. unfold region_of, region_start_ptr, no_region_ptr.
  destruct (list_find _ supers) as [[j name]|] eqn:F.
  - apply list_find_Some in F as (F & Hin & _).
    rewrite bool_decide_true.
    2: { apply Exists_exists. exists name. split; [by eapply list_elem_of_lookup_2|done]. }
    destruct (list_find (name =.) names) as [[i x]|] eqn:F'.
    + unfold class_ptr, elem_addr, region_bytes.
      rewrite !(proj2 (Z.eqb_neq _ _)) by lia. done.
    + apply list_find_None in F'. eapply (Forall_forall _ _) in F'; [|done]. done.
  - apply list_find_None in F. rewrite Z.eqb_refl, andb_false_r, bool_decide_false; [done|].
    intros (x & Hx & Hin)%Exists_exists. by apply (proj1 (Forall_forall _ _) F x Hx).
Qed.

Lemma new_KlassRegionMap_ready line addr junk m :
  NUL ∉ line -> 0 < addr -> new_KlassRegionMap line addr junk = Some m ->
  exists t, ready (names_of line) m t 0 /\ _table_size t = 4096 /\ _buckets t = ∅ /\ _number_of_entries t = 0.
Proof.
  intros Hl Ha E. pose proof (constructor_run line addr junk Hl Ha) as H. rewrite E in H.
  destruct H as ((_ & Hle) & Hc & Hlo & _ & _ & _ & Hm).
  exists (new_Hashtable 4096). split_and!; try done.
Qed.

(** C27. A class is looked up as it was classified when it was loaded.  From the map
    the constructor made of the flag, after any history of loads and lookups in
    which [k] is loaded once, or last loaded with these supers, the lookup of [k]
    succeeds, changes nothing, and returns the region of the first of its primary
    supers, from the root, that the flag lists, or the region of general objects if
    it lists none; [is_bda_klass] returns that region in the first case and [NULL]
    in the second.  (Histories are bounded by the width of the count of entries.) *)
Theorem loaded_klass_lookup (g : config) (line : cstr) (addr : Z) (junk : Z -> Z)
    (m0 : KlassRegionMap) (before after : list op) (k : Klass)
    (Hline : NUL ∉ line) (Ha : 0 < addr)
    (Hnew : new_KlassRegionMap line addr junk = Some m0)
    (Hlen : Z.of_nat (length before + length after) + 1 < 2 ^ 31)
    (Hafter : Forall (not_load (k_addr k)) after) :
  exists m,
    execs g m0 (before ++ Load k :: after) = Some m
    /\ _region_data m = _region_data m0
    /\ let r := region_of (names_of line) (_region_data m) (super_names k) in
       region_for_klass g m (k_addr k) = Some (r, m)
       /\ is_bda_klass g m (k_addr k)
          = Some (if bool_decide (Exists (fun name => name ∈ names_of line) (super_names k))
                  then r else NULL, m).
Proof.
  destruct (new_KlassRegionMap_ready line addr junk m0 Hline Ha Hnew) as (t0 & Hr0 & _).
  set (names := names_of line) in *.
  destruct (execs_ready g names m0 t0 0 before Hr0 ltac:(lia)) as (m1 & t1 & E1 & Hr1 & Hd1 & _).
  pose proof (add_entry_run g names m1 t1 _ k Hr1) as E2.
  pose proof (ready_add g names m1 t1 _ (k_addr k)
    (region_of names (_region_data m1) (super_names k)) Hr1 ltac:(lia)) as Hr2.
  match type of Hr2 with ready _ ?m2 ?t2 _ =>
    destruct (execs_ready g names m2 t2 _ after Hr2 ltac:(lia)) as (m3 & t3 & E3 & Hr3 & Hd3 & Hf3);
    assert (Hf : first_of (k_addr k) (chain_of g t2 (k_addr k))
      = Some (region_of names (_region_data m1) (super_names k)))
  end.
  { by rewrite first_of_add, Z.eqb_refl. }
  specialize (Hf3 _ _ Hafter Hf). simpl in Hd3. rewrite <- Hd3 in Hf3.
  exists m3. rewrite execs_app, E1. cbn [mbind option_bind execs exec].
  rewrite E2. cbn [mbind option_bind]. rewrite E3, Hd3, Hd1. split; [done|]. split; [done|].
  rewrite Hd3, Hd1 in Hf3. cbv zeta.
  assert (Hreg : region_for_klass g m3 (k_addr k)
    = Some (region_of names (_region_data m0) (super_names k), m3)).
  { rewrite (region_for_klass_run g names m3 t3 _ _ _ _ Hr3
      (get_region_found _ _ _ _ _ _ _ (proj2 (proj2 (proj2 (proj2 Hr3)))) Hf3)).
    by rewrite with_same by apply Hr3. }
  split; [exact Hreg|]. unfold is_bda_klass. rewrite Hreg. cbn [mbind option_bind].
  rewrite Hd3, Hd1, region_of_bda by apply Hr3. by case_bool_decide.
Qed.

Definition sample_config : config := mkConfig false 0 0.

(** A class below a listed one, and one that is not listed, both in the same chain. *)
Definition sample_row : Klass :=
  mkKlass 0x10000 2 [Some (str "java.lang.Object"); Some (str "org.Row"); Some (str "org.MyRow")].
Definition sample_plain : Klass :=
  mkKlass 0x11000 1 [Some (str "java.lang.Object"); Some (str "org.Plain")].

(** The first class is loaded before the second and looked up after it. *)
Lemma loaded_klass_lookup_witness :
  option_map fst
    (m0 ← new_KlassRegionMap (str "java.util.Map,org.Row") 4096 (fun _ => 0);
     m ← execs sample_config m0 [Load sample_row; Load sample_plain];
     is_bda_klass sample_config m (k_addr sample_row))
  = Some (4096 + 4 * 4).
Proof.
  destruct (new_KlassRegionMap (str "java.util.Map,org.Row") 4096 (fun _ => 0))
    as [m0|] eqn:E; [|vm_compute in E; discriminate E].
  destruct (loaded_klass_lookup sample_config (str "java.util.Map,org.Row") 4096 (fun _ => 0)
    m0 [] [Load sample_plain] sample_row ltac:(decide_now) ltac:(lia) E ltac:(vm_compute; reflexivity)
    ltac:(decide_now)) as (m & Em & Ed & _ & Eb).
  simpl app in Em. cbn [mbind option_bind]. rewrite Em. cbn [mbind option_bind].
  rewrite Eb. cbn [option_map fst]. rewrite Ed.
  vm_compute in E. injection E as <-. vm_compute. reflexivity.
Defined.

(** ** Classes that were not loaded *)

(** The classes at [a] and [b] have the same chain in the table of 4096 chains. *)
Definition same_chain (g : config) (a b : Z) : bool := compressed_ptr g a mod 4096 =? compressed_ptr g b mod 4096.

(** The flag lists the class or one of its primary supers. *)
Definition listed (names : list cstr) (k : Klass) : bool :=
  bool_decide (Exists (fun name => name ∈ names) (super_names k)).

Definition loaded_entry (g : config) (names : list cstr) (rt : table) (k : Klass) : entry :=
  mkEntry (compressed_ptr g (k_addr k)) (k_addr k) (region_of names rt (super_names k)).

(** The chain of [a] after the classes [ks] were loaded, the last first. *)
Lemma loads_chain g names ks : forall m t b,
  ready names m t b -> b + Z.of_nat (length ks) < 2 ^ 31 -> _table_size t = 4096 ->
  exists m' t', execs g m (Load <$> ks) = Some m' /\ ready names m' t' (b + Z.of_nat (length ks))
  /\ _region_data m' = _region_data m
  /\ _number_of_entries t' = _number_of_entries t + Z.of_nat (length ks)
  /\ forall a, chain_of g t' a =
       reverse (loaded_entry g names (_region_data m) <$> filter (fun k => same_chain g (k_addr k) a = true) ks)
       ++ chain_of g t a.
Proof.
  induction ks as [| k ks IH]; intros m t b Hr Hb Ht; cbn [fmap list_fmap execs exec length] in *.
  { exists m, t. rewrite !Z.add_0_r. by split_and!. }
  rewrite (add_entry_run g names m t b) by done. cbn [mbind option_bind].
  set (e := loaded_entry g names (_region_data m) k).
  change (region_of names (_region_data m) (super_names k)) with (e_literal e).
  destruct (IH _ _ (b + 1) (ready_add g names m t b (k_addr k) (e_literal e) Hr ltac:(lia)) ltac:(lia) Ht)
    as (m' & t' & -> & Hr' & Hd & Hn & Hc).
  exists m', t'. split; [done |]. split; [by replace (b + Z.of_nat (S _)) with (b + 1 + Z.of_nat (length ks)) by lia |].
  split; [done |]. split.
  - rewrite Hn. cbn. pose proof (proj2 (proj2 (proj2 (proj2 Hr)))) as [[? ?] _]. rewrite swrap_small by lia. lia.
  - intros a. rewrite Hc. change (_region_data (with_region_map m _)) with (_region_data m).
    assert (chain_of g (table_add_entry g t (k_addr k) (e_literal e)) a =
      (if same_chain g (k_addr k) a then [e] else []) ++ chain_of g t a) as ->.
    { unfold chain_of, table_add_entry, link_entry, hash_to_index, bucket at 1, same_chain. cbn. rewrite Ht.
      destruct (Z.eqb_spec (compressed_ptr g (k_addr k) mod 4096) (compressed_ptr g a mod 4096)) as [E | E].
      - by rewrite E, lookup_insert_eq.
      - by rewrite lookup_insert_ne by done. }
    rewrite filter_cons. destruct (decide (same_chain g (k_addr k) a = true)) as [E | E].
    + rewrite E, fmap_cons, reverse_cons, <- app_assoc. done.
    + apply not_true_is_false in E. by rewrite E.
Qed.

(** No class of the chain is the one at [a]. *)
Lemma first_of_none g names rt ks a :
  a ∉ k_addr <$> ks ->
  first_of a (reverse (loaded_entry g names rt <$> filter (fun k => same_chain g (k_addr k) a = true) ks)) = None.
Proof.
  intros Ha. assert (forall l, (forall e, e ∈ l -> e_klass e <> a) -> first_of a l = None) as Hf.
  { induction l as [| e l IH]; intros He; [done |]. cbn [first_of].
    rewrite (proj2 (Z.eqb_neq _ _)) by (apply He; by left). apply IH. intros e' He'. apply He. by right. }
  apply Hf. intros e. rewrite elem_of_reverse, list_elem_of_fmap. intros (k & -> & Hk) E.
  apply list_elem_of_filter in Hk as [_ Hk]. apply Ha. cbn in E. rewrite <- E. by apply list_elem_of_fmap_2.
Qed.

(** C38. The lookup of a class that was not loaded, as those the virtual machine makes before the map exists,
    after the constructor made the map of the flag and the classes [ks] were loaded.  It takes the class for a
    class of collections exactly when one loaded class, and no other, shares its chain of the hash
    table and the flag lists that class or a super of it; it then answers with the region of that other
    class.  In all other cases it answers that it is none; and if the classes that share the chain are not exactly
    one, the class gets an entry with the region of general objects, which later lookups find. *)
Theorem unloaded_klass_lookup (g : config) (line : cstr) (addr : Z) (junk : Z -> Z) (m0 : KlassRegionMap)
    (ks : list Klass) (a : Z)
    (Hline : NUL ∉ line) (Haddr : 0 < addr) (Hnew : new_KlassRegionMap line addr junk = Some m0)
    (Hlen : Z.of_nat (length ks) + 1 < 2 ^ 31) (Ha : a ∉ k_addr <$> ks) :
  let sharing := filter (fun k => same_chain g (k_addr k) a = true) ks in
  let general := region_start_ptr (_region_data m0) in
  exists m m', execs g m0 (Load <$> ks) = Some m
  /\ is_bda_klass g m a =
       Some (match sharing with
             | [k] => if listed (names_of line) k then region_of (names_of line) (_region_data m0) (super_names k) else NULL
             | _ => NULL
             end, m')
  /\ (ks <> [] -> length sharing <> 1%nat ->
      region_for_klass g m a = Some (general, m') /\ region_for_klass g m' a = Some (general, m')).
Proof.
  intros sharing general.
  destruct (new_KlassRegionMap_ready line addr junk m0 Hline Haddr Hnew) as (t0 & Hr0 & Ht0 & Hb0 & Hn0).
  set (names := names_of line) in *.
  destruct (loads_chain g names ks m0 t0 0 Hr0 ltac:(lia) Ht0) as (m & t & Hm & Hr & Hd & Hn & Hc).
  specialize (Hc a). pose proof (first_of_none g names (_region_data m0) ks a Ha) as Hf.
  assert (chain_of g t0 a = []) as E0 by (unfold chain_of, bucket; by rewrite Hb0, lookup_empty).
  rewrite E0, app_nil_r in Hc. fold sharing in Hc, Hf.
  assert (forall r t', get_region g (_region_data m) (Some (region_start_ptr (_region_data m))) t a = Some (r, t') ->
    region_for_klass g m a = Some (r, with_region_map m t')) as Hreg
    by (intros r t' Hg; by apply (region_for_klass_run g names m t (0 + Z.of_nat (length ks)))).
  unfold is_bda_klass. unfold get_region in Hreg. rewrite Hn, Hn0, Hd in Hreg. fold (chain_of g t a) in Hreg. fold general in Hreg.
  destruct (Z.eqb_spec (0 + Z.of_nat (length ks)) 0) as [E | E].
  { destruct ks; [| done]. exists m, m. split; [done |]. rewrite (Hreg _ _ eq_refl), with_same by apply Hr.
    cbn [mbind option_bind]. by rewrite Hd, Z.eqb_refl. }
  assert (length sharing <> 1%nat -> exists m', region_for_klass g m a = Some (general, m') /\
    region_for_klass g m' a = Some (general, m') /\ _region_data m' = _region_data m0) as Hmany.
  { intros Hl. set (t' := table_add_entry g t a general).
    assert (region_for_klass g m a = Some (general, with_region_map m t')) as ->.
    { apply Hreg. rewrite Hc. rewrite <- (length_fmap (loaded_entry g names (_region_data m0))), <- length_reverse in Hl.
      destruct (reverse _) as [| e [| e' l]]; [done | done |]. rewrite <- chain_find_first in Hf.
      by destruct (chain_find a e (e' :: l)). }
    exists (with_region_map m t'). split; [done |]. split; [| done].
    pose proof (ready_add g names m t _ a general Hr ltac:(lia)) as Hr'. fold t' in Hr'.
    rewrite (region_for_klass_run g names _ t' _ a general t' Hr'); [done |].
    apply (get_region_found _ _ _ _ _ _ _ (proj2 (proj2 (proj2 (proj2 Hr'))))). unfold t'. by rewrite first_of_add, Z.eqb_refl. }
  destruct (decide (length sharing = 1%nat)) as [E1 | E1].
  - destruct sharing as [| k [| k' l]]; [done | | done]. exists m, m. split; [done |]. split; [| done].
    rewrite (Hreg (region_of names (_region_data m0) (super_names k)) t) by (by rewrite Hc).
    rewrite with_same by apply Hr. cbn [mbind option_bind]. rewrite Hd, region_of_bda by apply Hr0. by unfold listed; case_bool_decide.
  - destruct (Hmany E1) as (m' & H1 & H2 & H3). exists m, m'. split; [done |]. split; [| done]. rewrite H1.
    cbn [mbind option_bind]. rewrite H3. fold general. rewrite Z.eqb_refl, andb_false_r. by destruct sharing as [| k [| k' l]].
Qed.

(** A class that was not loaded gets the region of the listed class with which it shares the chain. *)
Lemma unloaded_klass_lookup_witness :
  option_map fst
    (m0 ← new_KlassRegionMap (str "java.util.Map,org.Row") 4096 (fun _ => 0);
     m ← execs sample_config m0 [Load sample_row];
     is_bda_klass sample_config m (k_addr sample_plain))
  = Some (4096 + 4 * 4).
Proof.
  destruct (new_KlassRegionMap (str "java.util.Map,org.Row") 4096 (fun _ => 0)) as [m0 |] eqn:E; [| vm_compute in E; discriminate E].
  destruct (unloaded_klass_lookup sample_config (str "java.util.Map,org.Row") 4096 (fun _ => 0) m0 [sample_row] (k_addr sample_plain)
    ltac:(decide_now) ltac:(lia) E ltac:(vm_compute; reflexivity) ltac:(decide_now)) as (m & m' & Em & Eb & _).
  cbn [mbind option_bind]. change [Load sample_row] with (Load <$> [sample_row]). rewrite Em. cbn [mbind option_bind].
  rewrite Eb. cbn [option_map fst]. vm_compute in E. injection E as <-. vm_compute. reflexivity.
Defined.

End KlassRegionMap.
