(* ===== verification/ObjectStartArray.v ===== *)
(** * The object start array

    [gc_implementation/parallelScavenge/objectStartArray.hpp] and [.cpp]: a byte per
    block of 512 bytes of the covered region, which holds the offset in words of the
    last object that was recorded in the block, or -1.  It finds the object an
    address lies in; the version with a lower bound, added for segments of the
    old generation that are not aligned to blocks, never looks below that bound.

    The backing store is a map from addresses to signed bytes; reading an address
    that is not committed is undefined ([None]), and so are the calls that end the
    virtual machine. *)

From Stdlib Require Import ZArith Lia.
From stdpp Require Import base numbers gmap list.
From S2P Require Import Prelude GlobalDefs MemRegion VirtualSpace.

Local Open Scope Z_scope.

Module ObjectStartArray.
Import PSVirtualSpace.

Record ObjectStartArray := mkArray {
  _virtual_space : PSVirtualSpace;
  _reserved_region : MemRegion.MemRegion;
  _covered_region : MemRegion.MemRegion;
  _blocks_region : MemRegion.MemRegion;
  _raw_base : Z;
  _offset_base : Z;
  bytes : gmap Z Z
}.

Implicit Types a : ObjectStartArray.

Definition clean_block : Z := -1.
Definition block_shift : Z := 9.
Definition block_size : Z := Z.shiftl 1 block_shift.
Definition block_size_in_words : Z := block_size / HeapWordSize.

Definition with_bytes a (m : gmap Z Z) : ObjectStartArray :=
  mkArray (_virtual_space a) (_reserved_region a) (_covered_region a) (_blocks_region a)
    (_raw_base a) (_offset_base a) m.

(** [memset(from, v, n)] *)
Definition memset (from v n : Z) (m : gmap Z Z) : gmap Z Z :=
  foldr (fun p m => <[p := v]> m) m (zseq from (Z.to_nat n)).

(** The bytes the operating system takes back. *)
Definition uncommitted (from n : Z) (m : gmap Z Z) : gmap Z Z :=
  foldr delete m (zseq from (Z.to_nat n)).

Definition block_for_addr a (p : Z) : Z := u64 (_offset_base a + Z.shiftr p block_shift).

Definition addr_for_block a (p : Z) : Z :=
  let delta := pointer_delta_sz p (_offset_base a) 1 in u64 (Z.shiftl delta block_shift).

Definition offset_addr_for_block a (p : Z) : option Z :=
  if p <? _raw_base a then Some (MemRegion.start (_covered_region a))
  else
    b ← bytes a !! p;
    if b =? clean_block then Some (MemRegion.end_ (_covered_region a))
    else
      let delta := pointer_delta_sz p (_offset_base a) 1 in
      let result := u64 (Z.shiftl delta block_shift) in
      Some (hw_add result b).

(** [initialize].  [granularity] is [os::vm_allocation_granularity()] and [reserve]
    makes the [ReservedSpace] of a size, [None] if there is none. *)
Definition initialize (granularity page_size : Z) (reserve : Z -> option ReservedSpace) (os : os_memory)
    (reserved_region : MemRegion.MemRegion) : option ObjectStartArray :=
  let bytes_to_reserve := MemRegion.word_size reserved_region / block_size_in_words in
  let bytes_to_reserve := align_size_up bytes_to_reserve granularity in
  backing_store ← reserve bytes_to_reserve;
  let '(ok, vs) := PSVirtualSpace.initialize os (unset page_size) backing_store 0 in
  if negb ok then None else
  let raw_base := _reserved_low_addr vs in
  if raw_base =? NULL then None else
  let offset_base := u64 (raw_base - Z.shiftr (MemRegion.start reserved_region) block_shift) in
  let covered := MemRegion.set_word_size
    (MemRegion.set_start MemRegion.empty (MemRegion.start reserved_region)) 0 in
  let blocks := MemRegion.set_word_size (MemRegion.set_start MemRegion.empty raw_base) 0 in
  Some (mkArray vs reserved_region covered blocks raw_base offset_base ∅).

Definition set_covered_region (page_size : Z) (os : os_memory) a (mr : MemRegion.MemRegion)
    : option ObjectStartArray :=
  let requested := MemRegion.word_size mr / block_size_in_words in
  let requested := align_size_up requested page_size in
  let current := MemRegion.byte_size (_blocks_region a) in
  '(vs, m) ←
    (if requested >? current then
       let expand_n := u64 (requested - current) in
       let '(ok, vs) := expand_by os (_virtual_space a) expand_n in
       if negb ok then None
       else Some (vs, memset (MemRegion.end_ (_blocks_region a)) clean_block expand_n (bytes a))
     else Some (_virtual_space a, bytes a));
  let '(vs, m) :=
    if requested <? current then
      let shrink_n := u64 (current - requested) in
      let '(ok, vs') := shrink_by os vs shrink_n in
      (vs', if ok && negb (_special vs) then uncommitted (_committed_high_addr vs') shrink_n m else m)
    else (vs, m) in
  Some (mkArray vs (_reserved_region a) mr
    (MemRegion.set_word_size (_blocks_region a) (requested / HeapWordSize))
    (_raw_base a) (_offset_base a) m).

Definition reset a : ObjectStartArray :=
  with_bytes a (memset (MemRegion.start (_blocks_region a)) clean_block
    (MemRegion.byte_size (_blocks_region a)) (bytes a)).

Definition allocate_block a (p : Z) : option ObjectStartArray :=
  let block := block_for_addr a p in
  let block_base := addr_for_block a block in
  let offset := pointer_delta_sz p block_base HeapWordSize in
  _ ← bytes a !! block;
  Some (with_bytes a (<[block := i8 offset]> (bytes a))).

Definition is_block_allocated a (addr : Z) : option bool :=
  b ← bytes a !! block_for_addr a addr;
  Some (negb (b =? clean_block)).

(** The loop of [object_starts_in_range] over [n] more blocks. *)
Fixpoint range_loop a (n : nat) (block : Z) : option bool :=
  match n with
  | O => Some false
  | S n =>
    b ← bytes a !! block;
    if negb (b =? clean_block) then Some true else range_loop a n (block + 1)
  end.

Definition object_starts_in_range a (start_addr end_addr : Z) : option bool :=
  if start_addr >? end_addr then Some false
  else
    let start_block := block_for_addr a start_addr in
    let end_block := block_for_addr a end_addr in
    range_loop a (Z.to_nat (end_block - start_block + 1)) start_block.

(** The backward loop of [object_start]: [offset_addr_for_block(block--)] until an
    address that is not above [addr]. *)
Fixpoint scroll_back a (addr : Z) (fuel : nat) (block : Z) : option Z :=
  match fuel with
  | O => None
  | S fuel =>
    scroll_forward ← offset_addr_for_block a block;
    if scroll_forward >? addr then scroll_back a addr fuel (block - 1)
    else Some scroll_forward
  end.

(** The backward loop of the version with a lower bound. *)
Fixpoint scroll_back_bound a (addr low_bound : Z) (fuel : nat) (block : Z) : option Z :=
  match fuel with
  | O => None
  | S fuel =>
    scroll_forward ← offset_addr_for_block a block;
    if scroll_forward >? addr then
      if (block - 1 >=? _raw_base a) && (addr_for_block a (block - 1) <? low_bound)
      then Some low_bound
      else scroll_back_bound a addr low_bound fuel (block - 1)
    else Some scroll_forward
  end.

(** The forward loop; [size_of] is [oop(p)->size()]. *)
Fixpoint scroll_on (size_of : Z -> Z) (addr : Z) (fuel : nat) (scroll_forward next : Z) : option Z :=
  match fuel with
  | O => None
  | S fuel =>
    if next <=? addr then scroll_on size_of addr fuel next (hw_add next (size_of next))
    else Some scroll_forward
  end.

(** Enough for the blocks down to [_raw_base] and the one before it. *)
Definition back_fuel a (block : Z) : nat := Z.to_nat (block - _raw_base a + 2).

(** Enough for objects of at least a word from [p] to [addr]. *)
Definition on_fuel (p addr : Z) : nat := Z.to_nat ((addr - p) / HeapWordSize + 2).

Definition object_start (size_of : Z -> Z) a (addr : Z) : option Z :=
  let block := block_for_addr a addr in
  scroll_forward ← scroll_back a addr (back_fuel a block) block;
  scroll_on size_of addr (on_fuel scroll_forward addr) scroll_forward scroll_forward.

Definition object_start_bound (size_of : Z -> Z) a (addr low_bound : Z) : option Z :=
  let block := block_for_addr a addr in
  scroll_forward ← scroll_back_bound a addr low_bound (back_fuel a block) block;
  let scroll_forward := if scroll_forward <? low_bound then low_bound else scroll_forward in
  scroll_on size_of addr (on_fuel scroll_forward addr) scroll_forward scroll_forward.

(** ** What the array records *)

(** The covered region: its start, of [n] blocks. *)
Definition base a : Z := MemRegion.start (_covered_region a).

(** An initialised array that covers [n] blocks. *)
Record wf a (n : Z) : Prop := {
  wf_base : 0 <= base a /\ base a mod 512 = 0;
  wf_covered : 0 <= n /\ base a + 512 * n < 2 ^ 64
    /\ MemRegion.word_size (_covered_region a) = 64 * n;
  wf_raw : 0 < _raw_base a /\ _raw_base a + n < 2 ^ 64;
  wf_offset : _offset_base a = u64 (_raw_base a - base a / 512)
}.

#[export] Instance wf_dec a n : Decision (wf a n).
Proof.
  refine (cast_if_and4 (decide (0 <= base a /\ base a mod 512 = 0))
    (decide (0 <= n /\ base a + 512 * n < 2 ^ 64 /\ MemRegion.word_size (_covered_region a) = 64 * n))
    (decide (0 < _raw_base a /\ _raw_base a + n < 2 ^ 64))
    (decide (_offset_base a = u64 (_raw_base a - base a / 512)))); [by split | by intros [] ..].
Defined.

(** The starts, among those recorded, that lie in the block at [b]; the one that was
    recorded last, and the byte for it. *)
Definition in_block (b : Z) (starts : list Z) : list Z :=
  filter (fun s => b <= s < b + 512) starts.
Definition last_start (b : Z) (starts : list Z) : option Z := last (in_block b starts).
Definition block_value (b : Z) (starts : list Z) : Z :=
  match last_start b starts with Some s => (s - b) / 8 | None => clean_block end.

(** The address is that of a heap word of the covered region. *)
Definition covered a (n : Z) (p : Z) : Prop :=
  base a <= p < base a + 512 * n /\ p mod 8 = 0.

#[export] Instance covered_dec a n p : Decision (covered a n p).
Proof. unfold covered. apply _. Defined.

(** The array holds the starts that were recorded, in this order. *)
Definition records a (n : Z) (starts : list Z) : Prop :=
  Forall (covered a n) starts
  /\ forall i, 0 <= i < n -> bytes a !! (_raw_base a + i) = Some (block_value (base a + 512 * i) starts).

Lemma block_for_addr_run a n p :
  wf a n -> base a <= p < base a + 512 * n ->
  block_for_addr a p = _raw_base a + (p - base a) / 512.
Proof.
  intros [[? Hm] (? & ? & _) ? Ho] Hp. unfold block_for_addr, block_shift. rewrite Ho.
  rewrite Z.shiftr_div_pow2 by lia. change (2 ^ 9) with 512. unfold wrap.
  rewrite Zplus_mod_idemp_l, Z.mod_small; lia.
Qed.

Lemma addr_for_block_run a n i :
  wf a n -> 0 <= i < n -> addr_for_block a (_raw_base a + i) = base a + 512 * i.
Proof.
  intros [[? Hm] (? & ? & _) ? Ho] Hi.
  unfold addr_for_block, pointer_delta_sz, block_shift. rewrite Ho, Z.div_1_r.
  replace (u64 (_raw_base a + i - u64 (_raw_base a - base a / 512))) with (i + base a / 512).
  - rewrite Z.shiftl_mul_pow2 by lia. change (2 ^ 9) with 512. rewrite u64_small; ulia.
  - unfold wrap. rewrite Zminus_mod_idemp_r. symmetry. rewrite Z.mod_small; lia.
Qed.

Lemma elem_of_in_block b s starts : s ∈ in_block b starts <-> s ∈ starts /\ b <= s < b + 512.
Proof. unfold in_block. rewrite list_elem_of_filter. tauto. Qed.

Lemma last_start_Some b s starts :
  last_start b starts = Some s -> s ∈ starts /\ b <= s < b + 512.
Proof. intros H%last_Some_elem_of. by apply elem_of_in_block in H. Qed.

(** Reading a block gives the start that was recorded last in it, or the end of
    the covered region. *)
Lemma offset_addr_run a n starts i :
  wf a n -> records a n starts -> 0 <= i < n ->
  offset_addr_for_block a (_raw_base a + i)
  = Some (default (base a + 512 * n) (last_start (base a + 512 * i) starts)).
Proof.
  intros Hwf [Hs Hr] Hi. pose proof (addr_for_block_run a n i Hwf Hi) as Ha.
  destruct Hwf as [[? Hm] (? & ? & Hw) ? Ho].
  unfold offset_addr_for_block. destruct (Z.ltb_spec (_raw_base a + i) (_raw_base a)); [lia|].
  rewrite Hr by done. cbn [mbind option_bind]. unfold block_value.
  destruct (last_start _ starts) as [s|] eqn:E; simpl.
  - apply last_start_Some in E as [Hin Hb].
    pose proof (proj1 (Forall_forall _ _) Hs s Hin) as [_ H8].
    destruct (Z.eqb_spec ((s - (base a + 512 * i)) / 8) clean_block) as [Hc|_];
      [unfold clean_block in Hc; lia|].
    unfold addr_for_block in Ha. cbv zeta in Ha. rewrite Ha, hw_add_small by lia. f_equal. lia.
  - f_equal. unfold MemRegion.end_. unfold MemRegion.word_size in Hw. rewrite Hw.
    fold (MemRegion.start (_covered_region a)). fold (base a). rewrite hw_add_small; lia.
Qed.

(** ** Finding the start of an object *)

Lemma below_first_block a : offset_addr_for_block a (_raw_base a - 1) = Some (base a).
Proof. unfold offset_addr_for_block. destruct (Z.ltb_spec (_raw_base a - 1) (_raw_base a)); [done|lia]. Qed.

Lemma scroll_back_run a n starts addr fuel i :
  wf a n -> records a n starts -> base a <= addr < base a + 512 * n ->
  -1 <= i < n -> (Z.to_nat (i + 2) <= fuel)%nat ->
  exists s, scroll_back a addr fuel (_raw_base a + i) = Some s
  /\ s <= addr /\ (s = base a \/ s ∈ starts).
Proof.
  intros Hwf Hr Ha. revert i. induction fuel as [|fuel IH]; intros i Hi Hf; [lia|].
  cbn [scroll_back]. destruct (decide (i = -1)) as [->|].
  - replace (_raw_base a + -1) with (_raw_base a - 1) by lia. rewrite below_first_block. simpl.
    destruct (Z.gtb_spec (base a) addr); [lia|]. exists (base a). auto.
  - rewrite (offset_addr_run a n starts) by (done || lia). cbn [mbind option_bind].
    destruct (Z.gtb_spec (default (base a + 512 * n) (last_start (base a + 512 * i) starts)) addr).
    + replace (_raw_base a + i - 1) with (_raw_base a + (i - 1)) by lia. apply IH; lia.
    + destruct (last_start _ starts) as [s|] eqn:E; simpl in *; [|lia].
      apply last_start_Some in E as [? _]. exists s. by auto.
Qed.

Lemma scroll_back_bound_run a n starts addr low fuel i :
  wf a n -> records a n starts -> base a <= addr < base a + 512 * n -> low <= addr ->
  -1 <= i < n -> (Z.to_nat (i + 2) <= fuel)%nat ->
  exists s, scroll_back_bound a addr low fuel (_raw_base a + i) = Some s
  /\ s <= addr /\ (s = base a \/ s = low \/ s ∈ starts).
Proof.
  intros Hwf Hr Ha Hl. revert i. induction fuel as [|fuel IH]; intros i Hi Hf; [lia|].
  cbn [scroll_back_bound]. destruct (decide (i = -1)) as [->|].
  - replace (_raw_base a + -1) with (_raw_base a - 1) by lia. rewrite below_first_block. simpl.
    destruct (Z.gtb_spec (base a) addr); [lia|]. exists (base a). auto.
  - rewrite (offset_addr_run a n starts) by (done || lia). cbn [mbind option_bind].
    destruct (Z.gtb_spec (default (base a + 512 * n) (last_start (base a + 512 * i) starts)) addr).
    + destruct ((_ >=? _) && _); [exists low; by auto|].
      replace (_raw_base a + i - 1) with (_raw_base a + (i - 1)) by lia. apply IH; lia.
    + destruct (last_start _ starts) as [s|] eqn:E; simpl in *; [|lia].
      apply last_start_Some in E as [? _]. exists s. by auto.
Qed.

(** The objects from one of a tiling on. *)
Lemma tiles_suffix size_of p l q s :
  tiles size_of p l q -> s ∈ l -> exists l', tiles size_of s l' q /\ l' ⊆ l.
Proof.
  revert p. induction l as [|x l IH]; intros p Ht Hs; [set_solver|].
  pose proof Ht as (-> & _ & Ht'). apply elem_of_cons in Hs as [->|Hs]; [by exists (p :: l)|].
  destruct (IH _ Ht' Hs) as (l' & ? & ?). exists l'. set_solver.
Qed.

Lemma scroll_on_run size_of addr q l p s fuel :
  tiles size_of p l q -> 0 <= p <= addr -> addr < q < 2 ^ 64 ->
  (on_fuel p addr <= fuel)%nat ->
  exists o, scroll_on size_of addr fuel s p = Some o /\ o ∈ l /\ o <= addr < o + 8 * size_of o.
Proof.
  revert p s fuel. induction l as [|x l IH]; intros p s fuel Ht Hp Hq Hf; [simpl in Ht; lia|].
  destruct Ht as (-> & Hs & Ht). pose proof (tiles_le _ _ _ _ Ht).
  unfold on_fuel, HeapWordSize in Hf.
  destruct fuel as [|fuel]; [lia|]. cbn [scroll_on].
  destruct (Z.leb_spec p addr); [|lia]. rewrite hw_add_small by lia.
  destruct (decide (p + 8 * size_of p <= addr)) as [Hle|Hgt].
  - destruct (IH (p + 8 * size_of p) p fuel Ht ltac:(lia) Hq) as (o & Eo & Ho & Hin).
    { unfold on_fuel, HeapWordSize. lia. }
    exists o. set_solver.
  - destruct fuel as [|fuel]; [lia|]. cbn [scroll_on].
    destruct (Z.leb_spec (p + 8 * size_of p) addr); [lia|]. exists p. set_solver by lia.
Qed.

(** From an address that is the lower bound or a recorded start, the forward loop
    finds the object of [addr]. *)
Lemma scroll_on_from size_of low (objs : list Z) hi (starts : list Z) addr s :
  tiles size_of low objs hi -> 0 <= low <= addr -> addr < hi < 2 ^ 64 ->
  (forall x, x ∈ starts -> low <= x < hi -> x ∈ objs) ->
  s = low \/ (s ∈ starts /\ low <= s) -> s <= addr ->
  exists o, scroll_on size_of addr (on_fuel s addr) s s = Some o
  /\ o ∈ objs /\ o <= addr < o + 8 * size_of o.
Proof.
  intros Ht Hl Hh Hst Hs Hsa.
  assert (H : exists l', tiles size_of s l' hi /\ l' ⊆ objs).
  { destruct Hs as [->|[Hs Hge]]; [by exists objs|].
    apply (tiles_suffix _ _ _ _ _ Ht), Hst; [done|lia]. }
  destruct H as (l' & Ht' & Hsub).
  destruct (scroll_on_run size_of addr hi l' s s (on_fuel s addr) Ht' ltac:(lia) Hh ltac:(lia))
    as (o & ? & ? & ?). exists o. set_solver.
Qed.

(** Objects do not overlap, so the object of an address is unique. *)
Lemma tiles_unique size_of p l q o1 o2 addr :
  tiles size_of p l q -> o1 ∈ l -> o2 ∈ l ->
  o1 <= addr < o1 + 8 * size_of o1 -> o2 <= addr < o2 + 8 * size_of o2 -> o1 = o2.
Proof.
  revert p. induction l as [|x l IH]; intros p Ht H1 H2; [set_solver|].
  destruct Ht as (-> & Hs & Ht).
  assert (Hge : forall o, o ∈ l -> p + 8 * size_of p <= o).
  { clear -Ht. intros o. revert Ht. generalize (p + 8 * size_of p). induction l as [|x l IH];
      intros z Ht Ho; [set_solver|]. destruct Ht as (-> & ? & Ht).
    apply elem_of_cons in Ho as [->|Ho]; [lia|]. specialize (IH _ Ht Ho). lia. }
  apply elem_of_cons in H1 as [->|H1], H2 as [->|H2]; intros; try lia.
  - specialize (Hge _ H2). lia.
  - specialize (Hge _ H1). lia.
  - eauto.
Qed.

Lemma object_start_finds (size_of : Z -> Z) (a : ObjectStartArray) (n : Z)
    (starts : list Z) (low hi : Z) (objs : list Z) (addr : Z)
    (Hwf : wf a n) (Hr : records a n starts)
    (Hlow : base a <= low) (Hhi : hi <= base a + 512 * n)
    (Ht : tiles size_of low objs hi)
    (Hst : forall s, s ∈ starts -> low <= s < hi -> s ∈ objs)
    (Ha : low <= addr < hi) :
  exists o, o ∈ objs /\ o <= addr < o + 8 * size_of o
  /\ object_start_bound size_of a addr low = Some o
  /\ (low = base a -> object_start size_of a addr = Some o).
Proof.
  pose proof (wf_base _ _ Hwf). pose proof (wf_covered _ _ Hwf).
  assert (Hb : block_for_addr a addr = _raw_base a + (addr - base a) / 512)
    by (apply (block_for_addr_run a n); [done|lia]).
  assert (Hi : -1 <= (addr - base a) / 512 < n) by lia.
  destruct (scroll_back_bound_run a n starts addr low (back_fuel a (block_for_addr a addr)) _
    Hwf Hr ltac:(lia) ltac:(lia) Hi) as (s & Es & Hs & Hcase).
  { unfold back_fuel. rewrite Hb. lia. }
  destruct (scroll_on_from size_of low objs hi starts addr (if s <? low then low else s) Ht)
    as (o & Eo & Ho & Hin); try lia; try done.
  { destruct (Z.ltb_spec s low); [by left|]. destruct Hcase as [->|[->|?]]; [left; lia|by left|by right]. }
  { destruct (Z.ltb_spec s low); lia. }
  exists o. split; [done|]. split; [done|]. split.
  { unfold object_start_bound. rewrite Hb in *. by rewrite Es. }
  intros ->. unfold object_start.
  destruct (scroll_back_run a n starts addr (back_fuel a (block_for_addr a addr)) _
    Hwf Hr ltac:(lia) Hi) as (s' & Es' & Hs' & Hcase').
  { unfold back_fuel. rewrite Hb. lia. }
  rewrite Hb in *. rewrite Es'. cbn [mbind option_bind].
  assert (base a <= s').
  { destruct Hcase' as [->|Hx]; [lia|]. destruct Hr as [Hc _].
    pose proof (proj1 (Forall_forall _ _) Hc _ Hx) as [? _]. lia. }
  destruct (scroll_on_from size_of (base a) objs hi starts addr s' Ht)
    as (o' & Eo' & Ho' & Hin'); try lia; try done.
  { destruct Hcase' as [->|?]; [by left|by right]. }
  rewrite Eo'. f_equal. by eapply tiles_unique.
Qed.

(** C28. Both versions of [object_start] find the object an address lies in.  Let the
    addresses from [low] to [hi], in the covered region, be tiled by objects, and
    let every recorded start between the two be that of one of these objects;
    nothing is assumed of the memory outside, nor that every object is recorded.
    For each address of the tiled part, the version with the lower bound [low]
    terminates with the start of the object that contains the address; the version
    without a bound does when the tiling begins at the start of the region. *)
Theorem object_start_spec (size_of : Z -> Z) (a : ObjectStartArray) (n : Z)
    (starts : list Z) (low hi : Z) (objs : list Z) (addr : Z)
    (Hwf : wf a n) (Hr : records a n starts)
    (Hlow : base a <= low) (Hhi : hi <= base a + 512 * n)
    (Ht : tiles size_of low objs hi)
    (Hst : forall s, s ∈ starts -> low <= s < hi -> s ∈ objs)
    (Ha : low <= addr < hi) :
  exists o, o ∈ objs /\ o <= addr < o + 8 * size_of o
  /\ object_start_bound size_of a addr low = Some o
  /\ (low = base a -> object_start size_of a addr = Some o).
Proof. by apply (object_start_finds size_of a n starts low hi objs addr). Qed.

(** ** Recording *)

Lemma lookup_memset from v k m p :
  0 <= k -> memset from v k m !! p = if (from <=? p) && (p <? from + k) then Some v else m !! p.
Proof.
  intros Hk. unfold memset. replace k with (Z.of_nat (Z.to_nat k)) at 2 by lia.
  generalize (Z.to_nat k) as j. intros j. revert from. induction j as [|j IH]; intros from; simpl.
  - case_cmp; try lia; done.
  - destruct (decide (from = p)) as [->|Hne].
    + rewrite lookup_insert_eq. case_cmp; try lia; done.
    + rewrite lookup_insert_ne by done. rewrite IH. case_cmp; try lia; done.
Qed.

Lemma allocate_block_run a n starts p :
  wf a n -> records a n starts -> covered a n p ->
  exists a', allocate_block a p = Some a' /\ wf a' n /\ base a' = base a
  /\ _blocks_region a' = _blocks_region a /\ _raw_base a' = _raw_base a
  /\ records a' n (starts ++ [p]).
Proof.
  intros Hwf [Hs Hr] [Hp H8]. unfold allocate_block. cbv zeta.
  rewrite (block_for_addr_run a n p) by done.
  pose proof (wf_base _ _ Hwf). pose proof (wf_covered _ _ Hwf).
  set (i := (p - base a) / 512). assert (0 <= i < n) by lia.
  rewrite Hr, (addr_for_block_run a n) by done. cbn [mbind option_bind].
  eexists. split; [done|]. split; [by destruct Hwf|]. split; [done|]. split; [done|]. split; [done|]. split.
  { apply Forall_app. split; [done|]. by apply Forall_singleton. }
  intros j Hj. unfold with_bytes, base. cbn [bytes _raw_base _covered_region]. fold (base a).
  unfold block_value, last_start, in_block. rewrite filter_app, filter_cons, filter_nil.
  destruct (decide (j = i)) as [->|Hne].
  - rewrite lookup_insert_eq, decide_True, last_snoc by lia.
    unfold pointer_delta_sz, HeapWordSize. rewrite u64_small by ulia.
    rewrite swrap_small; [done|lia|lia].
  - rewrite lookup_insert_ne by lia. rewrite decide_False, app_nil_r by lia. by apply Hr.
Qed.

(** The blocks have backing store. *)
Definition backed a (n : Z) : Prop :=
  MemRegion.start (_blocks_region a) = _raw_base a /\ n <= MemRegion.byte_size (_blocks_region a).

#[export] Instance backed_dec a n : Decision (backed a n).
Proof. unfold backed. apply _. Defined.

Lemma reset_run a n : wf a n -> backed a n -> wf (reset a) n /\ records (reset a) n [].
Proof.
  intros Hwf [Hb Hn]. split; [by destruct Hwf|]. split; [done|]. intros i Hi.
  unfold reset, with_bytes. cbn [bytes _raw_base].
  rewrite lookup_memset by (unfold MemRegion.byte_size; ulia). rewrite Hb.
  case_cmp; try lia; done.
Qed.

Lemma block_value_clean b starts :
  Forall (fun s => s mod 8 = 0) starts -> b mod 8 = 0 ->
  (block_value b starts =? clean_block) = bool_decide (Forall (fun s => ~ b <= s < b + 512) starts).
Proof.
  intros H8 Hb. unfold block_value. destruct (last_start b starts) as [s|] eqn:E.
  - apply last_start_Some in E as [Hs Hin]. rewrite bool_decide_false.
    + apply Z.eqb_neq. unfold clean_block. lia.
    + intros HF. by apply (proj1 (Forall_forall _ _) HF s Hs).
  - apply last_None in E. rewrite bool_decide_true; [done|].
    apply Forall_forall. intros s Hs Hin.
    assert (H : s ∈ in_block b starts) by by apply elem_of_in_block. rewrite E in H. set_solver.
Qed.

(** The number of the block of an address. *)
Definition block_index a (p : Z) : Z := (p - base a) / 512.

Lemma range_loop_run a n starts k i :
  wf a n -> records a n starts -> 0 <= i -> i + Z.of_nat k <= n ->
  range_loop a k (_raw_base a + i)
  = Some (bool_decide (Exists (fun s => i <= block_index a s < i + Z.of_nat k) starts)).
Proof.
  intros Hwf [Hs Hr]. revert i. induction k as [|k IH]; intros i Hi Hk; cbn [range_loop].
  - rewrite bool_decide_false; [done|]. intros (s & _ & ?)%Exists_exists. lia.
  - rewrite Hr by lia. cbn [mbind option_bind].
    pose proof (wf_base _ _ Hwf) as [_ Hm].
    rewrite block_value_clean.
    2: { eapply Forall_impl; [exact Hs|]. by intros s [_ ?]. }
    2: { lia. }
    unfold block_index in *. case_bool_decide as Hall; simpl.
    + replace (_raw_base a + i + 1) with (_raw_base a + (i + 1)) by lia. rewrite IH by lia.
      f_equal. apply bool_decide_ext. rewrite !Exists_exists.
      split; intros (s & Hin & ?); exists s; (split; [done|]).
      * lia.
      * pose proof (proj1 (Forall_forall _ _) Hall s Hin) as Hout. simpl in Hout. lia.
    + rewrite bool_decide_true; [done|].
      apply not_Forall_Exists in Hall; [|apply _].
      eapply Exists_impl; [exact Hall|]. simpl. intros s Hin.
      destruct (decide (base a + 512 * i <= s < base a + 512 * i + 512)); [|tauto]. lia.
Qed.

Lemma starts_in_range_run a n starts p q :
  wf a n -> records a n starts -> covered a n p -> covered a n q ->
  object_starts_in_range a p q
  = Some (bool_decide (p <= q /\
      Exists (fun s => block_index a p <= block_index a s <= block_index a q) starts)).
Proof.
  intros Hwf Hr [Hp1 _] [Hq1 _].
  pose proof (wf_base _ _ Hwf). pose proof (wf_covered _ _ Hwf).
  unfold object_starts_in_range. rewrite !(block_for_addr_run a n) by done.
  fold (block_index a p). fold (block_index a q).
  destruct (Z.gtb_spec p q) as [Hgt|Hle].
  { rewrite bool_decide_false; [done|]. lia. }
  assert (0 <= block_index a p <= block_index a q) by (unfold block_index; lia).
  assert (block_index a q < n) by (unfold block_index; lia).
  rewrite (range_loop_run a n starts) by (done || lia).
  f_equal. apply bool_decide_ext. rewrite !Exists_exists. split.
  + intros (s & ? & ?). split; [done|]. exists s. split; [done|lia].
  + intros (_ & s & ? & ?). exists s. split; [done|lia].
Qed.

(** What the array records.  [allocate_block] of a word of the covered region
    succeeds and records it after those recorded before; [reset] forgets all.
    [is_block_allocated] tells whether a start is recorded in the block of the
    address, and [object_starts_in_range] whether one is recorded in the blocks from
    that of the first address to that of the last one, inclusive. *)
Theorem recording_spec (a : ObjectStartArray) (n : Z) (starts : list Z) (p q : Z)
    (Hwf : wf a n) (Hr : records a n starts) (Hb : backed a n)
    (Hp : covered a n p) (Hq : covered a n q) :
  (exists a', allocate_block a p = Some a' /\ wf a' n /\ backed a' n
     /\ records a' n (starts ++ [p]))
  /\ (wf (reset a) n /\ records (reset a) n [])
  /\ is_block_allocated a p
     = Some (bool_decide (Exists (fun s => block_index a s = block_index a p) starts))
  /\ object_starts_in_range a p q
     = Some (bool_decide (p <= q /\
         Exists (fun s => block_index a p <= block_index a s <= block_index a q) starts)).
Proof.
  split; [|split; [by apply reset_run|]].
  { destruct (allocate_block_run a n starts p Hwf Hr Hp) as (a' & E & Hwf' & _ & Hbl & Hraw & Hr').
    exists a'. split_and!; try done. unfold backed. by rewrite Hbl, Hraw. }
  pose proof Hp as [Hp1 _]. pose proof Hq as [Hq1 _].
  pose proof (wf_base _ _ Hwf). pose proof (wf_covered _ _ Hwf). split.
  - assert (H1 := range_loop_run a n starts 1 (block_index a p) Hwf Hr).
    cbn [range_loop] in H1. unfold is_block_allocated.
    rewrite (block_for_addr_run a n p) by done. fold (block_index a p).
    assert (0 <= block_index a p < n) by (unfold block_index; lia).
    specialize (H1 ltac:(lia) ltac:(lia)).
    destruct (bytes a !! _) as [b|]; [|done]. cbn [mbind option_bind] in *.
    assert (E : Some (negb (b =? clean_block)) = if negb (b =? clean_block) then Some true else Some false)
      by by destruct (negb _).
    rewrite E, H1. f_equal. apply bool_decide_ext. rewrite !Exists_exists.
    split; intros (s & ? & ?); exists s; (split; [done|lia]).
  - by apply (starts_in_range_run a n).
Qed.

(** An array that covers four blocks from the address 4096. *)
Definition sample : ObjectStartArray :=
  mkArray (mkVirtualSpace 4096 8192 12288 8192 12288 false)
    (MemRegion.mkMemRegion 4096 256) (MemRegion.mkMemRegion 4096 256)
    (MemRegion.mkMemRegion 8192 1) 8192 (8192 - 8) ∅.

Lemma sample_wf : wf (reset sample) 4.
Proof. decide_now. Qed.

Lemma sample_records : records (reset sample) 4 [].
Proof. apply (reset_run sample 4); decide_now. Qed.

Lemma recording_spec_witness :
  is_block_allocated (reset sample) 4104 = Some false
  /\ exists a', allocate_block (reset sample) 4104 = Some a'.
Proof.
  destruct (recording_spec (reset sample) 4 [] 4104 4104 ltac:(decide_now) sample_records
    ltac:(decide_now) ltac:(decide_now) ltac:(decide_now)) as ((a' & E & _) & _ & H & _).
  split; [exact H | by exists a'].
Defined.

(** A segment from 4608 with an object of 80 words and one of 16, of which the second
    is recorded, next to the start of an unrelated object below it. *)
Definition sample_size (p : Z) : Z := if p =? 4608 then 80 else 16.
Definition sample_array : ObjectStartArray :=
  default sample (a ← allocate_block (reset sample) 4104; allocate_block a 5248).

Lemma sample_array_records : records sample_array 4 [4104; 5248].
Proof.
  destruct (allocate_block_run (reset sample) 4 [] 4104 ltac:(decide_now) sample_records
    ltac:(decide_now)) as (a1 & E1 & Hwf1 & Hb1 & _ & _ & Hr1).
  assert (Hc : covered a1 4 5248) by (unfold covered; rewrite Hb1; decide_now).
  destruct (allocate_block_run a1 4 _ 5248 Hwf1 Hr1 Hc) as (a2 & E2 & _ & _ & _ & _ & Hr2).
  unfold sample_array. rewrite E1. cbn [mbind option_bind]. rewrite E2. exact Hr2.
Qed.

Lemma object_start_spec_witness : object_start_bound sample_size sample_array 5000 4608 = Some 4608.
Proof.
  destruct (object_start_spec sample_size sample_array 4 [4104; 5248] 4608 5376 [4608; 5248] 5000)
    as (o & Ho & Hin & E & _).
  - decide_now.
  - exact sample_array_records.
  - vm_compute. discriminate.
  - vm_compute. discriminate.
  - vm_compute. tauto.
  - intros s. rewrite !elem_of_cons. intros [->|[->|H]] ?; [lia | tauto | set_solver].
  - lia.
  - rewrite E. rewrite !elem_of_cons in Ho. destruct Ho as [->|[->|Ho]]; [done | | set_solver].
    exfalso. lia.
Defined.

(** ** Changing the covered region *)

(** When the region grows past the committed blocks, these keep their values and the
    new ones are clean. *)
Lemma set_covered_region_grow page_size os a mr a' :
  MemRegion.start (_blocks_region a) = _raw_base a ->
  0 <= _raw_base a -> 0 <= MemRegion._word_size (_blocks_region a) ->
  let current := 8 * MemRegion._word_size (_blocks_region a) in
  let requested := align_size_up (MemRegion.word_size mr / block_size_in_words) page_size in
  _raw_base a + requested < 2 ^ 64 -> current < requested ->
  set_covered_region page_size os a mr = Some a' ->
  _covered_region a' = mr /\ _raw_base a' = _raw_base a /\ _offset_base a' = _offset_base a
  /\ forall i, 0 <= i < requested ->
     bytes a' !! (_raw_base a + i)
     = if i <? current then bytes a !! (_raw_base a + i) else Some clean_block.
Proof.
  intros Hb Hr Hw current requested Hreq Hlt. unfold set_covered_region. fold requested.
  assert (Hc : MemRegion.byte_size (_blocks_region a) = current).
  { unfold MemRegion.byte_size, current. rewrite u64_small; ulia. }
  rewrite Hc. destruct (Z.gtb_spec requested current); [|lia].
  rewrite (u64_small (requested - current)) by ulia.
  destruct (expand_by os (_virtual_space a) (requested - current)) as [[|] vs]; [|done].
  cbn [negb mbind option_bind]. destruct (Z.ltb_spec requested current); [lia|].
  intros [= <-]. cbn [_covered_region _raw_base _offset_base bytes]. split_and!; try done.
  intros i Hi. rewrite lookup_memset by lia.
  assert (He : MemRegion.end_ (_blocks_region a) = _raw_base a + current).
  { unfold MemRegion.end_. unfold MemRegion.start in Hb. rewrite Hb, hw_add_small; unfold current in *; lia. }
  rewrite He. case_cmp; try lia; done.
Qed.

End ObjectStartArray.
