(* ===== verification/CollectedHeap.v ===== *)
(** * Filler objects

    [gc_interface/collectedHeap.cpp], [collectedHeap.hpp] and
    [collectedHeap.inline.hpp]: turning raw memory into dead objects, so that the
    heap stays a sequence of objects.  An operation returns the objects it writes;
    the size of an object is what [oop::size] computes from what was written
    ([oops/typeArrayOop.hpp], [oops/arrayOop.hpp]). *)

From Stdlib Require Import ZArith Lia.
From stdpp Require Import base numbers list.
From S2P Require Import Prelude GlobalDefs.

Local Open Scope Z_scope.

Module CollectedHeap.

(** The flags that the layout of objects depends on. *)
Record config := mkConfig { UseCompressedClassPointers : bool; MinObjAlignment : Z }.

Definition max_jint : Z := 2 ^ 31 - 1.

(** [arrayOopDesc::header_size_in_bytes]: the length is an [int] after the class
    pointer, which takes 4 bytes if compressed. *)
Definition length_offset_in_bytes (g : config) : Z :=
  if UseCompressedClassPointers g then 12 else 16.
Definition header_size_in_bytes (g : config) : Z :=
  align_size_up (length_offset_in_bytes g + 4) HeapWordSize.

(** [arrayOopDesc::header_size(T_INT)], in words. *)
Definition header_size (g : config) : Z := header_size_in_bytes g / HeapWordSize.

(** [arrayOopDesc::max_array_length(T_INT)] *)
Definition max_array_length (g : config) : Z :=
  let max_element_words_per_size_t :=
    align_size_down ((2 ^ 64 - 1) / HeapWordSize - header_size g) (MinObjAlignment g) in
  let max_elements_per_size_t := u64 (HeapWordSize * max_element_words_per_size_t) / 4 in
  if max_jint <? max_elements_per_size_t
  then align_size_down (max_jint - header_size g) (MinObjAlignment g)
  else i32 max_elements_per_size_t.

(** [typeArrayOopDesc::object_size] for an array of [int]. *)
Definition int_array_size (g : config) (length : Z) : Z :=
  let size_in_bytes := u64 (Z.shiftl (u32 length) 2) in
  let size_in_bytes := u64 (size_in_bytes + header_size g * HeapWordSize) in
  let size_in_words := Z.shiftr (u64 (size_in_bytes + (HeapWordSize - 1))) LogHeapWordSize in
  align_object_size (MinObjAlignment g) size_in_words.

(** [HeapWordsPerLong] is 1. *)
Definition align_object_offset (offset : Z) : Z := align_size_up offset 1.

Definition filler_array_hdr_size (g : config) : Z := align_object_offset (header_size g).
Definition filler_array_min_size (g : config) : Z :=
  align_object_size (MinObjAlignment g) (filler_array_hdr_size g).
(** [_filler_array_max_size], as the constructor sets it. *)
Definition filler_array_max_size (g : config) : Z :=
  align_object_size (MinObjAlignment g) (filler_array_hdr_size g + max_array_length g / 2).
(** [oopDesc::header_size()] is 2 words. *)
Definition min_fill_size (g : config) : Z := align_object_size (MinObjAlignment g) 2.

(** An object that fills memory: an array of [int] with its length, or an instance
    of [java.lang.Object]. *)
Inductive filler := IntArray (addr length : Z) | PlainObject (addr : Z).

#[export] Instance filler_eq_dec : EqDecision filler.
Proof. solve_decision. Defined.

Definition filler_addr (f : filler) : Z :=
  match f with IntArray addr _ => addr | PlainObject addr => addr end.
Definition filler_size (g : config) (f : filler) : Z :=
  match f with IntArray _ len => int_array_size g len | PlainObject _ => min_fill_size g end.

Definition fill_with_array (g : config) (start words : Z) : filler :=
  let payload_size := u64 (words - filler_array_hdr_size g) in
  let len := u64 (payload_size * HeapWordSize) / 4 in
  IntArray start (i32 len).

Definition fill_with_object_impl (g : config) (start words : Z) : list filler :=
  if words >=? filler_array_min_size g then [fill_with_array g start words]
  else if words >? 0 then [PlainObject start]
  else [].

Definition fill_with_object (g : config) (start words : Z) : list filler :=
  fill_with_object_impl g start words.

(** The loop of [fill_with_objects] and what follows it. *)
Fixpoint fill_loop (g : config) (fuel : nat) (start words : Z) : option (list filler) :=
  match fuel with
  | O => None
  | S fuel =>
    let min := min_fill_size g in
    let max := filler_array_max_size g in
    if words >? max then
      let cur := if u64 (words - max) >=? min then max else u64 (max - min) in
      rest ← fill_loop g fuel (hw_add start cur) (u64 (words - cur));
      Some (fill_with_array g start cur :: rest)
    else Some (fill_with_object_impl g start words)
  end.

(** Each iteration takes more than [2^29] words. *)
Definition fill_fuel (words : Z) : nat := Z.to_nat (words / 2 ^ 29 + 1).

Definition fill_with_objects (g : config) (start words : Z) : option (list filler) :=
  fill_loop g (fill_fuel words) start words.

(** [align_allocation_or_fail]: the address, [NULL] on failure, and the padding. *)
Definition align_allocation_or_fail (g : config) (addr end_ alignment_in_bytes : Z)
    : Z * list filler :=
  if alignment_in_bytes <=? MinObjAlignment g * HeapWordSize then (addr, [])
  else
    let new_addr := align_ptr_up addr alignment_in_bytes in
    let padding := pointer_delta new_addr addr in
    if padding =? 0 then (addr, [])
    else
      let '(padding, new_addr) :=
        if padding <? min_fill_size g then
          let padding := u64 (padding + alignment_in_bytes / HeapWordSize) in
          (padding, hw_add addr padding)
        else (padding, new_addr) in
      if new_addr <? end_ then (new_addr, fill_with_object g addr padding) else (NULL, []).

(** ** Tilings by fillers *)

(** The fillers are consecutive objects from [p] to [q]. *)
Fixpoint fills (g : config) (p : Z) (l : list filler) (q : Z) : Prop :=
  match l with
  | [] => p = q
  | f :: l => filler_addr f = p /\ 0 < filler_size g f /\ fills g (p + 8 * filler_size g f) l q
  end.

(** The supported alignments of objects, 8 to 256 bytes, but for the one for which
    [filler_array_max_size] is too large (see [max_filler_overflows]). *)
Definition wf (g : config) : Prop :=
  (MinObjAlignment g ∈ [1; 2; 4; 8; 16; 32])
  /\ ~ (UseCompressedClassPointers g = false /\ MinObjAlignment g = 4).

#[export] Instance wf_dec g : Decision (wf g).
Proof. unfold wf. apply _. Defined.

Lemma wf_cases (P : config -> Prop) g :
  wf g ->
  (forall c, P (mkConfig c 1)) -> (forall c, P (mkConfig c 2)) -> P (mkConfig true 4) ->
  (forall c, P (mkConfig c 8)) -> (forall c, P (mkConfig c 16)) -> (forall c, P (mkConfig c 32)) -> P g.
Proof. destruct g as [[|] a]; unfold wf; simpl; rewrite !elem_of_cons, elem_of_nil; naive_solver. Qed.

(** The constants of the fillers. *)
Record constants (g : config) : Prop := {
  c_align : exists k, MinObjAlignment g = 2 ^ k /\ 0 <= k <= 5;
  c_hdr : filler_array_hdr_size g = header_size g /\ 2 <= header_size g <= 3;
  c_min : 2 <= min_fill_size g <= filler_array_min_size g /\ filler_array_min_size g <= 32;
  c_max : 2 ^ 30 <= filler_array_max_size g /\ 2 * (filler_array_max_size g - header_size g) < 2 ^ 31;
  c_mod : min_fill_size g mod MinObjAlignment g = 0 /\ filler_array_max_size g mod MinObjAlignment g = 0;
  c_hole : header_size g <= filler_array_min_size g;
  c_gap : forall w, w mod MinObjAlignment g = 0 -> min_fill_size g <= w < filler_array_min_size g ->
            w = min_fill_size g
}.

Lemma wf_constants g : wf g -> constants g.
Proof.
  intros Hg. apply (wf_cases _ _ Hg); try intros [|]; (split;
    [ | decide_now | decide_now | decide_now | decide_now | decide_now | ]).
  all: try (cbn [MinObjAlignment]; first
    [ by exists 0 | by exists 1 | by exists 2 | by exists 3 | by exists 4 | by exists 5 ]).
  all: intros w; vm_compute min_fill_size; vm_compute filler_array_min_size; cbn [MinObjAlignment]; lia.
Qed.

Lemma align_object_size_multiple g w :
  constants g -> 0 <= w < 2 ^ 63 -> w mod MinObjAlignment g = 0 ->
  align_object_size (MinObjAlignment g) w = w.
Proof.
  intros Hc Hw Hm. destruct (c_align g Hc) as (k & Hk & Hk5).
  unfold align_object_size, align_size_up. rewrite Hk in *.
  assert (1 <= 2 ^ k <= 2 ^ 5) by (split; [lia|apply Z.pow_le_mono_r; lia]).
  destruct (align_size_up_spec w k) as [H1 H2]; [lia..|].
  set (r := align_size_up_ w (2 ^ k)) in *.
  apply Z.div_exact in H1, Hm; [|lia..]. revert H1 H2 Hm.
  generalize (r / 2 ^ k) (w / 2 ^ k). intros a b Ha Hr Hb.
  assert (a = b) as -> by nia. lia.
Qed.

(** The array written for a size has that size. *)
Lemma fill_with_array_size g start words :
  constants g -> filler_array_min_size g <= words <= filler_array_max_size g ->
  words mod MinObjAlignment g = 0 ->
  filler_addr (fill_with_array g start words) = start
  /\ filler_size g (fill_with_array g start words) = words.
Proof.
  intros Hc Hw Hm. split; [done|]. unfold fill_with_array, filler_size, int_array_size. cbv zeta.
  destruct (c_hdr g Hc) as [Hh Hh2]. rewrite Hh. pose proof (c_max g Hc). pose proof (c_min g Hc).
  pose proof (c_hole g Hc). unfold HeapWordSize, LogHeapWordSize.
  rewrite (u64_small (words - header_size g)) by ulia.
  rewrite (u64_small ((words - header_size g) * 8)) by ulia.
  rewrite swrap_small by lia.
  rewrite (wrap_small 32) by lia. rewrite Z.shiftl_mul_pow2, Z.shiftr_div_pow2 by lia.
  change (2 ^ 2) with 4. change (2 ^ 3) with 8.
  replace ((words - header_size g) * 8 / 4 * 4) with ((words - header_size g) * 8) by lia.
  rewrite (u64_small ((words - header_size g) * 8)) by ulia.
  rewrite (u64_small ((words - header_size g) * 8 + header_size g * 8)) by ulia.
  rewrite u64_small by ulia.
  replace (((words - header_size g) * 8 + header_size g * 8 + (8 - 1)) / 8) with words by lia.
  apply align_object_size_multiple; [done|lia|done].
Qed.

Lemma fill_with_object_fills g start words :
  constants g -> words = 0 \/ min_fill_size g <= words -> words <= filler_array_max_size g ->
  words mod MinObjAlignment g = 0 ->
  fills g start (fill_with_object_impl g start words) (start + 8 * words).
Proof.
  intros Hc Hw Hmax Hm. pose proof (c_min g Hc). unfold fill_with_object_impl.
  destruct (Z.geb_spec words (filler_array_min_size g)).
  - destruct (fill_with_array_size g start words Hc ltac:(lia) Hm) as [Ha Hs].
    cbn [fills]. rewrite Ha, Hs. split_and!; [done|lia|done].
  - destruct (Z.gtb_spec words 0).
    + assert (words = min_fill_size g) as -> by (apply (c_gap g Hc); [done|lia]).
      cbn [fills filler_addr filler_size]. split_and!; [done|lia|done].
    + cbn [fills]. lia.
Qed.

Lemma fill_loop_fills g fuel start words :
  constants g -> min_fill_size g <= words -> words mod MinObjAlignment g = 0 ->
  0 <= start -> start + 8 * words < 2 ^ 64 -> words < 2 ^ 29 * Z.of_nat fuel ->
  exists l, fill_loop g fuel start words = Some l /\ fills g start l (start + 8 * words).
Proof.
  intros Hc. pose proof (c_min g Hc). pose proof (c_max g Hc). pose proof (c_mod g Hc) as [Hm1 Hm2].
  destruct (c_align g Hc) as (k & Hk & Hk5).
  assert (HA : 0 < MinObjAlignment g) by lia.
  revert start words. induction fuel as [|fuel IH]; intros start words Hw Hm Hs He Hf; [lia|].
  cbn [fill_loop]. cbv zeta.
  destruct (Z.gtb_spec words (filler_array_max_size g)) as [Hgt|Hle]; cycle 1.
  { eexists. split; [done|]. apply fill_with_object_fills; auto. }
  rewrite (u64_small (words - _)), (u64_small (_ - min_fill_size g)) by ulia.
  set (cur := if words - filler_array_max_size g >=? min_fill_size g
              then filler_array_max_size g else filler_array_max_size g - min_fill_size g).
  assert (Hcur : filler_array_max_size g - min_fill_size g <= cur <= filler_array_max_size g
                 /\ min_fill_size g <= words - cur /\ cur mod MinObjAlignment g = 0).
  { unfold cur. destruct (Z.geb_spec (words - filler_array_max_size g) (min_fill_size g)).
    - split_and!; lia.
    - split_and!; [lia..|]. rewrite Zminus_mod, Hm1, Hm2. by apply Zmod_0_l. }
  destruct Hcur as (Hc1 & Hc2 & Hc3).
  rewrite (u64_small (words - cur)), hw_add_small by ulia.
  destruct (IH (start + 8 * cur) (words - cur)) as (l & -> & Hl); [lia| |lia|lia|lia|].
  { rewrite Zminus_mod, Hm, Hc3. by apply Zmod_0_l. }
  cbn [mbind option_bind]. eexists. split; [done|]. cbn [fills].
  destruct (fill_with_array_size g start cur Hc ltac:(lia) Hc3) as [Ha Hsz].
  rewrite Ha, Hsz. split_and!; [done|lia|].
  replace (start + 8 * words) with (start + 8 * cur + 8 * (words - cur)) by lia. exact Hl.
Qed.

(** C30. [fill_with_objects] turns any range of memory that can be filled into objects:
    it terminates, and the objects it writes, with the sizes that the collector later
    computes from their headers, lie one after the other from the start of the
    range to its end. *)
Theorem fill_with_objects_tiles (g : config) (start words : Z)
    (Hg : wf g) (Hw : min_fill_size g <= words) (Hm : words mod MinObjAlignment g = 0)
    (Hs : 0 <= start) (He : start + 8 * words < 2 ^ 64) :
  exists l, fill_with_objects g start words = Some l /\ fills g start l (start + 8 * words).
Proof.
  pose proof (wf_constants g Hg) as Hc. pose proof (c_min g Hc).
  apply fill_loop_fills; try done. unfold fill_fuel. lia.
Qed.

(** A range of [2^31 + 1] words takes two objects. *)
Lemma fill_with_objects_tiles_witness :
  length <$> fill_with_objects (mkConfig false 1) 4096 (2 ^ 31 + 1) = Some 2%nat
  /\ exists l, fill_with_objects (mkConfig false 1) 4096 (2 ^ 31 + 1) = Some l
     /\ fills (mkConfig false 1) 4096 l (4096 + 8 * (2 ^ 31 + 1)).
Proof.
  split; [vm_compute; reflexivity|].
  apply (fill_with_objects_tiles (mkConfig false 1) 4096 (2 ^ 31 + 1));
    [decide_now | vm_compute; discriminate | reflexivity | lia | lia].
Defined.

(** Without compressed class pointers and with objects aligned to 32 bytes, the
    largest filler array is too large: the limit of its length is rounded up to the
    alignment after it was halved, the length of an array of that size exceeds the
    range of [int], and [fill_with_objects] writes an array with a negative length. *)
Theorem max_filler_overflows :
  let g := mkConfig false 4 in
  fill_with_objects g 4096 (filler_array_max_size g) = Some [IntArray 4096 (- 2 ^ 31 + 2)].
Proof. vm_compute. reflexivity. Qed.

(** ** Aligned allocation in the young buffer *)

(** An alignment above that of objects, in units of objects. *)
Lemma alignment_units g j :
  constants g -> 8 * MinObjAlignment g < 2 ^ j -> 3 <= j ->
  exists P, 2 ^ j = 8 * (MinObjAlignment g * P) /\ 2 <= P /\ 0 < MinObjAlignment g.
Proof.
  intros Hc HA Hj. destruct (c_align g Hc) as (k & Hk & Hk5). rewrite Hk in *.
  exists (2 ^ (j - 3 - k)).
  assert (3 + k < j).
  { apply (Z.pow_lt_mono_r_iff 2); [lia|lia|]. rewrite Z.pow_add_r by lia. lia. }
  change 8 with (2 ^ 3) at 1. rewrite <- !Z.pow_add_r by lia. split; [f_equal; lia|].
  split; [|lia]. change 2 with (2 ^ 1) at 1. apply Z.pow_le_mono_r; lia.
Qed.

(** The next aligned address is a whole number of units away. *)
Lemma align_up_units g addr j :
  constants g -> 3 <= j <= 15 -> 0 <= addr -> addr + 2 ^ 17 < 2 ^ 64 ->
  addr mod (8 * MinObjAlignment g) = 0 -> 8 * MinObjAlignment g < 2 ^ j ->
  exists q, align_ptr_up addr (2 ^ j) = addr + 8 * (MinObjAlignment g * q)
  /\ 0 <= MinObjAlignment g * q < 2 ^ 12 /\ (addr + 8 * (MinObjAlignment g * q)) mod 2 ^ j = 0.
Proof.
  intros Hc Hj Ha Hmax Hm HA.
  destruct (alignment_units g j Hc HA ltac:(lia)) as (P & HP & HP2 & HM).
  assert (HJ : 2 ^ j <= 2 ^ 15) by (apply Z.pow_le_mono_r; lia).
  destruct (align_size_up_spec addr j ltac:(lia) ltac:(lia) ltac:(lia)) as [Hr1 Hr2].
  unfold align_ptr_up, align_size_up. set (r := align_size_up_ addr (2 ^ j)) in *.
  pose proof Hr1 as Hr0. apply Z.mod_divide in Hr1 as [q1 Hq1]; [|lia].
  apply Z.mod_divide in Hm as [q2 Hq2]; [|lia].
  assert (Er : r = addr + 8 * (MinObjAlignment g * (P * q1 - q2))) by nia.
  exists (P * q1 - q2). rewrite <- Er. split; [done|]. split; [|done]. lia.
Qed.

(** A gap that is too small to fill is smaller than one more alignment. *)
Lemma small_gap g q P :
  wf g -> 2 <= P -> 0 < MinObjAlignment g * q ->
  min_fill_size g <= MinObjAlignment g * q + MinObjAlignment g * P.
Proof.
  intros [Hg _] HP Hq. rewrite !elem_of_cons, elem_of_nil in Hg. unfold min_fill_size.
  destruct Hg as [E|[E|[E|[E|[E|[E|[]]]]]]]; rewrite E in *;
    vm_compute (align_object_size _ 2); lia.
Qed.

(** The address found is aligned and the padding before it is filled. *)
Lemma align_allocation_spec g addr end_ j :
  wf g -> 3 <= j <= 15 -> 0 <= addr -> addr + 2 ^ 17 < 2 ^ 64 ->
  addr mod (8 * MinObjAlignment g) = 0 -> 8 * MinObjAlignment g < 2 ^ j ->
  let '(obj, fs) := align_allocation_or_fail g addr end_ (2 ^ j) in
  (obj = NULL /\ fs = []) \/ (obj mod 2 ^ j = 0 /\ addr <= obj /\ fills g addr fs obj).
Proof.
  intros Hg Hj Ha Hmax Hm HA. pose proof (wf_constants g Hg) as Hc. pose proof (c_min g Hc). pose proof (c_max g Hc).
  destruct (alignment_units g j Hc HA ltac:(lia)) as (P & HP & HP2 & HM).
  destruct (align_up_units g addr j Hc Hj Ha Hmax Hm HA) as (q & Er & Hq & Hq0).
  assert (HJ : 2 ^ j <= 2 ^ 15) by (apply Z.pow_le_mono_r; lia).
  unfold align_allocation_or_fail, HeapWordSize.
  destruct (Z.leb_spec (2 ^ j) (MinObjAlignment g * 8)) as [|_]; [lia|].
  rewrite Er, pointer_delta_small by lia.
  replace ((addr + 8 * (MinObjAlignment g * q) - addr) / 8) with (MinObjAlignment g * q) by lia.
  destruct (Z.eqb_spec (MinObjAlignment g * q) 0) as [Hz|Hz].
  { right. rewrite Hz, Z.add_0_r in Hq0. by split_and!. }
  assert (Hfin : forall u padding, padding = MinObjAlignment g * u ->
    min_fill_size g <= padding <= 2 ^ 14 -> (addr + 8 * padding) mod 2 ^ j = 0 ->
    let '(obj, fs) := if addr + 8 * padding <? end_
      then (addr + 8 * padding, fill_with_object g addr padding) else (NULL, []) in
    (obj = NULL /\ fs = []) \/ (obj mod 2 ^ j = 0 /\ addr <= obj /\ fills g addr fs obj)).
  { intros u padding -> Hp2 Hp3. destruct (_ <? end_); [|by left]. right.
    split_and!; [done|lia|]. apply fill_with_object_fills; [done|lia|lia|].
    rewrite Z.mul_comm. apply Z.mod_mul. lia. }
  destruct (Z.ltb_spec (MinObjAlignment g * q) (min_fill_size g)) as [Hsmall|Hbig].
  - replace (2 ^ j / 8) with (MinObjAlignment g * P) by lia.
    rewrite u64_small by ulia. rewrite hw_add_small by lia.
    apply (Hfin (q + P)); [lia| |].
    + pose proof (small_gap g q P Hg HP2 ltac:(lia)). lia.
    + replace (addr + _) with (addr + 8 * (MinObjAlignment g * q) + 1 * 2 ^ j) by lia.
      rewrite Z.mod_add by lia. done.
  - apply (Hfin q); [done|lia|done].
Qed.

End CollectedHeap.
