(* ===== verification/PromotionLAB.v ===== *)
(** * Promotion buffers

    [gc_implementation/parallelScavenge/psPromotionLAB.hpp], [.cpp] and
    [.inline.hpp], and [bda/bdaOldPromotionLAB.hpp] and [.cpp]: the buffers in which
    a thread of the collector allocates the objects it promotes.  A buffer in the old
    generation records the objects in the object start array; that of the
    big-data-aware generation belongs to one container and serves only it.

    What is written to the heap is returned: the filler that [flush] leaves, and
    the padding of the young buffer. *)

From Stdlib Require Import ZArith Lia.
From stdpp Require Import base numbers gmap list.
From S2P Require Import Prelude GlobalDefs MemRegion VirtualSpace ObjectStartArray CollectedHeap.

Local Open Scope Z_scope.

Module PromotionLAB.
Import CollectedHeap.
Import ObjectStartArray (allocate_block, records, covered, base).

Inductive LabState : Set := needs_flush | flushed | zero_size.

#[export] Instance LabState_eq_dec : EqDecision LabState.
Proof. solve_decision. Defined.

Record PSPromotionLAB := mkLAB { _top : Z; _bottom : Z; _end : Z; _state : LabState }.

#[export] Instance PSPromotionLAB_eq_dec : EqDecision PSPromotionLAB.
Proof. solve_decision. Defined.

Implicit Types lab : PSPromotionLAB.

Definition set_top lab (value : Z) : PSPromotionLAB :=
  mkLAB value (_bottom lab) (_end lab) (_state lab).

Definition used_region lab : MemRegion.MemRegion := MemRegion.of_bounds (_bottom lab) (_top lab).
Definition contains lab (p : Z) : bool := (_bottom lab <=? p) && (p <? _end lab).
Definition capacity lab : Z := byte_size (_bottom lab) (_end lab).
Definition used lab : Z := byte_size (_bottom lab) (_top lab).
Definition free lab : Z := byte_size (_top lab) (_end lab).
Definition is_empty lab : bool := used lab =? 0.
Definition not_empty lab : bool := used lab >? 0.
Definition is_flushed lab : bool := bool_decide (_state lab = flushed).

Definition filler_header_size (g : config) : Z :=
  align_object_size (MinObjAlignment g) (header_size g).

(** [PSPromotionLAB::initialize] *)
Definition initialize (g : config) (mr : MemRegion.MemRegion) : PSPromotionLAB :=
  let bottom := MemRegion.start mr in
  let end_ := MemRegion.end_ mr in
  if byte_size bottom end_ >? 0
  then mkLAB bottom bottom (hw_sub end_ (filler_header_size g)) needs_flush
  else mkLAB bottom bottom end_ zero_size.

(** [PSPromotionLAB::flush] *)
Definition flush (g : config) lab : list filler * PSPromotionLAB :=
  if decide (_state lab = zero_size) then ([], lab)
  else
    let tlab_end := hw_add (_end lab) (filler_header_size g) in
    let array_length := u64 (pointer_delta tlab_end (_top lab) - header_size g) in
    let filler_oop := IntArray (_top lab) (i32 (u64 (array_length * (HeapWordSize / 4)))) in
    ([filler_oop], mkLAB NULL NULL NULL flushed).

Definition unallocate_object lab (obj obj_size : Z) : bool * PSPromotionLAB :=
  if contains lab obj then (true, set_top lab obj) else (false, lab).

(** [PSYoungPromotionLAB::allocate] *)
Definition young_allocate (g : config) (SurvivorAlignmentInBytes : Z) lab (size : Z)
    : Z * list filler * PSPromotionLAB :=
  let '(obj, padding) :=
    align_allocation_or_fail g (_top lab) (_end lab) SurvivorAlignmentInBytes in
  if obj =? NULL then (NULL, padding, lab)
  else
    let new_top := hw_add obj size in
    if (new_top >? obj) && (new_top <=? _end lab) then (obj, padding, set_top lab new_top)
    else (NULL, padding, set_top lab obj).

(** ** Buffers in the old generation *)

(** A buffer and the start array it points to. *)
Record PSOldPromotionLAB := mkOldLAB {
  old_lab : PSPromotionLAB;
  _start_array : ObjectStartArray.ObjectStartArray
}.

Implicit Types o : PSOldPromotionLAB.

(** [PSOldPromotionLAB::flush] *)
Definition old_flush (g : config) o : option (list filler * PSOldPromotionLAB) :=
  if decide (_state (old_lab o) = zero_size) then Some ([], o)
  else
    let obj := _top (old_lab o) in
    let '(fs, lab) := flush g (old_lab o) in
    a ← allocate_block (_start_array o) obj;
    Some (fs, mkOldLAB lab a).

(** [PSOldPromotionLAB::allocate] *)
Definition old_allocate o (size : Z) : option (Z * PSOldPromotionLAB) :=
  let lab := old_lab o in
  let obj := _top lab in
  let new_top := hw_add obj size in
  if (new_top >? obj) && (new_top <=? _end lab) then
    a ← allocate_block (_start_array o) obj;
    Some (obj, mkOldLAB (set_top lab new_top) a)
  else Some (NULL, o).

(** ** Buffers of containers *)

Record BDAOldPromotionLAB := mkBDALAB { bda_lab : PSOldPromotionLAB; _container : Z }.

Implicit Types b : BDAOldPromotionLAB.

(** [BDAOldPromotionLAB::initialize] *)
Definition bda_initialize (g : config) b (mr : MemRegion.MemRegion) (container : Z)
    : BDAOldPromotionLAB :=
  let bottom := MemRegion.start mr in
  let end_ := MemRegion.end_ mr in
  let lab :=
    if byte_size bottom end_ >? 0
    then mkLAB bottom bottom (hw_sub end_ (filler_header_size g)) needs_flush
    else mkLAB bottom bottom end_ zero_size in
  mkBDALAB (mkOldLAB lab (_start_array (bda_lab b))) container.

Definition bda_flush (g : config) b : option (list filler * BDAOldPromotionLAB) :=
  '(fs, o) ← old_flush g (bda_lab b); Some (fs, mkBDALAB o (_container b)).

(** [BDAOldPromotionLAB::allocate] *)
Definition bda_allocate b (size container : Z) : option (Z * BDAOldPromotionLAB) :=
  if negb (_container b =? container) then Some (NULL, b)
  else '(obj, o) ← old_allocate (bda_lab b) size; Some (obj, mkBDALAB o (_container b)).

(** A sequence of requests, each a size and a container, and the objects that were
    allocated, each an address and a size. *)
Fixpoint serve b (requests : list (Z * Z)) : option (list (Z * Z) * BDAOldPromotionLAB) :=
  match requests with
  | [] => Some ([], b)
  | (size, container) :: requests =>
    '(obj, b) ← bda_allocate b size container;
    '(objs, b) ← serve b requests;
    Some (if obj =? NULL then objs else (obj, size) :: objs, b)
  end.

(** ** The life of a buffer *)

(** Consecutive objects, each an address and a size in words, from [p] to [q]. *)
Fixpoint laid (p : Z) (objs : list (Z * Z)) (q : Z) : Prop :=
  match objs with
  | [] => p = q
  | (addr, size) :: objs => addr = p /\ 0 < size /\ laid (p + 8 * size) objs q
  end.

Lemma laid_snoc p objs q size :
  laid p objs q -> 0 < size -> laid p (objs ++ [(q, size)]) (q + 8 * size).
Proof.
  revert p. induction objs as [|[addr s] objs IH]; intros p; simpl; [by intros -> ?|].
  naive_solver.
Qed.

Lemma laid_mod p objs q m :
  0 < m -> Forall (fun s => s mod m = 0) (objs.*2) -> laid p objs q -> ((q - p) / 8) mod m = 0.
Proof.
  intros Hm. revert p. induction objs as [|[addr s] objs IH]; intros p HF; simpl.
  - intros ->. rewrite Z.sub_diag. by apply Zmod_0_l.
  - intros (-> & Hs & Hl). apply Forall_cons in HF as [Hsm HF]. specialize (IH _ HF Hl).
    replace (q - p) with (s * 8 + (q - (p + 8 * s))) by lia.
    rewrite Z.div_add_l by lia. simpl in Hsm. rewrite Zplus_mod, Hsm, IH. by apply Zmod_0_l.
Qed.

(** The sizes that are served when [room] words are free: those asked for the
    container [c] that still fit. *)
Fixpoint fitting (c room : Z) (requests : list (Z * Z)) : list Z :=
  match requests with
  | [] => []
  | (size, container) :: requests =>
    if (c =? container) && (size <=? room) then size :: fitting c (room - size) requests
    else fitting c room requests
  end.

Lemma fitting_Forall (P : Z -> Prop) c room requests :
  Forall (fun r => P (fst r)) requests -> Forall P (fitting c room requests).
Proof.
  intros H. revert room. induction H as [|[size k] requests Hs H IH]; intros room; simpl; [constructor|].
  destruct ((c =? k) && (size <=? room)); [constructor|]; auto.
Qed.

(** A buffer in use, from [top] to [end_], of the container [c]; its start array
    covers [n] blocks from [B] and holds [starts]. *)
Record live b (c B n : Z) (starts : list Z) (top end_ : Z) : Prop := {
  live_container : _container b = c;
  live_lab : exists bottom, old_lab (bda_lab b) = mkLAB top bottom end_ needs_flush;
  live_wf : ObjectStartArray.wf (_start_array (bda_lab b)) n;
  live_base : base (_start_array (bda_lab b)) = B;
  live_records : records (_start_array (bda_lab b)) n starts;
  live_top : 0 < top <= end_ /\ B <= top /\ top mod 8 = 0;
  live_end : end_ < B + 512 * n /\ end_ mod 8 = 0
}.

Lemma live_covered b c B n starts top end_ :
  live b c B n starts top end_ -> covered (_start_array (bda_lab b)) n top.
Proof. intros [? ? ? HB ? ? ?]. unfold covered. rewrite HB. lia. Qed.

Lemma bda_allocate_run b c B n starts top end_ size container :
  live b c B n starts top end_ -> 0 < size < 2 ^ 60 ->
  if (c =? container) && (size <=? (end_ - top) / 8)
  then exists b', bda_allocate b size container = Some (top, b')
       /\ live b' c B n (starts ++ [top]) (top + 8 * size) end_
  else bda_allocate b size container = Some (NULL, b).
Proof.
  intros Hl Hs. pose proof (live_covered _ _ _ _ _ _ _ Hl) as Hcov.
  destruct Hl as [Hc [bottom Hlab] Hwf HB Hr Ht He].
  pose proof (ObjectStartArray.wf_covered _ _ Hwf) as (_ & Hmax & _). rewrite HB in Hmax.
  unfold bda_allocate, old_allocate. rewrite Hc, Hlab. cbn [_top _end].
  destruct (c =? container); cbn [negb andb]; [|done].
  unfold hw_add, HeapWordSize.
  destruct (Z.leb_spec size ((end_ - top) / 8)) as [Hfit|Hno].
  - rewrite u64_small by ulia.
    replace (top + size * 8 >? top) with true by (symmetry; apply Z.gtb_lt; lia).
    replace (top + size * 8 <=? end_) with true by (symmetry; apply Z.leb_le; lia).
    destruct (ObjectStartArray.allocate_block_run _ n starts top Hwf Hr Hcov)
      as (a' & -> & Hwf' & HB' & _ & _ & Hr').
    cbn [andb mbind option_bind]. eexists. split; [done|].
    split; cbn [_container bda_lab old_lab _start_array]; try done; try lia; try congruence.
    exists bottom. unfold set_top. simpl. f_equal. lia.
  - replace ((u64 (top + size * 8) >? top) && (u64 (top + size * 8) <=? end_)) with false;
      [cbn; rewrite <- Hc; by destruct b|].
    symmetry. apply andb_false_iff. rewrite Z.gtb_ltb. unfold wrap.
    destruct (decide (top + size * 8 < 2 ^ 64)) as [Hlt|Hge].
    + right. apply Z.leb_gt. rewrite Z.mod_small by lia. lia.
    + left. apply Z.ltb_ge.
      replace ((top + size * 8) mod 2 ^ 64) with (top + size * 8 - 2 ^ 64); [lia|].
      apply (Z.mod_unique _ _ 1); lia.
Qed.

Lemma serve_run requests b c B n starts top end_ :
  live b c B n starts top end_ -> Forall (fun r => 0 < fst r < 2 ^ 60) requests ->
  exists objs b' top', serve b requests = Some (objs, b')
  /\ laid top objs top' /\ objs.*2 = fitting c ((end_ - top) / 8) requests
  /\ live b' c B n (starts ++ objs.*1) top' end_.
Proof.
  intros Hl HF. revert b starts top Hl.
  induction HF as [|[size container] requests Hs HF IH]; intros b starts top Hl; cbn [serve fitting].
  - exists [], b, top. rewrite app_nil_r. done.
  - simpl in Hs. pose proof (bda_allocate_run _ _ _ _ _ _ _ size container Hl Hs) as Ha.
    destruct ((c =? container) && (size <=? (end_ - top) / 8)) eqn:Efit.
    + destruct Ha as (b1 & -> & Hl1). cbn [mbind option_bind].
      destruct (IH _ _ _ Hl1) as (objs & b2 & top2 & -> & Hlaid & Hfit & Hl2).
      cbn [mbind option_bind]. pose proof (live_top _ _ _ _ _ _ _ Hl).
      destruct (Z.eqb_spec top NULL) as [H0|_]; [unfold NULL in H0; lia|].
      exists ((top, size) :: objs), b2, top2. split; [done|]. split; [simpl; split_and!; [done|lia|done]|].
      split.
      * cbn. f_equal. rewrite Hfit. f_equal. lia.
      * cbn. by rewrite <- app_assoc in Hl2.
    + rewrite Ha. cbn [mbind option_bind].
      destruct (IH _ _ _ Hl) as (objs & b2 & top2 & -> & ? & ? & ?).
      cbn [mbind option_bind]. by exists objs, b2, top2.
Qed.

(** The filler that [flush] leaves is the array [fill_with_array] would write. *)
Lemma flush_filler g top words :
  constants g -> filler_array_min_size g <= words <= filler_array_max_size g ->
  IntArray top (i32 (u64 (u64 (words - header_size g) * (HeapWordSize / 4)))) = fill_with_array g top words.
Proof.
  intros Hc Hw. unfold fill_with_array. destruct (c_hdr g Hc) as [Hh ?]. rewrite Hh.
  pose proof (c_max g Hc). pose proof (c_hole g Hc). do 2 f_equal. cbv zeta.
  unfold HeapWordSize. rewrite (u64_small (words - header_size g)) by ulia.
  change (8 / 4) with 2. rewrite !u64_small by ulia. lia.
Qed.

Lemma bda_flush_run g b c B n starts top end_ :
  constants g -> filler_header_size g = filler_array_min_size g ->
  live b c B n starts top end_ ->
  let words := (end_ - top) / 8 + filler_header_size g in
  end_ + 8 * filler_header_size g < 2 ^ 64 ->
  words <= filler_array_max_size g -> words mod MinObjAlignment g = 0 ->
  exists f b', bda_flush g b = Some ([f], b')
  /\ filler_addr f = top /\ filler_size g f = words
  /\ records (_start_array (bda_lab b')) n (starts ++ [top])
  /\ old_lab (bda_lab b') = mkLAB NULL NULL NULL flushed.
Proof.
  intros Hg Hfh Hl words Hend Hmax Hmod. pose proof (live_covered _ _ _ _ _ _ _ Hl) as Hcov.
  destruct Hl as [Hc [bottom Hlab] Hwf HB Hr Ht He]. pose proof (c_min g Hg).
  unfold bda_flush, old_flush, flush. rewrite Hlab. cbn [_state _top _end].
  rewrite !decide_False by done.
  destruct (ObjectStartArray.allocate_block_run _ n starts top Hwf Hr Hcov)
    as (a' & Ea & _ & _ & _ & _ & Hr').
  rewrite hw_add_small, pointer_delta_small by lia.
  replace ((end_ + 8 * filler_header_size g - top) / 8) with words by (unfold words; lia).
  assert (Hge : filler_array_min_size g <= words) by (unfold words; lia).
  rewrite flush_filler by done. rewrite Ea. cbn [mbind option_bind].
  destruct (fill_with_array_size g top words Hg ltac:(lia) Hmod) as [Hfa Hfs].
  eexists _, _. split; [done|]. by split_and!.
Qed.

(** C21. The life of the buffer of a container.  A buffer is made of a range of the old
    generation that the object start array covers, serves any sequence of requests,
    and is flushed.  Exactly the requests for its own container that fit, leaving
    room for a filler, are served; the objects served and the filler lie one after
    the other and tile the range, the size of the filler computed from its
    header; the start array has recorded each of them; and the flushed buffer
    serves nothing. *)
Theorem bda_lab_life (g : config) (b : BDAOldPromotionLAB) (n : Z) (starts : list Z)
    (s words c : Z) (requests : list (Z * Z))
    (Hg : wf g) (Hwf : ObjectStartArray.wf (_start_array (bda_lab b)) n)
    (Hr : records (_start_array (bda_lab b)) n starts)
    (Hs : 0 < s) (H8 : s mod 8 = 0) (Hlow : base (_start_array (bda_lab b)) <= s)
    (Hhigh : s + 8 * words <= base (_start_array (bda_lab b)) + 512 * n)
    (Hmin : filler_header_size g <= words) (Hmax : words <= filler_array_max_size g)
    (Hmod : words mod MinObjAlignment g = 0)
    (Hreq : Forall (fun r => 0 < fst r < 2 ^ 60 /\ fst r mod MinObjAlignment g = 0) requests) :
  exists objs b1 f b2,
    serve (bda_initialize g b (MemRegion.mkMemRegion s words) c) requests = Some (objs, b1)
    /\ bda_flush g b1 = Some ([f], b2)
    /\ objs.*2 = fitting c (words - filler_header_size g) requests
    /\ laid s (objs ++ [(filler_addr f, filler_size g f)]) (s + 8 * words)
    /\ records (_start_array (bda_lab b2)) n (starts ++ objs.*1 ++ [filler_addr f])
    /\ forall size k, 0 < size < 2 ^ 60 -> bda_allocate b2 size k = Some (NULL, b2).
Proof.
  pose proof (wf_constants g Hg) as Hc. pose proof (c_min g Hc) as Hcm.
  assert (Hfh : filler_header_size g = filler_array_min_size g).
  { unfold filler_header_size, filler_array_min_size. by destruct (c_hdr g Hc) as [-> _]. }
  pose proof (ObjectStartArray.wf_covered _ _ Hwf) as (_ & Hcov & _).
  set (end_ := s + 8 * (words - filler_header_size g)).
  assert (Hl : live (bda_initialize g b (MemRegion.mkMemRegion s words) c) c
    (base (_start_array (bda_lab b))) n starts s end_).
  { unfold bda_initialize, MemRegion.end_, MemRegion.start. cbn [MemRegion._start MemRegion._word_size].
    rewrite hw_add_small by lia. unfold byte_size. rewrite u64_small by ulia.
    destruct (Z.gtb_spec (s + 8 * words - s) 0); [|lia].
    split; cbn [_container bda_lab old_lab _start_array]; try done; unfold end_; try lia.
    exists s. f_equal. unfold hw_sub, HeapWordSize. rewrite u64_small; ulia. }
  assert (Hsz : Forall (fun r => 0 < fst r < 2 ^ 60) requests).
  { eapply Forall_impl; [exact Hreq|]. by intros ? [? _]. }
  destruct (serve_run requests _ _ _ _ _ _ _ Hl Hsz) as (objs & b1 & top & E1 & Hlaid & Hfit & Hl1).
  replace ((end_ - s) / 8) with (words - filler_header_size g) in Hfit by (unfold end_; lia).
  destruct (c_align g Hc) as (k & Hk & Hk5).
  assert (HA : 0 < MinObjAlignment g) by lia.
  assert (Hused : ((top - s) / 8) mod MinObjAlignment g = 0).
  { apply (laid_mod s objs); [done| |done]. rewrite Hfit. apply fitting_Forall.
    eapply Forall_impl; [exact Hreq|]. by intros ? [_ ?]. }
  pose proof (live_top _ _ _ _ _ _ _ Hl1) as (Ht1 & Ht2 & Ht3).
  assert (Htop : s <= top).
  { clear -Hlaid. revert s Hlaid. induction objs as [|[x z] objs IH]; simpl; intros s; [lia|].
    intros (-> & ? & H). specialize (IH _ H). lia. }
  assert (Hwords : (end_ - top) / 8 + filler_header_size g = words - (top - s) / 8)
    by (unfold end_; lia).
  destruct (bda_flush_run g b1 c _ n _ top end_ Hc Hfh Hl1) as (f & b2 & E2 & Hfa & Hfs & Hrec & Hend).
  { unfold end_. lia. }
  { rewrite Hwords. lia. }
  { rewrite Hwords, Zminus_mod, Hused, Hmod. by apply Zmod_0_l. }
  exists objs, b1, f, b2. split; [done|]. split; [done|]. split; [done|].
  rewrite Hfa, Hfs, Hwords. split_and!.
  - replace (s + 8 * words) with (top + 8 * (words - (top - s) / 8)) by lia.
    apply laid_snoc; [done|]. unfold end_ in *. lia.
  - by rewrite app_assoc.
  - intros size k' Hsize. unfold bda_allocate, old_allocate. rewrite Hend. cbn [_top _end].
    destruct (negb _); [done|]. unfold hw_add, HeapWordSize, NULL. rewrite u64_small by ulia.
    replace (0 + size * 8 <=? 0) with false by (symmetry; apply Z.leb_gt; lia).
    rewrite andb_false_r. cbn. by destruct b2.
Qed.

(** A buffer of 64 words; three requests, of which the second is for another
    container. *)
Lemma bda_lab_life_witness :
  let g := mkConfig true 1 in
  let b := mkBDALAB (mkOldLAB (mkLAB 0 0 0 zero_size)
             (ObjectStartArray.reset ObjectStartArray.sample)) 0 in
  exists b1, serve (bda_initialize g b (MemRegion.mkMemRegion 4096 64) 7) [(10, 7); (5, 8); (20, 7)]
    = Some ([(4096, 10); (4176, 20)], b1).
Proof.
  intros g b.
  destruct (bda_lab_life g b 4 [] 4096 64 7 [(10, 7); (5, 8); (20, 7)]) as (objs & b1 & f & b2 & E & H).
  - decide_now.
  - exact ObjectStartArray.sample_wf.
  - exact ObjectStartArray.sample_records.
  - lia.
  - reflexivity.
  - vm_compute. discriminate.
  - vm_compute. discriminate.
  - vm_compute. discriminate.
  - vm_compute. discriminate.
  - reflexivity.
  - repeat (apply Forall_cons; split; [split; [simpl; lia | reflexivity]|]). apply Forall_nil. exact I.
  - destruct H as (_ & Hfit & Hlaid & _). exists b1. rewrite E. do 2 f_equal.
    destruct objs as [|[a1 s1] [|[a2 s2] [|]]]; vm_compute in Hfit; try discriminate.
    injection Hfit as -> ->. cbn [app laid] in Hlaid. destruct Hlaid as (-> & _ & -> & _). reflexivity.
Defined.

(** ** The young buffer *)

(** An aligned allocation leaves the buffer a sequence of objects: fillers up to the
    object, or up to the new top when the object does not fit. *)
Lemma young_allocate_spec g lab size j :
  wf g -> 3 <= j <= 15 -> 0 < _top lab <= _end lab -> _end lab + 2 ^ 17 < 2 ^ 64 ->
  _top lab mod (8 * MinObjAlignment g) = 0 -> 8 * MinObjAlignment g < 2 ^ j -> 0 < size < 2 ^ 60 ->
  let '(obj, fs, lab') := young_allocate g (2 ^ j) lab size in
  if obj =? NULL then fills g (_top lab) fs (_top lab')
  else obj mod 2 ^ j = 0 /\ fills g (_top lab) fs obj
       /\ _top lab' = obj + 8 * size /\ _top lab' <= _end lab'.
Proof.
  intros Hg Hj Ht Hmax Hm HA Hs. unfold young_allocate.
  pose proof (align_allocation_spec g (_top lab) (_end lab) j Hg Hj ltac:(lia) ltac:(lia) Hm HA) as H.
  destruct (align_allocation_or_fail g _ _ _) as [obj fs] eqn:E.
  destruct H as [[-> ->]|(H1 & H2 & H3)]; [done|].
  destruct (Z.eqb_spec obj NULL) as [H0|H0]; [unfold NULL in H0; lia|].
  destruct (Z.gtb_spec (hw_add obj size) obj) as [Hgt|Hle]; cbn [andb]; [|done].
  destruct (Z.leb_spec (hw_add obj size) (_end lab)) as [Hfit|]; [|done].
  rewrite (proj2 (Z.eqb_neq obj NULL)) by done. split_and!; [done|done| |done]. cbn [set_top _top].
  unfold hw_add, HeapWordSize, wrap in *.
  destruct (decide (obj + size * 8 < 2 ^ 64)) as [Hlt|Hge]; [rewrite Z.mod_small; lia|].
  assert (Hobj : obj < 2 ^ 64).
  { revert E. unfold align_allocation_or_fail. repeat case_match; intros [= <- _]; lia. }
  rewrite <- (Z.mod_unique (obj + size * 8) (2 ^ 64) 1 (obj + size * 8 - 2 ^ 64)) in Hgt; lia.
Qed.

End PromotionLAB.
