(* ===== verification/CompactData.v ===== *)
(** * Summary data of the compacting collector

    [gc_implementation/parallelScavenge/psParallelCompact.hpp] and [.cpp],
    [class ParallelCompactData], [class SplitInfo] and
    [PSParallelCompact::fill_blocks]: the heap is divided into regions of 64K words
    and blocks of 128 words.  Marking adds up the live words of each region, the
    summary computes where the data of each region goes, and [calc_new_pointer]
    gives the new address of an object.  The big-data-aware version also keeps the
    container of each region.

    The operations run in the state monad of the summary data; an access outside
    the arrays is stuck.  The fields that only debug builds have are left out. *)

From Stdlib Require Import ZArith Lia.
From stdpp Require Import base numbers gmap list.
From S2P Require Import Prelude GlobalDefs MemRegion BitMap BitMapSearch ParMarkBitMap Container.

Local Open Scope Z_scope.

Module CompactData.

Definition Log2RegionSize : Z := 16.
Definition RegionSize : Z := Z.shiftl 1 Log2RegionSize.
Definition RegionSizeBytes : Z := Z.shiftl RegionSize LogHeapWordSize.
Definition RegionSizeOffsetMask : Z := RegionSize - 1.
Definition RegionAddrOffsetMask : Z := RegionSizeBytes - 1.
Definition RegionAddrMask : Z := not64 RegionAddrOffsetMask.
Definition Log2BlockSize : Z := 7.
Definition BlockSize : Z := Z.shiftl 1 Log2BlockSize.
Definition BlockSizeBytes : Z := Z.shiftl BlockSize LogHeapWordSize.
Definition BlockSizeOffsetMask : Z := BlockSize - 1.
Definition BlockAddrOffsetMask : Z := BlockSizeBytes - 1.
Definition BlockAddrMask : Z := not64 BlockAddrOffsetMask.
Definition BlocksPerRegion : Z := RegionSize / BlockSize.
Definition Log2BlocksPerRegion : Z := Log2RegionSize - Log2BlockSize.

(** ** The data of a region *)

Definition dc_shift : Z := 27.
Definition dc_mask : Z := u32 (Z.shiftl (u32 (Z.lnot 0)) dc_shift).
Definition dc_one : Z := Z.shiftl 1 dc_shift.
Definition los_mask : Z := u32 (Z.lnot dc_mask).
Definition dc_claimed : Z := Z.shiftl 8 dc_shift.
Definition dc_completed : Z := Z.shiftl 12 dc_shift.
Definition scanned_bit : Z := 1.

Record RegionData := mkRegion {
  _destination : Z;
  _source_region : Z;
  _partial_obj_addr : Z;
  _partial_obj_size : Z;
  _dc_and_los : Z;
  _blocks_filled : bool;
  _container : Z;
  _scanned : Z
}.

#[export] Instance RegionData_eq_dec : EqDecision RegionData.
Proof. solve_decision. Defined.

Implicit Types r : RegionData.

Definition zero_region : RegionData := mkRegion 0 0 0 0 0 false 0 0.

Definition scanned r : bool := negb (Z.land (_scanned r) scanned_bit =? 0).
Definition live_obj_size r : Z := Z.land (_dc_and_los r) los_mask.
Definition data_size r : Z := u64 (_partial_obj_size r + live_obj_size r).
Definition destination_count_raw r : Z := Z.land (_dc_and_los r) dc_mask.
Definition destination_count r : Z := Z.shiftr (destination_count_raw r) dc_shift.
Definition available r : bool := _dc_and_los r <? dc_one.
Definition claimed r : bool := _dc_and_los r >=? dc_claimed.
Definition completed r : bool := _dc_and_los r >=? dc_completed.

Definition set_dc_and_los r (v : Z) : RegionData :=
  mkRegion (_destination r) (_source_region r) (_partial_obj_addr r) (_partial_obj_size r)
    v (_blocks_filled r) (_container r) (_scanned r).
Definition set_destination (addr : Z) r : RegionData :=
  mkRegion addr (_source_region r) (_partial_obj_addr r) (_partial_obj_size r)
    (_dc_and_los r) (_blocks_filled r) (_container r) (_scanned r).
Definition set_source_region (region : Z) r : RegionData :=
  mkRegion (_destination r) region (_partial_obj_addr r) (_partial_obj_size r)
    (_dc_and_los r) (_blocks_filled r) (_container r) (_scanned r).
Definition set_partial_obj_addr (addr : Z) r : RegionData :=
  mkRegion (_destination r) (_source_region r) addr (_partial_obj_size r)
    (_dc_and_los r) (_blocks_filled r) (_container r) (_scanned r).
Definition set_deferred_obj_addr (addr : Z) r : RegionData := set_partial_obj_addr addr r.
Definition set_partial_obj_size (words : Z) r : RegionData :=
  mkRegion (_destination r) (_source_region r) (_partial_obj_addr r) (u32 words)
    (_dc_and_los r) (_blocks_filled r) (_container r) (_scanned r).
Definition set_container_ptr (container : Z) r : RegionData :=
  mkRegion (_destination r) (_source_region r) (_partial_obj_addr r) (_partial_obj_size r)
    (_dc_and_los r) (_blocks_filled r) container (_scanned r).
Definition set_scanned r : RegionData :=
  mkRegion (_destination r) (_source_region r) (_partial_obj_addr r) (_partial_obj_size r)
    (_dc_and_los r) (_blocks_filled r) (_container r) scanned_bit.
Definition set_blocks_filled r : RegionData :=
  mkRegion (_destination r) (_source_region r) (_partial_obj_addr r) (_partial_obj_size r)
    (_dc_and_los r) true (_container r) (_scanned r).

Definition set_destination_count (count : Z) r : RegionData :=
  set_dc_and_los r (Z.lor (u32 (Z.shiftl count dc_shift)) (live_obj_size r)).
Definition set_live_obj_size (words : Z) r : RegionData :=
  set_dc_and_los r (Z.lor (destination_count_raw r) (u32 words)).
(** [Atomic::add] of the negative of one count. *)
Definition decrement_destination_count r : RegionData :=
  set_dc_and_los r (u32 (_dc_and_los r + dc_mask)).
Definition set_completed r : RegionData :=
  set_dc_and_los r (Z.lor dc_completed (live_obj_size r)).
Definition claim_unsafe r : bool * RegionData :=
  if available r then (true, set_dc_and_los r (Z.lor (_dc_and_los r) dc_claimed)) else (false, r).
Definition add_live_obj (words : Z) r : RegionData :=
  set_dc_and_los r (u32 (_dc_and_los r + words)).
(** The compare-and-exchange of [claim], without interference. *)
Definition claim r : bool * RegionData :=
  let los := live_obj_size r in
  if _dc_and_los r =? los then (true, set_dc_and_los r (Z.lor dc_claimed los)) else (false, r).

(** ** Empty regions *)

Record EmptyRegionData := mkEmpty {
  _empty_region_array : list Z;
  _empty_region_idx : Z;
  _next_append : Z
}.

Implicit Types e : EmptyRegionData.

(** [_empty_region_array[i]] *)
Definition empty_at e (i : Z) : option Z :=
  if 0 <=? i then _empty_region_array e !! Z.to_nat i else None.

Definition empty_clear e (count : Z) : EmptyRegionData :=
  mkEmpty (replicate (Z.to_nat count) 0 ++ drop (Z.to_nat count) (_empty_region_array e)) 0 0.
Definition empty_append e (region : Z) : option EmptyRegionData :=
  _ ← empty_at e (_next_append e);
  Some (mkEmpty (<[Z.to_nat (_next_append e) := region]> (_empty_region_array e))
          (_empty_region_idx e) (u64 (_next_append e + 1))).
Definition return_to_array e (region : Z) : option EmptyRegionData :=
  let idx := u64 (_empty_region_idx e - 1) in
  _ ← empty_at e idx;
  Some (mkEmpty (<[Z.to_nat idx := region]> (_empty_region_array e)) idx (_next_append e)).
Definition empty_remove e : option (Z * EmptyRegionData) :=
  region ← empty_at e (_empty_region_idx e);
  Some (region, mkEmpty (_empty_region_array e) (u64 (_empty_region_idx e + 1)) (_next_append e)).
Definition has_empty_region e : bool := negb (_empty_region_idx e =? _next_append e).
Definition has_empty_regions e (n : Z) : option bool :=
  if has_empty_region e then
    last ← empty_at e (u64 (_next_append e - 1));
    first ← empty_at e (_empty_region_idx e);
    Some (u64 (last - first) >=? n)
  else Some false.
Definition empty_reset e : EmptyRegionData :=
  mkEmpty (_empty_region_array e) (_next_append e) (_next_append e).

(** ** Splits *)

Record SplitInfo := mkSplit {
  _src_region_idx : Z;
  si_partial_obj_size : Z;
  si_destination : Z;
  si_destination_count : Z;
  _dest_region_addr : Z;
  _first_src_addr : Z
}.

Implicit Types s : SplitInfo.

Definition clear_split : SplitInfo := mkSplit 0 0 NULL 0 NULL NULL.
Definition is_valid s : bool := _src_region_idx s >? 0.
Definition is_split s (region_idx : Z) : bool := (_src_region_idx s =? region_idx) && is_valid s.

(** ** The summary data *)

(** [block_data] holds the entries of the block table that are not 0. *)
Record ParallelCompactData := mkData {
  _region_start : Z;
  region_data : list RegionData;
  block_data : gmap Z Z;
  _block_count : Z;
  _empty_region_data : EmptyRegionData
}.

Implicit Types d : ParallelCompactData.

Definition region_count d : Z := Z.of_nat (length (region_data d)).

Definition with_regions d (l : list RegionData) : ParallelCompactData :=
  mkData (_region_start d) l (block_data d) (_block_count d) (_empty_region_data d).
Definition with_blocks d (m : gmap Z Z) : ParallelCompactData :=
  mkData (_region_start d) (region_data d) m (_block_count d) (_empty_region_data d).
Definition with_empty d (e : EmptyRegionData) : ParallelCompactData :=
  mkData (_region_start d) (region_data d) (block_data d) (_block_count d) e.

(** [initialize] for a covered region: the arrays are new memory of the operating
    system, zeroed; [segment_sz] is that of the containers. *)
Definition initialize (segment_sz : Z) (covered_region : MemRegion.MemRegion) : ParallelCompactData :=
  let count := Z.shiftr (u64 (MemRegion.word_size covered_region + RegionSizeOffsetMask)) Log2RegionSize in
  let regions_spanned := segment_sz / RegionSize in
  mkData (MemRegion.start covered_region) (replicate (Z.to_nat count) zero_region) ∅
    (u64 (Z.shiftl count Log2BlocksPerRegion))
    (mkEmpty (replicate (Z.to_nat (count / regions_spanned)) 0) 0 0).

(** [_region_data[i]] *)
Definition region (i : Z) : M ParallelCompactData RegionData := fun d =>
  if 0 <=? i then r ← region_data d !! Z.to_nat i; Some (r, d) else None.
Definition update_region (i : Z) (f : RegionData -> RegionData) : M ParallelCompactData unit := fun d =>
  if 0 <=? i then
    r ← region_data d !! Z.to_nat i;
    Some (tt, with_regions d (<[Z.to_nat i := f r]> (region_data d)))
  else None.

(** [block(n)->offset()], [block(n)->set_offset(val)] *)
Definition block_offset_at d (n : Z) : option Z :=
  if (0 <=? n) && (n <? _block_count d) then Some (default 0 (block_data d !! n)) else None.
Definition set_block_offset (n val : Z) : M ParallelCompactData unit := fun d =>
  if (0 <=? n) && (n <? _block_count d)
  then Some (tt, with_blocks d (<[n := wrap 16 val]> (block_data d))) else None.

(** ** Addresses *)

Definition region_offset (addr : Z) : Z := Z.shiftr (Z.land addr RegionAddrOffsetMask) LogHeapWordSize.
Definition addr_to_region_idx d (addr : Z) : Z :=
  Z.shiftr (pointer_delta addr (_region_start d)) Log2RegionSize.
Definition region_to_addr d (region : Z) : Z :=
  hw_add (_region_start d) (u64 (Z.shiftl region Log2RegionSize)).
Definition region_to_addr_offset d (region offset : Z) : Z := hw_add (region_to_addr d region) offset.
Definition region_align_down (addr : Z) : Z := Z.land addr RegionAddrMask.
Definition region_align_up (addr : Z) : Z := region_align_down (hw_add addr RegionSizeOffsetMask).
Definition is_region_aligned (addr : Z) : bool := region_offset addr =? 0.
Definition block_offset (addr : Z) : Z := Z.shiftr (Z.land addr BlockAddrOffsetMask) LogHeapWordSize.
Definition addr_to_block_idx d (addr : Z) : Z :=
  Z.shiftr (pointer_delta addr (_region_start d)) Log2BlockSize.
Definition block_to_addr d (block : Z) : Z :=
  hw_add (_region_start d) (u64 (Z.shiftl block Log2BlockSize)).
Definition region_to_block_idx (region : Z) : Z := u64 (Z.shiftl region Log2BlocksPerRegion).
Definition block_align_down (addr : Z) : Z := Z.land addr BlockAddrMask.
Definition block_align_up (addr : Z) : Z := block_align_down (hw_add addr BlockSizeOffsetMask).
Definition is_block_aligned (addr : Z) : bool := block_offset addr =? 0.

(** ** Operations *)

(** Regions and blocks from [beg] on, zeroed. *)
Definition clear_region_range (beg cnt : Z) : M ParallelCompactData unit :=
  modify (fun d => with_regions d
    (imap (fun i r => if (beg <=? Z.of_nat i) && (Z.of_nat i <? beg + cnt) then zero_region else r)
       (region_data d))).
Definition clear_block_range (beg cnt : Z) : M ParallelCompactData unit :=
  modify (fun d => with_blocks d
    (filter (fun kv => ~ beg <= kv.1 < beg + cnt) (block_data d))).

Definition clear_range (beg_region end_region : Z) : M ParallelCompactData unit :=
  let region_cnt := u64 (end_region - beg_region) in
  clear_region_range beg_region region_cnt;;
  let beg_block := u64 (beg_region * BlocksPerRegion) in
  let block_cnt := u64 (region_cnt * BlocksPerRegion) in
  clear_block_range beg_block block_cnt.

(** The [do] loop of [partial_obj_end] from [cur]. *)
Fixpoint partial_loop (fuel : nat) (end_cp cur result : Z) : M ParallelCompactData Z :=
  match fuel with
  | O => stuck
  | S fuel =>
    r ← region cur;
    let result := hw_add result (_partial_obj_size r) in
    if (_partial_obj_size r =? RegionSize) && (cur + 1 <? end_cp)
    then partial_loop fuel end_cp (cur + 1) result
    else mret result
  end.

Definition partial_obj_end (region_idx : Z) : M ParallelCompactData Z :=
  d ← get;
  let end_cp := region_count d - 1 in
  let result := region_to_addr d region_idx in
  if region_idx <? end_cp then partial_loop (length (region_data d)) end_cp region_idx result
  else mret result.

(** The loop of [add_obj] over the regions that the object spans completely, [n] of
    them from [reg]. *)
Fixpoint middle_loop (n : nat) (reg addr : Z) : M ParallelCompactData unit :=
  match n with
  | O => mret tt
  | S n =>
    update_region reg (set_partial_obj_size RegionSize);;
    update_region reg (set_partial_obj_addr addr);;
    middle_loop n (reg + 1) addr
  end.

Definition add_obj (addr len : Z) : M ParallelCompactData unit :=
  d ← get;
  let obj_ofs := pointer_delta addr (_region_start d) in
  let beg_region := Z.shiftr obj_ofs Log2RegionSize in
  let end_region := Z.shiftr (u64 (obj_ofs + len - 1)) Log2RegionSize in
  if beg_region =? end_region then update_region beg_region (add_live_obj len)
  else
    let beg_ofs := region_offset addr in
    update_region beg_region (add_live_obj (RegionSize - beg_ofs));;
    middle_loop (Z.to_nat (end_region - (beg_region + 1))) (beg_region + 1) addr;;
    let end_ofs := region_offset (hw_sub (hw_add addr len) 1) in
    update_region end_region (set_partial_obj_size (end_ofs + 1));;
    update_region end_region (set_partial_obj_addr addr).

(** The loop of [summarize_dense_prefix] over [n] regions from [cur]. *)
Fixpoint dense_loop (n : nat) (cur addr : Z) : M ParallelCompactData unit :=
  match n with
  | O => mret tt
  | S n =>
    update_region cur (set_destination addr);;
    update_region cur (set_destination_count 0);;
    update_region cur (set_source_region cur);;
    r ← region cur;
    let live_size := u64 (RegionSize - _partial_obj_size r) in
    update_region cur (set_live_obj_size live_size);;
    dense_loop n (cur + 1) (hw_add addr RegionSize)
  end.

Definition summarize_dense_prefix (beg end_ : Z) : M ParallelCompactData unit :=
  d ← get;
  let cur_region := addr_to_region_idx d beg in
  let end_region := addr_to_region_idx d end_ in
  dense_loop (Z.to_nat (end_region - cur_region)) cur_region beg.

(** [SplitInfo::record] *)
Definition record s (src_region_idx partial_obj_size destination : Z) : M ParallelCompactData SplitInfo :=
  d ← get;
  let last_word := hw_sub (hw_add destination partial_obj_size) 1 in
  let beg_region_addr := region_align_down destination in
  let end_region_addr := region_align_down last_word in
  mret (if beg_region_addr =? end_region_addr then
          if end_region_addr =? destination then
            mkSplit src_region_idx partial_obj_size destination 1 end_region_addr
              (region_to_addr d src_region_idx)
          else
            mkSplit src_region_idx partial_obj_size destination 1
              (_dest_region_addr s) (_first_src_addr s)
        else
          let ofs := pointer_delta end_region_addr destination in
          mkSplit src_region_idx partial_obj_size destination 2 end_region_addr
            (hw_add (region_to_addr d src_region_idx) ofs)).

(** Clearing of [source_region] in [n] regions from [idx]. *)
Fixpoint clear_sources (n : nat) (idx : Z) : M ParallelCompactData unit :=
  match n with
  | O => mret tt
  | S n => update_region idx (set_source_region 0);; clear_sources n (idx + 1)
  end.

(** [summarize_split_space]: the next source address, the split and the next target
    address. *)
Definition summarize_split_space (src_region : Z) s (destination target_end : Z)
    : M ParallelCompactData (Z * SplitInfo * Z) :=
  d ← get;
  src ← region src_region;
  '(split_region, split_destination, partial_obj_size) ←
    (if hw_add destination (_partial_obj_size src) >? target_end then
       let overflow_obj := _partial_obj_addr src in
       let split_region := addr_to_region_idx d overflow_obj in
       sr ← region split_region;
       let beg_idx := addr_to_region_idx d
         (region_align_up (hw_add (_destination sr) (_partial_obj_size sr))) in
       let end_idx := addr_to_region_idx d target_end in
       clear_sources (Z.to_nat (end_idx - beg_idx)) beg_idx;;
       sr ← region split_region;
       mret (split_region, _destination sr, _partial_obj_size sr)
     else mret (src_region, destination, _partial_obj_size src));
  s ← (if negb (partial_obj_size =? 0) then
         update_region split_region (set_partial_obj_size 0);;
         record s split_region partial_obj_size split_destination
       else mret s);
  let target_next := hw_add split_destination partial_obj_size in
  let source_next := hw_add (region_to_addr d split_region) partial_obj_size in
  mret (source_next, s, target_next).

(** The assignments of [summarize] for a region whose data, [words] long, fits at
    [dest_addr]. *)
Definition summarize_region s (cur_region dest_addr words : Z) : M ParallelCompactData unit :=
  d ← get;
  dc ← (if is_split s cur_region then
          when (si_destination_count s =? 2)
            (update_region (addr_to_region_idx d (_dest_region_addr s)) (set_source_region cur_region));;
          mret (si_destination_count s)
        else mret 0);
  let last_addr := hw_sub (hw_add dest_addr words) 1 in
  let dest_region_1 := addr_to_region_idx d dest_addr in
  let dest_region_2 := addr_to_region_idx d last_addr in
  let dc := dc + (if cur_region =? dest_region_2 then 0 else 1) in
  dc ← (if negb (dest_region_1 =? dest_region_2) then
          update_region dest_region_2 (set_source_region cur_region);;
          mret (dc + 1)
        else
          when (region_offset dest_addr =? 0)
            (update_region dest_region_1 (set_source_region cur_region));;
          mret dc);
  update_region cur_region (set_destination_count dc).

(** What [summarize] returns: [true] and the next target address, or [false] with
    the next source address, the split and the next target address. *)
Inductive summary := Fits (target_next : Z) | Split (source_next : Z) (s : SplitInfo) (target_next : Z).

(** The loop of [summarize] over [n] regions from [cur_region]. *)
Fixpoint summarize_loop s (target_end : Z) (n : nat) (cur_region dest_addr : Z)
    : M ParallelCompactData summary :=
  match n with
  | O => mret (Fits dest_addr)
  | S n =>
    update_region cur_region (set_destination dest_addr);;
    r ← region cur_region;
    let words := data_size r in
    if words >? 0 then
      if hw_add dest_addr words >? target_end then
        '(source_next, s, target_next) ← summarize_split_space cur_region s dest_addr target_end;
        mret (Split source_next s target_next)
      else
        summarize_region s cur_region dest_addr words;;
        summarize_loop s target_end n (cur_region + 1) (hw_add dest_addr words)
    else summarize_loop s target_end n (cur_region + 1) dest_addr
  end.

Definition summarize s (source_beg source_end target_beg target_end : Z)
    : M ParallelCompactData summary :=
  d ← get;
  let cur_region := addr_to_region_idx d source_beg in
  let end_region := addr_to_region_idx d (region_align_up source_end) in
  summarize_loop s target_end (Z.to_nat (end_region - cur_region)) cur_region target_beg.

(** ** New addresses *)

Section NewAddresses.
(** [LogMinObjAlignment] and the bit map of the marked objects. *)
Context (shift : Z) (bitmap : ParMarkBitMap.ParMarkBitMap).

(** The loop of [fill_blocks]. *)
Fixpoint fill_blocks_loop (fuel : nat) (range_end cur_block beg_bit live_bits : Z)
    : M ParallelCompactData unit :=
  match fuel with
  | O => stuck
  | S fuel =>
    if beg_bit <? range_end then
      let new_block := Z.shiftr beg_bit (Log2BlockSize - shift) in
      when (negb (new_block =? cur_block))
        (set_block_offset new_block (ParMarkBitMap.bits_to_words shift live_bits));;
      let end_bit := ParMarkBitMap.find_obj_end bitmap beg_bit range_end in
      if end_bit <? range_end - 1 then
        fill_blocks_loop fuel range_end new_block
          (ParMarkBitMap.find_obj_beg bitmap (end_bit + 1) range_end)
          (live_bits + (end_bit - beg_bit + 1))
      else mret tt
    else mret tt
  end.

Definition fill_blocks (region_idx : Z) : M ParallelCompactData unit :=
  d ← get;
  r ← region region_idx;
  let partial_obj_size := _partial_obj_size r in
  if partial_obj_size >=? RegionSize then mret tt
  else
    let cur_block := _block_count d in
    let beg_bit := ParMarkBitMap.words_to_bits shift (u64 (Z.shiftl region_idx Log2RegionSize)) in
    let range_end := beg_bit + ParMarkBitMap.words_to_bits shift RegionSize in
    let live_bits := ParMarkBitMap.words_to_bits shift partial_obj_size in
    let beg_bit := ParMarkBitMap.find_obj_beg bitmap (beg_bit + live_bits) range_end in
    fill_blocks_loop (Z.to_nat (range_end - beg_bit + 1)) range_end cur_block beg_bit live_bits.

Definition calc_new_pointer (addr : Z) : M ParallelCompactData Z :=
  d ← get;
  let region_idx := addr_to_region_idx d addr in
  r ← region region_idx;
  let result := _destination r in
  if data_size r =? RegionSize then mret (hw_add result (region_offset addr))
  else
    when (negb (_blocks_filled r))
      (fill_blocks region_idx;; update_region region_idx set_blocks_filled);;
    d ← get;
    let search_start := block_align_down addr in
    block_offset ← lift_opt (block_offset_at d (addr_to_block_idx d addr));
    live ← lift_opt (ParMarkBitMap.live_words_in_range shift bitmap search_start addr);
    mret (hw_add result (u64 (block_offset + live))).

End NewAddresses.

(** ** Containers of regions *)

(** The loop of [install_bda_container] over [n] regions from [idx]. *)
Fixpoint install_loop (n : nat) (idx container : Z) : M ParallelCompactData unit :=
  match n with
  | O => mret tt
  | S n => update_region idx (set_container_ptr container);; install_loop n (idx + 1) container
  end.

(** [install_bda_container], for a container at the address [p] with the fields
    [c]. *)
Definition install_bda_container (p : Z) (c : Container.container) : M ParallelCompactData unit :=
  d ← get;
  let first_region_idx := addr_to_region_idx d (Container._start c) in
  let last_region_idx := addr_to_region_idx d (Container._end c) in
  install_loop (Z.to_nat (last_region_idx - first_region_idx + 1)) first_region_idx p.

(** [PSParallelCompact::get_container_at_addr] *)
Definition get_container_at_addr (p : Z) : M ParallelCompactData Z :=
  d ← get; r ← region (addr_to_region_idx d p); mret (_container r).

Definition is_in (p beg_addr end_addr : Z) : bool := (p >=? beg_addr) && (p <? end_addr).

(** [is_in_container]: the top is included. *)
Definition is_in_container (c : Container.container) (p : Z) : bool :=
  is_in p (Container._start c) (hw_add (Container._top c) 1).

Definition is_same_container (src_region_idx region_idx : Z) : M ParallelCompactData bool :=
  r1 ← region src_region_idx; r2 ← region region_idx; mret (_container r1 =? _container r2).

End CompactData.
