(* ===== verification/Compaction.v ===== *)
(** * Sliding compaction

    The correctness of the summary data of [CompactData]: what marking records in
    the regions, where [summarize] sends them, and that [calc_new_pointer] slides
    the live objects together.

    Objects are those of [ParMarkBitMap]: pairs of their first and last bit.  A bit
    stands for [2 ^ shift] words, [shift] being [LogMinObjAlignment]. *)

From Stdlib Require Import ZArith Lia.
From stdpp Require Import base numbers gmap sorting list.
From S2P Require Import Prelude GlobalDefs MemRegion BitMap BitMapSearch ParMarkBitMap CompactData.

Local Open Scope Z_scope.

Module Compaction.
Import CompactData.

(** ** Live bits of an interval *)

Abbreviation obj := ParMarkBitMap.obj.
Abbreviation before := ParMarkBitMap.before.

Definition osize (o : obj) : Z := o.2 - o.1 + 1.

(** The bits of [lo, hi) that belong to an object, and to the objects of a list. *)
Definition ov (lo hi : Z) (o : obj) : Z := Z.max 0 (Z.min hi (o.2 + 1) - Z.max lo o.1).
Definition live (lo hi : Z) (l : list obj) : Z := sum_of (ov lo hi) l.

(** The objects are not empty and do not overlap. *)
Definition apart (o o' : obj) : Prop := o = o' \/ before o o' \/ before o' o.
Definition disjoint (l : list obj) : Prop :=
  NoDup l /\ (forall o, o ∈ l -> o.1 <= o.2) /\ (forall o o', o ∈ l -> o' ∈ l -> apart o o').

Lemma sorted_objs l :
  StronglySorted before l -> (forall o, o ∈ l -> o.1 <= o.2) -> disjoint l.
Proof.
  intros Hs Hl. split_and!; [| done |].
  - induction Hs as [| o l Hs IH Ho]; constructor.
    + rewrite Forall_forall in Ho. intros H. specialize (Ho o H). unfold before in Ho.
      assert (o.1 <= o.2) by (apply Hl; by left). lia.
    + apply IH. intros. apply Hl. by right.
  - intros. by apply (ParMarkBitMap.sorted_disjoint l).
Qed.

Lemma disjoint_cons o l : disjoint (o :: l) -> disjoint l.
Proof.
  intros (H1 & H2 & H3). apply NoDup_cons in H1 as [_ H1].
  split_and!; [done | intros; apply H2; by right | intros; apply H3; by right].
Qed.

Lemma disjoint_perm l l' : l ≡ₚ l' -> disjoint l -> disjoint l'.
Proof.
  intros Hp (H1 & H2 & H3). split_and!; [by rewrite <- Hp | |];
    intros *; rewrite <- Hp; eauto.
Qed.

Lemma ov_nonneg lo hi o : 0 <= ov lo hi o.
Proof. unfold ov. lia. Qed.

Lemma live_nonneg lo hi l : 0 <= live lo hi l.
Proof. apply sum_of_nonneg. intros. apply ov_nonneg. Qed.

Lemma live_split lo m hi l : lo <= m <= hi -> live lo hi l = live lo m l + live m hi l.
Proof.
  intros Hm. unfold live. rewrite <- sum_of_add. apply sum_of_ext. intros o _. unfold ov. lia.
Qed.

(** Disjoint objects fill an interval at most once. *)
Lemma live_bound lo hi l : StronglySorted before l -> lo <= hi -> live lo hi l <= hi - lo.
Proof.
  intros Hs. revert lo. induction Hs as [| o l Hs IH Ho]; intros lo Hlo.
  - unfold live, sum_of; simpl. lia.
  - unfold live. rewrite sum_of_cons. fold (live lo hi l).
    assert (forall lo', lo <= lo' <= o.2 + 1 -> live lo hi l = live lo' hi l) as Hshift.
    { intros lo' Hl. apply sum_of_ext. intros x Hx. rewrite Forall_forall in Ho.
      specialize (Ho x Hx). unfold before in Ho. unfold ov. lia. }
    destruct (Z.le_gt_cases (o.2 + 1) lo) as [Hle | Hgt].
    + specialize (IH lo Hlo). unfold ov. lia.
    + rewrite (Hshift (Z.max lo (Z.min hi (o.2 + 1)))) by lia.
      specialize (IH (Z.max lo (Z.min hi (o.2 + 1))) ltac:(lia)). unfold ov. lia.
Qed.

(** Between two positions inside no object, the live bits are the sizes of the
    objects that begin there. *)
Lemma live_starts lo hi l :
  (forall o, o ∈ l -> o.1 <= o.2 /\ (o.1 < lo -> o.2 < lo) /\ (o.1 < hi -> o.2 < hi)) ->
  live lo hi l = sum_of (fun o => if (lo <=? o.1) && (o.1 <? hi) then osize o else 0) l.
Proof.
  intros H. apply sum_of_ext. intros o Ho. destruct (H o Ho) as (? & ? & ?).
  unfold ov, osize. case_cmp; lia.
Qed.

(** A position where an object begins is inside no object. *)
Lemma start_clear l o o' : disjoint l -> o ∈ l -> o' ∈ l -> o'.1 < o.1 -> o'.2 < o.1.
Proof.
  intros (_ & Hl & H3) Ho Ho' Hlt. pose proof (Hl o Ho). pose proof (Hl o' Ho').
  destruct (H3 o o' Ho Ho') as [-> | [H' | H']]; unfold before in *; lia.
Qed.

(** An interval that is all live up to its end is all live up to any point. *)
Lemma live_full lo m hi l :
  StronglySorted before l -> lo <= m <= hi -> live lo hi l = hi - lo -> live lo m l = m - lo.
Proof.
  intros Hs Hm Hf. rewrite (live_split lo m hi) in Hf by done.
  pose proof (live_bound lo m l Hs ltac:(lia)). pose proof (live_bound m hi l Hs ltac:(lia)). lia.
Qed.

Lemma from_spec i l e :
  StronglySorted before l -> (forall o, o ∈ l -> o.1 <= o.2) ->
  ParMarkBitMap.live_bits (ParMarkBitMap.from i l) e =
    sum_of (fun o => if (i <=? o.1) && (o.1 <? e) then osize o else 0) l.
Proof.
  intros Hs. induction Hs as [| o l Hs IH Ho]; intros Hl; [done |]. simpl.
  destruct (Z.leb_spec i o.1) as [Hle | Hgt].
  - unfold ParMarkBitMap.live_bits. apply sum_of_ext. intros x Hx.
    assert (o.1 <= x.1).
    { rewrite Forall_forall in Ho. apply elem_of_cons in Hx as [-> | Hx]; [lia |].
      specialize (Ho x Hx). unfold before in Ho. assert (o.1 <= o.2) by (apply Hl; by left). lia. }
    unfold osize. case_cmp; lia.
  - rewrite sum_of_cons, <- IH by (intros; apply Hl; by right).
    destruct (Z.leb_spec i o.1); [lia |]. simpl. lia.
Qed.

(** ** Updates of the region table *)

(** [region_data[i]] *)
Definition rd (d : ParallelCompactData) (i : Z) : option RegionData :=
  if 0 <=? i then region_data d !! Z.to_nat i else None.

(** Every region [i] changed by [g i]. *)
Definition apply (g : Z -> RegionData -> RegionData) (d : ParallelCompactData) : ParallelCompactData :=
  with_regions d (imap (fun i => g (Z.of_nat i)) (region_data d)).

(** [f] on the regions from [lo] to before [hi]. *)
Definition upd (lo hi : Z) (f : Z -> RegionData -> RegionData) (i : Z) (r : RegionData) : RegionData :=
  if (lo <=? i) && (i <? hi) then f i r else r.

Lemma region_run d i r : rd d i = Some r -> region i d = Some (r, d).
Proof. unfold rd, region. destruct (0 <=? i); [| done]. by intros ->. Qed.

Lemma rd_Some d i : 0 <= i < region_count d -> exists r, rd d i = Some r.
Proof.
  unfold rd, region_count. intros Hi. destruct (Z.leb_spec 0 i); [| lia].
  apply lookup_lt_is_Some_2. lia.
Qed.

Lemma rd_inv d i r : rd d i = Some r -> 0 <= i < region_count d.
Proof.
  unfold rd, region_count. destruct (Z.leb_spec 0 i); [| done].
  intros H'%lookup_lt_Some. lia.
Qed.

Lemma rd_apply g d i : rd (apply g d) i = g i <$> rd d i.
Proof.
  unfold rd, apply; simpl. destruct (Z.leb_spec 0 i); [| done].
  rewrite list_lookup_imap. by rewrite Z2Nat.id.
Qed.

Lemma region_count_apply g d : region_count (apply g d) = region_count d.
Proof. unfold region_count, apply; simpl. by rewrite length_imap. Qed.

(** Two summary data with the same region table up to [rd], and the rest equal. *)
Lemma apply_ext g h d :
  (forall i r, rd d i = Some r -> g i r = h i r) -> apply g d = apply h d.
Proof.
  intros H. unfold apply. f_equal. apply imap_ext. intros i r Hr. apply H.
  unfold rd. destruct (Z.leb_spec 0 (Z.of_nat i)); [| lia]. by rewrite Nat2Z.id.
Qed.

Lemma apply_apply g h d : apply g (apply h d) = apply (fun i r => g i (h i r)) d.
Proof.
  unfold apply, with_regions; simpl. f_equal. apply list_eq. intros i.
  rewrite !list_lookup_imap. by destruct (_ !! i).
Qed.

Lemma apply_id g d : (forall i r, rd d i = Some r -> g i r = r) -> apply g d = d.
Proof.
  intros H. rewrite (apply_ext g (fun _ r => r)) by done. destruct d; unfold apply, with_regions; simpl.
  f_equal. apply list_eq. intros i. rewrite list_lookup_imap. by destruct (_ !! i).
Qed.

Lemma update_region_run d i f :
  0 <= i < region_count d -> update_region i f d = Some (tt, apply (upd i (i + 1) (fun _ => f)) d).
Proof.
  intros Hi. destruct (rd_Some d i Hi) as [r Hr]. unfold update_region. revert Hr. unfold rd.
  destruct (Z.leb_spec 0 i); [| done]. intros Hr. rewrite Hr. cbn [mbind option_bind].
  unfold apply. do 3 f_equal. apply list_eq. intros j. rewrite list_lookup_imap. unfold upd.
  destruct (decide (j = Z.to_nat i)) as [-> | Hne].
  - rewrite list_lookup_insert_eq by (by apply lookup_lt_Some in Hr). rewrite Hr. simpl.
    by case_cmp; lia || f_equal.
  - rewrite list_lookup_insert_ne by done. destruct (_ !! j); simpl; [| done].
    by case_cmp; lia || f_equal.
Qed.

(** ** The two halves of [_dc_and_los] *)

Lemma live_obj_size_mod r : live_obj_size r = _dc_and_los r mod 2 ^ 27.
Proof. unfold live_obj_size. change los_mask with (Z.ones 27). by rewrite Z.land_ones. Qed.

Lemma destination_count_div r :
  0 <= _dc_and_los r < 2 ^ 32 -> destination_count r = _dc_and_los r / 2 ^ 27.
Proof.
  intros H. unfold destination_count, destination_count_raw.
  rewrite <- Z.shiftr_div_pow2 by lia. change dc_mask with (Z.shiftl (Z.ones 5) 27).
  change dc_shift with 27. bits i. destruct (Z.ltb_spec (i + 27 - 27) 5); [by rewrite andb_true_r |].
  rewrite (testbit_high 32) by lia. done.
Qed.

Lemma lor_high_low c v : 0 <= v < 2 ^ 27 -> Z.lor (c * 2 ^ 27) v = c * 2 ^ 27 + v.
Proof.
  intros Hv. assert (Z.land (c * 2 ^ 27) v = 0) as H0.
  { rewrite <- Z.shiftl_mul_pow2 by lia. bits i. rewrite Z.bits_0. destruct (Z.ltb_spec i 27).
    - by rewrite Z.testbit_neg_r by lia.
    - rewrite (testbit_high 27 v) by lia. apply andb_false_r. }
  by rewrite Z.add_nocarry_lxor, Z.lxor_lor.
Qed.

Lemma set_destination_count_spec c r :
  0 <= c < 32 ->
  _dc_and_los (set_destination_count c r) = c * 2 ^ 27 + live_obj_size r.
Proof.
  intros Hc. unfold set_destination_count. simpl. change dc_shift with 27.
  rewrite Z.shiftl_mul_pow2, wrap_small by lia. apply lor_high_low.
  rewrite live_obj_size_mod. lia.
Qed.

(** ** Addresses *)

(** The summary data covers whole regions of the address space. *)
Record covers (d : ParallelCompactData) : Prop := {
  c_start : 0 <= _region_start d;
  c_aligned : _region_start d mod 524288 = 0;
  c_end : _region_start d + 8 * (65536 * region_count d) < 2 ^ 64
}.

Lemma covers_apply g d : covers d -> covers (apply g d).
Proof.
  intros [H1 H2 H3]. split; rewrite ?region_count_apply; done.
Qed.

Lemma region_count_nonneg d : 0 <= region_count d.
Proof. unfold region_count. lia. Qed.

Section Geometry.
Context (d : ParallelCompactData) (Hc : covers d).

Lemma region_offset_words w :
  0 <= w -> _region_start d + 8 * w < 2 ^ 64 ->
  region_offset (_region_start d + 8 * w) = w mod 65536.
Proof.
  intros Hw He. destruct Hc as [H1 H2 _]. unfold region_offset.
  change RegionAddrOffsetMask with (Z.ones 19). change LogHeapWordSize with 3.
  rewrite Z.land_ones, Z.shiftr_div_pow2 by lia. lia.
Qed.

Lemma addr_to_region_idx_words w :
  0 <= w -> _region_start d + 8 * w < 2 ^ 64 ->
  addr_to_region_idx d (_region_start d + 8 * w) = w / 65536.
Proof.
  intros Hw He. destruct Hc as [H1 _ _]. unfold addr_to_region_idx.
  rewrite pointer_delta_small by lia. change Log2RegionSize with 16.
  rewrite Z.shiftr_div_pow2 by lia. lia.
Qed.

Lemma region_to_addr_eq i :
  0 <= i <= region_count d -> region_to_addr d i = _region_start d + 8 * (65536 * i).
Proof.
  intros Hi. destruct Hc as [H1 _ H3]. unfold region_to_addr.
  change Log2RegionSize with 16. rewrite Z.shiftl_mul_pow2, u64_small by ulia.
  rewrite hw_add_small by lia. lia.
Qed.

Lemma region_align_up_words w :
  0 <= w <= 65536 * region_count d ->
  region_align_up (_region_start d + 8 * w) =
    _region_start d + 8 * (65536 * ((w + 65535) / 65536)).
Proof.
  intros Hw. destruct Hc as [H1 H2 H3]. unfold region_align_up, region_align_down.
  change RegionSizeOffsetMask with 65535. change RegionAddrMask with (not64 (Z.ones 19)).
  rewrite hw_add_small by lia. rewrite land_not64_ones by ulia. lia.
Qed.
End Geometry.

(** ** Marking *)

(** Bits in a region. *)
Definition region_bits (shift : Z) : Z := 2 ^ (16 - shift).

(** The address and the words of an object. *)
Definition obj_addr (shift : Z) (d : ParallelCompactData) (o : obj) : Z :=
  _region_start d + 8 * (2 ^ shift * o.1).
Definition obj_words (shift : Z) (o : obj) : Z := 2 ^ shift * osize o.

Section Marking.
Context (shift : Z) (Hshift : 0 <= shift <= 5).
Abbreviation G := (2 ^ shift).
Abbreviation R := (region_bits shift).

Lemma grain_region : 0 < G /\ 0 < R /\ G * R = 65536.
Proof.
  unfold region_bits. split_and!; [lia | lia |]. rewrite <- Z.pow_add_r by lia.
  by replace (shift + (16 - shift)) with 16 by lia.
Qed.

Lemma words_div b : (G * b) / 65536 = b / R.
Proof. destruct grain_region as (? & ? & <-). apply Z.div_mul_cancel_l; lia. Qed.

Lemma words_mod b : (G * b) mod 65536 = G * (b mod R).
Proof. destruct grain_region as (? & ? & <-). apply Z.mul_mod_distr_l; lia. Qed.

Lemma last_word_div b : (G * (b + 1) - 1) / 65536 = b / R.
Proof.
  destruct grain_region as (? & ? & <-). symmetry.
  apply (Z.div_unique _ _ _ (G * (b mod R) + G - 1));
    pose proof (Z.mod_pos_bound b R); pose proof (Z.div_mod b R); nia.
Qed.

Lemma last_word_mod b : (G * (b + 1) - 1) mod 65536 = G * (b mod R) + G - 1.
Proof.
  rewrite Z.mod_eq, last_word_div by lia. destruct grain_region as (? & ? & <-).
  pose proof (Z.div_mod b R). nia.
Qed.

(** The region [i] covers the bits from [lo i] on. *)
Abbreviation lo i := (i * R).

(** What an object adds to the region [i]. *)
Definition add_one (d : ParallelCompactData) (o : obj) (i : Z) (r : RegionData) : RegionData :=
  let words := G * ov (lo i) (lo i + R) o in
  if i =? o.1 / R then add_live_obj words r
  else if (o.1 / R <? i) && (i <=? o.2 / R)
  then set_partial_obj_addr (obj_addr shift d o) (set_partial_obj_size words r)
  else r.

Lemma middle_loop_run d n reg addr :
  0 <= reg -> reg + Z.of_nat n <= region_count d ->
  middle_loop n reg addr d =
    Some (tt, apply (upd reg (reg + Z.of_nat n)
                (fun _ r => set_partial_obj_addr addr (set_partial_obj_size RegionSize r))) d).
Proof.
  revert d reg. induction n as [| n IH]; intros d reg H0 Hn; simpl.
  { rewrite apply_id; [done |]. intros. unfold upd. case_cmp; done || lia. }
  mrun (update_region_run d reg _ ltac:(lia)).
  mrun (update_region_run (apply _ d) reg _ ltac:(rewrite region_count_apply; lia)).
  rewrite IH by (rewrite ?region_count_apply; lia). rewrite !apply_apply. do 2 f_equal.
  apply apply_ext. intros i r _. unfold upd. case_cmp; done || lia.
Qed.

Lemma region_bounds b : lo (b / R) <= b < lo (b / R) + R.
Proof.
  destruct grain_region as (_ & ? & _). pose proof (Z.div_mod b R).
  pose proof (Z.mod_pos_bound b R). lia.
Qed.

Lemma region_step i j : i < j -> lo i + R <= lo j.
Proof. destruct grain_region as (_ & ? & _). nia. Qed.

(** The object lies in the covered regions. *)
Definition inside (d : ParallelCompactData) (o : obj) : Prop :=
  0 <= o.1 <= o.2 /\ o.2 < R * region_count d.

Lemma inside_regions d o :
  inside d o -> 0 <= o.1 / R <= o.2 / R /\ o.2 / R < region_count d.
Proof.
  intros (Ho & He). destruct grain_region as (_ & HR & _).
  pose proof (region_count_nonneg d). split.
  - split; [apply Z.div_pos; lia | apply Z.div_le_mono; lia].
  - apply Z.div_lt_upper_bound; lia.
Qed.

(** The part of an object in the first, a middle and the last of its regions. *)
Lemma ov_regions o i :
  o.1 <= o.2 ->
  ov (lo i) (lo i + R) o =
    if o.1 / R =? o.2 / R then (if i =? o.1 / R then osize o else 0)
    else if i =? o.1 / R then lo i + R - o.1
    else if i =? o.2 / R then o.2 + 1 - lo i
    else if (o.1 / R <? i) && (i <? o.2 / R) then R else 0.
Proof.
  intros Ho. pose proof (region_bounds o.1). pose proof (region_bounds o.2).
  destruct grain_region as (_ & HR & _). unfold ov, osize.
  assert (o.1 / R <= o.2 / R) by (apply Z.div_le_mono; lia).
  destruct (Z.eqb_spec (o.1 / R) (o.2 / R)) as [He | Hne];
    [destruct (Z.eqb_spec i (o.1 / R)) as [-> | ?]; [rewrite He in *; lia |] |].
  - destruct (Z.lt_trichotomy i (o.1 / R)) as [Hi | [-> | Hi]]; [| done |].
    + pose proof (region_step _ _ Hi). lia.
    + pose proof (region_step _ _ Hi). rewrite He in *. lia.
  - pose proof (region_step (o.1 / R) (o.2 / R) ltac:(lia)).
    destruct (Z.eqb_spec i (o.1 / R)) as [-> | ?]; [lia |].
    destruct (Z.eqb_spec i (o.2 / R)) as [-> | ?]; [lia |].
    destruct (Z.ltb_spec (o.1 / R) i) as [Hi1 | Hi1]; cbn [andb].
    + pose proof (region_step _ _ Hi1). destruct (Z.ltb_spec i (o.2 / R)) as [Hi2 | Hi2].
      * pose proof (region_step _ _ Hi2). lia.
      * pose proof (region_step (o.2 / R) i ltac:(lia)). lia.
    + pose proof (region_step i (o.1 / R) ltac:(lia)). lia.
Qed.

Lemma add_obj_run d o :
  covers d -> inside d o ->
  add_obj (obj_addr shift d o) (obj_words shift o) d = Some (tt, apply (add_one d o) d).
Proof.
  intros Hc Hin. pose proof (inside_regions d o Hin) as (Hb & He).
  destruct Hin as (Ho & Hend). destruct grain_region as (HG & HR & HGR).
  pose proof (c_start d Hc). pose proof (c_end d Hc).
  assert (0 <= G * o.1 /\ G * (o.2 + 1) <= 65536 * region_count d) as [Hw1 Hw2] by nia.
  assert (G * o.1 < G * (o.2 + 1)) by nia.
  unfold add_obj. rewrite (M_bind_Some _ _ _ d d) by done. unfold obj_addr, obj_words, osize.
  assert (G * o.1 + G * (o.2 - o.1 + 1) = G * (o.2 + 1)) as Hlen by lia.
  rewrite pointer_delta_small by lia.
  replace ((_region_start d + 8 * (G * o.1) - _region_start d) / 8) with (G * o.1) by lia.
  rewrite Hlen. rewrite (u64_small (G * (o.2 + 1) - 1)) by ulia.
  change Log2RegionSize with 16. rewrite !Z.shiftr_div_pow2 by lia. change (2 ^ 16) with 65536.
  rewrite words_div, last_word_div. destruct (Z.eqb_spec (o.1 / R) (o.2 / R)) as [Heq | Hne].
  - rewrite update_region_run by lia. do 2 f_equal. apply apply_ext. intros i r _.
    unfold upd, add_one. rewrite ov_regions by lia. unfold osize.
    destruct (Z.eqb_spec (o.1 / R) (o.2 / R)) as [_ |]; [| lia].
    destruct (Z.eqb_spec i (o.1 / R)); case_cmp; done || lia.
  - mrun (update_region_run d (o.1 / R) _ ltac:(lia)).
    mrun (middle_loop_run (apply _ d) (Z.to_nat (o.2 / R - (o.1 / R + 1))) (o.1 / R + 1) _
            ltac:(lia) ltac:(rewrite region_count_apply; lia)).
    mrun (update_region_run (apply _ (apply _ d)) (o.2 / R) _
            ltac:(rewrite !region_count_apply; lia)).
    rewrite update_region_run by (rewrite !region_count_apply; lia).
    rewrite !apply_apply. do 2 f_equal. apply apply_ext. intros i r _.
    rewrite hw_add_small by lia. unfold hw_sub, HeapWordSize. rewrite u64_small by ulia.
    replace (_region_start d + 8 * (G * o.1) + 8 * (G * (o.2 - o.1 + 1)) - 1 * 8)
      with (_region_start d + 8 * (G * (o.2 + 1) - 1)) by lia.
    rewrite !(region_offset_words d Hc) by lia. rewrite words_mod, last_word_mod.
    change RegionSize with 65536. unfold upd, add_one. rewrite ov_regions by lia.
    pose proof (Z.div_mod o.1 R). pose proof (Z.div_mod o.2 R).
    assert (G * (lo (o.1 / R) + R - o.1) = 65536 - G * (o.1 mod R)) as Hfirst by nia.
    assert (G * (o.2 + 1 - lo (o.2 / R)) = G * (o.2 mod R) + G - 1 + 1) as Hlast by nia.
    clear - Hne Hb Hfirst Hlast HGR. revert Hne Hb Hfirst Hlast.
    generalize (o.1 / R), (o.2 / R). intros b e Hne Hb Hfirst Hlast.
    destruct (Z.eqb_spec b e) as [| _]; [lia |].
    destruct (Z.eqb_spec i b) as [-> | Hi1]; [rewrite Hfirst; case_cmp; done || lia |].
    destruct (Z.eqb_spec i e) as [-> | Hi2]; [rewrite Hlast; case_cmp; done || lia |].
    rewrite <- HGR. case_cmp; done || lia.
Qed.

(** The part in the region [i] of the objects that begin before it, and of those
    that begin in it. *)
Definition partial_bits (l : list obj) (i : Z) : Z :=
  sum_of (fun o => if o.1 <? lo i then ov (lo i) (lo i + R) o else 0) l.
Definition start_bits (l : list obj) (i : Z) : Z :=
  sum_of (fun o => if o.1 <? lo i then 0 else ov (lo i) (lo i + R) o) l.

Lemma partial_start l i : partial_bits l i + start_bits l i = live (lo i) (lo i + R) l.
Proof.
  unfold partial_bits, start_bits, live. rewrite <- sum_of_add. apply sum_of_ext.
  intros o _. case_cmp; lia.
Qed.

Lemma partial_bits_nonneg l i : 0 <= partial_bits l i.
Proof.
  apply sum_of_nonneg. intros o _. pose proof (ov_nonneg (lo i) (lo i + R) o). case_cmp; lia.
Qed.

Lemma start_bits_nonneg l i : 0 <= start_bits l i.
Proof.
  apply sum_of_nonneg. intros o _. pose proof (ov_nonneg (lo i) (lo i + R) o). case_cmp; lia.
Qed.

(** The object extends from before the region [i] onto it. *)
Definition crosses (o : obj) (i : Z) : Prop := o.1 < lo i <= o.2.

(** At most one of the objects does. *)
Lemma crosses_alone l o i :
  disjoint (o :: l) -> crosses o i -> partial_bits l i = 0.
Proof.
  intros (Hn & Hl & Ha) Hx. unfold partial_bits.
  transitivity (sum_of (fun _ : obj => 0) l); [| by rewrite sum_of_const].
  apply sum_of_ext. intros o' Ho'. apply NoDup_cons in Hn as [Hn _].
  destruct (Ha o o') as [-> | Hb]; [by left | by right | done |].
  assert (o'.1 <= o'.2) by (apply Hl; by right). assert (o.1 <= o.2) by (apply Hl; by left).
  unfold crosses in Hx. unfold before in Hb. unfold ov. case_cmp; lia.
Qed.

(** The summary data after the objects of [l] were added to that of [d0]. *)
Record marked (d0 : ParallelCompactData) (l : list obj) (d : ParallelCompactData) : Prop := {
  m_rest : d = with_regions d0 (region_data d);
  m_count : region_count d = region_count d0;
  m_region : forall i r0 r, rd d0 i = Some r0 -> rd d i = Some r ->
    _partial_obj_size r = G * partial_bits l i /\
    _dc_and_los r = G * start_bits l i /\
    (forall o, o ∈ l -> crosses o i -> _partial_obj_addr r = obj_addr shift d0 o) /\
    _blocks_filled r = _blocks_filled r0 /\ _container r = _container r0
}.

(** How [add_one] treats a region, by where the object lies. *)
Lemma add_one_cases d o i r :
  o.1 <= o.2 ->
  (lo i <= o.1 < lo i + R /\ add_one d o i r = add_live_obj (G * ov (lo i) (lo i + R) o) r) \/
  (crosses o i /\ add_one d o i r =
     set_partial_obj_addr (obj_addr shift d o)
       (set_partial_obj_size (G * ov (lo i) (lo i + R) o) r)) \/
  (ov (lo i) (lo i + R) o = 0 /\ ~ crosses o i /\ add_one d o i r = r).
Proof.
  intros Ho. pose proof (region_bounds o.1). pose proof (region_bounds o.2).
  unfold add_one, crosses. destruct (Z.eqb_spec i (o.1 / R)) as [-> | Hne]; [left; split; [lia | done] |].
  right. destruct (Z.ltb_spec (o.1 / R) i) as [Hlt | Hge]; cbn [andb].
  - pose proof (region_step _ _ Hlt). destruct (Z.leb_spec i (o.2 / R)) as [Hle | Hgt].
    + left. split; [| done]. assert (lo i <= lo (o.2 / R)); [| lia].
      destruct (decide (i = o.2 / R)) as [-> | ?]; [lia |].
      pose proof (region_step i (o.2 / R) ltac:(lia)). destruct grain_region as (_ & ? & _). lia.
    + right. pose proof (region_step _ _ Hgt). unfold ov. split_and!; [lia | lia | done].
  - right. pose proof (region_step i (o.1 / R) ltac:(lia)). unfold ov.
    destruct grain_region as (_ & ? & _). split_and!; [lia | lia | done].
Qed.

Lemma marked_step d0 l o d :
  marked d0 l d -> disjoint (o :: l) -> o.1 <= o.2 ->
  (forall i, start_bits (o :: l) i <= R) ->
  marked d0 (o :: l) (apply (add_one d o) d).
Proof.
  intros [Hr Hc Hm] Hd Ho Hs. destruct grain_region as (HG & HR & HGR). split.
  - rewrite Hr. done.
  - by rewrite region_count_apply.
  - intros i r0 r H0 Hi. rewrite rd_apply in Hi. destruct (rd d i) as [r1 |] eqn:E1; [| done].
    injection Hi as <-. destruct (Hm i r0 r1 H0 E1) as (Hp & Hdc & Ha & Hb & Hcn).
    assert (obj_addr shift d o = obj_addr shift d0 o) as Haddr by (rewrite Hr; done).
    pose proof (start_bits_nonneg l i). pose proof (ov_nonneg (lo i) (lo i + R) o). specialize (Hs i).
    unfold partial_bits, start_bits in *. rewrite !sum_of_cons in *.
    fold (partial_bits l i) (start_bits l i) in *.
    destruct (add_one_cases d o i r1 Ho) as [[Hin ->] | [[Hx ->] | (Hz & Hx & ->)]].
    + destruct (Z.ltb_spec o.1 (lo i)); [lia |]. simpl. unfold crosses in *.
      rewrite Hdc, wrap_small by nia. split_and!; [lia | lia | | done | done].
      intros o' [-> | Ho']%elem_of_cons; [lia | auto].
    + pose proof (crosses_alone l o i Hd Hx) as Hz. unfold crosses in Hx.
      assert (ov (lo i) (lo i + R) o <= R) by (unfold ov; lia).
      destruct (Z.ltb_spec o.1 (lo i)); [| lia]. simpl. rewrite wrap_small by nia.
      split_and!; [lia | lia | | done | done].
      intros o' [-> | Ho']%elem_of_cons Hx'; [done |]. destruct Hd as (Hn & Hl & Hap).
      apply NoDup_cons in Hn as [Hn _].
      destruct (Hap o o') as [-> | [Hbf | Hbf]]; [by left | by right | done | |];
        unfold before, crosses in *; lia.
    + rewrite Hz. split_and!; [case_cmp; lia | case_cmp; lia | | done | done].
      intros o' [-> | Ho']%elem_of_cons Hx'; [done | auto].
Qed.

(** [add_obj] for the objects of a list, in the order of the list. *)
Fixpoint add_objs (d0 : ParallelCompactData) (l : list obj) : M ParallelCompactData unit :=
  match l with
  | [] => mret tt
  | o :: l => add_obj (obj_addr shift d0 o) (obj_words shift o);; add_objs d0 l
  end.

(** No objects recorded yet. *)
Definition unmarked (d : ParallelCompactData) : Prop :=
  forall i r, rd d i = Some r -> _partial_obj_size r = 0 /\ _dc_and_los r = 0.

Lemma add_objs_marked d0 objs l done_ d :
  covers d0 -> StronglySorted before objs -> (forall o, o ∈ objs -> inside d0 o) ->
  l ++ done_ ≡ₚ objs -> marked d0 done_ d ->
  exists d', add_objs d0 l d = Some (tt, d') /\ marked d0 (reverse l ++ done_) d'.
Proof.
  intros Hc Hs Hin. revert done_ d. induction l as [| o l IH]; intros done_ d Hp Hm; simpl; [eauto |].
  assert (Ho : inside d0 o).
  { apply Hin. rewrite <- Hp. by left. }
  assert (inside d o) by (unfold inside; by rewrite (m_count _ _ _ Hm)).
  assert (covers d).
  { rewrite (m_rest _ _ _ Hm). destruct Hc as [H1 H2 H3]. split; [done | done |].
    rewrite <- (m_count _ _ _ Hm) in H3. exact H3. }
  assert (obj_addr shift d0 o = obj_addr shift d o) as -> by (rewrite (m_rest _ _ _ Hm); done).
  mrun (add_obj_run d o ltac:(done) ltac:(done)).
  assert (disjoint objs) as Hd.
  { apply sorted_objs; [done |]. intros x Hx. destruct (Hin x Hx). lia. }
  destruct (IH (o :: done_) (apply (add_one d o) d)) as (d' & Hrun & Hm').
  - rewrite <- Hp. simpl. symmetry. apply Permutation_middle.
  - apply marked_step; [done | | apply Ho |].
    + assert (o :: l ++ done_ ≡ₚ l ++ o :: done_) as Hp2 by apply Permutation_middle.
      apply (disjoint_perm _ (l ++ o :: done_)) in Hd; [| rewrite <- Hp; done].
      clear - Hd. induction l as [| x l IHl]; [done |]. apply IHl. by apply disjoint_cons in Hd.
    + intros i. transitivity (live (lo i) (lo i + R) objs).
      * rewrite <- partial_start. pose proof (partial_bits_nonneg objs i).
        assert (start_bits objs i = start_bits l i + start_bits (o :: done_) i) as ->.
        { unfold start_bits. rewrite <- sum_of_app. apply sum_of_perm. rewrite <- Hp. simpl.
          apply Permutation_middle. }
        pose proof (start_bits_nonneg l i). lia.
      * destruct grain_region as (_ & ? & _).
        pose proof (live_bound (lo i) (lo i + R) objs Hs ltac:(lia)). lia.
  - exists d'. split; [done |]. by rewrite reverse_cons, <- app_assoc.
Qed.

Lemma marked_sizes d0 objs d i r :
  marked d0 objs d -> StronglySorted before objs -> rd d i = Some r ->
  live_obj_size r = G * start_bits objs i /\
  data_size r = G * live (lo i) (lo i + R) objs /\
  destination_count r = 0 /\ data_size r <= RegionSize.
Proof.
  intros Hm Hs Hi. destruct grain_region as (HG & HR & HGR).
  destruct (rd_Some d0 i) as [r0 H0].
  { rewrite <- (m_count _ _ _ Hm). by apply rd_inv in Hi. }
  destruct (m_region _ _ _ Hm i r0 r H0 Hi) as (Hp & Hdc & _).
  pose proof (live_bound (lo i) (lo i + R) objs Hs ltac:(lia)) as Hb.
  pose proof (partial_start objs i). pose proof (partial_bits_nonneg objs i).
  pose proof (start_bits_nonneg objs i).
  assert (G * start_bits objs i <= 65536 /\ G * live (lo i) (lo i + R) objs <= 65536) by nia.
  assert (0 <= G * start_bits objs i /\ 0 <= G * partial_bits objs i) by nia.
  assert (live_obj_size r = G * start_bits objs i) as Hl
    by (rewrite live_obj_size_mod, Hdc; apply Z.mod_small; lia).
  assert (data_size r = G * live (lo i) (lo i + R) objs) as Hds.
  { unfold data_size. rewrite Hl, Hp, <- partial_start, Z.mul_add_distr_l.
    apply u64_small. unfold is_u64. nia. }
  split_and!; [done | done | | rewrite Hds; change RegionSize with 65536; lia].
  rewrite destination_count_div, Hdc by lia. apply Z.div_small. lia.
Qed.

End Marking.

(** New summary data is empty. *)
Lemma initialize_zero segment_sz mr i r : rd (initialize segment_sz mr) i = Some r -> r = zero_region.
Proof.
  unfold rd, initialize; simpl. destruct (0 <=? i); [| done].
  intros [-> _]%lookup_replicate_1. done.
Qed.

Lemma initialize_unmarked segment_sz mr : unmarked (initialize segment_sz mr).
Proof. intros i r ->%initialize_zero. done. Qed.

(** Two regions from the address 2^19 on. *)
Definition sample_data : ParallelCompactData :=
  initialize 65536 (MemRegion.mkMemRegion 524288 131072).

Lemma sample_covers : covers sample_data.
Proof. split; by vm_compute. Qed.

(** Marking from empty summary data. *)
Lemma marking_run (shift : Z) (d : ParallelCompactData) (objs l : list obj) :
  0 <= shift <= 5 -> covers d -> unmarked d ->
  StronglySorted before objs -> Forall (inside shift d) objs -> l ≡ₚ objs ->
  exists d', add_objs shift d l d = Some (tt, d') /\ marked shift d objs d'.
Proof.
  intros Hshift Hc Hu Hs Hin Hp.
  destruct (add_objs_marked shift Hshift d objs l [] d) as (d' & Hrun & Hm).
  - done.
  - done.
  - intros o Ho. rewrite Forall_forall in Hin. auto.
  - by rewrite app_nil_r.
  - split; [by destruct d | done |]. intros i r0 r H0 Hr. simplify_eq.
    destruct (Hu i r0 H0) as [-> ->]. unfold partial_bits, start_bits, sum_of. simpl.
    split_and!; [lia | lia | | done | done]. intros o Ho. by apply elem_of_nil in Ho.
  - exists d'. split; [done |].
    assert (reverse l ++ [] ≡ₚ objs) as Hp' by (rewrite app_nil_r, reverse_Permutation; done).
    destruct Hm as [H1 H2 H3]. split; [done | done |]. intros j q0 q Hq0 Hq.
    destruct (H3 j q0 q Hq0 Hq) as (Ha & Hb & Hx & Hy). unfold partial_bits, start_bits in *.
    rewrite (sum_of_perm _ _ _ Hp') in Ha. rewrite (sum_of_perm _ _ _ Hp') in Hb.
    split_and!; [done | done | | apply Hy | apply Hy]. intros o Ho. apply Hx. by rewrite Hp'.
Qed.

(** C6. Marking, in any order, adds up the live words.  When the objects of a sorted list,
    which lie in the covered regions, are added to empty summary data in any order,
    every addition succeeds, and in the end each region has recorded the live words
    of the objects that begin in it, of the object that extends onto it, and the
    address of that object; together these are the live words that lie in it. *)
Theorem marking_adds_up (shift : Z) (d : ParallelCompactData) (objs l : list obj)
    (Hshift : 0 <= shift <= 5) (Hc : covers d) (Hu : unmarked d)
    (Hs : StronglySorted before objs) (Hin : Forall (inside shift d) objs) (Hp : l ≡ₚ objs) :
  exists d', add_objs shift d l d = Some (tt, d') /\ region_count d' = region_count d /\
    forall i r, rd d' i = Some r ->
      let beg := i * region_bits shift in
      data_size r = 2 ^ shift * live beg (beg + region_bits shift) objs /\
      live_obj_size r = 2 ^ shift * start_bits shift objs i /\
      _partial_obj_size r = 2 ^ shift * partial_bits shift objs i /\
      (forall o, o ∈ objs -> crosses shift o i -> _partial_obj_addr r = obj_addr shift d o) /\
      destination_count r = 0.
Proof.
  destruct (marking_run shift d objs l) as (d' & Hrun & Hm); [done .. |].
  exists d'. split_and!; [done | apply Hm |]. intros i r Hr.
  destruct (rd_Some d i) as [r0 H0].
  { rewrite <- (m_count _ _ _ _ Hm). by apply rd_inv in Hr. }
  destruct (marked_sizes shift Hshift d objs d' i r Hm Hs Hr) as (Ha & Hb & Hx & _).
  destruct (m_region _ _ _ _ Hm i r0 r H0 Hr) as (Hy & _ & Hz & _). done.
Qed.

(** The second of three objects extends from the first region onto the second. *)
Lemma marking_adds_up_witness :
  exists d', add_objs 5 sample_data [(2000, 2100); (3000, 3000); (3, 5)] sample_data = Some (tt, d') /\
    rd d' 1 = Some (mkRegion 0 0 (524288 + 8 * (32 * 2000)) (32 * 53) 32 false 0 0) /\
    32 * live 2048 4096 [(3, 5); (2000, 2100); (3000, 3000)] = 32 * 53 + 32.
Proof.
  destruct (marking_adds_up 5 sample_data [(3, 5); (2000, 2100); (3000, 3000)]
    [(2000, 2100); (3000, 3000); (3, 5)]) as (d' & Hrun & Hc & Hall).
  - lia.
  - apply sample_covers.
  - apply initialize_unmarked.
  - repeat constructor; unfold before; simpl; lia.
  - repeat constructor; unfold inside; simpl; try lia; by vm_compute.
  - apply (Permutation_app_comm [(2000, 2100); (3000, 3000)] [(3, 5)]).
  - exists d'. split; [exact Hrun |]. vm_compute in Hrun. injection Hrun as <-. by split.
Defined.

End Compaction.
