(* ===== verification/Summarize.v ===== *)
(** * Where compaction sends the regions

    [ParallelCompactData::summarize] of [psParallelCompact.cpp], on the summary data
    that marking produced: the destinations it assigns, the number of regions each
    one is copied to, and the source region of each destination region. *)

From Stdlib Require Import ZArith Lia.
From stdpp Require Import base numbers gmap sorting list.
From S2P Require Import Prelude GlobalDefs CompactData Compaction.

Local Open Scope Z_scope.

Module Summarize.
Import CompactData Compaction.

(** The words of data of a region, and of [n] regions from [i] on. *)
Definition words_of (d : ParallelCompactData) (i : Z) : Z :=
  match rd d i with Some r => data_size r | None => 0 end.
Definition words_before (d : ParallelCompactData) (i : Z) (n : nat) : Z :=
  sum_of (words_of d) (zseq i n).

(** The regions that [words] words at the word [w] of the covered area reach, and
    the number of them that [summarize] counts for the region [cur]. *)
Definition first_region (w : Z) : Z := w / 65536.
Definition last_region (w words : Z) : Z := (w + words - 1) / 65536.
Definition dest_count (cur w words : Z) : Z :=
  (if cur =? last_region w words then 0 else 1) +
  (if first_region w =? last_region w words then 0 else 1).

(** The start of the region [k] lies in [w, w + words). *)
Definition begins_in (k w words : Z) : bool := (w <=? 65536 * k) && (65536 * k <? w + words).

(** What [summarize_region] changes. *)
Definition placed (cur w words : Z) (i : Z) (r : RegionData) : RegionData :=
  let r := if begins_in i w words then set_source_region cur r else r in
  if i =? cur then set_destination_count (dest_count cur w words) r else r.

Lemma words_before_nonneg d i n : (forall j, 0 <= words_of d j) -> 0 <= words_before d i n.
Proof. intros H. apply sum_of_nonneg. auto. Qed.

Lemma words_before_S d i n :
  words_before d i (S n) = words_of d i + words_before d (i + 1) n.
Proof. done. Qed.

Lemma begins_in_region k w words :
  0 <= w -> 0 < words <= 65536 ->
  begins_in k w words =
    if first_region w =? last_region w words then (w mod 65536 =? 0) && (k =? first_region w)
    else k =? last_region w words.
Proof. intros Hw Hn. unfold begins_in, first_region, last_region. case_cmp; lia. Qed.

(** The word where the data of the region [j] goes, if that of the regions from
    [cur] on is laid down from the word [w] on. *)
Definition pos (d : ParallelCompactData) (cur w j : Z) : Z :=
  w + words_before d cur (Z.to_nat (j - cur)).

(** Two regions with the same marking data. *)
Record kept (r r' : RegionData) : Prop := {
  k_size : _partial_obj_size r' = _partial_obj_size r;
  k_addr : _partial_obj_addr r' = _partial_obj_addr r;
  k_live : live_obj_size r' = live_obj_size r;
  k_filled : _blocks_filled r' = _blocks_filled r;
  k_container : _container r' = _container r
}.

(** The regions [cur, cur + n) of [d] sent to the word [w] on. *)
Record sent (d : ParallelCompactData) (cur : Z) (n : nat) (w i : Z) (r r' : RegionData) : Prop := {
  s_kept : kept r r';
  s_dest : _destination r' =
    if (cur <=? i) && (i <? cur + Z.of_nat n)
    then _region_start d + 8 * pos d cur w i else _destination r;
  s_count : cur <= i < cur + Z.of_nat n -> 0 < words_of d i ->
    destination_count r' = dest_count i (pos d cur w i) (words_of d i);
  s_count_out : ~ cur <= i < cur + Z.of_nat n -> _dc_and_los r' = _dc_and_los r;
  s_source : forall j, cur <= j < cur + Z.of_nat n ->
    begins_in i (pos d cur w j) (words_of d j) = true -> _source_region r' = j;
  s_source_out : (forall j, cur <= j < cur + Z.of_nat n ->
    begins_in i (pos d cur w j) (words_of d j) = false) -> _source_region r' = _source_region r
}.

Record summarized (d : ParallelCompactData) (cur : Z) (n : nat) (w : Z)
    (d' : ParallelCompactData) : Prop := {
  z_rest : d' = with_regions d (region_data d');
  z_count : region_count d' = region_count d;
  z_region : forall i r r', rd d i = Some r -> rd d' i = Some r' -> sent d cur n w i r r'
}.

Lemma kept_data_size r r' : kept r r' -> data_size r' = data_size r.
Proof. intros [H1 _ H2 _ _]. unfold data_size. by rewrite H1, H2. Qed.

Lemma kept_refl r : kept r r.
Proof. done. Qed.

Lemma kept_trans r r' r'' : kept r r' -> kept r' r'' -> kept r r''.
Proof. intros [] []. split; congruence. Qed.

(** Regions with the same marking data, word counts alike. *)
Lemma words_of_kept d g :
  (forall i r, kept r (g i r)) -> forall j, words_of (apply g d) j = words_of d j.
Proof.
  intros H j. unfold words_of. rewrite rd_apply. destruct (rd d j) as [r |]; [| done].
  simpl. by apply kept_data_size.
Qed.

Lemma dest_count_range cur w words : 0 <= dest_count cur w words <= 2.
Proof. unfold dest_count. case_cmp; lia. Qed.

Lemma placed_kept cur w words i r : kept r (placed cur w words i r).
Proof.
  unfold placed. pose proof (dest_count_range cur w words).
  destruct (begins_in i w words), (i =? cur); split; try done;
    rewrite live_obj_size_mod, set_destination_count_spec by lia;
    rewrite !live_obj_size_mod; simpl; rewrite Z.add_comm, Z.mod_add by lia;
    by rewrite Z.mod_mod.
Qed.

Lemma placed_source cur w words i r :
  _source_region (placed cur w words i r) = if begins_in i w words then cur else _source_region r.
Proof. unfold placed. by destruct (begins_in i w words), (i =? cur). Qed.

Lemma placed_destination cur w words i r : _destination (placed cur w words i r) = _destination r.
Proof. unfold placed. by destruct (begins_in i w words), (i =? cur). Qed.

Lemma placed_count cur w words r :
  destination_count (placed cur w words cur r) = dest_count cur w words.
Proof.
  pose proof (dest_count_range cur w words) as Hr. unfold placed. rewrite Z.eqb_refl.
  set (r' := if begins_in cur w words then _ else _).
  assert (0 <= live_obj_size r' < 2 ^ 27) by (rewrite live_obj_size_mod; lia).
  rewrite destination_count_div; rewrite set_destination_count_spec by lia; [| lia].
  rewrite Z.div_add_l, Z.div_small by lia. lia.
Qed.

Lemma placed_other cur w words i r :
  i <> cur -> _dc_and_los (placed cur w words i r) = _dc_and_los r.
Proof. intros. unfold placed. destruct (Z.eqb_spec i cur); [done |]. by destruct (begins_in i w words). Qed.

Lemma pos_cur d cur w : pos d cur w cur = w.
Proof. unfold pos. rewrite Z.sub_diag. simpl. unfold words_before, sum_of. simpl. lia. Qed.

(** The position past the first region is that from the second region on. *)
Lemma pos_next d d1 cur w j :
  (forall i, words_of d1 i = words_of d i) -> cur < j ->
  pos d cur w j = pos d1 (cur + 1) (w + words_of d cur) j.
Proof.
  intros H Hj. unfold pos. replace (Z.to_nat (j - cur)) with (S (Z.to_nat (j - (cur + 1)))) by lia.
  rewrite words_before_S. unfold words_before.
  rewrite (sum_of_ext (words_of d1) (words_of d)) by auto. lia.
Qed.

Lemma pos_le d cur w j : (forall i, 0 <= words_of d i) -> w <= pos d cur w j.
Proof. intros H. unfold pos. pose proof (words_before_nonneg d cur (Z.to_nat (j - cur)) H). lia. Qed.

(** One turn of the loop. *)
Definition turn (d : ParallelCompactData) (cur w i : Z) (r : RegionData) : RegionData :=
  let r := if i =? cur then set_destination (_region_start d + 8 * w) r else r in
  if 0 <? words_of d cur then placed cur w (words_of d cur) i r else r.

Lemma turn_kept d cur w i r : kept r (turn d cur w i r).
Proof.
  unfold turn. assert (kept r (if i =? cur then set_destination (_region_start d + 8 * w) r else r))
    as Hk by (destruct (i =? cur); [split; done | done]).
  destruct (0 <? words_of d cur); [| done]. eapply kept_trans; [exact Hk | apply placed_kept].
Qed.

Lemma turn_source d cur w i r :
  _source_region (turn d cur w i r) =
    if begins_in i w (words_of d cur) then cur else _source_region r.
Proof.
  unfold turn. destruct (Z.ltb_spec 0 (words_of d cur)).
  - rewrite placed_source. by destruct (i =? cur).
  - unfold begins_in. destruct (i =? cur); case_cmp; done || lia.
Qed.

Lemma turn_destination d cur w i r :
  _destination (turn d cur w i r) = if i =? cur then _region_start d + 8 * w else _destination r.
Proof.
  unfold turn. destruct (0 <? words_of d cur); rewrite ?placed_destination; by destruct (i =? cur).
Qed.

Lemma turn_other d cur w i r : i <> cur -> _dc_and_los (turn d cur w i r) = _dc_and_los r.
Proof.
  intros Hi. unfold turn. destruct (Z.eqb_spec i cur); [done |].
  destruct (0 <? words_of d cur); [by rewrite placed_other | done].
Qed.

Lemma turn_count d cur w r :
  0 < words_of d cur -> destination_count (turn d cur w cur r) = dest_count cur w (words_of d cur).
Proof.
  intros Hw. unfold turn. destruct (Z.ltb_spec 0 (words_of d cur)); [| lia]. apply placed_count.
Qed.

Lemma sent_step d cur n w i r r' :
  (forall j, 0 <= words_of d j) ->
  sent (apply (turn d cur w) d) (cur + 1) n (w + words_of d cur) i (turn d cur w i r) r' ->
  sent d cur (S n) w i r r'.
Proof.
  intros Hn [Hk Hd Hc Hco Hs Hso]. set (d1 := apply (turn d cur w) d) in *.
  assert (forall j, words_of d1 j = words_of d j) as Hw by (apply words_of_kept, turn_kept).
  assert (forall j, cur < j -> pos d1 (cur + 1) (w + words_of d cur) j = pos d cur w j) as Hpos
    by (intros; symmetry; by apply pos_next).
  split.
  - eapply kept_trans; [apply turn_kept | exact Hk].
  - rewrite Hd, turn_destination. change (_region_start d1) with (_region_start d).
    destruct (Z.eqb_spec i cur) as [-> | Hi].
    + rewrite pos_cur. case_cmp; done || lia.
    + case_cmp; try lia; [by rewrite Hpos by lia | done ..].
  - intros Hi Hpw. destruct (decide (i = cur)) as [-> | Hne].
    + rewrite pos_cur, <- (turn_count d cur w r) by done. unfold destination_count, destination_count_raw.
      by rewrite Hco by lia.
    + rewrite Hc; [| lia | by rewrite Hw]. by rewrite Hpos, Hw by lia.
  - intros Hi. rewrite Hco, turn_other by lia. done.
  - intros j Hj Hb. destruct (decide (j = cur)) as [-> | Hne].
    + rewrite pos_cur in Hb. rewrite Hso; [by rewrite turn_source, Hb |]. intros k Hk'.
      rewrite Hpos, Hw by lia. pose proof (pos_le d1 (cur + 1) (w + words_of d cur) k) as Hle.
      rewrite Hpos in Hle by lia. specialize (Hle ltac:(intros; by rewrite Hw)).
      unfold begins_in in *. case_cmp; done || lia.
    + apply (Hs j); [lia |]. by rewrite Hpos, Hw by lia.
  - intros Hno. rewrite Hso.
    + specialize (Hno cur ltac:(lia)). rewrite pos_cur in Hno. by rewrite turn_source, Hno.
    + intros j Hj. rewrite Hpos, Hw by lia. apply Hno. lia.
Qed.

Section Loop.
Context (s : SplitInfo) (target_end : Z).

Lemma summarize_region_run d cur w words :
  covers d -> is_split s cur = false -> 0 <= w -> 0 < words <= 65536 ->
  w + words <= 65536 * region_count d -> 0 <= cur < region_count d ->
  summarize_region s cur (_region_start d + 8 * w) words d = Some (tt, apply (placed cur w words) d).
Proof.
  intros Hc Hs Hw Hn He Hcur. pose proof (c_start d Hc). pose proof (c_end d Hc).
  unfold summarize_region. rewrite (M_bind_Some _ _ _ d d) by done. rewrite Hs, M_ret_bind.
  rewrite hw_add_small by lia. unfold hw_sub, HeapWordSize. rewrite u64_small by ulia.
  replace (_region_start d + 8 * w + 8 * words - 1 * 8)
    with (_region_start d + 8 * (w + words - 1)) by lia.
  rewrite !(addr_to_region_idx_words d Hc), (region_offset_words d Hc) by lia.
  fold (first_region w) (last_region w words). rewrite Z.add_0_l.
  assert (0 <= first_region w < region_count d /\ 0 <= last_region w words < region_count d)
    as [Hf Hl] by (unfold first_region, last_region; lia).
  assert (forall i r, placed cur w words i r =
    upd cur (cur + 1) (fun _ => set_destination_count (dest_count cur w words))
      i (if begins_in i w words then set_source_region cur r else r)) as Hpl.
  { intros i r. unfold placed, upd. destruct (begins_in i w words); case_cmp; done || lia. }
  rewrite (apply_ext _ _ d (fun i r _ => Hpl i r)), <- (apply_apply _ (fun i r => _)).
  unfold dest_count. destruct (Z.eqb_spec (first_region w) (last_region w words)) as [Heq | Hne]; simpl.
  - destruct (Z.eqb_spec (w mod 65536) 0) as [Hz | Hz]; simpl.
    + rewrite M_bind_assoc. mrun (update_region_run d _ _ Hf). rewrite M_ret_bind.
      rewrite update_region_run by (by rewrite region_count_apply).
      rewrite !apply_apply. do 2 f_equal. apply apply_ext. intros i r _.
      rewrite begins_in_region by lia. unfold upd. rewrite Heq, Z.eqb_refl, Hz; simpl.
      rewrite Z.add_0_r. case_cmp; done || lia.
    + rewrite M_bind_assoc, !M_ret_bind, update_region_run by done. rewrite apply_apply. do 2 f_equal.
      apply apply_ext. intros i r _. rewrite begins_in_region by lia. rewrite Heq, Z.eqb_refl.
      destruct (Z.eqb_spec (w mod 65536) 0); [lia |]. by rewrite Z.add_0_r.
  - rewrite M_bind_assoc. mrun (update_region_run d _ _ Hl). rewrite M_ret_bind.
    rewrite update_region_run by (by rewrite region_count_apply).
    rewrite !apply_apply. do 2 f_equal. apply apply_ext. intros i r _.
    rewrite begins_in_region by lia. unfold upd.
    destruct (Z.eqb_spec (first_region w) (last_region w words)); [lia |].
    case_cmp; done || lia.
Qed.

Lemma summarize_loop_fits d cur n w :
  covers d -> (forall j, 0 <= words_of d j <= 65536) -> 0 <= w ->
  (forall j, cur <= j < cur + Z.of_nat n -> is_split s j = false) ->
  0 <= cur -> cur + Z.of_nat n <= region_count d ->
  w + words_before d cur n <= 65536 * region_count d ->
  _region_start d + 8 * (w + words_before d cur n) <= target_end ->
  exists d', summarize_loop s target_end n cur (_region_start d + 8 * w) d =
    Some (Fits (_region_start d + 8 * (w + words_before d cur n)), d') /\ summarized d cur n w d'.
Proof.
  revert d cur w. induction n as [| n IH]; intros d cur w Hc Hb Hw Hs H0 Hn He Ht.
  { exists d. split; [unfold words_before, sum_of; simpl; by rewrite Z.add_0_r |].
    split; [by destruct d | done |]. intros i r r' Hr Hr'. simplify_eq.
    split; [done | case_cmp; done || lia | lia | done | lia | done]. }
  pose proof (c_start d Hc). pose proof (c_end d Hc). rewrite words_before_S in *.
  assert (forall k m, 0 <= words_before d k m) as Hpos
    by (intros; apply words_before_nonneg; intros; apply Hb).
  pose proof (Hpos (cur + 1) n). pose proof (Hb cur).
  set (d1 := apply (turn d cur w) d).
  assert (forall j, words_of d1 j = words_of d j) as Hw1 by (apply words_of_kept, turn_kept).
  assert (words_before d1 (cur + 1) n = words_before d (cur + 1) n) as Hwb
    by (apply sum_of_ext; auto).
  destruct (IH d1 (cur + 1) (w + words_of d cur)) as (d' & Hrun & Hz).
  - by apply covers_apply.
  - intros. by rewrite Hw1.
  - lia.
  - intros. apply Hs. lia.
  - lia.
  - unfold d1. rewrite region_count_apply. lia.
  - unfold d1. rewrite region_count_apply. fold d1. lia.
  - change (_region_start d1) with (_region_start d). lia.
  - change (_region_start d1) with (_region_start d) in *. exists d'. split.
    + rewrite <- Z.add_assoc, Hwb in Hrun. rewrite <- Hrun. cbn [summarize_loop].
      mrun (update_region_run d cur _ ltac:(lia)). set (d0 := apply _ d).
      assert (words_of d0 cur = words_of d cur) as Hw0.
      { apply words_of_kept. intros i r. unfold upd. destruct (_ && _); [split; done | done]. }
      destruct (rd_Some d0 cur) as [r0 Hr0]; [unfold d0; rewrite region_count_apply; lia |].
      mrun (region_run d0 cur r0 Hr0). unfold words_of in Hw0. rewrite Hr0 in Hw0.
      fold (words_of d cur) in Hw0. rewrite Hw0, Z.gtb_ltb.
      assert (forall i r, upd cur (cur + 1) (fun _ => set_destination (_region_start d + 8 * w)) i r =
        if i =? cur then set_destination (_region_start d + 8 * w) r else r) as Hupd
        by (intros; unfold upd; case_cmp; done || lia).
      destruct (Z.ltb_spec 0 (words_of d cur)) as [Hp | Hz0].
      * rewrite hw_add_small by lia. rewrite Z.gtb_ltb.
        destruct (Z.ltb_spec target_end (_region_start d + 8 * w + 8 * words_of d cur)); [lia |].
        mrun (summarize_region_run d0 cur w (words_of d cur) ltac:(by apply covers_apply)
                ltac:(apply Hs; lia) ltac:(lia) ltac:(lia)
                ltac:(unfold d0; rewrite region_count_apply; lia)
                ltac:(unfold d0; rewrite region_count_apply; lia)).
        replace (_region_start d + 8 * w + 8 * words_of d cur)
          with (_region_start d + 8 * (w + words_of d cur)) by lia.
        f_equal. unfold d0, d1. rewrite apply_apply. apply apply_ext. intros i r _.
        unfold turn. rewrite Hupd. destruct (Z.ltb_spec 0 (words_of d cur)); [done | lia].
      * replace (w + words_of d cur) with w by lia. f_equal. unfold d0, d1. apply apply_ext.
        intros i r _. unfold turn. rewrite Hupd. destruct (Z.ltb_spec 0 (words_of d cur)); [lia | done].
    + destruct Hz as [Hzr Hzc Hzs]. split.
      * rewrite Hzr. done.
      * rewrite Hzc. apply region_count_apply.
      * intros i r r' Hr Hr'. apply sent_step; [intros; apply Hb |]. apply Hzs; [| done].
        unfold d1. by rewrite rd_apply, Hr.
Qed.
End Loop.

(** The regions that data of [words] words at the word [w] reaches. *)
Definition reached (w words : Z) : list Z :=
  zseq (first_region w) (Z.to_nat (last_region w words - first_region w + 1)).

(** Data that does not move up inside its own space is counted right. *)
Lemma dest_count_reached cur w words :
  0 <= w -> 0 < words <= 65536 -> w <= 65536 * cur \/ 65536 * (cur + 1) <= w ->
  dest_count cur w words = Z.of_nat (length (filter (fun k => k <> cur) (reached w words))).
Proof.
  intros Hw Hn Hm. unfold dest_count, reached.
  assert (last_region w words = first_region w \/
          last_region w words = first_region w + 1 /\ first_region w <> cur) as [Hl | [Hl Hf]]
    by (unfold last_region, first_region; lia).
  - rewrite Hl, Z.sub_diag, Z.eqb_refl. simpl. rewrite filter_cons, filter_nil.
    destruct (Z.eqb_spec cur (first_region w)), (decide (first_region w <> cur));
      simpl; lia || congruence.
  - rewrite Hl. replace (first_region w + 1 - first_region w + 1) with 2 by lia.
    change (Z.to_nat 2) with 2%nat. simpl. rewrite !filter_cons, filter_nil.
    destruct (decide (first_region w <> cur)); [| done].
    destruct (Z.eqb_spec (first_region w) (first_region w + 1)); [lia |].
    destruct (Z.eqb_spec cur (first_region w + 1)), (decide (first_region w + 1 <> cur));
      simpl; lia || congruence.
Qed.

Lemma words_of_nonneg d j : 0 <= words_of d j.
Proof. unfold words_of. destruct (rd d j); [| lia]. apply u64_range. Qed.

(** With at most a region of data each, the data of a region does not pass it. *)
Lemma words_before_le d i n :
  (forall j, words_of d j <= 65536) -> words_before d i n <= 65536 * Z.of_nat n.
Proof.
  intros H. unfold words_before.
  transitivity (sum_of (fun _ : Z => 65536) (zseq i n)); [apply sum_of_le; auto |].
  rewrite sum_of_const, length_zseq. lia.
Qed.

Lemma summarize_run s d a n e w target_end :
  covers d -> (forall j, words_of d j <= 65536) -> 0 <= w ->
  (forall j, a <= j < a + Z.of_nat n -> is_split s j = false) ->
  0 <= a -> a + Z.of_nat n <= region_count d ->
  0 <= e -> 65536 * (a + Z.of_nat n - 1) < e <= 65536 * (a + Z.of_nat n) ->
  w + words_before d a n <= 65536 * region_count d ->
  _region_start d + 8 * (w + words_before d a n) <= target_end ->
  exists d', summarize s (region_to_addr d a) (_region_start d + 8 * e)
      (_region_start d + 8 * w) target_end d =
    Some (Fits (_region_start d + 8 * (w + words_before d a n)), d') /\ summarized d a n w d'.
Proof.
  intros Hc Hb Hw Hs Ha Hn He0 He Hw' Ht. pose proof (c_start d Hc). pose proof (c_end d Hc).
  unfold summarize. rewrite (M_bind_Some _ _ _ d d) by done.
  rewrite (region_align_up_words d Hc) by lia. rewrite (region_to_addr_eq d Hc) by lia.
  rewrite !(addr_to_region_idx_words d Hc) by lia.
  replace (65536 * a / 65536) with a by lia.
  replace (65536 * ((e + 65535) / 65536) / 65536) with (a + Z.of_nat n) by lia.
  replace (Z.to_nat (a + Z.of_nat n - a)) with n by lia.
  apply summarize_loop_fits; try done; try lia. intros j. pose proof (words_of_nonneg d j). auto.
Qed.

(** C4. The summary of a space that fits.  Let the regions from [a] to [a + n] hold at most
    a region of live words each, none of them split, let the target begin at the
    word [w], not inside the space after its beginning, and let all the live words
    fit below the end of the target.  Then [summarize] succeeds and returns the
    address past the last word; the data of each region goes right after that of
    the regions before it; the number of destinations of a region is the number of
    other regions its data reaches; the source region of each region whose first
    word receives data is the region that the data comes from, and no other source
    region changes; and what marking recorded is kept. *)
Theorem summarize_places (s : SplitInfo) (d : ParallelCompactData) (a : Z) (n : nat)
    (e w target_end : Z)
    (Hc : covers d) (Hb : forall j r, rd d j = Some r -> data_size r <= RegionSize) (Hw : 0 <= w)
    (Hs : forall j, a <= j < a + Z.of_nat n -> is_split s j = false)
    (Ha : 0 <= a) (Hn : a + Z.of_nat n <= region_count d)
    (He0 : 0 <= e) (He : 65536 * (a + Z.of_nat n - 1) < e <= 65536 * (a + Z.of_nat n))
    (Hw' : w + words_before d a n <= 65536 * region_count d)
    (Ht : _region_start d + 8 * (w + words_before d a n) <= target_end)
    (Hm : w <= 65536 * a \/ 65536 * (a + Z.of_nat n) <= w) :
  exists d', summarize s (region_to_addr d a) (_region_start d + 8 * e)
      (_region_start d + 8 * w) target_end d =
    Some (Fits (_region_start d + 8 * (w + words_before d a n)), d') /\
    forall i r, rd d i = Some r -> exists r', rd d' i = Some r' /\ kept r r' /\
      let at_ j := w + words_before d a (Z.to_nat (j - a)) in
      let in_space j := a <= j < a + Z.of_nat n in
      (in_space i -> _destination r' = _region_start d + 8 * at_ i /\
         (0 < data_size r -> destination_count r' =
            Z.of_nat (length (filter (fun k => k <> i) (reached (at_ i) (data_size r)))))) /\
      (forall j rj, rd d j = Some rj -> in_space j -> at_ j <= 65536 * i < at_ j + data_size rj ->
         _source_region r' = j) /\
      ((forall j rj, rd d j = Some rj -> in_space j -> ~ at_ j <= 65536 * i < at_ j + data_size rj) ->
         _source_region r' = _source_region r).
Proof.
  assert (forall j, words_of d j <= 65536) as Hb'.
  { intros j. unfold words_of. destruct (rd d j) as [r |] eqn:E; [by apply (Hb j) | lia]. }
  destruct (summarize_run s d a n e w target_end) as (d' & Hrun & [Hzr Hzc Hz]); [done .. |].
  exists d'. split; [done |]. intros i r Hr. pose proof (rd_inv _ _ _ Hr) as Hi.
  destruct (rd_Some d' i) as [r' Hr']; [by rewrite Hzc |].
  destruct (Hz i r r' Hr Hr') as [Hk Hd Hco _ Hso Hso']. exists r'. split_and!; [done | done |].
  assert (words_of d i = data_size r) as Hwi by (unfold words_of; by rewrite Hr).
  intros at_ in_space. change at_ with (pos d a w). clear at_. split_and!.
  - intros Hin. split.
    + rewrite Hd. destruct (Z.leb_spec a i), (Z.ltb_spec i (a + Z.of_nat n)); unfold in_space in *; done || lia.
    + intros Hp. rewrite <- Hwi in *. rewrite Hco by done. apply dest_count_reached; [| auto |].
      * pose proof (pos_le d a w i (words_of_nonneg d)). lia.
      * unfold in_space in Hin. destruct Hm as [Hm | Hm]; [left | right].
        -- unfold pos. pose proof (words_before_le d a (Z.to_nat (i - a)) Hb'). lia.
        -- pose proof (pos_le d a w i (words_of_nonneg d)). lia.
  - intros j rj Hj Hin Hbeg. apply (Hso j Hin). unfold begins_in, words_of. rewrite Hj.
    unfold pos in *. case_cmp; done || lia.
  - intros Hno. apply Hso'. intros j Hin. unfold begins_in, words_of.
    destruct (rd d j) as [rj |] eqn:Hj; [| case_cmp; done || lia].
    specialize (Hno j rj Hj Hin). unfold pos in *. case_cmp; done || lia.
Qed.

(** The marked data of the three objects of the sample, and its summary into the
    space itself: the data of the second region follows that of the first. *)
Definition sample_marked : ParallelCompactData :=
  with_regions sample_data
    [mkRegion 0 0 0 0 1632 false 0 0; mkRegion 0 0 524288 1696 32 false 0 0].

Lemma summarize_places_witness :
  exists d', summarize clear_split 524288 (524288 + 8 * 131072) 524288 1572864 sample_marked =
      Some (Fits (524288 + 8 * 3360), d') /\
    exists r', rd d' 1 = Some r' /\ _destination r' = 524288 + 8 * 1632 /\ destination_count r' = 1.
Proof.
  destruct (summarize_places clear_split sample_marked 0 2 131072 0 1572864) as (d' & Hrun & Hall).
  - split; by vm_compute.
  - intros j r Hj. assert (r ∈ region_data sample_marked) as Hin.
    { unfold rd in Hj. destruct (0 <=? j); [| done]. by apply list_elem_of_lookup_2 in Hj. }
    assert (Forall (fun r => data_size r <= RegionSize) (region_data sample_marked)) as Hf
      by (repeat constructor; by vm_compute).
    rewrite Forall_forall in Hf. auto.
  - lia.
  - intros j _. unfold is_split. by rewrite andb_false_r.
  - lia.
  - by vm_compute.
  - lia.
  - lia.
  - by vm_compute.
  - by vm_compute.
  - left. lia.
  - exists d'. split; [exact Hrun |].
    destruct (Hall 1 _ eq_refl) as (r' & Hr' & _ & Hd & _). exists r'. split; [done |].
    destruct Hd as [-> Hc]; [lia |]. split; [by vm_compute |]. rewrite Hc by (by vm_compute).
    by vm_compute.
Defined.

End Summarize.
