(* ===== verification/NewPointers.v ===== *)
(** * The new addresses of the objects

    [PSParallelCompact::fill_blocks] and [ParallelCompactData::calc_new_pointer]
    of [psParallelCompact.cpp], on the summary data of a marked and summarised
    space: the block table, filled region by region at the first use, and the
    addresses that compaction gives to the objects. *)

From Stdlib Require Import ZArith Lia.
From stdpp Require Import base numbers gmap sorting list.
From S2P Require Import Prelude GlobalDefs BitMap BitMapSearch ParMarkBitMap CompactData.
From S2P Require Import Compaction Summarize.

Local Open Scope Z_scope.

Module NewPointers.
Import CompactData Compaction Summarize.

(** ** Objects from a position on *)

Lemma from_gap l i j :
  i <= j -> (forall o, o ∈ l -> i <= o.1 -> j <= o.1) ->
  ParMarkBitMap.from j l = ParMarkBitMap.from i l.
Proof.
  intros Hij. induction l as [| o l IH]; intros H; simpl; [done |].
  destruct (Z.leb_spec i o.1) as [Hi | Hi], (Z.leb_spec j o.1) as [Hj | Hj]; try done; try lia.
  - specialize (H o ltac:(by left) Hi). lia.
  - apply IH. intros. apply H; [by right | done].
Qed.

Lemma elem_of_from l i o :
  StronglySorted before l -> (forall o, o ∈ l -> o.1 <= o.2) ->
  o ∈ ParMarkBitMap.from i l <-> o ∈ l /\ i <= o.1.
Proof.
  intros Hs. induction Hs as [| x l Hs IH Hx]; intros Hl; simpl.
  { rewrite elem_of_nil. tauto. }
  assert (forall o, o ∈ l -> o.1 <= o.2) as Hl' by (intros; apply Hl; by right).
  rewrite Forall_forall in Hx. assert (x.1 <= x.2) by (apply Hl; by left).
  destruct (Z.leb_spec i x.1).
  - rewrite elem_of_cons. split; [| tauto]. intros [-> | Ho]; [auto |].
    specialize (Hx o Ho). unfold before in Hx. split; [auto | lia].
  - rewrite (IH Hl'), elem_of_cons. split; [tauto |]. intros [[-> | Ho] Hi]; [lia | done].
Qed.

(** ** Filling the block table *)

(** Bits in a block. *)
Definition block_bits (shift : Z) : Z := 2 ^ (7 - shift).

Section Fill.
Context (shift : Z) (Hshift : 0 <= shift <= 5).
Abbreviation G := (2 ^ shift).
Abbreviation R := (region_bits shift).
Abbreviation B := (block_bits shift).

(** The table after the scan of the objects of a list up to the end of a region. *)
Fixpoint fill (range_end cur live_bits : Z) (l : list obj) (m : gmap Z Z) : gmap Z Z :=
  match l with
  | [] => m
  | o :: l =>
    if o.1 <? range_end then
      let m := if o.1 / B =? cur then m else <[o.1 / B := G * live_bits]> m in
      if o.2 <? range_end - 1 then fill range_end (o.1 / B) (live_bits + osize o) l m else m
    else m
  end.

Lemma block_region : 0 < B /\ G * B = 128 /\ R = 512 * B.
Proof.
  unfold block_bits, region_bits. split_and!; [lia | |].
  - rewrite <- Z.pow_add_r by lia. by replace (shift + (7 - shift)) with 7 by lia.
  - change 512 with (2 ^ 9). rewrite <- Z.pow_add_r by lia. f_equal. lia.
Qed.

Lemma fill_other re cur lb l m k :
  (forall o, o ∈ l -> o.1 < re -> o.1 / B <> k) -> fill re cur lb l m !! k = m !! k.
Proof.
  revert cur lb m. induction l as [| o l IH]; intros cur lb m H; simpl; [done |].
  destruct (Z.ltb_spec o.1 re) as [Hlt |]; [| done].
  assert (o.1 / B <> k) by (apply H; [by left | done]).
  assert ((if o.1 / B =? cur then m else <[o.1 / B:=G * lb]> m) !! k = m !! k) as Hm.
  { destruct (o.1 / B =? cur); [done |]. by rewrite lookup_insert_ne. }
  destruct (o.2 <? re - 1); [| done]. rewrite IH; [done |]. intros. apply H; [by right | done].
Qed.

(** The block of the last object seen is not written again. *)
Lemma fill_cur re cur lb l m :
  StronglySorted before l -> (forall o, o ∈ l -> o.1 <= o.2) ->
  (forall o, o ∈ l -> cur <= o.1 / B) -> fill re cur lb l m !! cur = m !! cur.
Proof.
  intros Hs. revert cur lb m. destruct block_region as (HB & _).
  induction Hs as [| o l Hs IH Ho]; intros cur lb m Hl Hcur; simpl; [done |].
  destruct (o.1 <? re); [| done]. rewrite Forall_forall in Ho.
  assert (forall o', o' ∈ l -> o.1 / B <= o'.1 / B) as Hmono.
  { intros o' Ho'. specialize (Ho o' Ho'). unfold before in Ho.
    assert (o.1 <= o.2) by (apply Hl; by left). apply Z.div_le_mono; lia. }
  assert (cur <= o.1 / B) by (apply Hcur; by left).
  assert (forall o', o' ∈ l -> o'.1 <= o'.2) by (intros; apply Hl; by right).
  destruct (Z.eqb_spec (o.1 / B) cur) as [<- | Hne].
  - destruct (o.2 <? re - 1); [| done]. by apply IH.
  - destruct (o.2 <? re - 1); [| by rewrite lookup_insert_ne].
    rewrite fill_other, lookup_insert_ne; [done | done |].
    intros o' Ho' _. specialize (Hmono o' Ho'). lia.
Qed.

(** The first object of a block finds there the bits before it. *)
Lemma fill_first re cur lb l m o :
  StronglySorted before l -> (forall o, o ∈ l -> o.1 <= o.2) ->
  o ∈ l -> o.1 < re -> o.1 / B <> cur ->
  (forall o', o' ∈ l -> o'.1 < o.1 -> o'.1 / B <> o.1 / B) ->
  fill re cur lb l m !! (o.1 / B) =
    Some (G * (lb + sum_of (fun o' : obj => if o'.1 <? o.1 then osize o' else 0) l)).
Proof.
  intros Hs. revert cur lb m. destruct block_region as (HB & _).
  induction Hs as [| x l Hs IH Hx]; intros cur lb m Hl Ho Hre Hcur Hfirst; simpl.
  { by apply elem_of_nil in Ho. }
  rewrite Forall_forall in Hx. assert (x.1 <= x.2) by (apply Hl; by left).
  assert (forall o', o' ∈ l -> o'.1 <= o'.2) as Hl' by (intros; apply Hl; by right).
  rewrite sum_of_cons. apply elem_of_cons in Ho as [-> | Ho].
  - destruct (Z.ltb_spec x.1 re); [| lia]. destruct (Z.eqb_spec (x.1 / B) cur); [done |].
    assert (sum_of (fun o' : obj => if o'.1 <? x.1 then osize o' else 0) l = 0) as ->.
    { transitivity (sum_of (fun _ : obj => 0) l); [| by rewrite sum_of_const].
      apply sum_of_ext. intros o' Ho'. specialize (Hx o' Ho'). unfold before in Hx.
      destruct (Z.ltb_spec o'.1 x.1); lia. }
    rewrite Z.ltb_irrefl. rewrite !Z.add_0_r.
    assert (<[x.1 / B:=G * lb]> m !! (x.1 / B) = Some (G * lb)) as Hm by apply lookup_insert_eq.
    destruct (x.2 <? re - 1); [| done]. rewrite fill_cur; [done | done | done |].
    intros o' Ho'. specialize (Hx o' Ho'). unfold before in Hx. apply Z.div_le_mono; lia.
  - pose proof (Hx o Ho) as Hb. unfold before in Hb.
    destruct (Z.ltb_spec x.1 re); [| lia]. destruct (Z.ltb_spec x.2 (re - 1)); [| lia].
    rewrite IH; [| done | done | done | |].
    + destruct (Z.ltb_spec x.1 o.1); [| lia]. do 2 f_equal. lia.
    + intros Heq. apply (Hfirst x); [by left | lia | done].
    + intros o' Ho' Hlt. apply Hfirst; [by right | done].
Qed.
End Fill.

(** ** The block table of a region *)

Section Calc.
Context (shift : Z) (Hshift : 0 <= shift <= 5).
Context (pm : ParMarkBitMap.ParMarkBitMap) (objs : list obj) (Hr : ParMarkBitMap.repr pm objs).
Abbreviation G := (2 ^ shift).
Abbreviation R := (region_bits shift).
Abbreviation B := (block_bits shift).
Abbreviation lo i := (i * R).

(** The bit map and the summary data cover the same regions. *)
Record attached (d : ParallelCompactData) : Prop := {
  a_covers : covers d;
  a_start : ParMarkBitMap._region_start pm = _region_start d;
  a_size : ParMarkBitMap.size pm = R * region_count d;
  a_blocks : _block_count d = 512 * region_count d
}.

Lemma attached_blocks d m : attached d -> attached (with_blocks d m).
Proof. intros [[H1 H2 H3] H4 H5 H6]. by split. Qed.

Lemma attached_apply g d : attached d -> attached (apply g d).
Proof.
  intros [H1 H2 H3 H4]. split; [by apply covers_apply | done | |]; by rewrite region_count_apply.
Qed.

Lemma objs_sorted : StronglySorted before objs.
Proof. apply Hr. Qed.

Lemma objs_range o : o ∈ objs -> 0 <= o.1 <= o.2 /\ o.2 < ParMarkBitMap.size pm.
Proof. apply (ParMarkBitMap.obj_range pm objs Hr). Qed.

Lemma objs_disjoint : disjoint objs.
Proof. apply sorted_objs; [apply objs_sorted |]. intros o Ho. destruct (objs_range o Ho). lia. Qed.

Lemma next_beg_step i o l re :
  ParMarkBitMap.from i objs = o :: l -> o.2 < re -> o.2 + 1 <= ParMarkBitMap.next_beg l re.
Proof.
  intros Hl Hre. pose proof (ParMarkBitMap.from_sorted objs i objs_sorted) as Hs. rewrite Hl in Hs.
  destruct l as [| o' l]; simpl; [lia |]. apply StronglySorted_inv in Hs as [_ Hs].
  apply Forall_cons in Hs as [Hs _]. unfold before in Hs. lia.
Qed.

Lemma set_block_offset_run d o lb :
  attached d -> o ∈ objs -> 0 <= lb < R ->
  set_block_offset (o.1 / B) (ParMarkBitMap.bits_to_words shift lb) d =
    Some (tt, with_blocks d (<[o.1 / B := G * lb]> (block_data d))).
Proof.
  intros [Hc _ Hs Hb] Ho Hlb. destruct (objs_range o Ho) as [H1 H2].
  destruct (block_region shift Hshift) as (HB & HGB & HRB).
  destruct (grain_region shift Hshift) as (HG & HR & HGR).
  assert (0 <= o.1 / B < _block_count d).
  { split; [apply Z.div_pos; lia |]. apply Z.div_lt_upper_bound; [lia |]. rewrite Hb. nia. }
  unfold set_block_offset. destruct (Z.leb_spec 0 (o.1 / B)); [| lia].
  destruct (Z.ltb_spec (o.1 / B) (_block_count d)); [| lia]. cbn [andb].
  unfold ParMarkBitMap.bits_to_words, ParMarkBitMap.obj_granularity_shift.
  rewrite Z.shiftl_mul_pow2, Z.mul_comm by lia. rewrite (u64_small (G * lb)) by (unfold is_u64; nia).
  rewrite wrap_small by nia. done.
Qed.

Lemma fill_blocks_loop_run fuel d re cur i l lb :
  attached d -> re <= ParMarkBitMap.size pm -> re mod 64 = 0 -> 0 <= i <= re ->
  ParMarkBitMap.from i objs = l -> 0 <= lb -> lb + (re - ParMarkBitMap.next_beg l re) <= R ->
  re - ParMarkBitMap.next_beg l re < Z.of_nat fuel ->
  fill_blocks_loop shift pm fuel re cur (ParMarkBitMap.next_beg l re) lb d =
    Some (tt, with_blocks d (fill shift re cur lb l (block_data d))).
Proof.
  intros Ha Hre Hal. revert d cur i l lb Ha. induction fuel as [| fuel IH];
    intros d cur i l lb Ha Hi Hl Hlb HR Hf.
  { assert (ParMarkBitMap.next_beg l re <= re) by (destruct l; simpl; lia). lia. }
  cbn [fill_blocks_loop]. destruct l as [| o l]; simpl in *.
  { rewrite Z.ltb_irrefl. by destruct d. }
  destruct (ParMarkBitMap.from_head objs i o l Hl) as (Ho & Hio & _). pose proof (objs_range o Ho).
  destruct (Z.ltb_spec (Z.min o.1 re) re), (Z.ltb_spec o.1 re); try lia; [| by destruct d].
  rewrite Z.min_l in * by lia.
  change (Log2BlockSize - shift) with (7 - shift). rewrite Z.shiftr_div_pow2 by lia.
  fold (block_bits shift).
  set (m := if o.1 / B =? cur then block_data d else <[o.1 / B := G * lb]> (block_data d)).
  assert (when (negb (o.1 / B =? cur))
    (set_block_offset (o.1 / B) (ParMarkBitMap.bits_to_words shift lb)) d = Some (tt, with_blocks d m)) as Hw.
  { unfold m. destruct (o.1 / B =? cur); simpl; [by destruct d |].
    apply set_block_offset_run; [done | done | lia]. }
  mrun Hw. rewrite (ParMarkBitMap.find_obj_end_spec pm objs Hr) by (done || lia).
  destruct (Z.ltb_spec (Z.min o.2 re) (re - 1)), (Z.ltb_spec o.2 (re - 1)); try lia; [| done].
  rewrite Z.min_l by lia. rewrite (ParMarkBitMap.find_obj_beg_spec pm objs Hr) by (done || lia).
  rewrite (ParMarkBitMap.from_next objs (ParMarkBitMap.size pm) i o l) by (apply Hr || done).
  pose proof (next_beg_step i o l re Hl ltac:(lia)).
  rewrite (IH (with_blocks d m) (o.1 / B) (o.2 + 1) l); [done | by apply attached_blocks | lia | | lia | lia | lia].
  apply (ParMarkBitMap.from_next objs (ParMarkBitMap.size pm) i o l); [apply Hr | apply Hr | done].
Qed.

(** The objects that begin in a region begin after the one that extends onto it. *)
Lemma partial_gap q o : o ∈ objs -> lo q <= o.1 -> lo q + partial_bits shift objs q <= o.1.
Proof.
  intros Ho Hlo. transitivity (lo q + live (lo q) o.1 objs).
  2: { pose proof (live_bound (lo q) o.1 objs objs_sorted ltac:(lia)). lia. }
  apply Z.add_le_mono_l. apply sum_of_le. intros o' Ho'.
  pose proof (ov_nonneg (lo q) o.1 o'). destruct (Z.ltb_spec o'.1 (lo q)); [| lia].
  pose proof (start_clear objs o o' objs_disjoint Ho Ho' ltac:(lia)). unfold ov in *. lia.
Qed.

Lemma fill_blocks_run d q r :
  attached d -> rd d q = Some r -> _partial_obj_size r = G * partial_bits shift objs q ->
  fill_blocks shift pm q d =
    Some (tt, if partial_bits shift objs q <? R
              then with_blocks d (fill shift (lo q + R) (_block_count d) (partial_bits shift objs q)
                                    (ParMarkBitMap.from (lo q) objs) (block_data d))
              else d).
Proof.
  intros Ha Hq Hp. pose proof (rd_inv _ _ _ Hq) as Hqr.
  destruct (grain_region shift Hshift) as (HG & HR & HGR).
  pose proof (partial_bits_nonneg shift objs q) as Hp0. set (p := partial_bits shift objs q) in *.
  pose proof (ParMarkBitMap.repr_size pm objs Hr). pose proof (a_size _ Ha) as Hsz.
  pose proof (a_covers _ Ha) as Hc. pose proof (c_end _ Hc). pose proof (c_start _ Hc).
  assert (lo q + R <= ParMarkBitMap.size pm) by nia.
  unfold fill_blocks. rewrite (M_bind_Some _ _ _ d d) by done. mrun (region_run d q r Hq).
  rewrite Hp, Z.geb_leb. change RegionSize with 65536.
  assert (65536 <= G * p <-> R <= p) as Hpr by (rewrite <- HGR; symmetry; by apply Z.mul_le_mono_pos_l).
  destruct (Z.leb_spec 65536 (G * p)), (Z.ltb_spec p R); try (exfalso; lia); [done |].
  unfold ParMarkBitMap.words_to_bits, ParMarkBitMap.obj_granularity_shift.
  change Log2RegionSize with 16. rewrite !Z.shiftr_div_pow2, Z.shiftl_mul_pow2 by lia.
  rewrite (u64_small (q * 2 ^ 16)) by (unfold is_u64; nia).
  replace (q * 2 ^ 16 / G) with (lo q).
  2: { change (2 ^ 16) with 65536. rewrite <- HGR. apply Z.div_unique_exact; lia. }
  replace (65536 / G) with R by (apply Z.div_unique_exact; lia).
  rewrite (Z.mul_comm G p), Z.div_mul by lia.
  assert ((lo q + R) mod 64 = 0) as Hmod.
  { unfold region_bits. replace (16 - shift) with (6 + (10 - shift)) by lia.
    rewrite Z.pow_add_r by lia. replace (q * (2 ^ 6 * 2 ^ (10 - shift)) + 2 ^ 6 * 2 ^ (10 - shift))
      with ((q * 2 ^ (10 - shift) + 2 ^ (10 - shift)) * 64) by lia. apply Z.mod_mul. lia. }
  assert (0 <= lo q) by nia.
  rewrite (ParMarkBitMap.find_obj_beg_spec pm objs Hr) by (done || lia).
  rewrite (from_gap objs (lo q) (lo q + p)) by (lia || intros; by apply partial_gap).
  set (nb := ParMarkBitMap.next_beg _ _).
  assert (lo q + p <= nb <= lo q + R).
  { unfold nb. destruct (ParMarkBitMap.from (lo q) objs) as [| o l] eqn:E; simpl; [lia |].
    destruct (ParMarkBitMap.from_head objs _ o l E) as (Ho & Hlo & _).
    pose proof (partial_gap q o Ho Hlo). unfold p in *. lia. }
  apply (fill_blocks_loop_run _ d _ _ (lo q)); [done | done | done | lia | done | done | fold nb; lia |].
  fold nb. lia.
Qed.

(** ** New addresses *)

(** The first object of its block. *)
Definition first_in_block (o : obj) : Prop :=
  o ∈ objs /\ forall o', o' ∈ objs -> o'.1 / B = o.1 / B -> o.1 <= o'.1.

Lemma first_exists o :
  o ∈ objs -> exists f, first_in_block f /\ f.1 / B = o.1 / B /\ o.1 / B * B <= f.1 <= o.1 /\
    forall o', o' ∈ objs -> o.1 / B * B <= o'.1 -> f.1 <= o'.1.
Proof.
  intros Ho. destruct (block_region shift Hshift) as (HB & _ & _). set (b := o.1 / B * B).
  assert (b <= o.1 < b + B) as Hb.
  { unfold b. pose proof (Z.div_mod o.1 B). pose proof (Z.mod_pos_bound o.1 B). lia. }
  assert (o ∈ ParMarkBitMap.from b objs) as Hof.
  { apply elem_of_from; [apply objs_sorted | | split; [done | lia]].
    intros x Hx. destruct (objs_range x Hx). lia. }
  destruct (ParMarkBitMap.from b objs) as [| f l] eqn:E; [by apply elem_of_nil in Hof |].
  destruct (ParMarkBitMap.from_head objs b f l E) as (Hf & Hbf & Hoth).
  pose proof (ParMarkBitMap.from_sorted objs b objs_sorted) as Hs. rewrite E in Hs.
  apply StronglySorted_inv in Hs as [_ Hs]. rewrite Forall_forall in Hs.
  assert (forall o', o' ∈ objs -> b <= o'.1 -> f.1 <= o'.1) as Hmin.
  { intros o' Ho' Hbo. destruct (Hoth o' Ho') as [-> | [Hl | Hlt]]; [lia | | lia].
    specialize (Hs o' Hl). unfold before in Hs. destruct (objs_range f Hf). lia. }
  pose proof (Hmin o Ho ltac:(lia)) as Hfo.
  assert (f.1 / B = o.1 / B) as Heq.
  { symmetry. apply (Z.div_unique_pos f.1 B (o.1 / B) (f.1 - b)); [lia | unfold b; lia]. }
  exists f. split_and!; [split; [done |] | done | done | done | done].
  intros o' Ho' Hbl. apply Hmin; [done |]. unfold b. rewrite <- Heq, <- Hbl.
  pose proof (Z.div_mod o'.1 B). pose proof (Z.mod_pos_bound o'.1 B). lia.
Qed.

Lemma block_in_region x : x / R = (x / B) / 512.
Proof.
  destruct (block_region shift Hshift) as (HB & _ & ->). rewrite Z.div_div by lia. f_equal. lia.
Qed.

(** The table is right for the regions that are filled. *)
Definition blocks_ok (d : ParallelCompactData) : Prop :=
  forall q r o, rd d q = Some r -> _blocks_filled r = true -> first_in_block o -> o.1 / R = q ->
    block_data d !! (o.1 / B) = Some (G * live (lo q) o.1 objs).

(** The live bits of a region before an object that begins in it. *)
Lemma live_in_region q o :
  o ∈ objs -> o.1 / R = q ->
  live (lo q) o.1 objs =
    partial_bits shift objs q +
    sum_of (fun o' : obj => if o'.1 <? o.1 then osize o' else 0) (ParMarkBitMap.from (lo q) objs).
Proof.
  intros Ho <-. pose proof (region_bounds shift Hshift o.1) as Hb.
  change (sum_of (fun o' : obj => if o'.1 <? o.1 then osize o' else 0) (ParMarkBitMap.from (lo (o.1 / R)) objs))
    with (ParMarkBitMap.live_bits (ParMarkBitMap.from (lo (o.1 / R)) objs) o.1).
  rewrite from_spec; [| apply objs_sorted | intros x Hx; destruct (objs_range x Hx); lia].
  unfold live, partial_bits. rewrite <- sum_of_add. apply sum_of_ext. intros o' Ho'.
  destruct (objs_range o' Ho').
  assert (o'.1 < o.1 -> o'.2 < o.1) by (intros; by apply (start_clear objs o o' objs_disjoint)).
  unfold ov, osize. case_cmp; lia.
Qed.

Lemma fill_blocks_ok d q r :
  attached d -> blocks_ok d -> rd d q = Some r ->
  _partial_obj_size r = G * partial_bits shift objs q ->
  exists m, fill_blocks shift pm q d = Some (tt, with_blocks d m) /\
    (forall o, first_in_block o -> o.1 / R = q -> m !! (o.1 / B) = Some (G * live (lo q) o.1 objs)) /\
    (forall k, k / 512 <> q -> m !! k = block_data d !! k).
Proof.
  intros Ha Hok Hq Hp. rewrite (fill_blocks_run d q r Ha Hq Hp).
  destruct (block_region shift Hshift) as (HB & HGB & HRB).
  assert (forall o, o ∈ ParMarkBitMap.from (lo q) objs <-> o ∈ objs /\ lo q <= o.1) as Hfrom.
  { intros o. apply elem_of_from; [apply objs_sorted |]. intros x Hx. destruct (objs_range x Hx). lia. }
  destruct (Z.ltb_spec (partial_bits shift objs q) R) as [Hlt | Hge].
  - eexists. split; [done |]. split.
    + intros o [Ho Hfirst] Hoq. pose proof (region_bounds shift Hshift o.1) as Hb. rewrite Hoq in Hb.
      rewrite (live_in_region q o Ho Hoq). apply fill_first; [done | | | | lia | |].
      * apply ParMarkBitMap.from_sorted, objs_sorted.
      * intros x [Hx _]%Hfrom. destruct (objs_range x Hx). lia.
      * apply Hfrom. split; [done | lia].
      * destruct (objs_range o Ho). rewrite (a_blocks _ Ha). pose proof (a_size _ Ha).
        assert (o.1 / B < 512 * region_count d); [| lia]. apply Z.div_lt_upper_bound; [lia | nia].
      * intros o' [Ho' _]%Hfrom Hlt' Heq. specialize (Hfirst o' Ho' Heq). lia.
    + intros k Hk. apply fill_other. intros o [Ho Hlo]%Hfrom Hre Hbk. apply Hk. rewrite <- Hbk.
      rewrite <- block_in_region. symmetry. apply (Z.div_unique_pos _ _ _ (o.1 - lo q)); lia.
  - exists (block_data d). split; [by destruct d |]. split; [| done].
    intros o [Ho _] Hoq. pose proof (region_bounds shift Hshift o.1) as Hb. rewrite Hoq in Hb.
    pose proof (partial_gap q o Ho ltac:(lia)). lia.
Qed.

(** A space of [n] regions from [a] on, marked and sent to the address [target]. *)
Record ready (a : Z) (n : nat) (target : Z) (d : ParallelCompactData) : Prop := {
  y_attached : attached d;
  y_target : 0 <= target /\ target + 8 * (G * live (lo a) (lo (a + Z.of_nat n)) objs) < 2 ^ 64;
  y_region : forall i r, rd d i = Some r ->
    _partial_obj_size r = G * partial_bits shift objs i /\
    data_size r = G * live (lo i) (lo i + R) objs /\
    (a <= i < a + Z.of_nat n -> _destination r = target + 8 * (G * live (lo a) (lo i) objs));
  y_blocks : blocks_ok d
}.

Lemma geom_attached d : attached d -> ParMarkBitMap.geom shift pm.
Proof.
  intros [[H1 H2 H3] H4 H5 H6]. destruct (grain_region shift Hshift) as (_ & _ & HGR).
  split; [lia | by rewrite H4 |]. rewrite H4, H5.
  replace (R * region_count d * G) with (65536 * region_count d) by (rewrite <- HGR; ring). done.
Qed.

(** The words of the objects that begin in the block before an object. *)
Lemma live_in_block d o :
  attached d -> o ∈ objs ->
  ParMarkBitMap.live_words_in_range shift pm (block_align_down (obj_addr shift d o))
      (obj_addr shift d o) =
    Some (G * sum_of (fun o' : obj => if (o.1 / B * B <=? o'.1) && (o'.1 <? o.1) then osize o' else 0) objs).
Proof.
  intros Ha Ho. destruct (objs_range o Ho). pose proof (geom_attached d Ha) as Hg.
  destruct (block_region shift Hshift) as (HB & HGB & HRB).
  pose proof (a_covers _ Ha) as [H1 H2 H3]. pose proof (a_start _ Ha) as Hst.
  pose proof (a_size _ Ha) as Hsz. destruct (grain_region shift Hshift) as (HG & HR & HGR).
  set (b := o.1 / B * B).
  assert (0 <= b <= o.1 /\ o.1 < b + B) as Hb.
  { unfold b. pose proof (Z.div_mod o.1 B). pose proof (Z.mod_pos_bound o.1 B).
    assert (0 <= o.1 / B) by (apply Z.div_pos; lia). nia. }
  assert (obj_addr shift d o = ParMarkBitMap.bit_to_addr shift pm o.1) as Hao.
  { rewrite ParMarkBitMap.bit_to_addr_eq by (done || lia). unfold obj_addr. lia. }
  assert (G * o.1 + G <= 65536 * region_count d) by nia.
  assert (block_align_down (obj_addr shift d o) = ParMarkBitMap.bit_to_addr shift pm b) as ->.
  { rewrite ParMarkBitMap.bit_to_addr_eq by (done || lia). unfold block_align_down, obj_addr.
    change BlockAddrMask with (not64 (Z.ones 10)). rewrite land_not64_ones by (unfold is_u64; nia).
    assert (G * o.1 = 128 * (o.1 / B) + G * (o.1 - b)) as Hgo by (unfold b; nia).
    assert (0 <= G * (o.1 - b) < 128) by nia. assert (b * G = 128 * (o.1 / B)) by (unfold b; nia). lia. }
  rewrite Hao, (ParMarkBitMap.live_words_in_range_eq shift pm objs o b) by (done || lia).
  rewrite from_spec; [by rewrite Z.mul_comm | apply objs_sorted |]. intros x Hx. destruct (objs_range x Hx). lia.
Qed.

(** Before the first object of the block and in the block. *)
Lemma live_by_block o f :
  o ∈ objs -> f ∈ objs -> f.1 / B = o.1 / B -> o.1 / B * B <= f.1 <= o.1 ->
  (forall o', o' ∈ objs -> o.1 / B * B <= o'.1 -> f.1 <= o'.1) ->
  live (lo (o.1 / R)) o.1 objs =
    live (lo (o.1 / R)) f.1 objs +
    sum_of (fun o' : obj => if (o.1 / B * B <=? o'.1) && (o'.1 <? o.1) then osize o' else 0) objs.
Proof.
  intros Ho Hf Heq Hfo Hmin. pose proof (region_bounds shift Hshift f.1) as Hb.
  assert (f.1 / R = o.1 / R) as Hr' by (rewrite !block_in_region; congruence).
  rewrite Hr' in Hb. rewrite (live_split (lo (o.1 / R)) f.1 o.1) by lia. f_equal.
  rewrite live_starts.
  - apply sum_of_ext. intros o' Ho'. specialize (Hmin o' Ho'). clear - Hmin Hfo.
    revert Hmin Hfo. generalize (o.1 / B * B). intros b Hmin Hfo. case_cmp; lia.
  - intros o' Ho'. destruct (objs_range o' Ho'). split; [lia |].
    split; intros; [by apply (start_clear objs f o' objs_disjoint)
                   | by apply (start_clear objs o o' objs_disjoint)].
Qed.

(** A filled table keeps the space ready. *)
Lemma ready_filled a n target d q r m :
  ready a n target d -> rd d q = Some r ->
  (forall o, first_in_block o -> o.1 / R = q -> m !! (o.1 / B) = Some (G * live (lo q) o.1 objs)) ->
  (forall k, k / 512 <> q -> m !! k = block_data d !! k) ->
  ready a n target (apply (upd q (q + 1) (fun _ => set_blocks_filled)) (with_blocks d m)).
Proof.
  intros [Ha Ht Hy Hb] Hq Hm Hm'.
  assert (forall i r', rd (apply (upd q (q + 1) (fun _ => set_blocks_filled)) (with_blocks d m)) i = Some r' ->
    exists r0, rd d i = Some r0 /\ r' = if i =? q then set_blocks_filled r0 else r0) as Hrd.
  { intros i r' Hi. rewrite rd_apply in Hi. change (rd (with_blocks d m) i) with (rd d i) in Hi.
    destruct (rd d i) as [r0 |]; [| done]. injection Hi as <-. exists r0. split; [done |].
    unfold upd. case_cmp; done || lia. }
  split; [by apply attached_apply, attached_blocks | done | |].
  - intros i r' (r0 & H0 & ->)%Hrd. specialize (Hy i r0 H0). by destruct (i =? q).
  - intros i r' o (r0 & H0 & ->)%Hrd Hf Ho Hoi. change (block_data _) with m.
    destruct (Z.eqb_spec i q) as [-> | Hne]; [by apply Hm |].
    rewrite Hm' by (rewrite <- block_in_region; lia). by apply (Hb i r0).
Qed.

Lemma obj_region_idx d o : attached d -> o ∈ objs ->
  addr_to_region_idx d (obj_addr shift d o) = o.1 / R /\
  addr_to_block_idx d (obj_addr shift d o) = o.1 / B /\
  region_offset (obj_addr shift d o) = G * (o.1 - lo (o.1 / R)) /\
  0 <= o.1 / R < region_count d.
Proof.
  intros Ha Ho. destruct (objs_range o Ho) as [H1 H2].
  pose proof (a_covers _ Ha) as Hc. pose proof (c_start _ Hc). pose proof (c_end _ Hc).
  pose proof (a_size _ Ha) as Hsz. destruct (grain_region shift Hshift) as (HG & HR & HGR).
  destruct (block_region shift Hshift) as (HB & HGB & HRB).
  assert (0 <= G * o.1 < 65536 * region_count d) by nia.
  unfold obj_addr. rewrite (addr_to_region_idx_words d Hc), (region_offset_words d Hc) by lia.
  rewrite words_div, words_mod by done. split_and!.
  - done.
  - unfold addr_to_block_idx. rewrite pointer_delta_small by lia. change Log2BlockSize with 7.
    rewrite Z.shiftr_div_pow2 by lia.
    replace ((_region_start d + 8 * (G * o.1) - _region_start d) / 8) with (G * o.1) by lia.
    change (2 ^ 7) with 128. rewrite <- HGB. apply Z.div_mul_cancel_l; lia.
  - pose proof (Z.div_mod o.1 R). f_equal. lia.
  - apply Z.div_pos; lia.
  - apply Z.div_lt_upper_bound; lia.
Qed.

Lemma calc_run a n target d o :
  ready a n target d -> o ∈ objs -> a <= o.1 / R < a + Z.of_nat n ->
  exists d', calc_new_pointer shift pm (obj_addr shift d o) d =
      Some (target + 8 * (G * live (lo a) o.1 objs), d') /\
    ready a n target d' /\ _region_start d' = _region_start d.
Proof.
  intros Hy Ho Hq. pose proof (y_attached _ _ _ _ Hy) as Ha.
  destruct (obj_region_idx d o Ha Ho) as (Hidx & Hbidx & Hoff & Hqr).
  destruct (grain_region shift Hshift) as (HG & HR & HGR).
  set (q := o.1 / R) in *. destruct (rd_Some d q Hqr) as [r Hrq].
  destruct (y_region _ _ _ _ Hy q r Hrq) as (Hp & Hds & Hdest). specialize (Hdest Hq).
  pose proof (region_bounds shift Hshift o.1) as Hb. fold q in Hb.
  assert (lo a <= lo q /\ lo q + R <= lo (a + Z.of_nat n)) as [Hlo Hhi] by nia.
  assert (live (lo a) o.1 objs = live (lo a) (lo q) objs + live (lo q) o.1 objs) as Hsplit
    by (apply live_split; lia).
  assert (live (lo a) o.1 objs <= live (lo a) (lo (a + Z.of_nat n)) objs) as Hle.
  { rewrite (live_split (lo a) o.1 (lo (a + Z.of_nat n))) by lia.
    pose proof (live_nonneg o.1 (lo (a + Z.of_nat n)) objs). lia. }
  destruct (y_target _ _ _ _ Hy) as [Ht0 Ht].
  pose proof (live_nonneg (lo a) (lo q) objs). pose proof (live_nonneg (lo q) o.1 objs).
  assert (G * live (lo a) o.1 objs <= G * live (lo a) (lo (a + Z.of_nat n)) objs) by nia.
  assert (0 <= G * live (lo a) (lo q) objs /\ 0 <= G * live (lo q) o.1 objs) by nia.
  unfold calc_new_pointer. rewrite (M_bind_Some _ _ _ d d) by done. rewrite Hidx.
  mrun (region_run d q r Hrq). change RegionSize with 65536.
  destruct (Z.eqb_spec (data_size r) 65536) as [Hfull | Hnf].
  - exists d. split_and!; [| done | done]. rewrite M_ret_run, Hoff, Hdest.
    assert (live (lo q) o.1 objs = o.1 - lo q) as Hl.
    { apply (live_full _ _ (lo q + R)); [apply objs_sorted | lia | nia]. }
    rewrite <- Hl. rewrite hw_add_small by lia. do 2 f_equal. lia.
  - assert (exists d1, when (negb (_blocks_filled r))
        (fill_blocks shift pm q;; update_region q set_blocks_filled) d = Some (tt, d1) /\
      ready a n target d1 /\ _region_start d1 = _region_start d /\
      exists r1, rd d1 q = Some r1 /\ _blocks_filled r1 = true) as (d1 & Hw & Hy1 & Hst & r1 & Hr1 & Hbf).
    { destruct (_blocks_filled r) eqn:Hbf; [by eauto 10 |].
      destruct (fill_blocks_ok d q r Ha (y_blocks _ _ _ _ Hy) Hrq Hp) as (m & Hrun & Hm & Hm').
      exists (apply (upd q (q + 1) (fun _ => set_blocks_filled)) (with_blocks d m)). split_and!.
      - cbn [negb when]. mrun Hrun. by apply update_region_run.
      - by apply (ready_filled a n target d q r).
      - done.
      - rewrite rd_apply. change (rd (with_blocks d m) q) with (rd d q). rewrite Hrq.
        eexists. split; [done |]. unfold upd. case_cmp; done || lia. }
    mrun Hw. rewrite (M_bind_Some _ _ _ d1 d1) by done.
    assert (obj_addr shift d o = obj_addr shift d1 o) as Hoa by (unfold obj_addr; by rewrite Hst).
    pose proof (y_attached _ _ _ _ Hy1) as Ha1. rewrite Hoa.
    destruct (obj_region_idx d1 o Ha1 Ho) as (_ & Hbidx1 & _ & _). rewrite Hbidx1.
    destruct (first_exists o Ho) as (f & Hf & Hfb & Hfo & Hmin). destruct (objs_range o Ho) as [Ho1 Ho2].
    assert (block_offset_at d1 (o.1 / B) = Some (G * live (lo q) f.1 objs)) as Hbo.
    { unfold block_offset_at. pose proof (y_blocks _ _ _ _ Hy1 q r1 f Hr1 Hbf Hf) as Hlk.
      rewrite Hfb in Hlk. rewrite Hlk by (rewrite block_in_region, Hfb, <- block_in_region; done).
      destruct (block_region shift Hshift) as (HB & _ & HRB). rewrite (a_blocks _ Ha1).
      assert (0 <= o.1 / B) by (apply Z.div_pos; lia).
      assert (o.1 / B < 512 * region_count d1).
      { pose proof (a_size _ Ha1). apply Z.div_lt_upper_bound; [lia | nia]. }
      case_cmp; done || lia. }
    rewrite Hbo. rewrite (M_bind_Some _ _ _ (G * live (lo q) f.1 objs) d1) by done.
    rewrite (live_in_block d1 o Ha1 Ho). rewrite (M_bind_Some _ _ _ (G * sum_of _ objs) d1) by done.
    pose proof (live_by_block o f Ho (proj1 Hf) Hfb Hfo Hmin) as Hbb. fold q in Hbb.
    exists d1. split_and!; [| done | done]. rewrite M_ret_run, Hdest, <- Z.mul_add_distr_l, <- Hbb.
    rewrite u64_small by (unfold is_u64; lia). rewrite hw_add_small by lia. do 2 f_equal. lia.
Qed.

End Calc.

(** ** The whole of a compaction *)

(** [calc_new_pointer] for the addresses of a list. *)
Fixpoint new_pointers (shift : Z) (pm : ParMarkBitMap.ParMarkBitMap) (addrs : list Z)
    : M ParallelCompactData (list Z) :=
  match addrs with
  | [] => mret []
  | a :: addrs =>
    p ← calc_new_pointer shift pm a; ps ← new_pointers shift pm addrs; mret (p :: ps)
  end.

(** The words of the objects that begin in the space from the region [a] on and
    before the object [o]. *)
Definition words_left (shift : Z) (objs : list obj) (a : Z) (o : obj) : Z :=
  sum_of (obj_words shift) (filter (fun o' => a * region_bits shift <= o'.1 /\ o'.1 < o.1) objs).

Lemma new_pointers_run shift pm objs a n target d os :
  0 <= shift <= 5 -> ParMarkBitMap.repr pm objs -> ready shift pm objs a n target d ->
  (forall o, o ∈ os -> o ∈ objs /\ a <= o.1 / region_bits shift < a + Z.of_nat n) ->
  exists d', new_pointers shift pm (obj_addr shift d <$> os) d =
    Some ((fun o => target + 8 * (2 ^ shift * live (a * region_bits shift) o.1 objs)) <$> os, d') /\
    ready shift pm objs a n target d'.
Proof.
  intros Hsh Hr. revert d. induction os as [| o os IH]; intros d Hy Hos; [by exists d |].
  destruct (Hos o ltac:(by left)) as [Ho Hq].
  destruct (calc_run shift Hsh pm objs Hr a n target d o Hy Ho Hq) as (d1 & Hrun & Hy1 & Hst).
  destruct (IH d1 Hy1) as (d' & Hrun' & Hy'); [intros; apply Hos; by right |].
  exists d'. split; [| done]. cbn [fmap list_fmap new_pointers].
  mrun Hrun. assert ((obj_addr shift d <$> os) = (obj_addr shift d1 <$> os)) as Heq
    by (apply list_fmap_ext; intros; unfold obj_addr; by rewrite Hst).
  rewrite Heq. by mrun Hrun'.
Qed.

Lemma words_left_live shift objs a o :
  disjoint objs -> o ∈ objs -> (forall o', o' ∈ objs -> ~ crosses shift o' a) ->
  words_left shift objs a o = 2 ^ shift * live (a * region_bits shift) o.1 objs.
Proof.
  intros Hd Ho Hx. rewrite live_starts.
  - unfold words_left. rewrite sum_of_filter, <- sum_of_scale. apply sum_of_ext. intros o' _.
    unfold obj_words. destruct (decide _) as [[H1 H2] | Hn]; case_cmp; lia.
  - intros o' Ho'. pose proof Hd as (_ & Hl & _). specialize (Hl o' Ho'). specialize (Hx o' Ho').
    unfold crosses in Hx. split_and!; [done | lia |]. intros. by apply (start_clear objs o o' Hd).
Qed.

Section Compact.
Context (shift : Z) (Hshift : 0 <= shift <= 5).
Context (pm : ParMarkBitMap.ParMarkBitMap) (objs : list obj) (Hr : ParMarkBitMap.repr pm objs).
Abbreviation G := (2 ^ shift).
Abbreviation R := (region_bits shift).
Abbreviation lo i := (i * R).

Lemma repr_inside d : attached shift pm d -> Forall (inside shift d) objs.
Proof.
  intros Ha. apply Forall_forall. intros o Ho. destruct (objs_range pm objs Hr o Ho).
  unfold inside. rewrite <- (a_size _ _ _ Ha). lia.
Qed.

(** The words of data of consecutive regions of marked data. *)
Lemma words_before_marked d0 d1 a n :
  marked shift d0 objs d1 -> 0 <= a -> a + Z.of_nat n <= region_count d1 ->
  words_before d1 a n = G * live (lo a) (lo (a + Z.of_nat n)) objs.
Proof.
  intros Hm Ha. destruct (grain_region shift Hshift) as (HG & HR & _). revert a Ha.
  induction n as [| n IH]; intros a Ha Hn.
  - rewrite Z.add_0_r. unfold words_before, sum_of. simpl.
    assert (live (lo a) (lo a) objs = 0) as ->; [| lia].
    pose proof (live_bound (lo a) (lo a) objs (objs_sorted pm objs Hr) ltac:(lia)).
    pose proof (live_nonneg (lo a) (lo a) objs). lia.
  - rewrite words_before_S, (IH (a + 1)) by lia. unfold words_of.
    destruct (rd_Some d1 a ltac:(lia)) as [r Hra]. rewrite Hra.
    destruct (marked_sizes shift Hshift d0 objs d1 a r Hm (objs_sorted pm objs Hr) Hra) as (_ & -> & _).
    replace (a + 1 + Z.of_nat n) with (a + Z.of_nat (S n)) by lia.
    rewrite (live_split (lo a) (lo (a + 1)) (lo (a + Z.of_nat (S n)))) by nia.
    replace (lo (a + 1)) with (lo a + R) by lia. lia.
Qed.

(** Marked and summarised data is ready for [calc_new_pointer]. *)
Lemma summarized_ready d0 d1 d2 a n w :
  attached shift pm d0 -> (forall i r, rd d0 i = Some r -> _blocks_filled r = false) ->
  marked shift d0 objs d1 -> summarized d1 a n w d2 -> 0 <= a -> 0 <= w ->
  a + Z.of_nat n <= region_count d0 ->
  w + G * live (lo a) (lo (a + Z.of_nat n)) objs <= 65536 * region_count d0 ->
  ready shift pm objs a n (_region_start d0 + 8 * w) d2.
Proof.
  intros Hat Hbf Hm Hz Ha Hw Hn He.
  pose proof (m_count _ _ _ _ Hm) as Hmc. pose proof (z_count _ _ _ _ _ Hz) as Hzc.
  assert (_region_start d1 = _region_start d0) as Hst1 by (rewrite (m_rest _ _ _ _ Hm); done).
  assert (_region_start d2 = _region_start d0) as Hst by (rewrite (z_rest _ _ _ _ _ Hz); done).
  assert (_block_count d2 = _block_count d0) as Hbc.
  { rewrite (z_rest _ _ _ _ _ Hz), (m_rest _ _ _ _ Hm). done. }
  assert (region_count d2 = region_count d0) as Hrc by lia.
  destruct Hat as [[H1 H2 H3] H4 H5 H6].
  assert (forall i r2, rd d2 i = Some r2 -> exists r0 r1, rd d0 i = Some r0 /\ rd d1 i = Some r1 /\
    sent d1 a n w i r1 r2) as Hall.
  { intros i r2 Hi. pose proof (rd_inv _ _ _ Hi).
    destruct (rd_Some d0 i ltac:(lia)) as [r0 H0']. destruct (rd_Some d1 i ltac:(lia)) as [r1 H1'].
    exists r0, r1. split_and!; [done | done |]. by apply (z_region _ _ _ _ _ Hz). }
  split.
  - split; [split; rewrite ?Hst, ?Hrc; done | by rewrite Hst | by rewrite Hrc | by rewrite Hrc, Hbc].
  - lia.
  - intros i r2 Hi. destruct (Hall i r2 Hi) as (r0 & r1 & Hr0 & Hr1 & Hs).
    destruct (m_region _ _ _ _ Hm i r0 r1 Hr0 Hr1) as (Hp & _).
    destruct (marked_sizes shift Hshift d0 objs d1 i r1 Hm (objs_sorted pm objs Hr) Hr1) as (_ & Hds & _).
    pose proof (s_kept _ _ _ _ _ _ _ Hs) as Hk. rewrite (k_size _ _ Hk), (kept_data_size _ _ Hk).
    split_and!; [done | done |]. intros Hin. rewrite (s_dest _ _ _ _ _ _ _ Hs).
    destruct (Z.leb_spec a i), (Z.ltb_spec i (a + Z.of_nat n)); try lia. simpl.
    unfold pos. rewrite (words_before_marked d0 d1) by (done || lia). rewrite Hst1.
    replace (a + Z.of_nat (Z.to_nat (i - a))) with i by lia. lia.
  - intros q r2 o Hi Hf _ _. destruct (Hall q r2 Hi) as (r0 & r1 & Hr0 & Hr1 & Hs).
    pose proof (s_kept _ _ _ _ _ _ _ Hs) as Hk.
    destruct (m_region _ _ _ _ Hm q r0 r1 Hr0 Hr1) as (_ & _ & _ & Hb & _).
    rewrite (k_filled _ _ Hk), Hb, (Hbf q r0 Hr0) in Hf. done.
Qed.

(** Objects keep their order, do not overlap and do not move up. *)
Lemma words_left_order a o o' :
  (forall x, x ∈ objs -> ~ crosses shift x a) -> o ∈ objs -> o' ∈ objs -> lo a <= o.1 ->
  before o o' -> words_left shift objs a o + obj_words shift o <= words_left shift objs a o'.
Proof.
  intros Hx Ho Ho' Hlo Hb. pose proof (objs_disjoint pm objs Hr) as Hd. unfold before in Hb.
  destruct (objs_range pm objs Hr o Ho), (objs_range pm objs Hr o' Ho').
  rewrite !words_left_live by done. unfold obj_words. rewrite <- Z.mul_add_distr_l.
  apply Z.mul_le_mono_nonneg_l; [lia |]. rewrite (live_split (lo a) o.1 o'.1) by lia.
  apply Z.add_le_mono_l. transitivity (ov o.1 o'.1 o); [unfold ov, osize; lia |].
  apply (sum_of_elem (ov o.1 o'.1)); [| done]. intros. apply ov_nonneg.
Qed.

Lemma words_left_down a o :
  (forall x, x ∈ objs -> ~ crosses shift x a) -> o ∈ objs -> lo a <= o.1 ->
  words_left shift objs a o <= G * o.1 - 65536 * a.
Proof.
  intros Hx Ho Hlo. rewrite words_left_live by (done || apply (objs_disjoint pm objs Hr)).
  pose proof (live_bound (lo a) o.1 objs (objs_sorted pm objs Hr) Hlo).
  destruct (grain_region shift Hshift) as (HG & _ & <-).
  transitivity (G * (o.1 - lo a)); [apply Z.mul_le_mono_nonneg_l; lia |].
  apply Z.eq_le_incl. ring.
Qed.
End Compact.

(** Marking, the summary, and the new addresses of the objects of [os]. *)
Definition compaction (shift : Z) (pm : ParMarkBitMap.ParMarkBitMap) (s : SplitInfo)
    (d0 : ParallelCompactData) (l : list obj) (source_beg source_end target_beg target_end : Z)
    (os : list obj) : M ParallelCompactData (summary * list Z) :=
  add_objs shift d0 l;;
  t ← summarize s source_beg source_end target_beg target_end;
  ps ← new_pointers shift pm (obj_addr shift d0 <$> os);
  mret (t, ps).

(** C1. Compaction slides the objects together.  Let the objects of the bit map be added, in
    any order, to empty summary data, let the space of the regions from [a] to
    [a + n], which no object enters from outside, be summarised into a target that
    its live words fit into, and let the new addresses of any objects of the space be
    computed, in any order and any number of times.  Everything succeeds; the new
    address of an object is that of the target plus the sizes of the objects of
    the space before it; so objects keep their order and do not overlap, and, when
    the target does not begin after the space, none moves up. *)
Theorem compaction_slides (shift : Z) (pm : ParMarkBitMap.ParMarkBitMap) (objs l : list obj)
    (d : ParallelCompactData) (s : SplitInfo) (a : Z) (n : nat) (e w target_end : Z) (os : list obj)
    (Hshift : 0 <= shift <= 5) (Hr : ParMarkBitMap.repr pm objs) (Hd : attached shift pm d)
    (Hu : unmarked d) (Hbf : forall i r, rd d i = Some r -> _blocks_filled r = false)
    (Hl : l ≡ₚ objs) (Hs : forall j, a <= j < a + Z.of_nat n -> is_split s j = false)
    (Ha : 0 <= a) (Hn : a + Z.of_nat n <= region_count d)
    (He0 : 0 <= e) (He : 65536 * (a + Z.of_nat n - 1) < e <= 65536 * (a + Z.of_nat n))
    (Hx : forall o, o ∈ objs -> ~ crosses shift o a) (Hw : 0 <= w)
    (Hos : forall o, o ∈ os -> o ∈ objs /\ a <= o.1 / region_bits shift < a + Z.of_nat n) :
  let total := 2 ^ shift * live (a * region_bits shift) ((a + Z.of_nat n) * region_bits shift) objs in
  let target := _region_start d + 8 * w in
  w + total <= 65536 * region_count d -> target + 8 * total <= target_end ->
  let new o := target + 8 * words_left shift objs a o in
  (exists d', compaction shift pm s d l (region_to_addr d a) (_region_start d + 8 * e) target target_end os d
     = Some ((Fits (target + 8 * total), new <$> os), d')) /\
  (forall o o', o ∈ os -> o' ∈ os -> before o o' -> new o + 8 * obj_words shift o <= new o') /\
  (w <= 65536 * a -> forall o, o ∈ os -> new o <= obj_addr shift d o).
Proof.
  intros total target Hfit Hend new. pose proof (objs_sorted pm objs Hr) as Hsort.
  destruct (grain_region shift Hshift) as (HG & HR & HGR).
  assert (forall o, o ∈ os -> a * region_bits shift <= o.1) as Hlo.
  { intros o Ho. destruct (Hos o Ho) as [_ Hq]. pose proof (region_bounds shift Hshift o.1). nia. }
  split_and!.
  - destruct (marking_run shift d objs l) as (d1 & Hmark & Hm);
      [done | apply Hd | done | done | by apply (repr_inside shift pm) | done |].
    pose proof (m_count _ _ _ _ Hm) as Hmc.
    assert (_region_start d1 = _region_start d) as Hst by (rewrite (m_rest _ _ _ _ Hm); done).
    assert (covers d1) as Hc1.
    { destruct (a_covers _ _ _ Hd) as [H1 H2 H3]. split; rewrite ?Hst, ?Hmc; done. }
    assert (words_before d1 a n = total) as Htot
      by (apply (words_before_marked shift Hshift pm objs Hr d); done || lia).
    destruct (summarize_run s d1 a n e w target_end) as (d2 & Hsum & Hz); try done; try lia.
    { intros j. unfold words_of. destruct (rd d1 j) as [r |] eqn:Hj; [| lia].
      destruct (marked_sizes shift Hshift d objs d1 j r Hm Hsort Hj) as (_ & _ & _ & Hb). done. }
    assert (ready shift pm objs a n target d2) as Hy
      by (apply (summarized_ready shift Hshift pm objs Hr d d1); done || lia).
    destruct (new_pointers_run shift pm objs a n target d2 os Hshift Hr Hy Hos) as (d3 & Hnew & _).
    exists d3. unfold compaction. mrun Hmark.
    assert (region_to_addr d a = region_to_addr d1 a) as -> by (unfold region_to_addr; by rewrite Hst).
    unfold target. rewrite <- Hst. mrun Hsum.
    assert (obj_addr shift d <$> os = obj_addr shift d2 <$> os) as ->.
    { apply list_fmap_ext. intros i o _. unfold obj_addr.
      rewrite (z_rest _ _ _ _ _ Hz). simpl. by rewrite Hst. }
    mrun Hnew. rewrite M_ret_run, Htot.
    replace (_region_start d1 + 8 * w + 8 * total) with (_region_start d1 + 8 * (w + total)) by lia.
    do 3 f_equal. apply list_fmap_ext. intros i o Hi. unfold new.
    rewrite words_left_live; [done | by apply (objs_disjoint pm) | | done].
    apply Hos. by apply list_elem_of_lookup_2 in Hi.
  - intros o o' Ho Ho' Hb. unfold new. destruct (Hos o Ho) as [Hob _], (Hos o' Ho') as [Hob' _].
    pose proof (words_left_order shift Hshift pm objs Hr a o o' Hx Hob Hob' (Hlo o Ho) Hb). lia.
  - intros Hwa o Ho. destruct (Hos o Ho) as [Hob _].
    pose proof (words_left_down shift Hshift pm objs Hr a o Hx Hob (Hlo o Ho)).
    unfold new, target, obj_addr. lia.
Qed.

(** The words of a bit map with the given bits set. *)
Definition bit_words (bits : list Z) (n : nat) : list Z :=
  (fun w => sum_of (fun b => if b / 64 =? w then 2 ^ (b mod 64) else 0) bits) <$> zseq 0 n.

(** The bit map of the objects of the sample, with 32 words to a bit. *)
Definition sample_map : ParMarkBitMap.ParMarkBitMap :=
  ParMarkBitMap.mkParMarkBitMap 524288 131072
    (BitMap.mkBitMap (bit_words [3; 2000; 3000] 64) 4096)
    (BitMap.mkBitMap (bit_words [5; 2100; 3000] 64) 4096) 1024.

#[local] Existing Instance BitMap.wf_dec.

Lemma sample_map_repr : ParMarkBitMap.repr sample_map [(3, 5); (2000, 2100); (3000, 3000)].
Proof.
  split; try done; try decide_now.
  - repeat constructor; unfold ParMarkBitMap.before; simpl; lia.
  - apply ParMarkBitMap.bits_by_evaluation. by vm_compute.
  - apply (ParMarkBitMap.bits_by_evaluation _ snd). by vm_compute.
Qed.

(** The space of the two regions is compacted onto itself. *)
Lemma compaction_slides_witness :
  exists d', compaction 5 sample_map clear_split sample_data [(2000, 2100); (3000, 3000); (3, 5)]
      524288 (524288 + 8 * 131072) 524288 1572864 [(3000, 3000); (3, 5); (2000, 2100)] sample_data =
    Some ((Fits (524288 + 8 * 3360), [524288 + 8 * 3328; 524288; 524288 + 8 * 96]), d').
Proof.
  destruct (compaction_slides 5 sample_map [(3, 5); (2000, 2100); (3000, 3000)]
    [(2000, 2100); (3000, 3000); (3, 5)] sample_data clear_split 0 2 131072 0 1572864
    [(3000, 3000); (3, 5); (2000, 2100)]) as [(d' & Hrun) _].
  - lia.
  - apply sample_map_repr.
  - split; [apply sample_covers | done | by vm_compute | by vm_compute].
  - apply initialize_unmarked.
  - intros i r ->%initialize_zero. done.
  - apply (Permutation_app_comm [(2000, 2100); (3000, 3000)] [(3, 5)]).
  - intros j _. unfold is_split. by rewrite andb_false_r.
  - lia.
  - by vm_compute.
  - lia.
  - lia.
  - intros o Ho. unfold crosses. rewrite !elem_of_cons, elem_of_nil in Ho.
    destruct Ho as [-> | [-> | [-> | []]]]; simpl; lia.
  - lia.
  - intros o Ho. rewrite !elem_of_cons, elem_of_nil in Ho.
    destruct Ho as [-> | [-> | [-> | []]]]; (split; [set_solver |]); by vm_compute.
  - by vm_compute.
  - by vm_compute.
  - exists d'. exact Hrun.
Defined.

End NewPointers.
