(* ===== verification/CGRPSpace.v ===== *)
(** * Spaces of containers

    [bda/mutableBDASpace.hpp], [.inline.hpp] and [.cpp],
    [class MutableBDASpace::CGRPSpace]: the part of the old generation that holds the
    containers of one class of collections, or, for the first space, all other
    objects.  A space hands out segments of memory, each described by a container
    header, which it keeps in a queue; headers of free segments go to a pool.

    The operations of a space also change its manager and the collector: the
    segment bit map, the object start array and the container of each region of the
    summary data.  They run in the state monad of all of these, the [world], in which
    the spaces are a list; a space is named by its index there.  The headers are in the
    C heap; the allocator of the C heap is a parameter.  The atomic exchanges
    run without interference. *)

From Stdlib Require Import ZArith Lia.
From stdpp Require Import base numbers gmap list.
From S2P Require Import Prelude GlobalDefs Floats MemRegion MutableSpace ParMarkBitMap.
From S2P Require Import Container GenQueue BDARegion ObjectStartArray CompactData.

Local Open Scope Z_scope.

Module CGRPSpace.
Import Container.

(** ** Constants *)

Definition Log2MinRegionSize : Z := 16.
Definition MinRegionSize : Z := Z.shiftl 1 Log2MinRegionSize.
Definition MinRegionSizeBytes : Z := Z.shiftl MinRegionSize LogHeapWordSize.
Definition MinRegionSizeOffsetMask : Z := MinRegionSize - 1.
Definition MinRegionAddrOffsetMask : Z := MinRegionSizeBytes - 1.
Definition MinRegionAddrMask : Z := not64 MinRegionAddrOffsetMask.
Definition Log2BlockSize : Z := 7.
Definition BlockSize : Z := Z.shiftl 1 Log2BlockSize.
Definition BlockSizeBytes : Z := Z.shiftl BlockSize LogHeapWordSize.
Definition CONTAINER_IN_POOL_MASK : Z := 1.

(** [calculate_reserved_sz], from the launch parameters that the constructor of
    [MutableBDASpace] stores in variables of type [int]; [undef] stands for the
    conversion of a product out of range. *)
Definition calculate_reserved_sz (dnf delegation_level default_collection_size node_fields : Z)
    (BDAContainerFraction : SpecFloat.spec_float) (undef : Z) : Z :=
  let f := 8 in
  let h := 2 * 8 in
  let term1 := u64 (dnf * f) in
  let term2 := u64 (i32 (dnf * delegation_level) * (f + h)) in
  let term3 := u64 (f + h + u64 (node_fields * u64 (f + h + term1 + term2))) in
  let reserved_sz_bytes :=
    Floats.to_size_t undef
      (Floats.dmul (Floats.double_of_Z (u64 (term3 * default_collection_size))) BDAContainerFraction) in
  align_size_up (u64 (Z.shiftr (swrap 64 reserved_sz_bytes) LogHeapWordSize)) MinRegionSize.

(** ** The state *)

Record CGRPSpace := mkCGRPSpace {
  _space : MutableSpace.MutableSpace;
  _type : Z;
  _containers : GenQueue.GenQueue;
  _pool : GenQueue.GenQueue;
  _large_pool : GenQueue.GenQueue;
  _last_segment : Z
}.

Implicit Types g : CGRPSpace.

Definition with_space g (s : MutableSpace.MutableSpace) : CGRPSpace :=
  mkCGRPSpace s (_type g) (_containers g) (_pool g) (_large_pool g) (_last_segment g).
Definition with_containers g (q : GenQueue.GenQueue) : CGRPSpace :=
  mkCGRPSpace (_space g) (_type g) q (_pool g) (_large_pool g) (_last_segment g).
Definition with_pool g (q : GenQueue.GenQueue) : CGRPSpace :=
  mkCGRPSpace (_space g) (_type g) (_containers g) q (_large_pool g) (_last_segment g).
Definition with_last_segment g (c : Z) : CGRPSpace :=
  mkCGRPSpace (_space g) (_type g) (_containers g) (_pool g) (_large_pool g) c.

(** The constructor; it leaves [_last_segment] as it is in the new memory. *)
Definition new (alignment region last_segment : Z) : CGRPSpace :=
  mkCGRPSpace (MutableSpace.new alignment) region GenQueue.create GenQueue.create GenQueue.create
    last_segment.

Definition container_type g : Z := _type g.
Definition container_count g : Z := GenQueue.n_elements (_containers g).
Definition equals (container_type : Z) g : bool := container_type =? _type g.
Definition first_container g : Z := GenQueue.peek (_containers g).
Definition last_container g : Z := GenQueue.bot (_containers g).

Record world := mkWorld {
  limits : MutableSpace.MutableSpace;
  spaces : list CGRPSpace;
  segment_bitmap : ParMarkBitMap.ParMarkBitMap;
  start_array : ObjectStartArray.ObjectStartArray;
  summary_data : CompactData.ParallelCompactData;
  headers : heap
}.

Implicit Types w : world.

Definition set_limits w (s : MutableSpace.MutableSpace) : world :=
  mkWorld s (spaces w) (segment_bitmap w) (start_array w) (summary_data w) (headers w).
Definition set_spaces w (l : list CGRPSpace) : world :=
  mkWorld (limits w) l (segment_bitmap w) (start_array w) (summary_data w) (headers w).
Definition set_bitmap w (pm : ParMarkBitMap.ParMarkBitMap) : world :=
  mkWorld (limits w) (spaces w) pm (start_array w) (summary_data w) (headers w).
Definition set_array w (a : ObjectStartArray.ObjectStartArray) : world :=
  mkWorld (limits w) (spaces w) (segment_bitmap w) a (summary_data w) (headers w).
Definition set_data w (d : CompactData.ParallelCompactData) : world :=
  mkWorld (limits w) (spaces w) (segment_bitmap w) (start_array w) d (headers w).
Definition set_headers w (h : heap) : world :=
  mkWorld (limits w) (spaces w) (segment_bitmap w) (start_array w) (summary_data w) h.

(** [spaces()->at(i)] *)
Definition at_ (i : Z) : M world CGRPSpace := fun w =>
  if 0 <=? i then g ← spaces w !! Z.to_nat i; Some (g, w) else None.
(** Assignments to the fields of the space [i]. *)
Definition update (i : Z) (f : CGRPSpace -> CGRPSpace) : M world unit := fun w =>
  if 0 <=? i then
    g ← spaces w !! Z.to_nat i;
    Some (tt, set_spaces w (<[Z.to_nat i := f g]> (spaces w)))
  else None.
(** Computations on the C heap and on the summary data. *)
Definition on_headers {A} (m : M heap A) : M world A := fun w =>
  match m (headers w) with Some (x, h) => Some (x, set_headers w h) | None => None end.
Definition on_data {A} (m : M CompactData.ParallelCompactData A) : M world A := fun w =>
  match m (summary_data w) with Some (x, d) => Some (x, set_data w d) | None => None end.

(** The number of headers in the C heap, which bounds every walk along links. *)
Definition header_count w : nat := size (headers w).

(** [_manager->allocate_block(obj)] *)
Definition allocate_block (obj : Z) : M world unit := fun w =>
  a ← ObjectStartArray.allocate_block (start_array w) obj; Some (tt, set_array w a).

Section Operations.
(** The table of the region identifiers, the size of a regular segment and of the
    header of a filler array, [LogMinObjAlignment], and the allocator of the C heap:
    the address it returns and what the new memory holds. *)
Context (regions : BDARegion.table) (segment_sz filler_header_size shift : Z).
Context (AllocateHeap : heap -> Z) (junk : Z -> container).

Definition region_start_ptr : Z := BDARegion.region_start_ptr regions.

(** [_type->value()] *)
Definition type_value (i : Z) : M world Z := g ← at_ i; lift_opt (BDARegion.value_at regions (_type g)).

Definition mark_container (c : Z) : M world bool :=
  k ← on_headers (load c);
  w ← get;
  let '(ok, pm) := ParMarkBitMap.mark_obj shift (segment_bitmap w) (_start k)
                     (pointer_delta (_hard_end k) (_start k)) in
  put (set_bitmap w pm);; mret ok.

Definition unmark_container (c : Z) : M world unit :=
  k ← on_headers (load c);
  w ← get;
  let beg_bit := ParMarkBitMap.addr_to_bit shift (segment_bitmap w) (_start k) in
  let end_bit := ParMarkBitMap.addr_to_bit shift (segment_bitmap w) (hw_sub (_hard_end k) 1) in
  put (set_bitmap w (ParMarkBitMap.clear_range (segment_bitmap w) beg_bit end_bit)).

(** [PSParallelCompact::install_container_in_region] *)
Definition install_container_in_region (c : Z) : M world unit :=
  k ← on_headers (load c); on_data (CompactData.install_bda_container c k).

(** ** Allocation of segments *)

Definition allocate_container : M world Z :=
  h ← gets headers;
  let p := AllocateHeap h in
  on_headers (modify (fun h => <[p := junk p]> h));;
  mret p.

Definition setup_container (i container : Z) (mr : MemRegion.MemRegion) (obj_sz : Z) : M world unit :=
  value ← type_value i;
  on_headers (store container (fun _ =>
    with_space_id
      (mkContainer (hw_add (MemRegion.start mr) obj_sz) (MemRegion.start mr)
         (hw_sub (MemRegion.end_ mr) filler_header_size) (MemRegion.end_ mr) NULL 0 NULL NULL NULL NULL)
      (exact_log2 value)));;
  g ← at_ i;
  when (container_type g =? region_start_ptr) (mark_container container;; mret tt);;
  install_container_in_region container;;
  allocate_block (MemRegion.start mr).

Definition allocate_and_setup_container (i start reserved_sz obj_sz : Z) : M world Z :=
  container ← allocate_container;
  setup_container i container (MemRegion.mkMemRegion start reserved_sz) obj_sz;;
  mret container.

Definition calculate_large_reserved_sz (size : Z) : Z := align_size_up size segment_sz.

(** [space()->cas_allocate(size)] *)
Definition space_cas_allocate (i size : Z) : M world Z :=
  g ← at_ i;
  let '(ptr, s) := MutableSpace.cas_allocate (_space g) size in
  update i (fun g => with_space g s);; mret ptr.

(** [space()->cas_allocate_aligned(size)]; the filler it may write is not part of
    the state. *)
Definition space_cas_allocate_aligned (i size : Z) : M world Z :=
  g ← at_ i;
  let '(ptr, s, _) := MutableSpace.cas_allocate_aligned filler_header_size (_space g) size in
  update i (fun g => with_space g s);; mret ptr.

(** The header it sets is not zeroed before; [_space_id] gets the value of the type,
    not its logarithm. *)
Definition install_container_in_space (i reserved_sz size : Z) : M world Z :=
  ptr ← space_cas_allocate i reserved_sz;
  if ptr =? NULL then mret ptr
  else
    container ← allocate_container;
    value ← type_value i;
    on_headers (store container (fun _ =>
      with_space_id
        (mkContainer (hw_add ptr size) ptr (hw_sub (hw_add ptr reserved_sz) filler_header_size)
           (hw_add ptr reserved_sz) NULL 0 NULL NULL NULL NULL) value));;
    mret container.

Definition allocate_large_container (i size : Z) : M world Z :=
  let reserved_sz := calculate_large_reserved_sz size in
  container ← install_container_in_space i reserved_sz size;
  when (negb (container =? NULL))
    (mark_container container;;
     start ← on_headers (field _start container);
     allocate_block start;;
     install_container_in_region container);;
  mret container.

(** ** The pool *)

(** Operations on the two queues of the space [i]. *)
Definition on_pool {A} (i : Z) (m : GenQueue.GenQueue -> M heap (A * GenQueue.GenQueue)) : M world A :=
  g ← at_ i;
  '(x, q) ← on_headers (m (_pool g));
  update i (fun g => with_pool g q);; mret x.
Definition on_containers {A} (i : Z) (m : GenQueue.GenQueue -> M heap (A * GenQueue.GenQueue)) : M world A :=
  g ← at_ i;
  '(x, q) ← on_headers (m (_containers g));
  update i (fun g => with_containers g q);; mret x.

Definition free_container (i container : Z) : M world unit :=
  on_headers (store container (fun _ => zeroed));;
  on_pool i (fun q => q ← GenQueue.enqueue q container; mret (tt, q)).

Definition mask_container (c : Z) : M world unit :=
  on_headers (store c (fun k =>
    mkContainer (_top k) (_start k) (Z.lor (_end k) CONTAINER_IN_POOL_MASK) (_hard_end k) (_saved_top k)
      (_space_id k) (_next_segment k) (_prev_segment k) (_next k) (_previous k))).
Definition unmask_container (c : Z) : M world unit :=
  on_headers (store c (fun k =>
    mkContainer (_top k) (_start k) (Z.land (_end k) (not64 CONTAINER_IN_POOL_MASK)) (_hard_end k)
      (_saved_top k) (_space_id k) (_next_segment k) (_prev_segment k) (_next k) (_previous k))).
Definition not_in_pool (c : Z) : M world bool :=
  e ← on_headers (field _end c); mret (Z.land e CONTAINER_IN_POOL_MASK =? 0).

Definition add_to_pool (i c : Z) : M world unit :=
  b ← not_in_pool c;
  if (b : bool) then
    on_containers i (fun q => q ← GenQueue.remove_element q c; mret (tt, q));;
    on_headers (store c (fun _ => zeroed));;
    mask_container c;;
    value ← type_value i;
    on_headers (store c (fun k => with_space_id k (exact_log2 value)));;
    on_pool i (fun q => q ← GenQueue.enqueue q c; mret (tt, q))
  else mret tt.

Definition remove_from_pool (i c : Z) : M world unit :=
  on_pool i (fun q => q ← GenQueue.remove_element_mt q c; mret (tt, q)).

(** ** New containers and segments *)

(** The loop of [push_container] that frees the headers between the first and the
    last of a large segment; [limit] is its end. *)
Fixpoint free_between (fuel : nat) (i limit container first_seg last_seg p : Z) : M world unit :=
  match fuel with
  | O => stuck
  | S fuel =>
    if p <? limit then
      temp ← on_data (CompactData.get_container_at_addr p);
      when (negb (temp =? container) && negb (temp =? first_seg) && negb (temp =? last_seg))
        (free_container i temp);;
      free_between fuel i limit container first_seg last_seg (hw_add p segment_sz)
    else mret tt
  end.

(** The branch of [push_container] for the spaces of collections, once it has the
    memory. *)
Definition reuse_or_allocate (i ptr reserved_sz size : Z) : M world Z :=
  container ← on_data (CompactData.get_container_at_addr ptr);
  last_seg ← on_data (CompactData.get_container_at_addr (hw_add ptr reserved_sz));
  let first_seg := container in
  if negb (container =? NULL) then
    on_pool i (fun q => mret (tt, GenQueue.phantom_remove q));;
    start ← on_headers (field _start container);
    container ←
      (if negb (start =? ptr) then
         temp ← on_data (CompactData.get_container_at_addr (hw_sub (hw_add ptr reserved_sz) 1));
         if negb (temp =? container) then mret temp else allocate_container
       else mret container);
    free_between (S (Z.to_nat (reserved_sz / segment_sz))) i (hw_add ptr reserved_sz)
      container first_seg last_seg (hw_add ptr segment_sz);;
    setup_container i container (MemRegion.mkMemRegion ptr reserved_sz) size;;
    mret container
  else allocate_and_setup_container i ptr reserved_sz size.

Definition push_container (i size : Z) : M world Z :=
  let reserved_sz := if size >? segment_sz then calculate_large_reserved_sz size else segment_sz in
  g ← at_ i;
  container ←
    (if negb (container_type g =? region_start_ptr) then
       ptr ← space_cas_allocate i reserved_sz;
       if ptr =? NULL then mret NULL else reuse_or_allocate i ptr reserved_sz size
     else
       ptr ← space_cas_allocate_aligned i reserved_sz;
       if ptr =? NULL then mret NULL
       else
         container ← on_pool i GenQueue.dequeue;
         if negb (container =? NULL) then
           setup_container i container (MemRegion.mkMemRegion ptr reserved_sz) size;;
           mret container
         else allocate_and_setup_container i ptr reserved_sz size);
  when (negb (container =? NULL))
    (on_containers i (fun q => q ← GenQueue.enqueue q container; mret (tt, q)));;
  mret container.

(** The loop of [allocate_new_segment] that links the new segment after the last
    one; it returns the one it was linked to. *)
Fixpoint link_segment (fuel : nat) (container last : Z) : M heap Z :=
  match fuel with
  | O => stuck
  | S fuel =>
    next ← field _next_segment last;
    if next =? NULL then store last (fun k => with_next_segment k container);; mret last
    else link_segment fuel container next
  end.

(** The address allocated, and the new value of the reference [c]. *)
Definition allocate_new_segment (i size c : Z) : M world (Z * Z) :=
  container ← push_container i size;
  if negb (container =? NULL) then
    n ← gets header_count;
    last ← on_headers (link_segment (S n) container c);
    on_headers (store container (fun k => with_prev_segment k last));;
    start ← on_headers (field _start container);
    mret (start, container)
  else mret (NULL, c).

(** ** Clearing *)

(** The loop of [clear_delete_containers] over [n] containers from [c]. *)
Fixpoint delete_loop (n : nat) (i c : Z) : M world unit :=
  match n with
  | O => mret tt
  | S n =>
    k ← on_headers (load c);
    when (negb (_prev_segment k =? NULL))
      (on_headers (next_segment ← field _next_segment c; prev_segment ← field _prev_segment c;
         store prev_segment (fun p => with_next_segment p next_segment)));;
    k ← on_headers (load c);
    when (negb (_next_segment k =? NULL))
      (on_headers (next_segment ← field _next_segment c; prev_segment ← field _prev_segment c;
         store next_segment (fun p => with_prev_segment p prev_segment)));;
    next ← on_headers (field _next c);
    on_headers (store c (fun _ => zeroed));;
    on_pool i (fun q => q ← GenQueue.enqueue_no_mt q c; mret (tt, q));;
    delete_loop n i next
  end.

(** [clear_delete_containers]; it has no return statement. *)
Definition clear_delete_containers (i : Z) : M world unit :=
  g ← at_ i;
  when (container_count g >? 0)
    (let c := GenQueue.peek (_containers g) in
     let count := GenQueue.n_elements (_containers g) in
     delete_loop (Z.to_nat count) i c;;
     update i (fun g => with_containers g (GenQueue.destroy (_containers g)))).

(** ** Walks over the containers *)

(** [ret = ret->_next], at most [n] times. *)
Fixpoint get_next_n_segment (c : Z) (n : nat) : M heap Z :=
  match n with
  | O => mret c
  | S n => if c =? NULL then mret c else next ← field _next c; get_next_n_segment next n
  end.
Fixpoint get_previous_n_segment (c : Z) (n : nat) : M heap Z :=
  match n with
  | O => mret c
  | S n => if c =? NULL then mret c else previous ← field _previous c; get_previous_n_segment previous n
  end.

(** The loop of [get_container_with_addr], which it leaves at the first match. *)
Fixpoint find_start (fuel : nat) (addr cur : Z) : M heap Z :=
  match fuel with
  | O => stuck
  | S fuel =>
    if cur =? NULL then mret NULL
    else
      start ← field _start cur;
      if addr =? start then mret cur
      else next ← GenQueue.iterator_next cur; find_start fuel addr next
  end.
Definition get_container_with_addr (i addr : Z) : M world Z :=
  g ← at_ i;
  n ← gets header_count;
  on_headers (find_start (S n) addr (GenQueue.iterator (_containers g))).

(** A loop over the containers of a space, with the value [a]. *)
Definition for_containers {A} (i : Z) (body : Z -> A -> M heap A) (a : A) : M world A :=
  g ← at_ i;
  n ← gets header_count;
  on_headers (GenQueue.for_each (S n) (GenQueue.iterator (_containers g)) body a).

Definition save_top_ptrs (i : Z) : M world unit :=
  g ← at_ i;
  if container_count g >? 0 then
    update i (fun g => with_last_segment g (last_container g));;
    for_containers i (fun c _ => store c (fun k => with_saved_top k (_top k))) tt
  else update i (fun g => with_last_segment g NULL).

Definition used_in_words (i : Z) : M world Z :=
  g ← at_ i;
  if negb (container_type g =? region_start_ptr) && (container_count g >? 0) then
    for_containers i
      (fun c s => k ← load c; mret (u64 (s + pointer_delta (_top k) (_start k)))) 0
  else mret (MutableSpace.used_in_words (_space g)).
Definition free_in_words (i : Z) : M world Z :=
  g ← at_ i;
  if negb (container_type g =? region_start_ptr) && (container_count g >? 0) then
    for_containers i
      (fun c s => k ← load c; mret (u64 (s + pointer_delta (_end k) (_top k)))) 0
  else mret (MutableSpace.free_in_words (_space g)).
Definition fast_free_in_words (i : Z) : M world Z :=
  g ← at_ i; mret (MutableSpace.free_in_words (_space g)).
Definition free_in_bytes (i : Z) : M world Z := n ← free_in_words i; mret (u64 (n * HeapWordSize)).
Definition fast_free_in_bytes (i : Z) : M world Z :=
  n ← fast_free_in_words i; mret (u64 (n * HeapWordSize)).
Definition used_in_bytes (i : Z) : M world Z := n ← used_in_words i; mret (u64 (n * HeapWordSize)).

(** The walks over the objects of the containers give the addresses of the objects
    the closure is applied to; [size_of] is the size in words of an object. *)
Section Iteration.
Context (size_of : Z -> Z).

(** The objects of the container [c], and where the walk over them ends. *)
Definition walk_container (c : Z) : M heap (list Z * Z) :=
  k ← load c;
  lift_opt (MutableSpace.walk_objects size_of (S (Z.to_nat (pointer_delta (_top k) (_start k))))
              (_start k) (_top k)).

Definition iterate_containers (i : Z) : M world (list Z) :=
  g ← at_ i;
  if container_count g >? 0 then
    for_containers i (fun c l => r ← walk_container c; mret (l ++ fst r)) []
  else mret [].
Definition object_iterate_containers (i : Z) : M world (list Z) := iterate_containers i.
Definition oop_iterate_containers (i : Z) : M world (list Z) := iterate_containers i.
Definition oop_iterate_no_header_containers (i : Z) : M world (list Z) := iterate_containers i.

(** [verify]: whether every [guarantee] holds. *)
Definition verify (i : Z) : M world bool :=
  g ← at_ i;
  if container_type g =? region_start_ptr then
    lift_opt (MutableSpace.verify size_of (_space g))
  else if MutableSpace.not_empty (_space g) then
    for_containers i
      (fun c ok => k ← load c; r ← walk_container c; mret (ok && (snd r =? _top k))) true
  else mret true.
End Iteration.

End Operations.

End CGRPSpace.
