(* ===== verification/MutableBDASpace.v ===== *)
(** * The old generation of containers

    [bda/mutableBDASpace.hpp], [.inline.hpp] and [.cpp], [class MutableBDASpace]: the
    old generation as a list of spaces, the first for general objects and one for each
    class of collections; its layout, sizes, allocation and iteration.

    The state is the [world] of [CGRPSpace].  The calls that set up the pages of a
    space are a trace of requests to the operating system, which is left out here. *)

From Stdlib Require Import ZArith Lia.
From stdpp Require Import base numbers gmap list.
From S2P Require Import Prelude GlobalDefs Floats MemRegion MutableSpace ParMarkBitMap.
From S2P Require Import Container GenQueue BDARegion ObjectStartArray CollectedHeap.
From S2P Require Import PromotionLAB CompactData CGRPSpace.

Local Open Scope Z_scope.

Module MutableBDASpace.
Import Container CGRPSpace.

(** [for (int i = 0; ...) spaces()->at(i)...], a sum of 64-bit values. *)
Fixpoint sum_spaces (f : Z -> M world Z) (n : nat) (i acc : Z) : M world Z :=
  match n with
  | O => mret acc
  | S n => v ← f i; sum_spaces f n (i + 1) (u64 (acc + v))
  end.

Definition length_ (w : world) : nat := length (spaces w).

(** ** Queries *)

Definition contains (w : world) (p : Z) : bool :=
  existsb (fun g => MutableSpace.contains (_space g) p) (spaces w).

Fixpoint index_loop (l : list CGRPSpace) (i p : Z) : Z :=
  match l with
  | [] => -1
  | g :: l => if MutableSpace.contains (_space g) p then i else index_loop l (i + 1) p
  end.
Definition grp_index_contains_obj (w : world) (p : Z) : Z := index_loop (spaces w) 0 p.

Definition num_bda_regions (w : world) : Z := Z.of_nat (length_ w) - 1.

Definition top_region_for_stripe (stripe_start : Z) : M world Z :=
  w ← get; g ← at_ (grp_index_contains_obj w stripe_start); mret (MutableSpace.top (_space g)).

(** [spaces()->find(token, CGRPSpace::equals)] *)
Fixpoint find_loop (l : list CGRPSpace) (i token : Z) : Z :=
  match l with
  | [] => -1
  | g :: l => if equals token g then i else find_loop l (i + 1) token
  end.
Definition find (token : Z) : M world Z := w ← get; mret (find_loop (spaces w) 0 token).

(** These pass the address of their argument, or of a local variable, instead of its
    value: [local] is that address. *)
Definition region_for (local : Z) : M world MutableSpace.MutableSpace :=
  i ← find local; g ← at_ i; mret (_space g).
Definition top_specific (local : Z) : M world Z :=
  i ← find local; g ← at_ i; mret (MutableSpace.top (_space g)).
Definition used_region (local : Z) : M world MemRegion.MemRegion :=
  i ← find local; g ← at_ i; mret (MutableSpace.used_region (_space g)).
Definition space_for_thread (local : Z) : M world MutableSpace.MutableSpace :=
  i ← find local;
  let i := if i =? -1 then 0 else i in
  g ← at_ i; mret (_space g).
Definition thread_capacity_in_words (local : Z) : M world Z :=
  s ← space_for_thread local; mret (MutableSpace.capacity_in_words s).
Definition tlab_capacity (local : Z) : M world Z :=
  s ← space_for_thread local; mret (u64 (MutableSpace.capacity_in_words s * HeapWordSize)).
Definition tlab_used (local : Z) : M world Z :=
  s ← space_for_thread local; mret (MutableSpace.used_in_bytes s).
Definition unsafe_max_tlab_alloc (local : Z) : M world Z :=
  s ← space_for_thread local; mret (MutableSpace.free_in_bytes s).

Definition container_count (w : world) : Z :=
  foldl (fun acc g => i32 (acc + CGRPSpace.container_count g)) 0 (drop 1 (spaces w)).

Definition is_bdaspace_empty (w : world) : bool :=
  foldl (fun ret g => ret && MutableSpace.is_empty (_space g)) true (drop 1 (spaces w)).

Definition container_for_addr (addr : Z) : M world Z :=
  w ← get; get_container_with_addr (grp_index_contains_obj w addr) addr.

(** [for (int i = 0; ...) f(i)] *)
Fixpoint each_space (f : Z -> M world unit) (n : nat) (i : Z) : M world unit :=
  match n with
  | O => mret tt
  | S n => f i;; each_space f n (i + 1)
  end.

Definition save_tops_for_scavenge : M world unit :=
  n ← gets length_; each_space save_top_ptrs n 0.

Definition select_limits (mr : MemRegion.MemRegion) : Z * Z :=
  (round_to (MemRegion.start mr) MinRegionSizeBytes,
   round_down (MemRegion.end_ mr) MinRegionSizeBytes).

(** ** Limits *)

Definition on_limits (f : MutableSpace.MutableSpace -> MutableSpace.MutableSpace) : M world unit :=
  modify (fun w => set_limits w (f (limits w))).

Definition set_top (value : Z) : M world unit :=
  n ← gets length_;
  each_space (fun i =>
    g ← at_ i;
    when (MutableSpace.contains (_space g) value)
      (update i (fun g => with_space g (MutableSpace.set_top (_space g) value)))) n 0;;
  on_limits (fun s => MutableSpace.set_top s value).

(** [MutableSpace::clear] calls the [set_top] of this class. *)
Definition clear : M world unit :=
  w ← get;
  set_top (MutableSpace.bottom (limits w));;
  n ← gets length_;
  each_space (fun i => update i (fun g => with_space g (MutableSpace.clear (_space g)))) n 0.

(** ** Construction and layout *)

(** The loop of the constructor over the spaces of the collections; [last_segment]
    is what their new memory holds. *)
Fixpoint new_spaces (n : nat) (alignment region last_segment : Z) : list CGRPSpace :=
  match n with
  | O => []
  | S n =>
    CGRPSpace.new alignment region last_segment ::
    new_spaces n alignment (region + 2 * BDARegion.region_bytes) last_segment
  end.

(** The spaces that the constructor makes for [n_regions - 1] classes. *)
Definition new (regions : BDARegion.table) (alignment n_regions last_segment : Z) : list CGRPSpace :=
  let region := BDARegion.region_start_ptr regions in
  CGRPSpace.new alignment region last_segment ::
  new_spaces (Z.to_nat (n_regions - 1)) alignment (region + BDARegion.region_bytes) last_segment.

Section Layout.
(** The flags that [MutableSpace::initialize] reads; [undef] stands for conversions of
    floating-point numbers out of range. *)
Context (UseNUMA AlwaysPreTouch UseLargePages : bool) (NUMASpaceResizeRate vm_page_size undef : Z).
Context (BDARatio : SpecFloat.spec_float) (segment_sz : Z).

(** [space->initialize(mr, clear_space, mangle)] for the space [i]. *)
Definition init_space (i : Z) (mr : MemRegion.MemRegion) (clear_space : bool) : M world unit :=
  update i (fun g => with_space g
    (fst (MutableSpace.initialize UseNUMA AlwaysPreTouch UseLargePages NUMASpaceResizeRate vm_page_size
            undef (_space g) mr clear_space true))).

(** [(intptr_t)(space_size / BDARatio - k)] *)
Definition ratio_words (space_size k : Z) : Z :=
  let q := Floats.ddiv (Floats.double_of_Z space_size) BDARatio in
  Floats.to_int64 undef (if k =? 0 then q else Floats.dsub q (Floats.double_of_Z k)).

(** The size of the spaces of the collections, and its correction loop. *)
Definition bda_size (space_size bda_nregions k : Z) : Z :=
  let bda_space := align_size_down (ratio_words space_size k) segment_sz in
  align_size_down (bda_space / u64 bda_nregions) segment_sz.
Definition bda_region_sz (space_size bda_nregions : Z) : option Z :=
  let sz := if bda_nregions >? 0 then bda_size space_size bda_nregions 0 else 0 in
  match while_pow 64 (fun '(sz, k) =>
      if (sz >? 0) && (sz <? segment_sz) then inl (bda_size space_size bda_nregions k, k + 1)
      else inr sz) (sz, 1) with
  | inl _ => None
  | inr sz => Some sz
  end.

(** The loop over the spaces of the collections, [n] of them from the [i]th. *)
Fixpoint layout_loop (n : nat) (i aux_start sz : Z) : M world Z :=
  match n with
  | O => mret aux_start
  | S n =>
    let aux_end := hw_add aux_start sz in
    init_space i (MemRegion.of_bounds aux_start aux_end) true;;
    layout_loop n (i + 1) aux_end sz
  end.

(** A ratio below 1 shuts the virtual machine down. *)
Definition initialize_regions (space_size start end_ : Z) : M world unit :=
  sp_len ← gets length_;
  if Floats.dlt BDARatio (Floats.double_of_Z 1) then stuck
  else
    sz ← lift_opt (bda_region_sz space_size (Z.of_nat sp_len - 1));
    aux_start ← layout_loop (pred sp_len) 1 start sz;
    init_space 0 (MemRegion.of_bounds aux_start end_) true.

Definition update_layout (new_mr : MemRegion.MemRegion) : M world unit :=
  w ← get;
  when (MemRegion.end_ new_mr >? MutableSpace.end_ (limits w))
    (g ← at_ 0;
     init_space 0 (MemRegion.of_bounds (MutableSpace.bottom (_space g)) (MemRegion.end_ new_mr)) false);;
  on_limits (fun s => MutableSpace.set_end (MutableSpace.set_bottom s (MemRegion.start new_mr))
                        (MemRegion.end_ new_mr)).

Definition initialize (mr : MemRegion.MemRegion) (clear_space : bool) : M world unit :=
  if negb clear_space then update_layout mr
  else
    on_limits (fun s => MutableSpace.set_end (MutableSpace.set_bottom s (MemRegion.start mr))
                          (MemRegion.end_ mr));;
    initialize_regions (pointer_delta (MemRegion.end_ mr) (MemRegion.start mr))
      (MemRegion.start mr) (MemRegion.end_ mr);;
    clear.

(** ** Changes of the layout *)

(** [spaces()->at(i)->space()] *)
Definition space_at (i : Z) : M world MutableSpace.MutableSpace := g ← at_ i; mret (_space g).
Definition set_space_top (i new_top : Z) : M world unit :=
  update i (fun g => with_space g (MutableSpace.set_top (_space g) new_top)).

Definition increase_space_noclear (i sz : Z) : M world unit :=
  spc ← space_at i;
  init_space i (MemRegion.of_bounds (MutableSpace.bottom spc) (hw_add (MutableSpace.end_ spc) sz)) false.
Definition increase_space_set_top (i sz new_top : Z) : M world unit :=
  spc ← space_at i;
  init_space i (MemRegion.of_bounds (MutableSpace.bottom spc) (hw_add (MutableSpace.end_ spc) sz)) false;;
  set_space_top i new_top.
Definition shrink_space_clear (i new_size : Z) : M world unit :=
  spc ← space_at i;
  init_space i (MemRegion.of_bounds (hw_add (MutableSpace.bottom spc) new_size) (MutableSpace.end_ spc)) true.
Definition shrink_space_noclear (i new_size : Z) : M world unit :=
  spc ← space_at i;
  init_space i (MemRegion.of_bounds (hw_add (MutableSpace.bottom spc) new_size) (MutableSpace.end_ spc)) false.
Definition shrink_space_end_noclear (i shrink_size : Z) : M world unit :=
  spc ← space_at i;
  init_space i (MemRegion.of_bounds (MutableSpace.bottom spc) (hw_sub (MutableSpace.end_ spc) shrink_size)) false.
Definition move_space_resize (i to_ptr new_size : Z) : M world unit :=
  init_space i (MemRegion.mkMemRegion to_ptr new_size) false.

(** The loop over the spaces, [n] of them from [i]. *)
Fixpoint evenly_loop (n : nat) (i start tail chunk blocks_per_spc blocks_left : Z) : M world unit :=
  match n with
  | O => mret tt
  | S n =>
    let blocks_left := i32 (blocks_left - blocks_per_spc) in
    let tail := if blocks_left <? 0 then hw_sub tail (u64 (i32 (- blocks_left) * MinRegionSize)) else tail in
    init_space i (MemRegion.of_bounds start tail) true;;
    evenly_loop n (i + 1) tail (hw_add tail chunk) chunk blocks_per_spc blocks_left
  end.

Definition initialize_regions_evenly (from_id to_id start_limit end_limit space_size : Z) : M world unit :=
  let len := i32 (to_id - from_id + 1) in
  let blocks_n := i32 (space_size / MinRegionSize) in
  let blocks_per_spc := Floats.ceil_int undef (Floats.fdiv (Floats.float_of_Z blocks_n) (Floats.float_of_Z len)) in
  let chunk := u64 (blocks_per_spc * MinRegionSize) in
  evenly_loop (Z.to_nat (to_id - from_id + 1)) from_id start_limit (hw_add start_limit chunk) chunk
    blocks_per_spc blocks_n.

Definition grow_through_neighbour (growee eaten expand_size : Z) : M world unit :=
  g ← space_at growee;
  e ← space_at eaten;
  init_space growee
    (MemRegion.of_bounds (MutableSpace.bottom g)
       (round_to (hw_add (MutableSpace.top e) expand_size) MinRegionSizeBytes)) false;;
  e ← space_at eaten;
  set_space_top growee (MutableSpace.top e);;
  g ← space_at growee;
  e ← space_at eaten;
  init_space eaten (MemRegion.of_bounds (MutableSpace.end_ g) (MutableSpace.end_ e)) true.

Definition merge_regions (growee eaten : Z) : M world unit :=
  g ← space_at growee;
  e ← space_at eaten;
  init_space growee (MemRegion.of_bounds (MutableSpace.bottom g) (MutableSpace.end_ e)) false;;
  e ← space_at eaten;
  set_space_top growee (MutableSpace.top e).

Definition shrink_and_adapt (grp : Z) : M world unit :=
  spc ← space_at grp;
  init_space grp (MemRegion.mkMemRegion (MutableSpace.end_ spc) 0) true.

(** Ratios of two sizes in words, and of the rest to it. *)
Definition ratio (n d : Z) : SpecFloat.spec_float :=
  Floats.ddiv (Floats.double_of_Z n) (Floats.double_of_Z d).
Definition occupancy_ratio (s : MutableSpace.MutableSpace) : SpecFloat.spec_float :=
  ratio (MutableSpace.used_in_words s) (MutableSpace.capacity_in_words s).
Definition one_minus (x : SpecFloat.spec_float) : SpecFloat.spec_float :=
  Floats.dsub (Floats.double_of_Z 1) x.

(** The first space, from [j] on, that can hold two. *)
Fixpoint fitting_loop (l : list CGRPSpace) (j : Z) : Z :=
  match l with
  | [] => -1
  | g :: l =>
    if u64 (2 * MinRegionSize) <=? MutableSpace.capacity_in_words (_space g) then j else fitting_loop l (j + 1)
  end.

(** The size that the space moved gets. *)
Definition new_moved_space_sz (moved_space to_space : MutableSpace.MutableSpace) : Z :=
  let moved_occupancy_ratio := occupancy_ratio moved_space in
  let to_occupancy_ratio := occupancy_ratio to_space in
  let moved_free_ratio := one_minus moved_occupancy_ratio in
  let to_free_ratio := one_minus to_occupancy_ratio in
  let to_space_capacity := MutableSpace.capacity_in_words to_space in
  let part r := MAX2 (Floats.to_size_t undef (Floats.dmul r (Floats.double_of_Z to_space_capacity)))
                  MinRegionSize in
  if Floats.dle (Floats.dadd moved_occupancy_ratio to_occupancy_ratio) (Floats.double_of_Z 1) then
    if Floats.dle to_occupancy_ratio moved_occupancy_ratio then part moved_occupancy_ratio
    else part to_free_ratio
  else
    if Floats.dle to_free_ratio moved_free_ratio then part to_free_ratio
    else part moved_occupancy_ratio.

Definition try_fitting_on_neighbour (moved_id : Z) : M world bool :=
  w ← get;
  let to_id := fitting_loop (drop (Z.to_nat (moved_id + 1)) (spaces w)) (moved_id + 1) in
  if to_id =? -1 then mret false
  else
    moved_space ← space_at moved_id;
    to_space ← space_at to_id;
    let aligned_limit :=
      round_to (hw_add (MutableSpace.bottom to_space) (new_moved_space_sz moved_space to_space))
        MinRegionSizeBytes in
    if pointer_delta (MutableSpace.end_ to_space) aligned_limit <? MinRegionSize then mret false
    else
      move_space_resize moved_id (MutableSpace.bottom to_space)
        (pointer_delta aligned_limit (MutableSpace.bottom to_space));;
      moved_space ← space_at moved_id;
      if MutableSpace.contains moved_space (MutableSpace.top to_space) then
        set_space_top moved_id (MutableSpace.top to_space);;
        shrink_space_clear to_id (MutableSpace.capacity_in_words moved_space);;
        mret true
      else
        set_space_top moved_id (MutableSpace.end_ moved_space);;
        shrink_space_noclear to_id (MutableSpace.capacity_in_words moved_space);;
        mret true.

(** [expand_region_to_neighbour]; the result is the objects it writes.  The loop over
    the spaces leaves at its first turn. *)
Definition expand_region_to_neighbour (c : CollectedHeap.config) (i expand_size : Z)
    : M world (list CollectedHeap.filler) :=
  len ← gets length_;
  if i =? Z.of_nat len - 1 then mret []
  else
    space ← space_at i;
    let remainder := pointer_delta (MutableSpace.end_ space) (MutableSpace.top space) in
    if expand_size <=? remainder then mret []
    else
      let fill := if remainder >? CollectedHeap.min_fill_size c
                  then CollectedHeap.fill_with_object c (MutableSpace.top space) remainder else [] in
      neighbour_space ← space_at (i + 1);
      let neighbour_top := MutableSpace.top neighbour_space in
      let neighbour_end := MutableSpace.end_ neighbour_space in
      let neighbour_bottom := MutableSpace.bottom neighbour_space in
      if u64 (expand_size + MinRegionSize) <=? pointer_delta neighbour_end neighbour_top then
        grow_through_neighbour i (i + 1) expand_size;; mret fill
      else if expand_size <=? pointer_delta neighbour_end neighbour_top then
        fits ← try_fitting_on_neighbour (i + 1);
        when (fits : bool)
          (increase_space_set_top i (pointer_delta neighbour_end neighbour_bottom) neighbour_top);;
        mret fill
      else
        let j := i + 2 in
        if j <? Z.of_nat len then
          to_space ← space_at j;
          if u64 (expand_size + u64 ((j - i) * MinRegionSize)) <=? MutableSpace.free_in_words to_space then
            let new_end := round_to (hw_add (MutableSpace.top to_space) expand_size) MinRegionSizeBytes in
            increase_space_set_top i (pointer_delta new_end (MutableSpace.end_ space))
              (MutableSpace.top to_space);;
            space ← space_at i;
            initialize_regions_evenly j (i + 1) (MutableSpace.end_ space) (MutableSpace.end_ to_space)
              (pointer_delta (MutableSpace.end_ to_space) (MutableSpace.end_ space));;
            mret fill
          else mret fill
        else mret fill.

(** The space with the greatest difference between occupied and free ratio, or -1. *)
Fixpoint needy_loop (l : list CGRPSpace) (j i : Z) (max : SpecFloat.spec_float) : Z :=
  match l with
  | [] => i
  | g :: l =>
    let r := occupancy_ratio (_space g) in
    let d := Floats.dsub r (one_minus r) in
    if Floats.dgt d max then needy_loop l (j + 1) j d else needy_loop l (j + 1) i max
  end.
Definition needy (w : world) : Z := needy_loop (spaces w) 0 (-1) (Floats.double_of_Z 0).

(** The [float] constants of [adjust_layout]. *)
Definition multiplier : SpecFloat.spec_float := Floats.fdiv (Floats.float_of_Z 105) (Floats.float_of_Z 10).
Definition diff_threshold : SpecFloat.spec_float := Floats.fdiv (Floats.float_of_Z 7) (Floats.float_of_Z 10).

(** The first space after [i] that has room to give, and the size it gives. *)
Fixpoint giver_loop (l : list CGRPSpace) (j i : Z) (free_ratio0 : SpecFloat.spec_float) (expand_size : Z)
    : Z * Z :=
  match l with
  | [] => (-1, expand_size)
  | g :: l =>
    let spc := _space g in
    let free_ratio1 := ratio (MutableSpace.free_in_words spc) (MutableSpace.capacity_in_words spc) in
    let free_space1_sz := MutableSpace.free_in_words spc in
    if Floats.dgt (Floats.dsub free_ratio1 free_ratio0) (Floats.double_of_float diff_threshold) then
      if (free_space1_sz / 2 >? expand_size) && (free_space1_sz / 2 >? MinRegionSize)
      then (j, free_space1_sz / 2)
      else giver_loop l (j + 1) i free_ratio0 expand_size
    else
      if (free_space1_sz >? expand_size)
         && (u64 ((j - i) * MinRegionSize)
             <=? pointer_delta (MutableSpace.end_ spc) (hw_add (MutableSpace.top spc) expand_size))
      then (j, expand_size)
      else giver_loop l (j + 1) i free_ratio0 expand_size
  end.

Definition adjust_layout (force : bool) : M world bool :=
  if force then
    w ← get;
    let i := needy w in
    if i =? -1 then mret false
    else
      expand_spc ← space_at i;
      let occ_ratio0 := occupancy_ratio expand_spc in
      if Floats.dlt occ_ratio0 (Floats.double_of_ratio 8 10) then mret true
      else
        let free_ratio0 := one_minus occ_ratio0 in
        let '(k, expand_size) :=
          giver_loop (drop (Z.to_nat (i + 1)) (spaces w)) (i + 1) i free_ratio0
            (Floats.to_size_t undef
               (Floats.dmul (Floats.dmul occ_ratio0 (Floats.double_of_float multiplier))
                  (Floats.double_of_Z MinRegionSize))) in
        if k =? -1 then mret false
        else
          to_spc ← space_at k;
          let new_end := round_to (hw_add (MutableSpace.top to_spc) expand_size) MinRegionSizeBytes in
          let new_top := if MutableSpace.top to_spc =? MutableSpace.bottom to_spc
                         then MutableSpace.top expand_spc else MutableSpace.top to_spc in
          increase_space_set_top i (pointer_delta new_end (MutableSpace.end_ expand_spc)) new_top;;
          expand_spc ← space_at i;
          initialize_regions_evenly (i + 1) k (MutableSpace.end_ expand_spc) (MutableSpace.end_ to_spc)
            (pointer_delta (MutableSpace.end_ to_spc) (MutableSpace.end_ expand_spc));;
          mret true
  else mret false.

End Layout.

Section Operations.
(** As in [CGRPSpace]: the region identifiers, the size of a regular segment and of the
    header of a filler array, [LogMinObjAlignment], and the allocator of the C heap. *)
Context (regions : BDARegion.table) (segment_sz filler_header_size shift : Z).
Context (AllocateHeap : heap -> Z) (junk : Z -> container).

(** ** Sizes *)

Definition used_in_words : M world Z :=
  n ← gets length_; sum_spaces (CGRPSpace.used_in_words regions) n 0 0.
Definition free_in_words : M world Z :=
  n ← gets length_; sum_spaces (CGRPSpace.free_in_words regions) n 0 0.
Definition free_in_bytes : M world Z :=
  n ← gets length_; sum_spaces fast_free_in_bytes n 0 0.
Definition grp_free_in_words (grp : Z) : M world Z := CGRPSpace.free_in_words regions grp.
Definition grp_free_in_bytes (grp : Z) : M world Z := CGRPSpace.free_in_bytes regions grp.

(** [MutableSpace::free_in_bytes], which calls the [free_in_words] of this class. *)
Definition base_free_in_bytes : M world Z := n ← free_in_words; mret (u64 (n * HeapWordSize)).

(** The division by the number of the other spaces fails when there are none. *)
Definition compute_avg_freespace : M world Z :=
  w ← get;
  let i := needy w in
  if i =? -1 then base_free_in_bytes
  else
    free ← base_free_in_bytes;
    free_i ← grp_free_in_bytes i;
    let n := Z.of_nat (length_ w) - 1 in
    if n =? 0 then stuck
    else
      free' ← base_free_in_bytes;
      mret (u64 (free' + u64 (free - free_i) / n)).

(** ** Allocation *)

(** The loop that raises the top of the whole space to that of the first one. *)
Definition cas_allocate (size : Z) : M world Z :=
  obj ← space_cas_allocate 0 size;
  if negb (obj =? NULL) then
    g ← at_ 0;
    w ← get;
    when (MutableSpace.top (limits w) <? MutableSpace.top (_space g))
      (on_limits (fun s => MutableSpace.set_top s (MutableSpace.top (_space g))));;
    mret obj
  else mret NULL.
Definition allocate (size : Z) : M world Z := cas_allocate size.

Definition allocate_container (size r : Z) : M world Z :=
  i ← find r;
  new_ctr ← push_container regions segment_sz filler_header_size shift AllocateHeap junk i size;
  if new_ctr =? NULL
  then push_container regions segment_sz filler_header_size shift AllocateHeap junk 0 size
  else mret new_ctr.

(** The loop of [allocate_element] and [allocate_plab] along the segments of a
    container: the address allocated, or none, and the new value of the reference
    [container]. *)
Fixpoint bump_segments (fuel : nat) (size segment container : Z) : M world (option Z * Z) :=
  match fuel with
  | O => stuck
  | S fuel =>
    k ← on_headers (load segment);
    let old_top := _top k in
    if hw_add old_top size <? _end k then
      on_headers (store segment (fun k => with_top k (hw_add old_top size)));;
      allocate_block old_top;;
      mret (Some old_top, container)
    else
      let next := _next_segment k in
      if next =? NULL then mret (None, container) else bump_segments fuel size next next
  end.

(** A new segment, in the space of the container or else in the first one. *)
Definition extend_container (size container : Z) : M world (Z * Z) :=
  space_id ← on_headers (field _space_id container);
  r ← allocate_new_segment regions segment_sz filler_header_size shift AllocateHeap junk
        space_id size container;
  if fst r =? NULL
  then allocate_new_segment regions segment_sz filler_header_size shift AllocateHeap junk 0 size (snd r)
  else mret r.

(** The address of the element, and the new value of the reference [container]. *)
Definition allocate_element (size container : Z) : M world (Z * Z) :=
  n ← gets header_count;
  '(old_top, container) ← bump_segments (S n) size container container;
  match old_top with
  | Some p => mret (p, container)
  | None => extend_container size container
  end.

Definition allocate_plab (BDAOldPLABSize container : Z) : M world (Z * Z) :=
  n ← gets header_count;
  '(old_top, container) ← bump_segments (S n) BDAOldPLABSize container container;
  match old_top with
  | Some p => mret (p, container)
  | None => extend_container BDAOldPLABSize container
  end.

(** ** Clearing *)

Definition add_to_pool (c id : Z) : M world unit := CGRPSpace.add_to_pool regions id c.

Definition clear_delete_containers_in_space (space_id : Z) : M world unit :=
  clear_delete_containers space_id;;
  g ← at_ space_id;
  w ← get;
  let pm := segment_bitmap w in
  put (set_bitmap w (ParMarkBitMap.clear_range pm
         (ParMarkBitMap.addr_to_bit shift pm (MutableSpace.bottom (_space g)))
         (ParMarkBitMap.addr_to_bit shift pm (MutableSpace.top (_space g))))).

(** ** Initialisation of the bit map *)

(** [post_initialize]: the size of the header of a filler array; the virtual machine
    shuts down when the memory of the bit map cannot be had. *)
Definition post_initialize (c : CollectedHeap.config) (reserved : MemRegion.MemRegion)
    (page_sz granularity : Z) (expanded : bool) (memory : list Z) : M world Z :=
  w ← get;
  let '(ok, pm) := ParMarkBitMap.initialize shift (segment_bitmap w) reserved page_sz granularity
                     expanded memory in
  put (set_bitmap w pm);;
  if ok then mret (PromotionLAB.filler_header_size c) else stuck.

(** ** Iteration *)

(** The functions have no return statement; the value is that of the call they make. *)
Definition get_next_beg_seg (pm : ParMarkBitMap.ParMarkBitMap) (beg end_ : Z) : Z :=
  ParMarkBitMap.find_obj_beg_addr shift pm beg end_.
Definition get_next_end_seg (pm : ParMarkBitMap.ParMarkBitMap) (beg end_ : Z) : Z :=
  ParMarkBitMap.find_obj_end_addr shift pm beg end_.

Section Iteration.
Context (size_of : Z -> Z).

(** The loop over the containers of the spaces, [n] of them from the [i]th. *)
Fixpoint container_objects (n : nat) (i : Z) : M world (list Z) :=
  match n with
  | O => mret []
  | S n =>
    g ← at_ i;
    l ← (if CGRPSpace.container_count g >? 0 then iterate_containers size_of i else mret []);
    r ← container_objects n (i + 1);
    mret (l ++ r)
  end.

(** The loop over the objects of the first space that are in no container. *)
Fixpoint other_objects (fuel : nat) (pm : ParMarkBitMap.ParMarkBitMap) (bottom top : Z) : option (list Z) :=
  match fuel with
  | O => None
  | S fuel =>
    if bottom <? top then
      let tmp_top := get_next_beg_seg pm bottom top in
      '(l, _) ← MutableSpace.walk_objects size_of (S (Z.to_nat (pointer_delta top bottom))) bottom tmp_top;
      r ← other_objects fuel pm (hw_add (get_next_end_seg pm (hw_add tmp_top 1) top) 1) top;
      Some (l ++ r)
    else Some []
  end.

(** The addresses of the objects that the closure is applied to, in order; the three
    iterations differ in the closure only. *)
Definition iterate : M world (list Z) :=
  n ← gets length_;
  l ← container_objects n 0;
  w ← get;
  g ← at_ 0;
  let top := MutableSpace.top (_space g) in
  let bottom := MutableSpace.bottom (_space g) in
  r ← lift_opt (other_objects (S (Z.to_nat (pointer_delta top bottom))) (segment_bitmap w) bottom top);
  mret (l ++ r).
Definition oop_iterate : M world (list Z) := iterate.
Definition oop_iterate_no_header : M world (list Z) := iterate.
Definition object_iterate : M world (list Z) := iterate.
End Iteration.

End Operations.

End MutableBDASpace.
