(* ===== verification/BDALayout.v ===== *)
(** * The layout of the old generation

    What [MutableBDASpace::initialize] makes of a region of memory: one space of the
    same size for each class of collections, from the start, and the space of the
    general objects in what is left. *)

From Stdlib Require Import ZArith Lia.
From stdpp Require Import base numbers gmap list.
From S2P Require Import Prelude GlobalDefs Floats MemRegion MutableSpace BitMap ParMarkBitMap.
From S2P Require Import Container GenQueue BDARegion ObjectStartArray CompactData CGRPSpace.
From S2P Require Import MutableBDASpace.

Local Open Scope Z_scope.

Module BDALayout.
Import CGRPSpace MutableBDASpace.

(** ** Loops over the spaces *)

Lemma update_run i F w g :
  spaces w !! i = Some g ->
  update (Z.of_nat i) F w = Some (tt, set_spaces w (<[i := F g]> (spaces w))).
Proof.
  intros Hg. unfold update. destruct (Z.leb_spec 0 (Z.of_nat i)); [| lia].
  rewrite Nat2Z.id, Hg. done.
Qed.

Lemma at_run i w g : spaces w !! i = Some g -> at_ (Z.of_nat i) w = Some (g, w).
Proof.
  intros Hg. unfold at_. destruct (Z.leb_spec 0 (Z.of_nat i)); [| lia].
  rewrite Nat2Z.id, Hg. done.
Qed.

Lemma set_spaces_id w : set_spaces w (spaces w) = w.
Proof. by destruct w. Qed.

(** A loop that changes every space in the same way. *)
Lemma each_space_map (f : Z -> M world unit) (F : CGRPSpace -> CGRPSpace) :
  (forall i w g, spaces w !! i = Some g ->
     f (Z.of_nat i) w = Some (tt, set_spaces w (<[i := F g]> (spaces w)))) ->
  forall l pre w, spaces w = pre ++ l ->
  each_space f (length l) (Z.of_nat (length pre)) w = Some (tt, set_spaces w (pre ++ map F l)).
Proof.
  intros Hf l. induction l as [| g l IH]; intros pre w Hw; cbn [each_space length map].
  - rewrite <- Hw, set_spaces_id. done.
  - mrun (Hf (length pre) w g ltac:(by rewrite Hw, list_lookup_middle)).
    rewrite Hw, insert_app_r_alt, Nat.sub_diag by done. cbn [list_insert].
    replace (Z.of_nat (length pre) + 1) with (Z.of_nat (length (pre ++ [F g]))) by (rewrite length_app; simpl; lia).
    rewrite (IH (pre ++ [F g])) by (rewrite <- app_assoc; done). by rewrite <- app_assoc.
Qed.

(** The space [g] after [set_top(value)] and after [clear]. *)
Definition topped (value : Z) (g : CGRPSpace) : CGRPSpace :=
  if MutableSpace.contains (_space g) value then with_space g (MutableSpace.set_top (_space g) value) else g.
Definition cleared (g : CGRPSpace) : CGRPSpace := with_space g (MutableSpace.clear (_space g)).

Lemma set_top_run value w :
  set_top value w = Some (tt, set_limits (set_spaces w (map (topped value) (spaces w)))
                                (MutableSpace.set_top (limits w) value)).
Proof.
  unfold set_top. rewrite M_gets_bind. unfold length_. change 0 with (Z.of_nat (length ([] : list CGRPSpace))).
  erewrite M_bind_Some; [| eapply (each_space_map _ (topped value)); [| reflexivity]]; [done |].
  intros i w' g Hg. cbv beta. mrun (at_run _ _ _ Hg). unfold topped.
  destruct (MutableSpace.contains (_space g) value); cbn [when].
  - by rewrite (update_run _ _ _ _ Hg).
  - unfold mret, M_ret. rewrite list_insert_id by done. by rewrite set_spaces_id.
Qed.

Lemma clear_run w :
  clear w = Some (tt, set_limits (set_spaces w (map cleared (spaces w))) (MutableSpace.clear (limits w))).
Proof.
  unfold clear. rewrite M_get_bind. mrun (set_top_run _ w). rewrite M_gets_bind. unfold length_.
  change 0 with (Z.of_nat (length ([] : list CGRPSpace))).
  erewrite (each_space_map _ cleared); [| intros i w' g Hg; by rewrite (update_run _ _ _ _ Hg) | reflexivity].
  unfold set_limits, set_spaces; simpl. rewrite map_map. do 3 f_equal. apply map_ext. intros g.
  unfold topped, cleared, MutableSpace.clear. by destruct (MutableSpace.contains _ _).
Qed.

(** ** The spaces *)

(** What a layout leaves alone in a space. *)
Definition rest (g : CGRPSpace) := (_type g, _containers g, _pool g, _large_pool g, _last_segment g).

(** An empty space from [b] to [e]. *)
Definition empty_space (g : CGRPSpace) (b e : Z) : Prop :=
  MutableSpace._bottom (_space g) = b /\ MutableSpace._end (_space g) = e /\
  MutableSpace._top (_space g) = b.

(** A new layout of the spaces only. *)
Definition relaid (w w' : world) : Prop :=
  limits w' = limits w /\ segment_bitmap w' = segment_bitmap w /\ start_array w' = start_array w /\
  summary_data w' = summary_data w /\ headers w' = headers w /\ map rest (spaces w') = map rest (spaces w).

Lemma relaid_refl w : relaid w w.
Proof. done. Qed.
Lemma relaid_trans w1 w2 w3 : relaid w1 w2 -> relaid w2 w3 -> relaid w1 w3.
Proof. unfold relaid. intuition congruence. Qed.

Lemma relaid_length w w' : relaid w w' -> length (spaces w') = length (spaces w).
Proof. intros (_ & _ & _ & _ & _ & H). by rewrite <- (length_map rest (spaces w)), <- H, length_map. Qed.

Lemma relaid_insert w i g s :
  spaces w !! i = Some g -> relaid w (set_spaces w (<[i := with_space g s]> (spaces w))).
Proof.
  intros Hg. unfold relaid. repeat split; try done. cbn [spaces set_spaces].
  change (rest <$> (<[i := with_space g s]> (spaces w)) = rest <$> spaces w).
  rewrite list_fmap_insert. apply list_insert_id. by rewrite list_lookup_fmap, Hg.
Qed.

Section Layout.
Context (UseNUMA AlwaysPreTouch UseLargePages : bool) (NUMASpaceResizeRate vm_page_size undef : Z).

Local Abbreviation init_space :=
  (init_space UseNUMA AlwaysPreTouch UseLargePages NUMASpaceResizeRate vm_page_size undef).
Local Abbreviation layout_loop :=
  (layout_loop UseNUMA AlwaysPreTouch UseLargePages NUMASpaceResizeRate vm_page_size undef).

Lemma init_space_run i g b e w :
  spaces w !! i = Some g -> 0 <= b <= e -> e < 2 ^ 64 -> b mod 8 = 0 -> e mod 8 = 0 ->
  exists g', init_space (Z.of_nat i) (MemRegion.of_bounds b e) true w
    = Some (tt, set_spaces w (<[i := g']> (spaces w))) /\
  empty_space g' b e /\ relaid w (set_spaces w (<[i := g']> (spaces w))).
Proof.
  intros Hg Hb He Hb8 He8. destruct (MemRegion.of_bounds_wf b e ltac:(lia) He Hb8 He8) as [Hwf Hend].
  eexists. split; [unfold MutableBDASpace.init_space; by rewrite (update_run _ _ _ _ Hg) |]. split; [| by apply relaid_insert].
  unfold empty_space, MutableSpace.initialize. simpl.
  destruct (UseNUMA || AlwaysPreTouch); [destruct (MutableSpace.setup_regions _ _ _ _ _) |];
    simpl; rewrite Hend; done.
Qed.

(** The spaces from the [i]th on, one after the other. *)
Lemma layout_loop_run sz n : forall i p w,
  (i + n = length (spaces w))%nat -> 0 <= sz -> 0 <= p -> p mod 8 = 0 ->
  p + 8 * sz * Z.of_nat n < 2 ^ 64 ->
  exists w', layout_loop n (Z.of_nat i) p sz w = Some (p + 8 * sz * Z.of_nat n, w') /\ relaid w w' /\
    (forall j, (j < i)%nat -> spaces w' !! j = spaces w !! j) /\
    (forall j, (i <= j < i + n)%nat -> exists g, spaces w' !! j = Some g /\
       empty_space g (p + 8 * sz * Z.of_nat (j - i)) (p + 8 * sz * Z.of_nat (j - i + 1))).
Proof.
  induction n as [| n IH]; intros i p w Hi Hsz Hp Hp8 Hlim; cbn [MutableBDASpace.layout_loop].
  - exists w. replace (p + 8 * sz * Z.of_nat 0) with p by lia. split; [done |]. split; [done |].
    split; [done |]. intros. lia.
  - destruct (lookup_lt_is_Some_2 (spaces w) i) as [g Hg]; [lia |].
    assert (8 * sz * Z.of_nat (S n) = 8 * sz + 8 * sz * Z.of_nat n) as En by lia.
    assert (0 <= 8 * sz * Z.of_nat n) as Hn by (apply Z.mul_nonneg_nonneg; lia).
    assert (hw_add p sz = p + 8 * sz) as E
      by (unfold hw_add, HeapWordSize; rewrite u64_small; unfold is_u64; lia).
    rewrite E.
    destruct (init_space_run i g p (p + 8 * sz) w Hg) as (g' & Hrun & Hg' & Hrel); [lia | lia | done | lia |].
    mrun Hrun. set (w1 := set_spaces w (<[i:=g']> (spaces w))) in *.
    replace (Z.of_nat i + 1) with (Z.of_nat (S i)) by lia.
    destruct (IH (S i) (p + 8 * sz) w1) as (w' & Hw' & Hrel' & Hlt & Hge);
      [simpl; rewrite length_insert; lia | lia | lia | lia | lia |].
    exists w'. split; [by rewrite Hw', En, Z.add_assoc |]. split; [by eapply relaid_trans |].
    split.
    + intros j Hj. rewrite Hlt by lia. simpl. by rewrite list_lookup_insert_ne by lia.
    + intros j Hj. destruct (decide (j = i)) as [-> | Hne].
      * exists g'. rewrite Hlt by lia. simpl. rewrite list_lookup_insert_eq by lia. split; [done |].
        rewrite Nat.sub_diag. by replace (p + 8 * sz * Z.of_nat 0) with p by lia;
          replace (p + 8 * sz * Z.of_nat (0 + 1)) with (p + 8 * sz) by lia.
      * destruct (Hge j ltac:(lia)) as (gj & Hgj & Hej). exists gj. split; [done |].
        replace (j - i)%nat with (S (j - S i)) by lia.
        replace (p + 8 * sz * Z.of_nat (S (j - S i))) with (p + 8 * sz + 8 * sz * Z.of_nat (j - S i)) by lia.
        replace (p + 8 * sz * Z.of_nat (S (j - S i) + 1))
          with (p + 8 * sz + 8 * sz * Z.of_nat (j - S i + 1)) by lia. done.
Qed.

End Layout.

(** ** The size of the spaces *)

Lemma bda_region_sz_pow2 undef BDARatio k space_size n v :
  0 <= k <= 62 -> 0 <= v < 2 ^ 62 -> 0 <= n < 2 ^ 31 ->
  Floats.trunc (Floats.ddiv (Floats.double_of_Z space_size) BDARatio) = Some v ->
  exists sz, bda_region_sz undef BDARatio (2 ^ k) space_size n = Some sz /\
    0 <= sz /\ sz mod 2 ^ k = 0 /\ n * sz <= v /\ (0 < n -> v < n * (sz + 2 ^ k)) /\
    (n = 0 -> sz = 0).
Proof.
  intros Hk Hv Hn Hq. assert (0 < 2 ^ k <= 2 ^ 62) as Hp by (split; [lia | apply Z.pow_le_mono_r; lia]).
  unfold bda_region_sz. rewrite Z.gtb_ltb.
  set (sz := if 0 <? n then bda_size undef BDARatio (2 ^ k) space_size n 0 else 0).
  assert (0 <= sz /\ sz mod 2 ^ k = 0 /\ n * sz <= v /\ (0 < n -> v < n * (sz + 2 ^ k)) /\
    (n = 0 -> sz = 0)) as Hsz.
  { subst sz. destruct (Z.ltb_spec 0 n); [| split_and!; (rewrite Z.mod_0_l || idtac); lia].
    unfold bda_size, ratio_words, Floats.to_int64, align_size_down. rewrite Z.eqb_refl, Hq.
    destruct (Z.leb_spec (- 2 ^ 63) v); [| lia]. destruct (Z.ltb_spec v (2 ^ 63)); [cbn [andb] | lia].
    rewrite (u64_small v), (u64_small n) by (unfold is_u64; lia).
    destruct (align_size_down_spec v k ltac:(unfold is_u64; lia) ltac:(lia)) as [HAm HA].
    set (A := align_size_down_ v (2 ^ k)) in *.
    assert (0 <= A) as HA0 by (subst A; rewrite align_size_down_pow2 by (unfold is_u64; lia);
      pose proof (Z.mod_le v (2 ^ k)); lia).
    assert (0 <= A / n <= A) as Hd by (split; [apply Z.div_pos; lia | apply Z.div_le_upper_bound; nia]).
    pose proof (Z.mul_div_le A n ltac:(lia)) as Hd1. pose proof (Z.mul_succ_div_gt A n ltac:(lia)) as Hd2.
    destruct (align_size_down_spec (A / n) k ltac:(unfold is_u64; lia) ltac:(lia)) as [HB0 HB].
    assert (0 <= align_size_down_ (A / n) (2 ^ k)) as HB1
      by (rewrite align_size_down_pow2 by (unfold is_u64; lia); pose proof (Z.mod_le (A / n) (2 ^ k)); lia).
    set (B := align_size_down_ (A / n) (2 ^ k)) in *. generalize dependent (A / n). intros q; intros.
    split_and!; [done | done | nia | intros _ | lia].
    apply Z.mod_divide in HAm as [a Ea]; [| lia]. apply Z.mod_divide in HB0 as [b Eb]; [| lia].
    assert (A < n * (B + 2 ^ k)) by nia. assert (a < n * (b + 1)) by nia. nia. }
  exists sz. split; [| exact Hsz].
  rewrite (while_pow_stop _ _ _ sz); [done |]. rewrite Z.gtb_ltb.
  destruct (Z.ltb_spec 0 sz); [| done]. destruct (Z.ltb_spec sz (2 ^ k)); [| done].
  rewrite Z.mod_small in Hsz by lia. lia.
Qed.

Section Initialize.
Context (UseNUMA AlwaysPreTouch UseLargePages : bool) (NUMASpaceResizeRate vm_page_size undef : Z).
Context (BDARatio : SpecFloat.spec_float) (segment_sz : Z).

Local Abbreviation initialize_regions := (initialize_regions UseNUMA AlwaysPreTouch UseLargePages
  NUMASpaceResizeRate vm_page_size undef BDARatio segment_sz).

(** [n] spaces of [sz] words from [start], and the first one from there to [end_]. *)
Definition laid_out (l : list CGRPSpace) (start end_ sz : Z) (n : nat) : Prop :=
  length l = S n /\
  (exists g, l !! 0%nat = Some g /\ empty_space g (start + 8 * sz * Z.of_nat n) end_) /\
  (forall j, (1 <= j <= n)%nat -> exists g, l !! j = Some g /\
     empty_space g (start + 8 * sz * (Z.of_nat j - 1)) (start + 8 * sz * Z.of_nat j)).

Lemma initialize_regions_run w n sz space_size start end_ :
  length (spaces w) = S n -> 0 <= start <= end_ -> end_ < 2 ^ 64 -> start mod 8 = 0 -> end_ mod 8 = 0 ->
  Floats.dlt BDARatio (Floats.double_of_Z 1) = false ->
  bda_region_sz undef BDARatio segment_sz space_size (Z.of_nat n) = Some sz ->
  0 <= sz -> start + 8 * sz * Z.of_nat n <= end_ ->
  exists w', initialize_regions space_size start end_ w = Some (tt, w') /\ relaid w w' /\
    laid_out (spaces w') start end_ sz n.
Proof.
  intros Hlen Hse He Hs8 He8 Hr Hsz Hsz0 Hfit. unfold MutableBDASpace.initialize_regions, length_.
  rewrite M_gets_bind, Hr, Hlen. replace (Z.of_nat (S n) - 1) with (Z.of_nat n) by lia.
  rewrite Hsz. cbn [lift_opt pred].
  rewrite (M_bind_Some (lift_opt (Some sz)) _ w sz w eq_refl).
  destruct (layout_loop_run UseNUMA AlwaysPreTouch UseLargePages NUMASpaceResizeRate vm_page_size undef
    sz n 1 start w) as (w1 & Hw1 & Hrel1 & H0 & Hj); [lia | lia | lia | done | lia |].
  change 1 with (Z.of_nat 1) at 1. mrun Hw1.
  destruct (lookup_lt_is_Some_2 (spaces w1) 0) as [g Hg]; [rewrite (relaid_length _ _ Hrel1); lia |].
  destruct (init_space_run UseNUMA AlwaysPreTouch UseLargePages NUMASpaceResizeRate vm_page_size undef
    0 g (start + 8 * sz * Z.of_nat n) end_ w1 Hg) as (g' & Hrun & Hg' & Hrel2); [lia | lia | lia | lia |].
  eexists. split; [exact Hrun |]. split; [by eapply relaid_trans |].
  assert (length (spaces w1) = S n) as Hlen1 by (by rewrite (relaid_length _ _ Hrel1)).
  unfold laid_out. cbn [spaces set_spaces]. rewrite length_insert. split; [done |]. split.
  - exists g'. by rewrite list_lookup_insert_eq by lia.
  - intros j Hj1. destruct (Hj j ltac:(lia)) as (gj & Hgj & Hej). exists gj.
    rewrite list_lookup_insert_ne by lia. split; [done |].
    replace (Z.of_nat j - 1) with (Z.of_nat (j - 1)) by lia. by replace (j - 1 + 1)%nat with j in Hej by lia.
Qed.

End Initialize.

(** ** Finding the space of an address *)

Lemma index_loop_found p : forall l i j g,
  l !! j = Some g -> MutableSpace.contains (_space g) p = true ->
  (forall j' g', (j' < j)%nat -> l !! j' = Some g' -> MutableSpace.contains (_space g') p = false) ->
  index_loop l i p = i + Z.of_nat j.
Proof.
  induction l as [| h l IH]; intros i j g Hg Hc Hb; [done |]. cbn [index_loop].
  destruct j as [| j]; [injection Hg as ->; rewrite Hc; lia |].
  rewrite (Hb O h ltac:(lia) eq_refl). rewrite (IH (i + 1) j g); [lia | done | done |].
  intros j' g' Hj Hg'. apply (Hb (S j') g'); [lia | done].
Qed.

Lemma index_loop_none p l i :
  (forall j g, l !! j = Some g -> MutableSpace.contains (_space g) p = false) -> index_loop l i p = -1.
Proof.
  revert i. induction l as [| h l IH]; intros i Hb; [done |]. cbn [index_loop].
  rewrite (Hb O h eq_refl). apply IH. intros j g Hg. by apply (Hb (S j) g).
Qed.

(** Clearing does not change a new layout. *)
Lemma laid_out_cleared l start end_ sz n : laid_out l start end_ sz n -> laid_out (map cleared l) start end_ sz n.
Proof.
  assert (forall j g b e, l !! j = Some g -> empty_space g b e ->
    exists g', map cleared l !! j = Some g' /\ empty_space g' b e) as H.
  { intros j g b e Hg (Hb & He & Ht). exists (cleared g). split; [| done].
    change (map cleared l) with (cleared <$> l). by rewrite list_lookup_fmap, Hg. }
  intros (Hl & (g & Hg & He) & Hj). split; [by rewrite length_map |]. split; [eauto |].
  intros j Hj1. destruct (Hj j Hj1) as (gj & Hgj & Hej). eauto.
Qed.

(** The index of the space that an address of the old generation is in. *)
Definition space_of (start sz : Z) (n : nat) (p : Z) : Z :=
  if p <? start + 8 * sz * Z.of_nat n then (p - start) / (8 * sz) + 1 else 0.

Lemma contains_empty g b e p :
  empty_space g b e -> MutableSpace.contains (_space g) p = (b <=? p) && (p <? e).
Proof. intros (<- & <- & _). done. Qed.

Lemma laid_out_contains l start end_ sz n p j g :
  laid_out l start end_ sz n -> 0 <= sz -> start + 8 * sz * Z.of_nat n <= end_ -> l !! j = Some g ->
  MutableSpace.contains (_space g) p =
    (start <=? p) && (p <? end_) && (space_of start sz n p =? Z.of_nat j).
Proof.
  intros (Hl & (g0 & Hg0 & He0) & Hj) Hsz Hend Hg. unfold space_of.
  pose proof (lookup_lt_Some _ _ _ Hg) as Hlt. rewrite Hl in Hlt.
  assert (0 <= sz * Z.of_nat n) by lia.
  destruct (decide (j = 0%nat)) as [-> | Hne].
  - rewrite Hg0 in Hg. injection Hg as ->. rewrite (contains_empty _ _ _ _ He0).
    destruct (Z.ltb_spec p (start + 8 * sz * Z.of_nat n)).
    + destruct (Z.leb_spec (start + 8 * sz * Z.of_nat n) p); [lia |]. cbn [andb].
      destruct (Z.leb_spec start p); [| done]. destruct (Z.eqb_spec ((p - start) / (8 * sz) + 1) (Z.of_nat 0));
        [| by rewrite andb_false_r].
      assert (0 <= (p - start) / (8 * sz)) by (apply Z.div_pos; nia). lia.
    + case_cmp; try lia; done.
  - destruct (Hj j ltac:(lia)) as (gj & Hgj & Hej). rewrite Hgj in Hg. injection Hg as ->.
    rewrite (contains_empty _ _ _ _ Hej).
    assert (8 * sz * Z.of_nat j <= 8 * sz * Z.of_nat n) by (apply Z.mul_le_mono_nonneg_l; lia).
    assert (0 <= 8 * sz * (Z.of_nat j - 1)) by (apply Z.mul_nonneg_nonneg; lia).
    destruct (Z.ltb_spec p (start + 8 * sz * Z.of_nat n)).
    + destruct (Z.leb_spec start p); [| case_cmp; try lia; done].
      destruct (Z.ltb_spec p end_); [cbn [andb] | lia].
      assert (0 < 8 * sz) by nia.
      destruct (Z.eqb_spec ((p - start) / (8 * sz) + 1) (Z.of_nat j)) as [E | E].
      * replace (Z.of_nat j) with ((p - start) / (8 * sz) + 1) by done.
        pose proof (Z.mul_div_le (p - start) (8 * sz)). pose proof (Z.mul_succ_div_gt (p - start) (8 * sz)).
        apply andb_true_iff. rewrite Z.leb_le, Z.ltb_lt. lia.
      * apply andb_false_iff. rewrite Z.leb_gt, Z.ltb_ge.
        destruct (Z.le_gt_cases (start + 8 * sz * (Z.of_nat j - 1)) p) as [Hlo |]; [right | by left].
        destruct (Z.le_gt_cases (start + 8 * sz * Z.of_nat j) p) as [| Hhi]; [done |]. destruct E.
        replace ((p - start) / (8 * sz)) with (Z.of_nat j - 1); [lia |].
        apply (Z.div_unique _ _ _ (p - start - 8 * sz * (Z.of_nat j - 1))); lia.
    + destruct (Z.eqb_spec 0 (Z.of_nat j)); [lia |]. rewrite andb_false_r. case_cmp; try lia; done.
Qed.

Lemma laid_out_find l start end_ sz n p :
  laid_out l start end_ sz n -> 0 <= sz -> start + 8 * sz * Z.of_nat n <= end_ ->
  existsb (fun g => MutableSpace.contains (_space g) p) l = (start <=? p) && (p <? end_) /\
  index_loop l 0 p = if (start <=? p) && (p <? end_) then space_of start sz n p else -1.
Proof.
  intros Hl Hsz Hend. pose proof (laid_out_contains l start end_ sz n p) as Hc.
  destruct ((start <=? p) && (p <? end_)) eqn:Hin; cbn [andb] in Hc.
  - assert (0 <= space_of start sz n p <= Z.of_nat n) as Hso.
    { unfold space_of. destruct (Z.ltb_spec p (start + 8 * sz * Z.of_nat n)); [| lia].
      apply andb_true_iff in Hin as [Hin%Z.leb_le _]. assert (0 < 8 * sz) by nia.
      assert (0 <= (p - start) / (8 * sz) < Z.of_nat n); [| lia].
      split; [apply Z.div_pos; lia | apply Z.div_lt_upper_bound; lia]. }
    destruct (lookup_lt_is_Some_2 l (Z.to_nat (space_of start sz n p))) as [g Hg];
      [destruct Hl as [-> _]; lia |].
    assert (MutableSpace.contains (_space g) p = true) as Hgp
      by (rewrite (Hc _ _ Hl Hsz Hend Hg); apply Z.eqb_eq; lia).
    split.
    + apply existsb_exists. exists g. split; [| done]. apply list_elem_of_In. by eapply list_elem_of_lookup_2.
    + rewrite (index_loop_found p l 0 _ g Hg Hgp); [lia |].
      intros j' g' Hj' Hg'. rewrite (Hc _ _ Hl Hsz Hend Hg'). apply Z.eqb_neq. lia.
  - split; [| apply index_loop_none; intros j g Hg; by rewrite (Hc _ _ Hl Hsz Hend Hg)].
    apply not_true_iff_false. intros (g & Hg & Hgp)%existsb_exists.
    apply list_elem_of_In, list_elem_of_lookup_1 in Hg as [j Hg].
    by rewrite (Hc _ _ Hl Hsz Hend Hg) in Hgp.
Qed.

(** ** The claim *)

(** C18. Initialising the old generation lays it out as a partition.  For a power of two
    as the segment size and a ratio of at least 1, the [n] spaces of the collections
    follow each other from the start, all empty and of the same number of words: the
    greatest multiple of the segment size for which they fit in the share given by the
    ratio.  The space of general objects takes all the rest.  An address is
    in the old generation exactly when one of the spaces contains it, and the index
    lookup gives the one space it is in. *)
Theorem layout_partitions (UseNUMA AlwaysPreTouch UseLargePages : bool)
    (NUMASpaceResizeRate vm_page_size undef : Z) (BDARatio : SpecFloat.spec_float)
    (k : Z) (mr : MemRegion.MemRegion) (w : world) (n : nat) (v : Z)
    (Hn : length (spaces w) = S n) (Hn31 : Z.of_nat n < 2 ^ 31) (Hk : 0 <= k <= 62) (Hmr : MemRegion.wf mr)
    (Hratio : Floats.dlt BDARatio (Floats.double_of_Z 1) = false)
    (Hv : Floats.trunc (Floats.ddiv (Floats.double_of_Z (MemRegion.word_size mr)) BDARatio) = Some v)
    (Hshare : 0 <= v <= MemRegion.word_size mr) :
  exists w' sz,
    initialize UseNUMA AlwaysPreTouch UseLargePages NUMASpaceResizeRate vm_page_size undef BDARatio (2 ^ k)
      mr true w = Some (tt, w')
    /\ sz mod 2 ^ k = 0 /\ Z.of_nat n * sz <= v
    /\ (0 < Z.of_nat n -> v < Z.of_nat n * (sz + 2 ^ k))
    /\ laid_out (spaces w') (MemRegion.start mr) (MemRegion.end_ mr) sz n
    /\ map rest (spaces w') = map rest (spaces w)
    /\ MutableSpace.used_region (limits w') = MemRegion.mkMemRegion (MemRegion.start mr) 0
    /\ forall p, contains w' p = MemRegion.contains mr p /\
         grp_index_contains_obj w' p =
           if MemRegion.contains mr p then space_of (MemRegion.start mr) sz n p else -1.
Proof.
  pose proof (MemRegion.end_eq mr Hmr) as He. destruct Hmr as (Hs & Hs8 & Hsz & Hlim).
  unfold MemRegion.word_size in *.
  destruct (bda_region_sz_pow2 undef BDARatio k (MemRegion._word_size mr) (Z.of_nat n) v) as
    (sz & Hrun & Hsz0 & Hszk & Hfit & Hmost & _); [lia | lia | lia | done |].
  unfold initialize. cbn [negb]. unfold MemRegion.start. rewrite He.
  rewrite pointer_delta_small by (unfold is_u64; lia).
  replace ((MemRegion._start mr + 8 * MemRegion._word_size mr - MemRegion._start mr) / 8)
    with (MemRegion._word_size mr) by lia.
  erewrite M_bind_Some; [| reflexivity].
  destruct (initialize_regions_run UseNUMA AlwaysPreTouch UseLargePages NUMASpaceResizeRate vm_page_size undef
    BDARatio (2 ^ k)
    (set_limits w (MutableSpace.set_end (MutableSpace.set_bottom (limits w) (MemRegion._start mr))
                     (MemRegion._start mr + 8 * MemRegion._word_size mr)))
    n sz (MemRegion._word_size mr) (MemRegion._start mr) (MemRegion._start mr + 8 * MemRegion._word_size mr))
    as (w1 & Hw1 & (Hl1 & _ & _ & _ & _ & Hrest) & Hlay); try done; try lia.
  mrun Hw1. rewrite clear_run. eexists _, sz. split; [reflexivity |]. split; [done |]. split; [done |].
  split; [done |]. apply laid_out_cleared in Hlay. split; [exact Hlay |].
  split; [cbn [spaces set_limits set_spaces]; rewrite map_map; exact Hrest |].
  split; [| intros p; unfold contains, grp_index_contains_obj; rewrite MemRegion.contains_bounds, He;
            by apply laid_out_find; [| | lia]].
  cbn [limits set_limits]. rewrite Hl1. unfold MutableSpace.used_region, MemRegion.of_bounds, MutableSpace.clear.
  cbn. rewrite pointer_delta_small by (unfold is_u64; lia). by rewrite Z.sub_diag.
Qed.

(** Three new spaces, over a region of 4 million words. *)
Definition sample_world : world :=
  mkWorld (MutableSpace.new 65536)
    (MutableBDASpace.new (BDARegion.mkTable 4096 [0; 1; 2; 3; 4; 5]) 65536 3 0)
    (ParMarkBitMap.mkParMarkBitMap 0 0 (BitMap.mkBitMap [] 0) (BitMap.mkBitMap [] 0) 0)
    ObjectStartArray.sample (CompactData.initialize 65536 (MemRegion.mkMemRegion 524288 131072)) ∅.
Definition sample_region : MemRegion.MemRegion := MemRegion.mkMemRegion (2 ^ 32) (2 ^ 22).

Lemma layout_partitions_witness :
  exists w', initialize false false false 0 4096 0 (Floats.double_of_Z 5) (2 ^ 16) sample_region true sample_world
    = Some (tt, w')
  /\ grp_index_contains_obj w' (2 ^ 32 + 8 * 393216) = 2
  /\ grp_index_contains_obj w' (2 ^ 32 + 8 * 786432) = 0.
Proof.
  destruct (layout_partitions false false false 0 4096 0 (Floats.double_of_Z 5) 16 sample_region sample_world 2
    838860) as (w' & sz & Hrun & Hm & Hle & Hlt & _ & _ & _ & Hp).
  - reflexivity.
  - lia.
  - lia.
  - decide_now.
  - vm_compute. reflexivity.
  - vm_compute. reflexivity.
  - vm_compute. split; discriminate.
  - exists w'. split; [exact Hrun |]. change (2 ^ 16) with 65536 in *.
    assert (sz = 393216) as -> by lia.
    split; [rewrite (proj2 (Hp _)); vm_compute; reflexivity |].
    rewrite (proj2 (Hp _)); vm_compute; reflexivity.
Defined.

(** The size of a regular segment need not be a power of two: for collections of 2048
    elements it is three times the least size, and the sizes of the spaces are then no
    multiples of it. *)
Lemma segment_sz_not_power_of_two :
  let segment_sz := calculate_reserved_sz 3 3 2048 2 (Floats.double_of_Z 1) 0 in
  segment_sz = 3 * 65536 /\
  bda_region_sz 0 (Floats.double_of_Z 5) segment_sz (2 ^ 22) 2 = Some 262144 /\
  262144 mod segment_sz <> 0.
Proof. vm_compute. repeat split; discriminate. Qed.

End BDALayout.
