(* ===== verification/Segments.v ===== *)
(** * Segments of a collection space

    The invariant of a space of collections of [bda/mutableBDASpace.cpp] while objects
    are allocated in it, and that [push_container] and [allocate_element] keep it: the
    segments tile the space from its bottom to its top in the order of the queue, the
    blocks handed out tile each segment from its start to its top, the summary data maps
    every address of a segment to its container, and the start of every block is
    recorded.  A new segment gets a new header, or, in memory that had containers before a
    collection, one of the headers registered for it. *)

From Stdlib Require Import ZArith Lia.
From stdpp Require Import base numbers gmap sorting list.
From S2P Require Import Prelude GlobalDefs Floats MemRegion VirtualSpace MutableSpace BitMap.
From S2P Require Import ParMarkBitMap Container GenQueue BDARegion ObjectStartArray.
From S2P Require Import CompactData Compaction CGRPSpace MutableBDASpace BDALayout.

Local Open Scope Z_scope.

Module Segments.
Import Container CGRPSpace BDALayout.

(** ** Runs on the parts of the world *)

Lemma on_headers_run {A} (m : M heap A) w x h :
  m (headers w) = Some (x, h) -> on_headers m w = Some (x, set_headers w h).
Proof. intros H. unfold on_headers. by rewrite H. Qed.

Lemma on_headers_read {A} (m : M heap A) w x : m (headers w) = Some (x, headers w) -> on_headers m w = Some (x, w).
Proof. intros H. rewrite (on_headers_run _ _ _ _ H). by destruct w. Qed.

Lemma on_data_run {A} (m : M CompactData.ParallelCompactData A) w x d :
  m (summary_data w) = Some (x, d) -> on_data m w = Some (x, set_data w d).
Proof. intros H. unfold on_data. by rewrite H. Qed.

Lemma on_data_read {A} (m : M CompactData.ParallelCompactData A) w x :
  m (summary_data w) = Some (x, summary_data w) -> on_data m w = Some (x, w).
Proof. intros H. rewrite (on_data_run _ _ _ _ H). by destruct w. Qed.

(** ** The container of an address *)

Section Owner.
Import CompactData Compaction.

(** The bytes of a region. *)
Definition region_span : Z := 524288.

(** The entry of the region table for the address [p]. *)
Definition owner (d : ParallelCompactData) (p : Z) : option Z :=
  _container <$> rd d ((p - CompactData._region_start d) / region_span).

Lemma region_idx_eq d p :
  0 <= CompactData._region_start d <= p -> p < 2 ^ 64 ->
  addr_to_region_idx d p = (p - CompactData._region_start d) / region_span.
Proof.
  intros Hp He. unfold addr_to_region_idx, region_span. rewrite pointer_delta_small by lia.
  change Log2RegionSize with 16. rewrite Z.shiftr_div_pow2 by lia. lia.
Qed.

Lemma get_container_run d p c :
  0 <= CompactData._region_start d <= p -> p < 2 ^ 64 -> owner d p = Some c ->
  get_container_at_addr p d = Some (c, d).
Proof.
  intros Hp He Ho. unfold get_container_at_addr. rewrite M_get_bind, region_idx_eq by done.
  unfold owner in Ho. destruct (rd d _) as [r |] eqn:Hr; [| done]. mrun (region_run _ _ _ Hr).
  by injection Ho as <-.
Qed.

Lemma install_loop_run c n : forall idx d,
  0 <= idx -> idx + Z.of_nat n <= region_count d ->
  install_loop n idx c d = Some (tt, apply (upd idx (idx + Z.of_nat n) (fun _ => set_container_ptr c)) d).
Proof.
  induction n as [| n IH]; intros idx d Hi Hn; cbn [install_loop].
  - rewrite apply_id; [done |]. intros i r _. unfold upd. case_cmp; try lia; done.
  - mrun (update_region_run d idx (set_container_ptr c) ltac:(lia)).
    rewrite IH by (rewrite ?region_count_apply; lia). rewrite apply_apply. do 2 f_equal.
    apply apply_ext. intros i r _. unfold upd. case_cmp; try lia; done.
Qed.

(** Installing a container in its regions: every address of the segment, and no
    other, is mapped to it. *)
Lemma install_run d c k :
  let rs := CompactData._region_start d in
  covers d -> rs <= _start k < _hard_end k -> _hard_end k <= rs + region_span * region_count d ->
  (_start k - rs) mod region_span = 0 -> (_hard_end k - rs) mod region_span = 0 ->
  _hard_end k - region_span <= _end k < _hard_end k ->
  exists d', install_bda_container c k d = Some (tt, d') /\ covers d' /\
    CompactData._region_start d' = rs /\ region_count d' = region_count d /\
    forall p, rs <= p -> owner d' p = if (_start k <=? p) && (p <? _hard_end k) then Some c else owner d p.
Proof.
  intros rs Hcov Hs Hh Hsm Hhm He. pose proof Hcov as [Hr0 _ Hrl]. fold rs in Hr0, Hrl.
  unfold region_span in *. unfold install_bda_container. rewrite M_get_bind.
  rewrite !region_idx_eq by (fold rs; lia). fold rs. unfold region_span.
  rewrite install_loop_run by lia. eexists. split; [reflexivity |].
  split; [by apply covers_apply |]. split; [done |]. split; [by rewrite region_count_apply |].
  intros p Hp. unfold owner. change (CompactData._region_start (apply _ d)) with rs. rewrite rd_apply.
  unfold region_span, upd. fold rs. destruct (rd d ((p - rs) / 524288)) as [r |] eqn:Hr;
    cbn [fmap option_fmap option_map].
  - case_cmp; cbn [andb]; try lia; done.
  - destruct (Z.leb_spec (_start k) p), (Z.ltb_spec p (_hard_end k)); cbn [andb]; try done.
    destruct (rd_Some d ((p - rs) / 524288)) as [r Hr']; [lia | congruence].
Qed.
End Owner.

(** ** The invariant *)

Section Space.
Context (regions : BDARegion.table) (filler_header_size : Z).

(** A header of a segment of the space [i]. *)
Record segment (i : Z) (c : container) : Prop := mkSegment {
  sg_top : _start c <= _top c <= _hard_end c;
  sg_end : _end c = _hard_end c - 8 * filler_header_size;
  sg_id : _space_id c = i;
  sg_size : 0 < _hard_end c - _start c /\ (_hard_end c - _start c) mod region_span = 0
}.

(** The segments of the headers [l] follow each other from [p] to [q]. *)
Fixpoint segments (h : heap) (i p : Z) (l : list Z) (q : Z) : Prop :=
  match l with
  | [] => p = q
  | c :: l => exists k, h !! c = Some k /\ _start k = p /\ segment i k /\ segments h i (_hard_end k) l q
  end.

(** The blocks [bl], with their sizes in words, follow each other from [p] to [q]. *)
Fixpoint filled (p : Z) (bl : list (Z * Z)) (q : Z) : Prop :=
  match bl with
  | [] => p = q
  | b :: bl => fst b = p /\ 0 < snd b /\ filled (p + 8 * snd b) bl q
  end.

(** The space [i] is [g], its containers are [l] and the blocks handed out in the
    container [c] are [B c]; the starts recorded for the [N] blocks of 512 bytes of
    the generation are [starts]. *)
Record space_core (i : nat) (g : CGRPSpace) (w : world) (l : list Z) (B : Z -> list (Z * Z))
    (N : Z) (starts : list Z) : Prop := {
  sc_space : spaces w !! i = Some g;
  sc_index : (1 <= i <= 31)%nat;
  sc_type : _type g <> region_start_ptr regions /\
            BDARegion.value_at regions (_type g) = Some (2 ^ Z.of_nat i);
  sc_wf : MutableSpace.wf (_space g);
  sc_queue : GenQueue.repr (headers w) (_containers g) l;
  sc_segs : segments (headers w) (Z.of_nat i) (MutableSpace._bottom (_space g)) l
              (MutableSpace._top (_space g));
  sc_blocks : forall c k, c ∈ l -> headers w !! c = Some k -> filled (_start k) (B c) (_top k);
  sc_covers : Compaction.covers (summary_data w);
  sc_range :
    let rs := CompactData._region_start (summary_data w) in
    0 < MutableSpace._bottom (_space g) /\ rs <= MutableSpace._bottom (_space g) /\
    (MutableSpace._bottom (_space g) - rs) mod region_span = 0 /\
    (MutableSpace._end (_space g) - rs) mod region_span = 0 /\
    MutableSpace._end (_space g) < rs + region_span * CompactData.region_count (summary_data w);
  sc_owner : forall c k p, c ∈ l -> headers w !! c = Some k -> _start k <= p < _hard_end k ->
    owner (summary_data w) p = Some c;
  sc_array : ObjectStartArray.wf (start_array w) N /\ ObjectStartArray.records (start_array w) N starts /\
    ObjectStartArray.base (start_array w) <= MutableSpace._bottom (_space g) /\
    MutableSpace._end (_space g) <= ObjectStartArray.base (start_array w) + 512 * N;
  sc_starts : forall c b, c ∈ l -> b ∈ B c -> fst b ∈ starts
}.

(** The same, where no header is registered for the memory above the top, as before the first collection. *)
Record space_inv (i : nat) (g : CGRPSpace) (w : world) (l : list Z) (B : Z -> list (Z * Z))
    (N : Z) (starts : list Z) : Prop := {
  si_space : spaces w !! i = Some g;
  si_index : (1 <= i <= 31)%nat;
  si_type : _type g <> region_start_ptr regions /\
            BDARegion.value_at regions (_type g) = Some (2 ^ Z.of_nat i);
  si_wf : MutableSpace.wf (_space g);
  si_queue : GenQueue.repr (headers w) (_containers g) l;
  si_segs : segments (headers w) (Z.of_nat i) (MutableSpace._bottom (_space g)) l
              (MutableSpace._top (_space g));
  si_blocks : forall c k, c ∈ l -> headers w !! c = Some k -> filled (_start k) (B c) (_top k);
  si_covers : Compaction.covers (summary_data w);
  si_range :
    let rs := CompactData._region_start (summary_data w) in
    0 < MutableSpace._bottom (_space g) /\ rs <= MutableSpace._bottom (_space g) /\
    (MutableSpace._bottom (_space g) - rs) mod region_span = 0 /\
    (MutableSpace._end (_space g) - rs) mod region_span = 0 /\
    MutableSpace._end (_space g) < rs + region_span * CompactData.region_count (summary_data w);
  si_free : forall p, MutableSpace._top (_space g) <= p < MutableSpace._end (_space g) ->
    owner (summary_data w) p = Some NULL;
  si_owner : forall c k p, c ∈ l -> headers w !! c = Some k -> _start k <= p < _hard_end k ->
    owner (summary_data w) p = Some c;
  si_array : ObjectStartArray.wf (start_array w) N /\ ObjectStartArray.records (start_array w) N starts /\
    ObjectStartArray.base (start_array w) <= MutableSpace._bottom (_space g) /\
    MutableSpace._end (_space g) <= ObjectStartArray.base (start_array w) + 512 * N;
  si_starts : forall c b, c ∈ l -> b ∈ B c -> fst b ∈ starts
}.

Lemma inv_core i g w l B N starts : space_inv i g w l B N starts -> space_core i g w l B N starts.
Proof. intros []. by split. Qed.

Lemma core_inv i g w l B N starts :
  space_core i g w l B N starts ->
  (forall p, MutableSpace._top (_space g) <= p < MutableSpace._end (_space g) -> owner (summary_data w) p = Some NULL) ->
  space_inv i g w l B N starts.
Proof. intros [] Hfree. by split. Qed.

(** ** Headers that keep their data *)

(** The fields of a header other than the links of the queue. *)
Record same_fields (k k' : container) : Prop := {
  sf_start : _start k' = _start k;
  sf_top : _top k' = _top k;
  sf_end : _end k' = _end k;
  sf_hard_end : _hard_end k' = _hard_end k;
  sf_space_id : _space_id k' = _space_id k;
  sf_next_segment : _next_segment k' = _next_segment k;
  sf_prev_segment : _prev_segment k' = _prev_segment k
}.

Lemma erase_fields k k' : GenQueue.erase k' = GenQueue.erase k -> same_fields k k'.
Proof.
  intros E. split; [apply (f_equal _start) in E | apply (f_equal _top) in E | apply (f_equal _end) in E |
    apply (f_equal _hard_end) in E | apply (f_equal _space_id) in E | apply (f_equal _next_segment) in E |
    apply (f_equal _prev_segment) in E]; exact E.
Qed.

Lemma same_data_inv h h' x k' :
  GenQueue.same_data h h' -> h' !! x = Some k' -> exists k, h !! x = Some k /\ same_fields k k'.
Proof.
  intros Hs Hx. unfold GenQueue.same_data in Hs. symmetry in Hs.
  destruct (GenQueue.same_data_lookup h' h x k' Hs Hx) as (k & Hk & E). exists k. split; [done |].
  by apply erase_fields.
Qed.

Lemma segments_lookup h i p l q c :
  segments h i p l q -> c ∈ l -> exists k, h !! c = Some k /\ segment i k /\ p <= _start k /\ _hard_end k <= q.
Proof.
  revert p. induction l as [| x l IH]; intros p Hs Hc; [by apply elem_of_nil in Hc |].
  destruct Hs as (k & Hk & Hp & Hg & Hs).
  assert (forall p, segments h i p l q -> p <= q) as Hle.
  { clear. induction l as [| y l IH]; intros p; [intros ->; lia |]. intros (k & _ & <- & Hg & Hs).
    pose proof (IH _ Hs). destruct Hg. lia. }
  apply elem_of_cons in Hc as [-> | Hc].
  - exists k. pose proof (Hle _ Hs). split_and!; [done | done | lia | lia].
  - destruct (IH _ Hs Hc) as (k' & ? & ? & ? & ?). exists k'. destruct Hg. split_and!; [done | done | lia | lia].
Qed.

Lemma segments_frame h h' i l : forall p q,
  segments h i p l q ->
  (forall x k, x ∈ l -> h !! x = Some k -> segment i k ->
     exists k', h' !! x = Some k' /\ _start k' = _start k /\ _hard_end k' = _hard_end k /\ segment i k') ->
  segments h' i p l q.
Proof.
  induction l as [| x l IH]; intros p q Hs Hf; [done |].
  destruct Hs as (k & Hk & Hp & Hg & Hs).
  destruct (Hf x k ltac:(by left) Hk Hg) as (k' & Hk' & Hs' & Hh' & Hg'). exists k'.
  split; [done |]. split; [congruence |]. split; [done |]. rewrite Hh'. apply IH; [done |].
  intros y ky Hy. apply Hf. by right.
Qed.

Lemma segments_snoc h i p l q c k :
  segments h i p l q -> h !! c = Some k -> _start k = q -> segment i k -> segments h i p (l ++ [c]) (_hard_end k).
Proof.
  revert p. induction l as [| x l IH]; intros p Hs Hc Hq Hg.
  - simpl in *. subst p. exists k. done.
  - destruct Hs as (kx & Hx & Hp & Hgx & Hs). exists kx. auto.
Qed.

Lemma same_fields_segment i k k' : same_fields k k' -> segment i k -> segment i k'.
Proof. intros [] []. split; congruence. Qed.

Lemma filled_snoc p bl q s : filled p bl q -> 0 < s -> filled p (bl ++ [(q, s)]) (q + 8 * s).
Proof.
  revert p. induction bl as [| b bl IH]; intros p Hf Hs; simpl in *; [by subst |].
  destruct Hf as (? & ? & ?). auto.
Qed.

Lemma inv_headers i g w l B N starts c :
  space_inv i g w l B N starts -> c ∈ l -> is_Some (headers w !! c).
Proof.
  intros [_ _ _ _ [[_ _ Hd _ _] _] _ _ _ _ _ _ _ _] Hc. by eapply GenQueue.dll_lookup.
Qed.

Lemma length_headers (h : heap) l : NoDup l -> (forall x, x ∈ l -> is_Some (h !! x)) -> (length l <= size h)%nat.
Proof.
  intros Hnd Hin. rewrite <- (size_dom h). rewrite <- (size_list_to_set (C := gset Z) l Hnd).
  apply subseteq_size. intros x Hx%elem_of_list_to_set. apply elem_of_dom. by apply Hin.
Qed.

(** ** Walks over the blocks *)

(** The blocks of the containers [l], in order. *)
Definition all_blocks (B : Z -> list (Z * Z)) (l : list Z) : list (Z * Z) := concat (map B l).

(** One block ends before the other starts. *)
Definition before (b b' : Z * Z) : Prop := fst b + 8 * snd b <= fst b'.

Lemma filled_bounds p bl q b : filled p bl q -> b ∈ bl -> p <= fst b /\ 0 < snd b /\ fst b + 8 * snd b <= q.
Proof.
  revert p. induction bl as [| b0 bl IH]; intros p Hf Hb; [by apply elem_of_nil in Hb |].
  destruct Hf as (H0 & H1 & Hf).
  assert (forall p, filled p bl q -> p <= q) as Hle.
  { clear. induction bl as [| b bl IH]; intros p; simpl; [intros ->; lia |].
    intros (_ & ? & H%IH). lia. }
  pose proof (Hle _ Hf). apply elem_of_cons in Hb as [-> | Hb]; [lia |].
  destruct (IH _ Hf Hb) as (? & ? & ?). lia.
Qed.

Lemma filled_sorted p bl q : filled p bl q -> StronglySorted before bl.
Proof.
  revert p. induction bl as [| b bl IH]; intros p Hf; [constructor |].
  destruct Hf as (H0 & H1 & Hf). constructor; [by eapply IH |].
  apply List.Forall_forall. intros b' Hb'%list_elem_of_In. destruct (filled_bounds _ _ _ _ Hf Hb') as (? & _).
  unfold before. lia.
Qed.

(** Sizes that the blocks have. *)
Definition sized (size_of : Z -> Z) (bl : list (Z * Z)) : Prop := forall b, b ∈ bl -> size_of (fst b) = snd b.

Lemma filled_tiles size_of p bl q : filled p bl q -> sized size_of bl -> tiles size_of p (map fst bl) q.
Proof.
  revert p. induction bl as [| b bl IH]; intros p Hf Hs; [done |]. destruct Hf as (H0 & H1 & Hf).
  pose proof (Hs b ltac:(by left)) as Eb. simpl. rewrite <- H0, Eb. split; [done |]. split; [done |].
  rewrite <- H0 in Hf. apply IH; [done |]. intros b' Hb'. apply Hs. by right.
Qed.

Lemma filled_sum p bl q : filled p bl q -> q - p = 8 * sum_of snd bl.
Proof.
  revert p. induction bl as [| b bl IH]; intros p; simpl; [intros ->; unfold sum_of; simpl; lia |].
  intros (_ & _ & H%IH). rewrite sum_of_cons. lia.
Qed.

Lemma filled_length p bl q : filled p bl q -> 8 * Z.of_nat (length bl) <= q - p.
Proof.
  revert p. induction bl as [| b bl IH]; intros p; simpl; [intros ->; lia |].
  intros (_ & ? & H%IH). lia.
Qed.

Lemma segments_sorted h i B : forall l p q,
  segments h i p l q -> (forall c k, c ∈ l -> h !! c = Some k -> filled (_start k) (B c) (_top k)) ->
  StronglySorted before (all_blocks B l) /\
  (forall b, b ∈ all_blocks B l -> p <= fst b /\ fst b + 8 * snd b <= q) /\
  (8 * sum_of snd (all_blocks B l) <= q - p).
Proof.
  induction l as [| c l IH]; intros p q Hs Hf; cbn [all_blocks map concat].
  - simpl in Hs. subst. split; [constructor |]. split; [intros b Hb; by apply elem_of_nil in Hb |].
    unfold sum_of. simpl. lia.
  - destruct Hs as (k & Hk & <- & [Ht _ _ _] & Hs). fold (all_blocks B l).
    pose proof (Hf c k ltac:(by left) Hk) as Hfc.
    destruct (IH _ _ Hs) as (Hsort & Hb & Hsum); [intros; apply Hf; [by right | done] |].
    pose proof (filled_sum _ _ _ Hfc). rewrite sum_of_app.
    split; [| split; [| lia]].
    + apply StronglySorted_app_2; [| by eapply filled_sorted | done].
      intros b b' Hb1 Hb2. destruct (filled_bounds _ _ _ _ Hfc Hb1) as (_ & _ & ?).
      destruct (Hb _ Hb2). unfold before. lia.
    + assert (_hard_end k <= q).
      { clear - Hs. revert Hs. generalize (_hard_end k). induction l as [| y l IH]; intros x; [intros ->; lia |].
        intros (ky & _ & <- & Hg & Hs). pose proof (IH _ Hs). destruct Hg. lia. }
      intros b [Hb1 | Hb1]%elem_of_app.
      * destruct (filled_bounds _ _ _ _ Hfc Hb1). lia.
      * destruct (Hb _ Hb1). lia.
Qed.

(** The walk over the objects of a container. *)
Lemma walk_container_run i g w l B N starts size_of c k :
  space_inv i g w l B N starts -> sized size_of (all_blocks B l) -> c ∈ l -> headers w !! c = Some k ->
  walk_container size_of c (headers w) = Some ((map fst (B c), _top k), headers w).
Proof.
  intros [_ _ _ [Ho _] _ Hsegs Hbl _ _ _ _ _ _] Hsz Hc Hk.
  destruct (segments_lookup _ _ _ _ _ _ Hsegs Hc) as (k' & Hk' & [Ht _ _ _] & ? & ?).
  assert (k' = k) as -> by congruence. pose proof (Hbl c k Hc Hk) as Hf. pose proof (filled_length _ _ _ Hf).
  unfold walk_container. mrun (load_run _ _ _ Hk). unfold lift_opt.
  rewrite (MutableSpace.walk_objects_tiles _ _ _ (map fst (B c))); [done | lia | lia | |].
  - apply filled_tiles; [done |]. intros b Hb. apply Hsz. apply list_elem_of_In, in_concat.
    exists (B c). split; [apply in_map |]; by apply list_elem_of_In.
  - rewrite length_map, pointer_delta_small by lia. lia.
Qed.

(** A loop over the containers whose body only reads. *)
Lemma for_containers_run {A} i g w l B N starts (body : Z -> A -> M heap A) (step : Z -> A -> A) a :
  space_inv i g w l B N starts ->
  (forall c a, c ∈ l -> body c a (headers w) = Some (step c a, headers w)) ->
  for_containers (Z.of_nat i) body a w = Some (foldl (fun a c => step c a) a l, w).
Proof.
  intros [Hg _ _ _ [[Hnd Hnn Hd Hr _] _] _ _ _ _ _ _ _ _] Hb. unfold for_containers.
  mrun (at_run _ _ _ Hg). rewrite M_gets_bind. unfold GenQueue.iterator. rewrite Hr.
  destruct (GenQueue.for_each_run body step (fun h => h = headers w) (headers w) l (S (header_count w)) a NULL)
    as (h' & Hrun & -> & _); try done.
  - intros x a' h -> Hx. exists (headers w). split; [by apply Hb |]. split; [done | apply GenQueue.links_kept_refl].
  - unfold header_count. assert (length l <= size (headers w))%nat; [| lia].
    apply length_headers; [done |]. intros x. by eapply GenQueue.dll_lookup.
  - by apply on_headers_read.
Qed.

Lemma foldl_blocks {A} (f : Z -> list A) (l : list Z) (acc : list A) :
  foldl (fun a c => a ++ f c) acc l = acc ++ concat (map f l).
Proof.
  revert acc. induction l as [| x l IH]; intros acc; simpl; [by rewrite app_nil_r |]. by rewrite IH, app_assoc.
Qed.

(** A sum of the containers modulo [2^64] that does not overflow. *)
Lemma foldl_sum (f : Z -> Z) (l : list Z) acc :
  (forall c, c ∈ l -> 0 <= f c) -> 0 <= acc -> acc + sum_of f l < 2 ^ 64 ->
  foldl (fun a c => u64 (a + f c)) acc l = acc + sum_of f l.
Proof.
  revert acc. induction l as [| x l IH]; intros acc Hf Ha Hb; simpl; [unfold sum_of; simpl; lia |].
  rewrite sum_of_cons in *. pose proof (Hf x ltac:(by left)).
  assert (0 <= sum_of f l) by (apply sum_of_nonneg; intros; apply Hf; by right).
  rewrite u64_small by (unfold is_u64; lia). rewrite IH; [lia | intros; apply Hf; by right | lia | lia].
Qed.

Lemma sum_of_blocks (B : Z -> list (Z * Z)) l : sum_of snd (all_blocks B l) = sum_of (fun c => sum_of snd (B c)) l.
Proof.
  induction l as [| c l IH]; [done |]. unfold all_blocks in *. cbn [map concat]. by rewrite sum_of_app, sum_of_cons, IH.
Qed.

Lemma inv_count i g w l B N starts :
  space_inv i g w l B N starts -> Z.of_nat (length l) < 2 ^ 31 -> container_count g = Z.of_nat (length l).
Proof.
  intros [_ _ _ _ [_ Hcnt] _ _ _ _ _ _ _ _] Hl. unfold container_count, GenQueue.n_elements. rewrite Hcnt.
  apply swrap_small; simpl; lia.
Qed.

Lemma iterate_run i g w l B N starts size_of :
  space_inv i g w l B N starts -> Z.of_nat (length l) < 2 ^ 31 -> sized size_of (all_blocks B l) ->
  iterate_containers size_of (Z.of_nat i) w = Some (map fst (all_blocks B l), w).
Proof.
  intros Hinv Hlen Hsz. unfold iterate_containers. mrun (at_run _ _ _ (si_space _ _ _ _ _ _ _ Hinv)).
  rewrite (inv_count _ _ _ _ _ _ _ Hinv Hlen), Z.gtb_ltb.
  destruct (Z.ltb_spec 0 (Z.of_nat (length l))); [| by destruct l].
  rewrite (for_containers_run i g w l B N starts _ (fun c a => a ++ map fst (B c)) [] Hinv).
  - rewrite foldl_blocks. unfold all_blocks. by rewrite concat_map, map_map.
  - intros c a Hcl. destruct (inv_headers _ _ _ _ _ _ _ _ Hinv Hcl) as [k Hk].
    by mrun (walk_container_run _ _ _ _ _ _ _ _ _ _ Hinv Hsz Hcl Hk).
Qed.

(** The words in use of one container. *)
Lemma inv_used i g w l B N starts c k :
  space_inv i g w l B N starts -> c ∈ l -> headers w !! c = Some k ->
  pointer_delta (_top k) (_start k) = sum_of snd (B c) /\ 0 <= sum_of snd (B c).
Proof.
  intros [_ _ _ [Ho _] _ Hsegs Hbl _ _ _ _ _ _] Hc Hk.
  destruct (segments_lookup _ _ _ _ _ _ Hsegs Hc) as (k' & Hk' & [? _ _ _] & ? & ?).
  assert (k' = k) as -> by congruence. pose proof (filled_sum _ _ _ (Hbl c k Hc Hk)).
  rewrite pointer_delta_small by lia. lia.
Qed.

Lemma used_run i g w l B N starts :
  space_inv i g w l B N starts -> Z.of_nat (length l) < 2 ^ 31 ->
  used_in_words regions (Z.of_nat i) w = Some (sum_of snd (all_blocks B l), w).
Proof.
  intros Hinv Hlen. pose proof Hinv as [Hg _ [Ht _] Hwf _ Hsegs Hbl _ _ _ _ _ _]. pose proof Hwf as [Ho _].
  destruct (segments_sorted _ _ _ _ _ _ Hsegs Hbl) as (_ & _ & Hsum).
  unfold CGRPSpace.used_in_words. mrun (at_run _ _ _ Hg). unfold container_type.
  destruct (Z.eqb_spec (_type g) (region_start_ptr regions)); [done |]. cbn [negb andb].
  rewrite (inv_count _ _ _ _ _ _ _ Hinv Hlen), Z.gtb_ltb. destruct (Z.ltb_spec 0 (Z.of_nat (length l))).
  - rewrite (for_containers_run i g w l B N starts _ (fun c a => u64 (a + sum_of snd (B c))) 0 Hinv).
    + rewrite foldl_sum; [by rewrite sum_of_blocks | | lia | rewrite <- sum_of_blocks; lia].
      intros c Hcl. destruct (inv_headers _ _ _ _ _ _ _ _ Hinv Hcl) as [k Hk].
      by destruct (inv_used _ _ _ _ _ _ _ _ _ Hinv Hcl Hk).
    + intros c a Hcl. destruct (inv_headers _ _ _ _ _ _ _ _ Hinv Hcl) as [k Hk]. mrun (load_run _ _ _ Hk).
      destruct (inv_used _ _ _ _ _ _ _ _ _ Hinv Hcl Hk) as [-> _]. done.
  - destruct l; [| simpl in *; lia]. simpl in Hsegs.
    rewrite (MutableSpace.used_eq _ Hwf), <- Hsegs, Z.sub_diag. done.
Qed.

Lemma verify_run i g w l B N starts size_of :
  space_inv i g w l B N starts -> sized size_of (all_blocks B l) ->
  verify regions size_of (Z.of_nat i) w = Some (true, w).
Proof.
  intros Hinv Hsz. pose proof Hinv as [Hg _ [Ht _] _ _ _ _ _ _ _ _ _ _].
  unfold verify. mrun (at_run _ _ _ Hg). unfold container_type.
  destruct (Z.eqb_spec (_type g) (region_start_ptr regions)); [done |].
  destruct (MutableSpace.not_empty (_space g)); [| done].
  rewrite (for_containers_run i g w l B N starts _ (fun c ok => ok && true) true Hinv).
  - clear. do 2 f_equal. induction l as [| x l IH]; [done |]. exact IH.
  - intros c ok Hcl. destruct (inv_headers _ _ _ _ _ _ _ _ Hinv Hcl) as [k Hk]. mrun (load_run _ _ _ Hk).
    mrun (walk_container_run _ _ _ _ _ _ _ _ _ _ Hinv Hsz Hcl Hk). cbn [snd]. by rewrite Z.eqb_refl.
Qed.

(** C9. What a space of collections holds is what was handed out.  The blocks, in the
    order of the queue and of the segments, lie one after the other without overlap;
    the iteration over the containers visits exactly their addresses, in that order; the
    words in use are the sum of their sizes; the verification of the space succeeds; and
    the region table maps the address of each block to its container. *)
Theorem containers_hold_blocks (i : nat) (g : CGRPSpace) (w : world) (l : list Z) (B : Z -> list (Z * Z))
    (N : Z) (starts : list Z) (size_of : Z -> Z)
    (Hinv : space_inv i g w l B N starts) (Hlen : Z.of_nat (length l) < 2 ^ 31)
    (Hsz : sized size_of (all_blocks B l)) :
  StronglySorted before (all_blocks B l) /\
  object_iterate_containers size_of (Z.of_nat i) w = Some (map fst (all_blocks B l), w) /\
  used_in_words regions (Z.of_nat i) w = Some (sum_of snd (all_blocks B l), w) /\
  verify regions size_of (Z.of_nat i) w = Some (true, w) /\
  (forall c b, c ∈ l -> b ∈ B c ->
     CompactData.get_container_at_addr (fst b) (summary_data w) = Some (c, summary_data w)).
Proof.
  pose proof Hinv as [_ _ _ [Ho _] _ Hsegs Hbl [Hrs0 _ _] (_ & Hbr & _) _ Howner _ _].
  split; [by eapply segments_sorted |]. split; [by eapply iterate_run |]. split; [by eapply used_run |].
  split; [by eapply verify_run |].
  intros c b Hcl Hb. destruct (segments_lookup _ _ _ _ _ _ Hsegs Hcl) as (k & Hk & [? _ _ _] & ? & ?).
  destruct (filled_bounds _ _ _ _ (Hbl c k Hcl Hk) Hb) as (? & ? & ?).
  apply get_container_run; [lia | lia |]. apply (Howner c k); [done | done | lia].
Qed.

(** ** Allocation of segments *)

(** The logarithm of the size of a regular segment, [LogMinObjAlignment] and the
    allocator of the C heap, which returns new addresses. *)
Context (lg shift : Z) (AllocateHeap : heap -> Z) (junk : Z -> container).
Context (Hlg : 16 <= lg <= 40) (Hfhs : 0 < filler_header_size < 65536).
Context (Halloc : forall h, AllocateHeap h <> NULL /\ h !! AllocateHeap h = None).

Local Abbreviation segment_sz := (2 ^ lg).

(** The words reserved for a segment that holds [size] words. *)
Definition reserved (size : Z) : Z :=
  if size >? segment_sz then calculate_large_reserved_sz segment_sz size else segment_sz.

Lemma reserved_spec size :
  0 < size < 2 ^ 60 -> size <= reserved size < size + segment_sz + segment_sz /\ reserved size mod 65536 = 0 /\
  segment_sz <= reserved size.
Proof.
  intros Hs. unfold reserved. rewrite Z.gtb_ltb.
  assert (2 ^ 16 <= 2 ^ lg <= 2 ^ 40) as Hp by (split; apply Z.pow_le_mono_r; lia).
  assert (2 ^ lg = 2 ^ (lg - 16) * 65536) as Hm
    by (change 65536 with (2 ^ 16); rewrite <- Z.pow_add_r by lia; f_equal; lia).
  destruct (Z.ltb_spec (2 ^ lg) size).
  - unfold calculate_large_reserved_sz, align_size_up.
    destruct (align_size_up_spec size lg ltac:(lia) ltac:(lia) ltac:(lia)) as [Hmod Hb].
    split; [lia |]. split; [| lia]. apply Z.mod_divide in Hmod as [q ->]; [| lia].
    rewrite Hm, Z.mul_assoc. apply Z.mod_mul. lia.
  - split; [lia |]. split; [| lia]. rewrite Hm. apply Z.mod_mul. lia.
Qed.

(** The header of a new segment of [i] at [p], for a block of [size] words. *)
Definition new_header (i p size : Z) : container :=
  mkContainer (p + 8 * size) p (p + 8 * reserved size - 8 * filler_header_size) (p + 8 * reserved size)
    NULL i NULL NULL NULL NULL.

Lemma new_header_segment i p size : 0 < size < 2 ^ 60 -> segment i (new_header i p size).
Proof.
  intros Hs. destruct (reserved_spec size Hs) as (Hr & Hm & Hr').
  unfold region_span; split; cbn -[reserved]; try lia; unfold region_span; lia.
Qed.

Local Abbreviation setup_container := (setup_container regions filler_header_size shift).
Local Abbreviation push_container :=
  (push_container regions segment_sz filler_header_size shift AllocateHeap junk).

(** [_type->value()] of the space [i]. *)
Lemma type_value_run i g v w :
  spaces w !! i = Some g -> BDARegion.value_at regions (_type g) = Some v ->
  type_value regions (Z.of_nat i) w = Some (v, w).
Proof. intros Hg Hv. unfold type_value. mrun (at_run _ _ _ Hg). unfold lift_opt. by rewrite Hv. Qed.

(** A header [c] set up for a new segment at [p]. *)
Lemma setup_run i g w c k0 p size d a :
  spaces w !! i = Some g -> (1 <= i <= 31)%nat ->
  _type g <> region_start_ptr regions -> BDARegion.value_at regions (_type g) = Some (2 ^ Z.of_nat i) ->
  headers w !! c = Some k0 -> 0 < size < 2 ^ 60 -> 0 < p -> p + 8 * reserved size < 2 ^ 64 ->
  CompactData.install_bda_container c (new_header (Z.of_nat i) p size) (summary_data w) = Some (tt, d) ->
  ObjectStartArray.allocate_block (start_array w) p = Some a ->
  setup_container (Z.of_nat i) c (MemRegion.mkMemRegion p (reserved size)) size w =
    Some (tt, set_array (set_data (set_headers w (<[c := new_header (Z.of_nat i) p size]> (headers w))) d) a).
Proof.
  intros Hg Hi Ht Hv Hc Hs Hp Hlim Hd Ha. destruct (reserved_spec size Hs) as (Hr & _ & Hr').
  unfold CGRPSpace.setup_container. mrun (type_value_run _ _ _ _ Hg Hv).
  erewrite M_bind_Some; [| apply on_headers_run, store_run, Hc].
  assert (with_space_id (mkContainer (hw_add (MemRegion.start (MemRegion.mkMemRegion p (reserved size))) size)
      (MemRegion.start (MemRegion.mkMemRegion p (reserved size)))
      (hw_sub (MemRegion.end_ (MemRegion.mkMemRegion p (reserved size))) filler_header_size)
      (MemRegion.end_ (MemRegion.mkMemRegion p (reserved size))) NULL 0 NULL NULL NULL NULL)
      (exact_log2 (2 ^ Z.of_nat i)) = new_header (Z.of_nat i) p size) as ->.
  { assert (2 ^ 16 <= 2 ^ lg) by (apply Z.pow_le_mono_r; lia).
    unfold MemRegion.start, MemRegion.end_. cbn -[exact_log2 Z.pow reserved hw_add hw_sub new_header].
    rewrite exact_log2_pow2 by lia. rewrite !hw_add_small by lia.
    unfold with_space_id, new_header. cbn [_top _start _end _hard_end _saved_top _space_id _next_segment
      _prev_segment _next _previous]. unfold hw_sub, HeapWordSize. rewrite u64_small by (unfold is_u64; lia).
    rewrite swrap_small by (simpl; lia). do 1 f_equal; lia. }
  mrun (at_run i (set_headers w _) g Hg). unfold container_type.
  destruct (Z.eqb_spec (_type g) (region_start_ptr regions)); [done |]. rewrite when_false, M_ret_bind.
  unfold install_container_in_region.
  rewrite M_bind_assoc. erewrite M_bind_Some; [| apply on_headers_read, load_run; by apply lookup_insert_eq].
  erewrite M_bind_Some; [| apply on_data_run, Hd].
  unfold allocate_block. cbn [start_array set_data set_headers MemRegion.start MemRegion._start].
  by rewrite Ha.
Qed.

(** No room for the segment: nothing changes. *)
Lemma push_full i g w l B N starts size :
  space_core i g w l B N starts -> MutableSpace.free_in_words (_space g) < reserved size ->
  push_container (Z.of_nat i) size w = Some (NULL, w).
Proof.
  intros [Hg _ [Ht _] _ _ _ _ _ _ _ _ _] Hfull. unfold CGRPSpace.push_container. fold (reserved size).
  mrun (at_run _ _ _ Hg). unfold container_type.
  destruct (Z.eqb_spec (_type g) (region_start_ptr regions)); [done |]. cbn [negb].
  unfold space_cas_allocate. rewrite !M_bind_assoc. mrun (at_run _ _ _ Hg).
  rewrite (MutableSpace.allocate_full _ _ Hfull). rewrite M_bind_assoc. mrun (update_run _ _ _ _ Hg).
  rewrite list_insert_id by (destruct g; exact Hg). by rewrite set_spaces_id.
Qed.

(** The blocks after a first block of [size] words in the new segment [c] at [p]. *)
Definition with_block (B : Z -> list (Z * Z)) (c p size : Z) : Z -> list (Z * Z) :=
  fun x => if decide (x = c) then B c ++ [(p, size)] else B x.
Definition with_segment (B : Z -> list (Z * Z)) (c p size : Z) : Z -> list (Z * Z) :=
  fun x => if decide (x = c) then [(p, size)] else B x.

(** The space after a segment was taken from it and its header enqueued. *)
Definition grown (g : CGRPSpace) (size : Z) (q : GenQueue.GenQueue) : CGRPSpace :=
  with_containers (with_space g (MutableSpace.set_top (_space g)
    (MutableSpace._top (_space g) + 8 * reserved size))) q.

(** Memory that [push_container] takes; the registration of the new segment. *)
Lemma push_registers i g w l B N starts size c :
  let p := MutableSpace._top (_space g) in
  let k := new_header (Z.of_nat i) p size in
  space_core i g w l B N starts -> 0 < size < 2 ^ 60 ->
  reserved size <= MutableSpace.free_in_words (_space g) ->
  exists d a,
    CompactData.install_bda_container c k (summary_data w) = Some (tt, d) /\
    ObjectStartArray.allocate_block (start_array w) p = Some a /\
    Compaction.covers d /\ CompactData._region_start d = CompactData._region_start (summary_data w) /\
    CompactData.region_count d = CompactData.region_count (summary_data w) /\
    (forall x, CompactData._region_start d <= x -> owner d x =
       if (p <=? x) && (x <? p + 8 * reserved size) then Some c else owner (summary_data w) x) /\
    ObjectStartArray.wf a N /\ ObjectStartArray.records a N (starts ++ [p]) /\
    ObjectStartArray.base a = ObjectStartArray.base (start_array w).
Proof.
  intros p k [Hg Hi Ht Hwf Hq Hsegs _ Hcov Hrange _ (Hawf & Hrec & Hb & He) _] Hs Hroom.
  pose proof Hwf as [Ho Ha]. rewrite (MutableSpace.free_eq _ Hwf) in Hroom. fold p in Ho, Ha, Hroom.
  destruct (reserved_spec size Hs) as (Hr & Hrm & Hr'). destruct Hrange as (Hb0 & Hbr & Hbm & Hem & Hel).
  assert ((p - CompactData._region_start (summary_data w)) mod region_span = 0) as Hpm.
  { assert (forall l x y, segments (headers w) (Z.of_nat i) x l y -> (y - x) mod region_span = 0) as Hmod.
    { clear. induction l as [| z l IH]; intros x y; [intros ->; by rewrite Z.sub_diag |].
      intros (kz & _ & <- & Hgz & Hsz). apply IH in Hsz. destruct Hgz as [_ _ _ [_ Hz]].
      unfold region_span in *. lia. }
    apply Hmod in Hsegs. unfold region_span in *. lia. }
  assert (2 ^ 16 <= 2 ^ lg) as Hp16 by (apply Z.pow_le_mono_r; lia).
  destruct (install_run (summary_data w) c k) as (d & Hd & Hcd & Hrs & Hrc & Hown); try done.
  - subst k. cbn -[reserved]. lia.
  - subst k. cbn -[reserved Z.mul region_span]. lia.
  - subst k. cbn -[reserved region_span]. unfold region_span in *. lia.
  - subst k. cbn -[reserved region_span]. unfold region_span in *. lia.
  - destruct (ObjectStartArray.allocate_block_run (start_array w) N starts p Hawf Hrec) as
      (a & Ha' & Hwfa & Hba & _ & _ & Hreca).
    + split; [lia | lia].
    + exists d, a. split_and!; try done. intros x Hx. rewrite Hown by congruence. done.
Qed.

(** *** The header of a new segment *)

(** The header registered for the address [x]. *)
Definition registered (w : world) (x : Z) : Z := default NULL (owner (summary_data w) x).

(** The header that the segment of [size] words at [p] gets: a new one when none is registered at its start;
    the registered one when its segment starts there; else the one registered at the last word, or a
    new one when that is the same. *)
Definition segment_header (w : world) (p size : Z) : Z :=
  let first := registered w p in
  let last := registered w (p + 8 * reserved size - 8) in
  if first =? NULL then AllocateHeap (headers w)
  else if default NULL (_start <$> (headers w !! first)) =? p then first
  else if last =? first then AllocateHeap (headers w) else last.

(** The headers registered for the memory can be used again: they are headers that are no longer in the queue,
    and no other header is registered inside a segment that is larger than the regular size. *)
Definition recyclable (w : world) (l : list Z) (p size : Z) : Prop :=
  let first := registered w p in
  let last := registered w (p + 8 * reserved size - 8) in
  first = NULL \/
  exists k, headers w !! first = Some k /\ (first ∉ l) /\
    (_start k = p \/ last = first \/ last <> NULL /\ (last ∉ l) /\ is_Some (headers w !! last)) /\
    (size <= segment_sz \/ forall x, p <= x < p + 8 * reserved size -> registered w x = first).

(** The pool, from which a header that is used again is counted off. *)
Definition pool_after (g : CGRPSpace) (w : world) (p : Z) : GenQueue.GenQueue :=
  if registered w p =? NULL then _pool g else GenQueue.phantom_remove (_pool g).

Lemma segment_header_ok w l p size :
  recyclable w l p size -> (forall x, x ∈ l -> is_Some (headers w !! x)) ->
  segment_header w p size <> NULL /\ segment_header w p size ∉ l.
Proof.
  intros Hrec Hl. destruct (Halloc (headers w)) as [Hn Hf].
  assert (AllocateHeap (headers w) ∉ l) as Hal by (intros Hin; destruct (Hl _ Hin); congruence).
  unfold segment_header. destruct (Z.eqb_spec (registered w p) NULL); [done |].
  destruct Hrec as [? | (k & Hk & Hkl & Hlast & _)]; [done |]. rewrite Hk. cbn.
  destruct (Z.eqb_spec (_start k) p); [done |].
  destruct (Z.eqb_spec (registered w (p + 8 * reserved size - 8)) (registered w p)); [done |].
  destruct Hlast as [? | [? | (? & ? & _)]]; done.
Qed.

Lemma registered_run w x :
  Compaction.covers (summary_data w) -> CompactData._region_start (summary_data w) <= x ->
  x < CompactData._region_start (summary_data w) + region_span * CompactData.region_count (summary_data w) ->
  on_data (CompactData.get_container_at_addr x) w = Some (registered w x, w).
Proof.
  intros [H0 _ Hl] Hx He. unfold region_span in He. apply on_data_read, get_container_run; [lia | lia |]. unfold registered, owner.
  destruct (Compaction.rd_Some (summary_data w) ((x - CompactData._region_start (summary_data w)) / region_span))
    as [r ->]; [unfold region_span; lia | done].
Qed.

(** The size reserved is a number of regular segments. *)
Lemma reserved_multiple size :
  0 < size < 2 ^ 60 -> exists n : nat, reserved size = segment_sz * (1 + Z.of_nat n) /\ (size <= segment_sz -> n = O).
Proof.
  intros Hs. unfold reserved. rewrite Z.gtb_ltb.
  assert (2 ^ 16 <= 2 ^ lg <= 2 ^ 40) as Hp by (split; apply Z.pow_le_mono_r; lia).
  destruct (Z.ltb_spec (2 ^ lg) size); [| exists O; lia].
  unfold calculate_large_reserved_sz, align_size_up.
  destruct (align_size_up_spec size lg ltac:(lia) ltac:(lia) ltac:(lia)) as [[q Hq]%Z.mod_divide Hb]; [| lia].
  rewrite Hq in *. exists (Z.to_nat (q - 1)). split; [| lia]. rewrite Z2Nat.id by nia. lia.
Qed.

(** The loop frees no header when the memory it passes is registered to the first. *)
Lemma free_between_none i c first last limit w : forall n fuel p,
  (n < fuel)%nat -> Compaction.covers (summary_data w) -> CompactData._region_start (summary_data w) <= p ->
  limit = p + 8 * (segment_sz * Z.of_nat n) ->
  limit < CompactData._region_start (summary_data w) + region_span * CompactData.region_count (summary_data w) ->
  (forall x, p <= x < limit -> registered w x = first) ->
  free_between segment_sz fuel i limit c first last p w = Some (tt, w).
Proof.
  assert (2 ^ 16 <= 2 ^ lg <= 2 ^ 40) as Hp by (split; apply Z.pow_le_mono_r; lia).
  induction n as [| n IH]; intros fuel p Hf Hcov Hrs -> Hlim Hreg; (destruct fuel as [| fuel]; [lia |]); cbn [free_between].
  - by rewrite Z.mul_0_r, Z.mul_0_r, Z.add_0_r, Z.ltb_irrefl.
  - destruct (Z.ltb_spec p (p + 8 * (2 ^ lg * Z.of_nat (S n)))); [| nia].
    mrun (registered_run w p Hcov Hrs ltac:(lia)). rewrite (Hreg p ltac:(lia)), Z.eqb_refl, andb_false_r. cbn [negb andb].
    rewrite when_false, M_ret_bind. pose proof Hcov as [H0 _ Hl]. unfold region_span in Hlim.
    rewrite hw_add_small by nia. apply IH; [lia | done | lia | lia | unfold region_span; lia |].
    intros x Hx. apply Hreg. lia.
Qed.

(** The header is chosen and set up: [w2] is the world after the pool was adjusted. *)
Lemma reuse_run i g w l p size d a :
  let c := segment_header w p size in
  let w2 := set_spaces w (<[i := with_pool g (pool_after g w p)]> (spaces w)) in
  spaces w !! i = Some g -> (1 <= i <= 31)%nat ->
  _type g <> region_start_ptr regions -> BDARegion.value_at regions (_type g) = Some (2 ^ Z.of_nat i) ->
  0 < size < 2 ^ 60 -> 0 < p -> Compaction.covers (summary_data w) ->
  CompactData._region_start (summary_data w) <= p ->
  p + 8 * reserved size <
    CompactData._region_start (summary_data w) + region_span * CompactData.region_count (summary_data w) ->
  recyclable w l p size ->
  CompactData.install_bda_container c (new_header (Z.of_nat i) p size) (summary_data w) = Some (tt, d) ->
  ObjectStartArray.allocate_block (start_array w) p = Some a ->
  reuse_or_allocate regions segment_sz filler_header_size shift AllocateHeap junk (Z.of_nat i) p (reserved size) size w
  = Some (c, set_array (set_data (set_headers w2 (<[c := new_header (Z.of_nat i) p size]> (headers w))) d) a).
Proof.
  intros c w2 Hg Hi Ht Hv Hs Hp Hcov Hrs Hlim Hrec Hd Ha.
  destruct (reserved_spec size Hs) as (Hr & _ & Hr'). pose proof Hcov as [H0 _ Hl].
  assert (2 ^ 16 <= 2 ^ lg <= 2 ^ 40) as Hp16 by (split; apply Z.pow_le_mono_r; lia).
  assert (p + 8 * reserved size < 2 ^ 64) as Hl64 by (unfold region_span in Hlim; lia).
  assert (spaces w2 !! i = Some (with_pool g (pool_after g w p))) as Hg2
    by (cbn; apply list_lookup_insert_eq; by eapply lookup_lt_Some).
  assert (forall k0 w', w' = set_headers w2 (<[c := k0]> (headers w)) ->
    setup_container (Z.of_nat i) c (MemRegion.mkMemRegion p (reserved size)) size w' =
    Some (tt, set_array (set_data (set_headers w2 (<[c := new_header (Z.of_nat i) p size]> (headers w))) d) a)) as Hset.
  { intros k0 w' ->. rewrite (setup_run i (with_pool g (pool_after g w p)) _ c k0 p size d a); try done.
    - cbn [headers set_headers]. by rewrite insert_insert_eq.
    - apply lookup_insert_eq. }
  assert (forall k0, headers w !! c = Some k0 -> setup_container (Z.of_nat i) c (MemRegion.mkMemRegion p (reserved size)) size w2 =
    Some (tt, set_array (set_data (set_headers w2 (<[c := new_header (Z.of_nat i) p size]> (headers w))) d) a)) as Hold.
  { intros k0 Hk0. apply (Hset k0). rewrite insert_id by done. by destruct w. }
  unfold reuse_or_allocate. mrun (registered_run w p Hcov Hrs ltac:(lia)). rewrite hw_add_small by lia.
  mrun (registered_run w (p + 8 * reserved size) Hcov ltac:(lia) Hlim).
  subst c. unfold segment_header, pool_after in *. destruct (Z.eqb_spec (registered w p) NULL) as [E | E]; cbn [negb].
  { unfold allocate_and_setup_container, CGRPSpace.allocate_container. rewrite M_bind_assoc, M_gets_bind, M_bind_assoc.
    erewrite M_bind_Some; [| by apply on_headers_run]. rewrite M_ret_bind.
    erewrite M_bind_Some; [done |]. apply (Hset (junk (AllocateHeap (headers w)))).
    subst w2. unfold set_headers, set_spaces. cbn. f_equal. symmetry. apply list_insert_id. rewrite Hg. by destruct g. }
  destruct Hrec as [? | (k & Hk & _ & Hlast & Hfree)]; [done |].
  unfold on_pool at 1. rewrite !M_bind_assoc. mrun (at_run _ _ _ Hg). rewrite M_bind_assoc.
  erewrite M_bind_Some; [| apply on_headers_read; done]. cbv beta iota. rewrite M_bind_assoc. mrun (update_run _ _ _ _ Hg).
  rewrite M_ret_bind. fold w2. erewrite M_bind_Some; [| apply on_headers_read, field_run, Hk].
  rewrite Hk in Hset, Hold |- *. cbn [fmap option_fmap option_map default from_option id] in Hset, Hold |- *.
  assert (forall c' w', summary_data w' = summary_data w ->
    free_between segment_sz (S (Z.to_nat (reserved size / segment_sz))) (Z.of_nat i) (p + 8 * reserved size) c'
      (registered w p) (registered w (p + 8 * reserved size)) (hw_add p segment_sz) w' = Some (tt, w')) as Hnone.
  { intros c' w' Ew. destruct (reserved_multiple size Hs) as (n & En & Hn). rewrite hw_add_small by lia.
    apply (free_between_none _ _ _ _ _ _ n); rewrite ?Ew; try done; [| lia | lia |].
    - rewrite En, Z.mul_comm, Z.div_mul by lia. lia.
    - intros x Hx. unfold registered at 1. rewrite Ew. fold (registered w x).
      destruct Hfree as [Hsm | Hfree]; [| apply Hfree; lia]. rewrite (Hn Hsm) in En. lia. }
  destruct (Z.eqb_spec (_start k) p) as [Es | Es]; cbn [negb].
  { rewrite M_ret_bind. mrun (Hnone (registered w p) w2 eq_refl). by mrun (Hold k Hk). }
  assert (hw_sub (p + 8 * reserved size) 1 = p + 8 * reserved size - 8) as ->
    by (unfold hw_sub, HeapWordSize; rewrite u64_small by (unfold is_u64; lia); lia).
  rewrite M_bind_assoc. mrun (registered_run w2 (p + 8 * reserved size - 8) Hcov ltac:(cbn; lia) ltac:(cbn; lia)).
  change (registered w2 (p + 8 * reserved size - 8)) with (registered w (p + 8 * reserved size - 8)).
  destruct (Z.eqb_spec (registered w (p + 8 * reserved size - 8)) (registered w p)) as [Ee | Ee]; cbn [negb].
  - unfold CGRPSpace.allocate_container. rewrite M_bind_assoc, M_gets_bind, M_bind_assoc.
    erewrite M_bind_Some; [| by apply on_headers_run]. rewrite M_ret_bind. cbn [headers w2 set_spaces].
    erewrite M_bind_Some; [| by apply Hnone]. by erewrite M_bind_Some; [| by eapply Hset].
  - destruct Hlast as [? | [? | (_ & _ & [ke Hke])]]; [done | done |]. rewrite M_ret_bind.
    erewrite M_bind_Some; [| by apply Hnone]. by erewrite M_bind_Some; [| by eapply Hold].
Qed.

(** The space [g] with its top moved over a new segment. *)
Definition advanced (g g' : CGRPSpace) (size : Z) : Prop :=
  _space g' = MutableSpace.set_top (_space g) (MutableSpace._top (_space g) + 8 * reserved size) /\
  _type g' = _type g /\ _pool g' = _pool g.

(** What a step keeps of the world outside the space [i]. *)
Record outside (i : nat) (g : CGRPSpace) (w w' : world) : Prop := {
  o_limits : limits w' = limits w;
  o_bitmap : segment_bitmap w' = segment_bitmap w;
  o_spaces : forall j, j <> i -> spaces w' !! j = spaces w !! j;
  o_headers : forall x k, headers w !! x = Some k -> _space_id k <> Z.of_nat i -> headers w' !! x = Some k;
  o_table : CompactData._region_start (summary_data w') = CompactData._region_start (summary_data w) /\
            CompactData.region_count (summary_data w') = CompactData.region_count (summary_data w);
  o_owner : forall p, CompactData._region_start (summary_data w) <= p ->
    ~ (MutableSpace._bottom (_space g) <= p < MutableSpace._end (_space g)) ->
    owner (summary_data w') p = owner (summary_data w) p;
  o_base : ObjectStartArray.base (start_array w') = ObjectStartArray.base (start_array w)
}.

(** The headers of the space are those of its segments. *)
Lemma inv_space_id i g w l B N starts x k :
  space_inv i g w l B N starts -> headers w !! x = Some k -> _space_id k <> Z.of_nat i -> x ∉ l.
Proof.
  intros [_ _ _ _ _ Hsegs _ _ _ _ _ _ _] Hk Hid Hx.
  destruct (segments_lookup _ _ _ _ _ _ Hsegs Hx) as (k' & Hk' & [_ _ Hid' _] & _). congruence.
Qed.

(** The headers [h'] after the header [k] was enqueued at [c]. *)
Record pushed (h h' : heap) (c : Z) (k : container) : Prop := {
  pu_new : exists kc, h' !! c = Some kc /\ same_fields k kc;
  pu_old : forall x kx, h !! x = Some kx -> x <> c -> exists kx', h' !! x = Some kx' /\ same_fields kx kx';
  pu_inv : forall x kx', h' !! x = Some kx' -> x <> c -> exists kx, h !! x = Some kx /\ same_fields kx kx'
}.

Lemma same_data_pushed h h' c k : GenQueue.same_data (<[c := k]> h) h' -> pushed h h' c k.
Proof.
  intros Hs. split.
  - destruct (GenQueue.same_data_lookup _ _ c k Hs ltac:(apply lookup_insert_eq)) as (kc & Hkc & E).
    exists kc. split; [done |]. by apply erase_fields.
  - intros x kx Hx Hne. destruct (GenQueue.same_data_lookup _ _ x kx Hs) as (kx' & Hkx' & E);
      [by rewrite lookup_insert_ne |]. exists kx'. split; [done |]. by apply erase_fields.
  - intros x kx' Hx Hne. destruct (same_data_inv _ _ _ _ Hs Hx) as (kx & Hkx & Hf).
    rewrite lookup_insert_ne in Hkx by done. eauto.
Qed.

Lemma elem_of_snoc_ne (l : list Z) c x : x ∈ l ++ [c] -> x <> c -> x ∈ l.
Proof. intros [H | H%list_elem_of_singleton]%elem_of_app Hne; done. Qed.

(** The parts of the invariant after a push. *)
Lemma pushed_segments h h' i p l q c size :
  pushed h h' c (new_header i q size) -> 0 < size < 2 ^ 60 -> c ∉ l ->
  segments h i p l q -> segments h' i p (l ++ [c]) (q + 8 * reserved size).
Proof.
  intros [(kc & Hkc & Hfc) Hold _] Hs Hcl Hsegs.
  replace (q + 8 * reserved size) with (_hard_end kc) by (by rewrite (sf_hard_end _ _ Hfc)).
  apply (segments_snoc _ _ _ _ q _ kc); [| done | by rewrite (sf_start _ _ Hfc) |
    by eapply same_fields_segment, new_header_segment].
  eapply segments_frame; [exact Hsegs |]. intros x kx Hx Hkx Hgx.
  destruct (Hold x kx Hkx ltac:(congruence)) as (kx' & Hkx' & E). exists kx'.
  split; [done |]. split; [apply E |]. split; [apply E |]. by eapply same_fields_segment.
Qed.

Lemma pushed_blocks h h' i p l c size (B : Z -> list (Z * Z)) :
  pushed h h' c (new_header i p size) -> 0 < size ->
  (forall c k, c ∈ l -> h !! c = Some k -> filled (_start k) (B c) (_top k)) ->
  forall x k, x ∈ l ++ [c] -> h' !! x = Some k -> filled (_start k) (with_segment B c p size x) (_top k).
Proof.
  intros [(kc & Hkc & Hfc) _ Hinv] Hs Hbl x k Hx Hk. unfold with_segment. destruct (decide (x = c)) as [-> | Hne].
  - rewrite Hkc in Hk. injection Hk as <-. rewrite (sf_start _ _ Hfc), (sf_top _ _ Hfc). cbn. lia.
  - destruct (Hinv x k Hk Hne) as (k0 & Hk0 & Hf). rewrite (sf_start _ _ Hf), (sf_top _ _ Hf).
    apply Hbl; [by eapply elem_of_snoc_ne | done].
Qed.

Lemma pushed_owner h h' d d' i p b l c size :
  pushed h h' c (new_header i p size) -> segments h i b l p ->
  CompactData._region_start d <= b <= p ->
  (forall x, CompactData._region_start d <= x -> owner d' x =
     if (p <=? x) && (x <? p + 8 * reserved size) then Some c else owner d x) ->
  (forall c k x, c ∈ l -> h !! c = Some k -> _start k <= x < _hard_end k -> owner d x = Some c) ->
  forall x k y, x ∈ l ++ [c] -> h' !! x = Some k -> _start k <= y < _hard_end k -> owner d' y = Some x.
Proof.
  intros [(kc & Hkc & Hfc) _ Hinv] Hsegs Hb Hown Howner x k y Hx Hk Hy.
  destruct (decide (x = c)) as [-> | Hne].
  - rewrite Hkc in Hk. injection Hk as <-. rewrite (sf_start _ _ Hfc), (sf_hard_end _ _ Hfc) in Hy.
    cbn -[reserved] in Hy. rewrite Hown by lia.
    destruct (Z.leb_spec p y), (Z.ltb_spec y (p + 8 * reserved size)); cbn [andb]; try lia; done.
  - destruct (Hinv x k Hk Hne) as (k0 & Hk0 & Hf). rewrite (sf_start _ _ Hf), (sf_hard_end _ _ Hf) in Hy.
    assert (x ∈ l) as Hxl by (by eapply elem_of_snoc_ne).
    destruct (segments_lookup _ _ _ _ _ _ Hsegs Hxl) as (k1 & Hk1 & _ & ? & ?).
    assert (k1 = k0) as -> by congruence. rewrite Hown by lia.
    destruct (Z.leb_spec p y); [lia |]. by apply (Howner x k0).
Qed.

(** What a new segment of [size] words at [p] with the header [c] changes of the world: the spaces other than
    [i], the headers of other spaces and the entries of the region table for other addresses stay. *)
Record segment_taken (i : nat) (l : list Z) (c p size : Z) (w w' : world) : Prop := {
  st_limits : limits w' = limits w;
  st_bitmap : segment_bitmap w' = segment_bitmap w;
  st_spaces : forall j, j <> i -> spaces w' !! j = spaces w !! j;
  st_headers : forall x, x ∉ c :: l -> headers w' !! x = headers w !! x;
  st_data : GenQueue.same_data (<[c := new_header (Z.of_nat i) p size]> (headers w)) (headers w');
  st_table : CompactData._region_start (summary_data w') = CompactData._region_start (summary_data w) /\
             CompactData.region_count (summary_data w') = CompactData.region_count (summary_data w);
  st_owner : forall x, CompactData._region_start (summary_data w) <= x -> owner (summary_data w') x =
    if (p <=? x) && (x <? p + 8 * reserved size) then Some c else owner (summary_data w) x;
  st_base : ObjectStartArray.base (start_array w') = ObjectStartArray.base (start_array w)
}.

(** The space with its top moved and its pool adjusted. *)
Definition segment_pushed (g g' : CGRPSpace) (w : world) (size : Z) : Prop :=
  _space g' = MutableSpace.set_top (_space g) (MutableSpace._top (_space g) + 8 * reserved size) /\
  _type g' = _type g /\ _pool g' = pool_after g w (MutableSpace._top (_space g)).

(** The run of [push_container]. *)
Lemma push_run i g w l B N starts size d a q h :
  let p := MutableSpace._top (_space g) in
  let c := segment_header w p size in
  space_core i g w l B N starts -> 0 < size < 2 ^ 60 -> recyclable w l p size -> c <> NULL ->
  reserved size <= MutableSpace.free_in_words (_space g) ->
  CompactData.install_bda_container c (new_header (Z.of_nat i) p size) (summary_data w) = Some (tt, d) ->
  ObjectStartArray.allocate_block (start_array w) p = Some a ->
  GenQueue.enqueue (_containers g) c (<[c := new_header (Z.of_nat i) p size]> (headers w)) = Some (q, h) ->
  push_container (Z.of_nat i) size w =
    Some (c, mkWorld (limits w) (<[i := grown (with_pool g (pool_after g w p)) size q]> (spaces w)) (segment_bitmap w) a d h).
Proof.
  intros p c [Hg Hi [Ht Hv] Hwf _ _ _ Hcov Hrange _ _ _] Hs Hrec Hcn Hroom Hd Ha Hq.
  destruct (MutableSpace.allocate_fits (_space g) (reserved size) Hwf) as [Hcas Hwf'];
    [destruct (reserved_spec size Hs); lia |].
  pose proof Hwf as [Ho Hal]. rewrite (MutableSpace.free_eq _ Hwf) in Hroom. fold p in Hroom, Ho, Hal, Hcas, Hwf'.
  destruct (reserved_spec size Hs) as (Hr & Hrm & Hr'). destruct Hrange as (Hb0 & Hbr & Hbm & Hem & Hel).
  unfold CGRPSpace.push_container. fold (reserved size). mrun (at_run _ _ _ Hg). unfold container_type.
  destruct (Z.eqb_spec (_type g) (region_start_ptr regions)); [done |]. cbn [negb].
  unfold space_cas_allocate. rewrite !M_bind_assoc. mrun (at_run _ _ _ Hg).
  rewrite Hcas. rewrite M_bind_assoc. mrun (update_run _ _ _ _ Hg). rewrite M_ret_bind.
  destruct (Z.eqb_spec p NULL); [unfold NULL in *; lia |].
  set (g1 := with_space g _). set (w1 := set_spaces w (<[i := g1]> (spaces w))).
  assert (spaces w1 !! i = Some g1) as Hg1
    by (cbn; apply list_lookup_insert_eq; by eapply lookup_lt_Some).
  erewrite M_bind_Some; [| eapply (reuse_run i g1 w1 l p size d a)];
    [| exact Hg1 | done | done | done | done | clear - Ho; lia | exact Hcov | cbn; clear - Hbr Ho; lia
     | cbn; clear - Hroom Ho Hel; lia | exact Hrec | exact Hd | exact Ha].
  change (segment_header w1 p size) with c. destruct (Z.eqb_spec c NULL); [done |]. cbn [negb]. rewrite when_true.
  set (g2 := with_pool g1 _). set (w2 := set_array _ _).
  assert (spaces w2 !! i = Some g2) as Hg2.
  { cbn. apply list_lookup_insert_eq. rewrite length_insert. by eapply lookup_lt_Some. }
  unfold on_containers. rewrite !M_bind_assoc. erewrite M_bind_Some; [| apply at_run; exact Hg2].
  rewrite M_bind_assoc. erewrite M_bind_Some; [| apply on_headers_run; rewrite (M_bind_Some _ _ _ _ _ Hq); done].
  cbv beta iota. rewrite M_bind_assoc. erewrite M_bind_Some; [| apply update_run; exact Hg2].
  rewrite M_ret_bind, M_ret_run.
  do 2 f_equal. subst w2. unfold set_spaces, set_headers, set_array, set_data; cbn. by rewrite !list_insert_insert_eq.
Qed.

(** A new segment keeps the invariant. *)
Lemma push_segment i g w l B N starts size :
  let p := MutableSpace._top (_space g) in
  let c := segment_header w p size in
  space_core i g w l B N starts -> 0 < size < 2 ^ 60 -> recyclable w l p size ->
  reserved size <= MutableSpace.free_in_words (_space g) ->
  exists g' w', push_container (Z.of_nat i) size w = Some (c, w') /\
    space_core i g' w' (l ++ [c]) (with_segment B c p size) N (starts ++ [p]) /\ segment_pushed g g' w size /\
    segment_taken i l c p size w w'.
Proof.
  intros p c Hcore Hs Hrec Hroom.
  destruct (push_registers i g w l B N starts size c Hcore Hs Hroom)
    as (d & a & Hd & Ha & Hcd & Hrs & Hrc & Hown & Hwfa & Hreca & Hba).
  fold p in Hd, Ha, Hown, Hreca.
  pose proof Hcore as [Hg Hi Ht Hwf [Hlk Hcnt] Hsegs Hbl Hcov Hrange Howner Harr Hst].
  destruct (segment_header_ok w l p size Hrec) as [Hcn Hcl]; [intros x Hx; destruct Hlk; by eapply GenQueue.dll_lookup |].
  fold c in Hcn, Hcl. set (k := new_header (Z.of_nat i) p size) in *.
  assert (GenQueue.linked (<[c := k]> (headers w)) (_containers g) l) as Hlk1.
  { destruct Hlk as [? ? Hdll ? ?]. split; try done. by apply GenQueue.dll_insert_other. }
  destruct (GenQueue.enqueue_run (<[c := k]> (headers w)) (_containers g) l c k Hlk1 Hcl Hcn
    ltac:(apply lookup_insert_eq) eq_refl) as (h & Hq & Hlk2 & Hsame & Hframe).
  set (q := GenQueue.mkGenQueue c _ _) in *. apply same_data_pushed in Hsame as Hpu.
  exists (grown (with_pool g (pool_after g w p)) size q). eexists. split; [exact (push_run i g w l B N starts size d a q h Hcore Hs Hrec Hcn Hroom Hd Ha Hq) |].
  destruct (MutableSpace.allocate_fits (_space g) (reserved size) Hwf) as [_ Hwf'];
    [destruct (reserved_spec size Hs); lia |].
  pose proof Hwf as [Ho _]. destruct Hrange as (Hb0 & Hbr & Hrange). fold p in Ho, Hwf', Hsegs.
  split; [| split; [done | split; try done]].
  2: { intros j Hj. cbn. by rewrite list_lookup_insert_ne by done. }
  2: { intros x Hx. cbn. rewrite Hframe by done. apply lookup_insert_ne. intros <-. apply Hx. by left. }
  2: { intros x Hx. cbn. by rewrite Hown by lia. }
  split; cbn [spaces headers summary_data start_array grown with_containers with_space with_pool _space _type _containers]; try (exact Hwf'); try done.
  - apply list_lookup_insert_eq. by eapply lookup_lt_Some.
  - split; [done |]. subst q. cbn. rewrite Hcnt, length_app. rewrite swrap_add by lia. f_equal. simpl. lia.
  - cbn. fold p. by apply (pushed_segments (headers w)).
  - eapply pushed_blocks; [done | lia | done].
  - cbn. rewrite Hrs, Hrc. done.
  - eapply (pushed_owner (headers w) h (summary_data w)); try done; [lia |]. by rewrite <- Hrs.
  - cbn. rewrite Hba. destruct Harr as (_ & _ & ? & ?). done.
  - intros x b Hx. unfold with_segment. rewrite elem_of_app. destruct (decide (x = c)) as [-> | Hne]; intros Hb.
    + apply list_elem_of_singleton in Hb as ->. right. by left.
    + left. apply (Hst x); [by eapply elem_of_snoc_ne | done].
Qed.

(** Memory that no container had before gets a new header. *)
Lemma fresh_segment_header i g w l B N starts size :
  let p := MutableSpace._top (_space g) in
  space_inv i g w l B N starts -> 0 < size < 2 ^ 60 -> reserved size <= MutableSpace.free_in_words (_space g) ->
  registered w p = NULL.
Proof.
  intros p Hinv Hs Hroom. destruct (reserved_spec size Hs) as (Hr & _).
  pose proof (si_wf _ _ _ _ _ _ _ Hinv) as Hwf. rewrite (MutableSpace.free_eq _ Hwf) in Hroom. pose proof Hwf as [Ho _].
  unfold registered. rewrite (si_free _ _ _ _ _ _ _ Hinv); [done |]. subst p. lia.
Qed.

(** There the memory above the top stays without headers, and nothing outside the space changes. *)
Lemma push_room i g w l B N starts size :
  let p := MutableSpace._top (_space g) in
  let c := AllocateHeap (headers w) in
  space_inv i g w l B N starts -> 0 < size < 2 ^ 60 ->
  reserved size <= MutableSpace.free_in_words (_space g) ->
  exists g' w', push_container (Z.of_nat i) size w = Some (c, w') /\
    space_inv i g' w' (l ++ [c]) (with_segment B c p size) N (starts ++ [p]) /\ advanced g g' size /\
    outside i g w w' /\
    GenQueue.same_data (<[c := new_header (Z.of_nat i) p size]> (headers w)) (headers w').
Proof.
  intros p c Hinv Hs Hroom. pose proof (fresh_segment_header i g w l B N starts size Hinv Hs Hroom) as E. fold p in E.
  assert (segment_header w p size = c) as Ec by (unfold segment_header; by rewrite E).
  destruct (push_segment i g w l B N starts size (inv_core _ _ _ _ _ _ _ Hinv) Hs (or_introl E) Hroom)
    as (g' & w' & Hrun & Hcore & (Hsp & Hty & Hpool) & [Hlim Hbm Hspaces Hh Hdata Htab Hown Hbase]).
  fold p in Hrun, Hcore, Hsp, Hpool, Hh, Hdata, Hown. rewrite Ec in Hrun, Hcore, Hh, Hdata, Hown.
  unfold pool_after in Hpool. rewrite E, Z.eqb_refl in Hpool.
  pose proof (si_wf _ _ _ _ _ _ _ Hinv) as Hwf. rewrite (MutableSpace.free_eq _ Hwf) in Hroom. pose proof Hwf as [Ho _].
  destruct (reserved_spec size Hs) as (Hr & _). fold p in Hroom, Ho. destruct (si_range _ _ _ _ _ _ _ Hinv) as (_ & Hbr & _).
  exists g', w'. split; [done |]. split; [| split; [done |]; split; [split; try done | done]].
  - apply core_inv; [done |]. rewrite Hsp. cbn [MutableSpace._top MutableSpace._end MutableSpace.set_top]. fold p. intros x Hx. rewrite Hown by lia.
    destruct (Z.ltb_spec x (p + 8 * reserved size)); [lia |]. rewrite andb_false_r.
    apply (si_free _ _ _ _ _ _ _ Hinv). fold p. lia.
  - intros x kx Hx Hid. rewrite Hh; [done |]. intros [-> | Hin]%elem_of_cons; [| by eapply inv_space_id].
    subst c. destruct (Halloc (headers w)). congruence.
  - intros x Hx Hout. rewrite Hown by lia.
    destruct (Z.leb_spec p x), (Z.ltb_spec x (p + 8 * reserved size)); cbn [andb]; try done. lia.
Qed.

(** ** The segments of one container *)

(** The headers [ch] are chained by [_next_segment] from [c] to the last. *)
Fixpoint chain (h : heap) (c : Z) (ch : list Z) : Prop :=
  match ch with
  | [] => c = NULL
  | x :: ch => c = x /\ x <> NULL /\ exists k, h !! x = Some k /\ chain h (_next_segment k) ch
  end.

Lemma chain_unique h c a b : chain h c a -> chain h c b -> a = b.
Proof.
  revert c b. induction a as [| x a IH]; intros c [| y b]; simpl; [done | | |].
  - intros -> (<- & ? & _). done.
  - intros (-> & ? & _) ->. done.
  - intros (-> & _ & k & Hk & Ha) (<- & _ & k' & Hk' & Hb). assert (k' = k) as -> by congruence.
    f_equal. by eapply IH.
Qed.

Lemma chain_suffix h c a x b : chain h c (a ++ x :: b) -> chain h x (x :: b).
Proof.
  revert c. induction a as [| y a IH]; intros c; simpl.
  - intros (-> & ? & ?). done.
  - intros (_ & _ & k & _ & Ha). by eapply IH.
Qed.

Lemma chain_NoDup h c ch : chain h c ch -> NoDup ch.
Proof.
  revert c. induction ch as [| x ch IH]; intros c Hc; [constructor |].
  constructor; [| destruct Hc as (_ & _ & k & _ & Hc); by eapply IH].
  intros (a & b & ->)%list_elem_of_split.
  assert (x :: a ++ x :: b = x :: b) as E.
  { apply (chain_unique h x); [| by apply (chain_suffix h c (x :: a))].
    destruct Hc as (-> & Hc). done. }
  apply (f_equal length) in E. simpl in E. rewrite length_app in E. simpl in E. lia.
Qed.

Lemma chain_lookup h c ch x : chain h c ch -> x ∈ ch -> is_Some (h !! x).
Proof.
  revert c. induction ch as [| y ch IH]; intros c Hc Hx; [by apply elem_of_nil in Hx |].
  destruct Hc as (_ & _ & k & Hk & Hc). apply elem_of_cons in Hx as [-> | Hx]; eauto.
Qed.

Lemma segment_chain_length h c ch : chain h c ch -> (length ch <= size h)%nat.
Proof.
  intros Hc. apply length_headers; [by eapply chain_NoDup |]. intros x. by eapply chain_lookup.
Qed.

(** The block fits below the end of the segment. *)
Definition fits (h : heap) (size x : Z) : Prop :=
  exists k, h !! x = Some k /\ _top k + 8 * size < _end k.

(** The test of the loop, at headers whose tops are below [limit]. *)
Definition bounded (h : heap) (limit : Z) (ch : list Z) : Prop :=
  forall x k, x ∈ ch -> h !! x = Some k -> 0 <= _top k <= limit.

Local Abbreviation bump_segments := (MutableBDASpace.bump_segments).

(** The loop passes the segments where the block does not fit. *)
Lemma bump_skip w size limit : forall ch1 ch2 c fuel,
  chain (headers w) c (ch1 ++ ch2) -> bounded (headers w) limit ch1 -> 0 < size -> limit + 8 * size < 2 ^ 64 ->
  (forall x, x ∈ ch1 -> ~ fits (headers w) size x) -> ch2 <> [] ->
  bump_segments (length ch1 + fuel) size c c w = bump_segments fuel size (hd NULL ch2) (hd NULL ch2) w.
Proof.
  induction ch1 as [| x ch1 IH]; intros ch2 c fuel Hc Hb Hs Hlim Hno Hne; simpl in Hc.
  - destruct ch2 as [| y ch2]; [done |]. simpl in Hc. by destruct Hc as (-> & _).
  - destruct Hc as (-> & Hx & k & Hk & Hc). cbn [length Nat.add MutableBDASpace.bump_segments].
    erewrite M_bind_Some; [| apply on_headers_read, load_run, Hk].
    pose proof (Hb x k ltac:(by left) Hk). rewrite hw_add_small by lia.
    destruct (Z.ltb_spec (_top k + 8 * size) (_end k)) as [Hlt |].
    { destruct (Hno x ltac:(by left)). by exists k. }
    assert (exists y ch', ch1 ++ ch2 = y :: ch' /\ _next_segment k = y /\ y <> NULL) as (y & ch' & E & En & Hy).
    { destruct (ch1 ++ ch2) as [| y ch'] eqn:E; [by destruct ch1, ch2 |]. exists y, ch'.
      by destruct Hc as (? & ? & _). }
    rewrite En in Hc |- *. destruct (Z.eqb_spec y NULL); [done |].
    apply IH; [done | | done | done | | done].
    + intros z kz Hz. apply Hb. by right.
    + intros z Hz. apply Hno. by right.
Qed.

(** The loop ends at the first segment where the block fits, and takes it there. *)
Lemma bump_hit w size limit ch1 s ch2 c fuel k a :
  chain (headers w) c (ch1 ++ s :: ch2) -> bounded (headers w) limit (ch1 ++ [s]) -> 0 < size ->
  limit + 8 * size < 2 ^ 64 -> (forall x, x ∈ ch1 -> ~ fits (headers w) size x) ->
  headers w !! s = Some k -> _top k + 8 * size < _end k ->
  ObjectStartArray.allocate_block (start_array w) (_top k) = Some a -> (length ch1 < fuel)%nat ->
  bump_segments fuel size c c w =
    Some ((Some (_top k), s),
          set_array (set_headers w (<[s := with_top k (_top k + 8 * size)]> (headers w))) a).
Proof.
  intros Hc Hb Hs Hlim Hno Hk Hfit Ha Hf.
  replace fuel with (length ch1 + S (fuel - length ch1 - 1))%nat by lia.
  rewrite (bump_skip w size limit ch1 (s :: ch2));
    [| done | intros x kx Hx; apply Hb; apply elem_of_app; by left | done | done | done | done].
  cbn [hd MutableBDASpace.bump_segments].
  erewrite M_bind_Some; [| apply on_headers_read, load_run, Hk].
  pose proof (Hb s k ltac:(apply elem_of_app; right; by left) Hk). rewrite hw_add_small by lia.
  destruct (Z.ltb_spec (_top k + 8 * size) (_end k)); [| lia].
  erewrite M_bind_Some; [| apply on_headers_run, store_run, Hk].
  unfold allocate_block at 1. unfold mbind at 1, M_bind at 1. cbn [start_array set_headers].
  by rewrite Ha.
Qed.

(** Where the block fits nowhere, the loop ends at the last segment. *)
Lemma bump_miss w size limit ch s c fuel :
  chain (headers w) c (ch ++ [s]) -> bounded (headers w) limit (ch ++ [s]) -> 0 < size ->
  limit + 8 * size < 2 ^ 64 -> (forall x, x ∈ ch ++ [s] -> ~ fits (headers w) size x) -> (length ch < fuel)%nat ->
  bump_segments fuel size c c w = Some ((None, s), w).
Proof.
  intros Hc Hb Hs Hlim Hno Hf. replace fuel with (length ch + S (fuel - length ch - 1))%nat by lia.
  rewrite (bump_skip w size limit ch [s]);
    [| done | intros x kx Hx; apply Hb; apply elem_of_app; by left | done | done
     | intros x Hx; apply Hno; apply elem_of_app; by left | done].
  apply chain_suffix in Hc as (_ & _ & k & Hk & Hn). simpl in Hn.
  cbn [hd MutableBDASpace.bump_segments].
  erewrite M_bind_Some; [| apply on_headers_read, load_run, Hk].
  assert (s ∈ ch ++ [s]) as Hin by (apply elem_of_app; right; by left).
  pose proof (Hb s k Hin Hk). rewrite hw_add_small by lia.
  destruct (Z.ltb_spec (_top k + 8 * size) (_end k)); [destruct (Hno s Hin); by exists k |].
  by rewrite Hn.
Qed.

(** The tops of the segments of a space are below its end. *)
Lemma inv_bounded i g w l B N starts ch :
  space_inv i g w l B N starts -> (forall x, x ∈ ch -> x ∈ l) ->
  bounded (headers w) (MutableSpace._end (_space g)) ch.
Proof.
  intros [Hg _ _ [Ho _] _ Hsegs _ _ _ _ _ _ _] Hl x k Hx Hk.
  destruct (segments_lookup _ _ _ _ _ _ Hsegs (Hl x Hx)) as (k' & Hk' & [? _ _ _] & ? & ?).
  assert (k' = k) as -> by congruence. lia.
Qed.

Lemma filled_mod p bl q : filled p bl q -> (q - p) mod 8 = 0.
Proof.
  revert p. induction bl as [| b bl IH]; intros p; simpl; [intros ->; by rewrite Z.sub_diag |].
  intros (_ & _ & H%IH). lia.
Qed.

Lemma segments_mod h i p l q c k : segments h i p l q -> c ∈ l -> h !! c = Some k -> (_start k - p) mod region_span = 0.
Proof.
  revert p. induction l as [| x l IH]; intros p Hs Hc Hk; [by apply elem_of_nil in Hc |].
  destruct Hs as (kx & Hkx & <- & [_ _ _ [_ Hm]] & Hs). apply elem_of_cons in Hc as [-> | Hc].
  - assert (kx = k) as -> by congruence. by rewrite Z.sub_diag.
  - specialize (IH _ Hs Hc Hk). unfold region_span in *. lia.
Qed.

(** The top of a segment is a word of the generation. *)
Lemma inv_covered i g w l B N starts c k :
  space_inv i g w l B N starts -> c ∈ l -> headers w !! c = Some k -> _top k < _hard_end k ->
  ObjectStartArray.covered (start_array w) N (_top k).
Proof.
  intros [Hg _ _ [Ho Ha] _ Hsegs Hbl _ _ _ _ (_ & _ & Hb & He) _] Hc Hk Hlt.
  destruct (segments_lookup _ _ _ _ _ _ Hsegs Hc) as (k' & Hk' & [? _ _ _] & ? & ?).
  assert (k' = k) as -> by congruence. pose proof (filled_mod _ _ _ (Hbl c k Hc Hk)) as H8.
  pose proof (segments_mod _ _ _ _ _ _ _ Hsegs Hc Hk) as Hm. unfold region_span in Hm.
  split; [lia |]. clear - H8 Hm Ha. lia.
Qed.

(** A header [k'] for [k]: only the top and the links between segments may differ. *)
Record retopped (k k' : container) : Prop := {
  rt_start : _start k' = _start k;
  rt_end : _end k' = _end k;
  rt_hard_end : _hard_end k' = _hard_end k;
  rt_space_id : _space_id k' = _space_id k;
  rt_next : _next k' = _next k;
  rt_previous : _previous k' = _previous k
}.

(** The invariant after such a change of the headers, with new blocks and starts. *)
Lemma inv_retop i g w l B N starts h a B' starts' :
  space_inv i g w l B N starts ->
  (forall x k, x ∈ l -> headers w !! x = Some k -> exists k', h !! x = Some k' /\ retopped k k' /\
     _start k <= _top k' <= _hard_end k /\ filled (_start k) (B' x) (_top k')) ->
  ObjectStartArray.wf a N -> ObjectStartArray.records a N starts' ->
  ObjectStartArray.base a = ObjectStartArray.base (start_array w) ->
  (forall c b, c ∈ l -> b ∈ B' c -> fst b ∈ starts') ->
  space_inv i g (set_array (set_headers w h) a) l B' N starts'.
Proof.
  intros [Hg Hi Ht Hwf [[Hnd Hnn Hd Hr He] Hcnt] Hsegs Hbl Hcov Hrange Hfree Howner Harr Hst] Hf Hwfa Hreca Hba Hst'.
  assert (forall x k', x ∈ l -> h !! x = Some k' -> exists k, headers w !! x = Some k /\ retopped k k' /\
     filled (_start k) (B' x) (_top k')) as Hf'.
  { intros x k' Hx Hk'. destruct (GenQueue.dll_lookup _ _ _ _ x Hd Hx) as [k Hk].
    destruct (Hf x k Hx Hk) as (k2 & Hk2 & Hrt & _ & Hfl). assert (k2 = k') as -> by congruence. eauto. }
  split; cbn [spaces headers summary_data start_array set_array set_headers]; try done.
  - split; [split; try done | done]. eapply GenQueue.dll_frame; [| exact Hd].
    intros x Hx k Hk. destruct (Hf x k Hx Hk) as (k' & Hk' & Hrt & _). exists k'.
    split; [done |]. split; apply Hrt.
  - eapply segments_frame; [exact Hsegs |]. intros x k Hx Hk [_ He' Hid Hsz].
    destruct (Hf x k Hx Hk) as (k' & Hk' & [E1 E2 E3 E4 _ _] & Htop & _). exists k'. split_and!; try done.
    split; rewrite ?E1, ?E2, ?E3, ?E4; done.
  - intros x k' Hx Hk'. destruct (Hf' x k' Hx Hk') as (k & Hk & Hrt & Hfl). by rewrite (rt_start _ _ Hrt).
  - intros x k' y Hx Hk'. destruct (Hf' x k' Hx Hk') as (k & Hk & Hrt & _).
    rewrite (rt_start _ _ Hrt), (rt_hard_end _ _ Hrt). by apply Howner.
  - rewrite Hba. destruct Harr as (_ & _ & ? & ?). done.
Qed.

(** A block taken at the top of the segment [s] keeps the invariant. *)
Lemma inv_bump i g w l B N starts s k size a :
  space_inv i g w l B N starts -> s ∈ l -> headers w !! s = Some k -> 0 < size ->
  _top k + 8 * size <= _hard_end k ->
  ObjectStartArray.wf a N -> ObjectStartArray.records a N (starts ++ [_top k]) ->
  ObjectStartArray.base a = ObjectStartArray.base (start_array w) ->
  space_inv i g (set_array (set_headers w (<[s := with_top k (_top k + 8 * size)]> (headers w))) a) l
    (with_block B s (_top k) size) N (starts ++ [_top k]).
Proof.
  intros Hinv Hs Hk Hsz Hfit Hwfa Hreca Hba. pose proof Hinv as [_ _ _ _ _ Hsegs Hbl _ _ _ _ _ Hst].
  apply (inv_retop i g w l B N starts); try done.
  - intros x kx Hx Hkx. unfold with_block. destruct (segments_lookup _ _ _ _ _ _ Hsegs Hx) as (k0 & Hk0 & [Htop _ _ _] & _).
    assert (k0 = kx) as -> by congruence. destruct (decide (x = s)) as [-> | Hne].
    + assert (kx = k) as -> by congruence. exists (with_top k (_top k + 8 * size)).
      split; [apply lookup_insert_eq |]. split; [done |]. split; [cbn; lia |]. cbn [_top with_top].
      apply filled_snoc; [by apply Hbl | done].
    + exists kx. rewrite lookup_insert_ne by done. split_and!; try done; [lia | lia | by apply Hbl].
  - intros c b Hc. unfold with_block. rewrite elem_of_app. destruct (decide (c = s)) as [-> | Hne]; intros Hb.
    + apply elem_of_app in Hb as [Hb | ->%list_elem_of_singleton]; [left; by eapply Hst | right; by left].
    + left. by eapply Hst.
Qed.

(** Links between segments do not matter. *)
Lemma inv_link i g w l B N starts x k f :
  space_inv i g w l B N starts -> headers w !! x = Some k ->
  retopped k (f k) -> _top (f k) = _top k ->
  space_inv i g (set_headers w (<[x := f k]> (headers w))) l B N starts.
Proof.
  intros Hinv Hk Hrt Htop. pose proof Hinv as [_ _ _ _ _ Hsegs Hbl _ _ _ _ (Hwfa & Hreca & _) Hst].
  replace (set_headers w (<[x := f k]> (headers w)))
    with (set_array (set_headers w (<[x := f k]> (headers w))) (start_array w)) by (by destruct w).
  apply (inv_retop i g w l B N starts); try done.
  intros y ky Hy Hky. destruct (segments_lookup _ _ _ _ _ _ Hsegs Hy) as (k0 & Hk0 & [Ht _ _ _] & _).
  assert (k0 = ky) as -> by congruence. destruct (decide (y = x)) as [-> | Hne].
  - assert (ky = k) as -> by congruence. exists (f k). rewrite lookup_insert_eq, Htop.
    split_and!; try done; [lia | lia | by apply Hbl].
  - exists ky. rewrite lookup_insert_ne by done. split_and!; try done; [lia | lia | by apply Hbl].
Qed.

(** A chain with a new last segment [c']. *)
Lemma segment_chain_snoc h h' s c' k ks : forall ch c,
  chain h c (ch ++ [s]) -> (forall x, x ∈ ch -> x <> s -> exists k k', h !! x = Some k /\ h' !! x = Some k' /\
     _next_segment k' = _next_segment k) ->
  s ∉ ch -> h' !! s = Some ks -> _next_segment ks = c' -> c' <> NULL -> h' !! c' = Some k -> _next_segment k = NULL ->
  chain h' c ((ch ++ [s]) ++ [c']).
Proof.
  induction ch as [| x ch IH]; intros c Hc Hf Hs Hks Hn Hc' Hk Hkn; simpl in *.
  - destruct Hc as (-> & Hs0 & _). split; [done |]. split; [done |]. exists ks. split; [done |].
    rewrite Hn. split; [done |]. split; [done |]. by exists k.
  - apply not_elem_of_cons in Hs as [Hne Hs].
    destruct Hc as (-> & Hx & kx & Hkx & Hc). split; [done |]. split; [done |].
    destruct (Hf x ltac:(by left)) as (k1 & k2 & Hk1 & Hk2 & E); [congruence |].
    assert (k1 = kx) as -> by congruence. exists k2. split; [done |]. rewrite E.
    apply IH; try done. intros y Hy. apply Hf. by right.
Qed.

(** The headers after [c] was made and linked after the segment [s]. *)
Definition linked_after (h h' : heap) (s c : Z) : Prop :=
  (exists k, h' !! s = Some k /\ _next_segment k = c) /\
  (exists k, h' !! c = Some k /\ _next_segment k = NULL) /\
  (forall x k, h !! x = Some k -> x <> s -> exists k', h' !! x = Some k' /\ _next_segment k' = _next_segment k).

Local Abbreviation allocate_new_segment :=
  (allocate_new_segment regions segment_sz filler_header_size shift AllocateHeap junk).

(** A new segment linked after the last one of a container. *)
Lemma new_segment_room i g w l B N starts size ch s c0 :
  let p := MutableSpace._top (_space g) in
  let c := AllocateHeap (headers w) in
  space_inv i g w l B N starts -> 0 < size < 2 ^ 60 ->
  reserved size <= MutableSpace.free_in_words (_space g) ->
  chain (headers w) c0 (ch ++ [s]) -> s ∈ l ->
  exists g' w', allocate_new_segment (Z.of_nat i) size s w = Some ((p, c), w') /\
    space_inv i g' w' (l ++ [c]) (with_segment B c p size) N (starts ++ [p]) /\ advanced g g' size /\
    outside i g w w' /\ linked_after (headers w) (headers w') s c /\
    chain (headers w') c0 ((ch ++ [s]) ++ [c]).
Proof.
  intros p c Hinv Hs Hroom Hch Hsl. destruct (Halloc (headers w)) as [Hcn Hcf]. fold c in Hcn, Hcf.
  destruct (push_room i g w l B N starts size Hinv Hs Hroom) as (g' & w1 & Hpush & Hinv1 & Hadv & Hout & Hsame).
  fold p c in Hpush, Hinv1, Hsame. set (k := new_header (Z.of_nat i) p size) in *.
  destruct (same_data_pushed _ _ _ _ Hsame) as [(kc & Hkc & Ekc) Hold _]. pose proof (chain_NoDup _ _ _ Hch) as Hnd.
  pose proof (chain_suffix _ _ _ _ _ Hch) as (_ & Hs0 & ks & Hks & Hks0). simpl in Hks0.
  assert (s <> c) as Hsc by congruence. destruct (Hold s ks Hks Hsc) as (ks' & Hks' & Eks).
  assert (_next_segment ks' = NULL) as Hks1 by (by rewrite (sf_next_segment _ _ Eks)).
  set (h1 := <[s := with_next_segment ks' c]> (headers w1)).
  set (h2 := <[c := with_prev_segment kc s]> h1).
  assert (h1 !! c = Some kc) as Hkc1 by (subst h1; by rewrite lookup_insert_ne).
  assert (linked_after (headers w) h2 s c) as Hla.
  { subst h2 h1. split; [| split].
    - exists (with_next_segment ks' c). by rewrite lookup_insert_ne, lookup_insert_eq by done.
    - exists (with_prev_segment kc s). rewrite lookup_insert_eq. split; [done |]. cbn. by rewrite (sf_next_segment _ _ Ekc).
    - intros x kx Hkx Hxs. assert (x <> c) as Hxc by congruence.
      destruct (Hold x kx Hkx Hxc) as (kx' & Hkx' & Ex). exists kx'. rewrite !lookup_insert_ne by done. split; [done | apply Ex]. }
  exists g', (set_headers (set_headers w1 h1) h2). split; [| split; [| split; [done | split; [| split; [exact Hla |]]]]].
  - unfold CGRPSpace.allocate_new_segment. mrun Hpush. destruct (Z.eqb_spec c NULL); [done |]. cbn [negb].
    rewrite M_gets_bind. erewrite M_bind_Some; [| apply on_headers_run; cbn [link_segment];
      erewrite M_bind_Some; [| apply field_run, Hks']; rewrite Hks1, Z.eqb_refl;
      erewrite M_bind_Some; [done | apply store_run, Hks']].
    erewrite M_bind_Some; [| apply on_headers_run, store_run, Hkc1].
    erewrite M_bind_Some; [| apply on_headers_read, field_run; apply lookup_insert_eq].
    rewrite M_ret_run. cbn [_start with_prev_segment]. by rewrite (sf_start _ _ Ekc).
  - apply (inv_link i g' (set_headers w1 h1) _ _ _ _ c kc (fun k => with_prev_segment k s)); try done.
    by apply (inv_link i g' w1 _ _ _ _ s ks' (fun k => with_next_segment k c)).
  - destruct Hout as [? ? ? Hh ? ? ?]. split; try done. intros x kx Hx Hid. subst h2 h1. cbn.
    rewrite !lookup_insert_ne; [by apply Hh | | congruence]. intros <-. by eapply (inv_space_id i g w l).
  - destruct Hla as ((k1 & Hk1 & En1) & (k2 & Hk2 & En2) & Hla).
    apply (segment_chain_snoc (headers w) h2 s c k2 k1); try done.
    + intros x Hx Hxs. destruct (chain_lookup _ _ _ x Hch ltac:(apply elem_of_app; by left)) as [kx Hkx].
      destruct (Hla x kx Hkx Hxs) as (kx' & Hkx' & E). by exists kx, kx'.
    + apply NoDup_app in Hnd as (_ & Hnd & _). intros Hi. apply (Hnd s Hi). by left.
Qed.

Lemma new_segment_full i g w l B N starts size s :
  space_inv i g w l B N starts -> MutableSpace.free_in_words (_space g) < reserved size ->
  allocate_new_segment (Z.of_nat i) size s w = Some ((NULL, s), w).
Proof. intros Hinv Hfull. unfold CGRPSpace.allocate_new_segment. by mrun (push_full _ _ _ _ _ _ _ _ (inv_core _ _ _ _ _ _ _ Hinv) Hfull). Qed.

(** ** Allocation *)

Local Abbreviation allocate_element :=
  (MutableBDASpace.allocate_element regions segment_sz filler_header_size shift AllocateHeap junk).

(** Once the loop has found no room, a new segment in the space [i], or else in the
    first space. *)
Lemma element_extends i g w l B N starts size ch s c :
  space_inv i g w l B N starts -> 0 < size < 2 ^ 60 -> MutableSpace._end (_space g) + 8 * size < 2 ^ 64 ->
  chain (headers w) c (ch ++ [s]) -> (forall x, x ∈ ch ++ [s] -> x ∈ l) ->
  (forall x, x ∈ ch ++ [s] -> ~ fits (headers w) size x) ->
  allocate_element size c w =
    (r ← allocate_new_segment (Z.of_nat i) size s;
     if fst r =? NULL then allocate_new_segment 0 size (snd r) else mret r) w.
Proof.
  intros Hinv Hs Hlim Hch Hin Hno. unfold MutableBDASpace.allocate_element. rewrite M_gets_bind.
  erewrite M_bind_Some; [| eapply (bump_miss w size (MutableSpace._end (_space g)) ch s);
    [done | by eapply inv_bounded | lia | lia | done |]].
  2: { pose proof (segment_chain_length _ _ _ Hch) as Hle. rewrite length_app in Hle. simpl in Hle. unfold header_count. lia. }
  assert (s ∈ l) as Hsl by (apply Hin; apply elem_of_app; right; by left).
  pose proof Hinv as [_ _ _ _ _ Hsegs _ _ _ _ _ _ _].
  destruct (segments_lookup _ _ _ _ _ _ Hsegs Hsl) as (ks & Hks & [_ _ Hid _] & _).
  unfold MutableBDASpace.extend_container.
  erewrite M_bind_Some; [| apply on_headers_read, field_run, Hks]. by rewrite Hid.
Qed.

(** The search for a type that one space has. *)
Lemma find_loop_run : forall l n i g,
  l !! i = Some g -> (forall j g', l !! j = Some g' -> _type g' = _type g -> j = i) ->
  MutableBDASpace.find_loop l n (_type g) = n + Z.of_nat i.
Proof.
  induction l as [| g0 l IH]; intros n i g Hi Hu; [done |]. cbn [MutableBDASpace.find_loop].
  unfold equals. destruct (Z.eqb_spec (_type g) (_type g0)) as [E | E].
  - rewrite <- (Hu O g0 eq_refl (eq_sym E)). lia.
  - destruct i as [| i]; [by injection Hi as -> |]. rewrite (IH (n + 1) i g Hi); [lia |].
    intros j g' Hg' Et. specialize (Hu (S j) g' Hg' Et). lia.
Qed.

Local Abbreviation allocate_container :=
  (MutableBDASpace.allocate_container regions segment_sz filler_header_size shift AllocateHeap junk).

(** The space of a type gets the segment. *)
Lemma container_run i g w size c w' :
  spaces w !! i = Some g -> (forall j g', spaces w !! j = Some g' -> _type g' = _type g -> j = i) ->
  push_container (Z.of_nat i) size w = Some (c, w') ->
  allocate_container size (_type g) w = if c =? NULL then push_container 0 size w' else Some (c, w').
Proof.
  intros Hg Htype Hrun. unfold MutableBDASpace.allocate_container, MutableBDASpace.find.
  rewrite M_bind_assoc, M_get_bind, M_ret_bind, (find_loop_run _ _ i g Hg Htype), Z.add_0_l.
  mrun Hrun. by destruct (c =? NULL).
Qed.

Lemma container_pushes i g w l B N starts size :
  let p := MutableSpace._top (_space g) in
  let c := AllocateHeap (headers w) in
  space_inv i g w l B N starts -> 0 < size < 2 ^ 60 ->
  (forall j g', spaces w !! j = Some g' -> _type g' = _type g -> j = i) ->
  reserved size <= MutableSpace.free_in_words (_space g) ->
  exists g' w', allocate_container size (_type g) w = Some (c, w') /\
    space_inv i g' w' (l ++ [c]) (with_segment B c p size) N (starts ++ [p]) /\ advanced g g' size /\
    outside i g w w' /\
    GenQueue.same_data (<[c := new_header (Z.of_nat i) p size]> (headers w)) (headers w').
Proof.
  intros p c Hinv Hs Htype Hroom.
  destruct (push_room i g w l B N starts size Hinv Hs Hroom) as (g' & w' & Hrun & Hrest).
  exists g', w'. rewrite (container_run i g w size _ w' (si_space _ _ _ _ _ _ _ Hinv) Htype Hrun). fold p c. split; [| done].
  destruct (Z.eqb_spec c NULL); [by destruct (Halloc (headers w)) | done].
Qed.

Section Element.
Context (i : nat) (g : CGRPSpace) (w : world) (l : list Z) (B : Z -> list (Z * Z)) (N : Z) (starts : list Z).
Context (size : Z) (ch : list Z) (s c : Z).
Context (Hinv : space_inv i g w l B N starts) (Hs : 0 < size < 2 ^ 60).
Context (Hlim : MutableSpace._end (_space g) + 8 * size < 2 ^ 64).
Context (Hch : chain (headers w) c (ch ++ [s])) (Hin : forall x, x ∈ ch ++ [s] -> x ∈ l).

(** The block in a segment of the chain. *)
Lemma element_hits ch1 x ch2 :
  ch ++ [s] = ch1 ++ x :: ch2 -> (forall y, y ∈ ch1 -> ~ fits (headers w) size y) -> fits (headers w) size x ->
  exists k a w', headers w !! x = Some k /\ allocate_element size c w = Some ((_top k, x), w') /\
    w' = set_array (set_headers w (<[x := with_top k (_top k + 8 * size)]> (headers w))) a /\
    space_inv i g w' l (with_block B x (_top k) size) N (starts ++ [_top k]) /\ outside i g w w'.
Proof using All.
  intros E Hno (k & Hk & Hfit). exists k.
  assert (x ∈ l) as Hxl by (apply Hin; rewrite E; apply elem_of_app; right; by left).
  pose proof Hinv as [_ _ _ _ _ Hsegs _ _ _ _ _ (Hwfa & Hreca & _) _].
  destruct (segments_lookup _ _ _ _ _ _ Hsegs Hxl) as (k' & Hk' & [Ht He _ _] & _).
  assert (k' = k) as -> by congruence.
  destruct (ObjectStartArray.allocate_block_run _ _ _ (_top k) Hwfa Hreca) as (a & Ha & Hwfa' & Hba & _ & _ & Hreca');
    [eapply inv_covered; try done; lia |].
  eexists a, _. split; [done |]. split; [| split; [done |]; split; [eapply inv_bump; try done; lia |]].
  2: { split; try done. intros y ky Hy Hid. cbn. rewrite lookup_insert_ne; [done |]. intros <-. by eapply (inv_space_id i g w l). }
  unfold MutableBDASpace.allocate_element. rewrite M_gets_bind.
  erewrite M_bind_Some; [| eapply (bump_hit w size (MutableSpace._end (_space g)) ch1 x ch2)];
    [done | by rewrite <- E | | lia | lia | done | done | done | done |].
  - eapply inv_bounded; [done |]. intros y Hy. apply Hin. rewrite E.
    apply elem_of_app in Hy as [? | ->%list_elem_of_singleton]; apply elem_of_app; [by left | right; by left].
  - pose proof (segment_chain_length _ _ _ Hch) as Hle. rewrite E, length_app in Hle. simpl in Hle. unfold header_count. lia.
Qed.

(** Or in a new one. *)
Lemma element_grows :
  let p := MutableSpace._top (_space g) in
  let c' := AllocateHeap (headers w) in
  (forall x, x ∈ ch ++ [s] -> ~ fits (headers w) size x) -> reserved size <= MutableSpace.free_in_words (_space g) ->
  exists g' w', allocate_element size c w = Some ((p, c'), w') /\
    space_inv i g' w' (l ++ [c']) (with_segment B c' p size) N (starts ++ [p]) /\ advanced g g' size /\
    outside i g w w' /\ linked_after (headers w) (headers w') s c' /\ chain (headers w') c ((ch ++ [s]) ++ [c']).
Proof using All.
  intros p c' Hno Hroom. rewrite (element_extends _ _ _ _ _ _ _ _ _ _ _ Hinv Hs Hlim Hch Hin Hno).
  destruct (new_segment_room _ _ _ _ _ _ _ _ _ _ _ Hinv Hs Hroom Hch) as (g' & w' & Hrun & Hrest); [apply Hin, elem_of_app; right; by left |].
  exists g', w'. fold p c' in Hrun. mrun Hrun. cbn [fst]. pose proof (si_wf _ _ _ _ _ _ _ Hinv) as [Ho _].
  fold p in Ho. destruct (Z.eqb_spec p NULL); [unfold NULL in *; lia |]. done.
Qed.
End Element.

(** ** The claims *)

(** C7. A new container.  When the space of its class has room for the segment,
    [allocate_container] takes it from the top of the space, with the size asked for
    rounded up to whole segments, and enqueues its header, with the fields reset, at the end of the queue;
    the segments still tile the space, the region table maps every address of the new
    segment to the header and no other address changes hands, the start of the
    first block is recorded, and the other spaces and headers stay.  The header is new when none is registered for
    the memory.  When one is, from before a collection, it is counted off the pool and used again if
    its segment started there; else the one registered for the last word is used, or a new one.  The
    registered headers must not be in the queue, and in a segment larger than the regular size
    there must be only one of them, so that the loop frees none.  When the space has
    no room the container comes from the first space. *)
Theorem allocate_container_spec (i : nat) (g : CGRPSpace) (w : world) (l : list Z) (B : Z -> list (Z * Z))
    (N : Z) (starts : list Z) (size : Z)
    (Hcore : space_core i g w l B N starts) (Hs : 0 < size < 2 ^ 60)
    (Htype : forall j g', spaces w !! j = Some g' -> _type g' = _type g -> j = i) :
  let p := MutableSpace._top (_space g) in
  let c := segment_header w p size in
  (reserved size <= MutableSpace.free_in_words (_space g) -> recyclable w l p size ->
     exists g' w', allocate_container size (_type g) w = Some (c, w') /\
       space_core i g' w' (l ++ [c]) (with_segment B c p size) N (starts ++ [p]) /\
       segment_pushed g g' w size /\ segment_taken i l c p size w w') /\
  (MutableSpace.free_in_words (_space g) < reserved size ->
     allocate_container size (_type g) w = push_container 0 size w).
Proof.
  intros p c. pose proof (sc_space _ _ _ _ _ _ _ Hcore) as Hg. split; intros Hroom.
  - intros Hrec. destruct (push_segment i g w l B N starts size Hcore Hs Hrec Hroom) as (g' & w' & Hrun & Hrest).
    exists g', w'. rewrite (container_run i g w size _ w' Hg Htype Hrun). split; [| done].
    destruct (segment_header_ok w l p size Hrec) as [Hcn _];
      [intros x Hx; destruct (sc_queue _ _ _ _ _ _ _ Hcore) as [[] _]; by eapply GenQueue.dll_lookup |].
    fold p c in Hcn |- *. by destruct (Z.eqb_spec c NULL).
  - by rewrite (container_run i g w size _ w Hg Htype (push_full _ _ _ _ _ _ _ _ Hcore Hroom)).
Qed.

(** C8. An element of a container.  [allocate_element] takes the block at the top of the
    first segment of the container's chain where it fits, and returns that segment;
    when it fits in none, it takes a new segment of the space, linked as the last of the
    chain, which starts with the block; when the space has no room it tries the first
    space.  Either way the blocks handed out tile each segment up to its top, every
    start is recorded, and nothing outside the space changes.  No header is registered for the memory above the
    top of the space. *)
Theorem allocate_element_spec (i : nat) (g : CGRPSpace) (w : world) (l : list Z) (B : Z -> list (Z * Z))
    (N : Z) (starts : list Z) (size : Z) (ch : list Z) (s c : Z)
    (Hinv : space_inv i g w l B N starts) (Hs : 0 < size < 2 ^ 60)
    (Hlim : MutableSpace._end (_space g) + 8 * size < 2 ^ 64)
    (Hch : chain (headers w) c (ch ++ [s])) (Hin : forall x, x ∈ ch ++ [s] -> x ∈ l) :
  (forall ch1 x ch2, ch ++ [s] = ch1 ++ x :: ch2 -> (forall y, y ∈ ch1 -> ~ fits (headers w) size y) ->
     fits (headers w) size x ->
     exists k w', headers w !! x = Some k /\ allocate_element size c w = Some ((_top k, x), w') /\
       space_inv i g w' l (with_block B x (_top k) size) N (starts ++ [_top k]) /\ outside i g w w') /\
  ((forall x, x ∈ ch ++ [s] -> ~ fits (headers w) size x) ->
     let p := MutableSpace._top (_space g) in
     let c' := AllocateHeap (headers w) in
     (reserved size <= MutableSpace.free_in_words (_space g) ->
        exists g' w', allocate_element size c w = Some ((p, c'), w') /\
          space_inv i g' w' (l ++ [c']) (with_segment B c' p size) N (starts ++ [p]) /\ advanced g g' size /\
          outside i g w w' /\
          chain (headers w') c ((ch ++ [s]) ++ [c'])) /\
     (MutableSpace.free_in_words (_space g) < reserved size ->
        allocate_element size c w = allocate_new_segment 0 size s w)).
Proof.
  split.
  - intros ch1 x ch2 E Hno Hfit.
    destruct (element_hits i g w l B N starts size ch s c Hinv Hs Hlim Hch Hin ch1 x ch2 E Hno Hfit) as (k & a & w' & ? & ? & _ & ? & ?).
    by exists k, w'.
  - intros Hno p c'. split; intros Hroom.
    + destruct (element_grows i g w l B N starts size ch s c Hinv Hs Hlim Hch Hin Hno Hroom) as (g' & w' & ? & ? & ? & ? & _ & ?).
      by exists g', w'.
    + rewrite (element_extends _ _ _ _ _ _ _ _ _ _ _ Hinv Hs Hlim Hch Hin Hno).
      by mrun (new_segment_full _ _ _ _ _ _ _ _ _ Hinv Hroom).
Qed.

End Space.

(** ** An instance: a space of two regions *)

Definition sample_regions : BDARegion.table := BDARegion.mkTable 4096 [0; 1; 2; 3].
Definition sample_alloc (h : heap) : Z := fresh ({[NULL]} ∪ dom h).
Definition sample_junk (p : Z) : container := zeroed.
Definition sample_space : CGRPSpace :=
  with_space (CGRPSpace.new 65536 4104 0)
    (MutableSpace.mkMutableSpace 524288 1572864 524288 65536 MemRegion.empty).
Definition sample_array : ObjectStartArray.ObjectStartArray :=
  ObjectStartArray.mkArray (PSVirtualSpace.mkVirtualSpace 4096 8192 12288 8192 12288 false)
    (MemRegion.mkMemRegion 524288 131072) (MemRegion.mkMemRegion 524288 131072)
    (MemRegion.mkMemRegion 8192 256) 8192 (8192 - 1024) ∅.
Definition sample_world : world :=
  mkWorld (MutableSpace.new 65536) [CGRPSpace.new 65536 4100 0; sample_space]
    (ParMarkBitMap.mkParMarkBitMap 0 0 (BitMap.mkBitMap [] 0) (BitMap.mkBitMap [] 0) 0)
    (ObjectStartArray.reset sample_array)
    (CompactData.initialize 65536 (MemRegion.mkMemRegion 524288 327680)) ∅.

Lemma sample_alloc_fresh h : sample_alloc h <> NULL /\ h !! sample_alloc h = None.
Proof.
  unfold sample_alloc. pose proof (is_fresh ({[NULL]} ∪ dom h)) as H.
  apply not_elem_of_union in H as [H1 H2]. split; [by intros E; apply H1; rewrite E; apply elem_of_singleton |].
  by apply not_elem_of_dom.
Qed.

#[local] Existing Instance MutableSpace.wf_dec.
#[local] Existing Instance ObjectStartArray.wf_dec.
#[local] Existing Instance ObjectStartArray.backed_dec.

(** A header is registered for the first region of the space, whose memory is free. *)
Definition sample_recycled : world :=
  let k := new_header 3 16 1 524288 60 in
  match CompactData.install_bda_container 64 k (summary_data sample_world) with
  | Some (_, d) => set_headers (set_data sample_world d) {[64 := k]}
  | None => sample_world
  end.

Lemma sample_core w : w = sample_world \/ w = sample_recycled ->
  space_core sample_regions 3 1 sample_space w [] (fun _ => []) 2048 [].
Proof.
  intros Hw. split.
  - by destruct Hw as [-> | ->].
  - lia.
  - split; [vm_compute; discriminate | vm_compute; reflexivity].
  - decide_now.
  - apply GenQueue.create_repr.
  - done.
  - intros c k Hc. by apply elem_of_nil in Hc.
  - destruct Hw as [-> | ->]; split; by vm_compute.
  - destruct Hw as [-> | ->]; by vm_compute.
  - intros c k p Hc. by apply elem_of_nil in Hc.
  - assert (start_array w = ObjectStartArray.reset sample_array) as -> by (by destruct Hw as [-> | ->]).
    assert (ObjectStartArray.wf sample_array 2048) as Hwf by decide_now.
    destruct (ObjectStartArray.reset_run sample_array 2048 Hwf ltac:(decide_now)) as [Hwf' Hrec].
    split; [exact Hwf' |]. split; [exact Hrec |]. vm_compute. split; discriminate.
  - intros c b Hc. by apply elem_of_nil in Hc.
Qed.

Lemma sample_inv : space_inv sample_regions 3 1 sample_space sample_world [] (fun _ => []) 2048 [].
Proof.
  apply core_inv; [apply sample_core; by left |].
  intros p Hp. unfold owner. change (CompactData._region_start (summary_data sample_world)) with 524288.
  change (MutableSpace._top _) with 524288 in Hp. change (MutableSpace._end _) with 1572864 in Hp.
  assert ((p - 524288) / region_span = 0 \/ (p - 524288) / region_span = 1) as [-> | ->]
    by (unfold region_span; lia); vm_compute; reflexivity.
Qed.

(** The space with a container of 100 words. *)
Definition sample_container : Z := sample_alloc ∅.
Definition sample_pushed : world :=
  default sample_world
    (snd <$> push_container sample_regions (2 ^ 16) 3 0 sample_alloc sample_junk 1 100 sample_world).

Lemma sample_room : reserved 16 100 <= MutableSpace.free_in_words (_space sample_space).
Proof. vm_compute. discriminate. Qed.

Lemma sample_pushed_inv : exists g,
  space_inv sample_regions 3 1 g sample_pushed [sample_container]
    (with_segment (fun _ => []) sample_container 524288 100) 2048 [524288] /\
  MutableSpace._end (_space g) < 2 ^ 32 /\
  pushed ∅ (headers sample_pushed) sample_container (new_header 3 16 1 524288 100).
Proof.
  destruct (push_room sample_regions 3 16 0 sample_alloc sample_junk ltac:(lia) ltac:(lia) sample_alloc_fresh
    1 sample_space sample_world [] _ 2048 [] 100 sample_inv ltac:(lia) sample_room)
    as (g & w & Hrun & Hinv & (Hspace & _) & _ & Hsame).
  assert (sample_pushed = w) as -> by (unfold sample_pushed; change 1 with (Z.of_nat 1) at 1; by rewrite Hrun).
  exists g. split; [exact Hinv |]. split; [| by apply same_data_pushed]. rewrite Hspace. vm_compute. reflexivity.
Qed.

(** A new header for memory that no container had, and the registered one for memory that had one. *)
Lemma allocate_container_spec_witness :
  (exists w', MutableBDASpace.allocate_container sample_regions (2 ^ 16) 3 0 sample_alloc sample_junk 100 4104
     sample_world = Some (sample_container, w')) /\
  (exists w', MutableBDASpace.allocate_container sample_regions (2 ^ 16) 3 0 sample_alloc sample_junk 100 4104
     sample_recycled = Some (64, w')).
Proof.
  assert (forall w, w = sample_world \/ w = sample_recycled ->
    forall j g', spaces w !! j = Some g' -> _type g' = _type sample_space -> j = 1%nat) as Htype.
  { intros w [-> | ->] [| [| j]] g' Hg' Ht; try done; injection Hg' as <-; discriminate Ht. }
  split.
  - destruct (allocate_container_spec sample_regions 3 16 0 sample_alloc sample_junk ltac:(lia) ltac:(lia)
      sample_alloc_fresh 1 sample_space sample_world [] _ 2048 [] 100 (sample_core _ (or_introl eq_refl)) ltac:(lia)
      (Htype _ (or_introl eq_refl))) as [H _].
    destruct (H sample_room) as (g' & w' & Hrun & _); [left; vm_compute; reflexivity |]. exists w'. exact Hrun.
  - destruct (allocate_container_spec sample_regions 3 16 0 sample_alloc sample_junk ltac:(lia) ltac:(lia)
      sample_alloc_fresh 1 sample_space sample_recycled [] _ 2048 [] 100 (sample_core _ (or_intror eq_refl)) ltac:(lia)
      (Htype _ (or_intror eq_refl))) as [H _].
    destruct (H sample_room) as (g' & w' & Hrun & _); [| exists w'; exact Hrun].
    right. exists (new_header 3 16 1 524288 60). split; [vm_compute; reflexivity |].
    split; [intros Hin; by apply elem_of_nil in Hin |]. split; [left; reflexivity |]. left. lia.
Defined.

Lemma allocate_element_spec_witness :
  exists w', MutableBDASpace.allocate_element sample_regions (2 ^ 16) 3 0 sample_alloc sample_junk 50
    sample_container sample_pushed = Some ((525088, sample_container), w').
Proof.
  destruct sample_pushed_inv as (g & Hinv & Hend & [(k & Hk & Hf) _ _]).
  destruct (allocate_element_spec sample_regions 3 16 0 sample_alloc sample_junk ltac:(lia) ltac:(lia)
    sample_alloc_fresh 1 g sample_pushed [sample_container] _ 2048 _ 50 [] sample_container sample_container Hinv)
    as [H _].
  - lia.
  - lia.
  - split; [done |]. split; [apply (sample_alloc_fresh ∅) |]. exists k. split; [exact Hk |].
    exact (sf_next_segment _ _ Hf).
  - intros x Hx. exact Hx.
  - destruct (H [] sample_container [] eq_refl) as (k' & w' & Hk' & Hrun & _).
    + intros y Hy. destruct (proj1 (elem_of_nil y) Hy).
    + exists k. split; [exact Hk |]. rewrite (sf_top _ _ Hf), (sf_end _ _ Hf). vm_compute. reflexivity.
    + pose proof (eq_trans (eq_sym Hk') Hk) as E. injection E as ->. exists w'.
      rewrite (sf_top _ _ Hf) in Hrun. exact Hrun.
Defined.

Lemma containers_hold_blocks_witness :
  object_iterate_containers (fun _ => 100) 1 sample_pushed = Some ([524288], sample_pushed) /\
  used_in_words sample_regions 1 sample_pushed = Some (100, sample_pushed).
Proof.
  destruct sample_pushed_inv as (g & Hinv & _ & _).
  assert (all_blocks (with_segment (fun _ => []) sample_container 524288 100) [sample_container] = [(524288, 100)]) as E
    by (unfold all_blocks, with_segment; simpl; by rewrite decide_True).
  destruct (containers_hold_blocks sample_regions 3 1 g sample_pushed [sample_container] _ 2048 _ (fun _ => 100) Hinv)
    as (_ & Hit & Hu & _).
  - simpl. lia.
  - rewrite E. intros b Hb. apply list_elem_of_singleton in Hb as ->. reflexivity.
  - rewrite E in Hit, Hu. split; [exact Hit | exact Hu].
Defined.

End Segments.
