(* ===== verification/SegmentPar.v ===== *)
(** * Racing allocations in the segments of a container

    The loop of [MutableBDASpace::allocate_element] and [allocate_plab] that tries the
    segments of a container ([bda/mutableBDASpace.cpp]), run by any number of threads at
    once.  A step is one access to shared memory: the read of a top with the test
    against the end, the exchange of the top, the read of the link to the next segment, or
    the record of the start of the block.  The chain stays as it is: a call that passes the last
    segment, where the code goes on to link a new one, leaves the loop. *)

From Stdlib Require Import ZArith Lia.
From stdpp Require Import base numbers gmap relations list.
From S2P Require Import Prelude GlobalDefs MemRegion VirtualSpace MutableSpace Container GenQueue.
From S2P Require Import ObjectStartArray CompactData CGRPSpace MutableBDASpace Segments.

Local Open Scope Z_scope.

Module SegmentPar.
Import Container.

(** The call is at the segment [seg]: about to read its top; about to exchange it for
    the value [old] it read; about to read the link, having found no room; about to
    record the block at [p]; returned [p]; or past the last segment. *)
Inductive pc :=
| At (seg : Z)
| Cas (seg old : Z)
| Next (seg : Z)
| Mark (seg p : Z)
| Ret (seg p : Z)
| Miss (seg : Z).

Record thread := mkThread { th_size : Z; th_pc : pc }.

Record state := mkState { hp : heap; arr : ObjectStartArray.ObjectStartArray; threads : list thread }.

Definition thread_step (h : heap) (a : ObjectStartArray.ObjectStartArray) (size : Z) (p : pc)
    : option (heap * ObjectStartArray.ObjectStartArray * pc) :=
  match p with
  | At seg =>
      k ← h !! seg;
      if hw_add (_top k) size <? _end k then Some (h, a, Cas seg (_top k)) else Some (h, a, Next seg)
  | Cas seg old =>
      k ← h !! seg;
      if _top k =? old then Some (<[seg := with_top k (hw_add old size)]> h, a, Mark seg old)
      else Some (h, a, At seg)
  | Next seg =>
      k ← h !! seg;
      if _next_segment k =? NULL then Some (h, a, Miss seg) else Some (h, a, At (_next_segment k))
  | Mark seg p => a ← ObjectStartArray.allocate_block a p; Some (h, a, Ret seg p)
  | Ret _ _ | Miss _ => None
  end.

Inductive step : state -> state -> Prop :=
| step_thread s i th h a p :
    threads s !! i = Some th ->
    thread_step (hp s) (arr s) (th_size th) (th_pc th) = Some (h, a, p) ->
    step s (mkState h a (<[i := mkThread (th_size th) p]> (threads s))).

(** Calls with their sizes and the segments they start from. *)
Definition initial (h : heap) (a : ObjectStartArray.ObjectStartArray) (calls : list (Z * Z)) : state :=
  mkState h a ((fun c => mkThread (fst c) (At (snd c))) <$> calls).

Definition returned (th : thread) : bool :=
  match th_pc th with Ret _ _ | Miss _ => true | _ => false end.

(** The words a call has been given in the segment [x]. *)
Definition given (x : Z) (th : thread) : Z :=
  match th_pc th with
  | Mark seg _ | Ret seg _ => if seg =? x then th_size th else 0
  | _ => 0
  end.

(** The block of a call. *)
Definition block (th : thread) : option (Z * Z) :=
  match th_pc th with Mark seg p | Ret seg p => Some (seg, p) | _ => None end.

(** ** The invariant *)

Section Race.
Context (h0 : heap) (N : Z) (starts : list Z) (base : Z).

(** The segments at the start: their free parts are words of the generation, and their
    links lead to segments. *)
Definition segments_ok : Prop :=
  forall x k, h0 !! x = Some k ->
    0 <= _top k < 2 ^ 63 /\ _top k mod 8 = 0 /\ base <= _top k /\ _end k <= base + 512 * N /\ _end k < 2 ^ 63 /\
    (_next_segment k = NULL \/ is_Some (h0 !! _next_segment k)).

(** The header of [x] now; only its top has moved. *)
Definition now (s : state) (x : Z) (k0 k : container) : Prop :=
  h0 !! x = Some k0 /\ hp s !! x = Some k.

Record inv (s : state) : Prop := {
  inv_dom : forall x, is_Some (hp s !! x) <-> is_Some (h0 !! x);
  inv_sizes : Forall (fun th => 0 < th_size th < 2 ^ 60) (threads s);
  inv_head : forall x k0 k, now s x k0 k ->
    k = with_top k0 (_top k0 + 8 * sum_of (given x) (threads s)) /\
    (_top k < _end k0 \/ _top k = _top k0);
  inv_at : forall th seg, th ∈ threads s -> th_pc th = At seg -> is_Some (h0 !! seg);
  inv_cas : forall th seg old, th ∈ threads s -> th_pc th = Cas seg old ->
    exists k0 k, now s seg k0 k /\ _top k0 <= old <= _top k /\ old + 8 * th_size th < _end k0 /\ old mod 8 = 0;
  inv_full : forall th seg, th ∈ threads s -> th_pc th = Next seg \/ th_pc th = Miss seg ->
    exists k0 k, now s seg k0 k /\ _end k0 <= _top k + 8 * th_size th;
  inv_last : forall th seg, th ∈ threads s -> th_pc th = Miss seg ->
    exists k0, h0 !! seg = Some k0 /\ _next_segment k0 = NULL;
  inv_block : forall th seg p, th ∈ threads s -> block th = Some (seg, p) ->
    exists k0 k, now s seg k0 k /\ _top k0 <= p /\ p mod 8 = 0 /\ p + 8 * th_size th <= _top k /\
      p + 8 * th_size th < _end k0;
  inv_disjoint : forall i j th th' seg p p',
    threads s !! i = Some th -> threads s !! j = Some th' -> i <> j ->
    block th = Some (seg, p) -> block th' = Some (seg, p') ->
    p + 8 * th_size th <= p' \/ p' + 8 * th_size th' <= p;
  inv_array : ObjectStartArray.wf (arr s) N /\ ObjectStartArray.base (arr s) = base /\
    exists marks, ObjectStartArray.records (arr s) N (starts ++ marks) /\
      forall p, p ∈ marks <-> exists th seg, th ∈ threads s /\ th_pc th = Ret seg p
}.

Lemma elem_of_insert_other {A} (l : list A) i (t x y : A) : l !! i = Some t -> y ∈ l -> y <> t -> y ∈ <[i := x]> l.
Proof.
  intros Hi [j Hj]%list_elem_of_lookup_1 Hne. apply list_elem_of_lookup. exists j.
  rewrite list_lookup_insert_ne; [done |]. intros ->. congruence.
Qed.

(** The calls that have returned a block, after a step of one that has not. *)
Lemma marks_insert (l : list thread) i th th' (p : Z) :
  l !! i = Some th -> (forall seg q, th_pc th <> Ret seg q) ->
  (exists t seg, t ∈ <[i := th']> l /\ th_pc t = Ret seg p) <->
  (exists seg, th_pc th' = Ret seg p) \/ exists t seg, t ∈ l /\ th_pc t = Ret seg p.
Proof.
  intros Hi Hth. split.
  - intros (t & seg & Ht & E). apply elem_of_insert_inv in Ht as [-> | Ht]; eauto.
  - intros [(seg & E) | (t & seg & Ht & E)].
    + exists th', seg. split; [| done]. apply list_elem_of_lookup. exists i. apply list_lookup_insert_eq.
      by eapply lookup_lt_Some.
    + exists t, seg. split; [| done]. apply (elem_of_insert_other _ _ th); [done | done |]. intros ->. by eapply Hth.
Qed.

(** A step that gives nothing. *)
Lemma segment_inv_quiet s i th p :
  inv s -> threads s !! i = Some th -> block th = None -> returned th = false ->
  (forall seg q, p <> Mark seg q /\ p <> Ret seg q) ->
  (forall seg, p = At seg -> is_Some (h0 !! seg)) ->
  (forall seg old, p = Cas seg old -> exists k0 k, now s seg k0 k /\ _top k0 <= old <= _top k /\
     old + 8 * th_size th < _end k0 /\ old mod 8 = 0) ->
  (forall seg, p = Next seg \/ p = Miss seg -> exists k0 k, now s seg k0 k /\ _end k0 <= _top k + 8 * th_size th) ->
  (forall seg, p = Miss seg -> exists k0, h0 !! seg = Some k0 /\ _next_segment k0 = NULL) ->
  inv (mkState (hp s) (arr s) (<[i := mkThread (th_size th) p]> (threads s))).
Proof.
  intros [Hd Hs Hh Ha Hc Hf Hl Hb Hdj Harr] Hi Hbl Hret Hp Hp1 Hp2 Hp3 Hp4. set (th' := mkThread (th_size th) p).
  assert (block th' = None) as Hbl' by (destruct p as [| | | seg q | seg q |]; try done; by destruct (Hp seg q)).
  assert (forall x, sum_of (given x) (<[i := th']> (threads s)) = sum_of (given x) (threads s)) as Hsum.
  { intros x. rewrite (sum_of_insert _ _ _ th) by done.
    assert (given x th = 0) as -> by (unfold given, block in *; by destruct (th_pc th)).
    assert (given x th' = 0) as -> by (unfold given, block in *; by destruct (th_pc th')). lia. }
  split; cbn [hp arr threads]; try done.
  - apply Forall_insert; [done |]. by apply (Forall_lookup_1 _ _ _ _ Hs Hi).
  - intros x k0 k Hn. rewrite Hsum. by apply Hh.
  - intros t seg Ht E. apply elem_of_insert_inv in Ht as [-> | Ht]; eauto.
  - intros t seg old Ht E. apply elem_of_insert_inv in Ht as [-> | Ht]; [by apply Hp2 | by apply (Hc t)].
  - intros t seg Ht E. apply elem_of_insert_inv in Ht as [-> | Ht]; [by apply Hp3 | by apply (Hf t)].
  - intros t seg Ht E. apply elem_of_insert_inv in Ht as [-> | Ht]; [by apply Hp4 | by apply (Hl t)].
  - intros t seg q Ht E. apply elem_of_insert_inv in Ht as [-> | Ht]; [congruence | by apply (Hb t)].
  - intros j j' t t' seg q q' Hj Hj' Hne E E'.
    apply list_lookup_insert_Some in Hj as [(-> & <- & _) | (_ & Hj)]; [congruence |].
    apply list_lookup_insert_Some in Hj' as [(-> & <- & _) | (_ & Hj')]; [congruence |].
    by apply (Hdj j j' t t' seg).
  - destruct Harr as (Hw & Hbase & marks & Hrec & Hm). split; [done |]. split; [done |]. exists marks.
    split; [done |]. intros q. rewrite Hm, (marks_insert _ _ th) by first [done | intros ? ? E; unfold returned in Hret; by rewrite E in Hret].
    split; [by right |]. intros [(seg & E) | ?]; [| done]. by destruct (Hp seg q).
Qed.

(** The successful exchange. *)
Lemma segment_inv_win s i th seg k0 k :
  inv s -> threads s !! i = Some th -> th_pc th = Cas seg (_top k) -> now s seg k0 k ->
  inv (mkState (<[seg := with_top k (_top k + 8 * th_size th)]> (hp s)) (arr s)
         (<[i := mkThread (th_size th) (Mark seg (_top k))]> (threads s))).
Proof.
  intros [Hd Hs Hh Ha Hc Hf Hl Hb Hdj Harr] Hi Hpc [Hk0 Hk]. set (th' := mkThread (th_size th) (Mark seg (_top k))).
  pose proof (list_elem_of_lookup_2 _ _ _ Hi) as Hin.
  pose proof (Forall_lookup_1 _ _ _ _ Hs Hi) as Hsz. cbv beta in Hsz.
  destruct (Hc th seg _ Hin Hpc) as (k0' & k' & [E0 E1] & Hold & Hfit & H8).
  assert (k0' = k0) as -> by congruence. assert (k' = k) as -> by congruence. clear E0 E1.
  assert (forall x, sum_of (given x) (<[i := th']> (threads s))
    = sum_of (given x) (threads s) + if seg =? x then th_size th else 0) as Hsum.
  { intros x. rewrite (sum_of_insert _ _ _ th) by done. unfold given at 2 3. rewrite Hpc. simpl. lia. }
  set (h' := <[seg := with_top k (_top k + 8 * th_size th)]> (hp s)).
  (* the tops only grow *)
  assert (forall x k1 k2, now s x k1 k2 -> exists k2', h0 !! x = Some k1 /\ h' !! x = Some k2' /\ _top k2 <= _top k2') as Hup.
  { intros x k1 k2 [H1 H2]. subst h'. destruct (decide (x = seg)) as [-> | Hne].
    - rewrite lookup_insert_eq. exists (with_top k (_top k + 8 * th_size th)). split; [done |]. split; [done |].
      assert (k2 = k) as -> by congruence. cbn. lia.
    - exists k2. rewrite lookup_insert_ne by done. done. }
  split; cbn [hp arr threads].
  - intros x. subst h'. destruct (decide (x = seg)) as [-> | Hne].
    + rewrite lookup_insert_eq. split; intros _; eauto.
    + rewrite lookup_insert_ne by done. apply Hd.
  - apply Forall_insert; done.
  - intros x k1 k2 [H1 H2]. cbn [hp] in H2. subst h'. rewrite Hsum. destruct (decide (x = seg)) as [-> | Hne].
    + rewrite lookup_insert_eq in H2. injection H2 as <-. assert (k1 = k0) as -> by congruence.
      destruct (Hh seg k0 k ltac:(done)) as [Ek _]. rewrite Z.eqb_refl. split; [| left; cbn; lia].
      rewrite Ek. cbn. unfold with_top. cbn. f_equal. lia.
    + rewrite lookup_insert_ne in H2 by done. destruct (Z.eqb_spec seg x); [congruence |].
      rewrite Z.add_0_r. by apply Hh.
  - intros t x Ht E. apply elem_of_insert_inv in Ht as [-> | Ht]; [done | by apply (Ha t)].
  - intros t x old Ht E. apply elem_of_insert_inv in Ht as [-> | Ht]; [done |].
    destruct (Hc t x old Ht E) as (k1 & k2 & Hn & ? & ? & ?). destruct (Hup x k1 k2 Hn) as (k2' & ? & ? & ?).
    exists k1, k2'. split; [done |]. lia.
  - intros t x Ht E. apply elem_of_insert_inv in Ht as [-> | Ht]; [by destruct E |].
    destruct (Hf t x Ht E) as (k1 & k2 & Hn & ?). destruct (Hup x k1 k2 Hn) as (k2' & ? & ? & ?).
    exists k1, k2'. split; [done |]. lia.
  - intros t x Ht E. apply elem_of_insert_inv in Ht as [-> | Ht]; [done | by apply (Hl t)].
  - intros t x q Ht E. apply elem_of_insert_inv in Ht as [-> | Ht].
    + injection E as <- <-. exists k0, (with_top k (_top k + 8 * th_size th)). split; [split; [done |]; apply lookup_insert_eq |].
      cbn. lia.
    + destruct (Hb t x q Ht E) as (k1 & k2 & Hn & ? & ? & ? & ?). destruct (Hup x k1 k2 Hn) as (k2' & ? & ? & ?).
      exists k1, k2'. split; [done |]. lia.
  - assert (forall t x q, t ∈ threads s -> block t = Some (x, q) -> x = seg -> q + 8 * th_size t <= _top k) as Hbelow.
    { intros t x q Ht E ->. destruct (Hb t seg q Ht E) as (k1 & k2 & [_ H2] & _ & _ & ? & _).
      assert (k2 = k) as -> by congruence. done. }
    intros j j' t t' x q q' Hj Hj' Hne E E'.
    apply list_lookup_insert_Some in Hj as [(-> & <- & _) | (Hij & Hj)];
      apply list_lookup_insert_Some in Hj' as [(-> & <- & _) | (Hij' & Hj')].
    + done.
    + injection E as <- <-. right. by apply (Hbelow t' seg); [eapply list_elem_of_lookup_2 | |].
    + injection E' as <- <-. left. by apply (Hbelow t seg); [eapply list_elem_of_lookup_2 | |].
    + by apply (Hdj j j' t t' x).
  - destruct Harr as (Hw & Hbase & marks & Hrec & Hm). split; [done |]. split; [done |]. exists marks.
    split; [done |]. intros q. rewrite Hm, (marks_insert _ _ th) by first [done | intros; congruence].
    split; [by right |]. by intros [(x & E) | ?].
Qed.

(** The record of the start of a block. *)
Lemma inv_mark s i th seg p a :
  inv s -> threads s !! i = Some th -> th_pc th = Mark seg p ->
  ObjectStartArray.wf a N -> ObjectStartArray.base a = base ->
  (forall l, ObjectStartArray.records (arr s) N l -> ObjectStartArray.records a N (l ++ [p])) ->
  inv (mkState (hp s) a (<[i := mkThread (th_size th) (Ret seg p)]> (threads s))).
Proof.
  intros [Hd Hs Hh Ha Hc Hf Hl Hb Hdj Harr] Hi Hpc Hwfa Hbase' Hrec'. set (th' := mkThread (th_size th) (Ret seg p)).
  pose proof (list_elem_of_lookup_2 _ _ _ Hi) as Hin.
  assert (block th' = block th) as Hbl by (unfold block; by rewrite Hpc).
  assert (forall t, t ∈ <[i := th']> (threads s) -> exists t0, t0 ∈ threads s /\ th_size t0 = th_size t /\ block t0 = block t /\
    ((exists x q, th_pc t = Ret x q) \/ t0 = t)) as Hold.
  { intros t Ht. apply elem_of_insert_inv in Ht as [-> | Ht]; [exists th | exists t]; eauto 8. }
  assert (forall x, sum_of (given x) (<[i := th']> (threads s)) = sum_of (given x) (threads s)) as Hsum.
  { intros x. rewrite (sum_of_insert _ _ _ th) by done. unfold given at 2 3. rewrite Hpc. simpl. lia. }
  split; cbn [hp arr threads]; try done.
  - apply Forall_insert; [done |]. by apply (Forall_lookup_1 _ _ _ _ Hs Hi).
  - intros x k0 k Hn. rewrite Hsum. by apply Hh.
  - intros t x Ht E. destruct (Hold t Ht) as (t0 & Ht0 & _ & _ & [(? & ? & ?) | ->]); [congruence | by apply (Ha t)].
  - intros t x old Ht E. destruct (Hold t Ht) as (t0 & Ht0 & _ & _ & [(? & ? & ?) | ->]); [congruence | by apply (Hc t)].
  - intros t x Ht E. destruct (Hold t Ht) as (t0 & Ht0 & _ & _ & [(? & ? & E') | ->]); [| by apply (Hf t)].
    rewrite E' in E. by destruct E.
  - intros t x Ht E. destruct (Hold t Ht) as (t0 & Ht0 & _ & _ & [(? & ? & ?) | ->]); [congruence | by apply (Hl t)].
  - intros t x q Ht E. destruct (Hold t Ht) as (t0 & Ht0 & <- & Eb & _). rewrite <- Eb in E. by apply (Hb t0).
  - intros j j' t t' x q q' Hj Hj' Hne E E'.
    assert (forall j t, <[i := th']> (threads s) !! j = Some t -> exists t0, threads s !! j = Some t0 /\
      th_size t0 = th_size t /\ block t0 = block t) as Hat.
    { intros j0 t0 Hj0. apply list_lookup_insert_Some in Hj0 as [(-> & <- & _) | (_ & Hj0)]; eauto. }
    destruct (Hat j t Hj) as (t1 & H1 & <- & E1). destruct (Hat j' t' Hj') as (t2 & H2 & <- & E2).
    rewrite <- E1 in E. rewrite <- E2 in E'. by apply (Hdj j j' t1 t2 x).
  - destruct Harr as (Hw & Hbase & marks & Hrec & Hm). split; [done |]. split; [done |]. exists (marks ++ [p]).
    split; [rewrite app_assoc; by apply Hrec' |]. intros q.
    rewrite elem_of_app, list_elem_of_singleton, Hm, (marks_insert _ _ th) by first [done | intros; congruence].
    split; [intros [? | ->]; [by right | left; by exists seg] |].
    intros [(x & E) | ?]; [right; by injection E | by left].
Qed.

Context (Hok : segments_ok).

Lemma inv_now s x : inv s -> is_Some (h0 !! x) -> exists k0 k, now s x k0 k.
Proof.
  intros Hinv [k0 Hk0]. destruct (proj2 (inv_dom _ Hinv x)) as [k Hk]; [eauto |]. exists k0, k. done.
Qed.

(** The header of a segment at any time. *)
Lemma now_fields s x k0 k :
  inv s -> now s x k0 k ->
  _end k = _end k0 /\ _next_segment k = _next_segment k0 /\ _top k0 <= _top k < 2 ^ 63 /\ 0 <= _top k /\ _top k mod 8 = 0.
Proof.
  intros Hinv Hn. destruct (inv_head _ Hinv x k0 k Hn) as [E Hlt]. destruct Hn as [Hk0 _].
  destruct (Hok x k0 Hk0) as (? & ? & _ & _ & ? & _).
  assert (0 <= sum_of (given x) (threads s)).
  { apply sum_of_nonneg. intros t Ht. unfold given. pose proof (inv_sizes _ Hinv) as Hs. rewrite Forall_forall in Hs.
    specialize (Hs t Ht). cbv beta in Hs. destruct (th_pc t); repeat case_match; lia. }
  rewrite E in Hlt |- *. cbn in *. lia.
Qed.

(** A quiet step of a call at [Hpc]; what its new place asks for is left. *)
Ltac quiet Hpc :=
  apply segment_inv_quiet; try done; try (by unfold block; rewrite Hpc); try (by unfold returned; rewrite Hpc);
  try (by intros ? [? | ?]).

Lemma segment_inv_step s s' : inv s -> step s s' -> inv s'.
Proof.
  intros Hinv Hst. destruct Hst as [s i th h a p Hi Hst].
  pose proof (list_elem_of_lookup_2 _ _ _ Hi) as Hin.
  pose proof (Forall_lookup_1 _ _ _ _ (inv_sizes _ Hinv) Hi) as Hsz. cbv beta in Hsz.
  unfold thread_step in Hst. destruct (th_pc th) as [seg | seg old | seg | seg q | |] eqn:Hpc; [| | | | done | done].
  - destruct (inv_now s seg Hinv (inv_at _ Hinv th seg Hin Hpc)) as (k0 & k & Hn). pose proof Hn as [Hk0 Hk].
    rewrite Hk in Hst. cbn in Hst. destruct (now_fields s seg k0 k Hinv Hn) as (Ee & _ & ? & ? & ?).
    rewrite hw_add_small in Hst by lia. rewrite Ee in Hst.
    destruct (Z.ltb_spec (_top k + 8 * th_size th) (_end k0)); simplify_eq; quiet Hpc.
    + intros x old [= <- <-]. exists k0, k. split; [done |]. lia.
    + intros x [[= <-] | ?]; [| done]. exists k0, k. done.
  - destruct (inv_cas _ Hinv th seg old Hin Hpc) as (k0 & k & Hn & Hold & Hfit & H8). pose proof Hn as [Hk0 Hk].
    rewrite Hk in Hst. cbn in Hst. destruct (now_fields s seg k0 k Hinv Hn) as (Ee & _ & ? & ? & ?).
    destruct (Z.eqb_spec (_top k) old) as [<- | Hne]; simplify_eq.
    + rewrite hw_add_small by lia. by apply (segment_inv_win s i th seg k0 k).
    + quiet Hpc. intros x [= <-]. eauto.
  - destruct (inv_full _ Hinv th seg Hin ltac:(by left)) as (k0 & k & Hn & Hfull). pose proof Hn as [Hk0 Hk].
    rewrite Hk in Hst. cbn in Hst. destruct (now_fields s seg k0 k Hinv Hn) as (_ & En & _). rewrite En in Hst.
    destruct (Hok seg k0 Hk0) as (_ & _ & _ & _ & _ & Hnext).
    destruct (Z.eqb_spec (_next_segment k0) NULL); simplify_eq; quiet Hpc.
    + intros x [? | [= <-]]; [done |]. by exists k0, k.
    + intros x [= <-]. by exists k0.
    + intros x [= <-]. by destruct Hnext.
  - destruct (inv_block _ Hinv th seg q Hin) as (k0 & k & Hn & Hlo & H8 & Hhi & Hfit); [by unfold block; rewrite Hpc |].
    destruct (inv_array _ Hinv) as (Hw & Hb & marks & Hrec & _).
    destruct Hn as [Hk0 _]. destruct (Hok seg k0 Hk0) as (? & ? & ? & ? & _).
    assert (forall l, ObjectStartArray.records (arr s) N l -> exists a', ObjectStartArray.allocate_block (arr s) q = Some a' /\
      ObjectStartArray.wf a' N /\ ObjectStartArray.base a' = base /\ ObjectStartArray.records a' N (l ++ [q])) as Hrun.
    { intros l Hl. destruct (ObjectStartArray.allocate_block_run (arr s) N l q Hw Hl) as (a' & ? & ? & ? & _ & _ & ?);
        [split; [lia | done] |]. exists a'. split_and!; congruence || done. }
    destruct (Hrun _ Hrec) as (a' & Ha' & Hwa & Hba & _). rewrite Ha' in Hst. cbn in Hst. simplify_eq.
    apply inv_mark; try done. intros l Hl. destruct (Hrun l Hl) as (a2 & E & _ & _ & Hr). by simplify_eq.
Qed.

Lemma segment_inv_steps s s' : inv s -> rtc step s s' -> inv s'.
Proof. intros Hi Hs. induction Hs; [done |]. eauto using segment_inv_step. Qed.

Lemma segment_inv_initial a calls :
  ObjectStartArray.wf a N -> ObjectStartArray.base a = base -> ObjectStartArray.records a N starts ->
  Forall (fun c => 0 < fst c < 2 ^ 60 /\ is_Some (h0 !! snd c)) calls -> inv (initial h0 a calls).
Proof.
  intros Hw Hb Hr Hc.
  assert (forall t, t ∈ threads (initial h0 a calls) -> exists seg, th_pc t = At seg /\ is_Some (h0 !! seg) /\
    0 < th_size t < 2 ^ 60) as Ht.
  { intros t ((sz, x) & -> & Hin)%list_elem_of_fmap. rewrite Forall_forall in Hc. destruct (Hc _ Hin) as [? ?].
    exists x. done. }
  assert (forall x, sum_of (given x) (threads (initial h0 a calls)) = 0) as Hsum.
  { intros x. rewrite (sum_of_ext _ (fun _ => 0)), sum_of_const; [done |].
    intros t Hin. destruct (Ht t Hin) as (seg & E & _). unfold given. by rewrite E. }
  split; cbn [hp arr initial] in *; try done.
  - apply Forall_forall. intros t Hin. by destruct (Ht t Hin) as (? & ? & ? & ?).
  - intros x k0 k [H1 H2]. assert (k = k0) as -> by (cbn in H2; congruence). rewrite Hsum. split; [| by right].
    rewrite Z.mul_0_r, Z.add_0_r. by destruct k0.
  - intros t seg Hin E. destruct (Ht t Hin) as (x & E' & ? & _). congruence.
  - intros t seg old Hin E. destruct (Ht t Hin) as (x & E' & _). congruence.
  - intros t seg Hin E. destruct (Ht t Hin) as (x & E' & _). rewrite E' in E. by destruct E.
  - intros t seg Hin E. destruct (Ht t Hin) as (x & E' & _). congruence.
  - intros t seg q Hin E. destruct (Ht t Hin) as (x & E' & _). unfold block in E. by rewrite E' in E.
  - intros i j t t' seg q q' Hi _ _ E. destruct (Ht t (list_elem_of_lookup_2 _ _ _ Hi)) as (x & E' & _).
    unfold block in E. by rewrite E' in E.
  - split; [done |]. split; [done |]. exists []. rewrite app_nil_r. split; [done |]. intros p. split; [by intros ?%elem_of_nil |].
    intros (t & seg & Hin & E). destruct (Ht t Hin) as (x & E' & _). congruence.
Qed.

(** ** Termination: an exchange fails only when another call's succeeded *)

Definition top_of (h : heap) (x : Z) : Z := match h !! x with Some k => _top k | None => 0 end.

(** The links do not form a cycle: [len] decreases along them. *)
Definition ranked (len : Z -> Z) : Prop :=
  forall x k, h0 !! x = Some k -> 0 <= len x /\ (_next_segment k <> NULL -> len (_next_segment k) < len x).

Definition weight (len : Z -> Z) (n : Z) (h : heap) (p : pc) : Z :=
  match p with
  | At seg => (2 * n + 4) * (len seg + 1) + 1
  | Cas seg old => (2 * n + 4) * (len seg + 1) + (if top_of h seg =? old then 0 else 2)
  | Next seg => (2 * n + 4) * (len seg + 1) - 1
  | Mark _ _ => 1
  | Ret _ _ | Miss _ => 0
  end.

Definition bound (len : Z -> Z) (s : state) : Z :=
  sum_of (fun th => weight len (Z.of_nat (length (threads s))) (hp s) (th_pc th)) (threads s).

(** The segment that a call is at. *)
Lemma inv_seg s th : inv s -> th ∈ threads s ->
  match th_pc th with At seg | Cas seg _ | Next seg => exists k0 k, now s seg k0 k | _ => True end.
Proof.
  intros Hinv Hin. destruct (th_pc th) as [seg | seg old | seg | | |] eqn:Hpc; [| | | done | done | done].
  - apply inv_now; [done |]. by eapply inv_at.
  - destruct (inv_cas _ Hinv th seg old Hin Hpc) as (k0 & k & ? & _). eauto.
  - destruct (inv_full _ Hinv th seg Hin ltac:(by left)) as (k0 & k & ? & _). eauto.
Qed.

Lemma weight_nonneg len s th :
  ranked len -> inv s -> th ∈ threads s -> 0 <= weight len (Z.of_nat (length (threads s))) (hp s) (th_pc th).
Proof.
  intros Hr Hinv Hin. pose proof (inv_seg s th Hinv Hin) as Hs. unfold weight.
  destruct (th_pc th) as [seg | seg old | seg | | |]; try lia;
    destruct Hs as (k0 & k & Hk0 & _); destruct (Hr seg k0 Hk0) as [? _]; [| case_match |]; nia.
Qed.

(** A call's own step lowers its weight, by more than the others can gain when it is
    a successful exchange. *)
Lemma segment_step_weight len n s i th h a p :
  ranked len -> inv s -> threads s !! i = Some th -> 0 < n ->
  thread_step (hp s) (arr s) (th_size th) (th_pc th) = Some (h, a, p) ->
  h = hp s /\ weight len n h p < weight len n (hp s) (th_pc th) \/
  weight len n h p + 2 * n < weight len n h (th_pc th).
Proof.
  intros Hr Hinv Hi Hn Hst. pose proof (inv_seg s th Hinv (list_elem_of_lookup_2 _ _ _ Hi)) as Hs.
  unfold thread_step in Hst. destruct (th_pc th) as [seg | seg old | seg | seg q | |]; [| | | | done | done].
  - destruct Hs as (k0 & k & Hk0 & Hk). rewrite Hk in Hst. cbn in Hst. left.
    destruct (_ <? _); simplify_eq; (split; [done |]); unfold weight; [| lia].
    unfold top_of. rewrite Hk, Z.eqb_refl. lia.
  - destruct Hs as (k0 & k & Hk0 & Hk). rewrite Hk in Hst. cbn in Hst.
    destruct (Hr seg k0 Hk0) as [Hl _]. destruct (Z.eqb_spec (_top k) old) as [| Hne]; simplify_eq.
    + right. unfold weight. case_match; nia.
    + left. split; [done |]. unfold weight, top_of. rewrite Hk. destruct (Z.eqb_spec (_top k) old); [done | lia].
  - destruct Hs as (k0 & k & Hn0). pose proof Hn0 as [Hk0 Hk]. rewrite Hk in Hst. cbn in Hst. left.
    destruct (now_fields s seg k0 k Hinv Hn0) as (_ & En & _). rewrite En in Hst.
    destruct (Hr seg k0 Hk0) as [Hl Hnx].
    destruct (Z.eqb_spec (_next_segment k0) NULL); simplify_eq; (split; [done |]); unfold weight; [nia |].
    specialize (Hnx ltac:(done)). nia.
  - left. destruct (ObjectStartArray.allocate_block _ _); cbn in Hst; simplify_eq. split; [done |]. simpl. lia.
Qed.

Lemma segment_weight_stale len n h h' p : weight len n h' p <= weight len n h p + 2.
Proof. unfold weight. destruct p; try lia. repeat case_match; lia. Qed.

Lemma race_step_bound len s s' : ranked len -> inv s -> step s s' -> 0 <= bound len s' < bound len s.
Proof.
  intros Hr Hinv Hst. pose proof (segment_inv_step s s' Hinv Hst) as Hinv'. split.
  { apply sum_of_nonneg. intros t Ht. by apply weight_nonneg. }
  destruct Hst as [s i th h a p Hi Hst]. unfold bound. cbn [threads hp]. rewrite length_insert.
  set (n := Z.of_nat (length (threads s))).
  assert (0 < n) as Hn by (apply lookup_lt_Some in Hi; lia).
  rewrite (sum_of_insert _ _ _ th) by done. cbn [th_pc].
  destruct (segment_step_weight len n s i th h a p Hr Hinv Hi Hn Hst) as [[-> Hw] | Hw]; [lia |].
  assert (sum_of (fun t => weight len n h (th_pc t)) (threads s) <=
          sum_of (fun t => weight len n (hp s) (th_pc t)) (threads s) + 2 * n) as Hst'.
  { transitivity (sum_of (fun t => weight len n (hp s) (th_pc t) + 2) (threads s)).
    - apply sum_of_le. intros. apply segment_weight_stale.
    - rewrite sum_of_add, sum_of_const. lia. }
  lia.
Qed.

Lemma race_progress s :
  inv s -> Forall (fun th => returned th = true) (threads s) \/ exists s', step s s'.
Proof.
  intros Hinv. destruct (decide (Forall (fun th => returned th = true) (threads s))) as [| Hnd]; [by left | right].
  apply not_all_exists in Hnd as (i & th & Hi & Hr). pose proof (list_elem_of_lookup_2 _ _ _ Hi) as Hin.
  pose proof (Forall_lookup_1 _ _ _ _ (inv_sizes _ Hinv) Hi) as Hsz. cbv beta in Hsz.
  assert (exists r, thread_step (hp s) (arr s) (th_size th) (th_pc th) = Some r) as [[[h a] p] E].
  { pose proof (inv_seg s th Hinv Hin) as Hs. unfold returned in Hr. unfold thread_step.
    destruct (th_pc th) as [seg | seg old | seg | seg q | |] eqn:Hpc; try done.
    1-3: destruct Hs as (k0 & k & _ & ->); cbn; case_match; eauto.
    destruct (inv_block _ Hinv th seg q Hin) as (k0 & k & [Hk0 _] & Hlo & H8 & _ & Hfit); [by unfold block; rewrite Hpc |].
    destruct (inv_array _ Hinv) as (Hw & Hb & marks & Hrec & _). destruct (Hok seg k0 Hk0) as (? & ? & ? & ? & _).
    destruct (ObjectStartArray.allocate_block_run (arr s) N _ q Hw Hrec) as (a' & -> & _); [split; [lia | done] |].
    cbn. eauto. }
  eexists. by econstructor.
Qed.

(** ** The claims *)

(** C14. Threads that allocate in the segments of a container at the same time.  At any
    point of any interleaving: the block of every call lies in a segment of the chain, above
    the top it had at the start and below its end; blocks of different calls do not
    overlap; each segment's top has moved by exactly the words given out in it and
    nothing else of its header has changed; a call that gave up was at the last
    segment, which has no room for it; and the starts recorded are those of the blocks
    that were returned. *)
Theorem segment_race (a : ObjectStartArray.ObjectStartArray) (calls : list (Z * Z)) (s : state)
    (Hw : ObjectStartArray.wf a N) (Hb : ObjectStartArray.base a = base)
    (Hr : ObjectStartArray.records a N starts)
    (Hc : Forall (fun c => 0 < fst c < 2 ^ 60 /\ is_Some (h0 !! snd c)) calls)
    (Hs : rtc step (initial h0 a calls) s) :
  (forall th seg p, th ∈ threads s -> block th = Some (seg, p) ->
     exists k0 k, now s seg k0 k /\ _top k0 <= p /\ p + 8 * th_size th <= _top k /\ p + 8 * th_size th < _end k0) /\
  (forall i j th th' seg p p', threads s !! i = Some th -> threads s !! j = Some th' -> i <> j ->
     block th = Some (seg, p) -> block th' = Some (seg, p') ->
     p + 8 * th_size th <= p' \/ p' + 8 * th_size th' <= p) /\
  (forall x k0, h0 !! x = Some k0 ->
     hp s !! x = Some (with_top k0 (_top k0 + 8 * sum_of (given x) (threads s)))) /\
  (forall th seg, th ∈ threads s -> th_pc th = Miss seg -> exists k0 k, now s seg k0 k /\
     _next_segment k0 = NULL /\ _end k0 <= _top k + 8 * th_size th) /\
  (exists marks, ObjectStartArray.records (arr s) N (starts ++ marks) /\
     forall p, p ∈ marks <-> exists th seg, th ∈ threads s /\ th_pc th = Ret seg p).
Proof.
  pose proof (segment_inv_steps _ _ (segment_inv_initial a calls Hw Hb Hr Hc) Hs) as Hinv. split_and!.
  - intros th seg p Hin E. destruct (inv_block _ Hinv th seg p Hin E) as (k0 & k & ? & ? & _ & ? & ?).
    exists k0, k. done.
  - apply Hinv.
  - intros x k0 Hk0. destruct (inv_now s x Hinv ltac:(eauto)) as (k1 & k & Hn).
    destruct (inv_head _ Hinv x k1 k Hn) as [E _]. destruct Hn as [? ->]. congruence.
  - intros th seg Hin E. destruct (inv_full _ Hinv th seg Hin ltac:(by right)) as (k0 & k & Hn & ?).
    destruct (inv_last _ Hinv th seg Hin E) as (k1 & ? & ?). exists k0, k. split; [done |]. split; [| done].
    destruct Hn. congruence.
  - by destruct (inv_array _ Hinv) as (_ & _ & ?).
Qed.

(** C35. Racing allocations in the segments of a container end, when the links between
    the segments form no cycle: no run is infinite, and until every call has returned or
    given up some thread can take a step. *)
Theorem segment_race_terminates (a : ObjectStartArray.ObjectStartArray) (calls : list (Z * Z)) (s : state)
    (len : Z -> Z) (Hlen : ranked len)
    (Hw : ObjectStartArray.wf a N) (Hb : ObjectStartArray.base a = base)
    (Hr : ObjectStartArray.records a N starts)
    (Hc : Forall (fun c => 0 < fst c < 2 ^ 60 /\ is_Some (h0 !! snd c)) calls)
    (Hs : rtc step (initial h0 a calls) s) :
  sn step s /\ (Forall (fun th => returned th = true) (threads s) \/ exists s', step s s').
Proof.
  pose proof (segment_inv_steps _ _ (segment_inv_initial a calls Hw Hb Hr Hc) Hs) as Hinv. split; [| by apply race_progress].
  apply (sn_measure_inv _ inv (bound len)); [| done].
  intros x y Hx Hxy. split; [by eapply segment_inv_step | by apply race_step_bound].
Qed.

End Race.

(** ** An instance: two segments, three calls *)

Definition sample_heap : heap :=
  <[100 := mkContainer 524288 524288 525288 525312 0 1 200 0 0 0]>
    (<[200 := mkContainer 1048576 1048576 1050576 1050600 0 1 0 100 0 0]> ∅).
Definition sample_array : ObjectStartArray.ObjectStartArray := ObjectStartArray.reset Segments.sample_array.

Lemma sample_ok : segments_ok sample_heap 2048 524288.
Proof.
  intros x k Hk. unfold sample_heap in Hk.
  apply lookup_insert_Some in Hk as [[<- <-] | [_ Hk]]; [| apply lookup_insert_Some in Hk as [[<- <-] | [_ Hk]]; [| done]];
    cbn; split_and!; try lia; [right | by left]. vm_compute. by eexists.
Qed.

#[local] Existing Instance ObjectStartArray.wf_dec.
#[local] Existing Instance ObjectStartArray.backed_dec.

Lemma sample_array_wf : ObjectStartArray.wf sample_array 2048 /\ ObjectStartArray.records sample_array 2048 [].
Proof. apply (ObjectStartArray.reset_run Segments.sample_array 2048); decide_now. Qed.

(** Three calls for 80 words, two at the first segment, where only one of them fits, and
    one at the second. *)
Definition sample_calls : list (Z * Z) := [(80, 100); (80, 100); (80, 200)].
Definition sample_end : state :=
  mkState (<[100 := mkContainer 524928 524288 525288 525312 0 1 200 0 0 0]>
    (<[200 := mkContainer 1048576 1048576 1050576 1050600 0 1 0 100 0 0]> ∅)) sample_array
    [mkThread 80 (Mark 100 524288); mkThread 80 (At 200); mkThread 80 (At 200)].

Lemma sample_run : rtc step (initial sample_heap sample_array sample_calls) sample_end.
Proof.
  eapply rtc_l; [eapply (step_thread _ 0); reflexivity |].
  eapply rtc_l; [eapply (step_thread _ 1); reflexivity |].
  eapply rtc_l; [eapply (step_thread _ 0); reflexivity |].
  eapply rtc_l; [eapply (step_thread _ 1); reflexivity |].
  eapply rtc_l; [eapply (step_thread _ 1); reflexivity |].
  eapply rtc_l; [eapply (step_thread _ 1); reflexivity |]. apply rtc_refl.
Qed.

Lemma segment_race_witness :
  hp sample_end !! 100 = Some (with_top (mkContainer 524288 524288 525288 525312 0 1 200 0 0 0) 524928) /\
  exists marks, ObjectStartArray.records (arr sample_end) 2048 ([] ++ marks).
Proof.
  destruct sample_array_wf as [Hw Hr].
  destruct (segment_race sample_heap 2048 [] 524288 sample_ok sample_array sample_calls sample_end Hw eq_refl Hr)
    as (_ & _ & Hh & _ & marks & Hm & _).
  - repeat constructor; try (cbn; lia); vm_compute; eexists; reflexivity.
  - exact sample_run.
  - split; [| exists marks; exact Hm]. apply (Hh 100 (mkContainer 524288 524288 525288 525312 0 1 200 0 0 0)).
    reflexivity.
Defined.

Lemma segment_race_terminates_witness :
  sn step (initial sample_heap sample_array sample_calls).
Proof.
  destruct sample_array_wf as [Hw Hr].
  destruct (segment_race_terminates sample_heap 2048 [] 524288 sample_ok sample_array sample_calls
    (initial sample_heap sample_array sample_calls) (fun x => if x =? 100 then 1 else 0)) as [Hsn _].
  - intros x k Hk. unfold sample_heap in Hk.
    apply lookup_insert_Some in Hk as [[<- <-] | [Hx Hk]].
    + cbn. split; [lia | intros _; lia].
    + apply lookup_insert_Some in Hk as [[<- <-] | [_ Hk]]; [| destruct (lookup_empty_Some _ _ Hk)].
      cbn. split; [lia | intros H; exfalso; apply H; reflexivity].
  - exact Hw.
  - reflexivity.
  - exact Hr.
  - repeat constructor; try (cbn; lia); vm_compute; eexists; reflexivity.
  - apply rtc_refl.
  - exact Hsn.
Defined.

End SegmentPar.
