(* ===== verification/SummarizeBDA.v ===== *)
(** * The summary of a space of collections

    [ParallelCompactData::summarize_bda_regions] and [clear_bda_range] of
    [psParallelCompact.cpp]: where the collector sends the data of the containers of a
    space.  A container goes to the first container before it that is empty, or stays;
    the segments of its chain are compacted into it as far as they fit.

    The state is the [world] of [CGRPSpace]: the summary data and the headers. *)

From Stdlib Require Import ZArith Lia.
From stdpp Require Import base numbers gmap sorting list.
From S2P Require Import Prelude GlobalDefs MemRegion VirtualSpace MutableSpace BitMap ParMarkBitMap.
From S2P Require Import Container GenQueue BDARegion ObjectStartArray CompactData Compaction.
From S2P Require Import Summarize CGRPSpace MutableBDASpace BDALayout Segments.

Local Open Scope Z_scope.

Module SummarizeBDA.
Import Container CompactData CGRPSpace.

(** [_region_data[i]] and assignments to its fields. *)
Definition reg (i : Z) : M world RegionData := on_data (region i).
Definition upd_reg (i : Z) (f : RegionData -> RegionData) : M world unit := on_data (update_region i f).
(** [addr_to_region_idx] *)
Definition idx (addr : Z) : M world Z := w ← get; mret (addr_to_region_idx (summary_data w) addr).

(** Operations on the array of empty regions. *)
Definition on_empty {A} (f : EmptyRegionData -> option (A * EmptyRegionData)) : M world A := fun w =>
  match f (_empty_region_data (summary_data w)) with
  | Some (x, e) => Some (x, set_data w (with_empty (summary_data w) e))
  | None => None
  end.
Definition append_region (region : Z) : M world unit := on_empty (fun e => e ← empty_append e region; Some (tt, e)).
Definition return_region (region : Z) : M world unit :=
  on_empty (fun e => e ← CompactData.return_to_array e region; Some (tt, e)).
Definition remove : M world Z := on_empty empty_remove.
Definition has_empty : M world bool := w ← get; mret (has_empty_region (_empty_region_data (summary_data w))).

(** The live words of [n] regions from [i]. *)
Fixpoint live_loop (n : nat) (i acc : Z) : M world Z :=
  match n with
  | O => mret acc
  | S n => r ← reg i; live_loop n (i + 1) (u64 (acc + data_size r))
  end.

(** The part common to the loops over the regions of a container and of a segment: the
    source region of the regions that the words of [i] at [dest_addr] begin in; the
    number of regions they go to. *)
Definition set_source (i dest_addr words : Z) : M world Z :=
  let last_addr := hw_sub (hw_add dest_addr words) 1 in
  dest_region_1 ← idx dest_addr;
  dest_region_2 ← idx last_addr;
  let destination_count := if i =? dest_region_2 then 0 else 1 in
  if negb (dest_region_1 =? dest_region_2) then
    upd_reg dest_region_2 (set_source_region i);; mret (destination_count + 1)
  else
    when (region_offset dest_addr =? 0) (upd_reg dest_region_1 (set_source_region i));;
    mret destination_count.

(** The region [i] is sent to [dest_addr]; its words. *)
Definition place_region (i dest_addr : Z) : M world Z :=
  upd_reg i (set_destination dest_addr);;
  r ← reg i;
  let words := data_size r in
  destination_count ← (if words >? 0 then set_source i dest_addr words else mret 0);
  upd_reg i (set_destination_count destination_count);;
  upd_reg i set_scanned;;
  mret words.

(** The loop over the [n] regions of the container, from [i]: the next destination and
    the live words. *)
Fixpoint place_loop (n : nat) (i dest_addr source_live : Z) : M world (Z * Z) :=
  match n with
  | O => mret (dest_addr, source_live)
  | S n =>
    words ← place_region i dest_addr;
    place_loop n (i + 1) (hw_add dest_addr words) (u64 (source_live + words))
  end.

(** The loop that gathers empty containers until they have [source_regions] regions:
    the last of them. *)
Fixpoint grab_loop (fuel : nat) (reg_req source_regions : Z) : M world Z :=
  match fuel with
  | O => stuck
  | S fuel =>
    middle_region_idx ← remove;
    r ← reg middle_region_idx;
    hard_end ← on_headers (field _hard_end (_container r));
    e ← idx hard_end;
    let reg_req := i32 (reg_req + u64 (e - middle_region_idx)) in
    if reg_req <? source_regions then grab_loop fuel reg_req source_regions else mret (_container r)
  end.

(** The target of the source container at [cur_region], when the source has more
    regions than the target: the target region and container. *)
Definition large_target (cur_region target_region source_container target_container source_regions
    target_regions target_size : Z) : M world (Z * Z) :=
  source_live ← live_loop (Z.to_nat source_regions) cur_region 0;
  if source_live >? target_size then
    w ← get;
    enough ← lift_opt (has_empty_regions (_empty_region_data (summary_data w))
                         (u32 (source_regions - target_regions)));
    if (enough : bool) then
      middle ← grab_loop (S (length (_empty_region_array (_empty_region_data (summary_data w)))))
                 target_regions source_regions;
      m ← on_headers (load middle);
      on_headers (store target_container (fun k =>
        mkContainer (_top k) (_start k) (_end m) (_hard_end m) (_saved_top k) (_space_id k)
          (_next_segment k) (_prev_segment k) (_next k) (_previous k)));;
      k ← on_headers (load target_container);
      on_data (install_bda_container target_container k);;
      mret (target_region, target_container)
    else return_region target_region;; mret (cur_region, source_container)
  else mret (target_region, target_container).

(** The loop over the [n] regions of a segment, from [i]: the next destination, the
    words still available, and whether a region was claimed. *)
Fixpoint claim_loop (n : nat) (i dest_addr available_sz : Z) (was_claimed : bool) : M world (Z * Z * bool) :=
  match n with
  | O => mret (dest_addr, available_sz, was_claimed)
  | S n =>
    r ← reg i;
    if scanned r then claim_loop n (i + 1) dest_addr available_sz was_claimed
    else
      words ← place_region i dest_addr;
      claim_loop n (i + 1) (hw_add dest_addr words) (u64 (available_sz - words)) true
  end.

(** A segment that was claimed leaves its chain; the next segment.  The code reads the
    space of the next segment before it tests that there is one. *)
Definition unlink_claimed (container_seg : Z) : M heap Z :=
  store container_seg (fun k => with_top k (_start k));;
  next ← field _next_segment container_seg;
  field _space_id next;;
  prev ← field _prev_segment container_seg;
  store prev (fun k => with_next_segment k next);;
  next' ← field _next_segment container_seg;
  when (negb (next' =? NULL))
    (prev ← field _prev_segment container_seg; store next' (fun k => with_prev_segment k prev));;
  store container_seg (fun k => with_prev_segment k NULL);;
  store container_seg (fun k => with_next_segment k NULL);;
  mret next.

(** The loop over the chain of segments: the next destination. *)
Fixpoint segments_loop (fuel : nat) (container_seg dest_addr available_sz : Z) : M world Z :=
  match fuel with
  | O => stuck
  | S fuel =>
    if container_seg =? NULL then mret dest_addr
    else
      k ← on_headers (load container_seg);
      g ← at_ 0;
      if MutableSpace.contains (_space g) (_start k) then
        segments_loop fuel (_next_segment k) dest_addr available_sz
      else
        first ← idx (_start k);
        last ← idx (_hard_end k);
        let segment_regions := Z.to_nat (i32 (last - first)) in
        segment_live ← live_loop segment_regions first 0;
        if segment_live <=? available_sz then
          '(dest_addr, available_sz, was_claimed) ← claim_loop segment_regions first dest_addr available_sz false;
          if (was_claimed : bool) then
            next ← on_headers (unlink_claimed container_seg);
            segments_loop fuel next dest_addr available_sz
          else segments_loop fuel (_next_segment k) dest_addr available_sz
        else segments_loop fuel (_next_segment k) dest_addr available_sz
  end.

(** A target that is not the source takes the links of the source to its segments. *)
Definition relink (source_container target_container : Z) : M heap unit :=
  when (negb (target_container =? source_container))
    (s ← load source_container;
     store target_container (fun k =>
       with_prev_segment (with_next_segment k (_next_segment s)) (_prev_segment s));;
     t ← load target_container;
     when (negb (_next_segment t =? NULL))
       (store (_next_segment t) (fun k => with_prev_segment k target_container));;
     t ← load target_container;
     when (negb (_prev_segment t =? NULL))
       (store (_prev_segment t) (fun k => with_next_segment k target_container))).

(** The end of a turn: the top of the target, and the array of empty regions. *)
Definition finish (cur_region target_region source_container target_container dest_addr : Z) : M world unit :=
  on_headers (store target_container (fun k => with_top k dest_addr));;
  t ← on_headers (load target_container);
  if pointer_delta (_top t) (_start t) =? 0 then
    when (negb (target_region =? cur_region)) (return_region target_region);;
    append_region cur_region
  else
    when (negb (target_region =? cur_region))
      (on_headers (store source_container (fun k => with_top k (_start k)));; append_region cur_region).

(** The target of a turn: the first region of an empty container, if there is one. *)
Definition take_target (cur_region : Z) : M world Z :=
  empty ← has_empty;
  if (empty : bool) then remove else mret cur_region.

(** A turn for the container at [cur_region], which was not scanned: the next
    destination and the regions of the container. *)
Definition summarize_container (cur_region : Z) : M world (Z * Z) :=
  target_region ← take_target cur_region;
  rs ← reg cur_region;
  rt ← reg target_region;
  let source_container := _container rs in
  let target_container := _container rt in
  s ← on_headers (load source_container);
  t ← on_headers (load target_container);
  let target_size := pointer_delta (_end t) (_start t) in
  source_end ← idx (_hard_end s);
  target_end ← idx (_hard_end t);
  let source_regions := i32 (source_end - cur_region) in
  let target_regions := i32 (target_end - target_region) in
  '(target_region, target_container) ←
    (if source_regions >? target_regions
     then large_target cur_region target_region source_container target_container source_regions
            target_regions target_size
     else mret (target_region, target_container));
  t ← on_headers (load target_container);
  let target_size := pointer_delta (_end t) (_start t) in
  w ← get;
  '(dest_addr, source_live) ←
    place_loop (Z.to_nat source_regions) cur_region (region_to_addr (summary_data w) target_region) 0;
  next_segment ← on_headers (field _next_segment source_container);
  n ← gets header_count;
  dest_addr ← segments_loop (S n) next_segment dest_addr (u64 (target_size - source_live));
  finish cur_region target_region source_container target_container dest_addr;;
  on_headers (relink source_container target_container);;
  mret (dest_addr, source_regions).

(** The loop over the regions; [fuel] turns, each of at least one region. *)
Fixpoint bda_loop (fuel : nat) (end_region cur_region target_next : Z) : M world Z :=
  match fuel with
  | O => stuck
  | S fuel =>
    if cur_region <? end_region then
      r ← reg cur_region;
      if scanned r then
        k ← on_headers (load (_container r));
        first ← idx (_start k);
        when ((_start k =? _top k) && (first =? cur_region)) (append_region cur_region);;
        bda_loop fuel end_region (cur_region + 1) target_next
      else
        '(dest_addr, source_regions) ← summarize_container cur_region;
        bda_loop fuel end_region (u64 (cur_region + source_regions))
          (if target_next <? dest_addr then dest_addr else target_next)
    else mret target_next
  end.

(** The new value of [*target_next]; the function itself returns [true]. *)
Definition summarize_bda_regions (source_beg source_end : Z) : M world Z :=
  end_region ← idx source_end;
  cur_region ← idx source_beg;
  w ← get;
  let target_next := region_to_addr (summary_data w) cur_region in
  on_empty (fun e => Some (tt, empty_reset e));;
  target_next ← bda_loop (S (Z.to_nat (end_region - cur_region))) end_region cur_region target_next;
  if target_next >? source_beg then
    i ← idx target_next;
    r ← reg i;
    on_headers (field _hard_end (_container r))
  else mret target_next.

(** The loop of [clear_bda_range] over [n] regions from [i], for the space [sp]. *)
Fixpoint clear_bda_loop (regions : BDARegion.table) (sp : Z) (n : nat) (i : Z) : M world unit :=
  match n with
  | O => mret tt
  | S n =>
    r ← reg i;
    let c := _container r in
    k ← on_headers (load c);
    when (_start k =? _top k) (add_to_pool regions sp c);;
    upd_reg i (fun _ => set_container_ptr c zero_region);;
    clear_bda_loop regions sp n (i + 1)
  end.
Definition clear_bda_range (regions : BDARegion.table) (beg_region end_region sp : Z) : M world unit :=
  let region_cnt := u64 (end_region - beg_region) in
  clear_bda_loop regions sp (Z.to_nat (end_region - beg_region)) beg_region;;
  let beg_block := u64 (beg_region * BlocksPerRegion) in
  let block_cnt := u64 (region_cnt * BlocksPerRegion) in
  on_data (clear_block_range beg_block block_cnt).

End SummarizeBDA.
