(* ===== verification/SlideBDA.v ===== *)
(** * The containers of a space slide together

    What [SummarizeBDA.summarize_bda_regions] does to a space of containers of one size,
    none of which has segments: the containers that hold live data go, in their order,
    to the first containers of the space. *)

From Stdlib Require Import ZArith Lia.
From stdpp Require Import base numbers gmap sorting list.
From S2P Require Import Prelude GlobalDefs MemRegion MutableSpace ParMarkBitMap Container GenQueue.
From S2P Require Import ObjectStartArray CompactData Compaction Summarize CGRPSpace Segments SummarizeBDA.

Local Open Scope Z_scope.

Module SlideBDA.
Import Container CompactData Compaction Summarize CGRPSpace SummarizeBDA.

(** ** Runs on the summary data *)

Lemma reg_run w i r : rd (summary_data w) i = Some r -> reg i w = Some (r, w).
Proof. intros H. apply Segments.on_data_read. by apply region_run. Qed.

Lemma upd_reg_run w i f :
  0 <= i < region_count (summary_data w) ->
  upd_reg i f w = Some (tt, set_data w (apply (upd i (i + 1) (fun _ => f)) (summary_data w))).
Proof. intros H. apply Segments.on_data_run. by apply update_region_run. Qed.

Lemma idx_run w addr : idx addr w = Some (addr_to_region_idx (summary_data w) addr, w).
Proof. done. Qed.

(** ** Sending regions *)

(** What [place_region] changes: [cur] is sent to the word [w]. *)
Definition bda_turn (start cur w words i : Z) (r : RegionData) : RegionData :=
  let r := if i =? cur then set_destination (start + 8 * w) r else r in
  let r := if begins_in i w words then set_source_region cur r else r in
  if i =? cur then
    set_scanned (set_destination_count (if 0 <? words then dest_count cur w words else 0) r)
  else r.

Lemma set_source_run W cur w words :
  let d := summary_data W in
  covers d -> 0 <= w -> 0 < words <= 65536 -> w + words <= 65536 * region_count d ->
  set_source cur (_region_start d + 8 * w) words W =
    Some (dest_count cur w words, set_data W
      (apply (fun i r => if begins_in i w words then set_source_region cur r else r) d)).
Proof.
  intros d Hc Hw Hn He. pose proof (c_start d Hc). pose proof (c_end d Hc).
  unfold set_source. rewrite hw_add_small by lia. unfold hw_sub, HeapWordSize. rewrite u64_small by ulia.
  replace (_region_start d + 8 * w + 8 * words - 1 * 8)
    with (_region_start d + 8 * (w + words - 1)) by lia.
  mrun (idx_run W _). mrun (idx_run W _). fold d.
  rewrite !(addr_to_region_idx_words d Hc), (region_offset_words d Hc) by lia.
  fold (first_region w) (last_region w words).
  assert (0 <= first_region w < region_count d /\ 0 <= last_region w words < region_count d)
    as [Hf Hl] by (unfold first_region, last_region; lia).
  assert (forall i r, (if begins_in i w words then set_source_region cur r else r) =
    if (if first_region w =? last_region w words then (w mod 65536 =? 0) && (i =? first_region w)
        else i =? last_region w words) then set_source_region cur r else r) as Hb
    by (intros; by rewrite begins_in_region by lia).
  rewrite (apply_ext _ _ d (fun i r _ => Hb i r)). unfold dest_count.
  destruct (Z.eqb_spec (first_region w) (last_region w words)) as [Heq | Hne]; cbn [negb].
  - rewrite Z.add_0_r. destruct (Z.eqb_spec (w mod 65536) 0) as [Hz | Hz]; cbn [andb when].
    + mrun (upd_reg_run W _ _ Hf). rewrite M_ret_run. do 3 f_equal. apply apply_ext.
      intros i r _. unfold upd. case_cmp; done || lia.
    + rewrite M_ret_bind, M_ret_run, apply_id by done. by destruct W.
  - mrun (upd_reg_run W _ _ Hl). rewrite M_ret_run. do 3 f_equal. apply apply_ext.
    intros i r _. unfold upd. case_cmp; done || lia.
Qed.

Lemma place_region_run W cur w :
  let d := summary_data W in
  let words := words_of d cur in
  covers d -> 0 <= cur < region_count d -> 0 <= w -> words <= 65536 ->
  w + words <= 65536 * region_count d ->
  place_region cur (_region_start d + 8 * w) W =
    Some (words, set_data W (apply (bda_turn (_region_start d) cur w words) d)).
Proof.
  intros d words Hc Hcur Hw Hn He. assert (0 <= words) by apply words_of_nonneg.
  unfold place_region. mrun (upd_reg_run W cur (set_destination (_region_start d + 8 * w)) Hcur).
  fold d. set (d0 := apply _ d). set (W0 := set_data W d0).
  assert (words_of d0 cur = words) as Hw0.
  { apply words_of_kept. intros i r. unfold upd. destruct (_ && _); [split; done | done]. }
  assert (region_count d0 = region_count d) as Hcnt by apply region_count_apply.
  destruct (rd_Some d0 cur) as [r0 Hr0]; [by rewrite Hcnt |].
  mrun (reg_run W0 cur r0 Hr0). unfold words_of in Hw0. rewrite Hr0 in Hw0. rewrite Hw0.
  set (c := if 0 <? words then dest_count cur w words else 0).
  set (d1 := apply (fun i r => if begins_in i w words then set_source_region cur r else r) d0).
  rewrite (M_bind_Some _ _ W0 c (set_data W0 d1)).
  - assert (region_count d1 = region_count d) as Hcnt1 by (unfold d1; by rewrite region_count_apply).
    erewrite M_bind_Some; [| apply upd_reg_run; cbn [summary_data set_data]; by rewrite Hcnt1].
    erewrite M_bind_Some; [| apply upd_reg_run; cbn [summary_data set_data]; by rewrite region_count_apply, Hcnt1].
    rewrite M_ret_run. do 3 f_equal. cbn [summary_data set_data]. unfold d1, d0.
    rewrite !apply_apply. apply apply_ext. intros i r _. unfold bda_turn, upd. fold c.
    destruct (begins_in i w words); case_cmp; done || lia.
  - unfold c. rewrite Z.gtb_ltb. destruct (Z.ltb_spec 0 words) as [Hp | Hz].
    + apply (set_source_run W0 cur w words); simpl; [by apply covers_apply | done | lia | by rewrite Hcnt].
    + rewrite M_ret_run. unfold d1. rewrite apply_id; [done |].
      intros i r _. unfold begins_in. case_cmp; done || lia.
Qed.

(** The regions of [lo, hi) sent each to its position, a word of the covered area. *)
Section Moves.
Context (start N : Z) (words p : Z -> Z).

Record sent_to (lo hi i : Z) (r r' : RegionData) : Prop := {
  t_kept : kept r r';
  t_dest : _destination r' = if (lo <=? i) && (i <? hi) then start + 8 * p i else _destination r;
  t_count : lo <= i < hi -> 0 < words i -> destination_count r' = dest_count i (p i) (words i);
  t_count_out : ~ lo <= i < hi -> _dc_and_los r' = _dc_and_los r;
  t_source : forall j, lo <= j < hi -> begins_in i (p j) (words j) = true -> _source_region r' = j;
  t_source_out : (forall j, lo <= j < hi -> begins_in i (p j) (words j) = false) ->
    _source_region r' = _source_region r;
  t_scanned : _scanned r' = if (lo <=? i) && (i <? hi) then scanned_bit else _scanned r
}.

Definition moves (lo hi : Z) (g : Z -> RegionData -> RegionData) : Prop :=
  forall i r, sent_to lo hi i r (g i r).

(** No two of the regions go to the same words. *)
Definition separate (lo hi : Z) : Prop :=
  forall j k, lo <= j < hi -> lo <= k < hi -> j < k ->
    words j <= 0 \/ words k <= 0 \/ p j + words j <= p k.

(** The summary data that [words] describes. *)
Record tracks (d : ParallelCompactData) : Prop := {
  tr_covers : covers d;
  tr_start : _region_start d = start;
  tr_count : region_count d = N;
  tr_words : forall j, words_of d j = words j
}.

Lemma moves_none lo : moves lo lo (fun _ r => r).
Proof. intros i r. split; try done; [| lia | lia |]; by case_cmp; lia || done. Qed.

Lemma moves_one cur :
  moves cur (cur + 1) (bda_turn start cur (p cur) (words cur)).
Proof.
  intros i r. pose proof (dest_count_range cur (p cur) (words cur)) as Hr.
  set (c := if 0 <? words cur then dest_count cur (p cur) (words cur) else 0).
  assert (0 <= c <= 2) by (unfold c; case_cmp; lia).
  assert (forall r, live_obj_size (set_scanned (set_destination_count c r)) = live_obj_size r) as Hlive.
  { intros r0. change (live_obj_size (set_scanned (set_destination_count c r0)))
      with (live_obj_size (set_destination_count c r0)).
    rewrite live_obj_size_mod, set_destination_count_spec by lia.
    rewrite !live_obj_size_mod, Z.add_comm, Z.mod_add by lia. by rewrite Z.mod_mod. }
  unfold bda_turn. fold c. split.
  - destruct (i =? cur), (begins_in i (p cur) (words cur)); split; try done; by rewrite Hlive.
  - destruct (begins_in i (p cur) (words cur)), (Z.eqb_spec i cur) as [-> |]; simpl; case_cmp; done || lia.
  - intros Hi Hw. assert (i = cur) as -> by lia. rewrite Z.eqb_refl.
    unfold c. destruct (Z.ltb_spec 0 (words cur)); [| lia]. fold c.
    set (r0 := if begins_in _ _ _ then _ else _).
    change (destination_count (set_scanned ?x)) with (destination_count x).
    assert (0 <= live_obj_size r0 < 2 ^ 27) by (rewrite live_obj_size_mod; lia).
    rewrite destination_count_div; rewrite set_destination_count_spec by lia; [| lia].
    rewrite Z.div_add_l, Z.div_small by lia. lia.
  - intros Hi. destruct (Z.eqb_spec i cur); [lia |]. by destruct (begins_in _ _ _).
  - intros j Hj Hb. assert (j = cur) as -> by lia. rewrite Hb. by destruct (i =? cur).
  - intros Hb. rewrite (Hb cur) by lia. by destruct (i =? cur).
  - destruct (begins_in i (p cur) (words cur)), (Z.eqb_spec i cur) as [-> |]; simpl; case_cmp; done || lia.
Qed.

Lemma begins_once i j k lo hi :
  separate lo hi -> lo <= j < hi -> lo <= k < hi -> j < k ->
  begins_in i (p j) (words j) = true -> begins_in i (p k) (words k) = true -> False.
Proof.
  intros Hs Hj Hk Hlt. destruct (Hs j k Hj Hk Hlt) as [H | [H | H]]; unfold begins_in; case_cmp; done || lia.
Qed.

Lemma moves_app lo mid hi g1 g2 :
  lo <= mid <= hi -> separate lo hi -> moves lo mid g1 -> moves mid hi g2 ->
  moves lo hi (fun i r => g2 i (g1 i r)).
Proof.
  intros Hm Hs H1 H2 i r. destruct (H1 i r) as [k1 d1 c1 co1 s1 so1 n1].
  destruct (H2 i (g1 i r)) as [k2 d2 c2 co2 s2 so2 n2]. split.
  - eapply kept_trans; eassumption.
  - rewrite d2, d1. case_cmp; done || lia.
  - intros Hi Hw. destruct (Z.lt_ge_cases i mid); [| apply c2; [lia | done]].
    rewrite <- c1 by (done || lia). unfold destination_count, destination_count_raw. by rewrite co2 by lia.
  - intros Hi. by rewrite co2, co1 by lia.
  - intros j Hj Hb. destruct (Z.lt_ge_cases j mid); [| apply s2; [lia | done]].
    rewrite so2; [apply s1; [lia | done] |]. intros k Hk. apply not_true_is_false. intros Hb'.
    eapply (begins_once i j k lo hi); [done | lia | lia | lia | done | done].
  - intros Hb. rewrite so2, so1; [done | |]; intros; apply Hb; lia.
  - rewrite n2, n1. case_cmp; done || lia.
Qed.

Lemma tracks_apply g lo hi d : moves lo hi g -> tracks d -> tracks (apply g d).
Proof.
  intros Hg [Hc Hs Hn Hw]. split; [by apply covers_apply | done | by rewrite region_count_apply |].
  intros j. rewrite words_of_kept; [done |]. intros. apply Hg.
Qed.

Lemma place_loop_run n W lo a live :
  tracks (summary_data W) -> (forall j, 0 <= words j <= 65536) ->
  0 <= lo -> lo + Z.of_nat n <= N -> 0 <= a -> a + sum_of words (zseq lo n) <= 65536 * N ->
  (forall k, lo <= k < lo + Z.of_nat n -> p k = a + sum_of words (zseq lo (Z.to_nat (k - lo)))) ->
  separate lo (lo + Z.of_nat n) -> 0 <= live -> live + sum_of words (zseq lo n) < 2 ^ 64 ->
  exists g, moves lo (lo + Z.of_nat n) g /\
    place_loop n lo (start + 8 * a) live W =
      Some ((start + 8 * (a + sum_of words (zseq lo n)), live + sum_of words (zseq lo n)),
            set_data W (apply g (summary_data W))).
Proof.
  revert W lo a live. induction n as [| n IH]; intros W lo a live Ht Hb Hlo Hn Ha He Hp Hs Hl Hl'.
  { exists (fun _ r => r). rewrite Z.add_0_r. split; [apply moves_none |]. simpl.
    rewrite M_ret_run, apply_id by done. unfold sum_of; simpl. rewrite !Z.add_0_r. by destruct W. }
  cbn [zseq] in *. rewrite sum_of_cons in *. pose proof (Hb lo).
  assert (0 <= sum_of words (zseq (lo + 1) n)) by (apply sum_of_nonneg; intros; apply Hb).
  destruct Ht as [Hc Hst Hcnt Hw]. pose proof (c_start _ Hc). pose proof (c_end _ Hc).
  assert (p lo = a) as Hpa by (rewrite Hp, Z.sub_diag by lia; unfold sum_of; simpl; lia).
  pose proof (moves_one lo) as Hg1. rewrite Hpa in Hg1. set (g1 := bda_turn start lo a (words lo)) in *.
  set (W1 := set_data W (apply g1 (summary_data W))).
  destruct (IH W1 (lo + 1) (a + words lo) (live + words lo)) as (g & Hg & Hrun).
  - apply (tracks_apply _ lo (lo + 1)); [done | done].
  - done.
  - lia.
  - lia.
  - lia.
  - lia.
  - intros k Hk. rewrite Hp by lia. replace (Z.to_nat (k - lo)) with (S (Z.to_nat (k - (lo + 1)))) by lia.
    cbn [zseq]. rewrite sum_of_cons. lia.
  - intros j k ???. apply Hs; lia.
  - lia.
  - lia.
  - exists (fun i r => g i (g1 i r)). split.
    + replace (lo + Z.of_nat (S n)) with (lo + 1 + Z.of_nat n) in * by lia.
      apply (moves_app lo (lo + 1)); [lia | done | done | done].
    + cbn [place_loop]. pose proof (place_region_run W lo a) as Hpl. cbv zeta in Hpl.
      rewrite Hst, Hw, Hcnt in Hpl. mrun (Hpl Hc ltac:(lia) Ha ltac:(lia) ltac:(lia)). clear Hpl.
      fold g1. fold W1. rewrite hw_add_small by lia. rewrite u64_small by ulia.
      replace (start + 8 * a + 8 * words lo) with (start + 8 * (a + words lo)) by lia.
      rewrite Hrun. do 3 f_equal; [do 2 f_equal; lia | lia |]. unfold W1; simpl. by rewrite apply_apply.
Qed.
End Moves.

(** ** The array of empty regions as a queue *)

Record holds (e : EmptyRegionData) (l : list Z) : Prop := {
  q_idx : 0 <= _empty_region_idx e;
  q_next : _next_append e = _empty_region_idx e + Z.of_nat (length l);
  q_room : _next_append e <= Z.of_nat (length (_empty_region_array e)) < 2 ^ 64;
  q_at : forall t x, l !! t = Some x ->
    _empty_region_array e !! (Z.to_nat (_empty_region_idx e) + t)%nat = Some x
}.

Lemma empty_at_Some e i : 0 <= i < Z.of_nat (length (_empty_region_array e)) -> exists x, empty_at e i = Some x.
Proof.
  intros Hi. unfold empty_at. destruct (Z.leb_spec 0 i); [| lia]. apply lookup_lt_is_Some_2. lia.
Qed.

Lemma has_empty_holds e l : holds e l -> has_empty_region e = negb (bool_decide (l = [])).
Proof.
  intros [H1 H2 _ _]. unfold has_empty_region. rewrite H2.
  destruct l as [| x l]; simpl; case_cmp; done || lia.
Qed.

Lemma append_holds e l x :
  holds e l -> _next_append e < Z.of_nat (length (_empty_region_array e)) ->
  exists e', empty_append e x = Some e' /\ holds e' (l ++ [x]) /\
    _next_append e' = _next_append e + 1 /\
    length (_empty_region_array e') = length (_empty_region_array e).
Proof.
  intros [H1 H2 H3 H4] Hn. destruct (empty_at_Some e (_next_append e)) as [y Hy]; [lia |].
  unfold empty_append. rewrite Hy. cbn [mbind option_bind]. eexists. split; [done |].
  rewrite u64_small by ulia. split_and!; [| done | apply length_insert].
  split; cbn [_empty_region_array _empty_region_idx _next_append];
    rewrite ?length_app, ?length_insert; simpl length; [done | lia | lia |].
  intros t z Hz. apply lookup_app_Some in Hz as [Hz | [Hl Hz]].
  - pose proof (lookup_lt_Some _ _ _ Hz). rewrite list_lookup_insert_ne by lia. auto.
  - apply list_lookup_singleton_Some in Hz as [Hz <-].
    replace (Z.to_nat (_empty_region_idx e) + t)%nat with (Z.to_nat (_next_append e)) by lia.
    apply list_lookup_insert_eq. lia.
Qed.

Lemma remove_holds e l x :
  holds e (x :: l) ->
  exists e', empty_remove e = Some (x, e') /\ holds e' l /\
    _empty_region_idx e' = _empty_region_idx e + 1 /\ _next_append e' = _next_append e /\
    _empty_region_array e' = _empty_region_array e.
Proof.
  intros [H1 H2 H3 H4]. simpl length in *. pose proof (H4 O x eq_refl) as Hx. rewrite Nat.add_0_r in Hx.
  unfold empty_remove, empty_at. destruct (Z.leb_spec 0 (_empty_region_idx e)); [| lia].
  rewrite Hx. cbn [mbind option_bind]. eexists. split; [done |]. rewrite u64_small by ulia.
  split_and!; [| done ..].
  split; cbn [_empty_region_array _empty_region_idx _next_append]; [lia | lia | lia |].
  intros t z Hz. rewrite <- (H4 (S t) z Hz). f_equal. lia.
Qed.

Lemma return_holds e l x :
  holds e l -> 0 < _empty_region_idx e ->
  exists e', CompactData.return_to_array e x = Some e' /\ holds e' (x :: l) /\
    _next_append e' = _next_append e /\
    length (_empty_region_array e') = length (_empty_region_array e).
Proof.
  intros [H1 H2 H3 H4] Hi. unfold CompactData.return_to_array. rewrite u64_small by ulia.
  destruct (empty_at_Some e (_empty_region_idx e - 1)) as [y Hy]; [lia |].
  rewrite Hy. cbn [mbind option_bind]. eexists. split; [done |].
  split_and!; [| done | apply length_insert].
  split; cbn [_empty_region_array _empty_region_idx _next_append];
    rewrite ?length_insert; simpl length; [lia | lia | lia |].
  intros [| t] z Hz; simpl in Hz.
  - simplify_eq. rewrite Nat.add_0_r. apply list_lookup_insert_eq. lia.
  - rewrite list_lookup_insert_ne by lia. rewrite <- (H4 t z Hz). f_equal. lia.
Qed.

(** Containers without segments have no links to fix. *)
Definition unlinked (k : container) : Prop := _next_segment k = NULL /\ _prev_segment k = NULL.

Lemma relink_none h src tgt ks kt :
  h !! src = Some ks -> h !! tgt = Some kt -> unlinked ks -> unlinked kt ->
  relink src tgt h = Some (tt, h).
Proof.
  intros Hs Ht [Hs1 Hs2] [Ht1 Ht2]. unfold relink. destruct (negb (tgt =? src)); [| done]. cbn [when].
  mrun (load_run h src ks Hs).
  assert (with_prev_segment (with_next_segment kt (_next_segment ks)) (_prev_segment ks) = kt) as Hid.
  { rewrite Hs1, Hs2, <- Ht1 at 1. destruct kt; unfold with_prev_segment, with_next_segment; simpl in *.
    by rewrite Ht2. }
  mrun (store_run h tgt kt _ Ht). rewrite Hid, insert_id by done.
  mrun (load_run h tgt kt Ht). rewrite Ht1, Z.eqb_refl. cbn [when negb]. rewrite M_ret_bind.
  mrun (load_run h tgt kt Ht). by rewrite Ht2.
Qed.

(** A claimed segment between two others leaves the chain. *)
Lemma unlink_claimed_run h p c q kp kc kq :
  p <> c -> q <> c -> p <> q -> q <> NULL ->
  h !! p = Some kp -> h !! c = Some kc -> h !! q = Some kq ->
  _next_segment kc = q -> _prev_segment kc = p ->
  unlink_claimed c h = Some (q,
    <[c := with_next_segment (with_prev_segment (with_top kc (_start kc)) NULL) NULL]>
      (<[q := with_prev_segment kq p]> (<[p := with_next_segment kp q]> h))).
Proof.
  intros Hpc Hqc Hpq Hq Hp Hc Hkq Hn Hpr. unfold unlink_claimed.
  mrun (store_run h c kc _ Hc). set (h1 := <[c := _]> h).
  assert (h1 !! c = Some (with_top kc (_start kc))) as Hc1 by (unfold h1; apply lookup_insert_eq).
  mrun (field_run h1 _ _ _next_segment Hc1). cbn [with_top _next_segment]. rewrite Hn.
  mrun (field_run h1 q kq _space_id ltac:(unfold h1; by rewrite lookup_insert_ne)).
  mrun (field_run h1 _ _ _prev_segment Hc1). cbn [with_top _prev_segment]. rewrite Hpr.
  mrun (store_run h1 p kp _ ltac:(unfold h1; by rewrite lookup_insert_ne)). set (h2 := <[p := _]> h1).
  assert (h2 !! c = Some (with_top kc (_start kc))) as Hc2 by (unfold h2; by rewrite lookup_insert_ne).
  mrun (field_run h2 _ _ _next_segment Hc2). cbn [with_top _next_segment]. rewrite Hn.
  destruct (Z.eqb_spec q NULL); [done |]. cbn [negb when]. rewrite M_bind_assoc.
  mrun (field_run h2 _ _ _prev_segment Hc2). cbn [with_top _prev_segment]. rewrite Hpr.
  mrun (store_run h2 q kq _ ltac:(unfold h2, h1; by rewrite !lookup_insert_ne)). set (h3 := <[q := _]> h2).
  mrun (store_run h3 c _ _ ltac:(unfold h3; by rewrite lookup_insert_ne)).
  erewrite M_bind_Some; [| apply store_run, lookup_insert_eq]. rewrite M_ret_run. do 2 f_equal.
  unfold h3, h2, h1. rewrite insert_insert_eq. rewrite (insert_insert_ne _ p c) by done.
  rewrite (insert_insert_ne _ q c) by done. by rewrite insert_insert_eq.
Qed.

(** The last segment of a chain cannot be claimed: the code reads a field of the
    segment after it. *)
Lemma unlink_claimed_last h c kc :
  h !! c = Some kc -> _next_segment kc = NULL -> h !! NULL = None -> unlink_claimed c h = None.
Proof.
  intros Hc Hn H0. unfold unlink_claimed. mrun (store_run h c kc _ Hc).
  mrun (field_run _ _ _ _next_segment (lookup_insert_eq h c _)). cbn [with_top _next_segment]. rewrite Hn.
  unfold field, load, mbind, M_bind. rewrite lookup_insert_ne; [by rewrite H0 |]. congruence.
Qed.

(** ** The slide *)

(** The live words of the container [c], and the containers before it that have any:
    the container that it goes to. *)
Definition live_words (d : ParallelCompactData) (a m c : Z) : Z :=
  words_before d (a + m * c) (Z.to_nat m).
Definition rank (d : ParallelCompactData) (a m c : Z) : Z :=
  sum_of (fun i => if 0 <? live_words d a m i then 1 else 0) (zseq 0 (Z.to_nat c)).

(** The word where the data of the region [i] goes: after the words of the regions
    before it in its container. *)
Definition position (d : ParallelCompactData) (a m i : Z) : Z :=
  let c := (i - a) / m in
  65536 * (a + m * rank d a m c) + words_before d (a + m * c) (Z.to_nat (i - (a + m * c))).

(** A space of [n] containers of [m] regions each, from the region [a] on, before its
    summary: [hs] are the headers. *)
Record uniform (w : world) (a m n : Z) (hs : Z -> Z) : Prop := {
  u_covers : covers (summary_data w);
  u_sizes : 0 <= a /\ 0 < m < 2 ^ 31 /\ 0 <= n /\ a + m * n <= region_count (summary_data w);
  u_words : forall i r, rd (summary_data w) i = Some r -> data_size r <= RegionSize;
  u_header : forall c, 0 <= c < n -> exists k, headers w !! hs c = Some k /\
    _start k = region_to_addr (summary_data w) (a + m * c) /\
    _hard_end k = region_to_addr (summary_data w) (a + m * (c + 1)) /\ unlinked k;
  u_region : forall c i r, 0 <= c < n -> a + m * c <= i < a + m * (c + 1) ->
    rd (summary_data w) i = Some r -> _container r = hs c /\ scanned r = false;
  u_fits : forall c, 0 <= c < n -> live_words (summary_data w) a m c < 65536 * m;
  u_empty : 0 <= _next_append (_empty_region_data (summary_data w)) /\
    _next_append (_empty_region_data (summary_data w)) + n <=
      Z.of_nat (length (_empty_region_array (_empty_region_data (summary_data w)))) < 2 ^ 64
}.

Section Slide.
Context (w0 : world) (a m n : Z) (hs : Z -> Z) (HU : uniform w0 a m n hs).
Local Abbreviation d0 := (summary_data w0).
Local Abbreviation start := (_region_start d0).
Local Abbreviation words := (words_of d0).
Local Abbreviation lw := (live_words d0 a m).
Local Abbreviation rk := (rank d0 a m).
Local Abbreviation pp := (position d0 a m).

Lemma words_range j : 0 <= words j <= 65536.
Proof.
  split; [apply words_of_nonneg |]. unfold words_of. destruct (rd d0 j) as [r |] eqn:E; [| lia].
  by apply (u_words _ _ _ _ _ HU j).
Qed.

Lemma lw_range c : 0 <= lw c.
Proof. apply words_before_nonneg. apply words_of_nonneg. Qed.

Lemma rk_0 : rk 0 = 0.
Proof. done. Qed.

Lemma rk_S c : 0 <= c -> rk (c + 1) = rk c + if 0 <? lw c then 1 else 0.
Proof.
  intros Hc. unfold rank. replace (Z.to_nat (c + 1)) with (Z.to_nat c + 1)%nat by lia.
  rewrite zseq_app, sum_of_app. f_equal. simpl. unfold sum_of; simpl. rewrite Z2Nat.id by lia. by rewrite Z.add_0_l, Z.add_0_r.
Qed.

Lemma rk_mono c c' : 0 <= c <= c' -> 0 <= rk c <= rk c' /\ rk c' - rk c <= c' - c.
Proof.
  intros [H0 Hc]. pattern c'. apply Zlt_lower_bound_ind with (z := c); [| done]. clear c' Hc. intros c' IH Hc.
  destruct (decide (c' = c)) as [-> | Hne].
  - assert (0 <= rk c) by (apply sum_of_nonneg; intros; case_cmp; lia). lia.
  - specialize (IH (c' - 1) ltac:(lia)). replace c' with (c' - 1 + 1) by lia. rewrite rk_S by lia.
    destruct (0 <? lw (c' - 1)); lia.
Qed.

Lemma rk_lt c c' : 0 <= c < c' -> 0 < lw c -> rk c < rk c'.
Proof.
  intros Hc Hl. pose proof (rk_mono (c + 1) c' ltac:(lia)). rewrite rk_S in * by lia.
  destruct (Z.ltb_spec 0 (lw c)); lia.
Qed.

Lemma slot_of c i : 0 < m -> a + m * c <= i < a + m * (c + 1) -> (i - a) / m = c.
Proof. intros Hm Hi. symmetry. apply Z.div_unique with (r := i - a - m * c); lia. Qed.

Lemma pp_eq c i :
  a + m * c <= i < a + m * (c + 1) ->
  pp i = 65536 * (a + m * rk c) + sum_of words (zseq (a + m * c) (Z.to_nat (i - (a + m * c)))).
Proof.
  intros Hi. pose proof (u_sizes _ _ _ _ _ HU). unfold position. rewrite (slot_of c i) by lia. done.
Qed.

Lemma words_prefix x t t' :
  0 <= t < t' -> sum_of words (zseq x (Z.to_nat t)) + words (x + t) <= sum_of words (zseq x (Z.to_nat t')).
Proof.
  intros Ht. replace (Z.to_nat t') with (Z.to_nat t + S (Z.to_nat (t' - t - 1)))%nat by lia.
  rewrite zseq_app, sum_of_app. cbn [zseq]. rewrite sum_of_cons, Z2Nat.id by lia.
  assert (0 <= sum_of words (zseq (x + t + 1) (Z.to_nat (t' - t - 1))))
    by (apply sum_of_nonneg; intros; apply words_of_nonneg).
  lia.
Qed.

Lemma slot_bounds i :
  a <= i < a + m * n -> exists c, 0 <= c < n /\ a + m * c <= i < a + m * (c + 1).
Proof.
  intros Hi. destruct (u_sizes _ _ _ _ _ HU) as (Ha & Hm & Hn & He).
  exists ((i - a) / m). pose proof (Z.mul_div_le (i - a) m ltac:(lia)).
  pose proof (Z.mul_succ_div_gt (i - a) m ltac:(lia)). split; [| lia]. split.
  - apply Z.div_pos; lia.
  - apply Z.div_lt_upper_bound; lia.
Qed.

(** The words of a region stay in the container that its container goes to. *)
Lemma pp_range c i :
  0 <= c < n -> a + m * c <= i < a + m * (c + 1) ->
  65536 * (a + m * rk c) <= pp i /\ pp i + words i <= 65536 * (a + m * rk c) + lw c.
Proof.
  intros Hc Hi. rewrite (pp_eq c i Hi).
  assert (0 <= sum_of words (zseq (a + m * c) (Z.to_nat (i - (a + m * c)))))
    by (apply sum_of_nonneg; intros; apply words_of_nonneg).
  pose proof (words_prefix (a + m * c) (i - (a + m * c)) m ltac:(lia)) as Hp.
  replace (a + m * c + (i - (a + m * c))) with i in Hp by lia.
  unfold live_words, words_before. lia.
Qed.

Lemma pp_separate : separate words pp a (a + m * n).
Proof.
  intros j k Hj Hk Hlt. destruct (u_sizes _ _ _ _ _ HU) as (Ha & Hm & Hn & He).
  destruct (slot_bounds j Hj) as (c & Hc & Hjc). destruct (slot_bounds k Hk) as (c' & Hc' & Hkc).
  assert (c <= c') as Hle by nia.
  destruct (decide (c = c')) as [<- | Hne].
  - right; right. rewrite (pp_eq c j), (pp_eq c k) by done.
    pose proof (words_prefix (a + m * c) (j - (a + m * c)) (k - (a + m * c)) ltac:(lia)) as Hp.
    replace (a + m * c + (j - (a + m * c))) with j in Hp by lia. lia.
  - destruct (Z.le_gt_cases (words j) 0) as [H0 | H0]; [by left |]. right; right.
    destruct (pp_range c j Hc Hjc) as [Hj1 Hj2]. destruct (pp_range c' k Hc' Hkc) as [Hk1 _].
    pose proof (u_fits _ _ _ _ _ HU c Hc). assert (0 < lw c) as Hl by lia.
    pose proof (rk_lt c c' ltac:(lia) Hl).
    assert (m * rk c + m <= m * rk c') by nia. lia.
Qed.

(** *** The state between two turns *)

Definition st (g : Z -> RegionData -> RegionData) (e : EmptyRegionData) (h : heap) : world :=
  set_headers (set_data w0 (with_empty (apply g d0) e)) h.

Lemma on_empty_run {A} (f : EmptyRegionData -> option (A * EmptyRegionData)) g e h x e' :
  f e = Some (x, e') -> on_empty f (st g e h) = Some (x, st g e' h).
Proof. intros H. unfold on_empty. simpl. by rewrite H. Qed.

Lemma load_st g e h q k : h !! q = Some k -> on_headers (load q) (st g e h) = Some (k, st g e h).
Proof. intros H. by apply Segments.on_headers_read, load_run. Qed.

Lemma store_st g e h q k f :
  h !! q = Some k -> on_headers (store q f) (st g e h) = Some (tt, st g e (<[q := f k]> h)).
Proof. intros H. by apply (Segments.on_headers_run _ (st g e h)), store_run. Qed.

Lemma tracks_st lo hi g e h :
  moves start words pp lo hi g -> tracks start (region_count d0) words (summary_data (st g e h)).
Proof.
  intros Hg. destruct (tracks_apply start (region_count d0) words pp g lo hi d0 Hg) as [[H1 H2 H3] H4 H5 H6].
  - split; [apply (u_covers _ _ _ _ _ HU) | done ..].
  - by split.
Qed.

(** The headers after [j] turns. *)
Definition top_of (j c : Z) (k : container) (t : Z) : Prop :=
  (forall i, 0 <= i < j -> 0 < lw i -> rk i = c -> t = _start k + 8 * lw i) /\
  (rk j <= c -> t = _start k \/ t = _top k /\ (lw c = 0 \/ j <= c)).
Definition tops (j : Z) (h : heap) : Prop :=
  (forall c, 0 <= c < n -> exists k t,
     headers w0 !! hs c = Some k /\ h !! hs c = Some (with_top k t) /\ top_of j c k t) /\
  (forall q, (forall c, 0 <= c < n -> q <> hs c) -> h !! q = headers w0 !! q).

Definition slots (c n : Z) : list Z := (fun c => a + m * c) <$> zseq c (Z.to_nat n).

Record stage (j : Z) (e : EmptyRegionData) (g : Z -> RegionData -> RegionData) (h : heap) : Prop := {
  s_moves : moves start words pp a (a + m * j) g;
  s_holds : holds e (slots (rk j) (j - rk j));
  s_room : _next_append e <= _next_append (_empty_region_data d0) + j;
  s_length : length (_empty_region_array e) = length (_empty_region_array (_empty_region_data d0));
  s_tops : tops j h
}.

Lemma slots_cons c k : 0 < k -> slots c k = (a + m * c) :: slots (c + 1) (k - 1).
Proof. intros Hk. unfold slots. by replace (Z.to_nat k) with (S (Z.to_nat (k - 1))) by lia. Qed.

Lemma slots_snoc c k : 0 <= k -> slots c (k + 1) = slots c k ++ [a + m * (c + k)].
Proof.
  intros Hk. unfold slots. replace (Z.to_nat (k + 1)) with (Z.to_nat k + 1)%nat by lia.
  rewrite zseq_app, fmap_app, Z2Nat.id by lia. done.
Qed.

Lemma slots_nil c : slots c 0 = [].
Proof. done. Qed.

Lemma slot_start c k :
  0 <= c < n -> headers w0 !! hs c = Some k ->
  _start k = start + 8 * (65536 * (a + m * c)) /\
  _hard_end k = start + 8 * (65536 * (a + m * (c + 1))) /\ unlinked k.
Proof.
  intros Hc Hk. destruct (u_sizes _ _ _ _ _ HU) as (Ha & Hm & Hn & He).
  destruct (u_header _ _ _ _ _ HU c Hc) as (k' & Hk' & Hs & Hh & Hu). simplify_eq.
  assert (0 <= m * c /\ m * (c + 1) <= m * n) by nia.
  rewrite Hs, Hh, !(region_to_addr_eq d0 (u_covers _ _ _ _ _ HU)) by lia. done.
Qed.

Lemma hs_inj c c' : 0 <= c < n -> 0 <= c' < n -> hs c = hs c' -> c = c'.
Proof.
  intros Hc Hc' Heq. destruct (u_sizes _ _ _ _ _ HU) as (Ha & Hm & Hn & He).
  destruct (u_header _ _ _ _ _ HU c Hc) as (k & Hk & _). pose proof Hk as Hk'. rewrite Heq in Hk'.
  destruct (slot_start c k Hc Hk) as [H1 _]. destruct (slot_start c' k Hc' Hk') as [H2 _]. nia.
Qed.

Lemma rk_le j : 0 <= j -> 0 <= rk j <= j.
Proof. intros Hj. pose proof (rk_mono 0 j ltac:(lia)). rewrite rk_0 in *. lia. Qed.

(** A header of the space changed. *)
Lemma tops_insert j j' h c k t :
  0 <= c < n -> headers w0 !! hs c = Some k ->
  (forall c' k' t', 0 <= c' < n -> c' <> c -> headers w0 !! hs c' = Some k' ->
     top_of j c' k' t' -> top_of j' c' k' t') ->
  top_of j' c k t -> tops j h -> tops j' (<[hs c := with_top k t]> h).
Proof.
  intros Hc Hk Hoth Ht [H1 H2]. split.
  - intros c' Hc'. destruct (decide (c' = c)) as [-> | Hne].
    + exists k, t. by rewrite lookup_insert_eq.
    + destruct (H1 c' Hc') as (k' & t' & Hk' & Hh' & Ht'). exists k', t'.
      rewrite lookup_insert_ne by (intros E; apply Hne; symmetry; by apply hs_inj). eauto.
  - intros q Hq. rewrite lookup_insert_ne by (intros E; by apply (Hq c)). auto.
Qed.

(** The source that moves away becomes empty. *)
Lemma top_of_moved c k : 0 <= c -> rk c <> c -> top_of (c + 1) c k (_start k).
Proof.
  intros Hc0 Hc. split; [| intros _; by left].
  intros i Hi Hl Hr. pose proof (rk_le i ltac:(lia)). destruct (decide (i = c)) as [-> |]; lia.
Qed.

Lemma tops_empty j h k :
  0 <= j < n -> lw j = 0 -> headers w0 !! hs (rk j) = Some k -> tops j h ->
  tops (j + 1) (<[hs (rk j) := with_top k (_start k)]> h).
Proof.
  intros Hj Hl Hk Ht. pose proof (rk_le j ltac:(lia)) as Hr.
  assert (rk (j + 1) = rk j) as Hs by (rewrite rk_S, Hl by lia; simpl; lia).
  apply (tops_insert j); [lia | done | | | done].
  - intros c' k' t' Hc' Hne _ [H1 H2]. split.
    + intros i Hi Hp. apply H1; [| done]. destruct (decide (i = j)) as [-> |]; lia.
    + rewrite Hs. intros Hle. destruct (H2 Hle) as [-> | [-> Hd]]; [by left | right]. split; [done |].
      destruct (decide (c' = j)) as [-> |]; [by left |]. destruct Hd; [by left | right; lia].
  - split; [| intros _; by left]. intros i Hi Hp Hi'. pose proof (rk_lt i (j + 1) ltac:(lia) Hp). lia.
Qed.

Lemma tops_full j h k :
  0 <= j < n -> 0 < lw j -> headers w0 !! hs (rk j) = Some k -> tops j h ->
  forall ks, headers w0 !! hs j = Some ks ->
  let h1 := <[hs (rk j) := with_top k (_start k + 8 * lw j)]> h in
  tops (j + 1) (if rk j =? j then h1 else <[hs j := with_top ks (_start ks)]> h1).
Proof.
  intros Hj Hl Hk Ht ks Hks h1. pose proof (rk_le j ltac:(lia)) as Hr.
  assert (rk (j + 1) = rk j + 1) as Hs by (rewrite rk_S by lia; case_cmp; lia).
  assert (top_of (j + 1) (rk j) k (_start k + 8 * lw j)) as Hown.
  { split; [| lia]. intros i Hi Hp Hi'. destruct (decide (i = j)) as [-> |]; [done |].
    pose proof (rk_lt i j ltac:(lia) Hp). lia. }
  assert (forall c' k' t', 0 <= c' < n -> c' <> rk j -> c' <> j -> headers w0 !! hs c' = Some k' ->
    top_of j c' k' t' -> top_of (j + 1) c' k' t') as Hoth.
  { intros c' k' t' Hc' Hne Hnj _ [H1 H2]. split.
    - intros i Hi Hp Hi'. apply H1; [| done | done]. destruct (decide (i = j)) as [-> |]; lia.
    - rewrite Hs. intros Hle. destruct (H2 ltac:(lia)) as [-> | [-> Hd]]; [by left | right].
      split; [done |]. destruct Hd; [by left | right; lia]. }
  destruct (Z.eqb_spec (rk j) j) as [He | He].
  - apply (tops_insert j); [lia | done | | done | done]. intros. apply Hoth; [done | lia | lia | done | done].
  - (* the target first, seen as an update of stage [j + 1] everywhere but at [j] *)
    assert (forall c, 0 <= c < n -> c <> j -> exists k' t', headers w0 !! hs c = Some k' /\
      h1 !! hs c = Some (with_top k' t') /\ top_of (j + 1) c k' t') as H1.
    { intros c Hc Hcj. destruct (decide (c = rk j)) as [-> | Hne].
      - exists k, (_start k + 8 * lw j). unfold h1. by rewrite lookup_insert_eq.
      - destruct Ht as [Ht _]. destruct (Ht c Hc) as (k' & t' & Hk' & Hh' & Ht'). exists k', t'.
        unfold h1. rewrite lookup_insert_ne by (intros E; apply Hne; symmetry; apply hs_inj; [lia | done | done]).
        split_and!; [done | done |]. by apply Hoth. }
    split.
    + intros c Hc. destruct (decide (c = j)) as [-> | Hne].
      * exists ks, (_start ks). rewrite lookup_insert_eq. split_and!; [done | done |].
        apply top_of_moved; [lia | done].
      * rewrite lookup_insert_ne by (intros E; apply Hne; symmetry; apply hs_inj; [lia | done | done]). auto.
    + intros q Hq. unfold h1. rewrite lookup_insert_ne by (intros E; by apply (Hq j)).
      rewrite lookup_insert_ne by (intros E; apply (Hq (rk j)); [lia | done]). by apply Ht.
Qed.

(** The array of empty regions once the target of the turn [j] is taken from it. *)
Definition taken (j : Z) (e : EmptyRegionData) : Prop :=
  if rk j =? j then holds e []
  else holds e (slots (rk j + 1) (j - rk j - 1)) /\ 0 < _empty_region_idx e.

Lemma take_run j e g h :
  0 <= j -> holds e (slots (rk j) (j - rk j)) ->
  exists e', take_target (a + m * j) (st g e h) =
      Some (a + m * rk j, st g e' h) /\
    taken j e' /\ _next_append e' = _next_append e /\
    length (_empty_region_array e') = length (_empty_region_array e).
Proof.
  intros Hj Hh. pose proof (rk_le j Hj). unfold taken.
  assert (has_empty (st g e h) = Some (negb (rk j =? j), st g e h)) as Hrun.
  { unfold has_empty. rewrite M_get_bind, M_ret_run. do 2 f_equal. simpl.
    rewrite (has_empty_holds e _ Hh). f_equal. destruct (Z.eqb_spec (rk j) j) as [Heq | Hne].
    - rewrite Heq, Z.sub_diag, slots_nil. done.
    - by rewrite slots_cons by lia. }
  unfold take_target. mrun Hrun. destruct (Z.eqb_spec (rk j) j) as [Heq | Hne]; cbn [negb].
  - exists e. rewrite M_ret_run, Heq. split_and!; [done | | done | done].
    by rewrite Heq, Z.sub_diag, slots_nil in Hh.
  - rewrite slots_cons in Hh by lia. destruct (remove_holds _ _ _ Hh) as (e' & Hr & Hh' & Hi & Hn & Hl).
    exists e'. split_and!; [by apply on_empty_run | done | | done | by rewrite Hl].
    pose proof (q_idx _ _ Hh). lia.
Qed.

(** The arrays at the end of the turn: the target is given back if nothing came to it,
    and the source becomes free unless it is its own target. *)
Lemma give_back j e :
  0 <= j -> lw j = 0 -> taken j e -> _next_append e < Z.of_nat (length (_empty_region_array e)) ->
  forall g h, exists e',
    (when (negb (a + m * rk j =? a + m * j)) (return_region (a + m * rk j));;
     append_region (a + m * j)) (st g e h) = Some (tt, st g e' h) /\
    holds e' (slots (rk (j + 1)) (j + 1 - rk (j + 1))) /\ _next_append e' = _next_append e + 1 /\
    length (_empty_region_array e') = length (_empty_region_array e).
Proof.
  intros Hj Hl Ht Hroom g h. pose proof (rk_le j Hj). pose proof (u_sizes _ _ _ _ _ HU).
  assert (rk (j + 1) = rk j) as -> by (rewrite rk_S, Hl by lia; simpl; lia).
  assert (exists e1, when (negb (a + m * rk j =? a + m * j)) (return_region (a + m * rk j)) (st g e h) =
      Some (tt, st g e1 h) /\ holds e1 (slots (rk j) (j - rk j)) /\ _next_append e1 = _next_append e /\
      length (_empty_region_array e1) = length (_empty_region_array e)) as (e1 & Hrun & Hh & Hn & Hlen).
  { unfold taken in Ht. destruct (Z.eqb_spec (rk j) j) as [Heq | Hne].
    - rewrite Heq, Z.eqb_refl, Z.sub_diag, slots_nil. by exists e.
    - destruct Ht as [Ht Hi]. destruct (return_holds e _ (a + m * rk j) Ht Hi) as (e1 & Hr & Hh & Hn & Hlen).
      exists e1. rewrite <- slots_cons in Hh by lia. split_and!; [| done ..].
      destruct (Z.eqb_spec (a + m * rk j) (a + m * j)); [nia |]. cbn [negb when].
      apply on_empty_run. by rewrite Hr. }
  mrun Hrun. destruct (append_holds e1 _ (a + m * j) Hh) as (e' & Ha & Hh' & Hn' & Hlen'); [lia |].
  exists e'. split_and!; [| | lia | lia].
  - apply on_empty_run. by rewrite Ha.
  - replace (j + 1 - rk j) with (j - rk j + 1) by lia. rewrite slots_snoc by lia.
    by replace (rk j + (j - rk j)) with j by lia.
Qed.

Lemma free_source j e :
  0 <= j -> 0 < lw j -> rk j <> j -> taken j e -> _next_append e < Z.of_nat (length (_empty_region_array e)) ->
  forall g h, exists e', append_region (a + m * j) (st g e h) = Some (tt, st g e' h) /\
    holds e' (slots (rk (j + 1)) (j + 1 - rk (j + 1))) /\ _next_append e' = _next_append e + 1 /\
    length (_empty_region_array e') = length (_empty_region_array e).
Proof.
  intros Hj Hl Hne Ht Hroom g h. pose proof (rk_le j Hj). unfold taken in Ht.
  destruct (Z.eqb_spec (rk j) j) as [? | _]; [done |]. destruct Ht as [Ht _].
  destruct (append_holds e _ (a + m * j) Ht Hroom) as (e' & Ha & Hh' & Hn' & Hlen').
  exists e'. split_and!; [| | lia | lia].
  - apply on_empty_run. by rewrite Ha.
  - rewrite rk_S by lia. destruct (Z.ltb_spec 0 (lw j)); [| lia].
    replace (j + 1 - (rk j + 1)) with (j - rk j - 1 + 1) by lia. rewrite slots_snoc by lia.
    by replace (rk j + 1 + (j - rk j - 1)) with j by lia.
Qed.

Local Abbreviation dest j := (start + 8 * (65536 * (a + m * rk j) + lw j)).

Lemma dest_range j : 0 <= j < n -> 0 <= start /\ dest j < 2 ^ 64 /\
  65536 * (a + m * rk j) + lw j < 65536 * region_count d0 /\ 0 <= a + m * rk j.
Proof.
  intros Hj. pose proof (u_sizes _ _ _ _ _ HU). pose proof (u_covers _ _ _ _ _ HU) as [H1 _ H3].
  pose proof (rk_le j ltac:(lia)). pose proof (u_fits _ _ _ _ _ HU j Hj).
  assert (m * rk j + m <= m * n /\ 0 <= m * rk j) by nia. lia.
Qed.

Lemma finish_run j e g h :
  0 <= j < n -> taken j e -> _next_append e < Z.of_nat (length (_empty_region_array e)) -> tops j h ->
  exists e' h', finish (a + m * j) (a + m * rk j) (hs j) (hs (rk j)) (dest j) (st g e h) =
      Some (tt, st g e' h') /\
    holds e' (slots (rk (j + 1)) (j + 1 - rk (j + 1))) /\ _next_append e' <= _next_append e + 1 /\
    length (_empty_region_array e') = length (_empty_region_array e) /\ tops (j + 1) h'.
Proof.
  intros Hj Ht Hroom Htops. pose proof (rk_le j ltac:(lia)) as Hr. pose proof (lw_range j).
  pose proof (dest_range j Hj) as Hd. pose proof (u_sizes _ _ _ _ _ HU) as Hsz.
  destruct Htops as [Hin Hout]. pose proof (conj Hin Hout : tops j h) as Htops.
  destruct (Hin (rk j) ltac:(lia)) as (k & t & Hk & Hh & _).
  destruct (Hin j Hj) as (ks & ts & Hks & Hhs & _).
  destruct (slot_start (rk j) k ltac:(lia) Hk) as (Hst & _ & _).
  assert (dest j = _start k + 8 * lw j) as Hdest by lia.
  unfold finish. mrun (store_st g e h _ _ (fun k => with_top k (dest j)) Hh).
  rewrite Hdest. change (with_top (with_top k t) ?v) with (with_top k v).
  set (h1 := <[hs (rk j) := with_top k (_start k + 8 * lw j)]> h).
  mrun (load_st g e h1 _ _ (lookup_insert_eq h _ _)). cbn [with_top _top _start].
  rewrite pointer_delta_small by lia.
  replace ((_start k + 8 * lw j - _start k) / 8) with (lw j) by lia.
  destruct (Z.eqb_spec (lw j) 0) as [Hz | Hz].
  - destruct (give_back j e ltac:(lia) Hz Ht Hroom g h1) as (e' & Hrun & Hh' & Hn' & Hl').
    exists e', h1. split_and!; [done | done | lia | done |]. unfold h1. rewrite Hz, Z.add_0_r.
    by apply tops_empty.
  - pose proof (tops_full j h k Hj ltac:(lia) Hk Htops ks Hks) as Hf. cbv zeta in Hf. fold h1 in Hf.
    destruct (Z.eqb_spec (rk j) j) as [Heq | Hne].
    + exists e, h1. rewrite Heq, Z.eqb_refl. cbn [negb when]. split_and!; [done | | lia | done | done].
      unfold taken in Ht. rewrite Heq, Z.eqb_refl in Ht. rewrite rk_S, Heq by lia.
      destruct (Z.ltb_spec 0 (lw j)); [| lia]. by replace (j + 1 - (j + 1)) with 0 by lia.
    + destruct (Z.eqb_spec (a + m * rk j) (a + m * j)); [nia |]. cbn [negb when].
      assert (h1 !! hs j = Some (with_top ks ts)) as Hhs1.
      { unfold h1. rewrite lookup_insert_ne; [done |]. intros E. apply Hne. apply hs_inj; [lia | done | done]. }
      mrun (store_st g e h1 _ _ (fun k => with_top k (_start k)) Hhs1).
      destruct (free_source j e ltac:(lia) ltac:(lia) Hne Ht Hroom g
        (<[hs j := with_top ks (_start ks)]> h1)) as (e' & Hrun & Hh' & Hn' & Hl').
      eexists e', _. split_and!; [exact Hrun | done | lia | done | done].
Qed.

(** A region of the space that no turn reached. *)
Lemma region_st j g e h c i :
  moves start words pp a (a + m * j) g -> 0 <= c < n -> a + m * c <= i < a + m * (c + 1) ->
  exists r, rd (summary_data (st g e h)) i = Some r /\ _container r = hs c /\
    (a + m * j <= i -> scanned r = false).
Proof.
  intros Hg Hc Hi. pose proof (u_sizes _ _ _ _ _ HU) as (Ha & Hm & Hn & He).
  assert (m * (c + 1) <= m * n /\ 0 <= m * c) by nia.
  destruct (rd_Some d0 i) as [r0 Hr0]; [lia |].
  destruct (u_region _ _ _ _ _ HU c i r0 Hc Hi Hr0) as [Hcont Hscan].
  exists (g i r0). split_and!.
  - change (rd (apply g d0) i = Some (g i r0)). by rewrite rd_apply, Hr0.
  - by rewrite (k_container _ _ (t_kept _ _ _ _ _ _ _ _ (Hg i r0))).
  - intros Hj. unfold scanned. rewrite (t_scanned _ _ _ _ _ _ _ _ (Hg i r0)).
    destruct (Z.ltb_spec i (a + m * j)); [lia |]. rewrite andb_false_r. exact Hscan.
Qed.

Lemma idx_st g e h w :
  0 <= w <= 65536 * region_count d0 -> idx (start + 8 * w) (st g e h) = Some (w / 65536, st g e h).
Proof.
  intros Hw. pose proof (u_covers _ _ _ _ _ HU) as Hc. pose proof (c_start _ Hc). pose proof (c_end _ Hc).
  rewrite idx_run. do 2 f_equal. exact (addr_to_region_idx_words d0 Hc w ltac:(lia) ltac:(lia)).
Qed.

Lemma place_turn j g e h :
  0 <= j < n -> moves start words pp a (a + m * j) g ->
  exists g', moves start words pp a (a + m * (j + 1)) (fun i r => g' i (g i r)) /\
    place_loop (Z.to_nat m) (a + m * j) (start + 8 * (65536 * (a + m * rk j))) 0 (st g e h) =
      Some ((dest j, lw j), st (fun i r => g' i (g i r)) e h).
Proof.
  intros Hj Hg. pose proof (rk_le j ltac:(lia)) as Hr. pose proof (dest_range j Hj) as Hd.
  pose proof (u_sizes _ _ _ _ _ HU) as (Ha & Hm & Hn & He). pose proof (u_fits _ _ _ _ _ HU j Hj) as Hfit.
  pose proof (c_end _ (u_covers _ _ _ _ _ HU)).
  assert (m * (j + 1) <= m * n /\ 0 <= m * j) as Hb by nia.
  assert (forall lo hi, a <= lo -> hi <= a + m * n -> separate words pp lo hi) as Hsep.
  { intros lo hi Hlo Hhi x y ???. apply pp_separate; lia. }
  change (lw j) with (sum_of words (zseq (a + m * j) (Z.to_nat m))) in *.
  destruct (place_loop_run start (region_count d0) words pp (Z.to_nat m) (st g e h) (a + m * j)
    (65536 * (a + m * rk j)) 0) as (g' & Hg' & Hrun).
  - by apply (tracks_st a (a + m * j)).
  - apply words_range.
  - lia.
  - lia.
  - lia.
  - lia.
  - intros k Hk. apply pp_eq. lia.
  - apply Hsep; lia.
  - lia.
  - lia.
  - exists g'. split.
    + apply (moves_app start words pp a (a + m * j)); [lia | apply Hsep; lia | done |].
      by replace (a + m * (j + 1)) with (a + m * j + Z.of_nat (Z.to_nat m)) by lia.
    + rewrite Hrun, Z.add_0_l. do 2 f_equal. unfold st, set_headers, set_data; simpl. f_equal.
      change (apply g' (with_empty (apply g d0) e)) with (with_empty (apply g' (apply g d0)) e).
      by rewrite apply_apply.
Qed.

Lemma summarize_container_run j e g h :
  0 <= j < n -> stage j e g h ->
  exists e' g' h', summarize_container (a + m * j) (st g e h) = Some ((dest j, m), st g' e' h') /\
    stage (j + 1) e' g' h'.
Proof.
  intros Hj [Hg Hh Hroom Hlen Htops]. pose proof (rk_le j ltac:(lia)) as Hr. pose proof (lw_range j).
  pose proof (dest_range j Hj) as Hd. pose proof (u_sizes _ _ _ _ _ HU) as (Ha & Hm & Hn & He).
  pose proof (u_empty _ _ _ _ _ HU) as Hemp.
  assert (m * (j + 1) <= m * n /\ 0 <= m * j /\ m * (rk j + 1) <= m * n /\ 0 <= m * rk j) as Hb by nia.
  destruct (take_run j e g h ltac:(lia) Hh) as (e1 & Htake & Ht & Hn1 & Hl1).
  unfold summarize_container. mrun Htake.
  destruct (region_st j g e1 h j (a + m * j) Hg Hj ltac:(lia)) as (rs & Hrs & Hcs & _).
  destruct (region_st j g e1 h (rk j) (a + m * rk j) Hg ltac:(lia) ltac:(lia)) as (rt & Hrt & Hct & _).
  mrun (reg_run _ _ _ Hrs). mrun (reg_run _ _ _ Hrt). rewrite Hcs, Hct.
  destruct (proj1 Htops j Hj) as (ks & ts & Hks & Hhs & _).
  destruct (proj1 Htops (rk j) ltac:(lia)) as (kt & tt' & Hkt & Hht & _).
  destruct (slot_start j ks Hj Hks) as (Hss & Hse & Hsu).
  destruct (slot_start (rk j) kt ltac:(lia) Hkt) as (Hts & Hte & Htu).
  mrun (load_st g e1 h _ _ Hhs). mrun (load_st g e1 h _ _ Hht). cbn [with_top _hard_end _end _start].
  rewrite Hse, Hte. mrun (idx_st g e1 h (65536 * (a + m * (j + 1))) ltac:(lia)).
  mrun (idx_st g e1 h (65536 * (a + m * (rk j + 1))) ltac:(lia)).
  replace (65536 * (a + m * (j + 1)) / 65536 - (a + m * j)) with m by lia.
  replace (65536 * (a + m * (rk j + 1)) / 65536 - (a + m * rk j)) with m by lia.
  assert (i32 m = m) as -> by (apply swrap_small; lia).
  rewrite Z.gtb_ltb, Z.ltb_irrefl, M_ret_bind. cbv beta iota.
  mrun (load_st g e1 h _ _ Hht). rewrite M_get_bind.
  change (region_to_addr (summary_data (st g e1 h))) with (region_to_addr d0).
  rewrite (region_to_addr_eq d0 (u_covers _ _ _ _ _ HU)) by lia.
  destruct (place_turn j g e1 h Hj Hg) as (g' & Hg' & Hplace).
  mrun Hplace. cbv beta iota. mrun (Segments.on_headers_read _ (st _ e1 h) _ (field_run h _ _ _next_segment Hhs)).
  cbn [with_top _next_segment]. rewrite (proj1 Hsu). rewrite M_gets_bind. cbn [segments_loop].
  rewrite Z.eqb_refl, M_ret_bind.
  destruct (finish_run j e1 (fun i r => g' i (g i r)) h Hj Ht ltac:(lia) Htops)
    as (e' & h' & Hfin & Hh' & Hn' & Hl' & Htops').
  mrun Hfin.
  destruct (proj1 Htops' j Hj) as (ks' & ts' & Hks' & Hhs' & _).
  destruct (proj1 Htops' (rk j) ltac:(lia)) as (kt' & tt'' & Hkt' & Hht' & _). simplify_eq.
  mrun (Segments.on_headers_read _ (st _ e' h') _ (relink_none h' _ _ _ _ Hhs' Hht' Hsu Htu)).
  exists e', (fun i r => g' i (g i r)), h'. split; [done |]. split; [done | done | lia | lia | done].
Qed.

(** The end of the data after [j] turns. *)
Definition ends (j tn : Z) : Prop :=
  exists x, tn = start + 8 * x /\ (rk j = 0 -> x = 65536 * a) /\
    (0 < rk j -> if lw (j - 1) =? 0 then x = 65536 * (a + m * rk j)
                 else 65536 * (a + m * (rk j - 1)) < x < 65536 * (a + m * rk j)).

Lemma ends_step j tn :
  0 <= j < n -> ends j tn -> ends (j + 1) (if tn <? dest j then dest j else tn).
Proof.
  intros Hj (x & -> & H0 & Hp). pose proof (rk_le j ltac:(lia)) as Hr. pose proof (lw_range j) as Hl.
  pose proof (u_fits _ _ _ _ _ HU j Hj) as Hf. pose proof (u_sizes _ _ _ _ _ HU) as (Ha & Hm & _).
  set (y := 65536 * (a + m * rk j) + lw j).
  assert (x <= 65536 * (a + m * rk j) /\ (rk j = 0 -> x = 65536 * (a + m * rk j))) as [Hx Hx0].
  { destruct (decide (rk j = 0)) as [Hz | Hz]; [rewrite H0 by done; rewrite Hz; lia |].
    specialize (Hp ltac:(lia)). destruct (lw (j - 1) =? 0); lia. }
  exists (if x <? y then y else x). split.
  { fold y. case_cmp; done || lia. }
  rewrite rk_S, Z.add_simpl_r by lia.
  destruct (Z.eqb_spec (lw j) 0) as [Hz | Hz]; destruct (Z.ltb_spec 0 (lw j)); try lia;
    rewrite ?Z.add_0_r, ?Z.add_simpl_r; destruct (Z.ltb_spec x y); unfold y in *; split; intros; lia.
Qed.

Lemma bda_loop_run k : forall j fuel e g h tn,
  j + Z.of_nat k = n -> (k < fuel)%nat -> 0 <= j -> stage j e g h -> ends j tn ->
  exists e' g' h' tn', bda_loop fuel (a + m * n) (a + m * j) tn (st g e h) = Some (tn', st g' e' h') /\
    stage n e' g' h' /\ ends n tn'.
Proof.
  pose proof (u_sizes _ _ _ _ _ HU) as (Ha & Hm & Hn & He).
  pose proof (c_start _ (u_covers _ _ _ _ _ HU)). pose proof (c_end _ (u_covers _ _ _ _ _ HU)).
  induction k as [| k IH]; intros j fuel e g h tn Hk Hf Hj0 Hs Hend; (destruct fuel as [| fuel]; [lia |]);
    cbn [bda_loop].
  - replace j with n in * by lia. rewrite Z.ltb_irrefl. eauto 10.
  - assert (m * (j + 1) <= m * n /\ 0 <= m * j) by nia.
    destruct (Z.ltb_spec (a + m * j) (a + m * n)); [| lia].
    destruct (region_st j g e h j (a + m * j)) as (r & Hr & _ & Hscan); [apply Hs | lia | lia |].
    mrun (reg_run _ _ _ Hr). rewrite Hscan by lia.
    destruct (summarize_container_run j e g h ltac:(lia) Hs) as (e1 & g1 & h1 & Hrun & Hs1).
    mrun Hrun. cbv beta iota. rewrite u64_small by ulia.
    replace (a + m * j + m) with (a + m * (j + 1)) by lia.
    apply IH; [lia | lia | lia | done |]. apply ends_step; [lia | done].
Qed.

Lemma stage_start :
  stage 0 (empty_reset (_empty_region_data d0)) (fun _ r => r) (headers w0).
Proof.
  pose proof (u_empty _ _ _ _ _ HU). pose proof (u_sizes _ _ _ _ _ HU). split.
  - rewrite Z.mul_0_r, Z.add_0_r. apply moves_none.
  - rewrite rk_0. split; simpl; [lia | lia | lia | done].
  - simpl. lia.
  - done.
  - split; [| done]. intros c Hc. destruct (u_header _ _ _ _ _ HU c Hc) as (k & Hk & _).
    exists k, (_top k). split_and!; [done | rewrite Hk; by destruct k |]. split; [lia |].
    intros _. right. split; [done | right; lia].
Qed.

(** The end of the space after the summary. *)
Definition space_end : Z :=
  if rk n =? 0 then region_to_addr d0 a
  else if lw (n - 1) =? 0 then region_to_addr d0 (a + m * (rk n + 1)) else region_to_addr d0 (a + m * rk n).

Lemma slide_run :
  exists e g h, summarize_bda_regions (region_to_addr d0 a) (region_to_addr d0 (a + m * n)) w0 =
      Some (space_end, st g e h) /\ stage n e g h.
Proof.
  pose proof (u_sizes _ _ _ _ _ HU) as (Ha & Hm & Hn & He). pose proof (u_covers _ _ _ _ _ HU) as Hc.
  pose proof (c_start _ Hc). pose proof (c_end _ Hc). assert (0 <= m * n) by nia.
  pose proof (rk_le n Hn) as Hrn.
  assert (0 < rk n -> exists c, 0 <= c < n /\ space_end = start + 8 * (65536 * (a + m * (c + 1))) /\
    forall x, (if lw (n - 1) =? 0 then x = 65536 * (a + m * rk n)
               else 65536 * (a + m * (rk n - 1)) < x < 65536 * (a + m * rk n)) ->
      a + m * c <= x / 65536 < a + m * (c + 1)) as Hlast.
  { intros Hp. unfold space_end. destruct (Z.eqb_spec (rk n) 0); [lia |].
    destruct (Z.eqb_spec (lw (n - 1)) 0) as [Hz | Hz].
    - assert (rk n = rk (n - 1)) as Heq.
      { replace n with (n - 1 + 1) at 1 by lia. rewrite rk_S, Hz by lia. simpl. lia. }
      pose proof (rk_le (n - 1) ltac:(lia)). assert (m * (rk n + 1) <= m * n /\ 0 <= m * rk n) by nia.
      exists (rk n). split_and!; [lia | lia | apply (region_to_addr_eq d0 Hc); lia |]. intros x ->. lia.
    - assert (m * rk n <= m * n /\ 0 <= m * (rk n - 1)) by nia.
      exists (rk n - 1). rewrite (region_to_addr_eq d0 Hc) by lia. split_and!; [lia | lia | |].
      + do 4 f_equal. lia.
      + intros x Hx. replace (rk n - 1 + 1) with (rk n) by lia. lia. }
  unfold summarize_bda_regions. rewrite !(region_to_addr_eq d0 Hc) by lia.
  mrun (idx_run w0 _). mrun (idx_run w0 _). rewrite M_get_bind.
  rewrite !(addr_to_region_idx_words d0 Hc) by lia.
  replace (65536 * (a + m * n) / 65536) with (a + m * n) by lia. replace (65536 * a / 65536) with a by lia.
  rewrite (M_bind_Some _ _ w0 tt (st (fun _ r => r) (empty_reset (_empty_region_data d0)) (headers w0)));
    [| unfold on_empty, st; rewrite apply_id by done; done].
  destruct (bda_loop_run (Z.to_nat n) 0 (S (Z.to_nat (a + m * n - a)))
    (empty_reset (_empty_region_data d0)) (fun _ r => r) (headers w0) (region_to_addr d0 a))
    as (e & g & h & tn & Hrun & Hs & (x & -> & Hx0 & Hx)).
  - lia.
  - nia.
  - lia.
  - apply stage_start.
  - exists (65536 * a). rewrite (region_to_addr_eq d0 Hc) by lia. split_and!; [done | done |]. rewrite rk_0. lia.
  - rewrite Z.mul_0_r, Z.add_0_r in Hrun. mrun Hrun. exists e, g, h. split; [| done]. rewrite Z.gtb_ltb.
    destruct (decide (rk n = 0)) as [Hz | Hz].
    + rewrite Hx0, Z.ltb_irrefl by done. unfold space_end. rewrite Hz.
      rewrite (region_to_addr_eq d0 Hc) by lia. done.
    + specialize (Hx ltac:(lia)). destruct (Hlast ltac:(lia)) as (c & Hcn & -> & Hin). specialize (Hin x Hx).
      assert (m * (c + 1) <= m * n /\ 0 <= m * c /\ 0 <= m * (rk n - 1) /\ m * rk n <= m * n) by nia.
      destruct (Z.ltb_spec (start + 8 * (65536 * a)) (start + 8 * x));
        [| destruct (lw (n - 1) =? 0); lia].
      mrun (idx_st g e h x ltac:(destruct (lw (n - 1) =? 0); lia)).
      destruct (region_st n g e h c (x / 65536) (s_moves _ _ _ _ Hs) Hcn Hin) as (r & Hr & Hcont & _).
      mrun (reg_run _ _ _ Hr). rewrite Hcont.
      destruct (proj1 (s_tops _ _ _ _ Hs) c Hcn) as (k & t & Hk & Hh & _).
      destruct (slot_start c k Hcn Hk) as (_ & Hhe & _). rewrite <- Hhe.
      apply (Segments.on_headers_read _ (st g e h)). exact (field_run h _ _ _hard_end Hh).
Qed.

End Slide.

(** Data does not move up. *)
Lemma position_le w a m n hs i :
  uniform w a m n hs -> a <= i < a + m * n -> position (summary_data w) a m i <= 65536 * i.
Proof.
  intros HU Hi. pose proof (u_sizes _ _ _ _ _ HU) as (Ha & Hm & _).
  destruct (slot_bounds w a m n hs HU i Hi) as (c & Hc & Hic). rewrite (pp_eq w a m n hs HU c i Hic).
  pose proof (rk_le w a m c ltac:(lia)).
  pose proof (words_before_le (summary_data w) (a + m * c) (Z.to_nat (i - (a + m * c)))
    (fun j => proj2 (words_range w a m n hs HU j))) as Hle. unfold words_before in Hle.
  assert (m * rank (summary_data w) a m c <= m * c) by nia. lia.
Qed.

(** C12. The summary of a space of collections.  Let the space hold [n] containers of [m]
    regions each, from the region [a] on, none of them full and none with segments,
    and none summarised yet.  Then [summarize_bda_regions] succeeds.  It sends the data of a container to the
    container whose number is the number of containers with live data before it, so
    that they end up in their order in the first containers of the space, and it
    leaves no gap between the data of the regions of a container.  The number of
    destinations of a region is the number of other regions its data reaches, the
    source region of each region whose first word receives data is the region that
    the data comes from, no other source region changes, and what marking recorded is
    kept.  The top of every container that receives data is the end of that data;
    the other containers are empty, or they had no live data and keep their top.
    The new end of the space is that of the last container that receives data, or
    that of the one after it if the last container of the space had no live data. *)
Theorem containers_slide (w : world) (a m n : Z) (hs : Z -> Z) (HU : uniform w a m n hs) :
  let d := summary_data w in
  let live := live_words d a m in
  let slot := rank d a m in
  let at_ := position d a m in
  let in_space i := a <= i < a + m * n in
  exists w', summarize_bda_regions (region_to_addr d a) (region_to_addr d (a + m * n)) w =
      Some (if slot n =? 0 then region_to_addr d a
            else if live (n - 1) =? 0 then region_to_addr d (a + m * (slot n + 1))
            else region_to_addr d (a + m * slot n), w') /\
    (forall i r, rd d i = Some r -> exists r', rd (summary_data w') i = Some r' /\ kept r r' /\
       (in_space i -> scanned r' = true /\ _destination r' = _region_start d + 8 * at_ i /\
          (0 < data_size r -> destination_count r' =
             Z.of_nat (length (filter (fun k => k <> i) (reached (at_ i) (data_size r)))))) /\
       (forall j rj, rd d j = Some rj -> in_space j -> at_ j <= 65536 * i < at_ j + data_size rj ->
          _source_region r' = j) /\
       ((forall j rj, rd d j = Some rj -> in_space j -> ~ at_ j <= 65536 * i < at_ j + data_size rj) ->
          _source_region r' = _source_region r)) /\
    (forall c, 0 <= c < n -> exists k t, headers w !! hs c = Some k /\
       headers w' !! hs c = Some (with_top k t) /\
       (forall i, 0 <= i < n -> 0 < live i -> slot i = c -> t = _start k + 8 * live i) /\
       (slot n <= c -> t = _start k \/ t = _top k /\ live c = 0)).
Proof.
  intros d live slot at_ in_space. destruct (slide_run w a m n hs HU) as (e & g & h & Hrun & Hs).
  eexists. split; [exact Hrun |]. pose proof (s_moves _ _ _ _ _ _ _ _ _ Hs) as Hg.
  assert (forall j rj, rd d j = Some rj -> words_of d j = data_size rj) as Hwd
    by (intros j rj Hj; unfold words_of; by rewrite Hj).
  split.
  - intros i r Hr. exists (g i r). destruct (Hg i r) as [Hk Hd Hc _ Hso Hso' Hsc].
    rewrite <- (Hwd i r Hr). split_and!; [| done | | |].
    + change (rd (apply g d) i = Some (g i r)). by rewrite rd_apply, Hr.
    + intros Hi. unfold in_space in Hi. unfold scanned. rewrite Hsc, Hd.
      destruct (Z.leb_spec a i), (Z.ltb_spec i (a + m * n)); try lia. split_and!; [done | done |].
      intros Hp. rewrite Hc by done. apply dest_count_reached.
      * pose proof (u_sizes _ _ _ _ _ HU). destruct (slot_bounds w a m n hs HU i Hi) as (c & Hcn & Hic).
        pose proof (pp_range w a m n hs HU c i Hcn Hic). pose proof (rk_le w a m c ltac:(lia)).
        assert (0 <= m * rank (summary_data w) a m c) by nia. subst d at_. lia.
      * pose proof (words_range w a m n hs HU i). subst d. lia.
      * left. by apply (position_le w a m n hs).
    + intros j rj Hj Hin Hb. apply Hso; [done |]. unfold begins_in. fold d. change (position d a m j) with (at_ j). rewrite (Hwd j rj Hj).
      case_cmp; done || lia.
    + intros Hno. apply Hso'. intros j Hin. destruct (rd d j) as [rj |] eqn:Hj.
      * specialize (Hno j rj Hj Hin). unfold begins_in. fold d. change (position d a m j) with (at_ j). rewrite (Hwd j rj Hj).
        case_cmp; done || lia.
      * unfold begins_in, words_of. fold d. rewrite Hj. case_cmp; done || lia.
  - intros c Hc. destruct (proj1 (s_tops _ _ _ _ _ _ _ _ _ Hs) c Hc) as (k & t & Hk & Hh & Ht1 & Ht2).
    exists k, t. split_and!; [done | done | exact Ht1 |]. intros Hle.
    destruct (Ht2 Hle) as [-> | [-> [Hz | Hz]]]; [by left | by right | lia].
Qed.

(** Three containers of one region, with the live words [l], each filled to 1000
    words before the collection. *)
Definition sample_header (c : Z) : Z := 4096 + 128 * c.
Definition sample_container (c : Z) : container :=
  let start := 524288 + 524288 * c in
  mkContainer (start + 8000) start (start + 524288 - 24) (start + 524288) 0 2 NULL NULL NULL NULL.
Definition sample_space (l : Z -> Z) : world :=
  set_headers (set_data Segments.sample_world
    (mkData 524288 ((fun c => mkRegion 0 0 0 0 (l c) false (sample_header c) 0) <$> [0; 1; 2]) ∅ 1536
      (mkEmpty [0; 0; 0] 0 0)))
    (list_to_map ((fun c => (sample_header c, sample_container c)) <$> [0; 1; 2])).

Lemma sample_uniform l :
  (forall c, 0 <= l c < 65536) -> uniform (sample_space l) 0 1 3 sample_header.
Proof.
  intros Hl. assert (forall c, data_size (mkRegion 0 0 0 0 (l c) false (sample_header c) 0) = l c) as Hd.
  { intros c. specialize (Hl c). unfold data_size. rewrite live_obj_size_mod. simpl. ulia. }
  assert (forall i r, rd (summary_data (sample_space l)) i = Some r ->
    0 <= i < 3 /\ r = mkRegion 0 0 0 0 (l i) false (sample_header i) 0) as Hrd.
  { intros i r Hr. pose proof (rd_inv _ _ _ Hr) as Hi. change (region_count _) with 3 in Hi.
    split; [done |]. assert (i = 0 \/ i = 1 \/ i = 2) as [-> | [-> | ->]] by lia;
      injection Hr as <-; done. }
  split.
  - split; by vm_compute.
  - change (region_count _) with 3. lia.
  - intros i r Hr. destruct (Hrd i r Hr) as [_ ->]. rewrite Hd. specialize (Hl i). change RegionSize with 65536. lia.
  - intros c Hc. exists (sample_container c). assert (c = 0 \/ c = 1 \/ c = 2) as [-> | [-> | ->]] by lia; by vm_compute.
  - intros c i r Hc Hi Hr. destruct (Hrd i r Hr) as [_ ->]. replace i with c by lia. done.
  - intros c Hc. unfold live_words, words_before. change (Z.to_nat 1) with 1%nat.
    cbn [zseq]. rewrite sum_of_cons. unfold sum_of; simpl. unfold words_of.
    destruct (rd _ _) as [r |] eqn:Hr; [| lia]. destruct (Hrd _ r Hr) as [_ ->]. rewrite Hd.
    specialize (Hl (0 + 1 * c)). lia.
  - by vm_compute.
Qed.

Definition sample_live (c : Z) : Z := if c =? 0 then 100 else if c =? 2 then 50 else 0.

Lemma containers_slide_witness :
  exists w', summarize_bda_regions 524288 2097152 (sample_space sample_live) = Some (1572864, w') /\
    (exists r, rd (summary_data w') 2 = Some r /\ _destination r = 1048576 /\ destination_count r = 1) /\
    exists k, headers w' !! 4224 = Some k /\ Container._top k = 1048576 + 8 * 50.
Proof.
  destruct (containers_slide (sample_space sample_live) 0 1 3 sample_header) as (w' & Hrun & Hreg & Htop).
  - apply sample_uniform. intros c. unfold sample_live. destruct (c =? 0), (c =? 2); lia.
  - exists w'. split; [exact Hrun |]. split.
    + destruct (Hreg 2 _ eq_refl) as (r & Hr & _ & Hd & _). exists r. split; [exact Hr |].
      destruct (Hd ltac:(lia)) as (_ & Hdest & Hcount). rewrite Hdest, Hcount by (by vm_compute).
      split; vm_compute; reflexivity.
    + destruct (Htop 1 ltac:(lia)) as (k & t & Hk & Hh & Ht & _). exists (with_top k t). split; [exact Hh |].
      specialize (Ht 2 ltac:(lia) eq_refl eq_refl). simpl. rewrite Ht. injection Hk as <-. by vm_compute.
Defined.

(** A container with no live data that is not the target of another one keeps its top:
    it still counts as filled when it holds nothing. *)
Lemma dead_container_keeps_top :
  let w := sample_space (fun c => if c =? 0 then 100 else 0) in
  live_words (summary_data w) 0 1 2 = 0 /\
  Container._top (sample_container 2) <> Container._start (sample_container 2) /\
  (fun r => (r.1, headers r.2 !! sample_header 2)) <$> summarize_bda_regions 524288 2097152 w =
    Some (1572864, Some (sample_container 2)).
Proof. split_and!; [by vm_compute | by vm_compute | vm_compute; reflexivity]. Qed.
End SlideBDA.
