(* ===== verification/CardTable.v ===== *)
(** * Scanning the cards of the old generation

    [memory/cardTableModRefBS.hpp] and
    [gc_implementation/parallelScavenge/cardTableExtension.hpp] and [.cpp]: the scavenger looks
    for the references from the old generation into the young one in the objects that lie on
    cards that are not clean.  [scavenge_contents_parallel] scans a space,
    [scavenge_nonbda_contents_parallel] a part of it between two segments of containers, both
    striped over the tasks, and [scavenge_bda_contents_parallel] the segment of a container.

    Several threads scan at the same time and the pushing of references marks cards.  The state
    is therefore abstract: a task reads and writes cards and pushes the contents of objects by
    the operations of an interface, each of which may also do what other threads do
    meanwhile.  What the task does itself, the objects that it scans and the cards that it
    cleans, is logged in their order. *)

From Stdlib Require Import ZArith Lia.
From stdpp Require Import base numbers sets list.
From S2P Require Import Prelude GlobalDefs ObjectStartArray.

Local Open Scope Z_scope.

Module CardTable.

(** ** Cards *)

Definition clean_card : Z := -1.
Definition dirty_card : Z := 0.
Definition youngergen_card : Z := 17.
Definition verify_card : Z := 21.
Definition card_shift : Z := 9.

Definition card_is_dirty (value : Z) : bool := value =? dirty_card.
Definition card_is_newgen (value : Z) : bool := value =? youngergen_card.
Definition card_is_clean (value : Z) : bool := value =? clean_card.
Definition card_is_verify (value : Z) : bool := value =? verify_card.

(** What a task does to the memory that it shares with others. *)
Class CardMemory (S : Type) := {
  read_card : Z -> M S Z;
  write_card : Z -> Z -> M S unit;
  push_contents : Z -> M S unit;
  push_bdaref_contents : Z -> Z -> M S unit;
  drain_stacks : M S unit;
  drain_bda_stacks : M S unit
}.

Inductive event := Scan (o : Z) | Clean (card : Z).

Section Scan.
Context {S : Type} {HS : CardMemory S}.

(** The state and the log. *)
Definition run {A} (m : M S A) : M (S * list event) A := fun '(s, log) =>
  match m s with Some (x, s) => Some (x, (s, log)) | None => None end.
Definition note (e : event) : M (S * list event) unit := modify (fun '(s, log) => (s, log ++ [e])).

(** The table of cards, the sizes of objects, and the object start array. *)
Context (byte_map_base : Z) (size_of : Z -> Z) (start_array : ObjectStartArray.ObjectStartArray).

Definition byte_for (p : Z) : Z := u64 (byte_map_base + Z.shiftr p card_shift).
Definition addr_for (p : Z) : Z := u64 (Z.shiftl (pointer_delta_sz p byte_map_base 1) card_shift).

Definition addr_is_marked_imprecise (addr : Z) : M (S * list event) bool :=
  val ← run (read_card (byte_for addr));
  mret (card_is_dirty val || card_is_newgen val).
Definition addr_is_marked_precise (addr : Z) : M (S * list event) bool :=
  val ← run (read_card (byte_for addr));
  mret (card_is_newgen val || card_is_verify val).

Definition object_start (addr low_bound : Z) : M (S * list event) Z :=
  lift_opt (ObjectStartArray.object_start_bound size_of start_array addr low_bound).

(** ** The loops over the cards of a slice *)

Definition loop_fuel (from to : Z) : nat := Datatypes.S (Z.to_nat (to - from)).

(** The first card from [current_card] on that is not clean, and the first that is clean. *)
Fixpoint skip_clean (fuel : nat) (end_card current_card : Z) : M (S * list event) Z :=
  match fuel with
  | O => stuck
  | Datatypes.S fuel =>
    if current_card <? end_card then
      v ← run (read_card current_card);
      if card_is_clean v then skip_clean fuel end_card (current_card + 1) else mret current_card
    else mret current_card
  end.
Fixpoint skip_unclean (fuel : nat) (end_card current_card : Z) : M (S * list event) Z :=
  match fuel with
  | O => stuck
  | Datatypes.S fuel =>
    if current_card <? end_card then
      v ← run (read_card current_card);
      if negb (card_is_clean v) then skip_unclean fuel end_card (current_card + 1) else mret current_card
    else mret current_card
  end.

(** The end of a run of cards that are not clean; an object that reaches from it into other
    cards makes it longer. *)
Fixpoint unclean_run (fuel : nat) (bottom end_card current_card : Z) : M (S * list event) Z :=
  match fuel with
  | O => stuck
  | Datatypes.S fuel =>
    if current_card <? end_card then
      v ← run (read_card current_card);
      if negb (card_is_clean v) then
        current_card ← skip_unclean (loop_fuel current_card end_card) end_card current_card;
        current_card ←
          (if current_card <? end_card then
             last_object_in_dirty_region ← object_start (hw_sub (addr_for current_card) 1) bottom;
             let end_of_last_object :=
               hw_add last_object_in_dirty_region (size_of last_object_in_dirty_region) in
             let ending_card_of_last_object := byte_for end_of_last_object in
             mret (if ending_card_of_last_object >? current_card then ending_card_of_last_object
                   else current_card)
           else mret current_card);
        unclean_run fuel bottom end_card current_card
      else mret current_card
    else mret current_card
  end.

Fixpoint clean_cards (fuel : nat) (following_clean_card first_unclean_card : Z) : M (S * list event) unit :=
  match fuel with
  | O => stuck
  | Datatypes.S fuel =>
    if first_unclean_card <? following_clean_card then
      note (Clean first_unclean_card);;
      run (write_card first_unclean_card clean_card);;
      clean_cards fuel following_clean_card (first_unclean_card + 1)
    else mret tt
  end.

(** How the contents of an object are pushed and how the stacks are drained. *)
Section Pushing.
Context (push : Z -> M S unit) (drain : M S unit).

(** The objects from [p] to [to]; the result is the end of the last one. *)
Fixpoint scan_objects (fuel : nat) (to p : Z) : M (S * list event) Z :=
  match fuel with
  | O => stuck
  | Datatypes.S fuel =>
    if p <? to then
      note (Scan p);;
      run (push p);;
      scan_objects fuel to (hw_add p (size_of p))
    else mret p
  end.

(** A turn of the loop over the cards: the card to go on with and the end of what was scanned. *)
Definition card_turn (bottom sp_top slice_end start_card end_card current_card last_scanned : Z)
    : M (S * list event) (Z * Z) :=
  current_card ← skip_clean (loop_fuel current_card end_card) end_card current_card;
  let first_unclean_card := current_card in
  current_card ← unclean_run (loop_fuel current_card end_card) bottom end_card current_card;
  let following_clean_card := current_card in
  last_scanned ←
    (if first_unclean_card <? end_card then
       p ← object_start (addr_for first_unclean_card) bottom;
       let p := if p <? last_scanned then last_scanned else p in
       let to := addr_for following_clean_card in
       let to := if to >? slice_end then slice_end else if to >? sp_top then sp_top else to in
       let first_unclean_card :=
         if first_unclean_card <=? start_card + 1 then start_card + 1 else first_unclean_card in
       let following_clean_card :=
         if following_clean_card >=? end_card - 1 then end_card - 1 else following_clean_card in
       clean_cards (loop_fuel first_unclean_card following_clean_card) following_clean_card first_unclean_card;;
       p ← scan_objects (loop_fuel p to) to p;
       run drain;;
       mret p
     else mret last_scanned);
  mret (current_card + 1, last_scanned).

Fixpoint card_loop (fuel : nat) (bottom sp_top slice_end start_card end_card current_card last_scanned : Z)
    : M (S * list event) Z :=
  match fuel with
  | O => stuck
  | Datatypes.S fuel =>
    if current_card <? end_card then
      '(current_card, last_scanned) ←
        card_turn bottom sp_top slice_end start_card end_card current_card last_scanned;
      card_loop fuel bottom sp_top slice_end start_card end_card current_card last_scanned
    else mret last_scanned
  end.

End Pushing.

(** ** The scans *)

(** The segment of the container [c] from [c_start] to the top that was saved. *)
Definition scavenge_bda_contents_parallel (c c_start c_top : Z) : M (S * list event) unit :=
  let sp_top := c_top in
  let start_card := byte_for c_start in
  let end_card := byte_for (hw_sub sp_top 1) + 1 in
  let slice_start := addr_for start_card in
  let slice_end := MIN2 c_top (addr_for end_card) in
  first_object ← object_start slice_start c_start;
  let '(last_scanned, start_card) :=
    if first_object <? slice_start then
      let last_scanned := hw_add first_object (size_of first_object) in (last_scanned, byte_for last_scanned)
    else (NULL, start_card) in
  slice_end ←
    (if slice_end <? c_top then
       last_object ← object_start (hw_sub slice_end 1) c_start;
       mret (hw_add last_object (size_of last_object))
     else mret slice_end);
  _ ← card_loop (fun m => push_bdaref_contents m c) drain_bda_stacks (loop_fuel start_card end_card) c_start sp_top slice_end start_card end_card start_card last_scanned;
  mret tt.

(** Work unit = 64k. *)
Definition ssize : Z := 128.

(** A slice of a stripe: what becomes of [last_scanned]. *)
Definition scan_slice (bottom sp_top end_card worker_start_card last_scanned : Z) : M (S * list event) Z :=
  let worker_end_card := worker_start_card + ssize in
  let worker_end_card := if worker_end_card >? end_card then end_card else worker_end_card in
  let slice_start := addr_for worker_start_card in
  let slice_end := MIN2 sp_top (addr_for worker_end_card) in
  starts ← lift_opt (ObjectStartArray.object_starts_in_range start_array slice_start slice_end);
  if negb starts then mret last_scanned
  else
    first_object ← object_start slice_start bottom;
    let '(last_scanned, worker_start_card) :=
      if first_object <? slice_start then
        let last_scanned := hw_add first_object (size_of first_object) in (last_scanned, byte_for last_scanned)
      else (last_scanned, worker_start_card) in
    '(slice_end, worker_end_card) ←
      (if slice_end <? sp_top then
         last_object ← object_start (hw_sub slice_end 1) bottom;
         let slice_end := hw_add last_object (size_of last_object) in
         let worker_end_card := byte_for slice_end + 1 in
         mret (slice_end, if worker_end_card >? end_card then end_card else worker_end_card)
       else mret (slice_end, worker_end_card));
    card_loop push_contents drain_stacks (loop_fuel worker_start_card worker_end_card) bottom sp_top slice_end
      worker_start_card worker_end_card worker_start_card last_scanned.

(** The loop over the slices of a stripe, which are [slice_width] cards apart. *)
Fixpoint slices_loop (fuel : nat) (bottom sp_top end_card stripe_number slice_width slice last_scanned : Z)
    : M (S * list event) unit :=
  match fuel with
  | O => stuck
  | Datatypes.S fuel =>
    if slice <? end_card then
      let worker_start_card := slice + u32 (stripe_number * ssize) in
      if worker_start_card >=? end_card then mret tt
      else
        last_scanned ← scan_slice bottom sp_top end_card worker_start_card last_scanned;
        slices_loop fuel bottom sp_top end_card stripe_number slice_width (slice + slice_width) last_scanned
    else mret tt
  end.

Definition scavenge_nonbda_contents_parallel (slice_bottom slice_top stripe_number stripe_total : Z)
    : M (S * list event) unit :=
  let sp_top := slice_top in
  let start_card := byte_for slice_bottom in
  let end_card := byte_for (hw_sub sp_top 1) + 1 in
  let slice_width := u32 (ssize * stripe_total) in
  slices_loop (loop_fuel start_card end_card) slice_bottom sp_top end_card stripe_number slice_width start_card NULL.

Definition scavenge_contents_parallel (bottom space_top stripe_number stripe_total : Z) : M (S * list event) unit :=
  let sp_top := space_top in
  let start_card := byte_for bottom in
  let end_card := byte_for (hw_sub sp_top 1) + 1 in
  let slice_width := u32 (ssize * stripe_total) in
  slices_loop (loop_fuel start_card end_card) bottom sp_top end_card stripe_number slice_width start_card NULL.

End Scan.

(** ** What the operations of the interface do to the others' cards *)

Definition scans (log : list event) : list Z :=
  omap (fun e => match e with Scan o => Some o | Clean _ => None end) log.

(** [dirty s c]: the card is not clean in the state; [K]: the cards that no other thread
    cleans; [I]: an invariant of the state. *)
Definition quiet {S} (I : S -> Prop) (dirty : S -> Z -> Prop) (K : Z -> Prop) (m : M S unit) : Prop :=
  forall s, I s -> exists s', m s = Some (tt, s') /\ I s' /\ forall d, K d -> dirty s d -> dirty s' d.
Record rely {S} {HS : CardMemory S} (I : S -> Prop) (dirty : S -> Z -> Prop) (K : Z -> Prop) : Prop := {
  read_ok : forall c s, I s -> exists v s', read_card c s = Some (v, s') /\ I s'
    /\ (forall d, K d -> dirty s d -> dirty s' d) /\ (K c -> (dirty s' c <-> v <> clean_card));
  write_ok : forall c s, I s -> exists s', write_card c clean_card s = Some (tt, s') /\ I s'
    /\ (forall d, K d -> d <> c -> dirty s d -> dirty s' d);
  push_ok : forall o, quiet I dirty K (push_contents o);
  push_bda_ok : forall o c, quiet I dirty K (push_bdaref_contents o c);
  drain_ok : quiet I dirty K drain_stacks;
  drain_bda_ok : quiet I dirty K drain_bda_stacks
}.

Section Rely.
Context {S : Type} {HS : CardMemory S} (I : S -> Prop) (dirty : S -> Z -> Prop) (K : Z -> Prop).

(** From [s], the events [l] lead to [s']. *)
Definition after (s s' : S) (l : list event) : Prop :=
  I s' /\ forall d, K d -> dirty s d -> Clean d ∉ l -> dirty s' d.

Lemma after_nil s : I s -> after s s [].
Proof. by split. Qed.

Lemma after_app s1 s2 s3 l1 l2 : after s1 s2 l1 -> after s2 s3 l2 -> after s1 s3 (l1 ++ l2).
Proof. intros [_ H1] [HI H2]. split; [done |]. intros d Hd Hs Hn. rewrite elem_of_app in Hn. naive_solver. Qed.

Lemma after_silent s s' : I s' -> (forall d, K d -> dirty s d -> dirty s' d) -> after s s' [].
Proof. intros HI H. split; [done | auto]. Qed.

Lemma after_same s s' d : after s s' [] -> K d -> dirty s d -> dirty s' d.
Proof. intros [_ H] Hd Hs. apply H; [done | done | apply not_elem_of_nil]. Qed.

Lemma run_Some {A} (m : M S A) s x s' log : m s = Some (x, s') -> run m (s, log) = Some (x, (s', log)).
Proof. intros H. unfold run. by rewrite H. Qed.

Context (Hrely : rely I dirty K).

Lemma read_run c s log : I s ->
  exists v s', run (read_card c) (s, log) = Some (v, (s', log)) /\ after s s' []
  /\ (K c -> (dirty s' c <-> card_is_clean v = false)).
Proof using Hrely.
  intros HI. destruct (read_ok _ _ _ Hrely c s HI) as (v & s' & E & HI' & Hk & Hv).
  exists v, s'. split; [by apply run_Some |]. split; [by apply after_silent |].
  intros Hc. rewrite (Hv Hc). unfold card_is_clean. destruct (Z.eqb_spec v clean_card); split; try done.
Qed.

(** The cards skipped because they are clean; none of them was dirty. *)
Lemma skip_clean_run fuel end_card cur s log :
  I s -> (loop_fuel cur end_card <= fuel)%nat ->
  exists c' s', skip_clean fuel end_card cur (s, log) = Some (c', (s', log)) /\ after s s' []
  /\ cur <= c' /\ (c' <= end_card \/ c' = cur)
  /\ (forall d, K d -> cur <= d < c' -> ~ dirty s d)
  /\ (c' < end_card -> K c' -> dirty s' c').
Proof using Hrely.
  revert cur s. induction fuel as [|fuel IH]; intros cur s HI Hf; unfold loop_fuel in *; [lia |]. cbn [skip_clean].
  destruct (Z.ltb_spec cur end_card) as [Hlt | Hge].
  - destruct (read_run cur s log HI) as (v & s1 & E & Ha & Hv). mrun E.
    destruct (card_is_clean v) eqn:Ev.
    + destruct (IH (cur + 1) s1) as (c' & s' & E' & Ha' & Hge & Hle & Hn & Hd); [apply Ha | lia |].
      exists c', s'. split; [exact E' |]. split; [exact (after_app _ _ _ _ _ Ha Ha') |].
      split; [lia |]. split; [lia |]. split; [| done].
      intros d Hk Hr Hds. destruct (decide (d = cur)) as [-> | Hne].
      * apply (after_same _ _ _ Ha) in Hds; [| done]. apply (Hv Hk) in Hds. congruence.
      * apply (Hn d Hk ltac:(lia)). by apply (after_same _ _ _ Ha).
    + exists cur, s1. split; [done |]. split; [done |]. split; [lia |]. split; [lia |].
      split; [intros; lia |]. intros _ Hk. by apply Hv.
  - exists cur, s. split; [done |]. split; [by apply after_nil |]. split; [lia |]. split; [lia |]. split; lia.
Qed.

(** The cards skipped because they are not clean; the next one was not dirty. *)
Lemma skip_unclean_run fuel end_card cur s log :
  I s -> (loop_fuel cur end_card <= fuel)%nat ->
  exists c' s', skip_unclean fuel end_card cur (s, log) = Some (c', (s', log)) /\ after s s' []
  /\ cur <= c' /\ (c' <= end_card \/ c' = cur)
  /\ (c' < end_card -> K c' -> ~ dirty s c').
Proof using Hrely.
  revert cur s. induction fuel as [|fuel IH]; intros cur s HI Hf; unfold loop_fuel in *; [lia |]. cbn [skip_unclean].
  destruct (Z.ltb_spec cur end_card) as [Hlt | Hge].
  - destruct (read_run cur s log HI) as (v & s1 & E & Ha & Hv). mrun E.
    destruct (card_is_clean v) eqn:Ev; cbn [negb].
    + exists cur, s1. split; [done |]. split; [done |]. split; [lia |]. split; [lia |].
      intros _ Hk Hd. apply (after_same _ _ _ Ha) in Hd; [| done]. apply (Hv Hk) in Hd. congruence.
    + destruct (IH (cur + 1) s1) as (c' & s' & E' & Ha' & Hge & Hle & Hn); [apply Ha | lia |].
      exists c', s'. split; [exact E' |]. split; [exact (after_app _ _ _ _ _ Ha Ha') |].
      split; [lia |]. split; [lia |]. intros Hl Hk Hd. apply (Hn Hl Hk). by apply (after_same _ _ _ Ha).
  - exists cur, s. split; [done |]. split; [by apply after_nil |]. split; [lia |]. split; lia.
Qed.

Lemma clean_cards_run fuel following first s log :
  I s -> (loop_fuel first following <= fuel)%nat ->
  exists s', clean_cards fuel following first (s, log)
    = Some (tt, (s', log ++ map Clean (zseq first (Z.to_nat (following - first)))))
  /\ after s s' (map Clean (zseq first (Z.to_nat (following - first)))).
Proof using Hrely.
  revert first s log. induction fuel as [|fuel IH]; intros first s log HI Hf; unfold loop_fuel in *; [lia |].
  cbn [clean_cards]. destruct (Z.ltb_spec first following) as [Hlt | Hge].
  - unfold note. rewrite M_modify_bind.
    destruct (write_ok _ _ _ Hrely first s HI) as (s1 & E & HI1 & Hk).
    mrun (run_Some _ _ _ _ (log ++ [Clean first]) E).
    destruct (IH (first + 1) s1 (log ++ [Clean first]) HI1 ltac:(lia)) as (s' & E' & Ha).
    exists s'. replace (Z.to_nat (following - first)) with (Datatypes.S (Z.to_nat (following - (first + 1)))) by lia.
    cbn [zseq map]. rewrite E', <- app_assoc. split; [done |].
    change (Clean first :: ?l) with ([Clean first] ++ l). apply (after_app _ s1); [| done].
    split; [done |]. intros d Hd Hs Hn. apply Hk; [done | | done]. intros ->. apply Hn. apply list_elem_of_here.
  - exists s. replace (Z.to_nat (following - first)) with O by lia. cbn [zseq map]. rewrite app_nil_r.
    split; [done | by apply after_nil].
Qed.

End Rely.

(** ** Objects and cards *)

Section Objects.
Context (size_of : Z -> Z) (bottom top : Z) (objs : list Z).
Context (Ht : tiles size_of bottom objs top).

Definition object_end (o : Z) : Z := o + 8 * size_of o.

Lemma tiles_bounds o : o ∈ objs -> bottom <= o /\ o < object_end o <= top.
Proof using Ht.
  revert bottom Ht. induction objs as [|x l IH]; intros b Htl Ho; [set_solver |].
  pose proof (tiles_le _ _ _ _ Htl). destruct Htl as (-> & Hs & Htl). pose proof (tiles_le _ _ _ _ Htl).
  unfold object_end in *. apply elem_of_cons in Ho as [-> | Ho]; [simpl in *; lia |].
  specialize (IH _ Htl Ho). lia.
Qed.

(** Two objects do not overlap. *)
Lemma tiles_apart o1 o2 : o1 ∈ objs -> o2 ∈ objs -> o1 < o2 -> object_end o1 <= o2.
Proof using Ht.
  intros H1 H2 Hlt. destruct (decide (object_end o1 <= o2)) as [| Hgt]; [done |]. exfalso.
  pose proof (tiles_bounds o2 H2). unfold object_end in *.
  assert (o1 = o2); [| lia]. apply (ObjectStartArray.tiles_unique size_of bottom objs top o1 o2 o2); try done; lia.
Qed.

(** The ends of objects: each is where the next one starts. *)
Definition boundary (x : Z) : Prop := x ∈ objs \/ x = top.

Lemma boundary_next o : o ∈ objs -> boundary (object_end o).
Proof using Ht.
  unfold boundary. revert bottom Ht. induction objs as [|x l IH]; intros b Htl Ho; [set_solver |].
  destruct Htl as (-> & Hs & Htl). apply elem_of_cons in Ho as [-> | Ho].
  - unfold object_end. destruct l as [|y l]; [right; simpl in Htl; lia |]. destruct Htl as (-> & _). left. set_solver.
  - destruct (IH _ Htl Ho) as [Hin | ->]; [left; set_solver | by right].
Qed.

Lemma boundary_range x : boundary x -> bottom <= x <= top.
Proof using Ht.
  intros [Hx | ->]; [apply tiles_bounds in Hx; lia |]. pose proof (tiles_le _ _ _ _ Ht). lia.
Qed.

(** An object before a boundary ends there or earlier. *)
Lemma boundary_before o x : boundary x -> o ∈ objs -> o < x -> object_end o <= x.
Proof using Ht. intros [Hx | ->] Ho Hlt; [by apply tiles_apart | by apply tiles_bounds]. Qed.

Lemma boundary_aligned x : bottom mod 8 = 0 -> boundary x -> x mod 8 = 0.
Proof using Ht.
  unfold boundary. revert bottom Ht. induction objs as [|y l IH]; intros b Htl Hb Hx.
  - simpl in Htl. destruct Hx as [Hx | ->]; [set_solver | lia].
  - destruct Htl as (-> & Hs & Htl). destruct Hx as [[-> | Hx]%elem_of_cons | ->]; [done | |].
    + apply (IH _ Htl); [lia | by left].
    + apply (IH _ Htl); [lia | by right].
Qed.

Lemma boundary_bottom : boundary bottom.
Proof using Ht. unfold boundary. destruct objs as [|x l]; [by right |]. destruct Ht as (-> & _). left. set_solver. Qed.

End Objects.

(** ** A slice *)

Section Slice.
Context {S : Type} {HS : CardMemory S} (I : S -> Prop) (dirty : S -> Z -> Prop) (K : Z -> Prop).
Context (Hrely : rely I dirty K).
Context (byte_map_base : Z) (size_of : Z -> Z) (a : ObjectStartArray.ObjectStartArray).
Context (B n : Z) (starts : list Z) (bottom top : Z) (objs : list Z).

(** The part of the old generation from [bottom] to [top] is full of objects, the
    starts of which are recorded, and its cards are in the table. *)
Record scannable : Prop := {
  sc_array : ObjectStartArray.wf a n /\ ObjectStartArray.records a n starts;
  sc_range : ObjectStartArray.base a <= bottom /\ bottom < top /\ top < ObjectStartArray.base a + 512 * n;
  sc_aligned : bottom mod 512 = 0;
  sc_tiles : tiles size_of bottom objs top;
  sc_starts : forall x, bottom <= x < top -> (x ∈ starts <-> x ∈ objs);
  sc_table : byte_map_base = u64 B /\ 0 < B + bottom / 512 /\ B + top / 512 + 1 < 2 ^ 64
}.
Context (Hsc : scannable).

(** The address of the first word of a card. *)
Definition at_ (c : Z) : Z := 512 * (c - B).
(** Some word of the object lies on the card. *)
Definition on_card (o c : Z) : Prop := o < at_ c + 512 /\ at_ c < object_end size_of o.

Lemma heap_range : 0 <= bottom /\ ObjectStartArray.base a + 512 * n < 2 ^ 64
  /\ ObjectStartArray.base a mod 512 = 0 /\ top mod 8 = 0.
Proof using Hsc.
  destruct Hsc as [[Hwf _] Hr Hal Ht _ _]. destruct (ObjectStartArray.wf_base _ _ Hwf).
  destruct (ObjectStartArray.wf_covered _ _ Hwf) as (? & ? & _).
  split; [lia |]. split; [done |]. split; [done |]. apply (boundary_aligned _ _ _ _ Ht); [lia | by right].
Qed.

Lemma byte_for_run p : bottom <= p <= top -> byte_for byte_map_base p = B + p / 512.
Proof using Hsc.
  intros Hp. pose proof heap_range. destruct (sc_table Hsc) as (-> & Hb & Htp).
  unfold byte_for, card_shift. rewrite Z.shiftr_div_pow2 by lia. change (2 ^ 9) with 512.
  unfold wrap. rewrite Zplus_mod_idemp_l, Z.mod_small; lia.
Qed.

Lemma addr_for_run c : bottom <= at_ c -> at_ c < top + 512 -> addr_for byte_map_base c = at_ c.
Proof using Hsc.
  unfold at_. intros H1 H2. pose proof heap_range. destruct (sc_table Hsc) as (-> & Hb & Htp). pose proof (sc_range Hsc).
  unfold addr_for, pointer_delta_sz, card_shift. rewrite Z.div_1_r.
  replace (u64 (c - u64 B)) with (c - B).
  - rewrite Z.shiftl_mul_pow2 by lia. change (2 ^ 9) with 512. rewrite u64_small; [lia |]. unfold is_u64. lia.
  - unfold wrap. rewrite Zminus_mod_idemp_r. symmetry. rewrite Z.mod_small; lia.
Qed.

Lemma object_start_run addr (s : S) log : bottom <= addr < top ->
  exists o, object_start size_of a addr bottom (s, log) = Some (o, (s, log))
  /\ o ∈ objs /\ o <= addr < object_end size_of o.
Proof using Hsc.
  intros Ha. destruct Hsc as [[Hwf Hrec] Hr Hal Ht Hst _].
  destruct (ObjectStartArray.object_start_finds size_of a n starts bottom top objs addr Hwf Hrec)
    as (o & Ho & Hin & E & _); try done; [lia | lia | intros x Hx Hb; by apply Hst |].
  exists o. unfold object_start, lift_opt. rewrite E. by split.
Qed.

Lemma size_step o : o ∈ objs -> hw_add o (size_of o) = object_end size_of o.
Proof using Hsc.
  intros Ho. pose proof heap_range. pose proof (sc_range Hsc).
  destruct (tiles_bounds _ _ _ _ (sc_tiles Hsc) o Ho). unfold object_end in *. rewrite hw_add_small; lia.
Qed.

(** The objects that start from [os] to [oe], on the cards from [wsc] to [wec]. *)
Context (os oe wsc wec : Z).
Record slice : Prop := {
  sl_start : boundary top objs os /\ wsc = B + os / 512;
  sl_end : boundary top objs oe /\ os <= oe <= at_ wec;
  sl_last : at_ wec - 512 <= oe /\ at_ wec - 512 < top;
  sl_kept : forall c, wsc <= c < wec -> K c
}.
Context (Hsl : slice).

Lemma slice_cards : bottom <= at_ wsc <= os /\ os < at_ wsc + 512 /\ at_ wec < top + 512 /\ bottom <= os /\ oe <= top.
Proof using Hsc Hsl.
  destruct (sl_start Hsl) as [Hb ->]. destruct (sl_end Hsl) as [Hb' _].
  apply (boundary_range _ _ _ _ (sc_tiles Hsc)) in Hb, Hb'. pose proof (sc_aligned Hsc). destruct (sl_last Hsl).
  pose proof (sl_end Hsl). unfold at_ in *. lia.
Qed.

(** The objects of the slice end in it. *)
Lemma slice_ends o : o ∈ objs -> o < oe -> object_end size_of o <= oe.
Proof using Hsc Hsl. apply (boundary_before _ bottom top objs); [apply Hsc | apply Hsl]. Qed.

Lemma sub_word c : bottom < at_ c -> at_ c < top + 512 -> hw_sub (addr_for byte_map_base c) 1 = at_ c - 8.
Proof using Hsc.
  intros H1 H2. rewrite addr_for_run by lia. pose proof heap_range. pose proof (sc_range Hsc).
  unfold hw_sub, HeapWordSize. rewrite u64_small; [lia |]. unfold is_u64, at_ in *. lia.
Qed.

(** The object that ends the run: it is on the card before [c], and no object that starts
    before the card [c'] ends beyond it. *)
Lemma ending_card c (s : S) log : wsc < c < wec ->
  exists o, object_start size_of a (hw_sub (addr_for byte_map_base c) 1) bottom (s, log) = Some (o, (s, log))
  /\ let e := byte_for byte_map_base (hw_add o (size_of o)) in
     let c' := if e >? c then e else c in
     c <= c' <= wec
     /\ forall x, x ∈ objs -> x < oe -> x < at_ c' -> object_end size_of x <= at_ c' + 512.
Proof using Hsc Hsl.
  intros Hc. pose proof slice_cards as Hs. destruct (sl_last Hsl) as [Hl Hl'].
  assert (at_ wsc + 512 <= at_ c) by (unfold at_; lia). assert (at_ c + 512 <= at_ wec) by (unfold at_; lia).
  rewrite sub_word by lia. destruct (object_start_run (at_ c - 8) s log ltac:(lia)) as (o & E & Ho & Hin).
  exists o. split; [exact E |]. cbv zeta. rewrite (size_step o Ho).
  pose proof (tiles_bounds _ _ _ _ (sc_tiles Hsc) o Ho) as Hob.
  pose proof (slice_ends o Ho ltac:(lia)) as Hoe. pose proof (sl_end Hsl) as [_ Hse].
  rewrite byte_for_run by lia. split; [case_match; unfold at_ in *; lia |].
  intros x Hx Hxe Hxc. destruct (decide (x <= o)) as [Hle | Hgt].
  - assert (object_end size_of x <= object_end size_of o).
    { destruct (decide (x = o)) as [-> |]; [lia |].
      pose proof (tiles_apart _ _ _ _ (sc_tiles Hsc) x o Hx Ho ltac:(lia)). lia. }
    case_match; unfold at_ in *; lia.
  - pose proof (tiles_apart _ _ _ _ (sc_tiles Hsc) o x Ho Hx ltac:(lia)).
    pose proof (boundary_aligned _ _ _ _ (sc_tiles Hsc) (object_end size_of o)
      ltac:(pose proof (sc_aligned Hsc); lia) (boundary_next _ _ _ _ (sc_tiles Hsc) o Ho)).
    exfalso. revert Hxc. case_match; unfold at_ in *; lia.
Qed.

(** After the run: the next card was not dirty, and no object of the run reaches beyond it. *)
Lemma unclean_run_run fuel cur s log :
  I s -> wsc <= cur <= wec -> (loop_fuel cur wec <= fuel)%nat ->
  exists c' s', unclean_run byte_map_base size_of a fuel bottom wec cur (s, log) = Some (c', (s', log))
  /\ after I dirty K s s' [] /\ cur <= c' <= wec /\ (c' < wec -> ~ dirty s c')
  /\ (c' = cur \/ forall x, x ∈ objs -> x < oe -> x < at_ c' -> object_end size_of x <= at_ c' + 512).
Proof using Hrely Hsc Hsl.
  revert cur s. induction fuel as [|fuel IH]; intros cur s HI Hcur Hf; unfold loop_fuel in *; [lia |]. cbn [unclean_run].
  destruct (Z.ltb_spec cur wec) as [Hlt | Hge].
  2: { exists cur, s. split; [done |]. split; [by apply after_nil |]. split; [lia |]. split; [lia | by left]. }
  destruct (read_run I dirty K Hrely cur s log HI) as (v & s1 & E & Ha & Hv). mrun E.
  specialize (Hv (sl_kept Hsl cur ltac:(lia))).
  destruct (card_is_clean v) eqn:Ev; cbn [negb].
  { exists cur, s1. split; [done |]. split; [done |]. split; [lia |]. split; [| by left].
    intros _ Hd. apply (after_same _ _ _ _ _ _ Ha) in Hd; [| apply (sl_kept Hsl); lia]. apply Hv in Hd. congruence. }
  destruct (skip_unclean_run I dirty K Hrely (loop_fuel cur wec) wec cur s1 log) as (c1 & s2 & E1 & Ha1 & Hge & Hle & Hn1);
    [apply Ha | lia |]. unfold loop_fuel in E1. mrun E1.
  assert (Hc1 : cur < c1 <= wec).
  { destruct (decide (c1 = cur)) as [-> |]; [| lia]. exfalso. apply Hn1; [done | apply (sl_kept Hsl); lia | by apply Hv]. }
  pose proof (after_app _ _ _ _ _ _ _ _ Ha Ha1) as Ha2. cbn [app] in Ha2.
  assert (Hstep : exists c2, (if c1 <? wec then
             last ← object_start size_of a (hw_sub (addr_for byte_map_base c1) 1) bottom;
             mret (if byte_for byte_map_base (hw_add last (size_of last)) >? c1
                   then byte_for byte_map_base (hw_add last (size_of last)) else c1)
           else mret c1) (s2, log) = Some (c2, (s2, log)) /\ c1 <= c2 <= wec
    /\ forall x, x ∈ objs -> x < oe -> x < at_ c2 -> object_end size_of x <= at_ c2 + 512).
  { destruct (Z.ltb_spec c1 wec).
    - destruct (ending_card c1 s2 log ltac:(lia)) as (o & Eo & Hr & Hx). mrun Eo. eexists. split; [done |]. by split.
    - exists c1. split; [done |]. split; [lia |]. intros x Hx Hxe _. pose proof (slice_ends x Hx Hxe).
      pose proof (sl_end Hsl). assert (at_ wec <= at_ c1) by (unfold at_; lia). lia. }
  destruct Hstep as (c2 & E2 & Hc2 & Hx2). mrun E2.
  destruct (IH c2 s2 (proj1 Ha2) ltac:(lia) ltac:(lia)) as (c' & s' & E' & Ha' & Hr & Hn & Hx).
  exists c', s'. split; [exact E' |]. split; [exact (after_app _ _ _ _ _ _ _ _ Ha2 Ha') |]. split; [lia |]. split.
  - intros Hl Hd. apply (Hn Hl). apply (after_same _ _ _ _ _ _ Ha2); [apply (sl_kept Hsl); lia | done].
  - right. destruct Hx as [-> | Hx]; [exact Hx2 | exact Hx].
Qed.

(** Where the scan of the slice stands: it goes on with the card [cur], and no object that was
    passed, those before [ls], reaches it. *)
Definition passed (cur ls : Z) : Prop :=
  ((os <= ls <= oe /\ boundary top objs ls) \/ (ls <= os /\ os = at_ wsc))
  /\ forall o, o ∈ objs -> os <= o < ls -> object_end size_of o <= at_ cur.

(** The objects [L] are scanned after the cards [cs] were cleaned. *)
Record turn_ok (s s' : S) (cur ls cur' ls' : Z) (cs L : list Z) : Prop := {
  tu_after : after I dirty K s s' (map Clean cs ++ map Scan L);
  tu_next : cur < cur' /\ ls <= ls';
  tu_passed : passed cur' ls';
  tu_once : NoDup L /\ forall o, o ∈ L -> o ∈ objs /\ os <= o < oe /\ ls <= o < ls';
  tu_dirty : forall o c, o ∈ objs -> os <= o < oe -> on_card o c -> cur <= c < cur' -> dirty s c -> o ∈ L;
  tu_clean : forall c, c ∈ cs -> cur <= c < cur' /\ wsc < c < wec - 1 /\ forall o, o ∈ objs -> on_card o c -> o ∈ L
}.

Lemma on_slice_cards o c : o ∈ objs -> os <= o < oe -> on_card o c -> wsc <= c < wec.
Proof using Hsc Hsl.
  intros Ho Hr [H1 H2]. pose proof (slice_ends o Ho ltac:(lia)). pose proof slice_cards. pose proof (sl_end Hsl).
  unfold at_ in *. lia.
Qed.

(** The objects on a card inside the slice are objects of the slice. *)
Lemma inside_slice o c : o ∈ objs -> wsc < c < wec - 1 -> on_card o c -> os <= o < oe.
Proof using Hsc Hsl.
  intros Ho Hc [H1 H2]. pose proof slice_cards. pose proof (sl_last Hsl). split; [| unfold at_ in *; lia].
  destruct (decide (o < os)) as [Hlt |]; [| lia].
  pose proof (boundary_before _ _ _ _ (sc_tiles Hsc) o os (proj1 (sl_start Hsl)) Ho Hlt). unfold at_ in *. lia.
Qed.

(** The object from which a run is scanned. *)
Lemma run_start first ls o :
  wsc <= first < wec -> passed first ls -> o ∈ objs -> o <= at_ first < object_end size_of o ->
  let p := if o <? ls then ls else o in
  boundary top objs p /\ os <= p <= oe /\ ls <= p
  /\ forall x, x ∈ objs -> os <= x < p -> object_end size_of x <= at_ first.
Proof using Hsc Hsl.
  intros Hf [Hls Hpa] Ho Hin. cbv zeta. pose proof slice_cards. pose proof (sl_last Hsl). pose proof (sl_end Hsl).
  assert (at_ wsc <= at_ first /\ at_ first + 512 <= at_ wec) by (unfold at_; lia).
  destruct (Z.ltb_spec o ls) as [Hlt | Hge].
  - destruct Hls as [[? ?] | [? Hos]].
    + split; [done |]. split; [lia |]. split; [lia | done].
    + pose proof (boundary_before _ _ _ _ (sc_tiles Hsc) o os (proj1 (sl_start Hsl)) Ho ltac:(lia)). lia.
  - assert (os <= o).
    { destruct Hls as [[? ?] | [? Hos]]; [lia |]. destruct (decide (o < os)); [| lia].
      pose proof (boundary_before _ _ _ _ (sc_tiles Hsc) o os (proj1 (sl_start Hsl)) Ho ltac:(lia)). lia. }
    split; [by left |]. split; [lia |]. split; [done |].
    intros x Hx Hr. pose proof (tiles_apart _ _ _ _ (sc_tiles Hsc) x o Hx Ho ltac:(lia)). lia.
Qed.

Lemma passed_later cur cur' ls : cur <= cur' -> passed cur ls -> passed cur' ls.
Proof. intros Hle [H1 H2]. split; [done |]. intros o Ho Hr. specialize (H2 o Ho Hr). unfold at_ in *. lia. Qed.

(** Where the scan of a run ends. *)
Lemma run_end following : wsc <= following <= wec ->
  let to := addr_for byte_map_base following in
  (if to >? oe then oe else if to >? top then top else to) = Z.min (at_ following) oe.
Proof using Hsc Hsl.
  intros Hf. pose proof slice_cards. cbv zeta. rewrite addr_for_run by (unfold at_ in *; lia).
  repeat case_match; lia.
Qed.

Lemma elem_of_cleaned first following c :
  c ∈ zseq first (Z.to_nat (following - first)) <-> first <= c < following.
Proof. rewrite elem_of_zseq. lia. Qed.

Context (push : Z -> M S unit) (Hpush : forall o, quiet I dirty K (push o)).

(** The objects that start from [p] to [to] are scanned, each once. *)
Lemma scan_objects_run fuel to p s log :
  I s -> boundary top objs p -> to <= top -> (loop_fuel p to <= fuel)%nat ->
  exists p' s' L, scan_objects size_of push fuel to p (s, log) = Some (p', (s', log ++ map Scan L))
  /\ after I dirty K s s' (map Scan L)
  /\ boundary top objs p' /\ p <= p' /\ (p' = p \/ exists o, o ∈ L /\ p' = object_end size_of o)
  /\ NoDup L /\ (forall o, o ∈ L <-> o ∈ objs /\ p <= o < to) /\ (forall o, o ∈ objs -> o < p' -> o < p \/ o ∈ L)
  /\ (forall o, o ∈ L -> o < p').
Proof using Hpush Hrely Hsc.
  clear Hsl. revert p s log. induction fuel as [|fuel IH]; intros p s log HI Hp Hto Hf; unfold loop_fuel in *; [lia |].
  cbn [scan_objects]. destruct (Z.ltb_spec p to) as [Hlt | Hge].
  - assert (Ho : p ∈ objs) by (destruct Hp; [done | lia]).
    pose proof (sc_tiles Hsc) as Htl. pose proof (tiles_bounds _ _ _ _ Htl p Ho) as Hb.
    unfold note. rewrite M_modify_bind.
    destruct (Hpush p s HI) as (s1 & E & HI1 & Hk).
    mrun (run_Some _ _ _ _ (log ++ [Scan p]) E). rewrite (size_step p Ho).
    destruct (IH (object_end size_of p) s1 (log ++ [Scan p])) as (p' & s' & L & E' & Ha & Hb' & Hle & Hend & Hnd & HL & Hrest & Hlast);
      [done | by apply (boundary_next _ bottom) | done | lia |].
    exists p', s', (p :: L). cbn [map]. rewrite E', <- app_assoc. split; [done |]. split_and!.
    + change (Scan p :: ?l) with ([Scan p] ++ l). apply (after_app _ _ _ _ s1); [| done].
      split; [done |]. intros d Hd Hs _. by apply Hk.
    + done.
    + lia.
    + right. destruct Hend as [-> | (o & Hin & ->)]; [exists p | exists o]; set_solver.
    + apply NoDup_cons. split; [| done]. intros Hin%HL. lia.
    + intros o. rewrite elem_of_cons, HL. split.
      * intros [-> | [? ?]]; [split; [done | lia] | split; [done | lia]].
      * intros [Hin Hr]. destruct (decide (o = p)) as [| Hne]; [by left | right].
        pose proof (tiles_apart _ _ _ _ Htl p o Ho Hin ltac:(lia)). split; [done | lia].
    + intros o Hin Hlt'. destruct (Hrest o Hin Hlt') as [Hl | HinL]; [| right; set_solver].
      destruct (decide (o = p)) as [-> | Hne]; [right; set_solver | left].
      destruct (decide (o < p)); [done |]. pose proof (tiles_apart _ _ _ _ Htl p o Ho Hin ltac:(lia)). lia.
    + intros o [-> | Hin]%elem_of_cons; [lia | by apply Hlast].
  - exists p, s, []. cbn [map]. rewrite app_nil_r. split; [done |]. split; [by apply after_nil |].
    split; [done |]. split; [lia |]. split; [by left |]. split; [apply NoDup_nil_2 |].
    split; [intros o; split; [by intros ?%elem_of_nil | lia] |]. split; [by auto | by intros o ?%elem_of_nil].
Qed.

Context (drain : M S unit) (Hdrain : quiet I dirty K drain).

(** A turn that finds a run of cards that are not clean. *)
Lemma run_turn s0 s1 s2 cur first following ls log :
  I s2 -> after I dirty K s0 s1 [] -> after I dirty K s1 s2 [] ->
  wsc <= cur <= first -> first < wec -> first <= following <= wec -> passed cur ls ->
  (forall d, K d -> cur <= d < first -> ~ dirty s0 d) -> dirty s1 first ->
  (following < wec -> ~ dirty s1 following) ->
  (following = first \/ forall x, x ∈ objs -> x < oe -> x < at_ following -> object_end size_of x <= at_ following + 512) ->
  exists ls' s' cs L,
    (p ← object_start size_of a (addr_for byte_map_base first) bottom;
     let p := if p <? ls then ls else p in
     let to := addr_for byte_map_base following in
     let to := if to >? oe then oe else if to >? top then top else to in
     let first' := if first <=? wsc + 1 then wsc + 1 else first in
     let following' := if following >=? wec - 1 then wec - 1 else following in
     clean_cards (loop_fuel first' following') following' first';;
     p ← scan_objects size_of push (loop_fuel p to) to p;
     run drain;;
     mret p) (s2, log) = Some (ls', (s', log ++ map Clean cs ++ map Scan L))
    /\ turn_ok s0 s' cur ls (following + 1) ls' cs L.
Proof using Hpush Hdrain Hrely Hsc Hsl.
  intros HI2 Ha1 Ha2 Hcur Hfirst Hfol Hpa Hclean Hdf Hdn Hends. pose proof slice_cards as Hs. pose proof (sl_last Hsl) as Hl.
  pose proof (sl_end Hsl) as Hse.
  assert (Hne : following <> first).
  { intros ->. by apply Hdn. }
  destruct Hends as [| Hends]; [done |].
  assert (Hat : at_ wsc <= at_ first /\ at_ first + 512 <= at_ following /\ at_ following <= at_ wec) by (unfold at_; lia).
  rewrite (addr_for_run first) by lia.
  destruct (object_start_run (at_ first) s2 log ltac:(lia)) as (o & Eo & Ho & Hin). mrun Eo. cbv zeta.
  rewrite (run_end following) by lia.
  destruct (run_start first ls o ltac:(lia) (passed_later cur first ls ltac:(lia) Hpa) Ho Hin) as (Hbp & Hpr & Hlsp & Hpp).
  set (p := if o <? ls then ls else o) in *.
  set (first' := if first <=? wsc + 1 then wsc + 1 else first).
  set (following' := if following >=? wec - 1 then wec - 1 else following).
  destruct (clean_cards_run I dirty K Hrely (loop_fuel first' following') following' first' s2 log HI2 (le_n _)) as (s3 & E3 & Ha3).
  mrun E3. set (cs := zseq first' (Z.to_nat (following' - first'))) in *.
  destruct (scan_objects_run (loop_fuel p (Z.min (at_ following) oe)) (Z.min (at_ following) oe) p s3 (log ++ map Clean cs))
    as (p' & s4 & L & E4 & Ha4 & Hbp' & Hpp' & Hend & Hnd & HL & Hrest & Hlast); [apply Ha3 | done | lia | lia |].
  mrun E4. destruct (Hdrain s4 (proj1 Ha4)) as (s5 & E5 & HI5 & Hk5).
  mrun (run_Some _ _ _ _ ((log ++ map Clean cs) ++ map Scan L) E5).
  exists p', s5, cs, L. split; [by rewrite <- app_assoc |].
  assert (Hincs : forall c, c ∈ cs -> first <= c < following /\ wsc < c < wec - 1).
  { intros c. unfold cs. rewrite elem_of_cleaned. unfold first', following'. repeat case_match; lia. }
  assert (HinL : forall x c, x ∈ objs -> os <= x < oe -> on_card x c -> first <= c < following -> x ∈ L).
  { intros x c Hx Hr [Hc1 Hc2] Hc. apply HL. split; [done |]. assert (at_ first <= at_ c /\ at_ c + 512 <= at_ following) by (unfold at_; lia).
    split; [| lia]. destruct (decide (x < p)); [| lia]. pose proof (Hpp x Hx ltac:(lia)). lia. }
  constructor.
  - apply (after_app _ _ _ _ s2 _ [] _); [exact (after_app _ _ _ _ _ _ [] [] Ha1 Ha2) |].
    apply (after_app _ _ _ _ s3); [done |]. rewrite <- (app_nil_r (map Scan L)).
    apply (after_app _ _ _ _ s4); [done | by apply after_silent].
  - lia.
  - split.
    + left. split; [| done]. split; [lia |]. destruct Hend as [-> | (x & Hx & ->)]; [lia |].
      apply HL in Hx as [Hx ?]. by apply slice_ends; [| lia].
    + intros x Hx Hr. destruct (Hrest x Hx ltac:(lia)) as [Hlt | HxL].
      * pose proof (Hpp x Hx ltac:(lia)). unfold at_ in *. lia.
      * apply HL in HxL as [_ ?]. pose proof (Hends x Hx ltac:(lia) ltac:(lia)). unfold at_ in *. lia.
  - split; [done |]. intros x Hx. pose proof Hx as HxL. apply HL in HxL as [Hxo ?]. split; [done |]. split; [lia |].
    split; [lia | by apply Hlast].
  - intros x c Hx Hr Hon Hc Hd. pose proof (on_slice_cards x c Hx Hr Hon) as Hcs.
    pose proof (sl_kept Hsl c Hcs) as HK.
    destruct (decide (c < first)); [exfalso; by apply (Hclean c HK ltac:(lia)) |].
    destruct (decide (c = following)) as [-> |].
    + exfalso. apply Hdn; [lia |]. by apply (after_same _ _ _ _ _ _ Ha1).
    + by apply (HinL x c); [| | | lia].
  - intros c Hc. apply Hincs in Hc. split; [lia |]. split; [lia |].
    intros x Hx Hon. apply (HinL x c); [done | | done | lia]. by apply (inside_slice x c); [| lia |].
Qed.

Lemma card_turn_run cur ls s log :
  I s -> wsc <= cur < wec -> passed cur ls ->
  exists cur' ls' s' cs L,
    card_turn byte_map_base size_of a push drain bottom top oe wsc wec cur ls (s, log)
    = Some ((cur', ls'), (s', log ++ map Clean cs ++ map Scan L))
    /\ turn_ok s s' cur ls cur' ls' cs L.
Proof using Hpush Hdrain Hrely Hsc Hsl.
  intros HI Hcur Hpa. unfold card_turn.
  destruct (skip_clean_run I dirty K Hrely (loop_fuel cur wec) wec cur s log HI (le_n _))
    as (first & s1 & E1 & Ha1 & Hge & Hle & Hn & Hd). mrun E1. cbv zeta.
  destruct (unclean_run_run (loop_fuel first wec) first s1 log (proj1 Ha1) ltac:(lia) (le_n _))
    as (following & s2 & E2 & Ha2 & Hr & Hdn & Hends). mrun E2.
  destruct (Z.ltb_spec first wec) as [Hlt | Hfull].
  - destruct (run_turn s s1 s2 cur first following ls log) as (ls' & s' & cs & L & E & Hok); try done; try lia.
    { apply Ha2. } { apply Hd; [lia |]. apply (sl_kept Hsl). lia. }
    cbv zeta in E. mrun E. by exists (following + 1), ls', s', cs, L.
  - exists (following + 1), ls, s2, [], []. cbn [map app]. rewrite app_nil_r. split; [done |].
    constructor.
    + exact (after_app _ _ _ _ _ _ [] [] Ha1 Ha2).
    + lia.
    + apply (passed_later cur); [lia | done].
    + split; [apply NoDup_nil_2 | by intros o ?%elem_of_nil].
    + intros o c Ho Hro Hon Hc Hds. pose proof (on_slice_cards o c Ho Hro Hon).
      exfalso. apply (Hn c); [by apply (sl_kept Hsl) | lia | done].
    + by intros c ?%elem_of_nil.
Qed.

(** What the scan of a slice does from the card [cur] on. *)
Record scanned (s s' : S) (cur ls ls' : Z) (l : list event) : Prop := {
  sn_after : after I dirty K s s' l;
  sn_last : os <= ls' <= oe \/ ls' <= os;
  sn_once : NoDup (scans l) /\ forall o, o ∈ scans l -> o ∈ objs /\ os <= o < oe /\ ls <= o;
  sn_dirty : forall o c, o ∈ objs -> os <= o < oe -> on_card o c -> cur <= c -> dirty s c -> o ∈ scans l;
  sn_clean : forall l1 c l2, l = l1 ++ Clean c :: l2 ->
    cur <= c /\ wsc < c < wec - 1 /\ forall o, o ∈ objs -> on_card o c -> o ∈ scans l2
}.

Lemma scans_app l l' : scans (l ++ l') = scans l ++ scans l'.
Proof. apply omap_app. Qed.

Lemma scans_turn cs L : scans (map Clean cs ++ map Scan L) = L.
Proof.
  rewrite scans_app. assert (scans (map Clean cs) = []) as -> by by induction cs.
  induction L as [|o L IH]; [done |]. cbn [map]. unfold scans in *. cbn [omap list_omap app] in *. by f_equal.
Qed.

(** The first part of a list of events ends before a card is cleaned, or contains it. *)
Lemma clean_split (l l' l1 : list event) c l2 :
  l ++ l' = l1 ++ Clean c :: l2 ->
  (exists k, l' = k ++ Clean c :: l2) \/ (exists k, l = l1 ++ Clean c :: k /\ l2 = k ++ l').
Proof.
  intros E. apply app_eq_app in E as [k [[-> E] | [-> E]]]; [| left; by exists k].
  destruct k as [|e k]; [left; exists []; by rewrite app_nil_l in E |].
  cbn [app] in E. injection E as <- ->. right. by exists k.
Qed.

Lemma clean_in_turn cs L l1 c k : map Clean cs ++ map Scan L = l1 ++ Clean c :: k -> c ∈ cs /\ scans k = L.
Proof.
  revert l1. induction cs as [|c' cs IH]; intros l1; cbn [map app].
  - revert l1. induction L as [|o L IHL]; intros [|e l1]; try done. cbn [map app].
    intros [=<- E]. by destruct (IHL _ E) as [?%elem_of_nil _].
  - destruct l1 as [|e l1]; cbn [app].
    + intros [= -> <-]. split; [apply list_elem_of_here | apply scans_turn].
    + intros [=<- E]. destruct (IH _ E). split; [by apply list_elem_of_further | done].
Qed.

Lemma scanned_turn s1 s2 s3 cur ls cur' ls1 ls2 cs L l :
  turn_ok s1 s2 cur ls cur' ls1 cs L -> scanned s2 s3 cur' ls1 ls2 l ->
  scanned s1 s3 cur ls ls2 ((map Clean cs ++ map Scan L) ++ l).
Proof using Hrely Hsc Hsl.
  intros [Ha [Hn1 Hn2] Hp [Hnd HL] Hd Hc] [Ha' Hlast [Hnd' HL'] Hd' Hc']. constructor.
  - exact (after_app _ _ _ _ _ _ _ _ Ha Ha').
  - done.
  - rewrite scans_app, scans_turn. split.
    + apply NoDup_app. split; [done |]. split; [| done]. intros o Ho Ho'.
      apply HL in Ho as (_ & _ & ?). apply HL' in Ho' as (_ & _ & ?). lia.
    + intros o [Ho | Ho]%elem_of_app; [apply HL in Ho as (? & ? & ?) | apply HL' in Ho as (? & ? & ?)];
        (split; [done |]; split; [done | lia]).
  - intros o c Ho Hr Hon Hge Hds. rewrite scans_app, scans_turn, elem_of_app.
    destruct (decide (c < cur')); [left; by apply (Hd o c); [| | | lia |] | right].
    apply (Hd' o c); [done | done | done | lia |]. apply Ha; [| done |].
    + apply (sl_kept Hsl). by apply (on_slice_cards o).
    + rewrite elem_of_app, !list_elem_of_In, !in_map_iff.
      intros [(c' & [= ->] & Hin%list_elem_of_In) | (? & [=] & _)]. apply Hc in Hin as [? _]. lia.
  - intros l1 c l2 E. apply clean_split in E as [(k & ->) | (k & E & ->)].
    + destruct (Hc' k c l2 eq_refl) as (? & ? & ?). split; [lia | done].
    + apply clean_in_turn in E as [Hin Ek]. destruct (Hc c Hin) as (? & ? & Hon). split; [lia |]. split; [done |].
      intros o Ho Hoc. rewrite scans_app, Ek, elem_of_app. left. by apply Hon.
Qed.

Lemma card_loop_run fuel cur ls s log :
  I s -> wsc <= cur -> passed cur ls -> (loop_fuel cur wec <= fuel)%nat ->
  exists ls' s' l,
    card_loop byte_map_base size_of a push drain fuel bottom top oe wsc wec cur ls (s, log) = Some (ls', (s', log ++ l))
    /\ scanned s s' cur ls ls' l.
Proof using Hpush Hdrain Hrely Hsc Hsl.
  revert cur ls s log. induction fuel as [|fuel IH]; intros cur ls s log HI Hcur Hpa Hf; unfold loop_fuel in *; [lia |].
  cbn [card_loop]. destruct (Z.ltb_spec cur wec) as [Hlt | Hge].
  - destruct (card_turn_run cur ls s log HI ltac:(lia) Hpa) as (cur' & ls1 & s1 & cs & L & E & Hok). mrun E.
    pose proof (tu_next _ _ _ _ _ _ _ _ Hok).
    destruct (IH cur' ls1 s1 (log ++ map Clean cs ++ map Scan L)) as (ls' & s' & l & E' & Hsn);
      [apply Hok | lia | apply Hok | lia |].
    exists ls', s', ((map Clean cs ++ map Scan L) ++ l). rewrite E', <- app_assoc. split; [done |].
    exact (scanned_turn _ _ _ _ _ _ _ _ _ _ _ Hok Hsn).
  - exists ls, s, []. rewrite app_nil_r. split; [done |]. constructor.
    + by apply after_nil.
    + destruct (proj1 Hpa) as [[? _] | [? _]]; auto.
    + split; [apply NoDup_nil_2 | by intros o ?%elem_of_nil].
    + intros o c Ho Hr Hon Hc _. pose proof (on_slice_cards o c Ho Hr Hon). lia.
    + intros [|e l1] c l2; done.
Qed.

End Slice.

(** ** The container *)

Section Scans.
Context {S : Type} {HS : CardMemory S} (I : S -> Prop) (dirty : S -> Z -> Prop) (K : Z -> Prop).
Context (Hrely : rely I dirty K).
Context (byte_map_base : Z) (size_of : Z -> Z) (a : ObjectStartArray.ObjectStartArray).
Context (B n : Z) (starts : list Z) (bottom top : Z) (objs : list Z).
Context (Hsc : scannable byte_map_base size_of a B n starts bottom top objs).

Abbreviation at_ := (at_ B).
Abbreviation on_card := (on_card size_of B).
Abbreviation object_end := (object_end size_of).
Abbreviation boundary := (boundary top objs).

(** The cards of the space: from that of [bottom] to the one after that of its last word. *)
Definition first_card : Z := B + bottom / 512.
Definition last_card : Z := B + (top - 8) / 512 + 1.

Lemma last_word : hw_sub top 1 = top - 8.
Proof using Hsc.
  pose proof (heap_range _ _ _ _ _ _ _ _ _ Hsc). pose proof (sc_range _ _ _ _ _ _ _ _ _ Hsc).
  unfold hw_sub, HeapWordSize. rewrite u64_small; [lia |]. unfold is_u64. lia.
Qed.

Lemma scan_bounds :
  byte_for byte_map_base bottom = first_card /\ byte_for byte_map_base (hw_sub top 1) + 1 = last_card
  /\ at_ first_card = bottom /\ at_ last_card - 512 < top <= at_ last_card /\ 0 <= bottom /\ bottom + 8 <= top
  /\ bottom mod 512 = 0 /\ top mod 8 = 0.
Proof using Hsc.
  pose proof (heap_range _ _ _ _ _ _ _ _ _ Hsc). pose proof (sc_range _ _ _ _ _ _ _ _ _ Hsc).
  pose proof (sc_aligned _ _ _ _ _ _ _ _ _ Hsc). rewrite last_word.
  rewrite !(byte_for_run _ _ _ _ _ _ _ _ _ Hsc) by lia. unfold CardTable.at_, first_card, last_card. lia.
Qed.

Lemma container_scan (Hk : forall c, first_card <= c < last_card -> K c) c0 s log :
  I s ->
  exists s' l, scavenge_bda_contents_parallel byte_map_base size_of a c0 bottom top (s, log) = Some (tt, (s', log ++ l))
  /\ exists ls', scanned I dirty K size_of B objs bottom top first_card last_card s s' first_card 0 ls' l.
Proof using Hrely Hsc.
  intros HI. destruct scan_bounds as (E1 & E2 & E3 & E4 & E5 & E6 & E7 & E8).
  unfold scavenge_bda_contents_parallel. cbv zeta. rewrite E1, E2.
  rewrite !(addr_for_run _ _ _ _ _ _ _ _ _ Hsc) by lia. rewrite E3, MIN2_min, Z.min_l by lia.
  destruct (object_start_run _ _ _ _ _ _ _ _ _ Hsc bottom s log ltac:(lia)) as (o & Eo & Ho & Hin). mrun Eo.
  pose proof (tiles_bounds _ _ _ _ (sc_tiles _ _ _ _ _ _ _ _ _ Hsc) o Ho).
  destruct (Z.ltb_spec o bottom); [lia |]. destruct (Z.ltb_spec top top); [lia |]. rewrite M_ret_bind.
  assert (Hsl : slice K B top objs bottom top first_card last_card).
  { constructor; [split; [| done] | split; [by right | lia] | lia | exact Hk].
    apply (boundary_bottom size_of). apply Hsc. }
  destruct (card_loop_run I dirty K Hrely _ _ _ _ _ _ _ _ _ Hsc _ _ _ _ Hsl
    (fun m => push_bdaref_contents m c0) (fun o => push_bda_ok _ _ _ Hrely o c0) drain_bda_stacks (drain_bda_ok _ _ _ Hrely)
    (loop_fuel first_card last_card) first_card 0 s log)
    as (ls' & s' & l & E & Hsn); [done | lia | | lia |].
  { split; [right; lia | intros; lia]. }
  mrun E. exists s', l. split; [done | by exists ls'].
Qed.

End Scans.

(** [scavenge_bda_contents_parallel] terminates and scans the segment of a container
    completely: every object with a word on a card that is not clean when the scan starts is
    scanned, no object is scanned twice, and nothing else is scanned.  A card is only
    cleaned before all the objects on it are scanned, so that the references that still lead
    into the young generation mark it again, and the first and the last card of the segment are
    never cleaned.  This holds whatever other threads do meanwhile, as long as they do
    not clean the cards of the segment. *)
Theorem container_scan_spec {S : Type} {HS : CardMemory S} (I : S -> Prop) (dirty : S -> Z -> Prop) (K : Z -> Prop)
    (byte_map_base : Z) (size_of : Z -> Z) (a : ObjectStartArray.ObjectStartArray) (B n : Z) (starts : list Z)
    (c c_start c_top : Z) (objs : list Z) (s : S)
    (Hrely : rely I dirty K) (Hsc : scannable byte_map_base size_of a B n starts c_start c_top objs)
    (Hk : forall d, first_card B c_start <= d < last_card B c_top -> K d) (HI : I s) :
  exists s' log, scavenge_bda_contents_parallel byte_map_base size_of a c c_start c_top (s, []) = Some (tt, (s', log))
  /\ I s'
  /\ (forall d, K d -> dirty s d -> Clean d ∉ log -> dirty s' d)
  /\ NoDup (scans log) /\ (forall o, o ∈ scans log -> o ∈ objs)
  /\ (forall o d, o ∈ objs -> on_card size_of B o d -> dirty s d -> o ∈ scans log)
  /\ (forall l1 d l2, log = l1 ++ Clean d :: l2 ->
        first_card B c_start < d < last_card B c_top - 1
        /\ forall o, o ∈ objs -> on_card size_of B o d -> o ∈ scans l2).
Proof.
  destruct (container_scan I dirty K Hrely _ _ _ _ _ _ _ _ _ Hsc Hk c s [] HI) as (s' & l & E & ls' & Hsn).
  exists s', l. split; [exact E |]. destruct Hsn as [Ha _ [Hnd Hin] Hd Hc].
  split; [apply Ha |]. split; [apply Ha |]. split; [done |]. split; [intros o Ho; by apply Hin |]. split.
  - intros o d Ho Hon Hds. pose proof (tiles_bounds _ _ _ _ (sc_tiles _ _ _ _ _ _ _ _ _ Hsc) o Ho).
    apply (Hd o d); [done | lia | done | | done].
    destruct Hon as [? _]. destruct (scan_bounds _ _ _ _ _ _ _ _ _ Hsc) as (_ & _ & E3 & _). unfold at_ in *. lia.
  - intros l1 d l2 El. by destruct (Hc l1 d l2 El) as (_ & ? & ?).
Qed.

(** ** The stripes *)

Section Stripes.
Context (size_of : Z -> Z) (B bottom top : Z) (objs : list Z).

(** The slice of 128 cards in which an object starts. *)
Definition slice_of (o : Z) : Z := (o - bottom) / 65536.
(** The object has a word on the card, or the word before it. *)
Definition near (o c : Z) : Prop := o < at_ B c + 512 /\ at_ B c - 8 < object_end size_of o.
(** The card lies inside the slice [j]: all objects near it start there. *)
Definition in_slice (c j : Z) : Prop :=
  bottom < at_ B c /\ at_ B c + 512 <= top /\ forall o, o ∈ objs -> near o c -> slice_of o = j.
(** Of [total] tasks, the others leave alone the cards that are not inside their slices. *)
Definition others_keep (total number c : Z) : Prop :=
  ~ exists j, j mod total <> number /\ in_slice c j.

Lemma on_card_near o c : on_card size_of B o c -> near o c.
Proof. intros [? ?]. split; lia. Qed.

Lemma own_card total number o c : o ∈ objs -> slice_of o mod total = number -> on_card size_of B o c ->
  others_keep total number c.
Proof. intros Ho Hs Hon%on_card_near (j & Hj & _ & _ & Hin). apply Hin in Hon; [| done]. congruence. Qed.

Context (byte_map_base : Z) (a : ObjectStartArray.ObjectStartArray) (n : Z) (starts : list Z).
Context (Hsc : scannable byte_map_base size_of a B n starts bottom top objs).

Abbreviation object_end := (object_end size_of).
Abbreviation boundary := (boundary top objs).

(** The objects from the address [W] on start at [os]. *)
Lemma slice_os W f : f ∈ objs -> f <= W < object_end f ->
  let os := if f <? W then object_end f else W in
  boundary os /\ W <= os /\ (os = W \/ f < W /\ os = object_end f) /\ forall o, o ∈ objs -> (W <= o <-> os <= o).
Proof using Hsc.
  intros Hf Hin. cbv zeta. pose proof (sc_tiles _ _ _ _ _ _ _ _ _ Hsc) as Ht.
  destruct (Z.ltb_spec f W) as [Hlt | Hge].
  - split; [by apply (boundary_next size_of bottom) |]. split; [lia |]. split; [by right |].
    intros o Ho. split; [| lia]. intros Hle. by apply (tiles_apart _ _ _ _ Ht); [| | lia].
  - replace W with f by lia. split; [by left |]. split; [lia |]. split; [by left | done].
Qed.

(** Those before the address [E] end at [oe]. *)
Lemma slice_oe E l : bottom <= E - 8 -> E mod 8 = 0 -> l ∈ objs -> l <= E - 8 < object_end l ->
  boundary (object_end l) /\ E <= object_end l /\ forall o, o ∈ objs -> (o < E <-> o < object_end l).
Proof using Hsc.
  intros HE Hm Hl Hin. pose proof (sc_tiles _ _ _ _ _ _ _ _ _ Hsc) as Ht.
  assert (Hb : boundary (object_end l)) by by apply (boundary_next size_of bottom).
  assert (bottom mod 8 = 0) by (pose proof (sc_aligned _ _ _ _ _ _ _ _ _ Hsc); lia).
  pose proof (boundary_aligned _ _ _ _ Ht _ ltac:(done) Hb).
  split; [done |]. split; [lia |]. intros o Ho. pose proof (boundary_aligned _ _ _ _ Ht o ltac:(done) (or_introl Ho)).
  split; [lia |]. intros Hlt. destruct (decide (o <= l)); [lia |].
  pose proof (tiles_apart _ _ _ _ Ht l o Hl Ho ltac:(lia)). lia.
Qed.

(** The cards of a slice are not inside another one. *)
Lemma slice_kept total number j os oe wsc wec :
  let W := bottom + 65536 * j in
  boundary os -> boundary oe -> W <= os <= oe -> wsc = B + os / 512 -> at_ B wec - 512 <= oe ->
  os = W \/ (exists f, f ∈ objs /\ f < W /\ os = object_end f) ->
  (forall o, o ∈ objs -> (slice_of o = j <-> os <= o < oe)) -> W < top -> j mod total = number ->
  forall c, wsc <= c < wec -> others_keep total number c.
Proof using Hsc.
  intros W Hbs Hbe Hle -> Hlast Hfirst Hown HW Hj c Hc (j' & Hj' & _ & Htop & Hin).
  pose proof (sc_tiles _ _ _ _ _ _ _ _ _ Hsc) as Ht. pose proof (boundary_range _ _ _ _ Ht _ Hbs).
  pose proof (boundary_range _ _ _ _ Ht _ Hbe). pose proof (sc_aligned _ _ _ _ _ _ _ _ _ Hsc).
  pose proof (boundary_aligned _ _ _ _ Ht os ltac:(lia) Hbs). pose proof (boundary_aligned _ _ _ _ Ht oe ltac:(lia) Hbe).
  assert (Hcc : at_ B c <= oe /\ os < at_ B c + 512) by (unfold at_ in *; lia).
  (* an object of the slice near the card *)
  assert (Hnear : forall u, os <= u < oe -> at_ B c - 8 <= u < at_ B c + 512 -> False).
  { intros u Hu Huc. destruct (object_start_run (S := unit) _ _ _ _ _ _ _ _ _ Hsc u tt [] ltac:(lia)) as (o & _ & Ho & Hou).
    assert (slice_of o = j).
    { apply (Hown o Ho). split; [| lia]. destruct (decide (o < os)) as [Hlt |]; [| lia].
      pose proof (boundary_before _ _ _ _ Ht o os Hbs Ho Hlt). lia. }
    assert (slice_of o = j') by (apply Hin; [done | split; lia]). congruence. }
  destruct (decide (os = oe)) as [<- | Hne].
  - assert (Hos : os ∈ objs) by (destruct Hbs; [done | unfold at_ in *; lia]).
    assert (slice_of os = j') by (apply Hin; [done |]; pose proof (tiles_bounds _ _ _ _ Ht os Hos); split; lia).
    pose proof (tiles_bounds _ _ _ _ Ht os Hos).
    destruct Hfirst as [-> | (f & Hf & HfW & ->)].
    + pose proof (proj1 (Hown W Hos)). unfold slice_of, W in *. lia.
    + assert (slice_of f = j') by (apply Hin; [done |]; pose proof (tiles_bounds _ _ _ _ Ht f Hf); split; lia).
      pose proof (proj1 (Hown (object_end f) Hos)). unfold slice_of, W in *. lia.
  - destruct (decide (at_ B c = oe)) as [Heq |].
    + apply (Hnear (oe - 8)); lia.
    + apply (Hnear (Z.max os (at_ B c))); lia.
Qed.

Context {S : Type} {HS : CardMemory S} (I : S -> Prop) (dirty : S -> Z -> Prop) (K : Z -> Prop) (total number : Z).
Context (Hrely : rely I dirty K).

Abbreviation first_card := (first_card B bottom).
Abbreviation last_card := (last_card B top).
Context (HK : forall c, first_card <= c < last_card -> others_keep total number c -> K c).

(** The cards of an object are cards of the space. *)
Lemma card_of o c : o ∈ objs -> on_card size_of B o c -> first_card <= c < last_card.
Proof using Hsc.
  intros Ho [H1 H2]. destruct (scan_bounds _ _ _ _ _ _ _ _ _ Hsc) as (_ & _ & E3 & E4 & _).
  pose proof (tiles_bounds _ _ _ _ (sc_tiles _ _ _ _ _ _ _ _ _ Hsc) o Ho). unfold at_ in *. lia.
Qed.

(** What the scan of the slice [j] does. *)
Record slice_scanned (s s' : S) (j ls' : Z) (l : list event) : Prop := {
  ss_after : after I dirty K s s' l;
  ss_last : forall x, boundary x -> bottom + 65536 * (j + 1) <= x -> ls' <= x;
  ss_once : NoDup (scans l) /\ forall o, o ∈ scans l -> o ∈ objs /\ slice_of o = j;
  ss_dirty : forall o c, o ∈ objs -> slice_of o = j -> on_card size_of B o c -> dirty s c -> o ∈ scans l;
  ss_clean : forall l1 c l2, l = l1 ++ Clean c :: l2 ->
    in_slice c j /\ forall o, o ∈ objs -> on_card size_of B o c -> o ∈ scans l2
}.

(** The scan of the cards from [wsc] to [wec] is that of the slice. *)
Lemma scanned_slice s s' j os oe wsc wec ls ls' l :
  slice K B top objs os oe wsc wec ->
  bottom + 65536 * j <= os ->
  (forall o, o ∈ objs -> (slice_of o = j <-> os <= o < oe)) ->
  (forall x, boundary x -> bottom + 65536 * (j + 1) <= x -> oe <= x) ->
  scanned I dirty K size_of B objs os oe wsc wec s s' wsc ls ls' l ->
  slice_scanned s s' j ls' l.
Proof using Hsc.
  intros Hsl Hos Hown Hnext [Ha Hlast [Hnd Hin] Hd Hc].
  pose proof (slice_cards _ _ _ _ _ _ _ _ _ _ Hsc _ _ _ _ Hsl) as Hsr. pose proof (sl_end _ _ _ _ _ _ _ _ Hsl).
  pose proof (sl_last _ _ _ _ _ _ _ _ Hsl) as Hsl'. constructor.
  - done.
  - intros x Hx Hge. specialize (Hnext x Hx Hge). lia.
  - split; [done |]. intros o Ho. destruct (Hin o Ho) as (? & ? & _). split; [done |]. by apply Hown.
  - intros o c Ho Hso Hon Hds. pose proof (proj1 (Hown o Ho) Hso) as Hr.
    pose proof (on_slice_cards _ _ _ _ _ _ _ _ _ _ Hsc _ _ _ _ Hsl o c Ho Hr Hon). by apply (Hd o c); [| | | lia |].
  - intros l1 c l2 E. destruct (Hc l1 c l2 E) as (_ & Hcr & Hon). split; [| done]. split; [unfold at_ in *; lia |]. split; [unfold at_ in *; lia |].
    intros o Ho [Hn1 Hn2]. apply (Hown o Ho). split; [| unfold at_ in *; lia].
    pose proof (sc_aligned _ _ _ _ _ _ _ _ _ Hsc). pose proof (sc_tiles _ _ _ _ _ _ _ _ _ Hsc) as Ht.
    destruct (sl_start _ _ _ _ _ _ _ _ Hsl) as [Hbs _].
    pose proof (boundary_aligned _ _ _ _ Ht os ltac:(lia) Hbs).
    destruct (decide (o < os)) as [Hlt |]; [| lia].
    pose proof (boundary_before _ _ _ _ Ht o os Hbs Ho Hlt). unfold at_ in *. lia.
Qed.

(** The test that some object starts in the slice. *)
Lemma starts_test j : 0 <= j -> bottom + 65536 * j < top ->
  let E := Z.min top (bottom + 65536 * (j + 1)) in
  exists b, ObjectStartArray.object_starts_in_range a (bottom + 65536 * j) E = Some b
  /\ (b = false -> forall o, o ∈ objs -> slice_of o <> j).
Proof using Hsc.
  intros Hj HW E. destruct Hsc as [[Hwf Hrec] Hr Hal Ht Hst _].
  pose proof (heap_range _ _ _ _ _ _ _ _ _ Hsc) as (? & ? & ? & ?). eexists. split.
  - apply (ObjectStartArray.starts_in_range_run a n); [done | done | split; lia | split; lia].
  - intros Hb%bool_decide_eq_false o Ho Hs. apply Hb. split; [lia |]. apply Exists_exists. exists o.
    pose proof (tiles_bounds _ _ _ _ Ht o Ho). split; [apply Hst; [lia | done] |].
    unfold ObjectStartArray.block_index, slice_of in *. lia.
Qed.

(** Where the scan of a slice starts. *)
Lemma slice_first W ls f : bottom <= W < top -> W mod 512 = 0 ->
  (forall x, boundary x -> W <= x -> ls <= x) -> f ∈ objs -> f <= W < object_end f ->
  exists ls1 os,
    (if f <? W then
       let last_scanned := hw_add f (size_of f) in (last_scanned, byte_for byte_map_base last_scanned)
     else (ls, B + W / 512)) = (ls1, B + os / 512)
    /\ boundary os /\ W <= os /\ (os = W \/ exists f, f ∈ objs /\ f < W /\ os = object_end f)
    /\ (forall o, o ∈ objs -> (W <= o <-> os <= o))
    /\ (ls1 = os \/ (ls1 <= os /\ os = at_ B (B + os / 512))).
Proof using Hsc.
  intros HW Hm Hls Hf Hin. pose proof (tiles_bounds _ _ _ _ (sc_tiles _ _ _ _ _ _ _ _ _ Hsc) f Hf).
  destruct (slice_os W f Hf Hin) as (Hbs & HWs & Hcase & Hos). cbv zeta. destruct (Z.ltb_spec f W).
  - rewrite (size_step _ _ _ _ _ _ _ _ _ Hsc f Hf), (byte_for_run _ _ _ _ _ _ _ _ _ Hsc) by lia.
    exists (object_end f), (object_end f). split; [done |]. split; [done |]. split; [done |].
    split; [right; exists f; by split_and! | split; [done | by left]].
  - exists ls, W. split; [done |]. split; [done |]. split; [done |]. split; [by left |]. split; [done |].
    right. split; [by apply Hls | unfold at_; lia].
Qed.

(** Where it ends. *)
Lemma slice_limit j wec0 (s : S) log :
  let E := Z.min top (bottom + 65536 * (j + 1)) in
  0 <= j -> bottom + 65536 * j < top -> wec0 <= last_card -> (E = top -> top <= at_ B wec0) ->
  exists oe wec,
    (if E <? top then
       last_object ← object_start size_of a (hw_sub E 1) bottom;
       let slice_end := hw_add last_object (size_of last_object) in
       let worker_end_card := byte_for byte_map_base slice_end + 1 in
       mret (slice_end, if worker_end_card >? last_card then last_card else worker_end_card)
     else mret (E, wec0)) (s, log) = Some ((oe, wec), (s, log))
    /\ boundary oe /\ oe <= at_ B wec /\ at_ B wec - 512 <= oe /\ at_ B wec - 512 < top /\ bottom + 65536 * j <= oe
    /\ (forall o, o ∈ objs -> (o < bottom + 65536 * (j + 1) <-> o < oe))
    /\ (forall x, boundary x -> bottom + 65536 * (j + 1) <= x -> oe <= x).
Proof using Hsc.
  intros E Hj HW Hwl Hwt. destruct (scan_bounds _ _ _ _ _ _ _ _ _ Hsc) as (_ & _ & E3 & E4 & E5 & E6 & E7 & E8).
  pose proof (sc_tiles _ _ _ _ _ _ _ _ _ Hsc) as Ht.
  destruct (Z.ltb_spec E top).
  - assert (hw_sub E 1 = E - 8) as ->.
    { pose proof (heap_range _ _ _ _ _ _ _ _ _ Hsc). pose proof (sc_range _ _ _ _ _ _ _ _ _ Hsc).
      unfold hw_sub, HeapWordSize. rewrite u64_small; [lia |]. unfold is_u64. lia. }
    destruct (object_start_run _ _ _ _ _ _ _ _ _ Hsc (E - 8) s log ltac:(lia)) as (o & Eo & Ho & Hin). mrun Eo. cbv zeta.
    destruct (slice_oe E o ltac:(lia) ltac:(lia) Ho Hin) as (Hb & HE & Hoe).
    pose proof (tiles_bounds _ _ _ _ Ht o Ho). rewrite (size_step _ _ _ _ _ _ _ _ _ Hsc o Ho).
    rewrite (byte_for_run _ _ _ _ _ _ _ _ _ Hsc) by lia. eexists _, _. split; [done |]. split; [done |].
    assert (E = bottom + 65536 * (j + 1)) by lia.
    assert (forall w, w = (if B + object_end o / 512 + 1 >? last_card then last_card else B + object_end o / 512 + 1) ->
      object_end o <= at_ B w /\ at_ B w - 512 <= object_end o /\ at_ B w - 512 < top) as Hw.
    { intros w ->. case_match; unfold at_ in *; lia. }
    destruct (Hw _ eq_refl) as (? & ? & ?). split; [done |]. split; [done |]. split; [done |]. split; [lia |].
    split; [intros y Hy; rewrite <- (Hoe y Hy); lia |].
    intros x Hx Hge. apply (boundary_before _ _ _ _ Ht); [done | done | lia].
  - assert (E = top) as HE by lia. specialize (Hwt HE). rewrite HE. exists top, wec0. split; [done |].
    split; [by right |]. split; [done |]. split; [unfold at_ in *; lia |]. split; [unfold at_ in *; lia |]. split; [lia |]. split.
    + intros o Ho. pose proof (tiles_bounds _ _ _ _ Ht o Ho). lia.
    + intros x Hx Hge. lia.
Qed.

Lemma scan_slice_run j ls s log :
  I s -> 0 <= j -> bottom + 65536 * j < top -> j mod total = number ->
  (forall x, boundary x -> bottom + 65536 * j <= x -> ls <= x) ->
  exists ls' s' l, scan_slice byte_map_base size_of a bottom top last_card (first_card + 128 * j) ls (s, log)
    = Some (ls', (s', log ++ l)) /\ slice_scanned s s' j ls' l.
Proof using HK Hrely Hsc.
  intros HI Hj HW Hjt Hls. destruct (scan_bounds _ _ _ _ _ _ _ _ _ Hsc) as (_ & _ & E3 & E4 & E5 & E6 & E7 & E8).
  unfold scan_slice, ssize. cbv zeta. set (W := bottom + 65536 * j) in *. set (E := Z.min top (bottom + 65536 * (j + 1))).
  assert (HatW : at_ B (first_card + 128 * j) = W) by (unfold at_ in *; lia).
  set (wec0 := if first_card + 128 * j + 128 >? last_card then last_card else first_card + 128 * j + 128).
  assert (Hwec0 : MIN2 top (addr_for byte_map_base wec0) = E /\ wec0 <= last_card /\ (E = top -> top <= at_ B wec0)).
  { rewrite MIN2_min. unfold wec0. case_match; rewrite (addr_for_run _ _ _ _ _ _ _ _ _ Hsc); unfold at_ in *; lia. }
  destruct Hwec0 as (-> & Hwl & Hwt). rewrite (addr_for_run _ _ _ _ _ _ _ _ _ Hsc), HatW by (unfold at_ in *; lia).
  destruct (starts_test j Hj HW) as (b & Eb & Hb). fold W E in Eb. rewrite Eb.
  rewrite (M_bind_Some (lift_opt (Some b)) _ _ b (s, log) eq_refl).
  destruct b; cbn [negb].
  2: { exists ls, s, []. rewrite app_nil_r. split; [done |]. specialize (Hb eq_refl). constructor.
       - by apply after_nil.
       - intros x Hx Hge. apply Hls; [done | lia].
       - split; [apply NoDup_nil_2 | by intros o ?%elem_of_nil].
       - intros o c Ho Hs. by destruct (Hb o Ho).
       - by intros [|e l1]. }
  destruct (object_start_run _ _ _ _ _ _ _ _ _ Hsc W s log ltac:(lia)) as (f & Ef & Hf & Hfin). mrun Ef.
  replace (first_card + 128 * j) with (B + W / 512) by (unfold at_ in *; lia).
  destruct (slice_first W ls f ltac:(lia) ltac:(lia) Hls Hf Hfin) as (ls1 & os & E1 & Hbs & HWs & Hcase & Hos & Hls1).
  cbv zeta in E1. rewrite E1.
  destruct (slice_limit j wec0 s log Hj HW Hwl Hwt) as (oe & wec & E2 & Hbe & Hw1 & Hw2 & Hw3 & Hoj & Hoe & Hnext).
  cbv zeta in E2. fold E in E2. mrun E2.
  assert (Hown : forall o, o ∈ objs -> (slice_of o = j <-> os <= o < oe)).
  { intros o Ho. rewrite <- (Hos o Ho), <- (Hoe o Ho). unfold slice_of, W. lia. }
  assert (Hse : os <= oe).
  { destruct Hcase as [-> | (f' & Hf' & Hlt & ->)]; [done |].
    apply (boundary_before _ bottom top objs); [apply Hsc | done | done |]. lia. }
  assert (Hsl : slice K B top objs os oe (B + os / 512) wec).
  { constructor; [done | by split; [| lia] | done |].
    intros c Hc. apply HK; [unfold at_, CardTable.first_card, CardTable.last_card in *; lia |].
    by apply (slice_kept total number j os oe (B + os / 512) wec); [| | lia | | | | | | |]. }
  destruct (card_loop_run I dirty K Hrely _ _ _ _ _ _ _ _ _ Hsc _ _ _ _ Hsl push_contents
    (push_ok _ _ _ Hrely) drain_stacks (drain_ok _ _ _ Hrely) (loop_fuel (B + os / 512) wec) (B + os / 512) ls1 s log)
    as (ls' & s' & l & El & Hsn); [done | lia | | lia |].
  { split; [destruct Hls1 as [-> | [? ?]]; [left; split; [lia | done] | by right] | intros; lia]. }
  exists ls', s', l. split; [exact El |]. by apply (scanned_slice s s' j os oe (B + os / 512) wec ls1).
Qed.

Context (Htotal : 0 <= number < total).

(** What the scan of the stripe does from the slice [j] on. *)
Record stripe_scanned (s s' : S) (j : Z) (l : list event) : Prop := {
  st_after : after I dirty K s s' l;
  st_once : NoDup (scans l) /\ forall o, o ∈ scans l -> o ∈ objs /\ slice_of o mod total = number /\ j <= slice_of o;
  st_dirty : forall o c, o ∈ objs -> slice_of o mod total = number -> j <= slice_of o -> on_card size_of B o c ->
    dirty s c -> o ∈ scans l;
  st_clean : forall l1 c l2, l = l1 ++ Clean c :: l2 ->
    (exists j', j' mod total = number /\ in_slice c j') /\ forall o, o ∈ objs -> on_card size_of B o c -> o ∈ scans l2
}.

Lemma stripe_nil s j : I s -> top <= bottom + 65536 * j -> stripe_scanned s s j [].
Proof using Hsc.
  intros HI Hj. clear Htotal. constructor.
  - by apply after_nil.
  - split; [apply NoDup_nil_2 | by intros o ?%elem_of_nil].
  - intros o c Ho Hm Hge. pose proof (tiles_bounds _ _ _ _ (sc_tiles _ _ _ _ _ _ _ _ _ Hsc) o Ho). unfold slice_of in *. lia.
  - by intros [|e l1].
Qed.

Lemma stripe_cons s1 s2 s3 j ls l l' : j mod total = number ->
  slice_scanned s1 s2 j ls l -> stripe_scanned s2 s3 (j + total) l' -> stripe_scanned s1 s3 j (l ++ l').
Proof using HK Hsc Htotal.
  intros Hj [Ha _ [Hnd HL] Hd Hc] [Ha' [Hnd' HL'] Hd' Hc'].
  assert (Hstep : forall i, i mod total = number -> j <= i -> i = j \/ j + total <= i).
  { intros i Hi Hji. pose proof (Z.div_mod i total ltac:(lia)). pose proof (Z.div_mod j total ltac:(lia)).
    destruct (decide (i / total <= j / total)); [left; nia | right; nia]. }
  constructor.
  - exact (after_app _ _ _ _ _ _ _ _ Ha Ha').
  - rewrite scans_app. split.
    + apply NoDup_app. split; [done |]. split; [| done]. intros o Ho Ho'.
      apply HL in Ho as [_ ?]. apply HL' in Ho' as (_ & _ & ?). lia.
    + intros o [Ho | Ho]%elem_of_app; [apply HL in Ho as [? <-] | apply HL' in Ho as (? & ? & ?)];
        (split; [done |]; split; [done | lia]).
  - intros o c Ho Hm Hge Hon Hds. rewrite scans_app, elem_of_app.
    destruct (Hstep _ Hm Hge) as [Heq | Hlater]; [left; by apply (Hd o c) | right].
    apply (Hd' o c); try done. apply Ha; [apply HK; [by apply (card_of o) | by apply (own_card total number o)] | done |].
    intros (l1 & l2 & E)%list_elem_of_split. destruct (Hc l1 c l2 E) as [(_ & _ & Hin) _].
    pose proof (Hin o Ho (on_card_near o c Hon)). lia.
  - intros l1 c l2 E. apply clean_split in E as [(k & ->) | (k & -> & ->)].
    + by apply (Hc' k c l2).
    + destruct (Hc l1 c k eq_refl) as [Hin Hon]. split; [by exists j |].
      intros o Ho Hoc. rewrite scans_app, elem_of_app. left. by apply Hon.
Qed.

Lemma slices_loop_run fuel m ls s log :
  let j := number + total * m in
  I s -> 0 <= m -> number * 128 < 2 ^ 32 -> (forall x, boundary x -> bottom + 65536 * j <= x -> ls <= x) ->
  (loop_fuel (first_card + 128 * (total * m)) last_card <= fuel)%nat ->
  exists s' l, slices_loop byte_map_base size_of a fuel bottom top last_card number (128 * total)
      (first_card + 128 * (total * m)) ls (s, log) = Some (tt, (s', log ++ l))
    /\ stripe_scanned s s' j l.
Proof using HK Hrely Hsc Htotal.
  intros j HI Hm H32 Hls Hf. unfold j in *. clear j. revert m ls s log HI Hm Hls Hf.
  destruct (scan_bounds _ _ _ _ _ _ _ _ _ Hsc) as (_ & _ & E3 & E4 & E5 & E6 & _ & _).
  induction fuel as [|fuel IH]; intros m ls s log HI Hm Hls Hf; unfold loop_fuel in Hf; [lia |]. cbn [slices_loop].
  assert (Hstop : forall s, I s -> top <= bottom + 65536 * (number + total * m) ->
    exists s' l, (mret tt : M (S * list event) unit) (s, log) = Some (tt, (s', log ++ l))
      /\ stripe_scanned s s' (number + total * m) l).
  { intros s0 HI0 Htop. exists s0, []. rewrite app_nil_r. split; [done | by apply stripe_nil]. }
  destruct (Z.ltb_spec (first_card + 128 * (total * m)) last_card) as [Hlt | Hge].
  2: { apply Hstop; [done |]. unfold at_ in *. lia. }
  rewrite wrap_small by (unfold ssize; lia). unfold ssize at 1 2.
  replace (first_card + 128 * (total * m) + number * 128) with (first_card + 128 * (number + total * m)) by lia.
  rewrite Z.geb_leb. destruct (Z.leb_spec last_card (first_card + 128 * (number + total * m))) as [Hge | Hin].
  { apply Hstop; [done |]. unfold at_ in *. lia. }
  assert (0 <= total * m) by nia.
  destruct (scan_slice_run (number + total * m) ls s log) as (ls' & s1 & l & E & Hsn); try done; try lia.
  { unfold CardTable.last_card, CardTable.first_card in Hin. unfold at_ in *. lia. }
  { rewrite Z.mul_comm, Z_mod_plus_full. by apply Z.mod_small. }
  mrun E. replace (first_card + 128 * (total * m) + 128 * total) with (first_card + 128 * (total * (m + 1))) by lia.
  destruct (IH (m + 1) ls' s1 (log ++ l)) as (s' & l' & E' & Hst).
  - apply Hsn.
  - lia.
  - intros x Hx Hge. apply (ss_last _ _ _ _ _ Hsn); [done | nia].
  - unfold loop_fuel. nia.
  - exists s', (l ++ l'). rewrite E', <- app_assoc. split; [done |].
    apply (stripe_cons s s1 s' _ ls'); [| done |].
    + rewrite Z.mul_comm, Z_mod_plus_full. by apply Z.mod_small.
    + by replace (number + total * m + total) with (number + total * (m + 1)) by lia.
Qed.

(** The striped scan of a space. *)
Lemma stripe_scan s log : 128 * total < 2 ^ 32 -> I s ->
  exists s' l, scavenge_nonbda_contents_parallel byte_map_base size_of a bottom top number total (s, log)
    = Some (tt, (s', log ++ l))
  /\ stripe_scanned s s' 0 l.
Proof using HK Hrely Hsc Htotal.
  intros H32 HI. destruct (scan_bounds _ _ _ _ _ _ _ _ _ Hsc) as (E1 & E2 & _ & _ & E5 & _).
  destruct (slices_loop_run (loop_fuel first_card last_card) 0 NULL s log) as (s' & l & E & Hst); try done; try lia.
  { intros x Hx _. apply (boundary_range _ _ _ _ (sc_tiles _ _ _ _ _ _ _ _ _ Hsc)) in Hx. unfold NULL. lia. }
  { by rewrite Z.mul_0_r, Z.mul_0_r, Z.add_0_r. }
  rewrite !Z.mul_0_r, Z.add_0_r in E. rewrite Z.mul_0_r, Z.add_0_r in Hst.
  exists s', l. unfold scavenge_nonbda_contents_parallel. cbv zeta.
  rewrite E1, E2. rewrite wrap_small by (unfold ssize; lia). unfold ssize at 1. split; [exact E |].
  destruct Hst as [Ha [Hnd HL] Hd Hc]. constructor; [done | | | done].
  - split; [done |]. intros o Ho. destruct (HL o Ho) as (? & ? & ?). split; [done |]. split; [done | lia].
  - intros o c Ho Hm Hge. apply (Hd o c); try done. rewrite <- Hm. apply Z.mod_le; lia.
Qed.

End Stripes.

(** C11. The striped scan of a space, or of a part of it between two segments.  Each of the tasks
    terminates; it scans only objects that start in its slices, none twice, and every such
    object that has a word on a card that is not clean when it starts.  So every
    object of the space on such a card is scanned by exactly one task.  A card is
    only cleaned by the task of the one slice that all objects near it belong to, and before
    these are scanned; this is all that each task relies on the others to do. *)
Theorem stripe_scan_spec {S : Type} {HS : CardMemory S} (I : S -> Prop) (dirty : S -> Z -> Prop)
    (byte_map_base : Z) (size_of : Z -> Z) (a : ObjectStartArray.ObjectStartArray) (B n : Z) (starts : list Z)
    (bottom top : Z) (objs : list Z) (stripe_number stripe_total : Z) (s : S)
    (Hstripe : 0 <= stripe_number < stripe_total) (H32 : 128 * stripe_total < 2 ^ 32)
    (Hrely : rely I dirty (others_keep size_of B bottom top objs stripe_total stripe_number))
    (Hsc : scannable byte_map_base size_of a B n starts bottom top objs) (HI : I s) :
  exists s' log,
    scavenge_nonbda_contents_parallel byte_map_base size_of a bottom top stripe_number stripe_total (s, [])
      = Some (tt, (s', log))
    /\ scavenge_contents_parallel byte_map_base size_of a bottom top stripe_number stripe_total (s, [])
      = Some (tt, (s', log))
    /\ I s'
    /\ NoDup (scans log)
    /\ (forall o, o ∈ scans log -> o ∈ objs /\ slice_of bottom o mod stripe_total = stripe_number)
    /\ (forall o c, o ∈ objs -> slice_of bottom o mod stripe_total = stripe_number -> on_card size_of B o c ->
          dirty s c -> o ∈ scans log)
    /\ (forall l1 c l2, log = l1 ++ Clean c :: l2 ->
          (exists j, j mod stripe_total = stripe_number /\ in_slice size_of B bottom top objs c j)
          /\ forall o, o ∈ objs -> on_card size_of B o c -> o ∈ scans l2).
Proof.
  destruct (stripe_scan size_of B bottom top objs byte_map_base a n starts Hsc I dirty _ stripe_total stripe_number
    Hrely ltac:(done) Hstripe s [] H32 HI) as (s' & l & E & [Ha [Hnd HL] Hd Hc]).
  exists s', l. split; [exact E |]. split; [exact E |]. split; [apply Ha |]. split; [done |].
  split; [intros o Ho; by destruct (HL o Ho) as (? & ? & _) |]. split; [| done].
  intros o c Ho Hm Hon Hds. apply (Hd o c); try done.
  pose proof (tiles_bounds _ _ _ _ (sc_tiles _ _ _ _ _ _ _ _ _ Hsc) o Ho). unfold slice_of. lia.
Qed.

(** ** A sample

    The cards are a function and pushing an object marks its first card.  Two objects, of
    80 and of 16 words, lie on the cards 1008 and 1009, of which the second is dirty. *)
Definition sample_memory : CardMemory (Z -> Z) := {|
  read_card c := gets (fun cards => cards c);
  write_card c v := modify (fun cards d => if d =? c then v else cards d);
  push_contents o := modify (fun cards d => if d =? 1000 + o / 512 then youngergen_card else cards d);
  push_bdaref_contents o _ := modify (fun cards d => if d =? 1000 + o / 512 then youngergen_card else cards d);
  drain_stacks := mret tt;
  drain_bda_stacks := mret tt
|}.
Definition sample_size (p : Z) : Z := if p =? 4096 then 80 else 16.
Definition sample_array : ObjectStartArray.ObjectStartArray :=
  default ObjectStartArray.sample
    (a ← ObjectStartArray.allocate_block (ObjectStartArray.reset ObjectStartArray.sample) 4096;
     ObjectStartArray.allocate_block a 4736).
Definition sample_cards (c : Z) : Z := if c =? 1009 then dirty_card else clean_card.

Lemma sample_rely (K : Z -> Prop) :
  @rely _ sample_memory (fun _ => True) (fun cards c => cards c <> clean_card) K.
Proof.
  constructor; [intros c s _ | intros c s _ | intros o s _ | intros o c s _ | intros s _ | intros s _];
    (eexists _, _ || eexists); (split; [reflexivity |]); (split; [done |]).
  - by split.
  - intros d _ Hne Hd. simpl. by destruct (Z.eqb_spec d c).
  - intros d _ Hd. simpl. by destruct (Z.eqb_spec d (1000 + o / 512)).
  - intros d _ Hd. simpl. by destruct (Z.eqb_spec d (1000 + o / 512)).
  - done.
  - done.
Qed.

Lemma sample_scannable : scannable 1000 sample_size sample_array 1000 4 [4096; 4736] 4096 4864 [4096; 4736].
Proof.
  constructor.
  - split; [constructor; vm_compute; repeat split; discriminate |].
    split; [repeat constructor; vm_compute; discriminate |]. intros i Hi.
    assert (i = 0 \/ i = 1 \/ i = 2 \/ i = 3) as [-> | [-> | [-> | ->]]] by lia; vm_compute; reflexivity.
  - vm_compute. split; [discriminate | done].
  - done.
  - vm_compute. tauto.
  - done.
  - vm_compute. done.
Qed.

Lemma container_scan_spec_witness :
  exists s' log, @scavenge_bda_contents_parallel _ sample_memory 1000 sample_size sample_array 64 4096 4864 (sample_cards, [])
    = Some (tt, (s', log)) /\ 4096 ∈ scans log /\ 4736 ∈ scans log.
Proof.
  destruct (@container_scan_spec _ sample_memory (fun _ => True) (fun cards c => cards c <> clean_card) (fun _ => True)
    1000 sample_size sample_array 1000 4 [4096; 4736] 64 4096 4864 [4096; 4736] sample_cards
    (sample_rely _) sample_scannable ltac:(done) ltac:(done)) as (s' & log & E & _ & _ & _ & _ & Hd & _).
  exists s', log. split; [exact E |].
  split; [apply (Hd 4096 1009); [by left | | done] | apply (Hd 4736 1009); [by right; left | | done]];
    vm_compute; split; reflexivity.
Defined.

Lemma stripe_scan_spec_witness :
  exists s' log,
    @scavenge_nonbda_contents_parallel _ sample_memory 1000 sample_size sample_array 4096 4864 0 2 (sample_cards, [])
      = Some (tt, (s', log)) /\ 4096 ∈ scans log /\ 4736 ∈ scans log.
Proof.
  destruct (@stripe_scan_spec _ sample_memory (fun _ => True) (fun cards c => cards c <> clean_card)
    1000 sample_size sample_array 1000 4 [4096; 4736] 4096 4864 [4096; 4736] 0 2 sample_cards
    ltac:(lia) ltac:(lia) (sample_rely _) sample_scannable ltac:(done)) as (s' & log & E & _ & _ & _ & _ & Hd & _).
  exists s', log. split; [exact E |].
  split; [apply (Hd 4096 1009); [by left | done | | done] | apply (Hd 4736 1009); [by right; left | done | | done]];
    vm_compute; split; reflexivity.
Defined.

End CardTable.
