(* ===== verification/OldToYoung.v ===== *)
(** * The tasks that look for references into the young generation

    [bda/bdaTasks.cpp]: [OldToYoungBDARootsTask] scans the cards of the segments of containers,
    [OldToYoungNonBDARootsTask] those of the rest of the first space, which it finds with the
    bit map of the segments.  Both are run by several threads, which share the work:
    the segments of a space by their distance from the last one, the rest in stripes. *)

From Stdlib Require Import ZArith Lia Sorted.
From stdpp Require Import base numbers gmap sets list.
From S2P Require Import Prelude GlobalDefs BitMap ObjectStartArray ParMarkBitMap Container GenQueue CGRPSpace MutableBDASpace BDALayout Segments CardTable.

Local Open Scope Z_scope.

Module OldToYoung.
Import CardTable.

Section NonBDA.
Context {S : Type} {HS : CardMemory S}.
Context (byte_map_base : Z) (size_of : Z -> Z) (start_array : ObjectStartArray.ObjectStartArray).
(** [LogMinObjAlignment] and the bit map of segments, which does not change below the saved
    top of the space while the tasks run. *)
Context (shift : Z) (pm : ParMarkBitMap.ParMarkBitMap).

Fixpoint nonbda_loop (fuel : nat) (gen_top stripe_number stripe_total bottom : Z) : M (S * list event) unit :=
  match fuel with
  | O => stuck
  | Datatypes.S fuel =>
    if bottom <? gen_top then
      let tmp_top := MutableBDASpace.get_next_beg_seg shift pm bottom gen_top in
      when (negb (bottom =? tmp_top))
        (scavenge_nonbda_contents_parallel byte_map_base size_of start_array bottom tmp_top stripe_number stripe_total);;
      if tmp_top =? gen_top then mret tt
      else
        let new_bottom := hw_add (MutableBDASpace.get_next_end_seg shift pm (hw_add tmp_top 1) gen_top) 1 in
        nonbda_loop fuel gen_top stripe_number stripe_total new_bottom
    else mret tt
  end.

(** [OldToYoungNonBDARootsTask::do_it], for a space from [bottom]. *)
Definition nonbda_do_it (bottom gen_top stripe_number stripe_total : Z) : M (S * list event) unit :=
  nonbda_loop (Datatypes.S (Z.to_nat (pointer_delta gen_top bottom))) gen_top stripe_number stripe_total bottom;;
  run drain_stacks.

End NonBDA.

(** ** The memory between the segments *)

Section Gaps.
Context (pm : ParMarkBitMap.ParMarkBitMap) (segs : list ParMarkBitMap.obj) (gen_top : Z).

Definition word (bit : Z) : Z := ParMarkBitMap._region_start pm + 8 * bit.

(** The parts of the memory from [p] to [gen_top] that are in none of the segments [l]. *)
Fixpoint gaps (l : list ParMarkBitMap.obj) (p : Z) : list (Z * Z) :=
  if p <? gen_top then
    match l with
    | [] => [(p, gen_top)]
    | (b, e) :: l => if word b <? gen_top then (p, word b) :: gaps l (word (e + 1)) else [(p, gen_top)]
    end
  else [].

Record bitmap_ok : Prop := {
  bm_repr : ParMarkBitMap.repr pm segs;
  bm_size : forall o, o ∈ segs -> o.1 < o.2;
  bm_range : 0 <= ParMarkBitMap._region_start pm /\ word (ParMarkBitMap.size pm) < 2 ^ 64;
  bm_top : gen_top mod 8 = ParMarkBitMap._region_start pm mod 8
    /\ ParMarkBitMap._region_start pm <= gen_top <= word (ParMarkBitMap.size pm)
}.
Context (Hbm : bitmap_ok).

Lemma word_bit i : 0 <= i <= ParMarkBitMap.size pm -> ParMarkBitMap.addr_to_bit 0 pm (word i) = i.
Proof using Hbm.
  intros Hi. destruct Hbm as [_ _ Hr _]. unfold word in *.
  unfold ParMarkBitMap.addr_to_bit, ParMarkBitMap.words_to_bits, ParMarkBitMap.obj_granularity_shift, ParMarkBitMap.region_start.
  rewrite Z.shiftr_0_r, pointer_delta_small; unfold is_u64; lia.
Qed.

Lemma gap_bit_word i : 0 <= i <= ParMarkBitMap.size pm -> ParMarkBitMap.bit_to_addr 0 pm i = word i.
Proof using Hbm.
  intros Hi. destruct Hbm as [_ _ Hr _]. unfold word in *.
  unfold ParMarkBitMap.bit_to_addr, ParMarkBitMap.bits_to_words, ParMarkBitMap.obj_granularity_shift, ParMarkBitMap.region_start.
  rewrite Z.shiftl_0_r, (u64_small i) by (unfold is_u64; lia). rewrite hw_add_small; lia.
Qed.

(** The next segment, as the loops find it. *)
Lemma next_beg_run i : 0 <= i -> word i <= gen_top ->
  MutableBDASpace.get_next_beg_seg 0 pm (word i) gen_top
  = match ParMarkBitMap.from i segs with
    | [] => gen_top
    | o :: _ => Z.min (word o.1) gen_top
    end.
Proof using Hbm.
  intros Hi Hle. destruct Hbm as [Hrep Hsz Hr [Hm Ht]].
  set (t := (gen_top - ParMarkBitMap._region_start pm) / 8).
  assert (Et : gen_top = word t) by (unfold word, t; lia).
  assert (Htr : i <= t <= ParMarkBitMap.size pm) by (unfold word in *; lia).
  unfold MutableBDASpace.get_next_beg_seg, ParMarkBitMap.find_obj_beg_addr. rewrite Et.
  rewrite !word_bit by lia.
  destruct (ParMarkBitMap.word_align_up_spec pm segs Hrep t ltac:(lia)) as (? & ? & ?).
  rewrite (ParMarkBitMap.find_obj_beg_spec pm segs Hrep) by lia. rewrite MIN2_min.
  unfold ParMarkBitMap.next_beg. destruct (ParMarkBitMap.from i segs) as [|o l] eqn:E.
  - rewrite Z.min_r by lia. apply gap_bit_word. lia.
  - pose proof (ParMarkBitMap.from_head segs i o l E) as (Ho & Hio & _).
    rewrite gap_bit_word by lia. unfold word. lia.
Qed.

(** The end of a segment. *)
Lemma next_end_run o : o ∈ segs -> word o.1 < gen_top ->
  let b := hw_add (MutableBDASpace.get_next_end_seg 0 pm (hw_add (word o.1) 1) gen_top) 1 in
  (word (o.2 + 1) <= gen_top /\ b = word (o.2 + 1)) \/ (gen_top < word (o.2 + 1) /\ gen_top <= b).
Proof using Hbm.
  intros Ho Hlt. cbv zeta. destruct Hbm as [Hrep Hsz Hr [Hm Ht]].
  pose proof (ParMarkBitMap.obj_range pm segs Hrep o Ho) as Hor. specialize (Hsz o Ho).
  set (t := (gen_top - ParMarkBitMap._region_start pm) / 8).
  assert (Et : gen_top = word t) by (unfold word, t; lia).
  assert (Htr : o.1 < t <= ParMarkBitMap.size pm) by (unfold word in *; lia).
  unfold MutableBDASpace.get_next_end_seg, ParMarkBitMap.find_obj_end_addr. rewrite Et.
  replace (hw_add (word o.1) 1) with (word (o.1 + 1)) by (unfold word in *; rewrite hw_add_small; lia).
  rewrite !word_bit by lia.
  destruct (ParMarkBitMap.word_align_up_spec pm segs Hrep t ltac:(lia)) as (? & ? & ?).
  rewrite (ParMarkBitMap.find_obj_end_within pm segs Hrep o) by (done || lia). rewrite MIN2_min.
  rewrite gap_bit_word by lia. unfold word in *.
  destruct (decide (o.2 < t)); [left | right]; rewrite hw_add_small by lia; lia.
Qed.

Lemma gaps_bounds l p g : g ∈ gaps l p -> StronglySorted ParMarkBitMap.before l ->
  Forall (fun o => p <= word o.1 /\ o.1 <= o.2) l -> p <= g.1 /\ g.1 <= g.2 <= gen_top.
Proof using.
  revert p. induction l as [|[b e] l IH]; intros p; cbn [gaps]; destruct (Z.ltb_spec p gen_top);
    try (by intros ?%elem_of_nil).
  - intros ->%list_elem_of_singleton _ _. simpl. lia.
  - destruct (Z.ltb_spec (word b) gen_top).
    + intros [-> | Hg]%elem_of_cons [Hs Hb]%StronglySorted_inv [[Hpb Hbe] Hf]%Forall_cons; simpl in *; [lia |].
      destruct (IH (word (e + 1)) Hg Hs) as [? ?]; [| unfold word in *; lia].
      rewrite Forall_forall in Hb, Hf |- *. intros o Ho. specialize (Hb o Ho). specialize (Hf o Ho).
      unfold ParMarkBitMap.before, word in *. simpl in *. lia.
    + intros ->%list_elem_of_singleton _ _. simpl. lia.
Qed.

Lemma gaps_sorted l p : StronglySorted ParMarkBitMap.before l -> Forall (fun o => p <= word o.1 /\ o.1 <= o.2) l ->
  StronglySorted (fun g g' => g.2 <= g'.1) (gaps l p).
Proof using.
  revert p. induction l as [|[b e] l IH]; intros p Hs Hf; cbn [gaps]; destruct (Z.ltb_spec p gen_top);
    try (by constructor).
  - constructor; [constructor | done].
  - destruct (Z.ltb_spec (word b) gen_top); [| constructor; [constructor | done]].
    apply StronglySorted_inv in Hs as [Hs Hb]. apply Forall_cons in Hf as [[Hpb Hbe] Hf].
    assert (Hl : Forall (fun o => word (e + 1) <= word o.1 /\ o.1 <= o.2) l).
    { rewrite Forall_forall in Hb, Hf |- *. intros o Ho. specialize (Hb o Ho). specialize (Hf o Ho).
      unfold ParMarkBitMap.before, word in *. simpl in *. lia. }
    constructor; [by apply IH |]. apply Forall_forall. intros g Hg.
    destruct (gaps_bounds l (word (e + 1)) g Hg Hs Hl) as [? _]. simpl in *. unfold word in *. lia.
Qed.

(** The gaps are the memory that is in no segment. *)
Lemma gaps_cover l p x : StronglySorted ParMarkBitMap.before l -> Forall (fun o => p <= word o.1 /\ o.1 <= o.2) l ->
  p <= x < gen_top ->
  (exists g, g ∈ gaps l p /\ g.1 <= x < g.2) <-> ~ exists o, o ∈ l /\ word o.1 <= x < word (o.2 + 1).
Proof using.
  revert p. induction l as [|[b e] l IH]; intros p Hs Hf Hx; cbn [gaps]; (destruct (Z.ltb_spec p gen_top); [| lia]).
  - split; [by intros _ (o & ?%elem_of_nil & _) |]. intros _. exists (p, gen_top). split; [by left | done].
  - apply StronglySorted_inv in Hs as [Hs Hb]. apply Forall_cons in Hf as [[Hpb Hbe] Hf]. cbn [fst snd] in *.
    assert (Hl : Forall (fun o => word (e + 1) <= word o.1 /\ o.1 <= o.2) l).
    { rewrite Forall_forall in Hb, Hf |- *. intros o Ho. specialize (Hb o Ho). specialize (Hf o Ho).
      unfold ParMarkBitMap.before, word in *. simpl in *. lia. }
    assert (Hlx : forall o, o ∈ l -> word (e + 1) <= word o.1).
    { rewrite Forall_forall in Hl. intros o Ho. by apply Hl. }
    assert (word b < word (e + 1)) by (unfold word; lia).
    destruct (Z.ltb_spec (word b) gen_top) as [Hlt | Hge].
    + destruct (decide (word (e + 1) <= x)) as [Hle | Hgt].
      * split.
        -- intros (g & [-> | Hg]%elem_of_cons & Hgx) (o & [-> | Ho]%elem_of_cons & Hox); cbn [fst snd] in *; [lia | | lia |].
           { specialize (Hlx o Ho). lia. }
           destruct (proj1 (IH (word (e + 1)) Hs Hl ltac:(lia))); [by exists g | by exists o].
        -- intros Hn. destruct (proj2 (IH (word (e + 1)) Hs Hl ltac:(lia))) as (g & Hg & Hgx).
           { intros (o & Ho & Hox). apply Hn. exists o. split; [by right | done]. }
           exists g. split; [by right | done].
      * split.
        -- intros (g & [-> | Hg]%elem_of_cons & Hgx) (o & [-> | Ho]%elem_of_cons & Hox); cbn [fst snd] in *; [lia | | |].
           { specialize (Hlx o Ho). lia. }
           { destruct (gaps_bounds l (word (e + 1)) g Hg Hs Hl). lia. }
           { specialize (Hlx o Ho). lia. }
        -- intros Hn. exists (p, word b). split; [by left |]. cbn [fst snd]. split; [lia |].
           destruct (decide (x < word b)); [done |]. destruct Hn. exists (b, e). split; [by left | simpl; lia].
    + split; [| intros _; exists (p, gen_top); split; [by left | done]].
      intros _ (o & [-> | Ho]%elem_of_cons & Hox); cbn [fst snd] in *; [lia |]. specialize (Hlx o Ho). lia.
Qed.

End Gaps.

Lemma bind_cont {S A B} (m : M S A) (k k' : A -> M S B) s :
  (forall x s', k x s' = k' x s') -> (x ← m; k x) s = (x ← m; k' x) s.
Proof. intros H. unfold mbind, M_bind. destruct (m s) as [[x s'] |]; [apply H | done]. Qed.

(** The scan of a list of parts of the memory. *)
Section ScanGaps.
Context {S : Type} {HS : CardMemory S}.
Context (byte_map_base : Z) (size_of : Z -> Z) (a : ObjectStartArray.ObjectStartArray).

Fixpoint scan_gaps (stripe_number stripe_total : Z) (gs : list (Z * Z)) : M (S * list event) unit :=
  match gs with
  | [] => mret tt
  | (p, q) :: gs =>
    when (negb (p =? q)) (scavenge_nonbda_contents_parallel byte_map_base size_of a p q stripe_number stripe_total);;
    scan_gaps stripe_number stripe_total gs
  end.

(** The loop of the task scans the gaps between the segments. *)
Lemma nonbda_loop_gaps pm segs gen_top number total fuel i st :
  bitmap_ok pm segs gen_top -> 0 <= i -> (Z.to_nat ((gen_top - word pm i) / 8) < fuel)%nat ->
  nonbda_loop byte_map_base size_of a 0 pm fuel gen_top number total (word pm i) st
  = scan_gaps number total (gaps pm gen_top (ParMarkBitMap.from i segs) (word pm i)) st.
Proof.
  intros Hbm. revert i st. induction fuel as [|fuel IH]; intros i st Hi Hf; [lia |]. cbn [nonbda_loop].
  pose proof (bm_repr _ _ _ Hbm) as Hrep.
  destruct (Z.ltb_spec (word pm i) gen_top) as [Hlt | Hge].
  2: { assert (gaps pm gen_top (ParMarkBitMap.from i segs) (word pm i) = []) as ->; [| done].
       destruct (ParMarkBitMap.from i segs) as [|[b e] l]; cbn [gaps]; by destruct (Z.ltb_spec (word pm i) gen_top); [lia |]. }
  cbv zeta. rewrite (next_beg_run pm segs gen_top Hbm i) by lia.
  destruct (ParMarkBitMap.from i segs) as [|[b e] l] eqn:E; cbn [gaps].
  - destruct (Z.ltb_spec (word pm i) gen_top); [| lia]. cbn [scan_gaps]. by rewrite Z.eqb_refl.
  - destruct (ParMarkBitMap.from_head segs i _ _ E) as (Ho & Hib & _). simpl in Hib.
    destruct (Z.ltb_spec (word pm i) gen_top); [| lia]. cbn [fst].
    destruct (Z.ltb_spec (word pm b) gen_top) as [Hb | Hb].
    + rewrite Z.min_l by lia. cbn [scan_gaps].
      destruct (Z.eqb_spec (word pm b) gen_top) as [| _]; [lia |].
      destruct (next_end_run pm segs gen_top Hbm (b, e) Ho Hb) as [[He Eb] | [He Eb]]; cbn [fst snd] in *.
      * apply bind_cont. intros [] st'. rewrite Eb.
        rewrite IH; [| pose proof (ParMarkBitMap.obj_range pm segs Hrep _ Ho); simpl in *; lia |].
        -- pose proof (ParMarkBitMap.from_next segs (ParMarkBitMap.size pm) i (b, e) l (ParMarkBitMap.r_sorted _ _ Hrep)
             (ParMarkBitMap.r_range _ _ Hrep) E) as Hn. cbn [snd] in Hn. by rewrite Hn.
        -- pose proof (ParMarkBitMap.obj_range pm segs Hrep _ Ho). cbn [fst snd] in *. clear -Hf Hlt Hib H0 He.
           unfold word in *. lia.
      * apply bind_cont. intros [] st'. destruct fuel as [|fuel]; [destruct (bm_top _ _ _ Hbm); unfold word in *; lia |]. cbn [nonbda_loop].
        destruct (Z.ltb_spec (hw_add (MutableBDASpace.get_next_end_seg 0 pm (hw_add (word pm b) 1) gen_top) 1) gen_top); [lia |].
        assert (gaps pm gen_top l (word pm (e + 1)) = []) as ->; [| done].
        destruct l as [|[b' e'] l']; cbn [gaps]; by destruct (Z.ltb_spec (word pm (e + 1)) gen_top); [lia |].
    + rewrite Z.min_r by lia. cbn [scan_gaps]. by rewrite Z.eqb_refl.
Qed.

End ScanGaps.

(** ** The scan of the gaps *)

Section Parts.
Context {S : Type} {HS : CardMemory S} (I : S -> Prop) (dirty : S -> Z -> Prop) (K : Z -> Prop).
Context (Hrely : rely I dirty K).
Context (byte_map_base : Z) (size_of : Z -> Z) (a : ObjectStartArray.ObjectStartArray).
Context (B n : Z) (starts : list Z) (total number : Z) (content : Z -> list Z).
Context (Htotal : 0 <= number < total) (H32 : 128 * total < 2 ^ 32).

(** The part [g] of the memory is full of the objects [content g.1]. *)
Definition full (g : Z * Z) : Prop :=
  g.1 < g.2 -> scannable byte_map_base size_of a B n starts g.1 g.2 (content g.1).
Definition part_kept (g : Z * Z) (c : Z) : Prop :=
  g.1 < g.2 -> others_keep size_of B g.1 g.2 (content g.1) total number c.

(** What the task does to the parts [gs]. *)
Record parts_scanned (s s' : S) (gs : list (Z * Z)) (l : list event) : Prop := {
  ps_after : after I dirty K s s' l;
  ps_once : NoDup (scans l) /\ forall o, o ∈ scans l ->
    exists g, g ∈ gs /\ g.1 < g.2 /\ o ∈ content g.1 /\ slice_of g.1 o mod total = number;
  ps_dirty : forall g o c, g ∈ gs -> g.1 < g.2 -> o ∈ content g.1 -> slice_of g.1 o mod total = number ->
    on_card size_of B o c -> dirty s c -> o ∈ scans l;
  ps_clean : forall l1 c l2, l = l1 ++ Clean c :: l2 ->
    exists g, g ∈ gs /\ g.1 < g.2
      /\ (exists j, j mod total = number /\ in_slice size_of B g.1 g.2 (content g.1) c j)
      /\ forall o, o ∈ content g.1 -> on_card size_of B o c -> o ∈ scans l2
}.

Lemma full_bounds g o : full g -> g.1 < g.2 -> o ∈ content g.1 -> g.1 <= o < g.2.
Proof using.
  clear Htotal H32. intros Hf Hlt Ho. destruct (tiles_bounds _ _ _ _ (sc_tiles _ _ _ _ _ _ _ _ _ (Hf Hlt)) o Ho). lia.
Qed.

Lemma parts_cons s1 s2 s3 g gs l l' :
  g.1 < g.2 -> full g -> Forall full gs -> Forall (fun g' => g.2 <= g'.1) gs ->
  (forall g' c, g' ∈ gs -> g'.1 < g'.2 -> first_card B g'.1 <= c < last_card B g'.2 -> part_kept g' c -> K c) ->
  stripe_scanned size_of B g.1 g.2 (content g.1) I dirty K total number s1 s2 0 l ->
  parts_scanned s2 s3 gs l' -> parts_scanned s1 s3 (g :: gs) (l ++ l').
Proof using.
  clear Htotal H32. intros Hg Hfg Hfull Hafter HK [Ha [Hnd HL] Hd Hc] [Ha' [Hnd' HL'] Hd' Hc'].
  rewrite Forall_forall in Hfull, Hafter. constructor.
  - exact (after_app _ _ _ _ _ _ _ _ Ha Ha').
  - rewrite scans_app. split.
    + apply NoDup_app. split; [done |]. split; [| done]. intros o Ho Ho'.
      apply HL in Ho as (Ho & _ & _). apply HL' in Ho' as (g' & Hg' & Hlt & Ho' & _).
      pose proof (full_bounds g o Hfg Hg Ho). pose proof (full_bounds g' o (Hfull g' Hg') Hlt Ho').
      specialize (Hafter g' Hg'). simpl in Hafter. lia.
    + intros o [Ho | Ho]%elem_of_app.
      * apply HL in Ho as (? & ? & _). exists g. split; [by left | done].
      * apply HL' in Ho as (g' & Hg' & ?). exists g'. split; [by right | done].
  - intros g' o c [-> | Hg']%elem_of_cons Hlt Ho Hm Hon Hds; rewrite scans_app, elem_of_app.
    + left. apply (Hd o c); try done. pose proof (full_bounds g o Hfg Hg Ho). unfold slice_of. lia.
    + right. apply (Hd' g' o c); try done. pose proof (full_bounds g' o (Hfull g' Hg') Hlt Ho).
      specialize (Hafter g' Hg'). simpl in Hafter. apply Ha; [| done |].
      * apply (HK g'); try done; [by apply (card_of size_of B g'.1 g'.2 (content g'.1) byte_map_base a n starts (Hfull g' Hg' Hlt) o) |].
        intros _. by apply (own_card size_of B g'.1 g'.2 (content g'.1) total number o).
      * intros (l1 & l2 & E)%list_elem_of_split. destruct (Hc l1 c l2 E) as [(j & _ & _ & Htop & _) _].
        destruct Hon. lia.
  - intros l1 c l2 E. apply clean_split in E as [(k & ->) | (k & -> & ->)].
    + destruct (Hc' k c l2 eq_refl) as (g' & Hg' & ?). exists g'. split; [by right | done].
    + destruct (Hc l1 c k eq_refl) as [Hin Hon]. exists g. split; [by left |]. split; [done |]. split; [done |].
      intros o Ho Hoc. rewrite scans_app, elem_of_app. left. by apply Hon.
Qed.

Lemma scan_gaps_run gs s log :
  I s -> StronglySorted (fun g g' => g.2 <= g'.1) gs -> Forall full gs -> Forall (fun g => g.1 <= g.2) gs ->
  (forall g' c, g' ∈ gs -> g'.1 < g'.2 -> first_card B g'.1 <= c < last_card B g'.2 -> part_kept g' c -> K c) ->
  exists s' l, scan_gaps byte_map_base size_of a number total gs (s, log) = Some (tt, (s', log ++ l))
  /\ parts_scanned s s' gs l.
Proof using H32 Hrely Htotal.
  revert s log. induction gs as [|[p q] gs IH]; intros s log HI Hs Hfull Hle HK; cbn [scan_gaps].
  - exists s, []. rewrite app_nil_r. split; [done |]. constructor.
    + by apply after_nil.
    + split; [apply NoDup_nil_2 | by intros o ?%elem_of_nil].
    + by intros g o c ?%elem_of_nil.
    + by intros [|e l1].
  - apply StronglySorted_inv in Hs as [Hs Hafter]. apply Forall_cons in Hfull as [Hfg Hfull].
    apply Forall_cons in Hle as [Hpq Hle]. cbn [fst snd] in Hpq.
    assert (HK' : forall g' c, g' ∈ gs -> g'.1 < g'.2 -> first_card B g'.1 <= c < last_card B g'.2 -> part_kept g' c -> K c).
    { intros g' c Hg'. apply HK. by right. }
    destruct (Z.eqb_spec p q) as [-> | Hne]; cbn [negb].
    + rewrite when_false, M_ret_bind. destruct (IH s log HI Hs Hfull Hle HK') as (s' & l & E & Hp).
      exists s', l. split; [exact E |]. destruct Hp as [Ha [Hnd HL] Hd Hc]. constructor; [done | | |].
      * split; [done |]. intros o Ho. destruct (HL o Ho) as (g & Hg & ?). exists g. split; [by right | done].
      * intros g o c [-> | Hg]%elem_of_cons; [simpl; lia | by apply Hd].
      * intros l1 c l2 El. destruct (Hc l1 c l2 El) as (g & Hg & ?). exists g. split; [by right | done].
    + rewrite when_true.
      assert (Hlt : (p, q).1 < (p, q).2) by (simpl; lia).
      destruct (stripe_scan size_of B p q (content p) byte_map_base a n starts (Hfg Hlt) I dirty K total number Hrely)
        with (s := s) (log := log) as (s1 & l & E & Hst); [| done | done | done |].
      { intros c Hc Hk. apply (HK (p, q)); [by left | done | done | by intros _]. }
      mrun E. destruct (IH s1 (log ++ l) (proj1 (st_after _ _ _ _ _ _ _ _ _ _ _ _ _ _ Hst)) Hs Hfull Hle HK')
        as (s' & l' & E' & Hp).
      exists s', (l ++ l'). rewrite E', <- app_assoc. split; [done |].
      by apply (parts_cons s s1 s' (p, q)).
Qed.

End Parts.

(** Parts of a sorted list are the same or apart. *)
Lemma parts_apart (gs : list (Z * Z)) g g' : StronglySorted (fun g g' => g.2 <= g'.1) gs -> g ∈ gs -> g' ∈ gs ->
  g = g' \/ g.2 <= g'.1 \/ g'.2 <= g.1.
Proof.
  induction 1 as [|x l Hs IH Hx]; intros H1 H2; [by apply elem_of_nil in H1 |].
  rewrite Forall_forall in Hx. apply elem_of_cons in H1, H2. destruct H1 as [-> | H1], H2 as [-> | H2]; auto.
Qed.

Lemma from_ok pm segs gen_top i : bitmap_ok pm segs gen_top ->
  StronglySorted ParMarkBitMap.before (ParMarkBitMap.from i segs)
  /\ Forall (fun o => word pm i <= word pm o.1 /\ o.1 <= o.2) (ParMarkBitMap.from i segs).
Proof.
  intros Hbm. pose proof (bm_repr _ _ _ Hbm) as Hrep. pose proof (ParMarkBitMap.r_sorted _ _ Hrep) as Hs.
  pose proof (ParMarkBitMap.from_sorted segs i Hs) as Hfs. split; [done |]. apply Forall_forall. intros o Ho.
  pose proof (ParMarkBitMap.obj_range pm segs Hrep o (ParMarkBitMap.from_in _ _ _ Ho)). split; [| lia].
  destruct (ParMarkBitMap.from i segs) as [|x l] eqn:E; [by apply elem_of_nil in Ho |].
  destruct (ParMarkBitMap.from_head segs i x l E) as (Hx & Hix & _).
  pose proof (ParMarkBitMap.obj_range pm segs Hrep x Hx). apply StronglySorted_inv in Hfs as [_ Hb].
  apply elem_of_cons in Ho as [-> | Ho]; [unfold word; lia |].
  rewrite Forall_forall in Hb. specialize (Hb o Ho). unfold ParMarkBitMap.before, word in *. lia.
Qed.

(** C13. The tasks that scan the first space outside the segments of containers.  The task
    terminates and scans, of the memory from [bottom] to the saved top, what is in no segment:
    the gaps are exactly that memory.  In each gap it scans, once, the objects of its
    stripe, every one with a word on a card that is not clean among them; so each object
    of the gaps that lies on such a card is scanned by exactly one task.  A card is only
    cleaned when all objects near it belong to one slice of the task, and before they are
    scanned, which is all that the task relies on the other tasks to do. *)
Theorem nonbda_task_spec {S : Type} {HS : CardMemory S} (I : S -> Prop) (dirty : S -> Z -> Prop)
    (byte_map_base : Z) (size_of : Z -> Z) (a : ObjectStartArray.ObjectStartArray) (B n : Z) (starts : list Z)
    (pm : ParMarkBitMap.ParMarkBitMap) (segs : list ParMarkBitMap.obj) (i gen_top : Z) (content : Z -> list Z)
    (stripe_number stripe_total : Z) (s : S) :
  let bottom := word pm i in
  let parts := gaps pm gen_top (ParMarkBitMap.from i segs) bottom in
  0 <= stripe_number < stripe_total -> 128 * stripe_total < 2 ^ 32 -> 0 <= i -> bottom <= gen_top ->
  bitmap_ok pm segs gen_top ->
  Forall (full byte_map_base size_of a B n starts content) parts ->
  rely I dirty (fun c => forall g, g ∈ parts -> part_kept size_of B stripe_total stripe_number content g c) -> I s ->
  (forall x, bottom <= x < gen_top ->
     (exists g, g ∈ parts /\ g.1 <= x < g.2)
     <-> ~ exists o, o ∈ ParMarkBitMap.from i segs /\ word pm o.1 <= x < word pm (o.2 + 1))
  /\ exists s' log,
    nonbda_do_it byte_map_base size_of a 0 pm bottom gen_top stripe_number stripe_total (s, []) = Some (tt, (s', log))
    /\ I s'
    /\ NoDup (scans log)
    /\ (forall o, o ∈ scans log ->
          exists g, g ∈ parts /\ g.1 < g.2 /\ o ∈ content g.1 /\ slice_of g.1 o mod stripe_total = stripe_number)
    /\ (forall g o c, g ∈ parts -> g.1 < g.2 -> o ∈ content g.1 -> slice_of g.1 o mod stripe_total = stripe_number ->
          on_card size_of B o c -> dirty s c -> o ∈ scans log)
    /\ (forall l1 c l2, log = l1 ++ Clean c :: l2 ->
          exists g, g ∈ parts /\ g.1 < g.2
          /\ (exists j, j mod stripe_total = stripe_number /\ in_slice size_of B g.1 g.2 (content g.1) c j)
          /\ forall o, o ∈ content g.1 -> on_card size_of B o c -> o ∈ scans l2).
Proof.
  intros bottom parts Hstripe H32 Hi Hle Hbm Hfull Hrely HI.
  destruct (from_ok pm segs gen_top i Hbm) as [Hs Hf].
  pose proof (gaps_sorted pm gen_top _ _ Hs Hf) as Hsort. fold bottom in Hsort. fold parts in Hsort.
  split; [intros x Hx; exact (gaps_cover pm gen_top _ _ x Hs Hf Hx) |].
  destruct (scan_gaps_run I dirty _ Hrely byte_map_base size_of a B n starts stripe_total stripe_number content Hstripe H32 parts s [])
    as (s1 & l & E & [Ha [Hnd HL] Hd Hc]); [done | done | done | | |].
  { apply Forall_forall. intros g Hg. apply (gaps_bounds pm gen_top _ _ g Hg Hs Hf). }
  { intros g c Hg Hlt Hcr Hk g' Hg' Hlt' (j & Hj & Hb & Ht & Hin).
    rewrite Forall_forall in Hfull. destruct (scan_bounds _ _ _ _ _ _ _ _ _ (Hfull g Hg Hlt)) as (_ & _ & E3 & E4 & _).
    destruct (parts_apart parts g g' Hsort Hg Hg') as [<- | [Hap | Hap]].
    - apply (Hk Hlt). by exists j.
    - unfold at_ in *. lia.
    - unfold at_ in *. lia. }
  destruct (drain_ok _ _ _ Hrely s1 (proj1 Ha)) as (s2 & E2 & HI2 & _).
  exists s2, l. split; [| done]. unfold nonbda_do_it. pose proof (bm_top _ _ _ Hbm). pose proof (bm_range _ _ _ Hbm).
  rewrite (M_bind_Some _ _ (s, []) tt (s1, l)); [by apply run_Some |].
  unfold bottom. rewrite (nonbda_loop_gaps byte_map_base size_of a pm segs); [exact E | done | done |].
  unfold bottom in Hle. rewrite pointer_delta_small; unfold is_u64, word in *; lia.
Qed.

(** A space from 4096 to 5632 with a segment from 4864 to 5120: two objects lie before it, one
    after it. *)
Definition sample_bitmap : ParMarkBitMap.ParMarkBitMap :=
  ParMarkBitMap.mkParMarkBitMap 4096 256 (BitMap.mkBitMap [0; 2 ^ 32; 0; 0] 256) (BitMap.mkBitMap [0; 2 ^ 63; 0; 0] 256) 64.
Definition sample_size (p : Z) : Z := if p =? 4096 then 80 else if p =? 4736 then 16 else 64.
Definition sample_content (p : Z) : list Z := if p =? 4096 then [4096; 4736] else [5120].
Definition sample_array : ObjectStartArray.ObjectStartArray :=
  default ObjectStartArray.sample (ObjectStartArray.allocate_block CardTable.sample_array 5120).

Lemma sample_bitmap_ok : bitmap_ok sample_bitmap [(96, 127)] 5632.
Proof.
  constructor.
  - split; try done; try (apply bool_decide_eq_true_1; vm_compute; reflexivity).
    + repeat constructor; vm_compute; discriminate.
    + repeat constructor; vm_compute; discriminate.
    + repeat constructor.
    + repeat constructor; simpl; vm_compute; discriminate.
    + apply ParMarkBitMap.bits_by_evaluation. by vm_compute.
    + apply (ParMarkBitMap.bits_by_evaluation _ snd). by vm_compute.
  - intros o ->%list_elem_of_singleton. done.
  - vm_compute. split; [discriminate | done].
  - vm_compute. split; [done | split; discriminate].
Qed.

Lemma sample_full :
  Forall (full 1000 sample_size sample_array 1000 4 [4096; 4736; 5120] sample_content) [(4096, 4864); (5120, 5632)].
Proof.
  assert (Ha : ObjectStartArray.wf sample_array 4 /\ ObjectStartArray.records sample_array 4 [4096; 4736; 5120]).
  { split; [constructor; vm_compute; repeat split; discriminate |].
    split; [repeat constructor; vm_compute; discriminate |]. intros i Hi.
    assert (i = 0 \/ i = 1 \/ i = 2 \/ i = 3) as [-> | [-> | [-> | ->]]] by lia; vm_compute; reflexivity. }
  apply Forall_cons. split; [intros _ | apply Forall_singleton; intros _].
  - constructor; cbn [fst snd]; [exact Ha | vm_compute; repeat split; done | done | vm_compute; tauto | | vm_compute; done].
    intros x Hx. unfold sample_content. simpl. rewrite !elem_of_cons, elem_of_nil. lia.
  - constructor; cbn [fst snd]; [exact Ha | vm_compute; repeat split; done | done | vm_compute; tauto | | vm_compute; done].
    intros x Hx. unfold sample_content. simpl. rewrite !elem_of_cons, elem_of_nil. lia.
Qed.

Lemma nonbda_task_spec_witness :
  exists s' log,
    @nonbda_do_it _ CardTable.sample_memory 1000 sample_size sample_array 0 sample_bitmap 4096 5632 0 2 (CardTable.sample_cards, [])
      = Some (tt, (s', log)) /\ 4096 ∈ scans log /\ 4736 ∈ scans log.
Proof.
  destruct (@nonbda_task_spec _ CardTable.sample_memory (fun _ => True) (fun cards c => cards c <> clean_card)
    1000 sample_size sample_array 1000 4 [4096; 4736; 5120] sample_bitmap [(96, 127)] 0 5632 sample_content 0 2
    CardTable.sample_cards ltac:(lia) ltac:(lia) ltac:(lia) ltac:(done) sample_bitmap_ok sample_full
    (CardTable.sample_rely _) ltac:(done)) as (_ & s' & log & E & _ & _ & _ & Hd & _).
  exists s', log. split; [exact E |].
  split; [apply (Hd (4096, 4864) 4096 1009); [by left | done | by left | done | | done]
         | apply (Hd (4096, 4864) 4736 1009); [by left | done | by right; left | done | | done]];
    vm_compute; split; reflexivity.
Defined.

(** With objects aligned to two words, the bit of the end of a segment stands for two words, and
    the task goes on a word before the end of the segment. *)
Example jump_into_segment :
  hw_add (MutableBDASpace.get_next_end_seg 1 sample_bitmap (hw_add (4096 + 16 * 96) 1) 7000) 1 = 4096 + 16 * 128 - 8.
Proof. by vm_compute. Qed.

(** ** The segments of containers *)

(** What the tasks see of the old generation. *)
Class OldGeneration (S : Type) := { view : S -> CGRPSpace.world }.

Section BDA.
Context {S : Type} {HS : CardMemory S} {HO : OldGeneration S}.
Context (byte_map_base : Z) (size_of : Z -> Z) (start_array : ObjectStartArray.ObjectStartArray).
Context (order_number batch_width : Z).

(** A computation that reads the headers of the segments. *)
Definition on_view {A} (m : M Container.heap A) : M (S * list event) A := fun st =>
  match m (CGRPSpace.headers (view (fst st))) with Some (x, _) => Some (x, st) | None => None end.

Fixpoint segments_loop (fuel : nat) (c : Z) : M (S * list event) unit :=
  match fuel with
  | O => stuck
  | Datatypes.S fuel =>
    if negb (c =? NULL) then
      k ← on_view (Container.load c);
      (if (Container._saved_top k =? NULL) || (Container._start k =? Container._saved_top k) then mret tt
       else scavenge_bda_contents_parallel byte_map_base size_of start_array c (Container._start k) (Container._saved_top k));;
      c ← on_view (CGRPSpace.get_previous_n_segment c (Z.to_nat (i32 batch_width)));
      segments_loop fuel c
    else mret tt
  end.

(** The loop over the spaces, [n] of them from the one at [spc_id]. *)
Fixpoint spaces_loop (n : nat) (spc_id : Z) : M (S * list event) unit :=
  match n with
  | O => mret tt
  | Datatypes.S n =>
    w ← gets (fun st => view (fst st));
    bda_space ← lift_opt (CGRPSpace.spaces w !! Z.to_nat spc_id);
    (if CGRPSpace._last_segment bda_space =? NULL then mret tt
     else
       c ← on_view (CGRPSpace.get_previous_n_segment (CGRPSpace._last_segment bda_space) (Z.to_nat (i32 order_number)));
       segments_loop (Datatypes.S (CGRPSpace.header_count w)) c;;
       run drain_bda_stacks);;
    spaces_loop n (spc_id + 1)
  end.

(** [OldToYoungBDARootsTask::do_it] *)
Definition bda_do_it : M (S * list event) unit :=
  w ← gets (fun st => view (fst st));
  spaces_loop (length (CGRPSpace.spaces w)) 0.

End BDA.

(** ** The segments as the tasks find them *)

(** An element of a list, [NULL] past its end. *)
Definition nth_or (d : nat) (r : list Z) : Z := default NULL (r !! d).

(** The segments of a space from the last one back. *)
Definition linked_back (h : Container.heap) (r : list Z) : Prop :=
  forall d x, r !! d = Some x -> x <> NULL /\ exists k, h !! x = Some k /\ Container._previous k = nth_or (Datatypes.S d) r.

Lemma previous_run h r d m : linked_back h r ->
  CGRPSpace.get_previous_n_segment (nth_or d r) m h = Some (nth_or (d + m) r, h).
Proof.
  intros Hl. revert d. induction m as [|m IH]; intros d; cbn [CGRPSpace.get_previous_n_segment].
  - by rewrite Nat.add_0_r.
  - destruct (r !! d) as [x |] eqn:E.
    + assert (nth_or d r = x) as -> by (unfold nth_or; by rewrite E). destruct (Hl d x E) as (Hx & k & Hk & Hp). destruct (Z.eqb_spec x NULL); [done |].
      mrun (Container.field_run _ _ _ Container._previous Hk). rewrite Hp, IH. by rewrite Nat.add_succ_comm.
    + assert (nth_or d r = NULL) as -> by (unfold nth_or; by rewrite E).
      rewrite Z.eqb_refl. unfold nth_or. rewrite (lookup_ge_None_2 r (d + Datatypes.S m)); [done |].
      apply lookup_ge_None in E. lia.
Qed.

Section Segments.
Context (byte_map_base : Z) (size_of : Z -> Z) (a : ObjectStartArray.ObjectStartArray).
Context (B n : Z) (starts : list Z) (start saved : Z -> Z) (content : Z -> list Z).

(** A segment in which something had been allocated before the collection. *)
Definition used (c : Z) : Prop := saved c <> NULL /\ start c <> saved c.
Definition segment_full (c : Z) : Prop :=
  used c -> scannable byte_map_base size_of a B n starts (start c) (saved c) (content c).
Definition segment_cards (c d : Z) : Prop := first_card B (start c) <= d < last_card B (saved c).

(** The segments [chains], the last ones of the spaces first, are as they were saved. *)
Record frozen (chains : list (list Z)) (w : CGRPSpace.world) : Prop := {
  fz_spaces : length (CGRPSpace.spaces w) = length chains;
  fz_last : forall i r, chains !! i = Some r ->
    exists g, CGRPSpace.spaces w !! i = Some g /\ CGRPSpace._last_segment g = nth_or 0 r;
  fz_linked : forall r, r ∈ chains -> linked_back (CGRPSpace.headers w) r;
  fz_fields : forall r c, r ∈ chains -> c ∈ r -> exists k, CGRPSpace.headers w !! c = Some k
    /\ Container._start k = start c /\ Container._saved_top k = saved c
}.

(** Segments that are apart have no card in common. *)
Lemma cards_apart c c' d : segment_full c -> segment_full c' -> used c -> used c' ->
  saved c <= start c' \/ saved c' <= start c -> segment_cards c d -> segment_cards c' d -> False.
Proof using.
  intros Hf Hf' Hu Hu' Hap Hd Hd'. unfold segment_cards, first_card, last_card in *.
  pose proof (sc_aligned _ _ _ _ _ _ _ _ _ (Hf Hu)). pose proof (sc_aligned _ _ _ _ _ _ _ _ _ (Hf' Hu')). lia.
Qed.

Context {S : Type} {HS : CardMemory S} (I : S -> Prop) (dirty : S -> Z -> Prop) (K : Z -> Prop).

(** What a task does to the segments [V]. *)
Record segs_scanned (s s' : S) (V : Z -> Prop) (l : list event) : Prop := {
  sg_after : after I dirty K s s' l;
  sg_once : NoDup (scans l) /\ forall o, o ∈ scans l -> exists c, V c /\ used c /\ o ∈ content c;
  sg_dirty : forall c o d, V c -> used c -> o ∈ content c -> on_card size_of B o d -> dirty s d -> o ∈ scans l;
  sg_clean : forall l1 d l2, l = l1 ++ Clean d :: l2 ->
    exists c, V c /\ used c /\ first_card B (start c) < d < last_card B (saved c) - 1
      /\ forall o, o ∈ content c -> on_card size_of B o d -> o ∈ scans l2
}.

Lemma segs_none s s' (V : Z -> Prop) : (forall c, V c -> ~ used c) -> after I dirty K s s' [] -> segs_scanned s s' V [].
Proof using.
  intros HV Ha. constructor; [done | | |].
  - split; [apply NoDup_nil_2 | by intros o ?%elem_of_nil].
  - intros c o d Hc Hu. by destruct (HV c Hc).
  - by intros [|e l1].
Qed.

Lemma segs_ext s s' (V V' : Z -> Prop) l : (forall c, V c <-> V' c) -> segs_scanned s s' V l -> segs_scanned s s' V' l.
Proof using.
  intros HV [Ha [Hnd HL] Hd Hc]. constructor; [done | | |].
  - split; [done |]. intros o Ho. destruct (HL o Ho) as (c & Hc' & ?). exists c. split; [by apply HV | done].
  - intros c o d Hcv. apply Hd. by apply HV.
  - intros l1 d l2 E. destruct (Hc l1 d l2 E) as (c & Hc' & ?). exists c. split; [by apply HV | done].
Qed.

Lemma object_cards c o d : segment_full c -> used c -> o ∈ content c -> on_card size_of B o d -> segment_cards c d.
Proof using.
  intros Hf Hu. apply (card_of size_of B (start c) (saved c) (content c) byte_map_base a n starts (Hf Hu)).
Qed.

(** The segments of two parts of the work. *)
Lemma segs_union s1 s2 s3 (V V' : Z -> Prop) l l' :
  (forall c, V c \/ V' c -> segment_full c) ->
  (forall c c', V c -> V' c' -> used c -> used c' -> saved c <= start c' \/ saved c' <= start c) ->
  (forall c d, V' c -> used c -> segment_cards c d -> K d) ->
  segs_scanned s1 s2 V l -> segs_scanned s2 s3 V' l' -> segs_scanned s1 s3 (fun c => V c \/ V' c) (l ++ l').
Proof using.
  intros Hfull Hap HK [Ha [Hnd HL] Hd Hc] [Ha' [Hnd' HL'] Hd' Hc']. constructor.
  - exact (after_app _ _ _ _ _ _ _ _ Ha Ha').
  - rewrite scans_app. split.
    + apply NoDup_app. split; [done |]. split; [| done]. intros o Ho Ho'.
      destruct (HL o Ho) as (c & HV & Hu & Hin). destruct (HL' o Ho') as (c' & HV' & Hu' & Hin').
      destruct (tiles_bounds _ _ _ _ (sc_tiles _ _ _ _ _ _ _ _ _ (Hfull c (or_introl HV) Hu)) o Hin).
      destruct (tiles_bounds _ _ _ _ (sc_tiles _ _ _ _ _ _ _ _ _ (Hfull c' (or_intror HV') Hu')) o Hin').
      specialize (Hap c c' HV HV' Hu Hu'). lia.
    + intros o [Ho | Ho]%elem_of_app; [apply HL in Ho | apply HL' in Ho]; destruct Ho as (c & ? & ?); exists c; auto.
  - intros c o d [HV | HV] Hu Ho Hon Hds; rewrite scans_app, elem_of_app; [left; by apply (Hd c o d) | right].
    pose proof (object_cards c o d (Hfull c (or_intror HV)) Hu Ho Hon) as Hcd.
    apply (Hd' c o d); try done. apply Ha; [by apply (HK c) | done |].
    intros (l1 & l2 & E)%list_elem_of_split. destruct (Hc l1 d l2 E) as (c0 & HV0 & Hu0 & Hr & _).
    apply (cards_apart c0 c d); auto. unfold segment_cards. lia.
  - intros l1 d l2 E. apply clean_split in E as [(k & ->) | (k & -> & ->)].
    + destruct (Hc' k d l2 eq_refl) as (c & ? & ?). exists c. auto.
    + destruct (Hc l1 d k eq_refl) as (c & ? & ? & ? & Hon). exists c. split; [by left |]. split; [done |]. split; [done |].
      intros o Ho Hoc. rewrite scans_app, elem_of_app. left. by apply Hon.
Qed.

Context (Hrely : rely I dirty K) {HO : OldGeneration S} (chains : list (list Z)) (number width : Z).
Context (Hwidth : 0 <= number < width /\ width < 2 ^ 31).
Context (HI : forall s, I s -> frozen chains (view s)).
Context (Hfull : forall r c, r ∈ chains -> c ∈ r -> segment_full c).
Context (Hdistinct : NoDup (concat chains)).
Context (Hapart : forall c c', c ∈ concat chains -> c' ∈ concat chains -> c <> c' -> used c -> used c' ->
  saved c <= start c' \/ saved c' <= start c).

Lemma load_view c s log k : CGRPSpace.headers (view s) !! c = Some k ->
  on_view (Container.load c) (s, log) = Some (k, (s, log)).
Proof using. intros H. unfold on_view. cbn [fst]. by rewrite (Container.load_run _ _ _ H). Qed.

Lemma previous_view r d m s log : r ∈ chains -> I s ->
  on_view (CGRPSpace.get_previous_n_segment (nth_or d r) m) (s, log) = Some (nth_or (d + m) r, (s, log)).
Proof using HI.
  intros Hr Hs. unfold on_view. cbn [fst].
  by rewrite (previous_run _ _ _ _ (fz_linked _ _ (HI s Hs) r Hr)).
Qed.

Lemma in_chains r c : r ∈ chains -> c ∈ r -> c ∈ concat chains.
Proof using. intros Hr Hc. apply list_elem_of_In, in_concat. exists r. by rewrite <- !list_elem_of_In. Qed.

(** A segment. *)
Lemma segment_run r c s log : r ∈ chains -> c ∈ r -> I s -> (forall d, used c -> segment_cards c d -> K d) ->
  exists s' l,
    (k ← on_view (Container.load c);
     if (Container._saved_top k =? NULL) || (Container._start k =? Container._saved_top k) then mret tt
     else scavenge_bda_contents_parallel byte_map_base size_of a c (Container._start k) (Container._saved_top k))
      (s, log) = Some (tt, (s', log ++ l))
    /\ segs_scanned s s' (eq c) l.
Proof using Hfull HI Hrely.
  intros Hr Hc Hs HK. destruct (fz_fields _ _ (HI s Hs) r c Hr Hc) as (k & Hk & Hst & Hsv).
  mrun (load_view c s log k Hk). rewrite Hst, Hsv.
  destruct ((saved c =? NULL) || (start c =? saved c)) eqn:Eu.
  - exists s, []. rewrite app_nil_r. split; [done |]. apply segs_none; [| by apply after_nil].
    intros ? <- [? ?]. apply orb_true_iff in Eu as [? | ?]; lia.
  - assert (Hu : used c) by (apply orb_false_iff in Eu; unfold used; lia).
    pose proof (Hfull r c Hr Hc Hu) as Hsc.
    destruct (container_scan I dirty K Hrely _ _ _ _ _ _ _ _ _ Hsc (fun d => HK d Hu) c s log Hs) as (s' & l & E & ls & [Ha _ [Hnd Hin] Hd Hcl]).
    exists s', l. split; [exact E |]. constructor.
    + done.
    + split; [done |]. intros o Ho. exists c. split; [done |]. split; [done |]. by apply Hin.
    + intros ? o d <- _ Ho Hon Hds. destruct (tiles_bounds _ _ _ _ (sc_tiles _ _ _ _ _ _ _ _ _ Hsc) o Ho).
      apply (Hd o d); try done; [lia |]. by destruct (object_cards c o d (fun _ => Hsc) Hu Ho Hon).
    + intros l1 d l2 El. exists c. split; [done |]. split; [done |]. by destruct (Hcl l1 d l2 El) as (_ & ? & ?).
Qed.

(** The segments of a chain that are [width] apart, from the [d]th on. *)
Definition strided (r : list Z) (d : nat) (c : Z) : Prop := exists m : nat, r !! (d + m * Z.to_nat width)%nat = Some c.

Lemma strided_step r d c c0 : r !! d = Some c0 ->
  strided r d c <-> (c0 = c \/ strided r (d + Z.to_nat width) c).
Proof using.
  clear Hwidth. intros E0. unfold strided. split.
  - intros [[|m] E]; [left; rewrite Nat.mul_0_l, Nat.add_0_r in E; congruence | right].
    exists m. rewrite <- E. f_equal. lia.
  - intros [<- | [m E]]; [exists O; by rewrite Nat.mul_0_l, Nat.add_0_r |].
    exists (Datatypes.S m). rewrite <- E. f_equal. lia.
Qed.

Lemma chain_nodup r : r ∈ chains -> NoDup r.
Proof using Hdistinct.
  clear -Hdistinct. intros (l1 & l2 & E)%list_elem_of_split. rewrite E, concat_app in Hdistinct.
  apply NoDup_app in Hdistinct as (_ & _ & H). cbn [concat] in H. by apply NoDup_app in H as (? & _).
Qed.

Lemma segments_loop_run fuel r d s log :
  r ∈ chains -> I s -> (length r - d < fuel)%nat ->
  (forall c e, strided r d c -> used c -> segment_cards c e -> K e) ->
  exists s' l, segments_loop byte_map_base size_of a width fuel (nth_or d r) (s, log) = Some (tt, (s', log ++ l))
  /\ segs_scanned s s' (strided r d) l.
Proof using Hwidth Hapart Hdistinct Hfull HI Hrely.
  intros Hr. revert d s log. induction fuel as [|fuel IH]; intros d s log Hs Hf HK; [lia |]. cbn [segments_loop].
  destruct (r !! d) as [c |] eqn:E.
  - assert (nth_or d r = c) as Ec by (unfold nth_or; by rewrite E).
    destruct (fz_linked _ _ (HI s Hs) r Hr d c E) as [Hne _]. rewrite Ec. destruct (Z.eqb_spec c NULL); [done |]. cbn [negb].
    pose proof (list_elem_of_lookup_2 _ _ _ E) as Hc.
    destruct (segment_run r c s log Hr Hc Hs) as (s1 & l & E1 & Hsg).
    { intros e. apply HK. exists O. by rewrite Nat.mul_0_l, Nat.add_0_r. }
    rewrite <- M_bind_assoc. mrun E1.
    rewrite <- Ec. mrun (previous_view r d (Z.to_nat (i32 width)) s1 (log ++ l) Hr (proj1 (sg_after _ _ _ _ Hsg))).
    rewrite swrap_small by lia. apply lookup_lt_Some in E as Hd.
    destruct (IH (d + Z.to_nat width)%nat s1 (log ++ l)) as (s' & l' & E' & Hsg').
    { apply Hsg. } { lia. }
    { intros c' e Hst. apply HK. apply (strided_step r d c' c E). by right. }
    exists s', (l ++ l'). rewrite E', <- app_assoc. split; [done |].
    apply (segs_ext _ _ (fun x => c = x \/ strided r (d + Z.to_nat width) x)); [intros x; symmetry; by apply strided_step |].
    apply (segs_union s s1 s'); try done.
    + intros x [<- | [m Hx]]; [by apply (Hfull r) |]. apply (Hfull r); [done |]. by apply list_elem_of_lookup_2 in Hx.
    + intros x y <- [m Hy]. apply Hapart; [by apply (in_chains r) | |].
      * apply (in_chains r); [done |]. by apply list_elem_of_lookup_2 in Hy.
      * intros <-. pose proof (NoDup_lookup _ _ _ _ (chain_nodup r Hr) E Hy). lia.
    + intros x e Hst. apply HK. apply (strided_step r d x c E). by right.
  - assert (nth_or d r = NULL) as -> by (unfold nth_or; by rewrite E). rewrite Z.eqb_refl. cbn [negb].
    exists s, []. rewrite app_nil_r. split; [done |]. apply segs_none; [| by apply after_nil].
    intros c [m Hc]. apply lookup_lt_Some in Hc. apply lookup_ge_None in E. lia.
Qed.

Definition later_chains (i : nat) (c : Z) : Prop :=
  exists j r, (i <= j)%nat /\ chains !! j = Some r /\ strided r (Z.to_nat number) c.

Lemma concat_apart (ls : list (list Z)) i j r r' c :
  NoDup (concat ls) -> ls !! i = Some r -> ls !! j = Some r' -> c ∈ r -> c ∈ r' -> i = j.
Proof using.
  revert i j. induction ls as [|x ls IH]; intros i j Hnd Hi Hj Hc Hc'; [done |]. cbn [concat] in Hnd.
  apply NoDup_app in Hnd as (Hx & Hdis & Hls).
  assert (Hin : forall k y, ls !! k = Some y -> c ∈ y -> c ∈ concat ls).
  { intros k y Hk Hy. apply list_elem_of_In, in_concat. exists y. rewrite <- !list_elem_of_In. split; [| done].
    by apply list_elem_of_lookup_2 in Hk. }
  destruct i as [|i], j as [|j]; cbn [lookup list_lookup] in Hi, Hj.
  - done.
  - injection Hi as <-. by destruct (Hdis c Hc (Hin j r' Hj Hc')).
  - injection Hj as <-. by destruct (Hdis c Hc' (Hin i r Hi Hc)).
  - f_equal. by apply (IH i j).
Qed.

Lemma task_chain_length r w : frozen chains w -> r ∈ chains -> (length r <= CGRPSpace.header_count w)%nat.
Proof using Hdistinct.
  intros Hfz Hr. apply Segments.length_headers; [by apply chain_nodup |].
  intros x Hx. destruct (fz_fields _ _ Hfz r x Hr Hx) as (k & Hk & _). by exists k.
Qed.

Lemma spaces_loop_run k i s log :
  I s -> (i + k = length chains)%nat ->
  (forall c e, later_chains i c -> used c -> segment_cards c e -> K e) ->
  exists s' l, spaces_loop byte_map_base size_of a number width k (Z.of_nat i) (s, log) = Some (tt, (s', log ++ l))
  /\ segs_scanned s s' (later_chains i) l.
Proof using Hwidth Hapart Hdistinct Hfull HI Hrely.
  revert i s log. induction k as [|k IH]; intros i s log Hs Hik HK; cbn [spaces_loop].
  { exists s, []. rewrite app_nil_r. split; [done |]. apply segs_none; [| by apply after_nil].
    intros c (j & r & Hj & Hr & _). apply lookup_lt_Some in Hr. lia. }
  destruct (lookup_lt_is_Some_2 chains i ltac:(lia)) as [r Er]. pose proof (list_elem_of_lookup_2 _ _ _ Er) as Hr.
  rewrite M_gets_bind. cbn [fst]. rewrite Nat2Z.id.
  destruct (fz_last _ _ (HI s Hs) i r Er) as (g & Eg & Hlast).
  assert (Eo : lift_opt (CGRPSpace.spaces (view s) !! i) (s, log) = Some (g, (s, log))) by by rewrite Eg.
  mrun Eo.
  rewrite Hlast.
  assert (Hspace : exists s1 l1,
    (if nth_or 0 r =? NULL then mret tt
     else
       c ← on_view (CGRPSpace.get_previous_n_segment (nth_or 0 r) (Z.to_nat (i32 number)));
       segments_loop byte_map_base size_of a width (Datatypes.S (CGRPSpace.header_count (view s))) c;;
       run drain_bda_stacks) (s, log) = Some (tt, (s1, log ++ l1))
    /\ segs_scanned s s1 (strided r (Z.to_nat number)) l1).
  { destruct (Z.eqb_spec (nth_or 0 r) NULL) as [E0 | _].
    - exists s, []. rewrite app_nil_r. split; [done |]. apply segs_none; [| by apply after_nil].
      intros c [m Hc]. destruct r as [|x r]; [done |].
      by destruct (fz_linked _ _ (HI s Hs) _ Hr 0%nat x eq_refl).
    - mrun (previous_view r 0 (Z.to_nat (i32 number)) s log Hr Hs). rewrite swrap_small by lia. cbn [Nat.add].
      pose proof (task_chain_length r _ (HI s Hs) Hr).
      destruct (segments_loop_run (Datatypes.S (CGRPSpace.header_count (view s))) r (Z.to_nat number) s log Hr Hs ltac:(lia))
        as (s1 & l1 & E1 & Hsg).
      { intros c e Hc. apply HK. exists i, r. by split. }
      mrun E1. destruct (drain_bda_ok _ _ _ Hrely s1 (proj1 (sg_after _ _ _ _ Hsg))) as (s2 & E2 & Hs2 & Hk2).
      exists s2, l1. split; [by apply run_Some |]. destruct Hsg as [Ha ? ? ?]. constructor; try done.
      rewrite <- (app_nil_r l1). apply (after_app _ _ _ _ s1); [done | by apply after_silent]. }
  destruct Hspace as (s1 & l1 & E1 & Hsg1). mrun E1.
  replace (Z.of_nat i + 1) with (Z.of_nat (Datatypes.S i)) by lia.
  destruct (IH (Datatypes.S i) s1 (log ++ l1)) as (s' & l' & E' & Hsg').
  { apply Hsg1. } { lia. }
  { intros c e (j & r' & Hj & Hr' & Hst). apply HK. exists j, r'. split; [lia | done]. }
  exists s', (l1 ++ l'). rewrite E', <- app_assoc. split; [done |].
  assert (Hin : forall j r' d c, chains !! j = Some r' -> strided r' d c -> r' ∈ chains /\ c ∈ r').
  { intros j r' d c Hj [m Hc]. by apply list_elem_of_lookup_2 in Hj, Hc. }
  apply (segs_ext _ _ (fun c => strided r (Z.to_nat number) c \/ later_chains (Datatypes.S i) c)).
  { intros c. split.
    - intros [Hst | (j & r' & Hj & ? & ?)]; [by exists i, r | exists j, r'; split; [lia | done]].
    - intros (j & r' & Hj & Hr' & Hst). destruct (decide (j = i)) as [-> |].
      + left. rewrite Er in Hr'. by injection Hr' as <-.
      + right. exists j, r'. split; [lia | done]. }
  apply (segs_union s s1 s'); [| | | done | done].
  - intros c [Hst | (j & r' & _ & Hr' & Hst)].
    + destruct (Hin i r _ c Er Hst). by apply (Hfull r).
    + destruct (Hin j r' _ c Hr' Hst). by apply (Hfull r').
  - intros c c' Hst (j & r' & Hj & Hr' & Hst'). destruct (Hin i r _ c Er Hst) as [? Hc].
    destruct (Hin j r' _ c' Hr' Hst') as [? Hc']. apply Hapart; [by apply (in_chains r) | by apply (in_chains r') |].
    intros <-. pose proof (concat_apart chains i j r r' c Hdistinct Er Hr' Hc Hc'). lia.
  - intros c e (j & r' & Hj & Hr' & Hst). apply HK. exists j, r'. split; [lia | done].
Qed.

End Segments.

(** The segments of the task [number] of [width], by their distance from the last one. *)
Definition mine (chains : list (list Z)) (number width c : Z) : Prop :=
  exists r d, r ∈ chains /\ r !! d = Some c /\ Z.of_nat d mod width = number.

Lemma mine_strided chains number width c : 0 <= number < width ->
  later_chains chains number width 0 c <-> mine chains number width c.
Proof.
  intros Hw. split.
  - intros (j & r & _ & Hr & m & Hc). exists r, (Z.to_nat number + m * Z.to_nat width)%nat.
    split; [by apply list_elem_of_lookup_2 in Hr |]. split; [done |].
    replace (Z.of_nat (Z.to_nat number + m * Z.to_nat width)) with (number + Z.of_nat m * width) by nia.
    rewrite Z_mod_plus_full. by apply Z.mod_small.
  - intros (r & d & (j & Hj)%list_elem_of_lookup & Hd & Hm). exists j, r. split; [lia |]. split; [done |].
    exists (Z.to_nat (Z.of_nat d / width)). rewrite <- Hd. f_equal.
    pose proof (Z.div_mod (Z.of_nat d) width ltac:(lia)). pose proof (Z.div_pos (Z.of_nat d) width ltac:(lia) ltac:(lia)). nia.
Qed.

(** C10. The tasks that scan the segments of containers.  The task terminates and scans,
    in all spaces, exactly the segments whose distance from the last one has the number of the
    task as remainder, so every segment has exactly one task; empty ones are skipped.  Of
    each segment it scans every object with a word on a card that is not clean, no object twice
    and nothing else, and it cleans a card only strictly inside such a segment and before all
    objects on it are scanned.  The other threads may allocate and scan meanwhile as long
    as they leave the segments as they were saved and the cards of this task's segments
    unclean. *)
Theorem bda_task_spec {S : Type} {HS : CardMemory S} {HO : OldGeneration S} (I : S -> Prop) (dirty : S -> Z -> Prop)
    (byte_map_base : Z) (size_of : Z -> Z) (a : ObjectStartArray.ObjectStartArray) (B n : Z) (starts : list Z)
    (start saved : Z -> Z) (content : Z -> list Z) (chains : list (list Z)) (order_number batch_width : Z) (s : S)
    (Hwidth : 0 <= order_number < batch_width /\ batch_width < 2 ^ 31)
    (Hrely : rely I dirty (fun d => exists c, mine chains order_number batch_width c /\ used start saved c
       /\ segment_cards B start saved c d))
    (HI : forall s, I s -> frozen start saved chains (view s))
    (Hfull : forall r c, r ∈ chains -> c ∈ r -> segment_full byte_map_base size_of a B n starts start saved content c)
    (Hdistinct : NoDup (concat chains))
    (Hapart : forall c c', c ∈ concat chains -> c' ∈ concat chains -> c <> c' -> used start saved c -> used start saved c' ->
       saved c <= start c' \/ saved c' <= start c)
    (Hs : I s) :
  exists s' log, bda_do_it byte_map_base size_of a order_number batch_width (s, []) = Some (tt, (s', log))
  /\ I s'
  /\ NoDup (scans log)
  /\ (forall o, o ∈ scans log ->
        exists c, mine chains order_number batch_width c /\ used start saved c /\ o ∈ content c)
  /\ (forall c o d, mine chains order_number batch_width c -> used start saved c -> o ∈ content c ->
        on_card size_of B o d -> dirty s d -> o ∈ scans log)
  /\ (forall l1 d l2, log = l1 ++ Clean d :: l2 ->
        exists c, mine chains order_number batch_width c /\ used start saved c
        /\ first_card B (start c) < d < last_card B (saved c) - 1
        /\ forall o, o ∈ content c -> on_card size_of B o d -> o ∈ scans l2).
Proof.
  destruct (spaces_loop_run byte_map_base size_of a B n starts start saved content I dirty _ Hrely chains order_number batch_width
    Hwidth HI Hfull Hdistinct Hapart (length chains) 0 s [] Hs ltac:(done)) as (s' & l & E & Hsg).
  { intros c e Hc Hu Hcd. exists c. split; [by apply mine_strided; [lia |] | done]. }
  exists s', l. split.
  { unfold bda_do_it. rewrite M_gets_bind. cbn [fst]. rewrite (fz_spaces _ _ _ _ (HI s Hs)). exact E. }
  apply (segs_ext _ _ _ _ _ _ _ _ _ _ _ (mine chains order_number batch_width)) in Hsg;
    [| intros c; apply mine_strided; lia].
  destruct Hsg as [Ha [Hnd HL] Hd Hc]. split; [apply Ha |]. by split.
Qed.

(** ** Saving the segments before the collection *)

Definition save_top (k : Container.container) : Container.container := Container.with_saved_top k (Container._top k).
Definition save_all (l : list Z) (h : Container.heap) : Container.heap := foldl (fun h c => alter save_top c h) h l.

Lemma save_all_lookup l h c : save_all l h !! c = if decide (c ∈ l) then save_top <$> h !! c else h !! c.
Proof.
  unfold save_all. revert h. induction l as [|x l IH]; intros h; cbn [foldl].
  { by rewrite decide_False by apply not_elem_of_nil. }
  rewrite IH. destruct (decide (x = c)) as [-> | Hne].
  - rewrite lookup_alter_eq, (decide_True _ _ (list_elem_of_here c l)). case_decide; [| done].
    destruct (h !! c); done.
  - rewrite lookup_alter_ne by done. rewrite (decide_ext (c ∈ x :: l) (c ∈ l)); [done |].
    rewrite elem_of_cons. split; [by intros [-> |] | by right].
Qed.

Lemma save_all_links l h : GenQueue.links_kept h (save_all l h).
Proof.
  intros x c Hc. rewrite save_all_lookup, Hc. case_decide; eexists; (split; [reflexivity |]); by split.
Qed.

Lemma save_loop_run l h p n :
  GenQueue.dll h p l NULL -> NULL ∉ l -> (length l < n)%nat ->
  GenQueue.for_each n (hd NULL l) (fun c _ => Container.store c save_top) tt h = Some (tt, save_all l h).
Proof.
  revert h p n. induction l as [|x l IH]; intros h p [|n] Hd Hn Hlen; cbn [length] in Hlen; try lia; cbn [GenQueue.for_each hd].
  - done.
  - apply not_elem_of_cons in Hn as [Hx Hn]. destruct (Z.eqb_spec x NULL); [done |].
    destruct Hd as (c & Hc & _ & Hnx & Hd). mrun (Container.store_run _ _ _ save_top Hc).
    set (h1 := <[x := save_top c]> h).
    assert (h1 = save_all [x] h) as E1.
    { apply map_eq. intros y. rewrite save_all_lookup. unfold h1. destruct (decide (y = x)) as [-> | Hne].
      - rewrite lookup_insert_eq, decide_True by apply list_elem_of_here. by rewrite Hc.
      - rewrite lookup_insert_ne, decide_False; [done | | done]. by intros ?%list_elem_of_singleton. }
    unfold GenQueue.iterator_next.
    mrun (Container.field_run h1 x (save_top c) Container._next (lookup_insert_eq _ _ _)).
    change (Container._next (save_top c)) with (Container._next c). rewrite Hnx.
    rewrite (IH h1 x n); [by rewrite E1 | | done | lia].
    eapply GenQueue.dll_frame; [| exact Hd]. intros y _. rewrite E1. apply save_all_links.
Qed.

Section Save.
Import CGRPSpace.

(** A space whose last segment is saved. *)
Definition saved_space (g : CGRPSpace) (l : list Z) : CGRPSpace := with_last_segment g (GenQueue.last_or NULL l).

Lemma save_top_ptrs_run i g w l :
  spaces w !! i = Some g -> GenQueue.repr (headers w) (_containers g) l -> Z.of_nat (length l) < 2 ^ 31 ->
  save_top_ptrs (Z.of_nat i) w
  = Some (tt, set_headers (set_spaces w (<[i := saved_space g l]> (spaces w))) (save_all l (headers w))).
Proof.
  intros Hg [[Hnd Hnn Hd Hr Hi] Hcount] Hlen. unfold save_top_ptrs, container_count.
  mrun (BDALayout.at_run _ _ _ Hg). unfold GenQueue.n_elements. rewrite Hcount, swrap_small by lia.
  pose proof (fun f => BDALayout.update_run i f w g Hg) as Hu.
  destruct l as [|x l].
  - change (Z.of_nat (length (@nil Z)) >? 0) with false. cbv iota. rewrite Hu. unfold saved_space. cbn [GenQueue.last_or].
    by destruct w.
  - destruct (Z.gtb_spec (Z.of_nat (length (x :: l))) 0); [| cbn [length] in *; lia]. mrun (Hu _).
    unfold for_containers. set (w1 := set_spaces w _).
    assert (Hg1 : spaces w1 !! i = Some (saved_space g (x :: l))).
    { unfold w1, saved_space, last_container, GenQueue.bot. cbn [spaces set_spaces]. rewrite Hi.
      apply list_lookup_insert_eq. by apply lookup_lt_Some in Hg. }
    mrun (BDALayout.at_run _ _ _ Hg1). rewrite M_gets_bind. unfold GenQueue.iterator.
    change (_containers (saved_space g (x :: l))) with (_containers g). rewrite Hr.
    rewrite (Segments.on_headers_run _ _ tt (save_all (x :: l) (headers w))).
    + unfold w1, saved_space, last_container, GenQueue.bot. by rewrite Hi.
    + apply (save_loop_run (x :: l) (headers w) NULL); [done | done |]. unfold header_count.
      apply le_n_S. apply (Segments.length_headers (headers w)); [done |]. intros y. by eapply GenQueue.dll_lookup.
Qed.

(** The spaces from the [i]th on are saved. *)
Lemma each_space_run ls k i w :
  (i + k = length ls)%nat -> length (spaces w) = length ls ->
  (forall j l, (i <= j)%nat -> ls !! j = Some l ->
     exists g, spaces w !! j = Some g /\ GenQueue.repr (headers w) (_containers g) l /\ Z.of_nat (length l) < 2 ^ 31) ->
  exists w', MutableBDASpace.each_space save_top_ptrs k (Z.of_nat i) w = Some (tt, w')
  /\ headers w' = foldl (fun h l => save_all l h) (headers w) (drop i ls)
  /\ length (spaces w') = length (spaces w)
  /\ (forall j, (j < i)%nat -> spaces w' !! j = spaces w !! j)
  /\ (forall j l g, (i <= j)%nat -> ls !! j = Some l -> spaces w !! j = Some g -> spaces w' !! j = Some (saved_space g l))
  /\ limits w' = limits w /\ segment_bitmap w' = segment_bitmap w /\ start_array w' = start_array w
  /\ summary_data w' = summary_data w.
Proof.
  revert i w. induction k as [|k IH]; intros i w Hik Hlen Hrepr; cbn [MutableBDASpace.each_space].
  - exists w. rewrite drop_ge by lia. split; [done |]. split; [done |]. split; [done |]. split; [done |].
    split; [| done]. intros j l g Hj Hl. apply lookup_lt_Some in Hl. lia.
  - destruct (lookup_lt_is_Some_2 ls i ltac:(lia)) as [l El].
    destruct (Hrepr i l ltac:(lia) El) as (g & Hg & Hr & Hn). mrun (save_top_ptrs_run i g w l Hg Hr Hn).
    set (w1 := set_headers _ _). replace (Z.of_nat i + 1) with (Z.of_nat (S i)) by lia.
    destruct (IH (S i) w1) as (w' & E & Hh & Hlw & Hlow & Hhigh & Hrest); [lia | by cbn; rewrite length_insert | |].
    { intros j l' Hj Hl'. destruct (Hrepr j l' ltac:(lia) Hl') as (g' & Hg' & [Hlk Hct] & Hn').
      exists g'. cbn. rewrite list_lookup_insert_ne by lia. split; [done |]. split; [| done].
      split; [| done]. by apply (GenQueue.linked_kept (headers w)); [apply save_all_links |]. }
    exists w'. split; [exact E |]. rewrite (drop_S ls l i El). cbn [foldl]. split; [done |].
    split; [rewrite Hlw; cbn; by rewrite length_insert |]. split.
    { intros j Hj. rewrite Hlow by lia. cbn. by rewrite list_lookup_insert_ne by lia. }
    split; [| done]. intros j l' g' Hj Hl' Hg'. destruct (decide (j = i)) as [-> |].
    + rewrite Hlow by lia. cbn. rewrite list_lookup_insert_eq by (by apply lookup_lt_Some in Hg). congruence.
    + apply Hhigh; [lia | done |]. cbn. by rewrite list_lookup_insert_ne by lia.
Qed.

Lemma save_lists_lookup ls h c :
  foldl (fun h l => save_all l h) h ls !! c = if decide (c ∈ concat ls) then save_top <$> h !! c else h !! c.
Proof.
  assert (foldl (fun h l => save_all l h) h ls = save_all (concat ls) h) as ->; [| apply save_all_lookup].
  revert h. induction ls as [|l ls IH]; intros h; cbn [foldl concat]; [done |].
  rewrite IH. unfold save_all. by rewrite foldl_app.
Qed.

(** The previous element in a queue. *)
Lemma dll_previous h p l q j x : GenQueue.dll h p l q -> l !! j = Some x ->
  exists k, h !! x = Some k /\ Container._previous k = match j with O => p | S j => nth_or j l end.
Proof.
  revert p j. induction l as [|y l IH]; intros p j Hd Hx; [done |]. destruct Hd as (c & Hc & Hp & _ & Hd).
  destruct j as [|j]; cbn [lookup list_lookup] in Hx.
  - injection Hx as <-. by exists c.
  - destruct (IH y j Hd Hx) as (k & Hk & Hpk). exists k. split; [done |]. rewrite Hpk. by destruct j.
Qed.

Lemma linked_back_reverse h l : GenQueue.dll h NULL l NULL -> NULL ∉ l -> linked_back h (reverse l).
Proof.
  intros Hd Hn d x Hx. apply reverse_lookup_Some in Hx as [Hx Hlt]. split.
  { intros ->. by apply list_elem_of_lookup_2 in Hx. }
  destruct (dll_previous _ _ _ _ _ _ Hd Hx) as (k & Hk & Hp). exists k. split; [done |]. rewrite Hp. unfold nth_or.
  destruct (decide (S d < length l)%nat) as [Hs | Hs].
  - rewrite (reverse_lookup l (S d)) by done. replace (length l - S d)%nat with (S (length l - S (S d))) by lia. done.
  - replace (length l - S d)%nat with O by lia. rewrite (lookup_ge_None_2 (reverse l)); [done |]. rewrite length_reverse. lia.
Qed.

End Save.

(** The start and the top of a segment. *)
Definition start_of (w : CGRPSpace.world) (c : Z) : Z := from_option Container._start NULL (CGRPSpace.headers w !! c).
Definition top_of (w : CGRPSpace.world) (c : Z) : Z := from_option Container._top NULL (CGRPSpace.headers w !! c).

Lemma save_tops_run (w : CGRPSpace.world) (ls : list (list Z))
    (Hlen : length (CGRPSpace.spaces w) = length ls)
    (Hrepr : forall i l, ls !! i = Some l ->
       exists g, CGRPSpace.spaces w !! i = Some g /\ GenQueue.repr (CGRPSpace.headers w) (CGRPSpace._containers g) l
       /\ Z.of_nat (length l) < 2 ^ 31) :
  exists w', MutableBDASpace.save_tops_for_scavenge w = Some (tt, w')
  /\ frozen (start_of w) (top_of w) (map reverse ls) w'
  /\ (forall c, CGRPSpace.headers w' !! c
        = if decide (c ∈ concat ls) then (fun k => Container.with_saved_top k (Container._top k)) <$> CGRPSpace.headers w !! c
          else CGRPSpace.headers w !! c)
  /\ (forall i g, CGRPSpace.spaces w !! i = Some g -> exists g', CGRPSpace.spaces w' !! i = Some g'
        /\ g' = CGRPSpace.with_last_segment g (CGRPSpace._last_segment g'))
  /\ CGRPSpace.limits w' = CGRPSpace.limits w /\ CGRPSpace.segment_bitmap w' = CGRPSpace.segment_bitmap w
  /\ CGRPSpace.start_array w' = CGRPSpace.start_array w /\ CGRPSpace.summary_data w' = CGRPSpace.summary_data w.
Proof.
  destruct (each_space_run ls (length ls) 0 w ltac:(done) Hlen) as (w' & E & Hh & Hlw & _ & Hsp & Hrest);
    [intros j l _; apply Hrepr |].
  exists w'. split; [unfold MutableBDASpace.save_tops_for_scavenge, MutableBDASpace.length_; by rewrite M_gets_bind, Hlen |].
  rewrite drop_0 in Hh.
  assert (Hhead : forall c, CGRPSpace.headers w' !! c
    = if decide (c ∈ concat ls) then save_top <$> CGRPSpace.headers w !! c else CGRPSpace.headers w !! c).
  { intros c. rewrite Hh. apply save_lists_lookup. }
  split; [| split; [exact Hhead | split; [| done]]].
  - constructor.
    + by rewrite Hlw, Hlen, length_map.
    + intros i r. rewrite list_lookup_fmap. intros (l & El & ->)%fmap_Some.
      destruct (Hrepr i l El) as (g & Hg & Hr & _). exists (saved_space g l). split; [by apply (Hsp i l g); [lia | |] |].
      unfold saved_space, nth_or. cbn. destruct (GenQueue.last_or_split NULL l) as [-> | [l' El']]; [done |].
      rewrite El' at 2. by rewrite reverse_app, reverse_singleton.
    + intros r (l & -> & (i & El)%list_elem_of_lookup)%list_elem_of_fmap. destruct (Hrepr i l El) as (g & _ & [Hlk _] & _).
      assert (Hkept : GenQueue.linked (CGRPSpace.headers w') (CGRPSpace._containers g) l).
      { apply (GenQueue.linked_kept (CGRPSpace.headers w)); [| done]. intros x k Hk. rewrite Hhead, Hk.
        case_decide; eexists; (split; [reflexivity |]); by split. }
      apply linked_back_reverse; apply Hkept.
    + intros r c (l & -> & (i & El)%list_elem_of_lookup)%list_elem_of_fmap Hc. rewrite elem_of_reverse in Hc.
      destruct (Hrepr i l El) as (g & _ & [Hlk _] & _).
      destruct (GenQueue.dll_lookup _ _ _ _ c (GenQueue.lk_chain _ _ _ Hlk) Hc) as [k Hk].
      exists (save_top k). rewrite Hhead, decide_True, Hk.
      * unfold start_of, top_of. by rewrite Hk.
      * apply list_elem_of_In, in_concat. exists l. rewrite <- !list_elem_of_In. by apply list_elem_of_lookup_2 in El.
  - intros i g Hg. destruct (lookup_lt_is_Some_2 ls i) as [l El]; [rewrite <- Hlen; by apply lookup_lt_Some in Hg |].
    exists (saved_space g l). split; [by apply (Hsp i l g); [lia | |] | done].
Qed.

(** [save_tops_for_scavenge] prepares what the tasks read: every space remembers its last
    segment, from which the links lead back over all its segments, every segment has its top
    saved, and nothing else is changed. *)
Theorem save_tops_spec (w : CGRPSpace.world) (ls : list (list Z))
    (Hlen : length (CGRPSpace.spaces w) = length ls)
    (Hrepr : forall i l, ls !! i = Some l ->
       exists g, CGRPSpace.spaces w !! i = Some g /\ GenQueue.repr (CGRPSpace.headers w) (CGRPSpace._containers g) l
       /\ Z.of_nat (length l) < 2 ^ 31) :
  exists w', MutableBDASpace.save_tops_for_scavenge w = Some (tt, w')
  /\ frozen (start_of w) (top_of w) (map reverse ls) w'
  /\ (forall c, CGRPSpace.headers w' !! c
        = if decide (c ∈ concat ls) then (fun k => Container.with_saved_top k (Container._top k)) <$> CGRPSpace.headers w !! c
          else CGRPSpace.headers w !! c)
  /\ (forall i g, CGRPSpace.spaces w !! i = Some g -> exists g', CGRPSpace.spaces w' !! i = Some g'
        /\ g' = CGRPSpace.with_last_segment g (CGRPSpace._last_segment g'))
  /\ CGRPSpace.limits w' = CGRPSpace.limits w /\ CGRPSpace.segment_bitmap w' = CGRPSpace.segment_bitmap w
  /\ CGRPSpace.start_array w' = CGRPSpace.start_array w /\ CGRPSpace.summary_data w' = CGRPSpace.summary_data w.
Proof. by apply save_tops_run. Qed.

(** A generation of two spaces; the second one has two segments, at 4096 and at 5120. *)
Definition sample_headers : Container.heap :=
  <[100 := Container.mkContainer 4864 4096 5096 5120 0 1 0 0 200 0]>
    (<[200 := Container.mkContainer 5632 5120 6120 6144 0 1 0 0 0 100]> ∅).
Definition sample_generation : CGRPSpace.world :=
  CGRPSpace.mkWorld (CGRPSpace.limits Segments.sample_world)
    [CGRPSpace.new 65536 4100 0;
     CGRPSpace.with_containers (CGRPSpace.new 65536 4104 0) (GenQueue.mkGenQueue 200 100 2)]
    sample_bitmap sample_array (CGRPSpace.summary_data Segments.sample_world) sample_headers.

Lemma sample_queues i l : [[]; [100; 200]] !! i = Some l ->
  exists g, CGRPSpace.spaces sample_generation !! i = Some g
  /\ GenQueue.repr (CGRPSpace.headers sample_generation) (CGRPSpace._containers g) l /\ Z.of_nat (length l) < 2 ^ 31.
Proof.
  destruct i as [|[|i]]; intros El; cbn in El; [injection El as <- | injection El as <- | done];
    (eexists; split; [reflexivity |]; split; [| done]; split; [| reflexivity]; constructor); cbn [hd GenQueue.last_or].
  - constructor.
  - apply not_elem_of_nil.
  - done.
  - reflexivity.
  - reflexivity.
  - apply (bool_decide_eq_true_1 (NoDup [100; 200])). reflexivity.
  - apply (bool_decide_eq_true_1 (NULL ∉ [100; 200])). reflexivity.
  - eexists. split; [reflexivity |]. split; [reflexivity |]. split; [reflexivity |].
    eexists. split; [reflexivity |]. split; [reflexivity |]. by split.
  - reflexivity.
  - reflexivity.
Qed.

Lemma save_tops_spec_witness :
  exists w', MutableBDASpace.save_tops_for_scavenge sample_generation = Some (tt, w')
  /\ frozen (start_of sample_generation) (top_of sample_generation) [[]; [200; 100]] w'.
Proof.
  destruct (save_tops_spec sample_generation [[]; [100; 200]] eq_refl sample_queues) as (w' & E & Hf & _). by exists w'.
Defined.

(** The state of the tasks of the sample. *)
Definition sample_tasks : CardMemory ((Z -> Z) * CGRPSpace.world) := {|
  read_card c := gets (fun s => fst s c);
  write_card c v := modify (fun s => (fun d => if d =? c then v else fst s d, snd s));
  push_contents o := modify (fun s => (fun d => if d =? 1000 + o / 512 then youngergen_card else fst s d, snd s));
  push_bdaref_contents o _ := modify (fun s => (fun d => if d =? 1000 + o / 512 then youngergen_card else fst s d, snd s));
  drain_stacks := mret tt;
  drain_bda_stacks := mret tt
|}.
Definition sample_view : OldGeneration ((Z -> Z) * CGRPSpace.world) := {| view := snd |}.
Definition sample_start (c : Z) : Z := if c =? 100 then 4096 else 5120.
Definition sample_saved (c : Z) : Z := if c =? 100 then 4864 else 5632.
Definition sample_segment (c : Z) : list Z := sample_content (sample_start c).

Lemma sample_tasks_rely (I : CGRPSpace.world -> Prop) (K : Z -> Prop) :
  @rely _ sample_tasks (fun s => I (snd s)) (fun s c => fst s c <> clean_card) K.
Proof.
  constructor; [intros c s Hs | intros c s Hs | intros o s Hs | intros o c s Hs | intros s Hs | intros s Hs];
    (eexists _, _ || eexists); (split; [reflexivity |]); (split; [exact Hs |]).
  - by split.
  - intros d _ Hne Hd. simpl. by destruct (Z.eqb_spec d c).
  - intros d _ Hd. simpl. by destruct (Z.eqb_spec d (1000 + o / 512)).
  - intros d _ Hd. simpl. by destruct (Z.eqb_spec d (1000 + o / 512)).
  - done.
  - done.
Qed.

Lemma sample_frozen : exists w, frozen sample_start sample_saved [[]; [200; 100]] w.
Proof.
  destruct (save_tops_run sample_generation [[]; [100; 200]] eq_refl sample_queues) as (w & _ & [H1 H2 H3 H4] & _).
  exists w. constructor; [done | done | done |]. intros r c Hr Hc. destruct (H4 r c Hr Hc) as (k & Hk & Es & Et).
  exists k. split; [done |]. rewrite Es, Et.
  apply elem_of_cons in Hr as [-> | Hr%list_elem_of_singleton]; [by apply elem_of_nil in Hc |]. rewrite Hr in Hc.
  apply elem_of_cons in Hc as [-> | ->%list_elem_of_singleton]; by vm_compute.
Qed.

Lemma sample_task_segments r c : r ∈ [[]; [200; 100]] -> c ∈ r ->
  (c = 100 \/ c = 200) /\ segment_full 1000 sample_size sample_array 1000 4 [4096; 4736; 5120] sample_start sample_saved sample_segment c.
Proof.
  intros Hr Hc. pose proof sample_full as Hf. apply Forall_cons in Hf as [Hf1 Hf2]. rewrite Forall_singleton in Hf2.
  apply elem_of_cons in Hr as [-> | Hr%list_elem_of_singleton]; [by apply elem_of_nil in Hc |]. rewrite Hr in Hc.
  apply elem_of_cons in Hc as [-> | ->%list_elem_of_singleton].
  - split; [by right |]. intros _. by apply Hf2.
  - split; [by left |]. intros _. by apply Hf1.
Qed.

Lemma bda_task_spec_witness :
  exists w s' log, @bda_do_it _ sample_tasks sample_view 1000 sample_size sample_array 1 2 ((CardTable.sample_cards, w), [])
    = Some (tt, (s', log)) /\ 4096 ∈ scans log /\ 4736 ∈ scans log.
Proof.
  destruct sample_frozen as [w Hw]. exists w.
  destruct (@bda_task_spec _ sample_tasks sample_view (fun s => frozen sample_start sample_saved [[]; [200; 100]] (snd s))
    (fun s c => fst s c <> clean_card) 1000 sample_size sample_array 1000 4 [4096; 4736; 5120] sample_start sample_saved
    sample_segment [[]; [200; 100]] 1 2 (CardTable.sample_cards, w) ltac:(lia) (sample_tasks_rely _ _))
    as (s' & log & E & _ & _ & _ & Hd & _).
  - done.
  - intros r c Hr Hc. by apply (sample_task_segments r c).
  - apply (bool_decide_eq_true_1 (NoDup [200; 100])). reflexivity.
  - intros c c' Hc Hc' Hne _ _. cbn [concat app] in Hc, Hc'.
    apply elem_of_cons in Hc as [-> | ->%list_elem_of_singleton], Hc' as [-> | ->%list_elem_of_singleton];
      vm_compute; intuition discriminate.
  - exact Hw.
  - assert (Hm : mine [[]; [200; 100]] 1 2 100) by (exists [200; 100], 1%nat; split; [by right; left | done]).
    assert (Hu : used sample_start sample_saved 100) by (vm_compute; split; discriminate).
    exists s', log. split; [exact E |].
    split; [apply (Hd 100 4096 1009 Hm Hu); [by left | | done] | apply (Hd 100 4736 1009 Hm Hu); [by right; left | | done]];
      vm_compute; split; reflexivity.
Defined.

End OldToYoung.
