(* ===== verification/TaskQueue.v ===== *)
(** * Work-stealing queues

    [utilities/taskqueue.hpp] and [.cpp], classes [TaskQueueSuper] and [GenericTaskQueue]: a
    double-ended queue in an array, whose owner pushes and pops at the bottom while
    other threads take elements from the top.  [GenericTaskQueueSet]: the choice of a
    queue to steal from, with the random numbers of [randomParkAndMiller].

    Here the operations run alone; [TaskQueuePar] interleaves them.  The size [N] of the
    array is a parameter, a power of two ([TASKQUEUE_SIZE] is [2 ^ 17]). *)

From Stdlib Require Import ZArith Lia.
From stdpp Require Import base numbers list.
From S2P Require Import Prelude.

Local Open Scope Z_scope.

Module TaskQueue.

(** The two halves of [_data]; both are of type [idx_t]. *)
Record Age := mkAge { top : Z; tag : Z }.

#[export] Instance Age_eq_dec : EqDecision Age.
Proof. solve_decision. Defined.

Section Operations.
Context (N : Z).

Definition MOD_N_MASK : Z := N - 1.
Definition increment_index (ind : Z) : Z := Z.land (u32 (ind + 1)) MOD_N_MASK.
Definition decrement_index (ind : Z) : Z := Z.land (u32 (ind - 1)) MOD_N_MASK.
Definition dirty_size (bot top : Z) : Z := Z.land (u32 (bot - top)) MOD_N_MASK.
Definition size_of (bot top : Z) : Z :=
  let sz := dirty_size bot top in
  if sz =? N - 1 then 0 else sz.
Definition max_elems : Z := N - 2.

(** [Age::increment] *)
Definition increment (a : Age) : Age :=
  let t := increment_index (top a) in
  mkAge t (if t =? 0 then u32 (tag a + 1) else tag a).

Context {E : Type}.

Record GenericTaskQueue := mkQueue { _bottom : Z; _age : Age; _elems : list E }.

Implicit Types q : GenericTaskQueue.

(** The constructor and [initialize], with the new memory for the elements. *)
Definition create (memory : list E) : GenericTaskQueue := mkQueue 0 (mkAge 0 0) memory.

Definition set_bottom q (b : Z) : GenericTaskQueue := mkQueue b (_age q) (_elems q).
Definition set_age q (a : Age) : GenericTaskQueue := mkQueue (_bottom q) a (_elems q).
(** [_elems[i]] and [_elems[i] = t] *)
Definition elem_at q (i : Z) : option E := if 0 <=? i then _elems q !! Z.to_nat i else None.
Definition set_elem q (i : Z) (t : E) : option GenericTaskQueue :=
  _ ← elem_at q i; Some (mkQueue (_bottom q) (_age q) (<[Z.to_nat i := t]> (_elems q))).

Definition peek q : bool := negb (_bottom q =? top (_age q)).
Definition size q : Z := size_of (_bottom q) (top (_age q)).
Definition is_empty q : bool := size q =? 0.
Definition set_empty q : GenericTaskQueue := mkQueue 0 (mkAge 0 0) (_elems q).

Definition push_slow q (t : E) (dirty_n_elems : Z) : option (bool * GenericTaskQueue) :=
  if dirty_n_elems =? N - 1 then
    let localBot := _bottom q in
    q ← set_elem q localBot t;
    Some (true, set_bottom q (increment_index localBot))
  else Some (false, q).

Definition push q (t : E) : option (bool * GenericTaskQueue) :=
  let localBot := _bottom q in
  let dirty_n_elems := dirty_size localBot (top (_age q)) in
  if dirty_n_elems <? max_elems then
    q ← set_elem q localBot t;
    Some (true, set_bottom q (increment_index localBot))
  else push_slow q t dirty_n_elems.

(** [Age::cmpxchg] *)
Definition cmpxchg q (new_age old_age : Age) : Age * GenericTaskQueue :=
  (_age q, if decide (_age q = old_age) then set_age q new_age else q).

Definition pop_local_slow q (localBot : Z) (oldAge : Age) : bool * GenericTaskQueue :=
  let newAge := mkAge (u32 localBot) (u32 (tag oldAge + 1)) in
  let lost q := (false, set_age q newAge) in
  if localBot =? top oldAge then
    let '(tempAge, q) := cmpxchg q newAge oldAge in
    if decide (tempAge = oldAge) then (true, q) else lost q
  else lost q.

(** The element, if the call returns [true]. *)
Definition pop_local q : option (option E * GenericTaskQueue) :=
  let localBot := _bottom q in
  if dirty_size localBot (top (_age q)) =? 0 then Some (None, q)
  else
    let localBot := decrement_index localBot in
    let q := set_bottom q localBot in
    t ← elem_at q localBot;
    let tp := top (_age q) in
    if size_of localBot tp >? 0 then Some (Some t, q)
    else
      let '(b, q) := pop_local_slow q localBot (_age q) in
      Some (if b then Some t else None, q).

Definition pop_global q : option (option E * GenericTaskQueue) :=
  let oldAge := _age q in
  let localBot := _bottom q in
  if size_of localBot (top oldAge) =? 0 then Some (None, q)
  else
    t ← elem_at q (top oldAge);
    let '(resAge, q) := cmpxchg q (increment oldAge) oldAge in
    Some (if decide (resAge = oldAge) then Some t else None, q).

(** [oops_do]: the elements in the order the closure is applied to them. *)
Fixpoint oops_loop (iters : nat) q (index : Z) : option (list E) :=
  match iters with
  | O => Some []
  | S iters =>
    let index := decrement_index index in
    t ← elem_at q index;
    l ← oops_loop iters q index;
    Some (t :: l)
  end.
Definition oops_do q : option (list E) := oops_loop (Z.to_nat (size q)) q (_bottom q).

End Operations.
Arguments GenericTaskQueue : clear implicits.

(** ** Random numbers *)

Definition pm_a : Z := 16807.
Definition pm_m : Z := 2147483647.
Definition pm_q : Z := 127773.
Definition pm_r : Z := 2836.

(** The new seed, which is also the result.  The variables are of type [int]. *)
Definition randomParkAndMiller (seed : Z) : Z :=
  let hi := Z.quot seed pm_q in
  let lo := Z.rem seed pm_q in
  let test := i32 (i32 (pm_a * lo) - i32 (pm_r * hi)) in
  if test >? 0 then test else i32 (test + pm_m).

(** ** Sets of queues *)

Section Sets.
Context (N : Z) {E : Type}.

(** [while (skip(k)) k = randomParkAndMiller(seed) % _n], at most [2 ^ fuel] turns; the
    number of the queue and the seed. *)
Definition draw_turn (n : Z) (skip : Z -> bool) (x : Z * Z) : Z * Z + Z * Z :=
  let '(k, seed) := x in
  if skip k then let seed := randomParkAndMiller seed in inl (u32 seed mod n, seed) else inr (k, seed).
Definition draw (fuel : nat) (n : Z) (skip : Z -> bool) (k seed : Z) : option (Z * Z) :=
  match while_pow fuel (draw_turn n skip) (k, seed) with inr r => Some r | inl _ => None end.

(** The queues of the set, registered. *)
Local Abbreviation queues := (list (GenericTaskQueue E)).

Definition queue_at (qs : queues) (k : Z) : option (GenericTaskQueue E) := qs !! Z.to_nat k.

(** [_queues[k]->pop_global(t)] *)
Definition pop_from (qs : queues) (k : Z) : option (option E * queues) :=
  q ← queue_at qs k;
  '(t, q) ← pop_global N q;
  Some (t, <[Z.to_nat k := q]> qs).

(** The element if the steal succeeds, the new seed and the queues. *)
Definition steal_best_of_2 (fuel : nat) (qs : queues) (queue_num seed : Z)
    : option (option E * Z * queues) :=
  let n := Z.of_nat (length qs) in
  if n >? 2 then
    '(k1, seed) ← draw fuel n (fun k => k =? queue_num) queue_num seed;
    '(k2, seed) ← draw fuel n (fun k => (k =? queue_num) || (k =? k1)) queue_num seed;
    q1 ← queue_at qs k1;
    q2 ← queue_at qs k2;
    '(t, qs) ← pop_from qs (if size N q2 >? size N q1 then k2 else k1);
    Some (t, seed, qs)
  else if n =? 2 then
    '(t, qs) ← pop_from qs (u32 (queue_num + 1) mod 2);
    Some (t, seed, qs)
  else Some (None, seed, qs).

Fixpoint steal_loop (fuel turns : nat) (qs : queues) (queue_num seed : Z)
    : option (option E * Z * queues) :=
  match turns with
  | O => Some (None, seed, qs)
  | S turns =>
    '(t, seed, qs) ← steal_best_of_2 fuel qs queue_num seed;
    match t with
    | Some t => Some (Some t, seed, qs)
    | None => steal_loop fuel turns qs queue_num seed
    end
  end.
Definition steal (fuel : nat) (qs : queues) (queue_num seed : Z) : option (option E * Z * queues) :=
  steal_loop fuel (2 * length qs) qs queue_num seed.

Definition peek_set (qs : queues) : bool := existsb peek qs.
End Sets.

(** ** The ring *)

Section Ring.
Context (lg N : Z) (Hlg : 2 <= lg <= 31) (HN : N = 2 ^ lg).

Lemma N_range : 4 <= N <= 2 ^ 31.
Proof.
  rewrite HN. split; [change 4 with (2 ^ 2) | ]; apply Z.pow_le_mono_r; lia.
Qed.

Lemma mask_mod x : Z.land (u32 x) (MOD_N_MASK N) = x mod N.
Proof.
  unfold MOD_N_MASK. rewrite HN. replace (2 ^ lg - 1) with (Z.ones lg) by (rewrite Z.ones_equiv; lia).
  rewrite Z.land_ones by lia. unfold wrap.
  replace (2 ^ 32) with (2 ^ lg * 2 ^ (32 - lg)) by (rewrite <- Z.pow_add_r by lia; f_equal; lia).
  rewrite Z.rem_mul_r by lia. rewrite Z.mul_comm, Z.mod_add by lia. apply Z.mod_mod. lia.
Qed.

Lemma ring_range x : 0 <= x mod N < N.
Proof. pose proof N_range. apply Z.mod_pos_bound. lia. Qed.

Lemma dirty_ring t k : 0 <= k < N -> dirty_size N ((t + k) mod N) t = k.
Proof.
  intros Hk. unfold dirty_size. rewrite mask_mod, Zminus_mod_idemp_l.
  replace (t + k - t) with k by lia. by apply Z.mod_small.
Qed.

Lemma increment_ring x : increment_index N (x mod N) = (x + 1) mod N.
Proof. unfold increment_index. by rewrite mask_mod, Zplus_mod_idemp_l. Qed.

Lemma decrement_ring x : decrement_index N (x mod N) = (x - 1) mod N.
Proof. unfold decrement_index. by rewrite mask_mod, Zminus_mod_idemp_l. Qed.

Lemma ring_inj t i j : 0 <= i < N -> 0 <= j < N -> (t + i) mod N = (t + j) mod N -> i = j.
Proof. intros Hi Hj H. rewrite <- (dirty_ring t i Hi), <- (dirty_ring t j Hj). by rewrite H. Qed.

Context {E : Type}.
Implicit Types (q : GenericTaskQueue E) (l : list E).

(** The elements [l] from the position [t] of the ring on. *)
Definition holds_at (elems : list E) (t : Z) (l : list E) : Prop :=
  forall i x, l !! i = Some x -> elems !! Z.to_nat ((t + Z.of_nat i) mod N) = Some x.

(** The array and the age of a queue. *)
Record ring_wf q : Prop := {
  r_length : Z.of_nat (length (_elems q)) = N;
  r_top : 0 <= top (_age q) < N;
  r_tag : 0 <= tag (_age q) < 2 ^ 32
}.

(** The queue between two operations. *)
Record contents q l : Prop := {
  c_wf : ring_wf q;
  c_bottom : _bottom q = (top (_age q) + Z.of_nat (length l)) mod N;
  c_length : Z.of_nat (length l) <= N - 2;
  c_elems : holds_at (_elems q) (top (_age q)) l
}.

Lemma elem_at_ring q x : ring_wf q -> exists e, elem_at q (x mod N) = Some e /\
  _elems q !! Z.to_nat (x mod N) = Some e.
Proof.
  intros Hw. pose proof (ring_range x). unfold elem_at. destruct (Z.leb_spec 0 (x mod N)); [| lia].
  destruct (lookup_lt_is_Some_2 (_elems q) (Z.to_nat (x mod N))) as [e He].
  - pose proof (r_length q Hw). lia.
  - eauto.
Qed.

Lemma elem_at_eq q x e : _elems q !! Z.to_nat (x mod N) = Some e -> elem_at q (x mod N) = Some e.
Proof. intros H. pose proof (ring_range x). unfold elem_at. by destruct (Z.leb_spec 0 (x mod N)); [| lia]. Qed.

Lemma set_elem_ring q x e :
  ring_wf q -> set_elem q (x mod N) e =
    Some (mkQueue (_bottom q) (_age q) (<[Z.to_nat (x mod N) := e]> (_elems q))).
Proof. intros Hw. destruct (elem_at_ring q x Hw) as (y & Hy & _). unfold set_elem. by rewrite Hy. Qed.

Lemma ring_nat_ne t i j :
  0 <= i < N -> 0 <= j < N -> i <> j -> Z.to_nat ((t + i) mod N) <> Z.to_nat ((t + j) mod N).
Proof.
  intros Hi Hj Hne He. apply Hne, (ring_inj t); [done | done |].
  pose proof (ring_range (t + i)). pose proof (ring_range (t + j)). lia.
Qed.

(** A store behind the last element. *)
Lemma holds_at_store elems t l x :
  Z.of_nat (length elems) = N -> Z.of_nat (length l) < N -> holds_at elems t l ->
  holds_at (<[Z.to_nat ((t + Z.of_nat (length l)) mod N) := x]> elems) t (l ++ [x]).
Proof.
  intros Hn Hl H i y Hy. apply lookup_app_Some in Hy as [Hy | [Hi Hy]].
  - pose proof (lookup_lt_Some _ _ _ Hy). rewrite list_lookup_insert_ne; [by apply H |].
    apply ring_nat_ne; lia.
  - apply list_lookup_singleton_Some in Hy as [Hi' ->]. replace i with (length l) by lia.
    apply list_lookup_insert_eq. pose proof (ring_range (t + Z.of_nat (length l))). lia.
Qed.

Lemma holds_at_app elems t l l' : holds_at elems t (l ++ l') -> holds_at elems t l.
Proof. intros H i x Hx. apply H. by apply lookup_app_l_Some. Qed.

Lemma holds_at_last elems t l x :
  holds_at elems t (l ++ [x]) -> elems !! Z.to_nat ((t + Z.of_nat (length l)) mod N) = Some x.
Proof. intros H. apply H. by rewrite lookup_app_r, Nat.sub_diag. Qed.

Lemma holds_at_tail elems t x l : holds_at elems t (x :: l) -> holds_at elems ((t + 1) mod N) l.
Proof.
  intros H i y Hy. specialize (H (S i) y Hy). rewrite Zplus_mod_idemp_l.
  by replace (t + 1 + Z.of_nat i) with (t + Z.of_nat (S i)) by lia.
Qed.

Lemma holds_at_head elems t x l : 0 <= t < N -> holds_at elems t (x :: l) -> elems !! Z.to_nat t = Some x.
Proof. intros Ht H. specialize (H O x eq_refl). rewrite Z.add_0_r, Z.mod_small in H; done. Qed.

Lemma size_ring t k : 0 <= k <= N - 2 -> size_of N ((t + k) mod N) t = k.
Proof. intros Hk. unfold size_of. rewrite dirty_ring by lia. destruct (Z.eqb_spec k (N - 1)); lia. Qed.

(** ** The operations on the list *)

Lemma size_contents q l : contents q l -> size N q = Z.of_nat (length l).
Proof. intros [_ Hb Hl _]. unfold size. rewrite Hb. apply size_ring. lia. Qed.

Lemma push_contents q l x :
  contents q l ->
  if Z.of_nat (length l) <? N - 2
  then exists q', push N q x = Some (true, q') /\ contents q' (l ++ [x])
  else push N q x = Some (false, q).
Proof.
  intros [Hw Hb Hl He]. pose proof N_range. unfold push, max_elems. rewrite Hb, dirty_ring by lia.
  destruct (Z.ltb_spec (Z.of_nat (length l)) (N - 2)).
  - rewrite set_elem_ring by done. cbn [mbind option_bind]. eexists. split; [done |].
    destruct Hw as [H1 H2 H3]. split; simpl.
    + split; simpl; [by rewrite length_insert | done | done].
    + rewrite increment_ring, length_app. simpl. f_equal. lia.
    + rewrite length_app. simpl. lia.
    + apply holds_at_store; [done | lia | done].
  - unfold push_slow. destruct (Z.eqb_spec (Z.of_nat (length l)) (N - 1)); [lia | done].
Qed.

Lemma pop_local_contents q l :
  contents q l ->
  match last l with
  | None => pop_local N q = Some (None, q)
  | Some x => exists q' l', l = l' ++ [x] /\ pop_local N q = Some (Some x, q') /\ contents q' l'
  end.
Proof.
  intros [Hw Hb Hl He]. pose proof N_range. destruct (last l) as [x |] eqn:Hlast.
  - apply last_Some in Hlast as [l' ->]. rewrite length_app in *. simpl in *.
    assert (_elems q !! Z.to_nat ((top (_age q) + Z.of_nat (length l')) mod N) = Some x) as Hx
      by (by apply holds_at_last). set (q0 := set_bottom q ((top (_age q) + Z.of_nat (length l')) mod N)).
    assert (contents q0 l') as Hc by (split; [by destruct Hw | done | lia | by eapply holds_at_app]).
    unfold pop_local. rewrite Hb, dirty_ring, decrement_ring by lia.
    destruct (Z.eqb_spec (Z.of_nat (length l' + 1)) 0); [lia |].
    replace (top (_age q) + Z.of_nat (length l' + 1) - 1) with (top (_age q) + Z.of_nat (length l')) by lia.
    fold q0. rewrite (elem_at_eq q0 _ x Hx). cbn [mbind option_bind].
    change (_age q0) with (_age q). rewrite size_ring by lia. rewrite Z.gtb_ltb.
    destruct (Z.ltb_spec 0 (Z.of_nat (length l'))).
    + exists q0, l'. done.
    + assert (l' = []) as -> by (apply length_zero_iff_nil; lia). simpl. rewrite Z.add_0_r.
      destruct Hw as [H1 H2 H3]. rewrite (Z.mod_small (top _)) by done.
      unfold pop_local_slow, cmpxchg. rewrite Z.eqb_refl. change (_age q0) with (_age q).
      rewrite !decide_True by done. eexists _, []. split_and!; [done | done |].
      rewrite wrap_small by lia. split; simpl; [split; simpl; [done | done |] | | lia | by intros i y].
      * apply wrap_range. lia.
      * unfold q0; simpl. by rewrite Z.add_0_r.
  - apply last_None in Hlast as ->. unfold pop_local. rewrite Hb, dirty_ring by (simpl; lia). done.
Qed.

Lemma increment_ok a : 0 <= top a < N -> 0 <= tag a < 2 ^ 32 ->
  top (increment N a) = (top a + 1) mod N /\ 0 <= tag (increment N a) < 2 ^ 32.
Proof.
  intros Ht Hg. unfold increment. rewrite <- (Z.mod_small (top a) N) by done. rewrite increment_ring.
  simpl. rewrite (Z.mod_small (top a) N) by done. split; [done |].
  destruct (_ =? 0); [apply wrap_range; lia | done].
Qed.

Lemma pop_global_contents q l :
  contents q l ->
  match l with
  | [] => pop_global N q = Some (None, q)
  | x :: l' => exists q', pop_global N q = Some (Some x, q') /\ contents q' l'
  end.
Proof.
  intros [Hw Hb Hl He]. pose proof N_range. unfold pop_global. rewrite Hb, size_ring by lia.
  destruct l as [| x l]; [done |]. simpl length in *.
  destruct (Z.eqb_spec (Z.of_nat (S (length l))) 0); [lia |]. destruct Hw as [H1 H2 H3].
  pose proof (holds_at_head _ _ _ _ H2 He) as Hx. unfold elem_at.
  destruct (Z.leb_spec 0 (top (_age q))); [| lia]. rewrite Hx. cbn [mbind option_bind].
  unfold cmpxchg. rewrite !decide_True by done. eexists. split; [done |].
  destruct (increment_ok (_age q) H2 H3) as [Hi1 Hi2]. split; cbn [set_age _age _bottom _elems].
  - split; cbn [set_age _age _bottom _elems]; [done | rewrite Hi1; apply ring_range | done].
  - rewrite Hi1, Zplus_mod_idemp_l, Hb. f_equal. lia.
  - lia.
  - rewrite Hi1. by eapply holds_at_tail.
Qed.

Lemma oops_do_contents q l : contents q l -> oops_do N q = Some (reverse l).
Proof.
  intros Hc. unfold oops_do. rewrite (size_contents q l Hc), Nat2Z.id. destruct Hc as [Hw Hb Hl He].
  rewrite Hb. clear Hb. revert Hl He. induction l as [| x l IH] using rev_ind; intros Hl He; [done |].
  rewrite length_app, Nat.add_comm in *. simpl in *. rewrite decrement_ring.
  replace (top (_age q) + Z.of_nat (S (length l)) - 1) with (top (_age q) + Z.of_nat (length l)) by lia.
  rewrite (elem_at_eq q _ x) by (by apply holds_at_last). cbn [mbind option_bind].
  rewrite IH; [| lia | by eapply holds_at_app]. cbn [mbind option_bind]. by rewrite reverse_snoc.
Qed.

Lemma create_contents memory : Z.of_nat (length memory) = N -> contents (create memory) [].
Proof.
  intros Hm. pose proof N_range. split; simpl; [split; simpl; lia | by rewrite Z.mod_small by lia | lia | by intros i x].
Qed.

End Ring.

(** ** The deque as a list *)

Section Deque.
Context {E : Type}.

Inductive op := Push (x : E) | PopLocal | PopGlobal | Size | All | SetEmpty.
Inductive answer := Done (b : bool) | Elem (o : option E) | Count (n : Z) | Elems (l : list E) | Ok.

Definition exec (N : Z) (q : GenericTaskQueue E) (o : op) : option (answer * GenericTaskQueue E) :=
  match o with
  | Push x => '(b, q) ← push N q x; Some (Done b, q)
  | PopLocal => '(t, q) ← pop_local N q; Some (Elem t, q)
  | PopGlobal => '(t, q) ← pop_global N q; Some (Elem t, q)
  | Size => Some (Count (size N q), q)
  | All => l ← oops_do N q; Some (Elems l, q)
  | SetEmpty => Some (Ok, set_empty q)
  end.

(** A list with at most [cap] elements: the owner uses its end, the others its head. *)
Definition deque (cap : Z) (l : list E) (o : op) : answer * list E :=
  match o with
  | Push x => if Z.of_nat (length l) <? cap then (Done true, l ++ [x]) else (Done false, l)
  | PopLocal => (Elem (last l), take (length l - 1) l)
  | PopGlobal => (Elem (head l), tail l)
  | Size => (Count (Z.of_nat (length l)), l)
  | All => (Elems (reverse l), l)
  | SetEmpty => (Ok, [])
  end.

Fixpoint execs (N : Z) (q : GenericTaskQueue E) (os : list op) : option (list answer * GenericTaskQueue E) :=
  match os with
  | [] => Some ([], q)
  | o :: os =>
    '(a, q) ← exec N q o;
    '(l, q) ← execs N q os;
    Some (a :: l, q)
  end.
Fixpoint deques (cap : Z) (l : list E) (os : list op) : list answer * list E :=
  match os with
  | [] => ([], l)
  | o :: os =>
    let '(a, l) := deque cap l o in
    let '(as_, l) := deques cap l os in
    (a :: as_, l)
  end.

Lemma exec_deque lg N q l o :
  2 <= lg <= 31 -> N = 2 ^ lg -> contents N q l ->
  exists q', exec N q o = Some ((deque (N - 2) l o).1, q') /\ contents N q' (deque (N - 2) l o).2.
Proof.
  intros Hlg HN Hc. destruct o as [x | | | | |]; simpl.
  - pose proof (push_contents lg N Hlg HN q l x Hc) as H. destruct (_ <? N - 2).
    + destruct H as (q' & -> & Hq'). eauto.
    + rewrite H. eauto.
  - pose proof (pop_local_contents lg N Hlg HN q l Hc) as H. destruct (last l) as [x |] eqn:Hl.
    + destruct H as (q' & l' & -> & -> & Hq'). rewrite length_app, Nat.add_sub, take_app_length. eauto.
    + rewrite H. apply last_None in Hl as ->. eauto.
  - pose proof (pop_global_contents lg N Hlg HN q l Hc) as H. destruct l as [| x l]; simpl.
    + rewrite H. eauto.
    + destruct H as (q' & -> & Hq'). eauto.
  - rewrite (size_contents lg N Hlg HN q l Hc). eauto.
  - rewrite (oops_do_contents lg N Hlg HN q l Hc). eauto.
  - exists (set_empty q). split; [done |]. apply (create_contents lg N Hlg HN). apply Hc.
Qed.

(** C22. Without interference a queue is a deque: every sequence of operations on a new queue succeeds, with
    the answers of a list of at most [N - 2] elements to which the owner adds at
    the end and from which it takes at the end, while the others take the head. *)
Theorem taskqueue_refines_deque (lg N : Z) (memory : list E) (os : list op)
    (Hlg : 2 <= lg <= 31) (HN : N = 2 ^ lg) (Hm : Z.of_nat (length memory) = N) :
  exists q, execs N (create memory) os = Some ((deques (N - 2) [] os).1, q) /\
    contents N q (deques (N - 2) [] os).2.
Proof.
  pose proof (create_contents lg N Hlg HN memory Hm) as Hc. revert Hc.
  generalize (@nil E). generalize (create memory).
  induction os as [| o os IH]; intros q l Hc; simpl; [eauto |].
  destruct (exec_deque lg N q l o Hlg HN Hc) as (q' & -> & Hq'). cbn [mbind option_bind].
  destruct (deque (N - 2) l o) as [a l'] eqn:Hd. simpl in *.
  destruct (IH q' l' Hq') as (q2 & -> & Hq2). cbn [mbind option_bind].
  destruct (deques (N - 2) l' os) as [as_ l2]. eauto.
Qed.
End Deque.

Definition sample_ops : list (op (E := Z)) := [Push 7; Push 8; Push 9; PopGlobal; PopLocal; Size; PopLocal; PopLocal].

Lemma taskqueue_refines_deque_witness :
  exists q, execs 4 (create [0; 0; 0; 0]) sample_ops =
    Some ([Done true; Done true; Done false; Elem (Some 7); Elem (Some 8); Count 0; Elem None; Elem None], q).
Proof.
  destruct (taskqueue_refines_deque 2 4 [0; 0; 0; 0] sample_ops) as (q & Hq & _); [lia | done | done |].
  exists q. exact Hq.
Defined.

End TaskQueue.
