(* ===== verification/TaskQueuePar.v ===== *)
(** * Work stealing

    The operations of [GenericTaskQueue] ([utilities/taskqueue.hpp]) interleaved at every
    access to [_bottom], [_age] and [_elems]: one thread, the owner, calls [push] and
    [pop_local] as it likes, and any number of others call [pop_global].  The accesses
    are taken in one order, as the fences of the code and the memory order of the
    supported processors provide.

    A thief that sleeps between its read of the age and its exchange relies on the
    age not coming back.  The tag that makes ages different has 32 bits; the
    theorems speak of the runs in which it has not been used up. *)

From Stdlib Require Import ZArith Lia.
From stdpp Require Import base numbers list.
From S2P Require Import Prelude TaskQueue.

Local Open Scope Z_scope.

Module TaskQueuePar.
Import TaskQueue.

Section Race.
Context (N : Z) {E : Type}.
Local Abbreviation Queue := (GenericTaskQueue E).

(** Where the owner is: between calls, or before the access that follows from the
    values it has read. *)
Inductive opc :=
| Idle
| PushTop (x : E) (bot : Z)
| PushElem (x : E) (bot : Z)
| PushBottom (x : E) (bot : Z)
| PushSlow (x : E)
| PopTop (bot : Z)
| PopBottom (bot : Z)
| PopElem (bot : Z)
| PopTop2 (bot : Z) (t : E)
| PopAge (bot : Z) (t : E)
| PopCas (bot : Z) (t : E) (old : Age)
| PopSet (new : Age).

(** Where a call of [pop_global] is. *)
Inductive tpc :=
| StealAge
| StealBottom (old : Age)
| StealElem (old : Age)
| StealCas (old : Age) (t : E).

(** What calls return. *)
Inductive event :=
| Pushed (x : E)
| Full (x : E)
| Popped (x : E)
| Empty
| Stolen (x : E)
| Missed.

Definition owner_step (q : Queue) (p : opc) : option (Queue * opc * list event) :=
  match p with
  | Idle => None
  | PushTop x bot =>
      let dirty := dirty_size N bot (top (_age q)) in
      if dirty <? max_elems N then Some (q, PushElem x bot, [])
      else if dirty =? N - 1 then Some (q, PushSlow x, [])
      else Some (q, Idle, [Full x])
  | PushSlow x => Some (q, PushElem x (_bottom q), [])
  | PushElem x bot => q ← set_elem q bot x; Some (q, PushBottom x bot, [])
  | PushBottom x bot => Some (set_bottom q (increment_index N bot), Idle, [Pushed x])
  | PopTop bot =>
      if dirty_size N bot (top (_age q)) =? 0 then Some (q, Idle, [Empty])
      else Some (q, PopBottom (decrement_index N bot), [])
  | PopBottom bot => Some (set_bottom q bot, PopElem bot, [])
  | PopElem bot => t ← elem_at q bot; Some (q, PopTop2 bot t, [])
  | PopTop2 bot t =>
      if size_of N bot (top (_age q)) >? 0 then Some (q, Idle, [Popped t])
      else Some (q, PopAge bot t, [])
  | PopAge bot t =>
      let old := _age q in
      if bot =? top old then Some (q, PopCas bot t old, [])
      else Some (q, PopSet (mkAge (u32 bot) (u32 (tag old + 1))), [])
  | PopCas bot t old =>
      let new := mkAge (u32 bot) (u32 (tag old + 1)) in
      let '(res, q) := cmpxchg q new old in
      if decide (res = old) then Some (q, Idle, [Popped t]) else Some (q, PopSet new, [])
  | PopSet new => Some (set_age q new, Idle, [Empty])
  end.

Definition thief_step (q : Queue) (p : tpc) : option (Queue * tpc * list event) :=
  match p with
  | StealAge => Some (q, StealBottom (_age q), [])
  | StealBottom old =>
      if size_of N (_bottom q) (top old) =? 0 then Some (q, StealAge, [Missed])
      else Some (q, StealElem old, [])
  | StealElem old => t ← elem_at q (top old); Some (q, StealCas old t, [])
  | StealCas old t =>
      let '(res, q) := cmpxchg q (increment N old) old in
      Some (q, StealAge, [if decide (res = old) then Stolen t else Missed])
  end.

Record state := mkState { queue : Queue; owner : opc; thieves : list tpc }.

Inductive step : state -> list event -> state -> Prop :=
| step_push s x :
    owner s = Idle ->
    step s [] (mkState (queue s) (PushTop x (_bottom (queue s))) (thieves s))
| step_pop s :
    owner s = Idle ->
    step s [] (mkState (queue s) (PopTop (_bottom (queue s))) (thieves s))
| step_owner s q p es :
    owner_step (queue s) (owner s) = Some (q, p, es) ->
    step s es (mkState q p (thieves s))
| step_thief s i p q p' es :
    thieves s !! i = Some p ->
    thief_step (queue s) p = Some (q, p', es) ->
    step s es (mkState q (owner s) (<[i := p']> (thieves s))).

(** The tag can be incremented once more. *)
Definition tags_left (s : state) : Prop := tag (_age (queue s)) < 2 ^ 32 - 1.

Inductive run : state -> list event -> state -> Prop :=
| run_refl s : run s [] s
| run_step s es s' e s'' : run s es s' -> tags_left s' -> step s' e s'' -> run s (es ++ e) s''.

Definition initial (memory : list E) (n : nat) : state :=
  mkState (create memory) Idle (replicate n StealAge).

(** The elements that calls have put into the queue, and taken. *)
Definition pushed (es : list event) : list E := omap (fun e => match e with Pushed x => Some x | _ => None end) es.
Definition popped (es : list event) : list E := omap (fun e => match e with Popped x => Some x | _ => None end) es.
Definition stolen (es : list event) : list E := omap (fun e => match e with Stolen x => Some x | _ => None end) es.

(** ** The invariant *)

Definition age_lt (a b : Age) : Prop := tag a < tag b \/ tag a = tag b /\ top a < top b.
Definition age_le (a b : Age) : Prop := a = b \/ age_lt a b.

(** [l] are the elements that are still to be taken, in their order; [own] is the element that the owner is sure to get. *)
Definition quiet (q : Queue) (l own : list E) : Prop :=
  own = [] /\ _bottom q = (top (_age q) + Z.of_nat (length l)) mod N.
Definition mine (q : Queue) (bot : Z) (t : E) (l own : list E) : Prop :=
  own = [t] /\ _bottom q = bot /\ bot = (top (_age q) + Z.of_nat (length l)) mod N /\
  _elems q !! Z.to_nat bot = Some t.
Definition contested (q : Queue) (bot : Z) (t : E) (l own : list E) : Prop :=
  own = [] /\ l = [t] /\ _bottom q = bot /\ bot = top (_age q).
Definition lost (q : Queue) (bot : Z) (l own : list E) : Prop :=
  own = [] /\ l = [] /\ _bottom q = bot /\ 0 <= bot < N /\ top (_age q) = (bot + 1) mod N.

Definition owner_ok (q : Queue) (p : opc) (l own : list E) : Prop :=
  match p with
  | Idle => quiet q l own
  | PushTop _ bot | PopTop bot => quiet q l own /\ bot = _bottom q
  | PushElem _ bot => quiet q l own /\ bot = _bottom q /\ Z.of_nat (length l) < N - 2
  | PushBottom x bot =>
      quiet q l own /\ bot = _bottom q /\ Z.of_nat (length l) < N - 2 /\ _elems q !! Z.to_nat bot = Some x
  | PushSlow _ => False
  | PopBottom bot => quiet q l own /\ bot = decrement_index N (_bottom q)
  | PopElem bot => exists t, mine q bot t l own \/ contested q bot t l own \/ lost q bot l own
  | PopTop2 bot t => mine q bot t l own \/ contested q bot t l own \/ lost q bot l own
  | PopAge bot t => mine q bot t l own /\ l = [] \/ contested q bot t l own \/ lost q bot l own
  | PopCas bot t old =>
      bot = top old /\ 0 <= tag old < 2 ^ 32 - 1 /\
      (mine q bot t l own /\ l = [] /\ old = _age q \/ contested q bot t l own /\ old = _age q \/
       lost q bot l own /\ _age q = increment N old)
  | PopSet new => lost q (top new) l own /\ age_lt (_age q) new /\ 0 <= tag new < 2 ^ 32
  end.

Definition thief_ok (q : Queue) (l : list E) (p : tpc) : Prop :=
  match p with
  | StealAge => True
  | StealBottom old => age_le old (_age q) /\ 0 <= top old < N
  | StealElem old => age_le old (_age q) /\ 0 <= top old < N /\ (old = _age q -> l <> [])
  | StealCas old t => age_le old (_age q) /\ 0 <= top old < N /\ (old = _age q -> head l = Some t)
  end.

Record inv_with (s : state) (es : list event) (l own : list E) : Prop := {
  i_wf : ring_wf N (queue s);
  i_elems : holds_at N (_elems (queue s)) (top (_age (queue s))) l;
  i_length : Z.of_nat (length (l ++ own)) <= N - 2;
  i_all : pushed es ≡ₚ popped es ++ stolen es ++ l ++ own;
  i_order : stolen es ++ l ++ own `sublist_of` pushed es;
  i_owner : owner_ok (queue s) (owner s) l own;
  i_thieves : Forall (thief_ok (queue s) l) (thieves s)
}.

End Race.
Arguments event : clear implicits.
Arguments opc : clear implicits.
Arguments tpc : clear implicits.
Arguments state : clear implicits.

Section Proof.
Context (lg N : Z) (Hlg : 2 <= lg <= 31) (HN : N = 2 ^ lg) {E : Type}.
Implicit Types (q : GenericTaskQueue E) (l own : list E) (es : list (event E)).

Lemma age_lt_ne a b : age_lt a b -> a <> b.
Proof. intros H ->. unfold age_lt in H. lia. Qed.

Lemma age_le_lt a b c : age_le a b -> age_lt b c -> age_lt a c.
Proof. intros [-> | H]; [done |]. unfold age_lt in *. lia. Qed.

Lemma increment_top a : 0 <= top a < N -> top (increment N a) = (top a + 1) mod N.
Proof.
  intros Ht. unfold increment; simpl. rewrite <- (Z.mod_small (top a) N) at 1 by done.
  apply (increment_ring lg N Hlg HN).
Qed.

Lemma increment_lt a : 0 <= top a < N -> 0 <= tag a < 2 ^ 32 - 1 -> age_lt a (increment N a).
Proof.
  intros Ht Hg. pose proof (increment_top a Ht) as Hi. unfold age_lt. rewrite Hi.
  unfold increment in *; simpl in *. rewrite Hi. destruct (Z.eqb_spec ((top a + 1) mod N) 0).
  - left. rewrite wrap_small by lia. lia.
  - right. split; [done |]. destruct (decide (top a + 1 = N)) as [He | He].
    + rewrite He, Z.mod_same in * by lia. lia.
    + rewrite Z.mod_small by lia. lia.
Qed.

Lemma increment_tag a : 0 <= tag a < 2 ^ 32 - 1 -> 0 <= tag (increment N a) < 2 ^ 32.
Proof. intros Hg. unfold increment; simpl. destruct (_ =? 0); [rewrite wrap_small by lia |]; lia. Qed.

(** The age the owner installs comes after that of the thief it lost against. *)
Lemma reset_lt a : 0 <= top a < N -> 0 <= tag a < 2 ^ 32 - 1 ->
  age_lt (increment N a) (mkAge (top a) (tag a + 1)).
Proof.
  intros Ht Hg. pose proof (N_range lg N Hlg HN). pose proof (increment_top a Ht) as Hi.
  unfold age_lt. rewrite Hi. unfold increment in *; simpl in *. rewrite Hi.
  destruct (Z.eqb_spec ((top a + 1) mod N) 0) as [Hz | Hz].
  - rewrite wrap_small by lia. right. split; [done |]. destruct (decide (top a + 1 = N)); [lia |].
    rewrite Z.mod_small in Hz by lia. lia.
  - left. lia.
Qed.

(** ** Steps of the others *)

Lemma thieves_newer q q' l l' ts :
  age_lt (_age q) (_age q') -> Forall (thief_ok N q l) ts -> Forall (thief_ok N q' l') ts.
Proof.
  intros Hlt Hts. eapply Forall_impl; [exact Hts |]. intros p.
  destruct p as [| old | old | old t]; simpl; [done | | |].
  - intros [Hle Ht]. split; [right; by eapply age_le_lt | done].
  - intros (Hle & Ht & _). pose proof (age_le_lt _ _ _ Hle Hlt) as H.
    split_and!; [by right | apply Ht .. |]. intros Heq. by apply age_lt_ne in H.
  - intros (Hle & Ht & _). pose proof (age_le_lt _ _ _ Hle Hlt) as H.
    split_and!; [by right | apply Ht .. |]. intros Heq. by apply age_lt_ne in H.
Qed.

Lemma thieves_same q q' l l' ts :
  _age q' = _age q -> (l <> [] -> l' <> [] /\ head l' = head l) ->
  Forall (thief_ok N q l) ts -> Forall (thief_ok N q' l') ts.
Proof.
  intros Ha Hl Hts. eapply Forall_impl; [exact Hts |]. intros p. destruct p as [| old | old | old t]; simpl; rewrite ?Ha.
  - done.
  - done.
  - intros (Hle & Ht & H). split_and!; [done | apply Ht .. |]. intros Heq. by apply Hl, H.
  - intros (Hle & Ht & H). split_and!; [done | apply Ht .. |]. intros Heq. specialize (H Heq).
    destruct (Hl ltac:(by destruct l)) as [_ ->]. done.
Qed.

Lemma quiet_steal q x l own :
  0 <= top (_age q) < N -> quiet N q (x :: l) own -> quiet N (set_age q (increment N (_age q))) l own.
Proof.
  intros Ht [Ho Hb]. split; [done |]. cbn [set_age _age _bottom]. rewrite increment_top by done.
  rewrite Hb, Zplus_mod_idemp_l. f_equal. simpl length. lia.
Qed.

Lemma mine_steal q bot t x l own :
  0 <= top (_age q) < N -> mine N q bot t (x :: l) own -> mine N (set_age q (increment N (_age q))) bot t l own.
Proof.
  intros Ht (Ho & Hb & Hbt & He). split_and!; [done .. | | done]. cbn [set_age _age _bottom].
  rewrite increment_top by done. rewrite Hbt, Zplus_mod_idemp_l. f_equal. simpl length. lia.
Qed.

Lemma contested_steal q bot t x l own :
  0 <= top (_age q) < N -> contested q bot t (x :: l) own -> lost N (set_age q (increment N (_age q))) bot l own.
Proof.
  intros Ht (Ho & Hl & Hb & ->). injection Hl as -> ->. split_and!; try done; [apply Ht .. |].
  cbn [set_age _age]. by apply increment_top.
Qed.

(** A successful steal, seen by the owner. *)
Lemma owner_steal q p x l own :
  ring_wf N q -> owner_ok N q p (x :: l) own ->
  owner_ok N (set_age q (increment N (_age q))) p l own.
Proof.
  intros [_ Ht _]. pose proof (quiet_steal q x l own Ht) as Hq.
  pose proof (fun bot t => mine_steal q bot t x l own Ht) as Hm.
  pose proof (fun bot t => contested_steal q bot t x l own Ht) as Hc.
  assert (forall bot, ~ lost N q bot (x :: l) own) as Hl by (intros bot (_ & ? & _); done).
  destruct p as [| y bot | y bot | y bot | y | bot | bot | bot | bot t | bot t | bot t old | new];
    cbn [owner_ok set_age _bottom]; simpl length.
  - auto.
  - intros [H ->]. auto.
  - intros (H & -> & H'). split_and!; [auto | done | lia].
  - intros (H & -> & H' & H''). split_and!; [auto | done | lia | done].
  - done.
  - intros [H ->]. auto.
  - intros [H ->]. auto.
  - intros (t & [H | [H | H]]); exists t; [left; auto | right; right; eauto | by apply Hl in H].
  - intros [H | [H | H]]; [left; auto | right; right; eauto | by apply Hl in H].
  - intros [[_ H] | [H | H]]; [done | right; right; eauto | by apply Hl in H].
  - intros (-> & Hg & [(_ & H & _) | [[H ->] | [H _]]]); [done | | by apply Hl in H].
    split_and!; [done | lia | lia |]. right; right. split; [by eapply Hc | done].
  - intros (H & _). by apply Hl in H.
Qed.

Definition inv (s : state E) (es : list (event E)) : Prop := exists l own, inv_with N s es l own.

(** Events that say nothing about elements. *)
Definition silent (es : list (event E)) : Prop := pushed es = [] /\ popped es = [] /\ stolen es = [].

Lemma history_app es es' :
  pushed (es ++ es') = pushed es ++ pushed es' /\ popped (es ++ es') = popped es ++ popped es' /\
  stolen (es ++ es') = stolen es ++ stolen es'.
Proof. unfold pushed, popped, stolen. by rewrite !omap_app. Qed.

(** A state of the same elements. *)
Lemma inv_silent s es s' es' l own :
  inv_with N s es l own -> silent es' ->
  ring_wf N (queue s') -> holds_at N (_elems (queue s')) (top (_age (queue s'))) l ->
  owner_ok N (queue s') (owner s') l own -> Forall (thief_ok N (queue s') l) (thieves s') ->
  inv s' (es ++ es').
Proof.
  intros [_ _ Hl Ha Ho _ _] (H1 & H2 & H3) Hw He Hok Ht. destruct (history_app es es') as (E1 & E2 & E3).
  exists l, own. split; [done | done | done | | | done | done]; rewrite ?E1, ?E2, ?E3, ?H1, ?H2, ?H3, !app_nil_r; done.
Qed.

Lemma owner_size_empty q p own :
  ring_wf N q -> owner_ok N q p [] own -> size_of N (_bottom q) (top (_age q)) = 0.
Proof.
  intros Hw Hok. pose proof (N_range lg N Hlg HN).
  assert (_bottom q = (top (_age q) + 0) mod N -> size_of N (_bottom q) (top (_age q)) = 0) as Hs.
  { intros ->. apply (size_ring lg N Hlg HN). lia. }
  assert (forall bot, lost N q bot [] own -> size_of N (_bottom q) (top (_age q)) = 0) as Hlost.
  { intros bot (_ & _ & -> & Hb & ->). unfold size_of, dirty_size.
    rewrite (mask_mod lg N Hlg HN), Zminus_mod_idemp_r.
    replace ((bot - (bot + 1)) mod N) with (N - 1); [by rewrite Z.eqb_refl |].
    apply Z.mod_unique with (q := -1); lia. }
  assert (forall bot t, mine N q bot t [] own -> size_of N (_bottom q) (top (_age q)) = 0) as Hmine.
  { intros bot t (_ & -> & Hb & _). rewrite Hb. apply (size_ring lg N Hlg HN). lia. }
  assert (forall bot t, ~ contested q bot t [] own) as Hc by (intros bot t (_ & ? & _); done).
  destruct p as [| y bot | y bot | y bot | y | bot | bot | bot | bot t | bot t | bot t old | new];
    cbn [owner_ok] in Hok.
  - by apply Hs, Hok.
  - by apply Hs, Hok.
  - by apply Hs, Hok.
  - by apply Hs, Hok.
  - done.
  - by apply Hs, Hok.
  - by apply Hs, Hok.
  - destruct Hok as (t & [H' | [H' | H']]); [eauto | by apply Hc in H' | eauto].
  - destruct Hok as [H' | [H' | H']]; [eauto | by apply Hc in H' | eauto].
  - destruct Hok as [[H' _] | [H' | H']]; [eauto | by apply Hc in H' | eauto].
  - destruct Hok as (_ & _ & [[H' _] | [[H' _] | [H' _]]]); [eauto | by apply Hc in H' | eauto].
  - destruct Hok as [H' _]. eauto.
Qed.

Lemma steal_inv s es l own x i :
  inv_with N s es (x :: l) own -> tags_left s ->
  inv (mkState (set_age (queue s) (increment N (_age (queue s)))) (owner s) (<[i := StealAge]> (thieves s)))
    (es ++ [Stolen x]).
Proof.
  intros [Hw He Hl Ha Ho Hok Ht] Htag. destruct (history_app es [Stolen x]) as (E1 & E2 & E3).
  destruct Hw as [Hw1 Hw2 Hw3]. unfold tags_left in Htag.
  exists l, own. split; cbn [queue owner thieves set_age _elems _age].
  - split; cbn [set_age _elems _age]; [done | | apply increment_tag; lia].
    rewrite increment_top by done. apply (ring_range lg N Hlg HN).
  - rewrite increment_top by done. by eapply holds_at_tail.
  - simpl in Hl. lia.
  - rewrite E1, E2, E3. cbn [pushed popped stolen omap list_omap]. rewrite !app_nil_r, Ha, <- !app_assoc. done.
  - rewrite E1, E3. cbn [pushed stolen omap list_omap]. rewrite app_nil_r, <- !app_assoc. done.
  - apply (owner_steal _ _ x); done.
  - apply Forall_insert; [| done]. eapply thieves_newer; [| exact Ht]. by apply increment_lt; [| lia].
Qed.

Lemma thief_inv s es i p q p' e :
  inv s es -> tags_left s -> thieves s !! i = Some p -> thief_step N (queue s) p = Some (q, p', e) ->
  inv (mkState q (owner s) (<[i := p']> (thieves s))) (es ++ e).
Proof.
  intros (l & own & Hi) Htag Hp Hstep. pose proof Hi as [Hw He Hl Ha Ho Hok Ht].
  pose proof (proj1 (Forall_lookup _ _) Ht i p Hp) as Hth.
  assert (forall p', thief_ok N (queue s) l p' -> forall e, silent e ->
    inv (mkState (queue s) (owner s) (<[i := p']> (thieves s))) (es ++ e)) as Hsame.
  { intros p0 H0 e0 He0. eapply inv_silent; [exact Hi | done .. |]. by apply Forall_insert. }
  assert (forall y : event E, y = Missed -> silent [y]) as Hmissed by (by intros y ->).
  destruct p as [| old | old | old t]; cbn [thief_step] in Hstep; cbn [thief_ok] in Hth.
  - injection Hstep as <- <- <-. apply Hsame; [| done]. split; [by left | apply Hw].
  - destruct Hth as [Hle Hot]. destruct (Z.eqb_spec (size_of N (_bottom (queue s)) (top old)) 0);
      injection Hstep as <- <- <-.
    + apply Hsame; [done |]. by apply Hmissed.
    + apply Hsame; [| done]. split_and!; [done | apply Hot .. |]. intros -> ->. by eapply owner_size_empty in Hok.
  - destruct Hth as (Hle & Hot & Hne). destruct (elem_at (queue s) (top old)) as [t |] eqn:Helem; [| done].
    injection Hstep as <- <- <-. apply Hsame; [| done]. split_and!; [done | apply Hot .. |].
    intros ->. destruct l as [| x l]; [by destruct (Hne eq_refl) |]. simpl. rewrite <- Helem.
    pose proof (holds_at_head N _ _ _ _ Hot He) as Hx. unfold elem_at.
    destruct (Z.leb_spec 0 (top (_age (queue s)))); [done | lia].
  - destruct Hth as (Hle & Hot & Hhd). unfold cmpxchg in Hstep.
    destruct (decide (_age (queue s) = old)) as [<- | Hne]; injection Hstep as <- <- <-.
    + specialize (Hhd eq_refl). destruct l as [| x l]; [done |]. injection Hhd as ->. by eapply steal_inv.
    + apply Hsame; [done |]. by apply Hmissed.
Qed.

(** *** Steps of the owner *)

Lemma push_top_inv s es x bot q p e :
  inv s es -> owner s = PushTop x bot -> owner_step N (queue s) (owner s) = Some (q, p, e) ->
  inv (mkState q p (thieves s)) (es ++ e).
Proof.
  intros (l & own & Hi) Hp Hstep. pose proof Hi as [Hw He Hl _ _ Hok Ht]. pose proof (N_range lg N Hlg HN).
  rewrite Hp in *. destruct Hok as [[-> Hb] ->]. rewrite app_nil_r in Hl. cbn [owner_step] in Hstep.
  rewrite Hb, (dirty_ring lg N Hlg HN) in Hstep by lia. unfold max_elems in Hstep.
  destruct (Z.ltb_spec (Z.of_nat (length l)) (N - 2)).
  - injection Hstep as <- <- <-. eapply inv_silent; [exact Hi | done | done | done | | done].
    rewrite <- Hb. by split_and!.
  - destruct (Z.eqb_spec (Z.of_nat (length l)) (N - 1)); [lia |]. injection Hstep as <- <- <-.
    eapply inv_silent; [exact Hi | done | done | done | by split | done].
Qed.

Lemma push_elem_inv s es x bot q p e :
  inv s es -> owner s = PushElem x bot -> owner_step N (queue s) (owner s) = Some (q, p, e) ->
  inv (mkState q p (thieves s)) (es ++ e).
Proof.
  intros (l & own & Hi) Hp Hstep. pose proof Hi as [Hw He Hl _ _ Hok Ht]. pose proof (N_range lg N Hlg HN).
  rewrite Hp in *. destruct Hok as ([-> Hb] & -> & Hroom). cbn [owner_step] in Hstep.
  rewrite Hb, (set_elem_ring lg N Hlg HN) in Hstep by done. injection Hstep as <- <- <-.
  pose proof (holds_at_store lg N Hlg HN _ _ l x (r_length _ _ Hw) ltac:(lia) He) as Hst.
  destruct Hw as [Hw1 Hw2 Hw3]. eapply inv_silent; [exact Hi | done | | | |]; cbn [queue owner thieves].
  - split; cbn [_elems _age]; [by rewrite length_insert | done | done].
  - by eapply holds_at_app.
  - split_and!; [by split | by rewrite <- Hb | done |]. by apply holds_at_last.
  - eapply thieves_same; [| | exact Ht]; done.
Qed.

Lemma push_bottom_inv s es x bot q p e :
  inv s es -> owner s = PushBottom x bot -> owner_step N (queue s) (owner s) = Some (q, p, e) ->
  inv (mkState q p (thieves s)) (es ++ e).
Proof.
  intros (l & own & Hi) Hp Hstep. pose proof Hi as [Hw He Hl Ha Ho Hok Ht].
  rewrite Hp in *. destruct Hok as ([-> Hb] & -> & Hroom & Hx). cbn [owner_step] in Hstep.
  injection Hstep as <- <- <-. rewrite app_nil_r in *. destruct (history_app es [Pushed x]) as (E1 & E2 & E3).
  exists (l ++ [x]), []. split; cbn [queue owner thieves set_bottom _elems _age];
    rewrite ?E1, ?E2, ?E3; cbn [pushed popped stolen omap list_omap]; rewrite ?app_nil_r.
  - destruct Hw. by split.
  - intros i y Hy. apply lookup_app_Some in Hy as [Hy | [Hi' Hy]]; [by apply He |].
    apply list_lookup_singleton_Some in Hy as [Hy ->]. replace i with (length l) by lia. by rewrite <- Hb.
  - rewrite length_app. simpl. lia.
  - rewrite Ha, <- !app_assoc. done.
  - rewrite app_assoc. by apply sublist_app.
  - split; [done |]. cbn [set_bottom _bottom _age]. rewrite Hb, (increment_ring lg N Hlg HN), length_app.
    simpl. f_equal. lia.
  - eapply thieves_same; [| | exact Ht]; [done |]. intros Hne. by destruct l.
Qed.

Lemma pop_top_inv s es bot q p e :
  inv s es -> owner s = PopTop bot -> owner_step N (queue s) (owner s) = Some (q, p, e) ->
  inv (mkState q p (thieves s)) (es ++ e).
Proof.
  intros (l & own & Hi) Hp Hstep. pose proof Hi as [Hw He Hl _ _ Hok Ht].
  rewrite Hp in *. destruct Hok as [Hq ->]. cbn [owner_step] in Hstep.
  destruct (_ =? 0); injection Hstep as <- <- <-;
    (eapply inv_silent; [exact Hi | done | done | done | done | done]).
Qed.

(** The store to [_bottom] by [pop_local]: the last element is the owner's if another one is
    left, and contested if not. *)
Lemma pop_bottom_inv s es bot q p e :
  inv s es -> owner s = PopBottom bot -> owner_step N (queue s) (owner s) = Some (q, p, e) ->
  inv (mkState q p (thieves s)) (es ++ e).
Proof.
  intros (l & own & Hi) Hp Hstep. pose proof Hi as [Hw He Hl Ha Ho Hok Ht]. pose proof (N_range lg N Hlg HN).
  rewrite Hp in *. destruct Hok as [[-> Hb] ->]. cbn [owner_step] in Hstep.
  injection Hstep as <- <- <-. destruct (r_top _ _ Hw) as [Ht1 Ht2].
  assert (ring_wf N (set_bottom (queue s) (decrement_index N (_bottom (queue s))))) as Hw' by (by destruct Hw).
  rewrite Hb, (decrement_ring lg N Hlg HN) in *. rewrite app_nil_r in Hl, Ha, Ho. set (t := top (_age (queue s))) in *.
  destruct l as [| x l _] using rev_ind; [| destruct l as [| y l _] using rev_ind].
  - simpl in *. eapply inv_silent; [exact Hi | done | done | done | | eapply thieves_same; [| | exact Ht]; done].
    cbn [queue owner owner_ok]. destruct (elem_at_ring lg N Hlg HN (queue s) t Hw) as (x & _).
    exists x. right; right. split_and!; try done; [apply (ring_range lg N Hlg HN) .. |].
    cbn [set_bottom _age]. rewrite Zplus_mod_idemp_l. fold t. rewrite Z.mod_small; lia.
  - simpl in *. eapply inv_silent; [exact Hi | done | done | done | | eapply thieves_same; [| | exact Ht]; done].
    cbn [queue owner owner_ok]. exists x. right; left. split_and!; try done.
    cbn [set_bottom _age]. fold t. rewrite Z.mod_small; lia.
  - set (l' := l ++ [y]) in *. rewrite length_app in *. simpl in *.
    replace (t + Z.of_nat (length l' + 1) - 1) with (t + Z.of_nat (length l')) by lia.
    exists l', [x]. rewrite app_nil_r. split; cbn [queue owner thieves set_bottom _elems _age]; fold t.
    + by destruct Hw.
    + by eapply holds_at_app.
    + rewrite length_app. simpl. lia.
    + done.
    + done.
    + exists x. left. split_and!; [done | done | done |]. by apply holds_at_last.
    + eapply thieves_same; [done | | exact Ht]. intros _. unfold l'. by destruct l.
Qed.

Lemma pop_elem_inv s es bot q p e :
  inv s es -> owner s = PopElem bot -> owner_step N (queue s) (owner s) = Some (q, p, e) ->
  inv (mkState q p (thieves s)) (es ++ e).
Proof.
  intros (l & own & Hi) Hp Hstep. pose proof Hi as [Hw He Hl _ _ Hok Ht].
  rewrite Hp in *. cbn [owner_step] in Hstep. destruct (elem_at (queue s) bot) as [t |] eqn:Hel; [| done].
  injection Hstep as <- <- <-. eapply inv_silent; [exact Hi | done | done | done | | done].
  cbn [queue owner owner_ok]. unfold elem_at in Hel. destruct (Z.leb_spec 0 bot); [| done].
  destruct Hok as (t' & [Hm | [Hm | Hm]]); [left | right; left | by right; right].
  - destruct Hm as (-> & H2 & H3 & H4). rewrite Hel in H4. injection H4 as ->. by split_and!.
  - destruct Hm as (-> & -> & H3 & H4). pose proof (holds_at_head N _ _ _ _ (r_top _ _ Hw) He) as Hx.
    rewrite <- H4, Hel in Hx. injection Hx as ->. by split_and!.
Qed.

Lemma size_contested q bot t l own : ring_wf N q -> contested q bot t l own -> size_of N bot (top (_age q)) = 0.
Proof.
  intros Hw (_ & _ & _ & ->). pose proof (N_range lg N Hlg HN). pose proof (r_top _ _ Hw).
  pose proof (size_ring lg N Hlg HN (top (_age q)) 0 ltac:(lia)) as Hs.
  by rewrite Z.add_0_r, Z.mod_small in Hs.
Qed.

Lemma size_lost q bot l own : ring_wf N q -> lost N q bot l own -> size_of N bot (top (_age q)) = 0.
Proof.
  intros Hw Hlost. pose proof Hlost as (_ & -> & <- & _). eapply (owner_size_empty q (PopElem (_bottom q)) own Hw).
  destruct (elem_at_ring lg N Hlg HN q 0 Hw) as (x & _). exists x. by right; right.
Qed.

Lemma size_mine q bot t l own :
  Z.of_nat (length (l ++ own)) <= N - 2 -> mine N q bot t l own -> size_of N bot (top (_age q)) = Z.of_nat (length l).
Proof.
  rewrite length_app. intros Hl (_ & _ & -> & _). apply (size_ring lg N Hlg HN). lia.
Qed.

(** The owner gets the element [t]. *)
Lemma popped_inv s es l own t q ts :
  inv_with N s es (l ++ own) [] \/ inv_with N s es l own -> own = [t] ->
  ring_wf N q -> holds_at N (_elems q) (top (_age q)) l -> quiet N q l [] -> Forall (thief_ok N q l) ts ->
  inv (mkState q Idle ts) (es ++ [Popped t]).
Proof.
  intros Hi -> Hw He Hq Ht. destruct (history_app es [Popped t]) as (E1 & E2 & E3).
  assert (Z.of_nat (length (l ++ [t])) <= N - 2 /\ pushed es ≡ₚ popped es ++ stolen es ++ l ++ [t] /\
    stolen es ++ l ++ [t] `sublist_of` pushed es) as (Hl & Ha & Ho).
  { destruct Hi as [[_ _ Hl Ha Ho _ _] | [_ _ Hl Ha Ho _ _]]; rewrite ?app_nil_r in *; done. }
  rewrite length_app in Hl. simpl in Hl.
  exists l, []. split; cbn [queue owner thieves]; rewrite ?E1, ?E2, ?E3;
    cbn [pushed popped stolen omap list_omap]; rewrite ?app_nil_r; [done | done | lia | | | done | done].
  - rewrite Ha, <- !app_assoc. apply Permutation_app_head. rewrite app_assoc. apply Permutation_app_comm.
  - etrans; [| exact Ho]. rewrite app_assoc. apply sublist_inserts_r. done.
Qed.

Lemma pop_top2_inv s es bot t q p e :
  inv s es -> owner s = PopTop2 bot t -> owner_step N (queue s) (owner s) = Some (q, p, e) ->
  inv (mkState q p (thieves s)) (es ++ e).
Proof.
  intros (l & own & Hi) Hp Hstep. pose proof Hi as [Hw He Hl _ _ Hok Ht].
  rewrite Hp in *. cbn [owner_step] in Hstep. cbn [owner_ok] in Hok. rewrite Z.gtb_ltb in Hstep.
  assert (forall e', e' = [] -> Some (queue s, PopAge bot t, e') = Some (q, p, e) ->
    mine N (queue s) bot t l own /\ l = [] \/ contested (queue s) bot t l own \/ lost N (queue s) bot l own ->
    inv (mkState q p (thieves s)) (es ++ e)) as Hslow.
  { intros e' -> [= <- <- <-] Hcase. by eapply inv_silent; [exact Hi | done ..]. }
  destruct Hok as [Hm | [Hc | Hlost]].
  - rewrite (size_mine _ _ _ _ _ Hl Hm) in Hstep. destruct (Z.ltb_spec 0 (Z.of_nat (length l))).
    + injection Hstep as <- <- <-. pose proof Hm as (-> & Hb & Hbot & _).
      eapply popped_inv; [right; exact Hi | done | done | done | | done]. split; [done |]. by rewrite Hb.
    + apply (Hslow [] eq_refl Hstep). left. split; [done |]. apply length_zero_iff_nil. lia.
  - rewrite (size_contested _ _ _ _ _ Hw Hc) in Hstep. apply (Hslow [] eq_refl Hstep). by right; left.
  - rewrite (size_lost _ _ _ _ Hw Hlost) in Hstep. apply (Hslow [] eq_refl Hstep). by right; right.
Qed.

Lemma lost_ne q bot l own : lost N q bot l own -> bot <> top (_age q).
Proof.
  intros (_ & _ & _ & Hb & ->). pose proof (N_range lg N Hlg HN). destruct (decide (bot + 1 = N)) as [He | He].
  - rewrite He, Z.mod_same; lia.
  - rewrite Z.mod_small; lia.
Qed.

Lemma pop_age_inv s es bot t q p e :
  inv s es -> tags_left s -> owner s = PopAge bot t -> owner_step N (queue s) (owner s) = Some (q, p, e) ->
  inv (mkState q p (thieves s)) (es ++ e).
Proof.
  intros (l & own & Hi) Htag Hp Hstep. pose proof Hi as [Hw He Hl _ _ Hok Ht]. pose proof (N_range lg N Hlg HN).
  rewrite Hp in *. cbn [owner_step] in Hstep. cbn [owner_ok] in Hok. unfold tags_left in Htag.
  pose proof Hw as [_ Hw2 Hw3].
  assert (0 <= tag (_age (queue s)) < 2 ^ 32 - 1) as Hg by lia.
  destruct Hok as [[Hm ->] | [Hc | Hlost]].
  - pose proof Hm as (_ & _ & Hbot & _). simpl in Hbot. rewrite Z.add_0_r, Z.mod_small in Hbot by done.
    subst bot. rewrite Z.eqb_refl in Hstep. injection Hstep as <- <- <-.
    eapply inv_silent; [exact Hi | done | done | done | | done]. split_and!; [done | apply Hg .. |]. by left.
  - pose proof Hc as (_ & _ & _ & ->). rewrite Z.eqb_refl in Hstep. injection Hstep as <- <- <-.
    eapply inv_silent; [exact Hi | done | done | done | | done]. split_and!; [done | apply Hg .. |]. by right; left.
  - destruct (Z.eqb_spec bot (top (_age (queue s)))) as [Heq | _]; [by apply lost_ne in Hlost |].
    injection Hstep as <- <- <-. pose proof Hlost as (_ & _ & _ & Hb & _).
    eapply inv_silent; [exact Hi | done | done | done | | done]. cbn [queue owner owner_ok top tag].
    rewrite !wrap_small by lia. split_and!; [done | | lia | lia]. left. simpl. lia.
Qed.

Lemma quiet_reset q b l own g : 0 <= b < N -> _bottom q = b -> l = [] -> own = [] -> quiet N (set_age q (mkAge b g)) l own.
Proof. intros Hb <- -> ->. split; [done |]. simpl. rewrite Z.add_0_r, Z.mod_small; done. Qed.

Lemma pop_cas_inv s es bot t old q p e :
  inv s es -> owner s = PopCas bot t old -> owner_step N (queue s) (owner s) = Some (q, p, e) ->
  inv (mkState q p (thieves s)) (es ++ e).
Proof.
  intros (l & own & Hi) Hp Hstep. pose proof Hi as [Hw He Hl _ _ Hok Ht]. pose proof (N_range lg N Hlg HN).
  rewrite Hp in *. destruct Hok as (-> & Hg & Hcase). cbn [owner_step] in Hstep. unfold cmpxchg in Hstep.
  pose proof Hw as [Hw1 Hw2 Hw3]. rewrite (wrap_small 32 (tag old + 1)) in Hstep by lia.
  assert (0 <= top old < N -> u32 (top old) = top old) as Hu by (intros; apply wrap_small; lia).
  destruct (decide (_age (queue s) = old)) as [<- | Hne].
  - injection Hstep as <- <- <-. rewrite Hu by done.
    set (q' := set_age (queue s) (mkAge (top (_age (queue s))) (tag (_age (queue s)) + 1))).
    assert (ring_wf N q') as Hw' by (split; simpl; [done | done | lia]).
    assert (Forall (thief_ok N q' []) (thieves s)) as Ht'
      by (eapply thieves_newer; [| exact Ht]; left; simpl; lia).
    assert (holds_at N (_elems q') (top (_age q')) []) as He' by (by intros i x).
    destruct Hcase as [(Hm & -> & _) | [[Hc _] | [_ Hinc]]].
    + destruct Hm as (-> & Hb & _).
      eapply popped_inv; [right; exact Hi | done | done | done | by apply quiet_reset | done].
    + destruct Hc as (-> & -> & Hb & _).
      eapply (popped_inv s es [] [t]); [left; exact Hi | done | done | done | by apply quiet_reset | done].
    + exfalso. by apply (age_lt_ne _ _ (increment_lt (_age (queue s)) Hw2 Hg)).
  - injection Hstep as <- <- <-. destruct Hcase as [(_ & _ & ->) | [[_ ->] | [Hlost Hinc]]]; [done | done |].
    pose proof Hlost as (_ & _ & _ & Hb & _). rewrite Hu by done.
    eapply inv_silent; [exact Hi | done | done | done | | done]. cbn [queue owner owner_ok top tag].
    split_and!; [done | | lia | lia]. rewrite Hinc. by apply reset_lt.
Qed.

Lemma pop_set_inv s es new q p e :
  inv s es -> owner s = PopSet new -> owner_step N (queue s) (owner s) = Some (q, p, e) ->
  inv (mkState q p (thieves s)) (es ++ e).
Proof.
  intros (l & own & Hi) Hp Hstep. pose proof Hi as [Hw He Hl _ _ Hok Ht].
  rewrite Hp in *. destruct Hok as (Hlost & Hlt & Hg). injection Hstep as <- <- <-.
  destruct Hlost as (-> & -> & Hb & Hr & _). destruct Hw as [Hw1 _ _].
  eapply inv_silent; [exact Hi | done | | | |]; cbn [queue owner thieves].
  - by split.
  - by intros i x.
  - destruct new as [tn gn]. by apply quiet_reset.
  - by eapply thieves_newer.
Qed.

Lemma step_inv s es e s' : inv s es -> tags_left s -> step N s e s' -> inv s' (es ++ e).
Proof.
  intros Hi Htag Hs. destruct Hs as [s x Ho | s Ho | s q p e Ho | s i p q p' e Hp Ht].
  - destruct Hi as (l & own & Hi). pose proof Hi as [Hw He _ _ _ Hok Ht]. rewrite Ho in Hok.
    by eapply inv_silent; [exact Hi | done ..].
  - destruct Hi as (l & own & Hi). pose proof Hi as [Hw He _ _ _ Hok Ht]. rewrite Ho in Hok.
    by eapply inv_silent; [exact Hi | done ..].
  - destruct (owner s) as [| x bot | x bot | x bot | x | bot | bot | bot | bot t | bot t | bot t old | new] eqn:Hp;
      rewrite <- Hp in Ho.
    + by rewrite Hp in Ho.
    + by eapply push_top_inv.
    + by eapply push_elem_inv.
    + by eapply push_bottom_inv.
    + destruct Hi as (l & own & [_ _ _ _ _ Hok _]). by rewrite Hp in Hok.
    + by eapply pop_top_inv.
    + by eapply pop_bottom_inv.
    + by eapply pop_elem_inv.
    + by eapply pop_top2_inv.
    + by eapply pop_age_inv.
    + by eapply pop_cas_inv.
    + by eapply pop_set_inv.
  - by eapply thief_inv.
Qed.

Lemma deque_inv_start memory n : Z.of_nat (length memory) = N -> inv (initial memory n) [].
Proof.
  intros Hm. destruct (create_contents lg N Hlg HN memory Hm) as [H1 H2 H3 H4]. exists [], [].
  split; [done | done | done | done | done | by split |]. apply Forall_replicate. done.
Qed.

Lemma run_inv s es s' : run N s es s' -> inv s [] -> inv s' es.
Proof. induction 1 as [| s es s' e s'' Hr IH Htag Hs]; intros Hi; [done |]. eapply step_inv; eauto. Qed.

(** *** What the answers say *)

Lemma quiet_contents s es l own : inv_with N s es l own -> quiet N (queue s) l own -> contents N (queue s) l.
Proof. intros [Hw He Hl _ _ _ _] [-> Hb]. rewrite app_nil_r in Hl. by split. Qed.

Lemma idle_contents s es :
  inv s es -> owner s = Idle ->
  exists l, contents N (queue s) l /\ pushed es ≡ₚ popped es ++ stolen es ++ l /\
    stolen es ++ l `sublist_of` pushed es.
Proof.
  intros (l & own & Hi) Ho. pose proof Hi as [_ _ _ Ha Hs Hok _]. rewrite Ho in Hok.
  exists l. split; [by eapply quiet_contents |]. destruct Hok as [-> _]. by rewrite app_nil_r in *.
Qed.

Lemma empty_answer s es s' : inv s es -> step N s [Empty] s' -> contents N (queue s') [].
Proof.
  intros Hi Hs. destruct Hi as (l & own & Hi). pose proof Hi as [Hw He Hl _ _ Hok _].
  pose proof (N_range lg N Hlg HN). inversion_clear Hs as [| | ? q p e Ho | ? i p q p' e Hp Ht]; simpl.
  - destruct (owner s) as [| x bot | x bot | x bot | x | bot | bot | bot | bot t | bot t | bot t old | new] eqn:Hp;
      cbn [owner_step] in Ho; try done.
    + by repeat case_match; simplify_eq.
    + by destruct (set_elem _ _ _).
    + destruct Hok as [Hq ->]. destruct (Z.eqb_spec (dirty_size N (_bottom (queue s)) (top (_age (queue s)))) 0)
        as [Hz |]; [| by simplify_eq]. injection Ho as <- <-. pose proof (quiet_contents _ _ _ _ Hi Hq) as Hc.
      destruct Hq as [-> Hb]. rewrite app_nil_r in Hl. rewrite Hb, (dirty_ring lg N Hlg HN) in Hz by lia.
      by assert (l = []) as -> by (apply length_zero_iff_nil; lia).
    + by destruct (elem_at _ _).
    + by repeat case_match; simplify_eq.
    + by repeat case_match; simplify_eq.
    + by unfold cmpxchg in Ho; repeat case_match; simplify_eq.
    + injection Ho as <- <-. destruct Hok as ((-> & -> & Hb & Hr & _) & _ & Hg). destruct Hw as [Hw1 _ _].
      split; simpl; [by split | | lia | by intros i x]. rewrite Z.add_0_r, Z.mod_small; done.
  - destruct p as [| old | old | old t]; cbn [thief_step] in Ht; [done | | |].
    + by repeat case_match; simplify_eq.
    + by destruct (elem_at _ _).
    + unfold cmpxchg in Ht. by repeat case_match; simplify_eq.
Qed.

Lemma full_answer s es s' x :
  inv s es -> step N s [Full x] s' -> exists l, contents N (queue s') l /\ Z.of_nat (length l) = N - 2.
Proof.
  intros Hi Hs. destruct Hi as (l & own & Hi). pose proof Hi as [Hw He Hl _ _ Hok _].
  pose proof (N_range lg N Hlg HN). inversion_clear Hs as [| | ? q p e Ho | ? i p q p' e Hp Ht]; simpl.
  - destruct (owner s) as [| y bot | y bot | y bot | y | bot | bot | bot | bot t | bot t | bot t old | new] eqn:Hp;
      cbn [owner_step] in Ho; try done.
    + destruct Hok as [Hq ->]. pose proof (quiet_contents _ _ _ _ Hi Hq) as Hc. destruct Hq as [-> Hb].
      rewrite app_nil_r in Hl. rewrite Hb, (dirty_ring lg N Hlg HN) in Ho by lia. unfold max_elems in Ho.
      destruct (Z.ltb_spec (Z.of_nat (length l)) (N - 2)); [by simplify_eq |].
      destruct (Z.eqb_spec (Z.of_nat (length l)) (N - 1)); [lia |]. injection Ho as <- _ _. exists l. split; [done | lia].
    + by destruct (set_elem _ _ _).
    + by repeat case_match; simplify_eq.
    + by destruct (elem_at _ _).
    + by repeat case_match; simplify_eq.
    + by repeat case_match; simplify_eq.
    + by unfold cmpxchg in Ho; repeat case_match; simplify_eq.
  - destruct p as [| old | old | old t]; cbn [thief_step] in Ht; [done | | |].
    + by repeat case_match; simplify_eq.
    + by destruct (elem_at _ _).
    + unfold cmpxchg in Ht. by repeat case_match; simplify_eq.
Qed.

(** *** Calls end *)

(** The steps that a call still takes at most. *)
Definition owner_left (p : opc E) : Z :=
  match p with
  | Idle => 0
  | PushTop _ _ => 4 | PushSlow _ => 3 | PushElem _ _ => 2 | PushBottom _ _ => 1
  | PopTop _ => 7 | PopBottom _ => 6 | PopElem _ => 5 | PopTop2 _ _ => 4 | PopAge _ _ => 3
  | PopCas _ _ _ => 2 | PopSet _ => 1
  end.
Definition thief_left (p : tpc E) : Z :=
  match p with StealAge => 4 | StealBottom _ => 3 | StealElem _ => 2 | StealCas _ _ => 1 end.

Lemma owner_goes_on s es : inv s es -> owner s <> Idle ->
  exists q p e, owner_step N (queue s) (owner s) = Some (q, p, e) /\ owner_left p < owner_left (owner s).
Proof.
  intros (l & own & [Hw He Hl _ _ Hok _]) Hne. pose proof (r_length _ _ Hw) as Hlen.
  assert (forall b, 0 <= b < N -> exists t, elem_at (queue s) b = Some t) as Hat.
  { intros b Hb. destruct (elem_at_ring lg N Hlg HN (queue s) b Hw) as (t & Ht & _).
    rewrite Z.mod_small in Ht by done. eauto. }
  assert (0 <= _bottom (queue s) < N -> exists t, elem_at (queue s) (_bottom (queue s)) = Some t) as Hbot by auto.
  destruct (owner s) as [| x bot | x bot | x bot | x | bot | bot | bot | bot t | bot t | bot t old | new];
    cbn [owner_step owner_left]; [done | | | | | | | | | | |].
  - destruct (_ <? _); [| destruct (_ =? _)]; eexists _, _, _; (split; [done |]); simpl; lia.
  - destruct Hok as ([_ Hb] & -> & _). destruct Hbot as [t Ht]; [rewrite Hb; by apply (ring_range lg N Hlg HN) |].
    unfold set_elem. rewrite Ht. eexists _, _, _; (split; [done |]); simpl; lia.
  - eexists _, _, _; (split; [done |]); simpl; lia.
  - eexists _, _, _; (split; [done |]); simpl; lia.
  - destruct (_ =? _); eexists _, _, _; (split; [done |]); simpl; lia.
  - eexists _, _, _; (split; [done |]); simpl; lia.
  - destruct (Hat bot) as [t ->].
    + destruct Hok as (t & [(_ & _ & -> & _) | [(_ & _ & _ & ->) | (_ & _ & _ & Hb & _)]]);
        [by apply (ring_range lg N Hlg HN) | apply Hw | done].
    + eexists _, _, _; (split; [done |]); simpl; lia.
  - destruct (_ >? _); eexists _, _, _; (split; [done |]); simpl; lia.
  - destruct (_ =? _); eexists _, _, _; (split; [done |]); simpl; lia.
  - unfold cmpxchg. destruct (decide _); eexists _, _, _; (split; [done |]); simpl; lia.
  - eexists _, _, _; (split; [done |]); simpl; lia.
Qed.

Lemma thief_goes_on s es i p : inv s es -> thieves s !! i = Some p ->
  exists q p' e, thief_step N (queue s) p = Some (q, p', e) /\ (p' = StealAge \/ thief_left p' < thief_left p).
Proof.
  intros (l & own & [Hw He Hl _ _ _ Ht]) Hp. pose proof (proj1 (Forall_lookup _ _) Ht i p Hp) as Hok.
  destruct p as [| old | old | old t]; cbn [thief_step thief_ok] in *.
  - eexists _, _, _. split; [done |]. right. simpl. lia.
  - destruct (_ =? _); eexists _, _, _; (split; [done |]); [by left | right; simpl; lia].
  - destruct Hok as (_ & Hot & _). destruct (elem_at_ring lg N Hlg HN (queue s) (top old) Hw) as (t & Ht' & _).
    rewrite Z.mod_small in Ht' by done. rewrite Ht'. eexists _, _, _. split; [done |]. right. simpl. lia.
  - unfold cmpxchg. eexists _, _, _. split; [done |]. by left.
Qed.

(** C16. Work stealing loses nothing.  Let the owner call [push] and [pop_local] and any number
    of threads [pop_global], their accesses interleaved in any way, until a tag before the
    last.  Then nothing is taken that was not pushed, and nothing twice; the thieves get
    elements in the order in which they were pushed; when the owner is between calls, the
    elements not taken are in the queue, in their order; [push] fails only when [N - 2]
    elements are in the queue, and [pop_local] only when it is empty; and no access is
    out of range, so that every call ends after a few steps of its own, whatever the
    others do. *)
Theorem stealing_race (memory : list E) (n : nat) (es : list (event E)) (s : state E)
    (Hm : Z.of_nat (length memory) = N) (Hr : run N (initial memory n) es s) :
  popped es ++ stolen es ⊆+ pushed es /\ stolen es `sublist_of` pushed es /\
  (owner s = Idle -> exists l, contents N (queue s) l /\ pushed es ≡ₚ popped es ++ stolen es ++ l /\
     stolen es ++ l `sublist_of` pushed es) /\
  (forall s', step N s [Empty] s' -> contents N (queue s') []) /\
  (forall s' x, step N s [Full x] s' -> exists l, contents N (queue s') l /\ Z.of_nat (length l) = N - 2) /\
  (owner s <> Idle -> exists q p e, owner_step N (queue s) (owner s) = Some (q, p, e) /\
     owner_left p < owner_left (owner s)) /\
  (forall i p, thieves s !! i = Some p -> exists q p' e, thief_step N (queue s) p = Some (q, p', e) /\
     (p' = StealAge \/ thief_left p' < thief_left p)).
Proof.
  pose proof (run_inv _ _ _ Hr (deque_inv_start memory n Hm)) as Hi.
  assert (exists l, pushed es ≡ₚ (popped es ++ stolen es) ++ l /\ stolen es ++ l `sublist_of` pushed es)
    as (l & Ha & Hs).
  { destruct Hi as (l & own & [_ _ _ Ha Hs _ _]). exists (l ++ own). by rewrite <- !app_assoc. }
  split_and!.
  - rewrite Ha. by apply submseteq_inserts_r.
  - etrans; [| exact Hs]. by apply sublist_inserts_r.
  - intros Ho. by apply (idle_contents s es).
  - intros s'. by apply (empty_answer s es).
  - intros s' x. by apply (full_answer s es).
  - by apply (owner_goes_on s es).
  - intros i p. by apply (thief_goes_on s es).
Qed.
End Proof.

(** ** Schedules *)

(** The thread that moves next. *)
Inductive move {E : Type} := StartPush (x : E) | StartPop | Owner | Thief (i : nat).

Definition moves {E} (N : Z) (s : state E) (m : move) : option (list (event E) * state E) :=
  match m with
  | StartPush x =>
      match owner s with
      | Idle => Some ([], mkState (queue s) (PushTop x (_bottom (queue s))) (thieves s))
      | _ => None
      end
  | StartPop =>
      match owner s with
      | Idle => Some ([], mkState (queue s) (PopTop (_bottom (queue s))) (thieves s))
      | _ => None
      end
  | Owner => '(q, p, e) ← owner_step N (queue s) (owner s); Some (e, mkState q p (thieves s))
  | Thief i =>
      p ← thieves s !! i;
      '(q, p', e) ← thief_step N (queue s) p;
      Some (e, mkState q (owner s) (<[i := p']> (thieves s)))
  end.

Fixpoint schedule {E} (N : Z) (s : state E) (es : list (event E)) (ms : list move)
    : option (list (event E) * state E) :=
  match ms with
  | [] => Some (es, s)
  | m :: ms =>
    if tag (_age (queue s)) <? 2 ^ 32 - 1 then '(e, s) ← moves N s m; schedule N s (es ++ e) ms else None
  end.

Lemma moves_step {E} N (s : state E) m e s' : moves N s m = Some (e, s') -> step N s e s'.
Proof.
  destruct m as [x | | | i]; cbn [moves].
  - destruct (owner s) eqn:Ho; intros H; simplify_eq. by constructor.
  - destruct (owner s) eqn:Ho; intros H; simplify_eq. by constructor.
  - destruct (owner_step N (queue s) (owner s)) as [[[q p] e'] |] eqn:Ho; intros H; simplify_eq/=. by constructor.
  - destruct (thieves s !! i) as [p |] eqn:Hp; intros H; simplify_eq/=.
    destruct (thief_step N (queue s) p) as [[[q p'] e'] |] eqn:Ht; simplify_eq/=. by econstructor.
Qed.

Lemma schedule_run {E} N (s0 s : state E) es ms es' s' :
  run N s0 es s -> schedule N s es ms = Some (es', s') -> run N s0 es' s'.
Proof.
  revert s es. induction ms as [| m ms IH]; intros s es Hr; simpl; [by intros [= <- <-] |].
  destruct (Z.ltb_spec (tag (_age (queue s))) (2 ^ 32 - 1)) as [Ht | Ht]; [| done].
  destruct (moves N s m) as [[e s1] |] eqn:Hm; simpl; [| done]. apply IH. econstructor; [done | done |].
  by eapply moves_step.
Qed.

(** The owner pushes 7 and 8 and pops; a thief reads the age before the pop, and takes
    the 7 while the owner is on its way. *)
Definition sample_moves : list (move (E := Z)) :=
  [StartPush 7; Owner; Owner; Owner; StartPush 8; Owner; Owner; Owner; Thief 0; StartPop; Owner; Owner;
   Thief 0; Thief 0; Owner; Thief 0; Owner; Owner; Owner].

Lemma stealing_race_witness :
  exists es s, run 4 (initial [0; 0; 0; 0] 2) es s /\ stolen es = [7] /\ popped es = [8] /\
    popped es ++ stolen es ⊆+ pushed es.
Proof.
  destruct (schedule 4 (initial [0; 0; 0; 0] 2) [] sample_moves) as [[es s] |] eqn:Hs; [| vm_compute in Hs; discriminate].
  pose proof (schedule_run 4 _ _ _ _ _ _ (run_refl 4 _) Hs) as Hr.
  destruct (stealing_race 2 4 ltac:(lia) eq_refl [0; 0; 0; 0] 2 es s eq_refl Hr) as [H _].
  exists es, s. split; [exact Hr |]. vm_compute in Hs. injection Hs as He _. rewrite <- He in *.
  split; [reflexivity |]. split; [reflexivity |]. exact H.
Defined.

End TaskQueuePar.
