(* ===== verification/Stealing.v ===== *)
(** * Which queue to steal from

    The random numbers of [TaskQueueSetSuper::randomParkAndMiller] and the loops of
    [GenericTaskQueueSet::steal_best_of_2] and [steal] ([utilities/taskqueue.hpp] and
    [.cpp]) that use them.

    The generator runs through all numbers from 1 to [2 ^ 31 - 2], which is why the
    loops that draw the number of another queue end. *)

From Stdlib Require Import ZArith Lia Znumtheory Zpow_facts.
From stdpp Require Import base numbers list.
From S2P Require Import Prelude TaskQueue.

Local Open Scope Z_scope.

Module Stealing.
Import TaskQueue.

(** ** Powers modulo [m] *)

Section Period.
(** [a] has the inverse [b] modulo [m], its power [m - 1] is 1, and the powers
    [(m - 1) / p] for the prime factors [p] of [m - 1] are not. *)
Context (m a b : Z) (ps : list Z).
Context (Hm : 2 < m) (Hab : (a * b) mod m = 1).
Context (Hone : a ^ (m - 1) mod m = 1).
Context (Hps : forall p, p ∈ ps -> 2 <= p /\ a ^ ((m - 1) / p) mod m <> 1).
Context (Hfac : forall e, 0 < e -> (e | m - 1) -> e <> 1 -> exists p, p ∈ ps /\ (p | e)).

Lemma mul_mod_r x y : (x * (y mod m)) mod m = (x * y) mod m.
Proof. apply Zmult_mod_idemp_r. Qed.

Lemma cancel_a x y : (a * x) mod m = (a * y) mod m -> x mod m = y mod m.
Proof.
  intros H. assert (forall z, (b * (a * z)) mod m = z mod m) as Hb.
  { intros z. rewrite Z.mul_assoc, (Z.mul_comm b), <- Zmult_mod_idemp_l, Hab. by rewrite Z.mul_1_l. }
  rewrite <- (Hb x), <- (Hb y), <- (mul_mod_r b (a * x)), H. apply mul_mod_r.
Qed.

Lemma cancel_pow i x y : 0 <= i -> (a ^ i * x) mod m = (a ^ i * y) mod m -> x mod m = y mod m.
Proof.
  intros Hi. revert x y. pattern i. apply natlike_ind; [| | done].
  - intros x y. by rewrite Z.pow_0_r, !Z.mul_1_l.
  - intros j Hj IH x y. rewrite Z.pow_succ_r by done. rewrite <- !Z.mul_assoc. intros H. by apply IH, cancel_a.
Qed.

Definition unit_at (k : Z) : Prop := 0 <= k /\ a ^ k mod m = 1.

Lemma unit_sub i j : unit_at i -> unit_at (i + j) -> 0 <= j -> unit_at j.
Proof.
  intros [Hi H1] [Hij H2] Hj. split; [done |]. rewrite Z.pow_add_r in H2 by done.
  rewrite <- Zmult_mod_idemp_l, H1, Z.mul_1_l in H2. done.
Qed.

Lemma unit_mul k j : unit_at k -> 0 <= j -> unit_at (k * j).
Proof.
  intros [Hk H] Hj. split; [lia |]. rewrite Z.pow_mul_r by done. rewrite Zpower_mod by lia.
  rewrite H, Z.pow_1_l by done. apply Z.mod_small. lia.
Qed.

Lemma unit_gcd k j : unit_at k -> unit_at j -> unit_at (Z.gcd k j).
Proof.
  intros Hk. revert j. destruct Hk as [Hk0 Hk]. revert Hk.
  pattern k. apply Zlt_0_ind; [| done]. clear k Hk0. intros k IH Hk0 Hk j Hj.
  destruct (decide (k = 0)) as [-> | Hne]; [rewrite Z.gcd_0_l, Z.abs_eq by apply Hj; done |].
  rewrite <- Z.gcd_mod by done. rewrite Z.gcd_comm. rewrite Z.gcd_comm.
  pose proof (Z.mod_pos_bound j k ltac:(lia)) as Hr. destruct Hj as [Hj0 Hj].
  assert (unit_at (j mod k)) as Hu.
  { apply (unit_sub (k * (j / k))); [| | lia].
    - apply unit_mul; [done |]. apply Z.div_pos; lia.
    - by rewrite <- Z.div_mod. }
  destruct Hu as [_ Hu]. apply (IH (j mod k)); [lia | done | done].
Qed.

(** The order of [a] is [m - 1]. *)
Lemma order_full k : 0 < k -> a ^ k mod m = 1 -> (m - 1 | k).
Proof.
  intros Hk H. destruct (unit_gcd k (m - 1)) as [Hg0 Hg]; [by split; [lia |] | by split; [lia |] |].
  pose proof (Z.gcd_divide_l k (m - 1)) as Hgl. pose proof (Z.gcd_divide_r k (m - 1)) as [e He].
  set (g := Z.gcd k (m - 1)) in *. assert (0 < g) as H0 by (assert (g <> 0); [intros Hz; apply Z.gcd_eq_0_l in Hz; lia | lia]).
  clearbody g. assert (0 < e) as H1 by (clear - He Hm H0; nia).
  destruct (decide (e = 1)) as [-> | He1]; [rewrite Z.mul_1_l in He; by rewrite He |]. exfalso.
  destruct (Hfac e H1 ltac:(exists g; clear - He; lia) He1) as (p & Hp & [f Hf]). destruct (Hps p Hp) as [H2 Hne].
  apply Hne. replace ((m - 1) / p) with (g * f); [apply (unit_mul g f); [done | clear - Hf H1 H2; nia] |].
  rewrite He, Hf. replace (f * p * g) with (g * f * p) by lia. rewrite Z.div_mul; lia.
Qed.

Lemma pow_inj i j : 0 <= i < m - 1 -> 0 <= j < m - 1 -> a ^ i mod m = a ^ j mod m -> i = j.
Proof.
  assert (forall i j, 0 <= i -> i < j -> j < m - 1 -> a ^ i mod m = a ^ j mod m -> False) as Hlt.
  { intros i' j' Hi Hij Hj H. replace j' with (i' + (j' - i')) in H by lia. rewrite Z.pow_add_r in H by lia.
    rewrite <- (Z.mul_1_r (a ^ i')) in H at 1. apply cancel_pow in H; [| done].
    rewrite (Z.mod_small 1) in H by lia. pose proof (order_full (j' - i') ltac:(lia) ltac:(done)) as Hz.
    apply Z.divide_pos_le in Hz; lia. }
  intros [Hi Hi'] [Hj Hj'] H. destruct (Z.lt_trichotomy i j) as [Hl | [Hl | Hl]]; [| done |].
  - exfalso. by apply (Hlt i j).
  - exfalso. by apply (Hlt j i).
Qed.

Lemma pow_range i : 0 <= i -> 1 <= a ^ i mod m < m.
Proof.
  intros Hi. pose proof (Z.mod_pos_bound (a ^ i) m ltac:(lia)) as Hr.
  assert (a ^ i mod m <> 0); [| lia]. intros H0. assert (1 mod m = 0 mod m) as H1.
  { apply (cancel_pow i); [done |]. by rewrite Z.mul_1_r, Z.mul_0_r, H0, Z.mod_0_l by lia. }
  rewrite Z.mod_0_l, Z.mod_small in H1; lia.
Qed.

(** Every number is a power. *)
Lemma pow_onto x : 1 <= x < m -> exists i, 0 <= i < m - 1 /\ a ^ i mod m = x.
Proof.
  intros Hx. set (n := Z.to_nat (m - 1)). assert (Z.of_nat n = m - 1) as Hn by lia. clearbody n.
  set (l := (fun i => a ^ i mod m) <$> zseq 0 n).
  assert (zseq 1 n ⊆+ l) as Hsub; cycle 1.
  { assert (x ∈ l) as Hin by (eapply elem_of_submseteq; [| exact Hsub]; apply elem_of_zseq; lia).
    apply list_elem_of_fmap in Hin as (i & -> & Hi). apply elem_of_zseq in Hi. exists i. split; [lia | done]. }
  assert (l ≡ₚ zseq 1 n) as ->; [| done].
  apply submseteq_length_Permutation; [| unfold l; rewrite length_fmap, !length_zseq; lia].
  apply NoDup_submseteq.
  - unfold l. apply NoDup_fmap_2_strong; [| apply NoDup_zseq]. intros i j Hi Hj. apply elem_of_zseq in Hi, Hj.
    apply pow_inj; lia.
  - intros y Hy. apply list_elem_of_fmap in Hy as (i & -> & Hi). apply elem_of_zseq in Hi.
    pose proof (pow_range i ltac:(lia)). apply elem_of_zseq. lia.
Qed.

(** From every number the powers of [a] lead to every other one. *)
Lemma orbit x y : 1 <= x < m -> 1 <= y < m -> exists k, 0 < k < m /\ (a ^ k * x) mod m = y.
Proof.
  intros Hx Hy. destruct (pow_onto x Hx) as (i & Hi & <-). destruct (pow_onto y Hy) as (j & Hj & <-).
  clear Hx Hy. assert (0 <= m - 1) as Hm1 by (clear - Hm; lia).
  destruct (Z.ltb_spec i j) as [Hij | Hij].
  - exists (j - i). split; [clear - Hi Hj Hij; lia |]. rewrite mul_mod_r, <- Z.pow_add_r by (clear - Hi Hij; lia).
    do 2 f_equal. clear. lia.
  - exists (j - i + (m - 1)). split; [clear - Hi Hj Hij; lia |].
    rewrite mul_mod_r, <- Z.pow_add_r by (clear - Hi Hj; lia).
    replace (j - i + (m - 1) + i) with (j + (m - 1)) by (clear; lia). rewrite Z.pow_add_r by (clear - Hj Hm1; lia).
    rewrite <- mul_mod_r, Hone. by rewrite Z.mul_1_r.
Qed.
End Period.

(** ** The generator *)

Definition pm_primes : list Z := [2; 3; 7; 11; 31; 151; 331].

Lemma small_prime p : forallb (fun n => negb (p mod n =? 0)) (zseq 2 (Z.to_nat (p - 2))) = true -> 1 < p -> Z.prime p.
Proof.
  intros H Hp. split; [done |]. intros n Hn Hd. rewrite forallb_forall in H. specialize (H n).
  rewrite <- list_elem_of_In, elem_of_zseq in H. specialize (H ltac:(lia)).
  apply Z.mod_divide in Hd; [| lia]. by rewrite Hd in H.
Qed.

Lemma pm_primes_prime p : p ∈ pm_primes -> Z.prime p.
Proof.
  intros Hp. repeat (apply elem_of_cons in Hp as [-> | Hp]; [by apply small_prime |]).
  by apply elem_of_nil in Hp.
Qed.

Lemma pm_factors e : 0 < e -> (e | pm_m - 1) -> e <> 1 -> exists p, p ∈ pm_primes /\ (p | e).
Proof.
  intros He Hd Hne. assert (forall p, p ∈ pm_primes -> e mod p = 0 <-> (p | e)) as Hdiv.
  { intros p Hp. apply Z.mod_divide. pose proof (Z.prime_ge_2 p (pm_primes_prime p Hp)). lia. }
  destruct (decide (Exists (fun p => e mod p = 0) pm_primes)) as [Hex | Hno].
  { apply Exists_exists in Hex as (p & Hp & H). exists p. by rewrite <- Hdiv. }
  exfalso. apply Hne. assert (forall p k, p ∈ pm_primes -> (e | p * k) -> (e | k)) as Hg.
  { intros p k Hp Hdk. apply (Z.gauss e p k); [done |]. rewrite Z.gcd_comm.
    apply Z.coprime_prime_l; [by apply pm_primes_prime |]. intros Hpe. apply Hno. apply Exists_exists. exists p. by rewrite Hdiv. }
  assert (e | 1) as H1.
  { apply (Hg 331), (Hg 151), (Hg 31), (Hg 11), (Hg 7), (Hg 3), (Hg 3), (Hg 2); [unfold pm_primes; rewrite !elem_of_cons; tauto .. | exact Hd]. }
  apply Z.divide_1_r in H1. lia.
Qed.

(** From every seed the generator comes to every number. *)
Lemma pm_orbit x y : 1 <= x < pm_m -> 1 <= y < pm_m -> exists k, 0 < k < pm_m /\ (pm_a ^ k * x) mod pm_m = y.
Proof.
  apply (orbit pm_m pm_a 1407677000 pm_primes).
  - by vm_compute.
  - by vm_compute.
  - rewrite <- Zpow_mod_correct by done. by vm_compute.
  - intros p Hp. rewrite <- Zpow_mod_correct by done.
    repeat (apply elem_of_cons in Hp as [-> | Hp]; [by vm_compute |]). by apply elem_of_nil in Hp.
  - apply pm_factors.
Qed.

(** The method of Schrage: no product overflows. *)
Lemma pm_step seed : 0 < seed < pm_m ->
  randomParkAndMiller seed = (pm_a * seed) mod pm_m /\ 0 < randomParkAndMiller seed < pm_m.
Proof.
  intros Hs. assert ((pm_a * seed) mod pm_m <> 0) as Hne.
  { intros H0. assert ((1407677000 * (pm_a * seed)) mod pm_m = 0) as H
      by (rewrite <- Zmult_mod_idemp_r, H0; done).
    replace (1407677000 * (pm_a * seed)) with (seed + (11017 * seed) * pm_m) in H by (unfold pm_a, pm_m; lia).
    rewrite Z.mod_add, Z.mod_small in H; [lia | lia | done]. }
  unfold randomParkAndMiller. rewrite Z.quot_div_nonneg, Z.rem_mod_nonneg by (unfold pm_q; lia).
  assert (pm_a * seed = pm_m * (seed / pm_q) + (pm_a * (seed mod pm_q) - pm_r * (seed / pm_q))) as Heq
    by (unfold pm_a, pm_m, pm_q, pm_r; lia).
  assert (0 <= pm_a * (seed mod pm_q) < pm_m /\ 0 <= pm_r * (seed / pm_q) < pm_m) as [H1 H2]
    by (unfold pm_a, pm_m, pm_q, pm_r in *; lia).
  unfold pm_m in H1, H2. rewrite (swrap_small 32 (pm_a * _)) by lia. rewrite (swrap_small 32 (pm_r * _)) by lia.
  rewrite swrap_small by lia.
  set (test := pm_a * (seed mod pm_q) - pm_r * (seed / pm_q)) in *.
  assert ((pm_a * seed) mod pm_m = test mod pm_m) as Hmod
    by (rewrite Heq, Z.add_comm, Z.mul_comm, Z.mod_add; done).
  rewrite Hmod in *. assert (- pm_m < test < pm_m) as Ht by (unfold test, pm_m; clear - H1 H2; lia).
  rewrite Z.gtb_ltb. destruct (Z.ltb_spec 0 test) as [Hp | Hp].
  - rewrite Z.mod_small by lia. split; [done | lia].
  - assert (test <> 0) by (intros H0; rewrite H0 in Hne; done).
    rewrite swrap_small by (unfold pm_m in *; lia).
    split; [| lia]. apply Z.mod_unique with (q := -1); lia.
Qed.

(** ** Drawing another queue *)

Lemma draw_reaches n skip v : 0 < n -> skip (v mod n) = false -> forall (j : nat) k seed,
  0 < seed < pm_m -> (0 < j)%nat -> (pm_a ^ Z.of_nat j * seed) mod pm_m = v ->
  exists i k' seed', (i <= j)%nat /\ after_turns (draw_turn n skip) i (k, seed) = Some (k', seed') /\
    skip k' = false /\ 0 < seed' < pm_m /\ (i = O /\ k' = k \/ k' = seed' mod n).
Proof.
  intros Hn Hv. induction j as [| j IH]; intros k seed Hs Hj Hp; [lia |].
  destruct (skip k) eqn:Hk; [| exists O, k, seed; split_and!; (done || lia || by left)].
  destruct (pm_step seed Hs) as [Heq Hr]. set (s1 := randomParkAndMiller seed) in *.
  assert (u32 s1 = s1) as Hu by (apply wrap_small; unfold pm_m in Hr; lia).
  assert ((pm_a ^ Z.of_nat j * s1) mod pm_m = v) as Hp'.
  { rewrite Heq, Zmult_mod_idemp_r, <- Hp. f_equal. rewrite Nat2Z.inj_succ, Z.pow_succ_r by lia. ring. }
  assert (draw_turn n skip (k, seed) = inl (s1 mod n, s1)) as Hturn
    by (unfold draw_turn; rewrite Hk; fold s1; by rewrite Hu).
  destruct (decide (j = O)) as [-> | Hj0].
  - rewrite Z.pow_0_r, Z.mul_1_l, Z.mod_small in Hp' by lia. exists 1%nat, (s1 mod n), s1. cbn [after_turns]. rewrite Hturn.
    split_and!; [lia | done | by rewrite Hp' | lia | lia | by right].
  - destruct (IH (s1 mod n) s1 Hr ltac:(lia) Hp') as (i & k' & seed' & Hi & Hrun & Hskip & Hs' & Hk').
    exists (S i), k', seed'. cbn [after_turns]. rewrite Hturn. split_and!; [lia | done | done | apply Hs' .. |].
    right. destruct Hk' as [[-> ->] | ->]; [| done]. simpl in Hrun. by injection Hrun as ->.
Qed.

Lemma draw_ends fuel n skip k seed :
  (31 <= fuel)%nat -> 3 <= n -> 0 < seed < pm_m -> (exists v, 1 <= v <= 3 /\ skip (v mod n) = false) ->
  exists k' seed', draw fuel n skip k seed = Some (k', seed') /\ skip k' = false /\ 0 < seed' < pm_m /\
    (k' = k \/ 0 <= k' < n).
Proof.
  intros Hf Hn Hs (v & Hv & Hskip).
  destruct (pm_orbit seed v) as (j & Hj & Hp); [lia | unfold pm_m; lia |].
  destruct (draw_reaches n skip v ltac:(lia) Hskip (Z.to_nat j) k seed Hs) as (i & k' & seed' & Hi & Hrun & Hk & Hs' & Hc).
  { lia. }
  { by rewrite Z2Nat.id by lia. }
  exists k', seed'. unfold draw. rewrite (while_pow_ends fuel _ i _ _ (k', seed') Hrun).
  - split_and!; [done | done | apply Hs' .. |]. destruct Hc as [[_ ->] | ->]; [by left | right].
    apply Z.mod_pos_bound. lia.
  - unfold draw_turn. by rewrite Hk.
  - apply Nat2Z.inj_lt. rewrite Nat2Z.inj_pow. change (Z.of_nat 2) with 2.
    apply Z.lt_le_trans with (2 ^ 31); [unfold pm_m in Hj; lia |]. apply Z.pow_le_mono_r; lia.
Qed.

(** Two of three numbers that differ modulo [n] cannot be excluded all. *)
Lemma another n q k : 3 <= n -> exists v, 1 <= v <= 3 /\ (v mod n =? q) || (v mod n =? k) = false.
Proof.
  intros Hn. assert (1 mod n = 1 /\ 2 mod n = 2) as [H1 H2] by (rewrite !Z.mod_small; lia).
  assert (3 mod n = 3 \/ 3 mod n = 0) as H3.
  { destruct (decide (n = 3)) as [-> |]; [by right |]. left. rewrite Z.mod_small; lia. }
  destruct (decide (1 = q \/ 1 = k)) as [E1 | E1]; [destruct (decide (2 = q \/ 2 = k)) as [E2 | E2] |].
  - exists 3. split; [lia |]. clear H1 H2.
    destruct H3 as [-> | ->]; [destruct (Z.eqb_spec 3 q), (Z.eqb_spec 3 k) | destruct (Z.eqb_spec 0 q), (Z.eqb_spec 0 k)];
      simpl; done || (exfalso; lia).
  - exists 2. rewrite H2. split; [lia |]. destruct (Z.eqb_spec 2 q), (Z.eqb_spec 2 k); simpl; done || (exfalso; tauto).
  - exists 1. rewrite H1. split; [lia |]. destruct (Z.eqb_spec 1 q), (Z.eqb_spec 1 k); simpl; done || (exfalso; tauto).
Qed.

(** ** Stealing from a set *)

Section Sets.
Context (lg N : Z) (Hlg : 2 <= lg <= 31) (HN : N = 2 ^ lg) {E : Type}.
Context (fuel : nat) (Hfuel : (31 <= fuel)%nat).
Implicit Types (qs : list (GenericTaskQueue E)) (ls : list (list E)).

(** The queues of a set with their elements. *)
Definition holds qs ls : Prop := Forall2 (contents N) qs ls.

(** Nothing, or the first element of the queue of another thread. *)
Definition stolen_from (queue_num : Z) qs ls (t : option E) qs' : Prop :=
  match t with
  | None => qs' = qs
  | Some x => exists k l, Z.of_nat k <> queue_num /\ ls !! k = Some (x :: l) /\ holds qs' (<[k := l]> ls)
  end.

Lemma pop_from_spec queue_num qs ls k :
  holds qs ls -> 0 <= k < Z.of_nat (length qs) -> k <> queue_num ->
  exists t qs', pop_from N qs k = Some (t, qs') /\ stolen_from queue_num qs ls t qs'.
Proof.
  intros Hh Hk Hne. unfold pop_from, queue_at.
  destruct (lookup_lt_is_Some_2 qs (Z.to_nat k)) as [q Hq]; [lia |].
  destruct (Forall2_lookup_l _ _ _ _ _ Hh Hq) as (l & Hl & Hc). rewrite Hq. cbn [mbind option_bind].
  pose proof (pop_global_contents lg N Hlg HN q l Hc) as Hp. destruct l as [| x l].
  - rewrite Hp. cbn [mbind option_bind]. exists None, (<[Z.to_nat k := q]> qs). split; [done |].
    simpl. by apply list_insert_id.
  - destruct Hp as (q' & -> & Hc'). cbn [mbind option_bind]. eexists (Some x), _. split; [done |].
    exists (Z.to_nat k), l. split_and!; [lia | done |]. by apply Forall2_insert.
Qed.

Lemma steal_best_of_2_spec queue_num seed qs ls :
  holds qs ls -> 0 <= queue_num < Z.of_nat (length qs) -> 0 < seed < pm_m ->
  exists t seed' qs', steal_best_of_2 N fuel qs queue_num seed = Some (t, seed', qs') /\
    0 < seed' < pm_m /\ stolen_from queue_num qs ls t qs'.
Proof.
  intros Hh Hq Hs. unfold steal_best_of_2. set (n := Z.of_nat (length qs)) in *. rewrite Z.gtb_ltb.
  destruct (Z.ltb_spec 2 n).
  - destruct (draw_ends fuel n (fun k => k =? queue_num) queue_num seed) as (k1 & s1 & -> & Hk1 & Hs1 & Hr1);
      [done | lia | done | |].
    { destruct (another n queue_num queue_num ltac:(lia)) as (v & Hv & H'). exists v. split; [done |].
      apply orb_false_iff in H' as [H' _]. exact H'. }
    apply Z.eqb_neq in Hk1. cbn [mbind option_bind].
    destruct (draw_ends fuel n (fun k => (k =? queue_num) || (k =? k1)) queue_num s1) as (k2 & s2 & -> & Hk2 & Hs2 & Hr2);
      [done | lia | done | by apply another; lia |].
    apply orb_false_iff in Hk2 as [Hk2 Hk12]. apply Z.eqb_neq in Hk2. cbn [mbind option_bind].
    destruct Hr1 as [? | Hr1]; [done |]. destruct Hr2 as [? | Hr2]; [done |]. unfold queue_at.
    destruct (lookup_lt_is_Some_2 qs (Z.to_nat k1)) as [q1 ->]; [lia |].
    destruct (lookup_lt_is_Some_2 qs (Z.to_nat k2)) as [q2 ->]; [lia |]. cbn [mbind option_bind].
    destruct (pop_from_spec queue_num qs ls (if size N q2 >? size N q1 then k2 else k1)) as (t & qs' & -> & Ht);
      [done | destruct (_ >? _); lia | by destruct (_ >? _) |].
    cbn [mbind option_bind]. eauto 10.
  - destruct (Z.eqb_spec n 2) as [Hn | Hn].
    + assert (u32 (queue_num + 1) mod 2 = 1 - queue_num) as -> by (rewrite wrap_small by lia; lia).
      destruct (pop_from_spec queue_num qs ls (1 - queue_num)) as (t & qs' & -> & Ht); [done | lia | lia |].
      cbn [mbind option_bind]. eauto 10.
    + exists None, seed, qs. done.
Qed.

(** C26. Stealing ends and steals.  For a thread of the set, with any valid seed: the loops that draw
    numbers of other queues end, whatever the number of queues, within [2 ^ 31] turns; the result is nothing,
    and no queue has changed, or the first element of the queue of another thread, which
    is removed from it; and the seed stays valid. *)
Theorem steal_spec (queue_num seed : Z) (qs : list (GenericTaskQueue E)) (ls : list (list E))
    (Hh : holds qs ls) (Hq : 0 <= queue_num < Z.of_nat (length qs)) (Hs : 0 < seed < pm_m) :
  exists t seed' qs', steal N fuel qs queue_num seed = Some (t, seed', qs') /\
    0 < seed' < pm_m /\ stolen_from queue_num qs ls t qs'.
Proof.
  unfold steal. generalize (2 * length qs)%nat. intros turns. revert seed Hs.
  induction turns as [| turns IH]; intros seed Hs; cbn [steal_loop]; [by exists None, seed, qs |].
  destruct (steal_best_of_2_spec queue_num seed qs ls Hh Hq Hs) as (t & s1 & qs1 & -> & Hs1 & Ht).
  cbn [mbind option_bind]. destruct t as [x |]; [by exists (Some x), s1, qs1 |].
  simpl in Ht. subst qs1. by apply IH.
Qed.
End Sets.

(** C37. The random numbers: for a seed in [1, 2 ^ 31 - 2] the code computes
    [16807 * seed] modulo [2 ^ 31 - 1] without overflow of the type [int], the result is
    again a seed, and every number of the range comes up. *)
Theorem park_miller_spec (seed v : Z) (Hs : 0 < seed < pm_m) (Hv : 0 < v < pm_m) :
  randomParkAndMiller seed = (16807 * seed) mod (2 ^ 31 - 1) /\ 0 < randomParkAndMiller seed < 2 ^ 31 - 1 /\
  i32 (pm_a * Z.rem seed pm_q) = pm_a * Z.rem seed pm_q /\ i32 (pm_r * Z.quot seed pm_q) = pm_r * Z.quot seed pm_q /\
  exists k, Nat.iter k randomParkAndMiller seed = v.
Proof.
  destruct (pm_step seed Hs) as [H1 H2]. split_and!; [done | apply H2 .. | | |].
  - rewrite Z.rem_mod_nonneg by (unfold pm_q; lia). apply swrap_small; unfold pm_a, pm_q; lia.
  - rewrite Z.quot_div_nonneg by (unfold pm_q; lia). apply swrap_small; unfold pm_r, pm_q, pm_m in *; lia.
  - destruct (pm_orbit seed v) as (j & Hj & Hp); [lia | lia |]. exists (Z.to_nat j).
    assert (forall i : nat, Nat.iter i randomParkAndMiller seed = (pm_a ^ Z.of_nat i * seed) mod pm_m /\
      0 < Nat.iter i randomParkAndMiller seed < pm_m) as Hit.
    { intros i. induction i as [| i [IH1 IH2]]; cbn [Nat.iter nat_rect].
      - rewrite Z.pow_0_r, Z.mul_1_l, Z.mod_small by lia. done.
      - change (nat_rect _ _ _ i) with (Nat.iter i randomParkAndMiller seed) in *.
        destruct (pm_step _ IH2) as [Hi1 Hi2]. split; [| done]. rewrite Hi1, IH1, Zmult_mod_idemp_r.
        f_equal. rewrite Nat2Z.inj_succ, Z.pow_succ_r by lia. ring. }
    rewrite (proj1 (Hit _)), Z2Nat.id by lia. done.
Qed.

(** Three queues; the thread of the first one steals from the third. *)
Definition sample_queues : list (GenericTaskQueue Z) :=
  [create [0; 0; 0; 0]; mkQueue 1 (mkAge 0 0) [9; 0; 0; 0]; mkQueue 2 (mkAge 0 0) [7; 8; 0; 0]].

Lemma steal_spec_witness :
  exists seed qs, steal 4 31 sample_queues 0 17 = Some (Some 7, seed, qs).
Proof.
  destruct (steal_spec 2 4 ltac:(lia) eq_refl 31 ltac:(lia) 0 17 sample_queues [[]; [9]; [7; 8]])
    as (t & seed & qs & H & _).
  - repeat constructor; try (simpl; lia); intros i x Hx; repeat (destruct i as [| i]; [by injection Hx as <- |]); done.
  - by vm_compute.
  - by vm_compute.
  - exists seed, qs. assert (t = Some 7) as <-; [| exact H].
    assert (option_map (fun r => r.1.1) (steal 4 31 sample_queues 0 17) = Some (Some 7)) as Hv by (vm_compute; reflexivity).
    rewrite H in Hv. by injection Hv.
Defined.

Lemma park_miller_spec_witness :
  randomParkAndMiller 127774 = (16807 * 127774) mod (2 ^ 31 - 1) /\
  exists k, Nat.iter k randomParkAndMiller 127774 = 1.
Proof.
  destruct (park_miller_spec 127774 1) as (H & _ & _ & _ & Hk).
  - by vm_compute.
  - by vm_compute.
  - by split.
Defined.

End Stealing.
