(* ===== verification/Stack.v ===== *)
(** * Stacks of segments

    [utilities/stack.hpp] and [stack.inline.hpp]: a stack in a chain of segments of the C heap,
    which keeps some of the segments it has emptied in a cache.  The segments are part of
    the state; the allocator of the C heap is a parameter.  The limit on the size, which only an assertion
    of [push] tests, is left out. *)

From Stdlib Require Import ZArith Lia.
From stdpp Require Import base numbers gmap sets list.
From S2P Require Import Prelude GlobalDefs.

Local Open Scope Z_scope.

Module Stack.

Section Operations.
Context {E : Type}.

(** A segment: the elements, then the link to the previous segment. *)
Record segment := mkSegment { elements : list E; seg_link : Z }.

Record Stack := mkStack {
  _seg_size : Z;
  _max_size : Z;
  _max_cache_size : Z;
  _cur_seg_size : Z;
  _full_seg_size : Z;
  _cache_size : Z;
  _cur_seg : Z;
  _cache : Z;
  segs : gmap Z segment
}.

Implicit Types s : Stack.

Definition set_cur_seg_size s (v : Z) : Stack :=
  mkStack (_seg_size s) (_max_size s) (_max_cache_size s) v (_full_seg_size s) (_cache_size s) (_cur_seg s)
    (_cache s) (segs s).
Definition set_full_seg_size s (v : Z) : Stack :=
  mkStack (_seg_size s) (_max_size s) (_max_cache_size s) (_cur_seg_size s) v (_cache_size s) (_cur_seg s)
    (_cache s) (segs s).
Definition set_cache s (c size : Z) : Stack :=
  mkStack (_seg_size s) (_max_size s) (_max_cache_size s) (_cur_seg_size s) (_full_seg_size s) size (_cur_seg s)
    c (segs s).
Definition set_cur_seg s (v : Z) : Stack :=
  mkStack (_seg_size s) (_max_size s) (_max_cache_size s) (_cur_seg_size s) (_full_seg_size s) (_cache_size s) v
    (_cache s) (segs s).
Definition set_segs s (m : gmap Z segment) : Stack :=
  mkStack (_seg_size s) (_max_size s) (_max_cache_size s) (_cur_seg_size s) (_full_seg_size s) (_cache_size s)
    (_cur_seg s) (_cache s) m.

(** [adjust_max_size] *)
Definition adjust_max_size (max_size seg_size : Z) : Z :=
  let limit := u64 (2 ^ 64 - 1 - (seg_size - 1)) in
  let max_size := if (max_size =? 0) || (max_size >? limit) then limit else max_size in
  u64 (u64 (max_size + seg_size - 1) / seg_size * seg_size).

(** [adjust_segment_size] and [default_segment_size] for elements of [elem_sz] bytes. *)
Definition adjust_segment_size (elem_sz seg_size : Z) : Z :=
  let ptr_sz := 8 in
  if elem_sz <? ptr_sz then align_size_up (u64 (seg_size * elem_sz)) ptr_sz / elem_sz else seg_size.
Definition default_segment_size (elem_sz : Z) : Z := (4096 - 2 * 8) / elem_sz.

Definition reset (reset_cache : bool) s : Stack :=
  let s := set_cur_seg_size s (_seg_size s) in
  let s := set_full_seg_size s 0 in
  let s := set_cur_seg s NULL in
  if reset_cache then set_cache s NULL 0 else s.

(** The constructor; [reset] sets the fields that have no initialiser. *)
Definition create (elem_sz segment_size max_cache_size max_size : Z) : Stack :=
  let seg_size := adjust_segment_size elem_sz segment_size in
  reset true (mkStack seg_size (adjust_max_size max_size seg_size) max_cache_size 0 0 0 NULL NULL ∅).

Definition is_empty s : bool := _cur_seg s =? NULL.
Definition is_full s : bool := _full_seg_size s >=? _max_size s.
Definition size s : Z := if is_empty s then 0 else u64 (_full_seg_size s + _cur_seg_size s).

(** [get_link(seg)] and [set_link(new_seg, old_seg)] *)
Definition get_link (seg : Z) : M Stack Z := fun s =>
  g ← segs s !! seg; Some (seg_link g, s).
Definition set_link (new_seg old_seg : Z) : M Stack Z := fun s =>
  g ← segs s !! new_seg; Some (new_seg, set_segs s (<[new_seg := mkSegment (elements g) old_seg]> (segs s))).

(** [seg[i]] and [seg[i] = e] *)
Definition elem_at (seg i : Z) : M Stack E := fun s =>
  g ← segs s !! seg;
  if 0 <=? i then e ← elements g !! Z.to_nat i; Some (e, s) else None.
Definition set_elem (seg i : Z) (e : E) : M Stack unit := fun s =>
  g ← segs s !! seg;
  if (0 <=? i) && (i <? Z.of_nat (length (elements g))) then
    Some (tt, set_segs s (<[seg := mkSegment (<[Z.to_nat i := e]> (elements g)) (seg_link g)]> (segs s)))
  else None.

(** [free(seg)] *)
Definition free (seg : Z) : M Stack unit := fun s =>
  _ ← segs s !! seg; Some (tt, set_segs s (delete seg (segs s))).

(** The allocator: the address of the new segment, and what its memory holds. *)
Context (AllocateHeap : gmap Z segment -> Z) (junk : Z -> Z -> segment).

Definition alloc : M Stack Z := fun s =>
  let p := AllocateHeap (segs s) in
  Some (p, set_segs s (<[p := junk (_seg_size s) p]> (segs s))).

Definition push_segment : M Stack unit :=
  s ← get;
  next ← (if _cache_size s >? 0 then
            let next := _cache s in
            c ← get_link next;
            modify (fun s => set_cache s c (u64 (_cache_size s - 1)));;
            mret next
          else alloc);
  let at_empty_transition := is_empty s in
  c ← set_link next (_cur_seg s);
  modify (fun s => set_cur_seg s c);;
  modify (fun s => set_cur_seg_size s 0);;
  modify (fun s => set_full_seg_size s (u64 (_full_seg_size s + (if at_empty_transition then 0 else _seg_size s)))).

Definition pop_segment : M Stack unit :=
  s ← get;
  prev ← get_link (_cur_seg s);
  (if _cache_size s <? _max_cache_size s then
     c ← set_link (_cur_seg s) (_cache s);
     modify (fun s => set_cache s c (u64 (_cache_size s + 1)))
   else free (_cur_seg s));;
  let at_empty_transition := prev =? NULL in
  modify (fun s => set_cur_seg s prev);;
  modify (fun s => set_cur_seg_size s (_seg_size s));;
  modify (fun s => set_full_seg_size s (u64 (_full_seg_size s - (if at_empty_transition then 0 else _seg_size s)))).

Definition push (item : E) : M Stack unit :=
  s ← get;
  when (_cur_seg_size s =? _seg_size s) push_segment;;
  s ← get;
  set_elem (_cur_seg s) (_cur_seg_size s) item;;
  modify (fun s => set_cur_seg_size s (u64 (_cur_seg_size s + 1))).

Definition pop : M Stack E :=
  s ← get;
  if _cur_seg_size s =? 1 then
    modify (fun s => set_cur_seg_size s (u64 (_cur_seg_size s - 1)));;
    tmp ← elem_at (_cur_seg s) 0;
    pop_segment;;
    mret tmp
  else
    modify (fun s => set_cur_seg_size s (u64 (_cur_seg_size s - 1)));;
    s ← get;
    elem_at (_cur_seg s) (_cur_seg_size s).

(** [free_segments]; the fuel is the number of segments. *)
Fixpoint free_loop (fuel : nat) (seg : Z) : M Stack unit :=
  match fuel with
  | O => stuck
  | S fuel =>
    if negb (seg =? NULL) then
      prev ← get_link seg;
      free seg;;
      free_loop fuel prev
    else mret tt
  end.
Definition free_segments (seg : Z) : M Stack unit := s ← get; free_loop (S (length (map_to_list (segs s)))) seg.

Definition clear (clear_cache : bool) : M Stack unit :=
  s ← get;
  free_segments (_cur_seg s);;
  when clear_cache (free_segments (_cache s));;
  modify (reset clear_cache).

(** ** Iterators *)

Record StackIterator := mkIterator { it_cur_seg_size : Z; it_cur_seg : Z; it_full_seg_size : Z }.

Definition sync s : StackIterator := mkIterator (_cur_seg_size s) (_cur_seg s) (_full_seg_size s).
Definition it_is_empty (it : StackIterator) : bool := it_cur_seg it =? NULL.

(** The element at [next_addr()], and the iterator after it. *)
Definition next (it : StackIterator) : M Stack (E * StackIterator) :=
  s ← get;
  if it_cur_seg_size it =? 1 then
    e ← elem_at (it_cur_seg it) 0;
    l ← get_link (it_cur_seg it);
    mret (e, mkIterator (_seg_size s) l (u64 (it_full_seg_size it - _seg_size s)))
  else
    let i := u64 (it_cur_seg_size it - 1) in
    e ← elem_at (it_cur_seg it) i;
    mret (e, mkIterator i (it_cur_seg it) (it_full_seg_size it)).

(** The elements that a loop over the iterator visits. *)
Fixpoint iterate (fuel : nat) (it : StackIterator) : M Stack (list E) :=
  match fuel with
  | O => stuck
  | S fuel =>
    if it_is_empty it then mret []
    else
      '(e, it) ← next it;
      l ← iterate fuel it;
      mret (e :: l)
  end.

End Operations.
Arguments segment : clear implicits.
Arguments Stack : clear implicits.


Section Proofs.
Context {E : Type}.
Context (AllocateHeap : gmap Z (segment E) -> Z) (junk : Z -> Z -> segment E).
Context (sz : Z) (Hsz : 0 < sz < 2 ^ 63).
Context (Halloc : forall m, AllocateHeap m <> NULL /\ m !! AllocateHeap m = None).
Context (Hjunk : forall p, Z.of_nat (length (elements (junk sz p))) = sz).
Implicit Types (s : Stack E) (m : gmap Z (segment E)) (l : list E).

(** ** Chains of segments *)

Inductive chain m : Z -> list Z -> Prop :=
| chain_nil : chain m NULL []
| chain_cons p g ps :
    p <> NULL -> m !! p = Some g -> Z.of_nat (length (elements g)) = sz ->
    chain m (seg_link g) ps -> chain m p (p :: ps).

Definition elems_of m (p : Z) : list E := match m !! p with Some g => elements g | None => [] end.
(** The elements of full segments, the last one first. *)
Definition below m (ps : list Z) : list E := ps ≫= (fun p => reverse (elems_of m p)).

Lemma chain_insert m p g q ps : p ∉ ps -> chain m q ps -> chain (<[p := g]> m) q ps.
Proof.
  intros Hp Hc. induction Hc as [| q g' ps Hq Hg Hl Hc IH]; [constructor |].
  apply not_elem_of_cons in Hp as [Hne Hp]. econstructor; [done | | done | auto]. by rewrite lookup_insert_ne.
Qed.

Lemma chain_delete m p q ps : p ∉ ps -> chain m q ps -> chain (delete p m) q ps.
Proof.
  intros Hp Hc. induction Hc as [| q g' ps Hq Hg Hl Hc IH]; [constructor |].
  apply not_elem_of_cons in Hp as [Hne Hp]. econstructor; [done | | done | auto]. by rewrite lookup_delete_ne.
Qed.

Lemma chain_in m q ps p : chain m q ps -> p ∈ ps -> exists g, m !! p = Some g.
Proof. intros Hc. induction Hc; intros H'; [by apply elem_of_nil in H' |]. apply elem_of_cons in H' as [-> |]; eauto. Qed.

Lemma elems_of_insert m p g q : p <> q -> elems_of (<[p := g]> m) q = elems_of m q.
Proof. intros Hne. unfold elems_of. by rewrite lookup_insert_ne. Qed.

Lemma below_insert m p g ps : p ∉ ps -> below (<[p := g]> m) ps = below m ps.
Proof.
  intros Hp. unfold below. induction ps as [| q ps IH]; [done |]. apply not_elem_of_cons in Hp as [Hne Hp].
  cbn [mbind list_bind]. by rewrite elems_of_insert, IH.
Qed.

Lemma below_delete m p ps : p ∉ ps -> below (delete p m) ps = below m ps.
Proof.
  intros Hp. unfold below, elems_of. induction ps as [| q ps IH]; [done |]. apply not_elem_of_cons in Hp as [Hne Hp].
  cbn [mbind list_bind]. by rewrite lookup_delete_ne, IH.
Qed.

(** The stack with the elements [l], the last one first, in the segments [ps], and the
    segments [cs] in the cache; there are no other segments. *)
Record repr s l (ps cs : list Z) : Prop := {
  r_sz : _seg_size s = sz;
  r_cur : chain (segs s) (_cur_seg s) ps;
  r_cache : chain (segs s) (_cache s) cs;
  r_nodup : NoDup (ps ++ cs);
  r_dom : forall p, is_Some (segs s !! p) -> p ∈ ps ++ cs;
  r_cache_size : _cache_size s = Z.of_nat (length cs);
  r_cache_max : _cache_size s <= _max_cache_size s < 2 ^ 64;
  r_full : _full_seg_size s = u64 (sz * Z.of_nat (length ps - 1));
  r_elems :
    match ps with
    | [] => _cur_seg_size s = sz /\ l = []
    | p :: ps => 1 <= _cur_seg_size s <= sz /\
        l = reverse (take (Z.to_nat (_cur_seg_size s)) (elems_of (segs s) p)) ++ below (segs s) ps
    end
}.

Lemma chain_null m ps : chain m NULL ps -> ps = [].
Proof. intros Hc. inversion Hc; done. Qed.

Lemma chain_inv m q p ps :
  chain m q (p :: ps) -> q = p /\ p <> NULL /\ exists g, m !! p = Some g /\
    Z.of_nat (length (elements g)) = sz /\ chain m (seg_link g) ps.
Proof. intros Hc. inversion Hc; subst. eauto 10. Qed.

Lemma get_link_run s p g : segs s !! p = Some g -> get_link p s = Some (seg_link g, s).
Proof. intros H. unfold get_link. by rewrite H. Qed.

Lemma set_link_run s p g v :
  segs s !! p = Some g -> set_link p v s = Some (p, set_segs s (<[p := mkSegment (elements g) v]> (segs s))).
Proof. intros H. unfold set_link. by rewrite H. Qed.

Lemma elem_at_run s p g i e :
  segs s !! p = Some g -> 0 <= i -> elements g !! Z.to_nat i = Some e -> elem_at p i s = Some (e, s).
Proof. intros H Hi He. unfold elem_at. rewrite H. simpl. destruct (Z.leb_spec 0 i); [| lia]. by rewrite He. Qed.

Lemma set_elem_run s p g i e :
  segs s !! p = Some g -> 0 <= i < Z.of_nat (length (elements g)) ->
  set_elem p i e s = Some (tt, set_segs s (<[p := mkSegment (<[Z.to_nat i := e]> (elements g)) (seg_link g)]> (segs s))).
Proof. intros H Hi. unfold set_elem. rewrite H. simpl. case_cmp; done || lia. Qed.

Lemma full_size s l ps cs :
  repr s l ps cs -> u64 (_full_seg_size s + (if is_empty s then 0 else sz)) = u64 (sz * Z.of_nat (length ps)).
Proof.
  intros [_ Hc _ _ _ _ _ Hf _]. rewrite Hf. unfold is_empty. destruct ps as [| p ps].
  - inversion Hc as [Hn |]. simpl. rewrite Z.mul_0_r. done.
  - apply chain_inv in Hc as (Hp & Hne & _). destruct (Z.eqb_spec (_cur_seg s) NULL); [congruence |].
    unfold wrap. rewrite Zplus_mod_idemp_l. f_equal.
    replace (length (p :: ps) - 1)%nat with (length ps) by (simpl; lia). simpl length. lia.
Qed.

(** A current segment [p] with room for an element; it has none after [push_segment]. *)
Record room s l p (ps cs : list Z) : Prop := {
  f_sz : _seg_size s = sz;
  f_cur : _cur_seg s = p;
  f_chain : chain (segs s) p (p :: ps);
  f_cache : chain (segs s) (_cache s) cs;
  f_nodup : NoDup ((p :: ps) ++ cs);
  f_dom : forall q, is_Some (segs s !! q) -> q ∈ (p :: ps) ++ cs;
  f_cache_size : _cache_size s = Z.of_nat (length cs);
  f_cache_max : _cache_size s <= _max_cache_size s < 2 ^ 64;
  f_full : _full_seg_size s = u64 (sz * Z.of_nat (length ps));
  f_size : 0 <= _cur_seg_size s < sz;
  f_elems : l = reverse (take (Z.to_nat (_cur_seg_size s)) (elems_of (segs s) p)) ++ below (segs s) ps
}.

Lemma push_segment_run s l ps cs :
  repr s l ps cs -> _cur_seg_size s = sz ->
  exists s' p cs', push_segment AllocateHeap junk s = Some (tt, s') /\ room s' l p ps cs' /\ _cur_seg_size s' = 0.
Proof.
  intros Hr Hfull. pose proof (full_size s l ps cs Hr) as Hsize. pose proof Hr as [Hs Hc Hca Hnd Hd Hcs Hmax Hf He].
  unfold push_segment. rewrite M_get_bind.
  assert (l = below (segs s) ps) as Hl.
  { destruct ps as [| p ps]; [by destruct He as [_ ->] |]. destruct He as [_ ->].
    apply chain_inv in Hc as (_ & _ & g & Hg & Hlen & _). unfold below. cbn [mbind list_bind]. do 2 f_equal.
    apply take_ge. unfold elems_of. rewrite Hg. lia. }
  rewrite Z.gtb_ltb. destruct (Z.ltb_spec 0 (_cache_size s)) as [Hp | Hz].
  - destruct cs as [| p cs]; [simpl in Hcs; lia |].
    apply chain_inv in Hca as (-> & Hpn & g & Hg & Hlen & Hcc). rewrite M_bind_assoc.
    mrun (get_link_run s p g Hg). rewrite M_bind_assoc, M_modify_bind, M_ret_bind.
    erewrite M_bind_Some; [| apply set_link_run; exact Hg]. rewrite !M_modify_bind.
    assert ((p ∉ ps) /\ (p ∉ cs) /\ NoDup (ps ++ cs)) as (Hp1 & Hp2 & Hnd').
    { apply NoDup_app in Hnd as (Hn1 & Hn2 & Hn3). apply NoDup_cons in Hn3 as [Hn3 Hn4].
      split_and!; [| done |].
      - intros Hin. by apply (Hn2 p Hin); left.
      - apply NoDup_app. split_and!; [done | | done]. intros x Hx Hx'. by apply (Hn2 x Hx); right. }
    eexists _, p, cs. split; [done |]. simpl in Hcs. rewrite Hcs in *. split; [| done].
    split; cbn [set_cur_seg set_cur_seg_size set_full_seg_size set_segs set_cache _seg_size _cur_seg segs _cache
      _cache_size _max_cache_size _full_seg_size _cur_seg_size]; rewrite ?Hs; try done.
    + econstructor; [done | apply lookup_insert_eq | done |]. simpl. by apply chain_insert.
    + by apply chain_insert.
    + constructor; [| done]. rewrite elem_of_app. tauto.
    + intros q [x Hq]. destruct (decide (p = q)) as [-> | Hne]; [left |].
      rewrite lookup_insert_ne in Hq by done. specialize (Hd q (mk_is_Some _ _ Hq)).
      apply elem_of_app in Hd as [Hd | Hd]; [right; apply elem_of_app; by left |].
      apply elem_of_cons in Hd as [-> | Hd]; [done |]. right. apply elem_of_app. by right.
    + rewrite u64_small; [lia | ulia].
    + rewrite u64_small; [lia | ulia].
    + lia.
    + simpl. by rewrite below_insert.
  - destruct cs as [| ? ?]; [| simpl in Hcs; lia]. inversion Hca as [Hn |].
    destruct (Halloc (segs s)) as [Hp0 Hfr]. unfold alloc. set (p := AllocateHeap (segs s)) in *.
    erewrite M_bind_Some; [| reflexivity]. cbv beta.
    erewrite M_bind_Some; [| apply set_link_run, lookup_insert_eq]. rewrite !M_modify_bind.
    assert (p ∉ ps) as Hp1 by (intros Hin; destruct (chain_in _ _ _ _ Hc Hin) as [g Hg]; congruence).
    rewrite Hs. eexists _, p, []. split; [done |]. split; [| done].
    split; cbn [set_cur_seg set_cur_seg_size set_full_seg_size set_segs set_cache _seg_size _cur_seg segs _cache
      _cache_size _max_cache_size _full_seg_size _cur_seg_size]; rewrite ?insert_insert_eq, ?Hs; try done.
    + econstructor; [done | apply lookup_insert_eq | apply Hjunk |]. simpl. by apply chain_insert.
    + rewrite <- Hn. constructor.
    + rewrite app_nil_r in *. by constructor.
    + intros q [x Hq]. destruct (decide (p = q)) as [-> | Hne]; [left |].
      rewrite lookup_insert_ne in Hq by done. right. by apply Hd.
    + lia.
    + simpl. by rewrite below_insert.
Qed.

(** The store of an element behind the last one. *)
Lemma store_repr s l p ps cs e :
  room s l p ps cs ->
  exists s', (s ← get; set_elem (_cur_seg s) (_cur_seg_size s) e;;
      modify (fun s => set_cur_seg_size s (u64 (_cur_seg_size s + 1)))) s = Some (tt, s') /\
    repr s' (e :: l) (p :: ps) cs.
Proof.
  intros [Hs Hcur Hc Hca Hnd Hd Hcs Hmax Hf Hk He]. apply chain_inv in Hc as (_ & Hp0 & g & Hg & Hlen & Hc).
  assert ((p ∉ ps) /\ (p ∉ cs)) as [Hp1 Hp2].
  { apply NoDup_cons in Hnd as [Hn _]. rewrite elem_of_app in Hn. tauto. }
  rewrite M_get_bind, Hcur. mrun (set_elem_run s p g (_cur_seg_size s) e Hg ltac:(lia)). eexists. split; [done |].
  set (k := Z.to_nat (_cur_seg_size s)) in *.
  split; cbn [set_cur_seg_size set_segs _seg_size _cur_seg segs _cache _cache_size _max_cache_size _full_seg_size
    _cur_seg_size]; try done.
  - rewrite Hcur. econstructor; [done | apply lookup_insert_eq | simpl; by rewrite length_insert |]. simpl.
    by apply chain_insert.
  - by apply chain_insert.
  - intros q [x Hq]. destruct (decide (p = q)) as [-> | Hne]; [left |].
    rewrite lookup_insert_ne in Hq by done. by apply Hd.
  - rewrite Hf. do 2 f_equal. simpl. lia.
  - rewrite u64_small by ulia. split; [lia |]. rewrite below_insert by done.
    replace (Z.to_nat (_cur_seg_size s + 1)) with (S k) by lia. unfold elems_of in *. rewrite lookup_insert_eq. simpl.
    rewrite Hg in He. rewrite (take_S_r _ _ e) by (apply list_lookup_insert_eq; lia).
    rewrite take_insert_ge by lia. rewrite reverse_snoc. simpl. by rewrite He.
Qed.

Lemma push_repr s l ps cs e :
  repr s l ps cs -> exists s' ps' cs', push AllocateHeap junk e s = Some (tt, s') /\ repr s' (e :: l) ps' cs'.
Proof.
  intros Hr. pose proof (r_sz _ _ _ _ Hr) as Hs. unfold push. rewrite M_get_bind, Hs.
  destruct (Z.eqb_spec (_cur_seg_size s) sz) as [Hfull | Hnot]; cbn [when].
  - destruct (push_segment_run s l ps cs Hr Hfull) as (s1 & p & cs1 & Hrun & Hroom & _). mrun Hrun.
    destruct (store_repr s1 l p ps cs1 e Hroom) as (s2 & Hrun2 & Hr2). eauto.
  - rewrite M_ret_bind. destruct ps as [| p ps]; [by destruct (r_elems _ _ _ _ Hr) |].
    destruct (store_repr s l p ps cs e) as (s2 & Hrun2 & Hr2); [| eauto].
    destruct Hr as [_ Hc Hca Hnd Hd Hcs Hmax Hf He]. pose proof (chain_inv _ _ _ _ Hc) as (Hp & _).
    destruct He as [Hk He]. split; try done; [by rewrite Hp in Hc | | lia]. rewrite Hf. do 2 f_equal. simpl. lia.
Qed.

Lemma repr_empty s l ps cs : repr s l ps cs -> is_empty s = bool_decide (l = []).
Proof.
  intros [_ Hc _ _ _ _ _ _ He]. unfold is_empty. destruct ps as [| p ps].
  - inversion Hc as [Hn |]. destruct He as [_ ->]. done.
  - apply chain_inv in Hc as (-> & Hp & g & Hg & Hlen & _). destruct He as [Hk ->]. unfold elems_of. rewrite Hg.
    destruct (Z.eqb_spec p NULL); [done |]. symmetry. apply bool_decide_eq_false. intros [Hr _]%app_eq_nil.
    apply (f_equal length) in Hr. rewrite length_reverse, length_take in Hr. simpl in Hr. lia.
Qed.

Lemma length_below m q ps : chain m q ps -> Z.of_nat (length (below m ps)) = sz * Z.of_nat (length ps).
Proof.
  intros Hc. induction Hc as [| q g ps Hq Hg Hl Hc IH]; [simpl; lia |]. unfold below in *. cbn [mbind list_bind].
  rewrite length_app, length_reverse. unfold elems_of at 1. rewrite Hg. simpl length. lia.
Qed.

Lemma stack_repr_size s l ps cs : repr s l ps cs -> size s = u64 (Z.of_nat (length l)).
Proof.
  intros Hr. unfold size. rewrite (repr_empty _ _ _ _ Hr). destruct Hr as [_ Hc _ _ _ _ _ Hf He].
  destruct ps as [| p ps]; [by destruct He as [_ ->] |].
  pose proof Hc as Hc'. apply chain_inv in Hc' as (_ & _ & g & Hg & Hlen & Hc2). destruct He as [Hk He].
  assert (Z.of_nat (length l) = _cur_seg_size s + sz * Z.of_nat (length ps)) as Hl.
  { rewrite He, length_app, length_reverse, length_take, Nat2Z.inj_add, (length_below _ _ _ Hc2).
    unfold elems_of. rewrite Hg. lia. }
  destruct (bool_decide_reflect (l = [])) as [-> | _]; [done |].
  rewrite Hf, Hl. unfold wrap. rewrite Zplus_mod_idemp_l. f_equal. simpl length. rewrite Nat.sub_succ, Nat.sub_0_r. lia.
Qed.

Lemma full_size_down (p : Z) (ps : list Z) : u64 (sz * Z.of_nat (length (p :: ps) - 1) - (if bool_decide (ps = []) then 0 else sz)) =
  u64 (sz * Z.of_nat (length ps - 1)).
Proof.
  f_equal. destruct ps as [| q ps]; simpl length; [simpl; lia |]. rewrite bool_decide_eq_false_2 by done.
  replace (S (S (length ps)) - 1)%nat with (S (length ps)) by lia.
  replace (S (length ps) - 1)%nat with (length ps) by lia. lia.
Qed.

(** An empty current segment goes to the cache, or is freed. *)
Lemma pop_segment_run s p ps cs :
  _seg_size s = sz -> chain (segs s) (_cur_seg s) (p :: ps) -> chain (segs s) (_cache s) cs ->
  NoDup ((p :: ps) ++ cs) -> (forall q, is_Some (segs s !! q) -> q ∈ (p :: ps) ++ cs) ->
  _cache_size s = Z.of_nat (length cs) -> _cache_size s <= _max_cache_size s < 2 ^ 64 ->
  _full_seg_size s = u64 (sz * Z.of_nat (length (p :: ps) - 1)) ->
  exists s' cs', pop_segment s = Some (tt, s') /\ repr s' (below (segs s) ps) ps cs'.
Proof.
  intros Hs Hc Hca Hnd Hd Hcs Hmax Hf. apply chain_inv in Hc as (Hcur & Hp0 & g & Hg & Hlen & Hc).
  assert ((p ∉ ps) /\ (p ∉ cs) /\ NoDup (ps ++ cs)) as (Hp1 & Hp2 & Hnd').
  { apply NoDup_cons in Hnd as [Hn Hn']. rewrite elem_of_app in Hn. tauto. }
  assert ((seg_link g =? NULL) = bool_decide (ps = [])) as Hlink.
  { destruct ps as [| q ps]; [inversion Hc; done |].
    apply chain_inv in Hc as (-> & Hq & _). by destruct (Z.eqb_spec q NULL). }
  assert (forall m, (forall q ps', p ∉ ps' -> chain (segs s) q ps' -> chain m q ps') -> below m ps = below (segs s) ps ->
    match ps with
    | [] => sz = sz /\ below (segs s) ps = []
    | q :: ps' => 1 <= sz <= sz /\
        below (segs s) ps = reverse (take (Z.to_nat sz) (elems_of m q)) ++ below m ps'
    end) as Helems.
  { intros m Hm Hb. destruct ps as [| q ps]; [done |]. split; [lia |]. rewrite <- Hb.
    apply (Hm _ _ Hp1) in Hc. apply chain_inv in Hc as (_ & _ & g' & Hg' & Hlen' & _).
    unfold below. cbn [mbind list_bind]. do 2 f_equal. symmetry. apply take_ge. unfold elems_of. rewrite Hg'. lia. }
  unfold pop_segment. rewrite M_get_bind, Hcur. mrun (get_link_run s p g Hg).
  destruct (Z.ltb_spec (_cache_size s) (_max_cache_size s)) as [Hroom | Hfull].
  - rewrite M_bind_assoc. mrun (set_link_run s p g (_cache s) Hg). rewrite !M_modify_bind.
    eexists _, (p :: cs). split; [done |].
    split; cbn [set_cur_seg set_cur_seg_size set_full_seg_size set_segs set_cache _seg_size _cur_seg segs _cache
      _cache_size _max_cache_size _full_seg_size _cur_seg_size]; try done.
    + by apply chain_insert.
    + econstructor; [done | apply lookup_insert_eq | done |]. simpl. by apply chain_insert.
    + rewrite <- Permutation_middle. done.
    + intros q [x Hq]. rewrite <- Permutation_middle. destruct (decide (p = q)) as [-> | Hne]; [left |].
      rewrite lookup_insert_ne in Hq by done. by apply Hd.
    + rewrite u64_small by ulia. simpl length. lia.
    + rewrite u64_small by ulia. lia.
    + rewrite Hf, Hs, Hlink. unfold wrap. rewrite Zminus_mod_idemp_l. apply (full_size_down p).
    + rewrite Hs. apply Helems; [intros; by apply chain_insert | by apply below_insert].
  - unfold free. erewrite M_bind_Some; [| rewrite Hg; reflexivity]. cbv beta. rewrite !M_modify_bind.
    eexists _, cs. split; [done |].
    split; cbn [set_cur_seg set_cur_seg_size set_full_seg_size set_segs set_cache _seg_size _cur_seg segs _cache
      _cache_size _max_cache_size _full_seg_size _cur_seg_size]; try done.
    + by apply chain_delete.
    + by apply chain_delete.
    + intros q [x Hq]. apply lookup_delete_Some in Hq as [Hne Hq].
      specialize (Hd q (mk_is_Some _ _ Hq)). by apply elem_of_cons in Hd as [-> | Hd].
    + rewrite Hf, Hs, Hlink. unfold wrap. rewrite Zminus_mod_idemp_l. apply (full_size_down p).
    + rewrite Hs. apply Helems; [intros; by apply chain_delete | by apply below_delete].
Qed.

Lemma pop_repr s e l ps cs :
  repr s (e :: l) ps cs -> exists s' ps' cs', pop s = Some (e, s') /\ repr s' l ps' cs'.
Proof.
  intros [Hs Hc Hca Hnd Hd Hcs Hmax Hf He]. destruct ps as [| p ps]; [by destruct He |].
  destruct He as [Hk He]. pose proof (chain_inv _ _ _ _ Hc) as (Hcur & Hp0 & g & Hg & Hlen & _).
  unfold elems_of in He. rewrite Hg in He. unfold pop. rewrite M_get_bind, Hcur.
  set (k := Z.to_nat (_cur_seg_size s - 1)).
  destruct (lookup_lt_is_Some_2 (elements g) k) as [x Hx]; [lia |].
  replace (Z.to_nat (_cur_seg_size s)) with (S k) in He by lia.
  rewrite (take_S_r _ _ x Hx), reverse_snoc in He. injection He as <- ->.
  destruct (Z.eqb_spec (_cur_seg_size s) 1) as [H1 | H1]; rewrite M_modify_bind.
  - erewrite M_bind_Some; [| apply (elem_at_run _ p g 0 e); [exact Hg | lia |]];
      [| rewrite <- Hx; unfold k; by rewrite H1].
    destruct (pop_segment_run (set_cur_seg_size s (u64 (_cur_seg_size s - 1))) p ps cs) as (s' & cs' & Hrun & Hr); try done.
    mrun Hrun. rewrite M_ret_run. eexists _, ps, cs'. split; [done |]. simpl in Hr.
    unfold k. by rewrite H1.
  - rewrite u64_small by ulia. rewrite M_get_bind. cbn [set_cur_seg_size _cur_seg _cur_seg_size]. rewrite Hcur.
    erewrite (elem_at_run _ p g _ e); [| exact Hg | lia | exact Hx]. eexists _, (p :: ps), cs. split; [done |].
    split; cbn [set_cur_seg_size _seg_size _cur_seg segs _cache _cache_size _max_cache_size _full_seg_size
      _cur_seg_size]; try done.
    split; [lia |]. fold k. unfold elems_of. by rewrite Hg.
Qed.

(** ** Freeing *)

Lemma seg_chain_length m q ps : chain m q ps -> NoDup ps -> (length ps <= length (map_to_list m))%nat.
Proof.
  intros Hc Hnd. rewrite <- (length_fmap fst). apply submseteq_length, NoDup_submseteq; [done |].
  intros p Hp. destruct (chain_in _ _ _ _ Hc Hp) as [g Hg]. apply list_elem_of_fmap. exists (p, g).
  split; [done |]. by apply elem_of_map_to_list.
Qed.

Lemma free_loop_run fuel q ps s :
  chain (segs s) q ps -> NoDup ps -> (length ps < fuel)%nat ->
  exists m, free_loop fuel q s = Some (tt, set_segs s m) /\
    forall x, m !! x = if decide (x ∈ ps) then None else segs s !! x.
Proof.
  revert q ps s. induction fuel as [| fuel IH]; intros q ps s Hc Hnd Hf; [lia |]. cbn [free_loop].
  destruct ps as [| p ps].
  - inversion Hc. rewrite Z.eqb_refl. cbn [negb]. exists (segs s). split; [by destruct s |].
    intros x. by rewrite decide_False by (by intros Hx; apply elem_of_nil in Hx).
  - apply chain_inv in Hc as (-> & Hp0 & g & Hg & _ & Hc). apply NoDup_cons in Hnd as [Hp Hnd].
    destruct (Z.eqb_spec p NULL); [done |]. cbn [negb]. mrun (get_link_run s p g Hg).
    unfold free. erewrite M_bind_Some; [| rewrite Hg; reflexivity]. cbv beta.
    destruct (IH (seg_link g) ps (set_segs s (delete p (segs s)))) as (m & Hrun & Hm);
      [by apply chain_delete | done | simpl in Hf; lia |].
    exists m. split; [exact Hrun |]. intros x. rewrite Hm. cbn [set_segs segs].
    destruct (decide (x ∈ ps)) as [Hx | Hx].
    + rewrite decide_True by (by right). done.
    + destruct (decide (x = p)) as [-> | Hne].
      * rewrite decide_True by left. apply lookup_delete_eq.
      * rewrite lookup_delete_ne by done. rewrite decide_False; [done |]. by intros [-> | ?]%elem_of_cons.
Qed.

Lemma chain_same m m' q ps : (forall x, x ∈ ps -> m' !! x = m !! x) -> chain m q ps -> chain m' q ps.
Proof.
  intros H Hc. induction Hc as [| q g ps Hq Hg Hl Hc IH]; [constructor |].
  econstructor; [done | | done |]; [rewrite H by left; done |]. apply IH. intros x Hx. apply H. by right.
Qed.

Lemma clear_repr s l ps cs (b : bool) :
  repr s l ps cs -> exists s', clear b s = Some (tt, s') /\ repr s' [] [] (if b then [] else cs).
Proof.
  intros [Hs Hc Hca Hnd Hd Hcs Hmax Hf He]. pose proof Hnd as (Hn1 & Hn2 & Hn3)%NoDup_app.
  unfold clear. rewrite M_get_bind.
  destruct (free_loop_run (S (length (map_to_list (segs s)))) (_cur_seg s) ps s Hc Hn1) as (m & Hrun & Hm);
    [pose proof (seg_chain_length _ _ _ Hc Hn1); lia |].
  rewrite (M_bind_Some _ _ s tt (set_segs s m)) by (unfold free_segments; by rewrite M_get_bind).
  assert (chain m (_cache s) cs) as Hcm.
  { eapply chain_same; [| exact Hca]. intros x Hx. rewrite Hm. rewrite decide_False; [done |].
    intros Hx'. by apply (Hn2 x Hx'). }
  destruct b; cbn [when].
  - destruct (free_loop_run (S (length (map_to_list m))) (_cache s) cs (set_segs s m) Hcm Hn3) as (m' & Hrun' & Hm');
      [pose proof (seg_chain_length _ _ _ Hcm Hn3); lia |].
    rewrite (M_bind_Some _ _ _ tt (set_segs (set_segs s m) m')) by (unfold free_segments; by rewrite M_get_bind).
    eexists. split; [done |].
    split; cbn [set_cur_seg set_cur_seg_size set_full_seg_size set_segs set_cache reset _seg_size _cur_seg segs _cache
      _cache_size _max_cache_size _full_seg_size _cur_seg_size]; try done.
    + constructor.
    + constructor.
    + constructor.
    + intros p [x Hp]. rewrite Hm' in Hp. cbn [set_segs segs] in Hp. rewrite Hm in Hp.
      destruct (decide (p ∈ cs)); [done |]. destruct (decide (p ∈ ps)); [done |].
      specialize (Hd p (mk_is_Some _ _ Hp)). apply elem_of_app in Hd as [? | ?]; done.
    + simpl. lia.
    + simpl. by rewrite Z.mul_0_r.
  - rewrite M_ret_bind. eexists. split; [done |].
    split; cbn [set_cur_seg set_cur_seg_size set_full_seg_size set_segs set_cache reset _seg_size _cur_seg segs _cache
      _cache_size _max_cache_size _full_seg_size _cur_seg_size]; try done.
    + constructor.
    + intros p [x Hp]. rewrite Hm in Hp. destruct (decide (p ∈ ps)); [done |].
      specialize (Hd p (mk_is_Some _ _ Hp)). by apply elem_of_app in Hd as [? | ?].
    + simpl. by rewrite Z.mul_0_r.
Qed.

(** ** Iterating *)

Definition it_repr s (it : StackIterator) l : Prop :=
  exists ps, chain (segs s) (it_cur_seg it) ps /\
    match ps with
    | [] => l = []
    | p :: ps => 1 <= it_cur_seg_size it <= sz /\
        l = reverse (take (Z.to_nat (it_cur_seg_size it)) (elems_of (segs s) p)) ++ below (segs s) ps
    end.

Lemma next_repr s it e l :
  _seg_size s = sz -> it_repr s it (e :: l) ->
  it_is_empty it = false /\ exists it', next it s = Some ((e, it'), s) /\ it_repr s it' l.
Proof.
  intros Hs (ps & Hc & He). destruct ps as [| p ps]; [done |]. destruct He as [Hk He].
  pose proof (chain_inv _ _ _ _ Hc) as (Hcur & Hp0 & g & Hg & Hlen & Hc').
  unfold elems_of in He. rewrite Hg in He. unfold it_is_empty. rewrite Hcur.
  split; [by destruct (Z.eqb_spec p NULL) |]. unfold next. rewrite M_get_bind, Hcur.
  set (k := Z.to_nat (it_cur_seg_size it - 1)).
  destruct (lookup_lt_is_Some_2 (elements g) k) as [x Hx]; [lia |].
  replace (Z.to_nat (it_cur_seg_size it)) with (S k) in He by lia.
  rewrite (take_S_r _ _ x Hx), reverse_snoc in He. injection He as <- ->.
  destruct (Z.eqb_spec (it_cur_seg_size it) 1) as [H1 | H1].
  - assert (k = O) as Hk0 by lia.
    mrun (elem_at_run s p g 0 e Hg ltac:(lia) ltac:(change (Z.to_nat 0) with O; by rewrite <- Hk0)).
    mrun (get_link_run s p g Hg). rewrite M_ret_run. eexists. split; [done |]. exists ps. split; [done |].
    rewrite Hk0, Hs. simpl. destruct ps as [| q ps]; [done |]. split; [lia |].
    apply chain_inv in Hc' as (_ & _ & g' & Hg' & Hlen' & _). unfold below. cbn [mbind list_bind]. do 2 f_equal.
    symmetry. apply take_ge. unfold elems_of. rewrite Hg'. lia.
  - rewrite u64_small by ulia. mrun (elem_at_run s p g (it_cur_seg_size it - 1) e Hg ltac:(lia) Hx). rewrite M_ret_run.
    eexists. split; [done |]. exists (p :: ps). simpl. split; [by rewrite <- Hcur at 1 |].
    split; [lia |]. fold k. unfold elems_of. by rewrite Hg.
Qed.

Lemma stack_iterate_run l : forall fuel s it,
  _seg_size s = sz -> it_repr s it l -> (length l < fuel)%nat -> iterate fuel it s = Some (l, s).
Proof.
  induction l as [| e l IH]; intros fuel s it Hs Hit Hf; (destruct fuel as [| fuel]; [simpl in Hf; lia |]);
    cbn [iterate].
  - assert (it_is_empty it = true) as ->; [| done]. destruct Hit as ([| p ps] & Hc & He).
    + inversion Hc as [Hn |]. unfold it_is_empty. by rewrite <- Hn.
    + destruct He as [Hk He]. apply chain_inv in Hc as (_ & _ & g & Hg & Hlen & _).
      unfold elems_of in He. rewrite Hg in He. apply (f_equal length) in He.
      rewrite length_app, length_reverse, length_take in He. simpl in He. lia.
  - destruct (next_repr s it e l Hs Hit) as (-> & it' & Hn & Hit'). mrun Hn. cbv beta iota.
    mrun (IH fuel s it' Hs Hit' ltac:(simpl in Hf; lia)). done.
Qed.

(** ** The stack as a list *)

Inductive op := Push (e : E) | Pop | Clear (clear_cache : bool) | Size | IsEmpty | Iterate.
Inductive answer := Ok | Elem (e : E) | Count (n : Z) | Flag (b : bool) | Elems (l : list E).

Definition exec (s : Stack E) (o : op) : option (answer * Stack E) :=
  match o with
  | Push e => '(_, s) ← push AllocateHeap junk e s; Some (Ok, s)
  | Pop => '(e, s) ← pop s; Some (Elem e, s)
  | Clear b => '(_, s) ← clear b s; Some (Ok, s)
  | Size => Some (Count (size s), s)
  | IsEmpty => Some (Flag (is_empty s), s)
  | Iterate =>
      '(l, s) ← iterate (S (length (map_to_list (segs s)) * Z.to_nat (_seg_size s))) (sync s) s; Some (Elems l, s)
  end.

(** A list, its head being the top; the callers do not pop from an empty stack. *)
Definition list_op (l : list E) (o : op) : option (answer * list E) :=
  match o, l with
  | Push e, _ => Some (Ok, e :: l)
  | Pop, [] => None
  | Pop, e :: l => Some (Elem e, l)
  | Clear _, _ => Some (Ok, [])
  | Size, _ => Some (Count (u64 (Z.of_nat (length l))), l)
  | IsEmpty, _ => Some (Flag (bool_decide (l = [])), l)
  | Iterate, _ => Some (Elems l, l)
  end.

Fixpoint execs (s : Stack E) (os : list op) : option (list answer * Stack E) :=
  match os with
  | [] => Some ([], s)
  | o :: os => '(a, s) ← exec s o; '(l, s) ← execs s os; Some (a :: l, s)
  end.
Fixpoint list_ops (l : list E) (os : list op) : option (list answer * list E) :=
  match os with
  | [] => Some ([], l)
  | o :: os => '(a, l) ← list_op l o; '(as_, l) ← list_ops l os; Some (a :: as_, l)
  end.

(** More fuel does not change an iteration. *)
Lemma iterate_more s l ps cs fuel : repr s l ps cs -> (length l < fuel)%nat -> iterate fuel (sync s) s = Some (l, s).
Proof.
  intros [Hs Hc _ _ _ _ _ _ He] Hf. apply stack_iterate_run; [done | | done]. exists ps. split; [done |].
  destruct ps; [by destruct He | done].
Qed.

Lemma repr_length s l ps cs :
  repr s l ps cs -> (length l <= length (map_to_list (segs s)) * Z.to_nat sz)%nat.
Proof.
  intros [_ Hc _ Hnd _ _ _ _ He]. apply NoDup_app in Hnd as [Hnd _]. pose proof (seg_chain_length _ _ _ Hc Hnd) as Hle.
  destruct ps as [| p ps]; [destruct He as [_ ->]; simpl; lia |].
  apply chain_inv in Hc as (_ & _ & g & Hg & Hlen & Hc). destruct He as [Hk ->].
  pose proof (length_below _ _ _ Hc) as Hb. rewrite length_app, length_reverse, length_take.
  unfold elems_of. rewrite Hg. simpl length in Hle.
  assert (sz * Z.of_nat (S (length ps)) <= sz * Z.of_nat (length (map_to_list (segs s)))) by nia. nia.
Qed.

Lemma exec_list s l ps cs o a l' :
  repr s l ps cs -> list_op l o = Some (a, l') ->
  exists s' ps' cs', exec s o = Some (a, s') /\ repr s' l' ps' cs'.
Proof.
  intros Hr Ho. destruct o as [e | | b | | |]; cbn [list_op exec] in *.
  - injection Ho as <- <-. destruct (push_repr s l ps cs e Hr) as (s' & ps' & cs' & -> & Hr'). eauto.
  - destruct l as [| e l]; [done |]. injection Ho as <- <-.
    destruct (pop_repr s e l ps cs Hr) as (s' & ps' & cs' & -> & Hr'). eauto.
  - injection Ho as <- <-. destruct (clear_repr s l ps cs b Hr) as (s' & -> & Hr'). eauto.
  - injection Ho as <- <-. rewrite (stack_repr_size _ _ _ _ Hr). eauto.
  - injection Ho as <- <-. rewrite (repr_empty _ _ _ _ Hr). eauto.
  - injection Ho as <- <-. rewrite (iterate_more s l ps cs); [eauto | done |].
    rewrite (r_sz _ _ _ _ Hr). pose proof (repr_length _ _ _ _ Hr). lia.
Qed.

Lemma execs_list os : forall s l ps cs as_ l',
  repr s l ps cs -> list_ops l os = Some (as_, l') ->
  exists s' ps' cs', execs s os = Some (as_, s') /\ repr s' l' ps' cs'.
Proof.
  induction os as [| o os IH]; intros s l ps cs as_ l' Hr Ho; cbn [list_ops execs] in *.
  - injection Ho as <- <-. eauto.
  - destruct (list_op l o) as [[a l1] |] eqn:H1; [| done]. simpl in Ho.
    destruct (list_ops l1 os) as [[as1 l2] |] eqn:H2; [| done]. injection Ho as <- <-.
    destruct (exec_list s l ps cs o a l1 Hr H1) as (s1 & ps1 & cs1 & -> & Hr1). simpl.
    destruct (IH s1 l1 ps1 cs1 as1 l2 Hr1 H2) as (s2 & ps2 & cs2 & -> & Hr2). simpl. eauto.
Qed.

End Proofs.

(** Segments of two elements at addresses of their own. *)
Definition sample_alloc (m : gmap Z (segment Z)) : Z := fresh ({[NULL]} ∪ dom m).
Definition sample_junk (sz p : Z) : segment Z := mkSegment (replicate (Z.to_nat sz) 0) 0.
Definition sample_ops : list (op (E := Z)) :=
  [Push 1; Push 2; Push 3; Size; Iterate; Pop; Pop; Push 4; Iterate; Clear false; IsEmpty; Push 5; Size].

Lemma sample_alloc_ok m : sample_alloc m <> NULL /\ m !! sample_alloc m = None.
Proof.
  unfold sample_alloc. pose proof (is_fresh ({[NULL]} ∪ dom m)) as H. rewrite not_elem_of_union in H.
  split; [set_solver |]. apply not_elem_of_dom. tauto.
Qed.

End Stack.
