(* ===== verification/OverflowQueue.v ===== *)
(** * Task queues that overflow into a stack

    [OverflowTaskQueue] of [utilities/taskqueue.hpp]: a task queue whose [push] puts on a
    stack what the queue has no room for. *)

From Stdlib Require Import ZArith Lia.
From stdpp Require Import base numbers gmap sets relations list.
From S2P Require Import Prelude GlobalDefs TaskQueue Stack.

Local Open Scope Z_scope.

(** ** Overflow *)

Module OverflowQueue.

Section Operations.
Context {E : Type} (N : Z).
Context (AllocateHeap : gmap Z (Stack.segment E) -> Z) (junk : Z -> Z -> Stack.segment E).

Record OverflowTaskQueue := mkOverflow {
  taskqueue : TaskQueue.GenericTaskQueue E;
  _overflow_stack : Stack.Stack E
}.

Implicit Types q : OverflowTaskQueue.

(** The constructor and [initialize]; the elements have [elem_sz] bytes. *)
Definition create (elem_sz : Z) (memory : list E) : OverflowTaskQueue :=
  mkOverflow (TaskQueue.create memory) (Stack.create elem_sz (Stack.default_segment_size elem_sz) 4 0).

Definition push q (t : E) : option OverflowTaskQueue :=
  '(b, tq) ← TaskQueue.push N (taskqueue q) t;
  if (b : bool) then Some (mkOverflow tq (_overflow_stack q))
  else
    '(_, st) ← Stack.push AllocateHeap junk t (_overflow_stack q);
    Some (mkOverflow tq st).

Definition taskqueue_empty q : bool := TaskQueue.is_empty N (taskqueue q).
Definition overflow_empty q : bool := Stack.is_empty (_overflow_stack q).
Definition is_empty q : bool := taskqueue_empty q && overflow_empty q.

(** The element, if there is one. *)
Definition pop_overflow q : option (option E * OverflowTaskQueue) :=
  if overflow_empty q then Some (None, q)
  else
    '(t, st) ← Stack.pop (_overflow_stack q);
    Some (Some t, mkOverflow (taskqueue q) st).

Definition pop_local q : option (option E * OverflowTaskQueue) :=
  '(t, tq) ← TaskQueue.pop_local N (taskqueue q);
  Some (t, mkOverflow tq (_overflow_stack q)).
End Operations.
Arguments OverflowTaskQueue : clear implicits.

Section Proofs.
Context {E : Type} (lg N : Z) (Hlg : 2 <= lg <= 31) (HN : N = 2 ^ lg).
Context (AllocateHeap : gmap Z (Stack.segment E) -> Z) (junk : Z -> Z -> Stack.segment E).
Context (sz : Z) (Hsz : 0 < sz < 2 ^ 63).
Context (Halloc : forall m, AllocateHeap m <> NULL /\ m !! AllocateHeap m = None).
Context (Hjunk : forall p, Z.of_nat (length (Stack.elements (junk sz p))) = sz).
Implicit Types (q : OverflowTaskQueue E) (l st : list E).

(** A queue that holds [l], with [st] on its stack. *)
Definition repr q l st : Prop :=
  TaskQueue.contents N (taskqueue q) l /\ exists ps cs, Stack.repr sz (_overflow_stack q) st ps cs.

Lemma overflow_push_repr q l st t :
  repr q l st -> exists q', push N AllocateHeap junk q t = Some q' /\
    if Z.of_nat (length l) <? N - 2 then repr q' (l ++ [t]) st else repr q' l (t :: st).
Proof.
  intros [Hq (ps & cs & Hs)]. unfold push. pose proof (TaskQueue.push_contents lg N Hlg HN _ _ t Hq) as Hp.
  destruct (_ <? N - 2).
  - destruct Hp as (tq & -> & Hq'). simpl. eexists. split; [done |]. split; [done |]. eauto.
  - rewrite Hp. simpl.
    destruct (Stack.push_repr AllocateHeap junk sz Hsz Halloc Hjunk _ _ _ _ t Hs) as (s' & ps' & cs' & -> & Hs').
    simpl. eexists. split; [done |]. split; [done |]. eauto.
Qed.

Lemma pop_overflow_repr q l st :
  repr q l st -> exists q', pop_overflow q = Some (head st, q') /\ repr q' l (tail st).
Proof.
  intros [Hq (ps & cs & Hs)]. unfold pop_overflow, overflow_empty.
  rewrite (Stack.repr_empty sz Hsz _ _ _ _ Hs). destruct st as [| t st]; simpl.
  - eexists. split; [done |]. split; [done |]. eauto.
  - destruct (Stack.pop_repr sz Hsz _ _ _ _ _ Hs) as (s' & ps' & cs' & -> & Hs'). simpl.
    eexists. split; [done |]. split; [done |]. eauto.
Qed.

Lemma pop_local_repr q l st :
  repr q l st -> exists q', pop_local N q = Some (last l, q') /\ repr q' (take (length l - 1) l) st.
Proof.
  intros [Hq Hs]. unfold pop_local. pose proof (TaskQueue.pop_local_contents lg N Hlg HN _ _ Hq) as Hp.
  destruct (last l) as [x |] eqn:Hl.
  - destruct Hp as (tq & l' & -> & -> & Hq'). simpl. eexists. split; [done |].
    rewrite length_app, Nat.add_sub, take_app_length. by split.
  - rewrite Hp. apply last_None in Hl as ->. simpl. eexists. split; [done |]. by split.
Qed.

Lemma is_empty_repr q l st : repr q l st -> is_empty N q = bool_decide (l = [] /\ st = []).
Proof.
  intros [Hq (ps & cs & Hs)]. unfold is_empty, taskqueue_empty, overflow_empty, TaskQueue.is_empty.
  rewrite (TaskQueue.size_contents lg N Hlg HN _ _ Hq), (Stack.repr_empty sz Hsz _ _ _ _ Hs), bool_decide_and.
  f_equal. destruct l; [done |]. simpl. by destruct (Z.eqb_spec (Z.of_nat (S (length l))) 0); [lia |].
Qed.

(** The tasks that a thread pushes, one after the other. *)
Fixpoint pushes q (ts : list E) : option (OverflowTaskQueue E) :=
  match ts with
  | [] => Some q
  | t :: ts => q ← push N AllocateHeap junk q t; pushes q ts
  end.
(** The loop of a thread that empties its queue: the stack first, then the queue. *)
Fixpoint drain (fuel : nat) q : option (list E * OverflowTaskQueue E) :=
  match fuel with
  | O => None
  | S fuel =>
    '(t, q) ← pop_overflow q;
    match t with
    | Some t => '(l, q) ← drain fuel q; Some (t :: l, q)
    | None =>
        '(t, q) ← pop_local N q;
        match t with
        | Some t => '(l, q) ← drain fuel q; Some (t :: l, q)
        | None => Some ([], q)
        end
    end
  end.

Lemma pushes_repr ts : forall q l st, repr q l st ->
  exists q' l' st', pushes q ts = Some q' /\ repr q' l' st' /\ l' ++ st' ≡ₚ l ++ st ++ ts.
Proof.
  induction ts as [| t ts IH]; intros q l st Hr; cbn [pushes].
  - exists q, l, st. by rewrite app_nil_r.
  - destruct (overflow_push_repr q l st t Hr) as (q1 & -> & Hr1). cbn [mbind option_bind].
    destruct (_ <? N - 2); destruct (IH _ _ _ Hr1) as (q' & l' & st' & Hp & Hr' & Hperm); exists q', l', st';
      (split_and!; [done | done |]); rewrite Hperm; [| ]; solve_Permutation.
Qed.

Lemma drain_repr fuel : forall q l st, repr q l st -> (length l + length st < fuel)%nat ->
  exists q', drain fuel q = Some (st ++ reverse l, q') /\ repr q' [] [].
Proof.
  induction fuel as [| fuel IH]; intros q l st Hr Hf; [lia |]. cbn [drain].
  destruct (pop_overflow_repr q l st Hr) as (q1 & -> & Hr1). cbn [mbind option_bind].
  destruct st as [| t st]; simpl in *.
  - destruct (pop_local_repr q1 l [] Hr1) as (q2 & -> & Hr2). cbn [mbind option_bind].
    destruct (last l) as [x |] eqn:Hl.
    + apply last_Some in Hl as [l' ->]. rewrite length_app in *. simpl in *.
      rewrite Nat.add_sub, take_app_length in Hr2. destruct (IH q2 l' [] Hr2) as (q' & -> & Hr'); [simpl; lia |].
      simpl. exists q'. by rewrite reverse_snoc.
    + apply last_None in Hl as ->. by exists q2.
  - destruct (IH q1 l st Hr1) as (q' & -> & Hr'); [lia |]. simpl. by exists q'.
Qed.

End Proofs.

End OverflowQueue.
