(* ===== verification/Terminator.v ===== *)
(** * Termination of the threads that steal

    [ParallelTaskTerminator] of [utilities/taskqueue.cpp], and the threads of
    [StealBDARefTask::do_it] ([bda/bdaTasks.cpp]) that drain their queues, steal from the
    others and offer to stop, interleaved at every access to the queues and to the counter of
    the offers. *)

From Stdlib Require Import ZArith Lia.
From stdpp Require Import base numbers relations list.
From S2P Require Import Prelude GlobalDefs.

Local Open Scope Z_scope.

Module Terminator.

Record ParallelTaskTerminator := mkTerminator { _n_threads : Z; _offered_termination : Z }.

Definition create (n_threads : Z) : ParallelTaskTerminator := mkTerminator n_threads 0.

(** [Atomic::inc] and [Atomic::dec] of the counter. *)
Definition offer_inc (t : ParallelTaskTerminator) : ParallelTaskTerminator :=
  mkTerminator (_n_threads t) (i32 (_offered_termination t + 1)).
Definition offer_dec (t : ParallelTaskTerminator) : ParallelTaskTerminator :=
  mkTerminator (_n_threads t) (i32 (_offered_termination t - 1)).
Definition all_offered (t : ParallelTaskTerminator) : bool := _offered_termination t =? _n_threads t.

Definition reset_for_reuse (t : ParallelTaskTerminator) : ParallelTaskTerminator :=
  if negb (_offered_termination t =? 0) then mkTerminator (_n_threads t) 0 else t.
Definition reset_for_reuse_n (n_threads : Z) (t : ParallelTaskTerminator) : ParallelTaskTerminator :=
  mkTerminator n_threads (_offered_termination (reset_for_reuse t)).

(** ** Waiting between two looks *)

Inductive pause := Yield | Spin (turns : Z) | Sleep.

Section Backoff.
(** [WorkStealingHardSpins], [WorkStealingSpinToYieldRatio] and
    [WorkStealingYieldsBeforeSleep], as [uintx]. *)
Context (HardSpins SpinToYieldRatio YieldsBeforeSleep : Z).

(** The [uint] variables of [offer_termination]. *)
Record backoff := mkBackoff { yield_count : Z; hard_spin_count : Z; hard_spin_limit : Z }.

Definition hard_spin_start : Z :=
  if SpinToYieldRatio >? 0 then Z.max (u32 (Z.shiftr HardSpins SpinToYieldRatio)) 1 else u32 HardSpins.

Definition backoff_start : backoff := mkBackoff 0 0 hard_spin_start.

Definition wait (b : backoff) : pause * backoff :=
  if yield_count b <=? YieldsBeforeSleep then
    let yields := u32 (yield_count b + 1) in
    if hard_spin_count b >? SpinToYieldRatio then (Yield, mkBackoff yields 0 hard_spin_start)
    else
      let limit := Z.min (u32 (2 * hard_spin_limit b)) (u32 HardSpins) in
      (Spin limit, mkBackoff yields (u32 (hard_spin_count b + 1)) limit)
  else (Sleep, mkBackoff 0 (hard_spin_count b) (hard_spin_limit b)).

Fixpoint waits (n : nat) (b : backoff) : list pause * backoff :=
  match n with
  | O => ([], b)
  | S n => let '(p, b) := wait b in let '(l, b) := waits n b in (p :: l, b)
  end.
End Backoff.

(** ** The threads *)

(** Where a thread is: draining its queue, with a task in hand, about to steal, about to offer,
    then in the loop of [offer_termination]: about to compare the counter, looking at queue
    [j], about to withdraw; and out of the task. *)
Inductive pc := Drain | Task | Steal | Offer | Compare | Look (j : nat) | Withdraw | Done.

(** The tasks in the queue of a thread, where the others can steal, and on its overflow stack. *)
Record thread := mkThread { at_ : pc; queued : nat; overflow : nat }.

Record state := mkState { terminator : ParallelTaskTerminator; threads : list thread }.

(** What a thread does next. A turn processes a task and pushes the references it finds; a
    thief may fail although there are tasks; a look at a queue whose owner pops its last
    element may see it as not empty. *)
Inductive action :=
| PopOverflow
| PopLocal
| Process (to_queue to_overflow : nat)
| Drained
| Stolen (victim : nat)
| NotStolen
| Inc
| Read
| Peek (found : bool)
| Dec.

Definition goto (p : pc) (th : thread) : thread := mkThread p (queued th) (overflow th).

Definition put (s : state) (i : nat) (th : thread) : state := mkState (terminator s) (<[i := th]> (threads s)).

Definition is_draining (p : pc) : bool := match p with Drain => true | _ => false end.

Definition act (s : state) (i : nat) (a : action) : option state :=
  th ← threads s !! i;
  match at_ th, a with
  | Drain, PopOverflow =>
      match overflow th with
      | S n => Some (put s i (mkThread Task (queued th) n))
      | O => None
      end
  | Drain, PopLocal =>
      match queued th with
      | S n => Some (put s i (mkThread Task n (overflow th)))
      | O => None
      end
  | Drain, Drained =>
      if (queued th =? 0)%nat && (overflow th =? 0)%nat then Some (put s i (goto Steal th)) else None
  | Task, Process a b => Some (put s i (mkThread Drain (queued th + a) (overflow th + b)))
  | Steal, Stolen j =>
      v ← threads s !! j;
      match queued v with
      | S n => if (j =? i)%nat then None else
               Some (put (put s j (mkThread (at_ v) n (overflow v))) i (goto Task th))
      | O => None
      end
  | Steal, NotStolen => Some (put s i (goto Offer th))
  | Offer, Inc => Some (mkState (offer_inc (terminator s)) (<[i := goto Compare th]> (threads s)))
  | Compare, Read => Some (put s i (goto (if all_offered (terminator s) then Done else Look 0) th))
  | Look j, Peek found =>
      match threads s !! j with
      | None => if found then None else Some (put s i (goto Compare th))
      | Some v =>
          if found then
            if (0 <? queued v)%nat || is_draining (at_ v) then Some (put s i (goto Withdraw th)) else None
          else if (queued v =? 0)%nat then Some (put s i (goto (Look (S j)) th)) else None
      end
  | Withdraw, Dec => Some (mkState (offer_dec (terminator s)) (<[i := goto Steal th]> (threads s)))
  | _, _ => None
  end.

Inductive step (s s' : state) : Prop :=
| step_act i a : act s i a = Some s' -> step s s'.

(** The threads at the start, with [qs] tasks in their queues and on their stacks. *)
Definition initial (qs : list (nat * nat)) : state :=
  mkState (create (Z.of_nat (length qs))) ((fun q => mkThread Drain q.1 q.2) <$> qs).

(** ** Safety *)

(** The thread has offered to stop. *)
Definition has_offered (th : thread) : bool :=
  match at_ th with Compare | Look _ | Withdraw | Done => true | _ => false end.

(** The thread may hold tasks. *)
Definition busy (th : thread) : bool := match at_ th with Drain | Task => true | _ => false end.

Definition no_tasks (th : thread) : Prop := at_ th <> Task /\ queued th = O /\ overflow th = O.

Definition offers (l : list thread) : Z := Z.of_nat (length (filter (fun th => has_offered th = true) l)).

Record inv (s : state) : Prop := {
  i_few : Z.of_nat (length (threads s)) < 2 ^ 31;
  i_n : _n_threads (terminator s) = Z.of_nat (length (threads s));
  i_offers : _offered_termination (terminator s) = offers (threads s);
  i_idle : forall i th, threads s !! i = Some th -> busy th = false -> queued th = O /\ overflow th = O;
  i_done : forall i th, threads s !! i = Some th -> at_ th = Done ->
    forall j v, threads s !! j = Some v -> busy v = false
}.

Definition offered1 (th : thread) : Z := if has_offered th then 1 else 0.

Lemma offers_insert l i th th' :
  l !! i = Some th -> offers (<[i := th']> l) = offers l - offered1 th + offered1 th'.
Proof.
  unfold offers, offered1. intros Hi. rewrite <- (take_drop_middle l i th Hi) at 2.
  rewrite insert_take_drop by by eapply lookup_lt_Some.
  rewrite !filter_app, !filter_cons, !length_app.
  destruct (has_offered th), (has_offered th'); simpl; lia.
Qed.

Lemma offers_bound l : 0 <= offers l <= Z.of_nat (length l).
Proof. unfold offers. pose proof (length_filter (fun th => has_offered th = true) l). lia. Qed.

Lemma offers_lookup l i th :
  l !! i = Some th ->
  if has_offered th then 0 < offers l else offers l < Z.of_nat (length l).
Proof.
  intros Hi. pose proof (offers_insert l i th (goto Done th) Hi) as E1.
  pose proof (offers_insert l i th (goto Drain th) Hi) as E2.
  pose proof (offers_bound (<[i := goto Done th]> l)) as B1. pose proof (offers_bound (<[i := goto Drain th]> l)) as B2.
  rewrite length_insert in B1, B2. unfold offered1 in E1, E2. simpl in E1, E2. destruct (has_offered th); lia.
Qed.

Lemma offers_all l i th : offers l = Z.of_nat (length l) -> l !! i = Some th -> has_offered th = true.
Proof. intros Ho Hi. pose proof (offers_lookup l i th Hi). destruct (has_offered th); [done | lia]. Qed.

Lemma offers_full l : Forall (fun th => has_offered th = true) l -> offers l = Z.of_nat (length l).
Proof.
  unfold offers. induction 1 as [| th l Hth _ IH]; [done |]. rewrite filter_cons_True by done. simpl. lia.
Qed.

(** One thread moves; the others keep what they have. *)
Lemma term_move s i th th' t :
  inv s -> threads s !! i = Some th ->
  _n_threads t = _n_threads (terminator s) ->
  _offered_termination t = _offered_termination (terminator s) - offered1 th + offered1 th' ->
  (busy th' = false -> queued th' = O /\ overflow th' = O) ->
  (busy th' = true -> busy th = true) ->
  (at_ th' = Done -> at_ th = Done \/ all_offered (terminator s) = true) ->
  inv (mkState t (<[i := th']> (threads s))).
Proof.
  intros [Hf Hn Ho Hi Hd] Hth Htn Hto Hidle Hbusy Hdone. split; simpl.
  - by rewrite length_insert.
  - by rewrite length_insert, Htn.
  - by rewrite (offers_insert _ _ th) by done; rewrite Hto, Ho.
  - intros j v Hj. apply list_lookup_insert_Some in Hj as [(<- & <- & _) | [_ Hj]]; eauto.
  - assert (Hall : forall j v, <[i := th']> (threads s) !! j = Some v -> at_ v = Done ->
      forall k w, threads s !! k = Some w -> busy w = false).
    { intros j v Hj Ev. apply list_lookup_insert_Some in Hj as [(<- & <- & _) | [_ Hj]]; [| by eauto].
      destruct (Hdone Ev) as [Eth | Hao]; [by eauto |]. intros k w Hk.
      unfold all_offered in Hao. apply Z.eqb_eq in Hao. rewrite Ho, Hn in Hao.
      pose proof (offers_all _ _ _ Hao Hk) as Hw. unfold has_offered in Hw. unfold busy. by destruct (at_ w). }
    intros j v Hj Ev k w Hk. pose proof (Hall j v Hj Ev) as Hb.
    apply list_lookup_insert_Some in Hk as [(<- & <- & _) | [_ Hk]]; [| by eauto].
    destruct (busy th') eqn:Eb; [| done]. rewrite <- (Hbusy eq_refl). by eapply Hb.
Qed.

Lemma inv_stolen s i j th v n :
  inv s -> threads s !! i = Some th -> at_ th = Steal -> threads s !! j = Some v -> queued v = S n -> j <> i ->
  inv (put (put s j (mkThread (at_ v) n (overflow v))) i (goto Task th)).
Proof.
  intros Hinv Hi Ei Hj Hq Hne. pose proof Hinv as [Hf Hn Ho Hidle Hd].
  assert (Hvb : busy v = true).
  { destruct (busy v) eqn:E; [done |]. destruct (Hidle _ _ Hj E). congruence. }
  assert (H1 : inv (put s j (mkThread (at_ v) n (overflow v)))).
  { unfold put. eapply term_move; try done; unfold offered1, has_offered, busy in *; simpl in *.
    - destruct (at_ v); lia.
    - by intros E; rewrite Hvb in E.
    - intros E. by rewrite E in Hvb. }
  destruct H1 as [Hf1 Hn1 Ho1 Hi1 Hd1]. unfold put in *. simpl in *.
  assert (Hi' : <[j := mkThread (at_ v) n (overflow v)]> (threads s) !! i = Some th) by by rewrite list_lookup_insert_ne.
  split; simpl.
  - by rewrite length_insert.
  - by rewrite length_insert.
  - rewrite (offers_insert _ _ th) by done. unfold offered1, has_offered. rewrite Ei. simpl. lia.
  - intros k w Hk. apply list_lookup_insert_Some in Hk as [(<- & <- & _) | [_ Hk]]; [done | by eauto].
  - intros k w Hk Ew. exfalso. apply list_lookup_insert_Some in Hk as [(<- & <- & _) | [_ Hk]]; [done |].
    specialize (Hd1 _ _ Hk Ew j (mkThread (at_ v) n (overflow v))).
    rewrite list_lookup_insert_eq in Hd1 by by eapply lookup_lt_Some.
    unfold busy in Hd1, Hvb. simpl in Hd1. rewrite Hd1 in Hvb; done.
Qed.

Lemma i32_count x : 0 <= x < 2 ^ 31 -> i32 x = x.
Proof. intros. apply swrap_small; lia. Qed.

(** A move of one thread, the arithmetic and the cases of the program counter by computation. *)
Local Ltac moves Hi Ep :=
  unfold put; eapply term_move; [done | exact Hi | done | ..];
  unfold offered1, has_offered, busy, goto in *; simpl in *; rewrite ?Ep in *; simpl; try lia; try done; auto.

Lemma inv_act s i a s' : inv s -> act s i a = Some s' -> inv s'.
Proof.
  intros Hinv Ha. unfold act in Ha. destruct (threads s !! i) as [th |] eqn:Hi; [| done]. simpl in Ha.
  pose proof (i_idle s Hinv i th Hi) as Hidle. pose proof (i_offers s Hinv) as Ho.
  pose proof (offers_bound (threads s)) as Hb. pose proof (i_few s Hinv) as Hfew.
  pose proof (offers_lookup (threads s) i th Hi) as Hl. unfold has_offered in Hl.
  destruct (at_ th) eqn:Ep, a; try done.
  - destruct (overflow th); simplify_eq. moves Hi Ep.
  - destruct (queued th); simplify_eq. moves Hi Ep.
  - case_match eqn:E; simplify_eq. apply andb_true_iff in E as [E1%Nat.eqb_eq E2%Nat.eqb_eq]. moves Hi Ep.
  - simplify_eq. moves Hi Ep.
  - destruct (threads s !! victim) as [v |] eqn:Hv; [| done]. simpl in Ha.
    destruct (queued v) eqn:Eq; [done |]. case_match eqn:E; simplify_eq. apply Nat.eqb_neq in E.
    by eapply inv_stolen.
  - simplify_eq. moves Hi Ep.
  - simplify_eq. moves Hi Ep. rewrite i32_count; lia.
  - simplify_eq. destruct (all_offered _) eqn:E; moves Hi Ep.
  - repeat case_match; simplify_eq; moves Hi Ep.
  - simplify_eq. moves Hi Ep. rewrite i32_count; lia.
Qed.

Lemma term_step s s' : inv s -> step s s' -> inv s'.
Proof. intros Hi [i a Ha]. by eapply inv_act. Qed.

Lemma term_steps s s' : inv s -> rtc step s s' -> inv s'.
Proof. intros Hi Hs. induction Hs; eauto using term_step. Qed.

Lemma term_initial qs : Z.of_nat (length qs) < 2 ^ 31 -> inv (initial qs).
Proof.
  intros Hlen. unfold initial. split; simpl.
  - by rewrite length_fmap.
  - by rewrite length_fmap.
  - clear Hlen. induction qs as [| q qs IH]; [done |]. unfold offers in *. by rewrite fmap_cons, filter_cons.
  - intros i th Hi Hb. apply list_lookup_fmap_Some in Hi as ([a b] & -> & _). done.
  - intros i th Hi Hb. apply list_lookup_fmap_Some in Hi as ([a b] & -> & _). done.
Qed.

(** ** The pauses *)

Definition is_sleep (p : pause) : bool := match p with Sleep => true | _ => false end.
Definition is_yield (p : pause) : bool := match p with Yield => true | _ => false end.
Definition count (f : pause -> bool) (l : list pause) : Z := Z.of_nat (length (filter (fun p => f p = true) l)).

Lemma count_cons f p l : count f (p :: l) = (if f p then 1 else 0) + count f l.
Proof. unfold count. rewrite filter_cons. destruct (f p); simpl; lia. Qed.

Lemma quotient a b c r : 0 <= r < b -> a = c * b + r -> a / b = c.
Proof. intros Hr ->. rewrite Z.div_add_l, (Z.div_small r) by lia. lia. Qed.

Section Pauses.
Context (H R Y : Z) (HH : 0 < H < 2 ^ 31) (HR : 0 <= R < 64) (HY : 0 <= Y < 2 ^ 32 - 1).
Implicit Types b : backoff.

Definition backoff_ok b : Prop :=
  0 <= yield_count b <= Y + 1 /\ 0 <= hard_spin_count b <= R + 1 /\
  hard_spin_limit b = Z.min (hard_spin_start H R * 2 ^ hard_spin_count b) H.

Lemma start_range : 1 <= hard_spin_start H R <= H.
Proof using HH HR.
  clear HY. unfold hard_spin_start. rewrite Z.gtb_ltb. assert (0 <= Z.shiftr H R <= H).
  { rewrite Z.shiftr_div_pow2 by lia. split; [apply Z.div_pos; lia |]. apply Z.div_le_upper_bound; [lia |].
    pose proof (Z.pow_pos_nonneg 2 R). nia. }
  rewrite !wrap_small by lia. destruct (0 <? R); lia.
Qed.

Lemma start_ok : backoff_ok (backoff_start H R).
Proof using HH HR HY. unfold backoff_ok, backoff_start. simpl. pose proof start_range. lia. Qed.

(** What a turn does, in terms of the number of the spins since the last yield. *)
Lemma wait_ok b :
  backoff_ok b ->
  let '(p, b') := wait H R Y b in
  backoff_ok b' /\
  match p with
  | Sleep => yield_count b = Y + 1 /\ yield_count b' = 0 /\ hard_spin_count b' = hard_spin_count b
  | Yield => hard_spin_count b = R + 1 /\ hard_spin_count b' = 0 /\ yield_count b' = yield_count b + 1
  | Spin t => t = Z.min (hard_spin_start H R * 2 ^ (hard_spin_count b + 1)) H /\ 1 <= t <= H /\
      hard_spin_count b' = hard_spin_count b + 1 /\ yield_count b' = yield_count b + 1
  end.
Proof using HH HR HY.
  intros (Hy & Hc & Hl). unfold wait. pose proof start_range as Hs. rewrite Z.gtb_ltb.
  destruct (Z.leb_spec (yield_count b) Y); [| by simpl; unfold backoff_ok; simpl; lia].
  destruct (Z.ltb_spec R (hard_spin_count b)); simpl.
  - rewrite wrap_small by lia. unfold backoff_ok. simpl. lia.
  - pose proof (Z.pow_pos_nonneg 2 (hard_spin_count b)) as Hp. pose proof (Z.pow_succ_r 2 (hard_spin_count b)) as Hp'.
    assert (1 <= hard_spin_limit b <= H) by nia. rewrite !wrap_small by lia.
    replace (hard_spin_count b + 1) with (Z.succ (hard_spin_count b)) by lia.
    assert (Z.min (2 * hard_spin_limit b) H = Z.min (hard_spin_start H R * 2 ^ Z.succ (hard_spin_count b)) H) as E by nia.
    unfold backoff_ok. simpl. rewrite E. split_and!; try lia.
Qed.

Lemma waits_ok n : forall b, backoff_ok b ->
  let '(l, b') := waits H R Y n b in
  backoff_ok b' /\ Forall (fun p => match p with Spin t => 1 <= t <= H | _ => True end) l /\
  yield_count b' = yield_count b + Z.of_nat n - count is_sleep l * (Y + 2) /\
  hard_spin_count b' = hard_spin_count b + (Z.of_nat n - count is_sleep l) - count is_yield l * (R + 2).
Proof using HH HR HY.
  induction n as [| n IH]; intros b Hb.
  - simpl. split; [done |]. split; [done |]. unfold count. simpl. lia.
  - cbn [waits]. pose proof (wait_ok b Hb) as Hw. destruct (wait H R Y b) as [p b1]. destruct Hw as [Hb1 Hp].
    specialize (IH b1 Hb1). destruct (waits H R Y n b1) as [l b']. destruct IH as (Hb' & Hl & Hy & Hc).
    rewrite !count_cons. split; [done |]. split.
    + constructor; [by destruct p as [| t |]; [| lia |] | done].
    + destruct p; simpl; lia.
Qed.

(** The pauses of a thread in [offer_termination]: no spin is longer than
    [WorkStealingHardSpins] turns, although the limit doubles; after [n] looks it has slept
    exactly once for every [WorkStealingYieldsBeforeSleep + 2] of them, and among the others
    yielded once for every [WorkStealingSpinToYieldRatio + 2]. *)
Theorem backoff_bounds (n : nat) :
  let l := (waits H R Y n (backoff_start H R)).1 in
  Forall (fun p => match p with Spin t => 1 <= t <= H | _ => True end) l /\
  count is_sleep l = Z.of_nat n / (Y + 2) /\
  count is_yield l = (Z.of_nat n - Z.of_nat n / (Y + 2)) / (R + 2).
Proof using HH HR HY.
  pose proof (waits_ok n _ start_ok) as Hw. destruct (waits H R Y n (backoff_start H R)) as [l b]. simpl in *.
  destruct Hw as ((Hy & Hc & _) & Hl & Ey & Ec). split; [done |].
  assert (Z.of_nat n / (Y + 2) = count is_sleep l) as -> by (apply quotient with (yield_count b); lia).
  split; [done |]. symmetry. apply quotient with (hard_spin_count b); lia.
Qed.

End Pauses.

(** With [WorkStealingSpinToYieldRatio] zero, where a comment has no hard spinning done, every
    second turn is the longest spin. *)
Lemma ratio_zero_spins H Y :
  0 < H < 2 ^ 31 -> 0 < Y -> (waits H 0 Y 2 (backoff_start H 0)).1 = [Spin H; Yield].
Proof.
  intros HH HY. unfold backoff_start, hard_spin_start, wait, waits, wait. simpl.
  rewrite !(wrap_small 32 H), (wrap_small 32 (2 * H)), Z.min_r by lia.
  rewrite (proj2 (Z.leb_le 0 Y)) by lia. change (u32 (0 + 1)) with 1. simpl.
  by rewrite (proj2 (Z.leb_le 1 Y)) by lia.
Qed.

Lemma backoff_bounds_witness :
  count is_sleep (waits 4096 10 50 104 (backoff_start 4096 10)).1 = 2 /\
  count is_yield (waits 4096 10 50 104 (backoff_start 4096 10)).1 = 8.
Proof.
  pose proof (backoff_bounds 4096 10 50 ltac:(lia) ltac:(lia) ltac:(lia) 104) as (_ & Hs & Hy).
  cbv zeta in Hs, Hy. rewrite Hs, Hy. split; vm_compute; reflexivity.
Defined.

Lemma done_act s j a s' i th :
  act s j a = Some s' -> threads s !! i = Some th -> at_ th = Done ->
  exists th', threads s' !! i = Some th' /\ at_ th' = Done.
Proof.
  intros Ha Hi Ei. unfold act in Ha. destruct (threads s !! j) as [u |] eqn:Hj; [| done]. simpl in Ha.
  destruct (decide (i = j)) as [-> | Hne]; [simplify_eq; by rewrite Ei in Ha |].
  destruct (at_ u), a; try done.
  5: { destruct (threads s !! victim) as [v |] eqn:Hv; [| done]. simpl in Ha. repeat case_match; simplify_eq.
    simpl. rewrite list_lookup_insert_ne by done. destruct (decide (victim = i)) as [-> |].
    - rewrite list_lookup_insert_eq by by eapply lookup_lt_Some. simplify_eq. eauto.
    - rewrite list_lookup_insert_ne by done. eauto. }
  all: repeat case_match; simplify_eq; simpl; rewrite list_lookup_insert_ne by done; eauto.
Qed.

Lemma done_steps s s' i th :
  rtc step s s' -> threads s !! i = Some th -> at_ th = Done -> exists th', threads s' !! i = Some th' /\ at_ th' = Done.
Proof.
  intros Hs. revert th. induction Hs as [| s1 s2 s3 [j a Ha] _ IH]; intros th Hi Ei; [eauto |].
  destruct (done_act _ _ _ _ _ _ Ha Hi Ei) as (th' & Hi' & Ei'). eauto.
Qed.

Lemma length_act s j a s' : act s j a = Some s' -> length (threads s') = length (threads s).
Proof.
  unfold act. intros Ha. destruct (threads s !! j) as [u |] eqn:Hj; [| done]. simpl in Ha.
  destruct (at_ u), a; try done.
  5: { destruct (threads s !! victim) as [v |]; [| done]. simpl in Ha. repeat case_match; simplify_eq.
    simpl. by rewrite !length_insert. }
  all: repeat case_match; simplify_eq; simpl; by rewrite length_insert.
Qed.

Lemma length_steps s s' : rtc step s s' -> length (threads s') = length (threads s).
Proof. induction 1 as [| s1 s2 s3 [j a Ha] _ IH]; [done |]. rewrite IH. by eapply length_act. Qed.

(** C17. However the threads of [StealBDARefTask::do_it] interleave, from any queues, when the
    offer of one of them is accepted there is no task left: no thread has one in hand, the
    queues and the overflow stacks are empty, and they stay so; the counter of the offers is
    between zero and the number of the threads throughout. *)
Theorem termination_is_safe (qs : list (nat * nat)) (s : state)
  (Hlen : Z.of_nat (length qs) < 2 ^ 31) (Hrun : rtc step (initial qs) s) :
  0 <= _offered_termination (terminator s) <= Z.of_nat (length qs) /\
  (Exists (fun th => at_ th = Done) (threads s) ->
   forall s', rtc step s s' -> Forall no_tasks (threads s')).
Proof.
  assert (Hinv : inv s) by eauto using term_steps, term_initial. split.
  - rewrite (i_offers s Hinv). pose proof (offers_bound (threads s)) as Hb.
    rewrite (length_steps _ _ Hrun) in Hb. unfold initial in Hb. simpl in Hb. by rewrite length_fmap in Hb.
  - intros (th & Hin & Hth)%Exists_exists s' Hs. apply list_elem_of_lookup in Hin as [i Hi].
    destruct (done_steps _ _ _ _ Hs Hi Hth) as (th' & Hi' & Hth').
    assert (Hinv' : inv s') by eauto using term_steps. apply Forall_lookup. intros j v Hj.
    pose proof (i_done s' Hinv' i th' Hi' Hth' j v Hj) as Hb. split; [| by apply (i_idle s' Hinv' j v)].
    unfold busy in Hb. by destruct (at_ v).
Qed.

(** ** Termination *)

(** A thread that has not left the task can always act. *)
Lemma thread_enabled s i th : threads s !! i = Some th -> at_ th <> Done -> exists a s', act s i a = Some s'.
Proof.
  intros Hi Hd. unfold act. rewrite Hi. cbn [mbind option_bind]. destruct (at_ th) as [| | | | | j | |]; [| | | | | | | done].
  - destruct (overflow th) eqn:Eo; [| by exists PopOverflow; eauto].
    destruct (queued th) eqn:Eq; [| by exists PopLocal; eauto]. exists Drained. eauto.
  - exists (Process 0 0). eauto.
  - exists NotStolen. eauto.
  - exists Inc. eauto.
  - exists Read. eauto.
  - destruct (threads s !! j) as [v |]; [| by exists (Peek false); eauto].
    destruct (queued v) as [| n]; [exists (Peek false) | exists (Peek true)]; cbn; eauto.
  - exists Dec. eauto.
Qed.

Lemma pc_kept s j a s' i th :
  act s j a = Some s' -> i <> j -> threads s !! i = Some th -> exists th', threads s' !! i = Some th' /\ at_ th' = at_ th.
Proof.
  intros Ha Hne Hi. unfold act in Ha. destruct (threads s !! j) as [u |] eqn:Hj; [| done]. simpl in Ha.
  destruct (at_ u), a; try done.
  5: { destruct (threads s !! victim) as [v |] eqn:Hv; [| done]. simpl in Ha. repeat case_match; simplify_eq.
    simpl. rewrite list_lookup_insert_ne by done. destruct (decide (victim = i)) as [-> |].
    - rewrite list_lookup_insert_eq by by eapply lookup_lt_Some. simplify_eq. eauto.
    - rewrite list_lookup_insert_ne by done. eauto. }
  all: repeat case_match; simplify_eq; simpl; rewrite list_lookup_insert_ne by done; eauto.
Qed.

Lemma sum_insert (f : thread -> nat) l i th th' :
  l !! i = Some th -> (sum_list_with f (<[i := th']> l) + f th = sum_list_with f l + f th')%nat.
Proof.
  intros Hi. rewrite <- (take_drop_middle l i th Hi) at 2. rewrite insert_take_drop by by eapply lookup_lt_Some.
  rewrite !sum_list_with_app. simpl. lia.
Qed.

(** What is left to do with the tasks there are: each is popped or stolen, processed, and the thread
    that did so finds its queue drained. *)
Definition load (th : thread) : nat :=
  3 * (queued th + overflow th) + match at_ th with Task => 2 | Drain => 1 | _ => 0 end.
Definition work (s : state) : nat := sum_list_with load (threads s).

Definition pushes (a : action) : nat := match a with Process to_queue to_overflow => to_queue + to_overflow | _ => 0 end.

Lemma act_work s i a s' th :
  act s i a = Some s' -> threads s !! i = Some th ->
  (work s' + (if busy th then 1 else 0) <= work s + 3 * pushes a)%nat.
Proof.
  intros Ha Hi. unfold act in Ha. rewrite Hi in Ha. simpl in Ha. unfold work, busy.
  assert (forall th', threads s' = <[i := th']> (threads s) ->
    (load th' + (if busy th then 1 else 0) <= load th + 3 * pushes a)%nat ->
    (sum_list_with load (threads s') + (if busy th then 1 else 0) <= sum_list_with load (threads s) + 3 * pushes a)%nat) as Hone.
  { intros th' -> Hl. pose proof (sum_insert load (threads s) i th th' Hi). lia. }
  unfold busy, load in Hone.
  destruct (at_ th) eqn:Ep, a; try done.
  5: { destruct (threads s !! victim) as [v |] eqn:Hv; [| done]. simpl in Ha. destruct (queued v) as [| n] eqn:Eq; [done |].
    destruct (Nat.eqb_spec victim i) as [| E]; [done |]. simplify_eq. cbn [threads put].
    pose proof (sum_insert load (threads s) victim v (mkThread (at_ v) n (overflow v)) Hv) as H1.
    pose proof (sum_insert load (<[victim := mkThread (at_ v) n (overflow v)]> (threads s)) i th (goto Task th)) as H2.
    rewrite list_lookup_insert_ne in H2 by done. specialize (H2 Hi).
    assert (load v = 3 + load (mkThread (at_ v) n (overflow v)))%nat by (unfold load; simpl; rewrite Eq; lia).
    assert (load (goto Task th) = load th + 2)%nat by (unfold load; simpl; rewrite Ep; lia).
    cbn [pushes]. lia. }
  all: repeat case_match; simplify_eq; (eapply Hone; [reflexivity |]); simpl; lia.
Qed.

(** What the threads do when none of them has a task; [all] says that all have offered. *)
Inductive idle_move (n : nat) (all : bool) : pc -> pc -> Prop :=
| idle_steal : idle_move n all Steal Offer
| idle_offer : idle_move n all Offer Compare
| idle_compare : idle_move n all Compare (if all then Done else Look 0)
| idle_look j : (j < n)%nat -> idle_move n all (Look j) (Look (S j))
| idle_looked j : idle_move n all (Look j) Compare
| idle_withdraw : idle_move n all Withdraw Steal.

Definition idle (s : state) : Prop := forall i th, threads s !! i = Some th -> busy th = false.

Lemma act_idle s i a s' th :
  inv s -> idle s -> act s i a = Some s' -> threads s !! i = Some th ->
  exists p, threads s' = <[i := goto p th]> (threads s) /\
    idle_move (length (threads s)) (all_offered (terminator s)) (at_ th) p.
Proof.
  intros Hinv Hid Ha Hi. pose proof (Hid i th Hi) as Hb.
  assert (forall j v, threads s !! j = Some v -> queued v = O) as Hq
    by (intros j v Hj; apply (i_idle s Hinv j v Hj), (Hid j v Hj)).
  unfold act in Ha. rewrite Hi in Ha. simpl in Ha. unfold busy in Hb.
  destruct (at_ th) as [| | | | | j | |] eqn:Ep, a; try done; simplify_eq.
  - destruct (threads s !! victim) as [v |] eqn:Hv; [| done]. simpl in Ha. by rewrite (Hq victim v Hv) in Ha.
  - eexists. split; [reflexivity | constructor].
  - eexists. split; [reflexivity | constructor].
  - eexists. split; [reflexivity | constructor].
  - destruct (threads s !! j) as [v |] eqn:Hj.
    + rewrite (Hq j v Hj) in Ha. destruct found; cbn in Ha.
      * specialize (Hid j v Hj). unfold busy in Hid. by destruct (at_ v).
      * simplify_eq. eexists. split; [reflexivity |]. constructor. by eapply lookup_lt_Some.
    + destruct found; simplify_eq. eexists. split; [reflexivity | constructor].
  - eexists. split; [reflexivity | constructor].
Qed.

(** Those on their way to an offer, and those who wait for the others. *)
Definition unoffered (p : pc) : bool := match p with Steal | Offer | Withdraw => true | _ => false end.
Definition to_offer (th : thread) : nat := match at_ th with Withdraw => 3 | Steal => 2 | Offer => 1 | _ => 0 end.
Definition to_leave (n : nat) (th : thread) : nat := match at_ th with Compare => 1 | Look j => 2 + (n - j) | _ => 0 end.

Section Fair.
(** An infinite run: at each point a thread acts, or nothing happens. *)
Context (run : nat -> state) (label : nat -> option (nat * action)).

Definition valid_run : Prop := forall n,
  match label n with Some (i, a) => act (run n) i a = Some (run (S n)) | None => run (S n) = run n end.

(** A thread that has not left the task acts again. *)
Definition fair : Prop := forall n i th,
  threads (run n) !! i = Some th -> at_ th <> Done -> exists m a, (n <= m)%nat /\ label m = Some (i, a).

(** The tasks that were pushed before the point [n]. *)
Fixpoint pushed (n : nat) : nat :=
  match n with O => 0 | S n => pushed n + match label n with Some (_, a) => pushes a | None => 0 end end.

Context (Hrun : valid_run) (Hfair : fair).

(** The threads at a point of [C] leave it, if their actions lower a measure that no action raises. *)
Lemma fair_exit (C : pc -> bool) (mu : nat -> nat) (n0 : nat) :
  C Done = false ->
  (forall n, (n0 <= n)%nat ->
     match label n with
     | Some (i, _) => forall th, threads (run n) !! i = Some th -> (mu (S n) + (if C (at_ th) then 1 else 0) <= mu n)%nat
     | None => (mu (S n) <= mu n)%nat
     end) ->
  exists m, (n0 <= m)%nat /\ forall i th, threads (run m) !! i = Some th -> C (at_ th) = false.
Proof using Hrun Hfair.
  intros HC Hmu.
  assert (forall d n i th, (n0 <= n)%nat -> threads (run n) !! i = Some th -> C (at_ th) = true ->
    (exists a, label (n + d) = Some (i, a)) -> exists m, (n <= m)%nat /\ (mu m < mu n)%nat) as Hdrop.
  { induction d as [| d IH]; intros n i th Hn Hi HCi [a Hl].
    - rewrite Nat.add_0_r in Hl. specialize (Hmu n Hn). rewrite Hl in Hmu. specialize (Hmu th Hi).
      rewrite HCi in Hmu. exists (S n). lia.
    - pose proof (Hrun n) as Hst. specialize (Hmu n Hn). destruct (label n) as [[j b] |] eqn:Hj.
      + destruct (threads (run n) !! j) as [u |] eqn:Hu; [| by unfold act in Hst; rewrite Hu in Hst].
        specialize (Hmu u eq_refl). destruct (decide (j = i)) as [-> | Hne].
        { rewrite Hi in Hu. injection Hu as <-. rewrite HCi in Hmu. exists (S n). lia. }
        destruct (pc_kept _ _ _ _ i th Hst ltac:(congruence) Hi) as (th' & Hi' & Ep).
        destruct (IH (S n) i th' ltac:(lia) Hi' ltac:(congruence)) as (m & Hm & Hlt);
          [exists a; rewrite <- Hl; f_equal; lia |]. exists m. lia.
      + rewrite <- Hst in Hi. destruct (IH (S n) i th ltac:(lia) Hi HCi) as (m & Hm & Hlt);
          [exists a; rewrite <- Hl; f_equal; lia |]. exists m. lia. }
  assert (forall k n, (mu n < k)%nat -> (n0 <= n)%nat ->
    exists m, (n0 <= m)%nat /\ forall i th, threads (run m) !! i = Some th -> C (at_ th) = false) as Hgo.
  { induction k as [| k IH]; intros n Hk Hn; [lia |].
    destruct (decide (Forall (fun th => C (at_ th) = false) (threads (run n)))) as [Hall | Hex].
    - exists n. split; [done |]. intros i th Hi. by apply (proj1 (Forall_lookup _ _) Hall i).
    - apply not_Forall_Exists in Hex; [| apply _]. apply Exists_exists in Hex as (th & Hin & Hx).
      apply list_elem_of_lookup in Hin as [i Hi]. apply not_false_is_true in Hx.
      destruct (Hfair n i th Hi) as (m & a & Hm & Hl); [intros E; congruence |].
      destruct (Hdrop (m - n)%nat n i th Hn Hi Hx) as (m' & Hm' & Hlt).
      + exists a. by replace (n + (m - n))%nat with m by lia.
      + apply (IH m'); lia. }
  apply (Hgo (S (mu n0)) n0); lia.
Qed.

(** What the actions keep stays for the rest of the run. *)
Lemma run_keeps (P : state -> Prop) (n0 : nat) :
  P (run n0) -> (forall s i a s', P s -> act s i a = Some s' -> P s') -> forall n, (n0 <= n)%nat -> P (run n).
Proof using Hrun.
  clear Hfair. intros H0 Hst n Hn. induction Hn as [| n Hn IH]; [done |]. pose proof (Hrun n) as Hl.
  destruct (label n) as [[i a] |]; [by eapply Hst | by rewrite Hl].
Qed.
End Fair.

Lemma act_lookup s i a s' : act s i a = Some s' -> exists th, threads s !! i = Some th.
Proof. unfold act. destruct (threads s !! i) as [th |]; [by exists th | done]. Qed.

(** Threads without tasks stay so, and those that have offered too. *)
Lemma idle_act s i a s' : inv s /\ idle s -> act s i a = Some s' -> inv s' /\ idle s'.
Proof.
  intros [Hinv Hid] Ha. split; [by eapply inv_act |]. destruct (act_lookup _ _ _ _ Ha) as [th Hi].
  destruct (act_idle s i a s' th Hinv Hid Ha Hi) as (p & E & Hp). intros j v. rewrite E.
  intros [(_ & <- & _) | [_ Hj]]%list_lookup_insert_Some; [| by apply (Hid j)].
  unfold busy, goto. cbn. inversion Hp; try done. by destruct (all_offered _).
Qed.

Definition offered (s : state) : Prop := forall i th, threads s !! i = Some th -> unoffered (at_ th) = false.

Lemma offered_all s : inv s -> idle s -> offered s -> all_offered (terminator s) = true.
Proof.
  intros Hinv Hid Ho. unfold all_offered. apply Z.eqb_eq. rewrite (i_offers s Hinv), (i_n s Hinv).
  apply offers_full, Forall_lookup. intros j v Hj. specialize (Hid j v Hj). specialize (Ho j v Hj).
  unfold busy, unoffered, has_offered in *. by destruct (at_ v).
Qed.

Lemma offered_act s i a s' :
  (inv s /\ idle s) /\ offered s -> act s i a = Some s' -> (inv s' /\ idle s') /\ offered s'.
Proof.
  intros [[Hinv Hid] Ho] Ha. split; [by eapply idle_act |]. destruct (act_lookup _ _ _ _ Ha) as [th Hi].
  destruct (act_idle s i a s' th Hinv Hid Ha Hi) as (p & E & Hp). intros j v. rewrite E.
  intros [(_ & <- & _) | [_ Hj]]%list_lookup_insert_Some; [| by apply (Ho j)].
  specialize (Ho i th Hi). unfold unoffered, goto in *. cbn. inversion Hp as [E1 | E1 | E1 | ? ? E1 | ? E1 | E1]; rewrite <- ?E1 in Ho; try done.
  by destruct (all_offered _).
Qed.

Section Phases.
Context (run : nat -> state) (label : nat -> option (nat * action)).
Context (Hrun : valid_run run label) (Hfair : fair run label) (Hinv : forall n, inv (run n)).

(** The tasks are used up. *)
Lemma tasks_end (bound : nat) :
  (forall n, (pushed label n <= bound)%nat) -> exists m, forall n, (m <= n)%nat -> inv (run n) /\ idle (run n).
Proof using Hrun Hfair Hinv.
  intros Hpushed. destruct (fair_exit run label Hrun Hfair (fun p => match p with Drain | Task => true | _ => false end)
    (fun n => work (run n) + 3 * (bound - pushed label n))%nat 0 eq_refl) as (m & _ & Hm).
  - intros n _. pose proof (Hrun n) as Hst. pose proof (Hpushed (S n)) as Hp. cbn [pushed] in Hp |- *.
    destruct (label n) as [[i a] |]; [| rewrite Hst; lia]. intros th Hi. pose proof (act_work _ _ _ _ _ Hst Hi) as Hw.
    unfold busy in Hw. lia.
  - exists m. apply (run_keeps run label Hrun (fun s => inv s /\ idle s)); [by split | apply idle_act].
Qed.

(** Threads without tasks all offer to stop. *)
Lemma offers_end (m : nat) :
  (forall n, (m <= n)%nat -> inv (run n) /\ idle (run n)) ->
  exists m', forall n, (m' <= n)%nat -> (inv (run n) /\ idle (run n)) /\ offered (run n).
Proof using Hrun Hfair.
  intros Hidle. destruct (fair_exit run label Hrun Hfair unoffered
    (fun n => sum_list_with to_offer (threads (run n))) m eq_refl) as (m' & Hm & Ho).
  - intros n Hn. pose proof (Hrun n) as Hst. destruct (label n) as [[i a] |]; [| by rewrite Hst]. intros th Hi.
    destruct (act_idle _ _ _ _ th (proj1 (Hidle n Hn)) (proj2 (Hidle n Hn)) Hst Hi) as (p & -> & Hp).
    pose proof (sum_insert to_offer _ i th (goto p th) Hi) as E. unfold to_offer in E at 2 4. cbn [goto at_] in E.
    destruct Hp; try destruct (all_offered _); cbn [unoffered]; lia.
  - exists m'. apply (run_keeps run label Hrun (fun s => (inv s /\ idle s) /\ offered s)); [| apply offered_act].
    split; [by apply Hidle | done].
Qed.

(** And then leave. *)
Lemma threads_leave (m : nat) :
  (forall n, (m <= n)%nat -> (inv (run n) /\ idle (run n)) /\ offered (run n)) ->
  exists n, Forall (fun th => at_ th = Done) (threads (run n)).
Proof using Hrun Hfair.
  intros Hoff. destruct (fair_exit run label Hrun Hfair (fun p => match p with Done => false | _ => true end)
    (fun n => sum_list_with (to_leave (length (threads (run m)))) (threads (run n))) m eq_refl) as (n & _ & Hn).
  - intros n Hn. pose proof (Hrun n) as Hst. destruct (label n) as [[i a] |]; [| by rewrite Hst]. intros th Hi.
    destruct (Hoff n Hn) as [[Hi1 Hi2] Ho]. pose proof (Ho i th Hi) as Hth.
    destruct (act_idle _ _ _ _ th Hi1 Hi2 Hst Hi) as (p & -> & Hp). rewrite (offered_all _ Hi1 Hi2 Ho) in Hp.
    assert (length (threads (run n)) = length (threads (run m))) as El.
    { apply (run_keeps run label Hrun (fun s => length (threads s) = length (threads (run m))) m eq_refl); [| done].
      intros s j b s' E Hb. rewrite <- E. by eapply length_act. }
    rewrite El in Hp. pose proof (sum_insert (to_leave (length (threads (run m)))) _ i th (goto p th) Hi) as E.
    unfold to_leave in E at 2 4. cbn [goto at_] in E. destruct Hp; try done; lia.
  - exists n. apply Forall_lookup. intros i th Hi. specialize (Hn i th Hi). by destruct (at_ th).
Qed.
End Phases.

(** C36. The threads of [StealBDARefTask::do_it] terminate.  In an infinite run the threads interleave in any
    way, each turn pushes what it likes, thieves fail or succeed, and looks at the queues of threads that are
    draining find them empty or not.  If only finitely many tasks are pushed in all, and a thread that has
    not left the task always acts again at some time, then all threads leave the task.
    ([thread_enabled]: such a thread can always act.) *)
Theorem fair_termination (qs : list (nat * nat)) (run : nat -> state) (label : nat -> option (nat * action)) (bound : nat)
    (Hlen : Z.of_nat (length qs) < 2 ^ 31) (Hstart : run 0%nat = initial qs)
    (Hrun : valid_run run label) (Hfair : fair run label) (Hpushed : forall n, (pushed label n <= bound)%nat) :
  exists n, Forall (fun th => at_ th = Done) (threads (run n)).
Proof.
  assert (forall n, inv (run n)) as Hinv.
  { intros n. apply (run_keeps run label Hrun inv 0); [by rewrite Hstart; apply term_initial | | lia].
    intros s i a s'. apply inv_act. }
  destruct (tasks_end run label Hrun Hfair Hinv bound Hpushed) as (n1 & H1).
  destruct (offers_end run label Hrun Hfair n1 H1) as (n2 & H2). by apply (threads_leave run label Hrun Hfair n2).
Qed.

(** Thread 0 has one task, which pushes one more; thread 1 offers to stop, withdraws as it sees
    the task, steals it and both stop. *)
Definition sample_actions : list (nat * action) :=
  [(1, Drained); (1, NotStolen); (1, Inc); (1, Read); (0, PopOverflow); (0, Process 1 0); (1, Peek true); (1, Dec);
   (1, Stolen 0); (0, Drained); (0, NotStolen); (0, Inc); (0, Read); (1, Process 0 0); (1, Drained); (1, NotStolen);
   (1, Inc); (1, Read); (0, Peek false); (0, Peek false); (0, Peek false); (0, Read)]%nat.

Fixpoint acts (l : list (nat * action)) (s : state) : option state :=
  match l with
  | [] => Some s
  | (i, a) :: l => s ← act s i a; acts l s
  end.

Lemma acts_steps l : forall s s', acts l s = Some s' -> rtc step s s'.
Proof.
  induction l as [| [i a] l IH]; intros s s' Hr; simpl in Hr; [simplify_eq; done |].
  destruct (act s i a) as [s1 |] eqn:Ha; [| done]. eapply rtc_l; [by eapply step_act |]. by apply IH.
Qed.

Definition sample_end : state := mkState (mkTerminator 2 2) [mkThread Done 0 0; mkThread Done 0 0].

Lemma termination_is_safe_witness :
  rtc step (initial [(0, 1); (0, 0)]%nat) sample_end /\ Forall no_tasks (threads sample_end).
Proof.
  assert (rtc step (initial [(0, 1); (0, 0)]%nat) sample_end) as Hrun by (by apply (acts_steps sample_actions)).
  split; [done |]. apply (termination_is_safe [(0, 1); (0, 0)]%nat sample_end ltac:(simpl; lia) Hrun); [| done].
  by left.
Defined.

(** The run that takes the sample actions and then stands still. *)
Definition sample_run (n : nat) : state := default sample_end (acts (take n sample_actions) (initial [(0, 1); (0, 0)]%nat)).
Definition sample_label (n : nat) : option (nat * action) := sample_actions !! n.

Lemma sample_valid : valid_run sample_run sample_label.
Proof.
  intros n. do 22 (destruct n as [| n]; [vm_compute; reflexivity |]).
  cbn [sample_label sample_actions lookup list_lookup]. unfold sample_run. by rewrite !take_ge by (simpl; lia).
Qed.

Lemma sample_fair : fair sample_run sample_label.
Proof.
  intros n i th Hi Hd. destruct (decide (22 <= n)%nat) as [Hn | Hn].
  { unfold sample_run in Hi. rewrite take_ge in Hi by (simpl; lia). vm_compute in Hi.
    destruct i as [| [| i]]; [by injection Hi as <- | by injection Hi as <- | done]. }
  destruct i as [| [| i]].
  - exists 21%nat, Read. split; [lia | reflexivity].
  - destruct (decide (n <= 17)%nat); [exists 17%nat, Read; split; [lia | reflexivity] |].
    do 22 (destruct n as [| n]; [first [lia | vm_compute in Hi; injection Hi as <-; done] |]). lia.
  - do 22 (destruct n as [| n]; [vm_compute in Hi; discriminate Hi |]). lia.
Qed.

Lemma sample_pushed n : (pushed sample_label n <= 1)%nat.
Proof.
  assert (forall k, pushed sample_label (22 + k)%nat = 1%nat) as Hlate.
  { induction k as [| k IH]; [vm_compute; reflexivity |]. rewrite Nat.add_succ_r.
    assert (sample_label (22 + k)%nat = None) as E by (apply lookup_ge_None_2; simpl; lia).
    generalize dependent (22 + k)%nat. intros j IH E. cbn [pushed]. by rewrite IH, E. }
  destruct (decide (22 <= n)%nat) as [Hn |].
  - replace n with (22 + (n - 22))%nat by lia. by rewrite Hlate.
  - do 22 (destruct n as [| n]; [vm_compute; lia |]). lia.
Qed.

Lemma fair_termination_witness : exists n, Forall (fun th => at_ th = Done) (threads (sample_run n)).
Proof.
  apply (fair_termination [(0, 1); (0, 0)]%nat sample_run sample_label 1).
  - simpl. lia.
  - reflexivity.
  - exact sample_valid.
  - exact sample_fair.
  - exact sample_pushed.
Defined.

End Terminator.
