(* ===== verification/Oops.v ===== *)
(** * Objects: mark words, layouts and tasks

    The parts of [oops/markOop.hpp], [oops/klass.hpp], [oops/oop.inline.hpp],
    [oops/arrayOop.hpp], [oops/instanceKlass.cpp] and [oops/objArrayKlass.cpp] that the
    scavenger reads: forwarding pointers in mark words, the size of an object from the layout
    helper of its class, the places of its references; and the tasks of
    [utilities/taskqueue.hpp] and [psPromotionManager.hpp], which keep a kind in the low bits of
    an address. References and class pointers are not compressed. *)

From Stdlib Require Import ZArith Lia.
From stdpp Require Import base numbers list.
From S2P Require Import Prelude GlobalDefs CollectedHeap.

Local Open Scope Z_scope.

Module Oops.
Import CollectedHeap.

(** ** Mark words *)

Definition lock_mask_in_place : Z := 3.
Definition biased_lock_mask_in_place : Z := 7.
Definition unlocked_value : Z := 1.
Definition marked_value : Z := 3.
Definition biased_lock_pattern : Z := 5.
Definition hash_shift : Z := 8.
Definition hash_mask : Z := 2 ^ 31 - 1.

Definition has_bias_pattern (mark : Z) : bool := Z.land mark biased_lock_mask_in_place =? biased_lock_pattern.
Definition is_unlocked (mark : Z) : bool := Z.land mark biased_lock_mask_in_place =? unlocked_value.
Definition is_marked (mark : Z) : bool := Z.land mark lock_mask_in_place =? marked_value.
Definition set_marked (mark : Z) : Z := Z.lor (Z.land mark (not64 lock_mask_in_place)) marked_value.
Definition clear_lock_bits (mark : Z) : Z := Z.land mark (not64 lock_mask_in_place).
Definition hash (mark : Z) : Z := Z.land (Z.shiftr mark hash_shift) hash_mask.
Definition has_no_hash (mark : Z) : bool := hash mark =? 0.

Definition encode_pointer_as_mark (p : Z) : Z := set_marked p.
Definition decode_pointer (UseBiasedLocking : bool) (mark : Z) : Z :=
  if UseBiasedLocking && has_bias_pattern mark then NULL else clear_lock_bits mark.

(** [prototype] is the mark of a new object of the class. *)
Definition must_be_preserved_for_promotion_failure (UseBiasedLocking : bool) (prototype mark : Z) : bool :=
  if negb UseBiasedLocking then negb (is_unlocked mark) || negb (has_no_hash mark)
  else if has_bias_pattern mark || has_bias_pattern prototype then true
  else negb (is_unlocked mark) || negb (has_no_hash mark).

(** ** Layout helpers, [jint] values *)

Definition lh_neutral_value : Z := 0.
Definition lh_array_tag_shift : Z := 30.
Definition lh_array_tag_type_value : Z := -1.
Definition lh_array_tag_obj_value : Z := -2.

Definition layout_helper_needs_slow_path (lh : Z) : bool := negb (Z.land lh 1 =? 0).
Definition layout_helper_is_instance (lh : Z) : bool := lh >? lh_neutral_value.
Definition layout_helper_is_array (lh : Z) : bool := lh <? lh_neutral_value.
Definition layout_helper_is_typeArray (lh : Z) : bool :=
  u32 lh >=? u32 (i32 (Z.shiftl lh_array_tag_type_value lh_array_tag_shift)).
Definition layout_helper_is_objArray (lh : Z) : bool :=
  lh <? i32 (Z.shiftl lh_array_tag_type_value lh_array_tag_shift).
Definition layout_helper_header_size (lh : Z) : Z := Z.land (Z.shiftr lh 16) 255.
Definition layout_helper_element_type (lh : Z) : Z := Z.land (Z.shiftr lh 8) 255.
Definition layout_helper_log2_element_size (lh : Z) : Z := Z.land lh 63.
Definition array_layout_helper (tag hsize etype log2_esize : Z) : Z :=
  i32 (Z.lor (Z.lor (Z.lor (Z.shiftl tag lh_array_tag_shift) (Z.shiftl hsize 16)) (Z.shiftl etype 8)) log2_esize).
Definition instance_layout_helper (size : Z) (slow_path_flag : bool) : Z :=
  i32 (Z.lor (Z.shiftl size LogHeapWordSize) (if slow_path_flag then 1 else 0)).
Definition layout_helper_to_size_helper (lh : Z) : Z := Z.shiftr lh LogHeapWordSize.

(** ** Classes *)

(** The classes whose objects the collector meets; [maps] are the blocks of references of the
    instances, each an offset in bytes and a number of references. *)
Inductive kind := Instance_ (maps : list (Z * Z)) | ObjArray | TypeArray.

Record Klass := mkKlass { _layout_helper : Z; _kind : kind; _prototype_header : Z }.

(** [arrayOopDesc::length], the [int] at 16 bytes, in the low half of its word. *)
Definition length_offset : Z := 16.
Definition array_length (m : Z -> Z) (o : Z) : Z := i32 (m (o + length_offset)).
Definition set_length_word (word length : Z) : Z := Z.lor (Z.land word (Z.shiftl (2 ^ 32 - 1) 32)) (u32 length).

(** [objArrayOopDesc::base]: the header has three words. *)
Definition array_base (o : Z) : Z := o + 24.

(** [Klass::oop_size], the virtual call. *)
Definition oop_size (g : config) (k : Klass) (m : Z -> Z) (o : Z) : Z :=
  match _kind k with
  | Instance_ _ => layout_helper_to_size_helper (_layout_helper k)
  | ObjArray => i32 (align_object_size (MinObjAlignment g) (u32 (3 + u32 (array_length m o))))
  | TypeArray =>
      let size_in_bytes := u64 (Z.shiftl (u32 (array_length m o)) (layout_helper_log2_element_size (_layout_helper k))) in
      let size_in_bytes := u64 (size_in_bytes + layout_helper_header_size (_layout_helper k)) in
      i32 (align_object_size (MinObjAlignment g)
        (Z.shiftr (u64 (size_in_bytes + (HeapWordSize - 1))) LogHeapWordSize))
  end.

Definition size_given_klass (g : config) (k : Klass) (m : Z -> Z) (o : Z) : Z :=
  let lh := _layout_helper k in
  if lh >? lh_neutral_value then
    if negb (layout_helper_needs_slow_path lh) then Z.shiftr lh LogHeapWordSize else oop_size g k m o
  else if lh <? lh_neutral_value then
    let size_in_bytes := u64 (Z.shiftl (u64 (array_length m o)) (layout_helper_log2_element_size lh)) in
    let size_in_bytes := u64 (size_in_bytes + layout_helper_header_size lh) in
    i32 (round_to size_in_bytes (MinObjAlignment g * HeapWordSize) / HeapWordSize)
  else oop_size g k m o.

(** The references of an object in the order in which its class visits them:
    [InstanceKlass_OOP_MAP_REVERSE_ITERATE] and [ObjArrayKlass_OOP_ITERATE]. *)
Definition map_slots (o : Z) (map : Z * Z) : list Z :=
  (fun j => o + fst map + 8 * j) <$> seqZ 0 (snd map).
Definition array_slots (o start end_ : Z) : list Z := (fun j => array_base o + 8 * j) <$> seqZ start (end_ - start).
Definition oop_slots (k : Klass) (m : Z -> Z) (o : Z) : list Z :=
  match _kind k with
  | Instance_ maps => reverse (maps ≫= map_slots o)
  | ObjArray => array_slots o 0 (array_length m o)
  | TypeArray => []
  end.

(** ** Tasks *)

Definition COMPRESSED_OOP_MASK : Z := 1.
Definition PS_CHUNKED_ARRAY_OOP_MASK : Z := 2.

(** [StarTask] is its [_holder]. *)
Definition StarTask_narrow (p : Z) : Z := Z.lor p COMPRESSED_OOP_MASK.
Definition StarTask_oop (p : Z) : Z := p.
Definition as_oop (holder : Z) : Z := holder.
Definition as_narrow (holder : Z) : Z := Z.land holder (not64 COMPRESSED_OOP_MASK).
Definition is_narrow (holder : Z) : bool := negb (Z.land holder COMPRESSED_OOP_MASK =? 0).

Record BDARefTask := mkTask { _holder : Z; _task_container : Z }.

Definition BDARefTask_narrow (p c : Z) : BDARefTask := mkTask (Z.lor p COMPRESSED_OOP_MASK) c.
Definition BDARefTask_oop (p c : Z) : BDARefTask := mkTask p c.

Definition is_oop_masked (holder : Z) : bool :=
  Z.land (as_oop holder) PS_CHUNKED_ARRAY_OOP_MASK =? PS_CHUNKED_ARRAY_OOP_MASK.
Definition mask_chunked_array_oop (obj : Z) : Z := Z.lor obj PS_CHUNKED_ARRAY_OOP_MASK.
Definition unmask_chunked_array_oop (holder : Z) : Z := Z.land (as_oop holder) (not64 PS_CHUNKED_ARRAY_OOP_MASK).

(** ** The encodings *)

Lemma land_low_zero x r k : 0 <= k -> x mod 2 ^ k = 0 -> 0 <= r < 2 ^ k -> Z.land x r = 0.
Proof.
  intros Hk Hx Hr. apply Z.bits_inj'. intros i Hi. rewrite Z.land_spec, Z.bits_0.
  destruct (Z.ltb_spec i k).
  - rewrite <- (Z.mod_pow2_bits_low x k i) by lia. by rewrite Hx, Z.bits_0.
  - rewrite (testbit_high k r i) by lia. apply andb_false_r.
Qed.

Lemma lor_low x r k : 0 <= k -> x mod 2 ^ k = 0 -> 0 <= r < 2 ^ k -> Z.lor x r = x + r.
Proof. intros Hk Hx Hr. pose proof (land_low_zero x r k Hk Hx Hr). pose proof (Z.add_lor_land x r). lia. Qed.

Lemma land_low x r k : 0 <= k -> x mod 2 ^ k = 0 -> 0 <= r < 2 ^ k -> Z.land (x + r) (Z.ones k) = r.
Proof.
  intros Hk Hx Hr. rewrite Z.land_ones by lia. rewrite <- Zplus_mod_idemp_l, Hx. by apply Z.mod_small.
Qed.

Lemma clear_low x r k :
  0 <= k <= 64 -> is_u64 (x + r) -> x mod 2 ^ k = 0 -> 0 <= r < 2 ^ k -> Z.land (x + r) (not64 (Z.ones k)) = x.
Proof.
  intros Hk Hx Hm Hr. rewrite land_not64_ones by done.
  rewrite <- Zplus_mod_idemp_l, Hm, (Z.mod_small (0 + r)) by lia. lia.
Qed.

(** The address of an object. *)
Definition is_oop (p : Z) : Prop := 0 <= p < 2 ^ 64 /\ p mod 8 = 0.

Lemma is_oop_mod p k : 0 <= k <= 3 -> is_oop p -> p mod 2 ^ k = 0.
Proof.
  intros Hk [_ Hp]. assert (k = 0 \/ k = 1 \/ k = 2 \/ k = 3) as [-> | [-> | [-> | ->]]] by lia; simpl; lia.
Qed.

Lemma is_oop_room p r : is_oop p -> 0 <= r < 8 -> is_u64 (p + r).
Proof. intros [Hp Hm] Hr. unfold is_u64. lia. Qed.

Lemma encode_plus p : is_oop p -> encode_pointer_as_mark p = p + 3.
Proof.
  intros Hp. unfold encode_pointer_as_mark, set_marked, lock_mask_in_place, marked_value.
  replace p with (p + 0) at 1 by lia. change 3 with (Z.ones 2) at 1.
  rewrite clear_low; [| lia | by apply is_oop_room | by apply is_oop_mod | lia].
  apply (lor_low _ _ 2); [lia | by apply is_oop_mod | lia].
Qed.

(** A forwarding pointer is told from the other marks and gives its address back. *)
Lemma forward_codec b p :
  is_oop p -> is_marked (encode_pointer_as_mark p) = true /\ decode_pointer b (encode_pointer_as_mark p) = p.
Proof.
  intros Hp. rewrite encode_plus by done. unfold is_marked, decode_pointer, has_bias_pattern, clear_lock_bits,
    lock_mask_in_place, biased_lock_mask_in_place, marked_value, biased_lock_pattern.
  assert (Z.land (p + 3) 3 = 3) as -> by (apply (land_low p 3 2); [lia | by apply is_oop_mod | lia]).
  assert (Z.land (p + 3) 7 = 3) as -> by (apply (land_low p 3 3); [lia | by apply is_oop_mod | lia]).
  simpl. rewrite andb_false_r. split; [done |]. change 3 with (Z.ones 2) at 2. apply clear_low; [lia | by apply is_oop_room | by apply is_oop_mod | lia].
Qed.

(** What a task stands for: a reference, a compressed reference, or an array whose elements are
    scanned in pieces. *)
Inductive meaning := Slot (p : Z) | NarrowSlot (p : Z) | Chunk (old : Z).

Definition holder_of (x : meaning) : Z :=
  match x with
  | Slot p => StarTask_oop p
  | NarrowSlot p => StarTask_narrow p
  | Chunk old => StarTask_oop (mask_chunked_array_oop old)
  end.

(** The tests of [process_popped_location_depth]. *)
Definition meaning_of (h : Z) : meaning :=
  if is_oop_masked h then Chunk (unmask_chunked_array_oop h)
  else if is_narrow h then NarrowSlot (as_narrow h)
  else Slot (as_oop h).

Definition address_ok (x : meaning) : Prop :=
  match x with
  | Slot p | Chunk p => is_oop p
  | NarrowSlot p => 0 <= p < 2 ^ 64 /\ p mod 4 = 0
  end.

Lemma land_2 x : Z.land x 2 = 2 * ((x / 2) mod 2).
Proof.
  pose proof (Z.add_lor_land (Z.land x 2) (Z.land x 1)) as E. rewrite <- Z.land_lor_distr_r in E.
  change (Z.lor 2 1) with (Z.ones 2) in E. change 1 with (Z.ones 1) in E. rewrite !Z.land_ones in E by lia.
  assert (Z.land (Z.land x 2) (x mod 2 ^ 1) = 0) as Ez.
  { rewrite <- Z.land_ones by lia. change (Z.ones 1) with 1. rewrite Z.land_assoc, (Z.land_comm (Z.land x 2)), Z.land_assoc.
    rewrite <- Z.land_assoc. change (Z.land 2 1) with 0. apply Z.land_0_r. }
  rewrite Ez in E. simpl in E. lia.
Qed.

Lemma as_narrow_eq h : is_u64 h -> as_narrow h = h - h mod 2.
Proof. intros Hh. unfold as_narrow, COMPRESSED_OOP_MASK. change 1 with (Z.ones 1). by rewrite land_not64_ones. Qed.

Lemma unmask_eq h : is_u64 h -> unmask_chunked_array_oop h = h - Z.land h 2.
Proof.
  intros Hh. unfold unmask_chunked_array_oop, as_oop, PS_CHUNKED_ARRAY_OOP_MASK.
  assert (Z.land h (not64 2) = Z.ldiff h 2) as ->.
  { apply Z.bits_inj'. intros i Hi. rewrite Z.land_spec, Z.ldiff_spec, testbit_not64 by done.
    destruct (Z.ltb_spec i 64); [done |]. by rewrite (testbit_high 64 h i) by (try lia; apply Hh). }
  pose proof (land_ldiff_split h 2). lia.
Qed.

Lemma masked_eq h : is_oop_masked h = ((h / 2) mod 2 =? 1).
Proof.
  unfold is_oop_masked, as_oop, PS_CHUNKED_ARRAY_OOP_MASK. rewrite land_2.
  destruct (Z.eqb_spec ((h / 2) mod 2) 1), (Z.eqb_spec (2 * ((h / 2) mod 2)) 2); lia.
Qed.

Lemma narrow_eq h : is_narrow h = (h mod 2 =? 1).
Proof.
  unfold is_narrow, COMPRESSED_OOP_MASK. change 1 with (Z.ones 1) at 1. rewrite Z.land_ones by lia. change (2 ^ 1) with 2.
  destruct (Z.eqb_spec (h mod 2) 0), (Z.eqb_spec (h mod 2) 1); simpl; lia.
Qed.

(** A reference and a masked array. *)
Lemma slot_unmasked p : is_oop p -> is_oop_masked p = false.
Proof. intros [_ Hp]. rewrite masked_eq. lia. Qed.

Lemma mask_codec o :
  is_oop o -> is_oop_masked (mask_chunked_array_oop o) = true /\ unmask_chunked_array_oop (mask_chunked_array_oop o) = o.
Proof.
  intros [Ho Hm]. unfold mask_chunked_array_oop, PS_CHUNKED_ARRAY_OOP_MASK. rewrite (lor_low o 2 2) by (simpl; lia).
  rewrite masked_eq, unmask_eq, land_2 by ulia. split; lia.
Qed.

(** C24. The three kinds of tasks share one word and are never confused: whatever is pushed, the
    tests made when it is popped recover its kind and its address; and a task of the stack of
    references keeps the container beside it. *)
Theorem task_codec (x : meaning) (c : Z) (Hx : address_ok x) :
  meaning_of (holder_of x) = x /\
  (forall p, x = Slot p -> BDARefTask_oop p c = mkTask (holder_of x) c) /\
  (forall p, x = NarrowSlot p -> BDARefTask_narrow p c = mkTask (holder_of x) c).
Proof.
  split; [| split; by intros p ->]. unfold meaning_of. rewrite narrow_eq.
  destruct x as [p | p | p]; simpl in *; unfold StarTask_oop, StarTask_narrow, as_oop.
  - rewrite slot_unmasked by done. destruct Hx as [_ Hm]. by destruct (Z.eqb_spec (p mod 2) 1); [lia |].
  - unfold COMPRESSED_OOP_MASK. rewrite (lor_low p 1 2), masked_eq by (simpl; lia).
    destruct (Z.eqb_spec (((p + 1) / 2) mod 2) 1); [lia |]. destruct (Z.eqb_spec ((p + 1) mod 2) 1); [| lia].
    f_equal. rewrite as_narrow_eq by ulia. lia.
  - destruct (mask_codec p Hx) as [-> ->]. done.
Qed.

Lemma task_codec_witness : meaning_of (holder_of (Chunk 4096)) = Chunk 4096 /\ holder_of (Chunk 4096) = 4098.
Proof. split; [apply (task_codec (Chunk 4096) 0); simpl; split; [lia | done] | done]. Defined.

(** ** Layout helpers and sizes *)

Lemma array_helper_eq tag h et l :
  -2 <= tag <= -1 -> 0 <= h < 256 -> 0 <= et < 256 -> 0 <= l < 64 ->
  array_layout_helper tag h et l = tag * 2 ^ 30 + h * 2 ^ 16 + et * 2 ^ 8 + l.
Proof.
  intros Ht Hh He Hl. unfold array_layout_helper, lh_array_tag_shift. rewrite !Z.shiftl_mul_pow2 by lia.
  rewrite (lor_low (tag * 2 ^ 30) (h * 2 ^ 16) 30), (lor_low (tag * 2 ^ 30 + h * 2 ^ 16) (et * 2 ^ 8) 16),
    (lor_low (tag * 2 ^ 30 + h * 2 ^ 16 + et * 2 ^ 8) l 8) by (change (2 ^ 30) with 1073741824;
      change (2 ^ 16) with 65536; change (2 ^ 8) with 256; lia).
  apply swrap_small; [lia |]. change (2 ^ 30) with 1073741824. change (2 ^ 16) with 65536. change (2 ^ 8) with 256.
  change (2 ^ (32 - 1)) with 2147483648. lia.
Qed.

Lemma instance_helper_eq size slow :
  0 < size < 2 ^ 28 -> instance_layout_helper size slow = 8 * size + if slow then 1 else 0.
Proof.
  intros Hs. unfold instance_layout_helper, LogHeapWordSize. rewrite Z.shiftl_mul_pow2 by lia.
  rewrite (lor_low _ _ 3) by (destruct slow; change (2 ^ 3) with 8; lia).
  rewrite swrap_small; destruct slow; change (2 ^ 3) with 8; change (2 ^ (32 - 1)) with 2147483648;
    change (2 ^ 28) with 268435456 in Hs; lia.
Qed.

Lemma land_255 x : Z.land x 255 = x mod 256.
Proof. change 255 with (Z.ones 8). by rewrite Z.land_ones. Qed.

Local Ltac helper_fields :=
  unfold layout_helper_is_array, layout_helper_is_instance, layout_helper_is_typeArray, layout_helper_is_objArray,
    layout_helper_header_size, layout_helper_element_type, layout_helper_log2_element_size, layout_helper_to_size_helper,
    layout_helper_needs_slow_path, lh_neutral_value, lh_array_tag_type_value, lh_array_tag_shift, LogHeapWordSize, wrap;
  change (i32 (Z.shiftl (-1) 30)) with (-1073741824);
  rewrite ?Z.gtb_ltb, ?Z.geb_leb, ?land_255, ?Z.shiftr_div_pow2 by lia;
  change (2 ^ 30) with 1073741824; change (2 ^ 16) with 65536; change (2 ^ 8) with 256;
  change (2 ^ 32) with 4294967296; change (2 ^ 3) with 8; change (-1073741824 mod 4294967296) with 3221225472.

Lemma array_helper_fields tag hsize etype log2 :
  tag = lh_array_tag_type_value \/ tag = lh_array_tag_obj_value ->
  0 <= hsize < 256 -> 0 <= etype < 256 -> 0 <= log2 < 64 ->
  let a := array_layout_helper tag hsize etype log2 in
  layout_helper_is_array a = true /\ layout_helper_is_instance a = false /\
  layout_helper_is_typeArray a = (tag =? lh_array_tag_type_value) /\
  layout_helper_is_objArray a = (tag =? lh_array_tag_obj_value) /\
  layout_helper_header_size a = hsize /\ layout_helper_element_type a = etype /\
  layout_helper_log2_element_size a = log2.
Proof.
  unfold lh_array_tag_type_value, lh_array_tag_obj_value. intros Ht Hh He Hl. cbv zeta.
  rewrite array_helper_eq by lia. helper_fields. change 63 with (Z.ones 6). rewrite Z.land_ones by lia.
  change (2 ^ 6) with 64. destruct Ht as [-> | ->]; split_and!; lia.
Qed.

Lemma instance_helper_fields size slow :
  0 < size < 2 ^ 28 ->
  let i := instance_layout_helper size slow in
  layout_helper_is_array i = false /\ layout_helper_is_instance i = true /\
  layout_helper_is_typeArray i = false /\ layout_helper_is_objArray i = false /\
  layout_helper_to_size_helper i = size /\ layout_helper_needs_slow_path i = slow.
Proof.
  intros Hs. cbv zeta. rewrite instance_helper_eq by lia. helper_fields. 
  change (2 ^ 28) with 268435456 in Hs.
  assert (Z.land (8 * size + (if slow then 1 else 0)) 1 = if slow then 1 else 0) as ->.
  { change 1 with (Z.ones 1) at 2. rewrite Z.land_ones by lia. change (2 ^ 1) with 2. destruct slow; lia. }
  destruct slow; split_and!; lia.
Qed.

(** C23. The layout helper of a class determines the type of its objects.  The helpers that
    [array_layout_helper] and [instance_layout_helper] build are classified as what they were
    built for and as nothing else, and every field is read back as it was stored. *)
Theorem layout_helper_types (tag hsize etype log2 size : Z) (slow : bool)
    (Ht : tag = lh_array_tag_type_value \/ tag = lh_array_tag_obj_value)
    (Hh : 0 <= hsize < 256) (He : 0 <= etype < 256) (Hl : 0 <= log2 < 64) (Hs : 0 < size < 2 ^ 28) :
  let a := array_layout_helper tag hsize etype log2 in
  let i := instance_layout_helper size slow in
  (layout_helper_is_array a = true /\ layout_helper_is_instance a = false /\
   layout_helper_is_typeArray a = (tag =? lh_array_tag_type_value) /\
   layout_helper_is_objArray a = (tag =? lh_array_tag_obj_value) /\
   layout_helper_header_size a = hsize /\ layout_helper_element_type a = etype /\
   layout_helper_log2_element_size a = log2) /\
  (layout_helper_is_array i = false /\ layout_helper_is_instance i = true /\
   layout_helper_is_typeArray i = false /\ layout_helper_is_objArray i = false /\
   layout_helper_to_size_helper i = size /\ layout_helper_needs_slow_path i = slow).
Proof. split; [by apply array_helper_fields | by apply instance_helper_fields]. Qed.

Lemma layout_helper_types_witness :
  layout_helper_is_objArray (array_layout_helper lh_array_tag_obj_value 24 12 3) = true /\
  layout_helper_is_instance (instance_layout_helper 5 false) = true.
Proof.
  destruct (layout_helper_types lh_array_tag_obj_value 24 12 3 5 false ltac:(by right) ltac:(lia) ltac:(lia) ltac:(lia)
    ltac:(lia)) as [(_ & _ & _ & Ha & _) (_ & Hi & _)]. split; [exact Ha | exact Hi].
Defined.

End Oops.
