(* ===== verification/PromotionManager.v ===== *)
(** * Promotion into containers

    [gc_implementation/parallelScavenge/psPromotionManager.hpp], [.inline.hpp] and [.cpp],
    [bda/bdaScavenge.inline.hpp], and the task of [bda/bdaTasks.cpp] that processes the queue of
    references: the copying of big-data objects and of all that they refer to from the young
    generation into the containers of the old one.

    The memory is a function from addresses to words; the old generation is given by the
    operations that the scavenger calls.  One thread runs; what other threads do is only
    visible in the tests that an exchange succeeded, which are kept. *)

From Stdlib Require Import ZArith Lia.
From stdpp Require Import base numbers gmap sets list.
From S2P Require Import Prelude GlobalDefs MemRegion CollectedHeap ObjectStartArray PromotionLAB RefQueue TaskQueue Stack OverflowQueue Oops.

Local Open Scope Z_scope.

Module PromotionManager.
Import CollectedHeap Oops.

(** The old generation, [MutableBDASpace], as the promotion manager uses it; the elements and
    the buffers are allocated for a container, a reference that the call may move to the
    segment that was used. *)
Class OldSpace (W : Type) := {
  allocate_container : Z -> Z -> M W Z;
  container_start : Z -> M W Z;
  reset_container : Z -> M W unit;
  allocate_element : Z -> Z -> M W (Z * Z);
  allocate_plab : Z -> M W (Z * Z);
  start_array : W -> ObjectStartArray.ObjectStartArray;
  set_start_array : W -> ObjectStartArray.ObjectStartArray -> W
}.

(** The fields of a promotion manager that the promotion into containers uses. *)
Record PSPromotionManager := mkManager {
  _bda_old_lab : PromotionLAB.BDAOldPromotionLAB;
  _bdaref_stack : OverflowQueue.OverflowTaskQueue BDARefTask;
  _claimed_stack_depth : OverflowQueue.OverflowTaskQueue Z;
  _old_gen_is_full : bool;
  _promotion_failed_info : list Z;
  _array_chunk_size : Z;
  _min_array_size_for_chunking : Z
}.

Section Operations.
Context {W : Type} {HW : OldSpace W}.

(** The words of the heap and of the [Ref]s at [ref_addrs], the cards written, the marks saved by
    [PSScavenge], the old generation, the queue of references and the manager of the thread. *)
Record world := mkWorld {
  mem : Z -> Z;
  cards : gset Z;
  preserved : list (Z * Z);
  old_space : W;
  ref_addrs : list Z;
  refqueue : RefQueue.RefQueue;
  pm : PSPromotionManager
}.

Implicit Types w : world.

Definition set_mem w (m : Z -> Z) : world :=
  mkWorld m (cards w) (preserved w) (old_space w) (ref_addrs w) (refqueue w) (pm w).
Definition set_cards w (c : gset Z) : world :=
  mkWorld (mem w) c (preserved w) (old_space w) (ref_addrs w) (refqueue w) (pm w).
Definition set_preserved w (l : list (Z * Z)) : world :=
  mkWorld (mem w) (cards w) l (old_space w) (ref_addrs w) (refqueue w) (pm w).
Definition set_space w (s : W) : world :=
  mkWorld (mem w) (cards w) (preserved w) s (ref_addrs w) (refqueue w) (pm w).
Definition set_refqueue w (q : RefQueue.RefQueue) : world :=
  mkWorld (mem w) (cards w) (preserved w) (old_space w) (ref_addrs w) q (pm w).
Definition set_pm w (x : PSPromotionManager) : world :=
  mkWorld (mem w) (cards w) (preserved w) (old_space w) (ref_addrs w) (refqueue w) x.

Definition set_lab (x : PSPromotionManager) (b : PromotionLAB.BDAOldPromotionLAB) : PSPromotionManager :=
  mkManager b (_bdaref_stack x) (_claimed_stack_depth x) (_old_gen_is_full x) (_promotion_failed_info x)
    (_array_chunk_size x) (_min_array_size_for_chunking x).
Definition set_bdaref (x : PSPromotionManager) (q : OverflowQueue.OverflowTaskQueue BDARefTask) : PSPromotionManager :=
  mkManager (_bda_old_lab x) q (_claimed_stack_depth x) (_old_gen_is_full x) (_promotion_failed_info x)
    (_array_chunk_size x) (_min_array_size_for_chunking x).
Definition set_claimed (x : PSPromotionManager) (q : OverflowQueue.OverflowTaskQueue Z) : PSPromotionManager :=
  mkManager (_bda_old_lab x) (_bdaref_stack x) q (_old_gen_is_full x) (_promotion_failed_info x)
    (_array_chunk_size x) (_min_array_size_for_chunking x).
Definition set_full (x : PSPromotionManager) : PSPromotionManager :=
  mkManager (_bda_old_lab x) (_bdaref_stack x) (_claimed_stack_depth x) true (_promotion_failed_info x)
    (_array_chunk_size x) (_min_array_size_for_chunking x).
Definition register_copy_failure (x : PSPromotionManager) (size : Z) : PSPromotionManager :=
  mkManager (_bda_old_lab x) (_bdaref_stack x) (_claimed_stack_depth x) (_old_gen_is_full x)
    (_promotion_failed_info x ++ [size]) (_array_chunk_size x) (_min_array_size_for_chunking x).

Definition upd (m : Z -> Z) (a v : Z) : Z -> Z := fun x => if x =? a then v else m x.

Definition load (a : Z) : M world Z := gets (fun w => mem w a).
Definition store (a v : Z) : M world unit := modify (fun w => set_mem w (upd (mem w) a v)).

Definition on_space {A} (f : M W A) : M world A := fun w =>
  match f (old_space w) with Some (x, s) => Some (x, set_space w s) | None => None end.
Definition on_pm (f : PSPromotionManager -> PSPromotionManager) : M world unit := modify (fun w => set_pm w (f (pm w))).

(** An operation on the buffer, which shares the start array with the old generation. *)
Definition on_lab {A} (f : PromotionLAB.BDAOldPromotionLAB -> option (A * PromotionLAB.BDAOldPromotionLAB)) : M world A :=
  fun w =>
    let b := _bda_old_lab (pm w) in
    let b := PromotionLAB.mkBDALAB (PromotionLAB.mkOldLAB (PromotionLAB.old_lab (PromotionLAB.bda_lab b))
               (start_array (old_space w))) (PromotionLAB._container b) in
    '(x, b) ← f b;
    Some (x, set_pm (set_space w (set_start_array (old_space w)
                (PromotionLAB._start_array (PromotionLAB.bda_lab b)))) (set_lab (pm w) b)).

(** The configuration: the layout of objects, the classes by their addresses, the class of
    filler arrays and plain objects, the start of the young generation, the reserved heap, and
    the flags; and for the two stacks the size of the queues and the C heap. *)
Context (g : config) (klasses : Z -> option Klass) (intArrayKlass objectKlass : Z).
Context (young_generation_boundary : Z) (is_in_reserved : Z -> bool).
Context (UseBiasedLocking PSChunkLargeArrays : bool) (BDAOldPLABSize : Z).
Context (N : Z).
Context (bda_heap : gmap Z (Stack.segment BDARefTask) -> Z) (bda_junk : Z -> Z -> Stack.segment BDARefTask).
Context (star_heap : gmap Z (Stack.segment Z) -> Z) (star_junk : Z -> Z -> Stack.segment Z).

(** ** Objects in memory *)

Definition klass_of (o : Z) : M world Klass := k ← load (o + 8); lift_opt (klasses k).
Definition size (o : Z) : M world Z := k ← klass_of o; gets (fun w => size_given_klass g k (mem w) o).
Definition is_objArray (o : Z) : M world bool := k ← klass_of o; mret (layout_helper_is_objArray (_layout_helper k)).
Definition length_ (o : Z) : M world Z := gets (fun w => array_length (mem w) o).
Definition set_length (o n : Z) : M world unit :=
  word ← load (o + length_offset); store (o + length_offset) (set_length_word word n).
Definition is_forwarded (o : Z) : M world bool := mark ← load o; mret (is_marked mark).
Definition forwardee (o : Z) : M world Z := mark ← load o; mret (decode_pointer UseBiasedLocking mark).
Definition cas_forward_to (o p compare : Z) : M world bool :=
  mark ← load o;
  if mark =? compare then store o (encode_pointer_as_mark p);; mret true else mret false.

(** [Copy::aligned_disjoint_words] *)
Fixpoint copy_words (n : nat) (from to : Z) (m : Z -> Z) : Z -> Z :=
  match n with
  | O => m
  | S n => copy_words n (from + 8) (to + 8) (upd m to (m from))
  end.
Definition aligned_disjoint_words (from to count : Z) : M world unit :=
  modify (fun w => set_mem w (copy_words (Z.to_nat count) from to (mem w))).

(** The words of a filler object. *)
Definition write_filler (f : filler) : M world unit :=
  match f with
  | IntArray addr len => store addr unlocked_value;; store (addr + 8) intArrayKlass;; set_length addr len
  | PlainObject addr => store addr unlocked_value;; store (addr + 8) objectKlass
  end.
Fixpoint write_fillers (fs : list filler) : M world unit :=
  match fs with
  | [] => mret tt
  | f :: fs => write_filler f;; write_fillers fs
  end.

(** ** Tests and stores of the scavenger *)

Definition is_obj_in_young (o : Z) : bool := o >=? young_generation_boundary.
Definition should_scavenge (p : Z) : M world bool := o ← load p; mret (is_obj_in_young o).

(** [CardTableExtension::inline_write_ref_field_gc], for cards of 512 bytes. *)
Definition inline_write_ref_field_gc (field : Z) : M world unit :=
  modify (fun w => set_cards w (cards w ∪ {[Z.shiftr field 9]})).

(** ** Stacks *)

Definition push_bdaref_stack (p ct : Z) : M world unit := fun w =>
  q ← OverflowQueue.push N bda_heap bda_junk (_bdaref_stack (pm w)) (BDARefTask_oop p ct);
  Some (tt, set_pm w (set_bdaref (pm w) q)).
Definition push_depth (p : Z) : M world unit := fun w =>
  q ← OverflowQueue.push N star_heap star_junk (_claimed_stack_depth (pm w)) (StarTask_oop p);
  Some (tt, set_pm w (set_claimed (pm w) q)).
Definition pop_bda_overflow : M world (option BDARefTask) := fun w =>
  '(t, q) ← OverflowQueue.pop_overflow (_bdaref_stack (pm w)); Some (t, set_pm w (set_bdaref (pm w) q)).
Definition pop_bda_local : M world (option BDARefTask) := fun w =>
  '(t, q) ← OverflowQueue.pop_local N (_bdaref_stack (pm w)); Some (t, set_pm w (set_bdaref (pm w) q)).
Definition bda_stacks_empty : M world bool := gets (fun w => OverflowQueue.is_empty N (_bdaref_stack (pm w))).

(** ** Claiming *)

(** The reference at [p] gets the new address of its object, or is left to [push]. *)
Definition claim_or_forward (push : M world unit) (p : Z) : M world unit :=
  when (negb (p =? NULL))
    (o ← load p;
     f ← is_forwarded o;
     if (f : bool) then
       o ← forwardee o;
       when (is_obj_in_young o) (inline_write_ref_field_gc p);;
       store p o
     else push).
Definition claim_or_forward_depth (p : Z) : M world unit := claim_or_forward (push_depth p) p.
Definition claim_or_forward_bdaref (p ct : Z) : M world unit := claim_or_forward (push_bdaref_stack p ct) p.

(** The loops over references, [process_bda_array_chunk_work] among them. *)
Fixpoint claim_slots (claim : Z -> M world unit) (slots : list Z) : M world unit :=
  match slots with
  | [] => mret tt
  | p :: slots => b ← should_scavenge p; when b (claim p);; claim_slots claim slots
  end.

Definition push_contents_with (claim : Z -> M world unit) (o : Z) : M world unit :=
  k ← klass_of o;
  slots ← gets (fun w => oop_slots k (mem w) o);
  claim_slots claim slots.
Definition push_contents (o : Z) : M world unit := push_contents_with claim_or_forward_depth o.
(** For the instances of ordinary classes and the arrays of references; the classes whose instances hide references
    from the fields, as those of [java.lang.ref], are none of the [klasses]. *)
Definition push_bdaref_contents (o ct : Z) : M world unit := push_contents_with (fun p => claim_or_forward_bdaref p ct) o.

(** ** Copying *)

(** A lost race for the header; [guarantee] stops the machine when nobody won it. *)
Definition lost_forwardee (o : Z) : M world Z :=
  f ← is_forwarded o; if (f : bool) then forwardee o else stuck.

(** Without [_promotion_stats], in which it also counts the failure. *)
Definition bda_oop_promotion_failed (obj obj_mark : Z) : M world Z :=
  won ← cas_forward_to obj obj obj_mark;
  if (won : bool) then
    n ← size obj;
    on_pm (fun x => register_copy_failure x n);;
    push_contents obj;;
    k ← klass_of obj;
    when (must_be_preserved_for_promotion_failure UseBiasedLocking (_prototype_header k) obj_mark)
      (modify (fun w => set_preserved w (preserved w ++ [(obj, obj_mark)])));;
    mret obj
  else lost_forwardee obj.

(** What the winner does with the references of the new object. *)
Definition publish (o new_obj new_obj_size container : Z) : M world unit :=
  b ← is_objArray new_obj;
  w ← get;
  if (new_obj_size >? _min_array_size_for_chunking (pm w)) && b && PSChunkLargeArrays
  then push_bdaref_stack (mask_chunked_array_oop o) container
  else push_bdaref_contents new_obj container.

(** Memory for an element: in the buffer of the thread, directly, or in a new buffer. *)
Definition allocate_in_container (new_obj_size container : Z) : M world (Z * Z) :=
  new_obj ← on_lab (fun b => PromotionLAB.bda_allocate b new_obj_size container);
  if new_obj =? NULL then
    if new_obj_size >? BDAOldPLABSize / 2 then on_space (allocate_element new_obj_size container)
    else
      '(lab_base, container) ← on_space (allocate_plab container);
      if negb (lab_base =? NULL) then
        fs ← on_lab (PromotionLAB.bda_flush g);
        write_fillers fs;;
        on_lab (fun b => Some (tt, PromotionLAB.bda_initialize g b (MemRegion.mkMemRegion lab_base BDAOldPLABSize) container));;
        new_obj ← on_lab (fun b => PromotionLAB.bda_allocate b new_obj_size container);
        mret (new_obj, container)
      else mret (NULL, container)
  else mret (new_obj, container).

Definition copy_bdaref_to_survivor_space (o r : Z) (rt : RefQueue.RefType) : M world Z :=
  test_mark ← load o;
  if negb (is_marked test_mark) then
    new_obj_size ← size o;
    match rt with
    | RefQueue.container =>
        container ← on_space (allocate_container new_obj_size r);
        if container =? NULL then on_pm set_full;; bda_oop_promotion_failed o test_mark
        else
          new_obj ← on_space (container_start container);
          aligned_disjoint_words o new_obj new_obj_size;;
          won ← cas_forward_to o new_obj test_mark;
          if (won : bool) then publish o new_obj new_obj_size container;; mret new_obj
          else on_space (reset_container container);; lost_forwardee o
    | RefQueue.element =>
        '(new_obj, container) ← allocate_in_container new_obj_size r;
        if new_obj =? NULL then on_pm set_full;; bda_oop_promotion_failed o test_mark
        else
          aligned_disjoint_words o new_obj new_obj_size;;
          won ← cas_forward_to o new_obj test_mark;
          if (won : bool) then publish o new_obj new_obj_size container;; mret new_obj
          else
            gone ← on_lab (fun b =>
              let '(u, lab) := PromotionLAB.unallocate_object (PromotionLAB.old_lab (PromotionLAB.bda_lab b)) new_obj new_obj_size in
              Some (u, PromotionLAB.mkBDALAB (PromotionLAB.mkOldLAB lab (PromotionLAB._start_array (PromotionLAB.bda_lab b)))
                         (PromotionLAB._container b)));
            when (negb gone) (write_fillers (fill_with_object g new_obj new_obj_size));;
            lost_forwardee o
    end
  else forwardee o.

(** [BDAScavenge::copy_and_push_safe_barrier] *)
Definition copy_and_push_safe_barrier (p r : Z) (rt : RefQueue.RefType) : M world unit :=
  o ← load p;
  f ← is_forwarded o;
  new_obj ← (if (f : bool) then forwardee o else copy_bdaref_to_survivor_space o r rt);
  store p new_obj;;
  when (negb (is_obj_in_young p) && is_in_reserved p)
    (when (is_obj_in_young new_obj) (inline_write_ref_field_gc p)).

(** ** Arrays in pieces *)

Definition process_bda_array_chunk (old ct : Z) : M world unit :=
  obj ← forwardee old;
  end_ ← length_ old;
  w ← get;
  start ← (if end_ >? i32 (_min_array_size_for_chunking (pm w)) then
             let start := i32 (end_ - _array_chunk_size (pm w)) in
             set_length old start;;
             push_bdaref_stack (mask_chunked_array_oop old) ct;;
             mret start
           else
             actual_length ← length_ obj;
             set_length old actual_length;;
             mret 0);
  claim_slots (fun p => claim_or_forward_bdaref p ct) (array_slots obj start end_).

Definition process_popped_bdaref_depth (t : BDARefTask) : M world unit :=
  let p := StarTask_oop (as_oop (_holder t)) in
  let ct := _task_container t in
  if is_oop_masked p then process_bda_array_chunk (unmask_chunked_array_oop p) ct
  else copy_and_push_safe_barrier p ct RefQueue.element.

(** ** The loops *)

Definition drain_turn (pop : M world (option BDARefTask)) : M world bool :=
  t ← pop;
  match t with
  | Some t => process_popped_bdaref_depth t;; mret true
  | None => mret false
  end.

Definition drain_bda_stacks : M world unit :=
  while_m 64
    (while_m 64 (drain_turn pop_bda_overflow);;
     while_m 64 (drain_turn pop_bda_local);;
     w ← get;
     mret (negb (OverflowQueue.taskqueue_empty N (_bdaref_stack (pm w)))
           || negb (OverflowQueue.overflow_empty (_bdaref_stack (pm w))))).

(** The [Ref]s as they lie in memory, and the address of the reference in one. *)
Definition ref_view w : gmap Z RefQueue.Ref :=
  list_to_map ((fun r => (r, RefQueue.mkRef (mem w r) (mem w (r + 8)) (mem w (r + 16)))) <$> ref_addrs w).
Definition ref_addr (r : Z) : Z := r + 8.
Definition dequeue : M world Z := fun w =>
  '((r, q), _) ← RefQueue.dequeue (refqueue w) (ref_view w); Some (r, set_refqueue w q).

Definition process_dequeued_bdaroot (r : Z) : M world unit :=
  b ← should_scavenge (ref_addr r);
  region ← load (r + 16);
  when b (copy_and_push_safe_barrier (ref_addr r) region RefQueue.container).

(** [BDARefRootsTask::do_it] *)
Definition roots_do_it : M world unit :=
  while_m 64
    (r ← dequeue;
     if negb (r =? NULL) then process_dequeued_bdaroot r;; drain_bda_stacks;; mret true
     else mret false).

End Operations.
Arguments world : clear implicits.

End PromotionManager.
