(* ===== verification/PromotionFailure.v ===== *)
(** * Promotion that fails

    [gc_implementation/parallelScavenge/psPromotionManager.cpp],
    [PSPromotionManager::bda_oop_promotion_failed]: the old generation has no room for an object.
    The object stays where it is, forwarded to itself, and its references into the young
    generation are left to the stack of the ordinary scavenge. *)

From Stdlib Require Import ZArith Lia.
From stdpp Require Import base numbers gmap sets list.
From S2P Require Import Prelude GlobalDefs CollectedHeap ObjectStartArray PromotionLAB RefQueue TaskQueue Stack OverflowQueue Oops PromotionManager.

Local Open Scope Z_scope.

Module PromotionFailure.
Import CollectedHeap Oops PromotionManager.

(** The header word does not matter for the size and the references of an object. *)
Lemma failed_size (g : config) m o k v : size_given_klass g k (upd m o v) o = size_given_klass g k m o.
Proof.
  assert (array_length (upd m o v) o = array_length m o) as E.
  { unfold array_length, upd, length_offset. by destruct (Z.eqb_spec (o + 16) o); [lia |]. }
  unfold size_given_klass, oop_size. by rewrite E.
Qed.

Lemma failed_slots m o k v : oop_slots k (upd m o v) o = oop_slots k m o.
Proof.
  unfold oop_slots. destruct (_kind k); [done | | done].
  f_equal. unfold array_length, upd, length_offset. by destruct (Z.eqb_spec (o + 16) o); [lia |].
Qed.

Section Failure.
Context {W : Type} {HW : OldSpace W}.
Context (young : Z) (UseBiasedLocking : bool).
Context (lg N : Z) (Hlg : 2 <= lg <= 31) (HN : N = 2 ^ lg).
Context (star_heap : gmap Z (Stack.segment Z) -> Z) (star_junk : Z -> Z -> Stack.segment Z).
Context (sz : Z) (Hsz : 0 < sz < 2 ^ 63).
Context (Halloc : forall h, star_heap h <> NULL /\ h !! star_heap h = None).
Context (Hjunk : forall p, Z.of_nat (length (Stack.elements (star_junk sz p))) = sz).

(** The reference at [p] leads to an object that is forwarded already, or to one that is not. *)
Definition leads_forwarded (m : Z -> Z) (p : Z) : Prop := young <= m p /\ is_marked (m (m p)) = true.
Definition leads_unforwarded (m : Z -> Z) (p : Z) : Prop := young <= m p /\ is_marked (m (m p)) = false.
#[local] Instance leads_forwarded_dec m p : Decision (leads_forwarded m p).
Proof. unfold leads_forwarded. apply _. Defined.
#[local] Instance leads_unforwarded_dec m p : Decision (leads_unforwarded m p).
Proof. unfold leads_unforwarded. apply _. Defined.

(** The new value of a reference, and the cards written for those that stay in the young
    generation. *)
Definition resolve (m : Z -> Z) (p : Z) : Z := decode_pointer UseBiasedLocking (m (m p)).
Definition new_cards (m : Z -> Z) (S : list Z) : gset Z :=
  list_to_set ((fun p => Z.shiftr p 9) <$> filter (fun p => leads_forwarded m p /\ young <= resolve m p) S).

(** The state in which the references of an object are visited. *)
Definition visit (w : world W) (m : Z -> Z) (c : gset Z) (q : OverflowQueue.OverflowTaskQueue Z) : world W :=
  set_pm (set_cards (set_mem w m) c) (set_claimed (pm w) q).

Local Abbreviation claim := (claim_or_forward_depth young UseBiasedLocking N star_heap star_junk).

Lemma claim_forwarded_run w m c q p : p <> NULL -> leads_forwarded m p ->
  claim p (visit w m c q)
  = Some (tt, visit w (upd m p (resolve m p)) (if decide (young <= resolve m p) then c ∪ {[Z.shiftr p 9]} else c) q).
Proof.
  intros Hp [_ Hm]. unfold claim_or_forward_depth, claim_or_forward. destruct (Z.eqb_spec p NULL); [done |].
  cbn [negb]. rewrite when_true. set (w1 := visit w m c q).
  assert (E1 : load p w1 = Some (m p, w1)) by done. mrun E1.
  assert (E2 : is_forwarded (m p) w1 = Some (true, w1)) by (rewrite <- Hm; done). mrun E2.
  assert (E3 : forwardee UseBiasedLocking (m p) w1 = Some (resolve m p, w1)) by done. mrun E3.
  unfold is_obj_in_young. rewrite Z.geb_leb. by destruct (Z.leb_spec young (resolve m p)); case_decide; try lia.
Qed.

(** The tasks of the stack, in some order. *)
Definition claimed (q : OverflowQueue.OverflowTaskQueue Z) (ts : list Z) : Prop :=
  exists l st, OverflowQueue.repr N sz q l st /\ l ++ st ≡ₚ ts.

Lemma claim_unforwarded_run w m c q p ts : p <> NULL -> leads_unforwarded m p -> claimed q ts ->
  exists q', claim p (visit w m c q) = Some (tt, visit w m c q') /\ claimed q' (p :: ts).
Proof using HN Halloc Hjunk Hlg Hsz.
  intros Hp [_ Hm] (l & st & Hr & Hperm).
  destruct (OverflowQueue.overflow_push_repr lg N Hlg HN star_heap star_junk sz Hsz Halloc Hjunk q l st p Hr) as (q' & Eq & Hr').
  exists q'. split.
  - unfold claim_or_forward_depth, claim_or_forward. destruct (Z.eqb_spec p NULL); [done |].
    cbn [negb]. rewrite when_true. set (w1 := visit w m c q).
    assert (E1 : load p w1 = Some (m p, w1)) by done. mrun E1.
    assert (E2 : is_forwarded (m p) w1 = Some (false, w1)) by (rewrite <- Hm; done). mrun E2.
    unfold push_depth. change (_claimed_stack_depth (pm w1)) with q. unfold StarTask_oop. by rewrite Eq.
  - destruct (_ <? N - 2); eexists _, _; (split; [exact Hr' |]); rewrite <- Hperm; solve_Permutation.
Qed.

(** The reference at [p] leads to the same place in both memories. *)
Definition same_target (m m1 : Z -> Z) (p : Z) : Prop :=
  m1 p = m p /\ (leads_forwarded m1 p <-> leads_forwarded m p) /\ (leads_unforwarded m1 p <-> leads_unforwarded m p)
  /\ (leads_forwarded m p -> resolve m1 p = resolve m p).

Lemma same_target_upd m x v p : p <> x -> (young <= m p -> x <> m p) -> same_target m (upd m x v) p.
Proof using.
  intros Hpx Hx. assert (E1 : upd m x v p = m p) by (unfold upd; by destruct (Z.eqb_spec p x)).
  assert (E2 : young <= m p -> upd m x v (m p) = m (m p)).
  { intros Hy. unfold upd. destruct (Z.eqb_spec (m p) x) as [E |]; [| done]. by destruct (Hx Hy). }
  unfold same_target, leads_forwarded, leads_unforwarded, resolve. rewrite E1. split; [done |].
  split; [split; intros [Hy ?]; (split; [done |]); by rewrite E2 in * |].
  split; [split; intros [Hy ?]; (split; [done |]); by rewrite E2 in * |].
  intros [Hy _]. by rewrite E2.
Qed.

(** The loop over references that are not themselves objects. *)
Lemma claim_slots_depth w S : forall m c q ts,
  NoDup S -> (forall p, p ∈ S -> p <> NULL) -> (forall p p', p ∈ S -> p' ∈ S -> young <= m p' -> p <> m p') -> claimed q ts ->
  exists m' q', claim_slots young claim S (visit w m c q) = Some (tt, visit w m' (c ∪ new_cards m S) q')
  /\ (forall a, m' a = if decide (a ∈ S /\ leads_forwarded m a) then resolve m a else m a)
  /\ claimed q' (filter (leads_unforwarded m) S ++ ts).
Proof using HN Halloc Hjunk Hlg Hsz.
  induction S as [|x S IH]; intros m c q ts Hnd Hnn Hal Hq; cbn [claim_slots].
  { exists m, q. change (new_cards m []) with (∅ : gset Z).
    split; [by rewrite (right_id_L ∅ (∪)) |]. split; [| done]. intros a. rewrite decide_False; [done |].
    by intros [?%elem_of_nil _]. }
  apply NoDup_cons in Hnd as [Hx Hnd].
  assert (Hal' : forall p p', p ∈ S -> p' ∈ S -> young <= m p' -> p <> m p') by (intros p p' ? ?; apply Hal; by right).
  assert (Hnn' : forall p, p ∈ S -> p <> NULL) by (intros p ?; apply Hnn; by right).
  assert (Es : should_scavenge young x (visit w m c q) = Some (is_obj_in_young young (m x), visit w m c q)) by done.
  mrun Es. unfold is_obj_in_young. rewrite Z.geb_leb. unfold new_cards. rewrite !filter_cons.
  destruct (Z.leb_spec young (m x)) as [Hy | Hy].
  - rewrite when_true. destruct (is_marked (m (m x))) eqn:Em.
    + assert (Hfx : leads_forwarded m x) by by split.
      mrun (claim_forwarded_run w m c q x (Hnn x ltac:(by left)) Hfx). set (m1 := upd m x (resolve m x)).
      assert (Hsame : forall p, p ∈ S -> same_target m m1 p).
      { intros p Hp. apply same_target_upd; [by intros -> | intros Hyp; apply Hal; [by left | by right | done]]. }
      destruct (IH m1 (if decide (young <= resolve m x) then c ∪ {[Z.shiftr x 9]} else c) q ts) as (m' & q' & E & Hm' & Hq');
        [done | done | | done |].
      { intros p p' Hp Hp'. destruct (Hsame p' Hp') as (-> & _). by apply Hal'. }
      exists m', q'. split; [| split].
      * rewrite E. do 3 f_equal. unfold new_cards.
        assert (filter (fun p => leads_forwarded m1 p /\ young <= resolve m1 p) S
          = filter (fun p => leads_forwarded m p /\ young <= resolve m p) S) as ->.
        { apply filter_ext_in. intros p Hp. destruct (Hsame p Hp) as (_ & -> & _ & Hre).
          split; intros [H1 H2]; (split; [done |]); by rewrite Hre in *. }
        destruct (decide (young <= resolve m x)) as [Hc | Hc].
        -- rewrite decide_True by done. cbn [fmap list_fmap list_to_set]. by rewrite (assoc_L (∪)).
        -- rewrite decide_False by tauto. done.
      * intros a. rewrite Hm'. destruct (decide (a = x)) as [-> | Hne].
        -- rewrite decide_False by tauto. rewrite decide_True by (split; [by left | done]).
           unfold m1, upd. by rewrite Z.eqb_refl.
        -- assert (m1 a = m a) as Ea by (unfold m1, upd; by destruct (Z.eqb_spec a x)).
           destruct (decide (a ∈ S /\ leads_forwarded m1 a)) as [[H1 H2] | Hn].
           ++ destruct (Hsame a H1) as (_ & Hfe & _ & Hre). apply Hfe in H2.
              rewrite decide_True by (split; [by right | done]). by apply Hre.
           ++ rewrite decide_False; [done |]. intros [[-> | Ha]%elem_of_cons H2]; [done |].
              apply Hn. split; [done | by apply (Hsame a Ha)].
      * rewrite decide_False by (unfold leads_unforwarded; intros [_ ?]; congruence).
        rewrite <- (filter_ext_in (leads_unforwarded m1) (leads_unforwarded m)); [done |].
        intros p Hp. apply (Hsame p Hp).
    + destruct (claim_unforwarded_run w m c q x ts (Hnn x ltac:(by left)) ltac:(by split) Hq) as (q1 & E1 & Hq1). mrun E1.
      destruct (IH m c q1 (x :: ts) Hnd Hnn' Hal' Hq1) as (m' & q' & E & Hm' & Hq').
      assert (Hnx : ~ leads_forwarded m x) by (intros [_ ?]; congruence).
      exists m', q'. split; [rewrite E; unfold new_cards; by rewrite decide_False by tauto |]. split.
      * intros a. rewrite Hm'. apply decide_ext. rewrite elem_of_cons. split; [tauto |]. intros [[-> | ?] ?]; [done | tauto].
      * rewrite decide_True by by split. destruct Hq' as (l & st & Hr & Hp). exists l, st. split; [done |].
        rewrite Hp. simpl. symmetry. apply Permutation_middle.
  - rewrite when_false, M_ret_bind. destruct (IH m c q ts Hnd Hnn' Hal' Hq) as (m' & q' & E & Hm' & Hq').
    assert (Hnx : ~ leads_forwarded m x /\ ~ leads_unforwarded m x) by (split; intros [? _]; lia).
    exists m', q'. split; [rewrite E; unfold new_cards; by rewrite decide_False by tauto |]. split.
    + intros a. rewrite Hm'. apply decide_ext. rewrite elem_of_cons. split; [tauto |]. intros [[-> | ?] ?]; [tauto | tauto].
    + by rewrite decide_False by tauto.
Qed.

Context (g : config) (klasses : Z -> option Klass).

Local Abbreviation failed := (bda_oop_promotion_failed g klasses young UseBiasedLocking N star_heap star_junk).

(** The references of the object, none of which lies in its header, and none of which is the
    header of an object that they lead to. *)
Record fields (m : Z -> Z) (o : Z) (k : Klass) : Prop := {
  fi_klass : klasses (m (o + 8)) = Some k;
  fi_slots : NoDup (oop_slots k m o);
  fi_apart : forall p, p ∈ oop_slots k m o -> p <> NULL /\ p <> o /\ p <> o + 8;
  fi_target : forall p p', p ∈ oop_slots k m o -> p' ∈ oop_slots k m o -> young <= m p' -> p <> m p'
}.

Lemma failed_run (w : world W) o k mark ts :
  fields (mem w) o k -> mem w o = mark -> claimed (_claimed_stack_depth (pm w)) ts ->
  let m := upd (mem w) o (encode_pointer_as_mark o) in
  let S := oop_slots k (mem w) o in
  exists m' q', failed o mark w
    = Some (o, set_preserved (set_pm (set_cards (set_mem w m') (cards w ∪ new_cards m S))
                 (set_claimed (register_copy_failure (pm w) (size_given_klass g k (mem w) o)) q'))
               (preserved w ++ (if must_be_preserved_for_promotion_failure UseBiasedLocking (_prototype_header k) mark
                                then [(o, mark)] else [])))
    /\ (forall a, m' a = if decide (a ∈ S /\ leads_forwarded m a) then resolve m a else m a)
    /\ claimed q' (filter (leads_unforwarded m) S ++ ts).
Proof using HN Halloc Hjunk Hlg Hsz.
  intros [Hk Hnd Hap Htg] Hmark Hq m S. unfold bda_oop_promotion_failed.
  assert (E1 : cas_forward_to o o mark w = Some (true, set_mem w m)).
  { unfold cas_forward_to. assert (E : load o w = Some (mark, w)) by by rewrite <- Hmark. mrun E. by rewrite Z.eqb_refl. }
  mrun E1. assert (Hk1 : klasses (m (o + 8)) = Some k).
  { unfold m, upd. by destruct (Z.eqb_spec (o + 8) o); [lia |]. }
  assert (Ek : forall w' : world W, mem w' (o + 8) = m (o + 8) -> klass_of klasses o w' = Some (k, w')).
  { intros w' E. unfold klass_of. assert (E0 : load (o + 8) w' = Some (m (o + 8), w')) by by rewrite <- E.
    mrun E0. by rewrite Hk1. }
  assert (E2 : size g klasses o (set_mem w m) = Some (size_given_klass g k (mem w) o, set_mem w m)).
  { unfold size. mrun (Ek (set_mem w m) eq_refl). unfold gets. cbn [mem set_mem]. unfold m. by rewrite failed_size. }
  mrun E2. unfold on_pm at 1. rewrite M_modify_bind. set (w2 := set_pm _ _).
  assert (E3 : push_contents klasses young UseBiasedLocking N star_heap star_junk o w2
    = claim_slots young claim S (visit w2 m (cards w) (_claimed_stack_depth (pm w)))).
  { unfold push_contents, push_contents_with. mrun (Ek w2 eq_refl). rewrite M_gets_bind. change (mem w2) with m.
    unfold m. rewrite failed_slots. unfold S. f_equal. }
  destruct (claim_slots_depth w2 S m (cards w) (_claimed_stack_depth (pm w)) ts Hnd) as (m' & q' & E4 & Hm' & Hq').
  { intros p Hp. by apply Hap. }
  { intros p p' Hp Hp'. unfold m, upd at 1 2. destruct (Z.eqb_spec p' o); [by destruct (Hap p' Hp') as (_ & ? & _) |].
    by apply Htg. }
  { done. }
  rewrite <- E3 in E4. mrun E4.
  mrun (Ek (visit w2 m' (cards w ∪ new_cards m S) q') ltac:(
    rewrite Hm', decide_False; [done |]; intros [Hs _]; by destruct (Hap _ Hs) as (_ & _ & ?))).
  exists m', q'. split; [| done].
  destruct (must_be_preserved_for_promotion_failure _ _ _).
  - rewrite when_true, M_modify_bind. done.
  - rewrite when_false, M_ret_bind. rewrite app_nil_r. done.
Qed.

End Failure.

(** C15. When the old generation has no room for an object, its promotion fails without loss.
    The thread that wins the race for the header leaves the object in place, forwarded to itself;
    of its references, those to objects that are forwarded already are updated, with the card
    marked if they still lead into the young generation, and those to other young
    objects are pushed on the stack of the ordinary scavenge, not on that of the containers;
    no other word is changed.  The size is added to the failures and the mark is preserved exactly
    if it must be.  A thread that loses the race returns the object of the winner and
    changes nothing; a header that is neither as expected nor forwarded stops the machine.  A
    root that gets no container is treated so, with the old generation noted to be full. *)
Theorem promotion_failed_spec {W : Type} {HW : OldSpace W} (young : Z) (UseBiasedLocking : bool) (lg N : Z)
    (star_heap : gmap Z (Stack.segment Z) -> Z) (star_junk : Z -> Z -> Stack.segment Z) (sz : Z)
    (g : config) (klasses : Z -> option Klass) (intArrayKlass objectKlass : Z) (PSChunkLargeArrays : bool) (BDAOldPLABSize : Z)
    (bda_heap : gmap Z (Stack.segment BDARefTask) -> Z) (bda_junk : Z -> Z -> Stack.segment BDARefTask)
    (w : world W) (o : Z) (k : Klass) (mark : Z) (ts : list Z)
    (Hlg : 2 <= lg <= 31) (HN : N = 2 ^ lg) (Hsz : 0 < sz < 2 ^ 63)
    (Halloc : forall h, star_heap h <> NULL /\ h !! star_heap h = None)
    (Hjunk : forall p, Z.of_nat (length (Stack.elements (star_junk sz p))) = sz)
    (Ho : is_oop o) (Hf : fields young klasses (mem w) o k) (Hmark : mem w o = mark) (Hunmarked : is_marked mark = false)
    (Hts : claimed N sz (_claimed_stack_depth (pm w)) ts) :
  let failed := bda_oop_promotion_failed g klasses young UseBiasedLocking N star_heap star_junk in
  let m := upd (mem w) o (encode_pointer_as_mark o) in
  let S := oop_slots k (mem w) o in
  (exists w', failed o mark w = Some (o, w')
   /\ is_marked (mem w' o) = true /\ decode_pointer UseBiasedLocking (mem w' o) = o
   /\ (forall p, p ∈ S -> mem w' p = if decide (leads_forwarded young m p) then resolve UseBiasedLocking m p else mem w p)
   /\ (forall a, a <> o -> a ∉ S -> mem w' a = mem w a)
   /\ (forall c, c ∈ cards w' <-> c ∈ cards w \/ exists p, p ∈ S /\ leads_forwarded young m p
         /\ young <= resolve UseBiasedLocking m p /\ c = Z.shiftr p 9)
   /\ claimed N sz (_claimed_stack_depth (pm w')) (filter (leads_unforwarded young m) S ++ ts)
   /\ _bdaref_stack (pm w') = _bdaref_stack (pm w) /\ old_space w' = old_space w
   /\ _promotion_failed_info (pm w') = _promotion_failed_info (pm w) ++ [size_given_klass g k (mem w) o]
   /\ preserved w' = preserved w
        ++ (if must_be_preserved_for_promotion_failure UseBiasedLocking (_prototype_header k) mark then [(o, mark)] else []))
  /\ (forall w1, mem w1 o <> mark ->
        failed o mark w1
        = if is_marked (mem w1 o) then Some (decode_pointer UseBiasedLocking (mem w1 o), w1) else None)
  /\ (forall r s', allocate_container (size_given_klass g k (mem w) o) r (old_space w) = Some (NULL, s') ->
        copy_bdaref_to_survivor_space g klasses intArrayKlass objectKlass young UseBiasedLocking PSChunkLargeArrays
          BDAOldPLABSize N bda_heap bda_junk star_heap star_junk o r RefQueue.container w
        = failed o mark (set_pm (set_space w s') (set_full (pm w)))).
Proof.
  intros failed m S. split; [| split].
  - destruct (failed_run young UseBiasedLocking lg N Hlg HN star_heap star_junk sz Hsz Halloc Hjunk g klasses w o k mark ts Hf Hmark Hts)
      as (m' & q' & E & Hm' & Hq'). fold m S in E, Hm', Hq'.
    assert (HoS : o ∉ S) by (intros Hin; by destruct (fi_apart _ _ _ _ _ Hf o Hin) as (_ & ? & _)).
    assert (Em : mem (set_mem w m') o = encode_pointer_as_mark o).
    { cbn [mem set_mem]. rewrite Hm', decide_False by tauto. unfold m, upd. by rewrite Z.eqb_refl. }
    eexists. split; [exact E |]. cbn [mem set_preserved set_pm set_cards set_mem] in *. rewrite Em.
    destruct (forward_codec UseBiasedLocking o Ho) as [H1 H2]. split; [done |]. split; [done |]. split.
    { intros p Hp. assert (Emp : m p = mem w p) by (unfold m, upd; by destruct (Z.eqb_spec p o) as [-> |]).
      rewrite Hm'. destruct (decide (p ∈ S /\ leads_forwarded young m p)), (decide (leads_forwarded young m p)); tauto || done. }
    split.
    { intros a Hao HaS. rewrite Hm', decide_False by tauto. unfold m, upd. by destruct (Z.eqb_spec a o). }
    split; [| done].
    intros c. cbn [cards set_preserved set_pm set_cards set_mem]. rewrite elem_of_union. apply or_iff_compat_l.
    unfold new_cards. rewrite elem_of_list_to_set, list_elem_of_fmap. setoid_rewrite list_elem_of_filter. naive_solver.
  - intros w1 Hne. unfold failed, bda_oop_promotion_failed.
    assert (E1 : cas_forward_to o o mark w1 = Some (false, w1)).
    { unfold cas_forward_to. assert (E : load o w1 = Some (mem w1 o, w1)) by done. mrun E. by destruct (Z.eqb_spec (mem w1 o) mark). }
    mrun E1. unfold lost_forwardee.
    assert (E2 : is_forwarded o w1 = Some (is_marked (mem w1 o), w1)) by done. mrun E2. by destruct (is_marked (mem w1 o)).
  - intros r s' Hal. unfold copy_bdaref_to_survivor_space.
    assert (E1 : load o w = Some (mark, w)) by by rewrite <- Hmark. mrun E1. rewrite Hunmarked. cbn [negb].
    assert (E2 : size g klasses o w = Some (size_given_klass g k (mem w) o, w)).
    { unfold size, klass_of. assert (E : load (o + 8) w = Some (mem w (o + 8), w)) by done.
      rewrite (M_bind_Some _ _ w k w); [done |]. mrun E. by rewrite (fi_klass _ _ _ _ _ Hf). }
    mrun E2. assert (E3 : on_space (allocate_container (size_given_klass g k (mem w) o) r) w = Some (NULL, set_space w s')).
    { unfold on_space. by rewrite Hal. }
    mrun E3. rewrite Z.eqb_refl. unfold on_pm. by rewrite M_modify_bind.
Qed.

(** A generation without room, and an object at 8192 with two references: one to an object that was
    copied to 2048, one to an object that was not. *)
Definition no_room : OldSpace unit := {|
  allocate_container _ _ := mret NULL;
  container_start _ := mret NULL;
  reset_container _ := mret tt;
  allocate_element _ c := mret (NULL, c);
  allocate_plab c := mret (NULL, c);
  start_array _ := ObjectStartArray.sample;
  set_start_array u _ := u
|}.
Definition sample_mem (a : Z) : Z :=
  if a =? 8192 then unlocked_value else if a =? 8200 then 1000
  else if a =? 8208 then 12288 else if a =? 8216 then 16384
  else if a =? 12288 then unlocked_value else if a =? 16384 then encode_pointer_as_mark 2048 else 0.
Definition sample_klass : Klass := mkKlass (instance_layout_helper 4 false) (Instance_ [(16, 2)]) unlocked_value.
Definition sample_manager : PSPromotionManager :=
  mkManager (PromotionLAB.mkBDALAB (PromotionLAB.mkOldLAB (PromotionLAB.mkLAB 0 0 0 PromotionLAB.zero_size) ObjectStartArray.sample) 0)
    (OverflowQueue.create 16 (replicate 4 (mkTask 0 0))) (OverflowQueue.create 8 (replicate 4 0)) false [] 1 1.
Definition sample_world : world unit := mkWorld sample_mem ∅ [] tt [] (RefQueue.mkRefQueue 0 0) sample_manager.
Definition bda_alloc (m : gmap Z (Stack.segment BDARefTask)) : Z := fresh ({[NULL]} ∪ dom m).
Definition bda_junk (sz p : Z) : Stack.segment BDARefTask := Stack.mkSegment (replicate (Z.to_nat sz) (mkTask 0 0)) 0.

Lemma promotion_failed_spec_witness :
  exists w', @bda_oop_promotion_failed unit (mkConfig false 1) (fun _ => Some sample_klass) 4096 true 4
      Stack.sample_alloc Stack.sample_junk 8192 unlocked_value sample_world = Some (8192, w')
    /\ mem w' 8216 = 2048 /\ mem w' 8208 = 12288.
Proof.
  destruct (@promotion_failed_spec unit no_room 4096 true 2 4 Stack.sample_alloc Stack.sample_junk 510
    (mkConfig false 1) (fun _ => Some sample_klass) 0 0 true 1024 bda_alloc bda_junk sample_world 8192 sample_klass unlocked_value [])
    as [(w' & E & _ & _ & Hs & _) _].
  - lia.
  - reflexivity.
  - lia.
  - exact Stack.sample_alloc_ok.
  - done.
  - vm_compute. done.
  - constructor; [done | | |].
    + apply (bool_decide_unpack _). by vm_compute.
    + apply (Forall_forall (fun p => p <> NULL /\ p <> 8192 /\ p <> 8192 + 8)). apply (bool_decide_unpack _). by vm_compute.
    + intros p p' Hp Hp' _. vm_compute in Hp, Hp'. set_solver by lia.
  - reflexivity.
  - reflexivity.
  - exists [], []. split; [| done]. split; [by apply (TaskQueue.create_contents 2) |].
    exists [], []. split; try done; [constructor | constructor | constructor | by intros p [x Hx]].
  - exists w'. split; [exact E |]. split; (rewrite Hs; [by vm_compute |]); apply (bool_decide_unpack _); by vm_compute.
Defined.

End PromotionFailure.
