(* ===== verification/HeapCopy.v ===== *)
(** * Copying a graph of objects

    What the memory looks like while objects are copied out of the young generation: the
    objects that have not been forwarded are as they were, the copies hold what the originals
    held, and each of their references is either pending, with the old address, or has the
    address of the copy.  The steps of the scavenger on the memory keep this. *)

From Stdlib Require Import ZArith Lia.
From stdpp Require Import base numbers gmap sets list.
From S2P Require Import Prelude GlobalDefs CollectedHeap Oops PromotionManager.

Local Open Scope Z_scope.

Module HeapCopy.
Import CollectedHeap Oops PromotionManager.

(** ** The words of a copy *)

Lemma upd_eq m a v : upd m a v a = v.
Proof. unfold upd. by rewrite Z.eqb_refl. Qed.

Lemma upd_ne m a v x : x <> a -> upd m a v x = m x.
Proof. intros H. unfold upd. by destruct (Z.eqb_spec x a). Qed.

Lemma copy_words_out n : forall from to m a,
  (forall i, 0 <= i < Z.of_nat n -> a <> to + 8 * i) -> copy_words n from to m a = m a.
Proof.
  induction n as [| n IH]; intros from to m a Ha; cbn [copy_words]; [done |].
  rewrite IH.
  - apply upd_ne. specialize (Ha 0). lia.
  - intros i Hi. specialize (Ha (i + 1)). lia.
Qed.

Lemma copy_words_in n : forall from to m i,
  0 <= i < Z.of_nat n -> (from + 8 * Z.of_nat n <= to \/ to + 8 * Z.of_nat n <= from) ->
  copy_words n from to m (to + 8 * i) = m (from + 8 * i).
Proof.
  induction n as [| n IH]; intros from to m i Hi Hd; [lia |]. cbn [copy_words].
  destruct (decide (i = 0)) as [-> | Hne].
  - rewrite copy_words_out by (intros j Hj; lia). rewrite Z.mul_0_r, !Z.add_0_r. apply upd_eq.
  - replace (to + 8 * i) with (to + 8 + 8 * (i - 1)) by lia. rewrite IH by lia.
    rewrite upd_ne by lia. f_equal. lia.
Qed.

(** ** Layouts *)

(** The classes of the objects in the heap. *)
Definition klass_wf (k : Klass) : Prop :=
  match _kind k with
  | Instance_ maps => exists size slow, _layout_helper k = instance_layout_helper size slow /\ 2 <= size < 2 ^ 28 /\
      Forall (fun map => 16 <= fst map /\ fst map mod 8 = 0 /\ 0 <= snd map /\ fst map + 8 * snd map <= 8 * size) maps /\
      NoDup (maps ≫= map_slots 0)
  | ObjArray => _layout_helper k = array_layout_helper lh_array_tag_obj_value 24 12 3
  | TypeArray => exists hsize etype log2, 0 < hsize < 256 /\ 0 <= etype < 256 /\ 0 <= log2 <= 3 /\
      24 <= hsize /\ _layout_helper k = array_layout_helper lh_array_tag_type_value hsize etype log2
  end.

(** The length of an array with at most [2 ^ 27] elements, objects being aligned to words. *)
Definition length_wf (k : Klass) (len : Z) : Prop :=
  match _kind k with Instance_ _ => True | _ => 0 <= len <= 2 ^ 27 end.

Lemma round_to_words g x :
  MinObjAlignment g = 1 -> 0 <= x < 2 ^ 32 -> round_to x (MinObjAlignment g * HeapWordSize) / HeapWordSize = (x + 7) / 8.
Proof.
  intros -> Hx. unfold round_to, mask_bits, HeapWordSize. change (u64 (1 * 8 - 1)) with (Z.ones 3).
  change (Z.ones 3) with 7 at 1. rewrite (wrap_small 64 (x + 7)) by lia.
  rewrite land_not64_ones by (unfold is_u64; lia). change (2 ^ 3) with 8. lia.
Qed.

Lemma size_obj_array g k m o :
  MinObjAlignment g = 1 -> _kind k = ObjArray -> klass_wf k -> length_wf k (array_length m o) ->
  size_given_klass g k m o = 3 + array_length m o.
Proof.
  intros Hg Hk Hw Hl. unfold klass_wf, length_wf in *. rewrite Hk in *. unfold size_given_klass. rewrite Hw.
  change (array_layout_helper lh_array_tag_obj_value 24 12 3) with (-2145907709).
  change (-2145907709 >? lh_neutral_value) with false. change (-2145907709 <? lh_neutral_value) with true. cbv iota.
  change (layout_helper_log2_element_size (-2145907709)) with 3. change (layout_helper_header_size (-2145907709)) with 24.
  change (2 ^ 27) with 134217728 in Hl. rewrite Z.shiftl_mul_pow2 by lia. change (2 ^ 3) with 8.
  rewrite (wrap_small 64 (array_length m o)) by (change (2 ^ 64) with 18446744073709551616; lia).
  rewrite (wrap_small 64 (array_length m o * 8)) by (change (2 ^ 64) with 18446744073709551616; lia).
  rewrite (wrap_small 64 (_ + 24)) by (change (2 ^ 64) with 18446744073709551616; lia).
  rewrite round_to_words by (done || (change (2 ^ 32) with 4294967296; lia)).
  rewrite swrap_small; change (2 ^ (32 - 1)) with 2147483648; lia.
Qed.

Lemma size_type_array g k m o :
  MinObjAlignment g = 1 -> _kind k = TypeArray -> klass_wf k -> length_wf k (array_length m o) ->
  3 <= size_given_klass g k m o < 2 ^ 31.
Proof.
  intros Hg Hk Hw Hl. unfold klass_wf, length_wf in *. rewrite Hk in *.
  destruct Hw as (h & et & l & Hh & He & Hlg & H16 & Hlh). unfold size_given_klass. rewrite Hlh.
  destruct (array_helper_fields lh_array_tag_type_value h et l ltac:(by left) ltac:(lia) ltac:(lia) ltac:(lia))
    as (Ha & Hi & _ & _ & Hhs & _ & Hls). unfold layout_helper_is_array, layout_helper_is_instance in Ha, Hi.
  rewrite Hi, Ha, Hhs, Hls. change (2 ^ 27) with 134217728 in Hl. rewrite Z.shiftl_mul_pow2 by lia.
  assert (1 <= 2 ^ l <= 8) as Hp.
  { split; [lia |]. change 8 with (2 ^ 3). apply Z.pow_le_mono_r; lia. }
  set (x := array_length m o) in *. change (2 ^ 31) with 2147483648.
  rewrite (wrap_small 64 x) by (change (2 ^ 64) with 18446744073709551616; lia).
  assert (0 <= x * 2 ^ l <= 1073741824) as Hx by nia.
  rewrite (wrap_small 64 (x * 2 ^ l)), (wrap_small 64 (x * 2 ^ l + h)) by (change (2 ^ 64) with 18446744073709551616; lia).
  rewrite round_to_words by (done || (change (2 ^ 32) with 4294967296; lia)).
  rewrite swrap_small; change (2 ^ (32 - 1)) with 2147483648; lia.
Qed.

Lemma size_instance g k m o maps size slow :
  _kind k = Instance_ maps -> _layout_helper k = instance_layout_helper size slow -> 2 <= size < 2 ^ 28 ->
  size_given_klass g k m o = size.
Proof.
  intros Hk Hlh Hs. destruct (instance_helper_fields size slow ltac:(lia)) as (_ & Hi & _ & _ & Hsz & Hsl).
  unfold size_given_klass, oop_size. rewrite Hk, Hlh. unfold layout_helper_is_instance in Hi. rewrite Hi, Hsl.
  unfold layout_helper_to_size_helper in *. by rewrite Hsz; destruct slow.
Qed.

Lemma size_congr g k m m' o o' :
  array_length m o = array_length m' o' -> size_given_klass g k m o = size_given_klass g k m' o'.
Proof. intros E. unfold size_given_klass, oop_size. by rewrite E. Qed.

Lemma map_slots_shift o o' map : map_slots o' map = (fun s => s - o + o') <$> map_slots o map.
Proof. unfold map_slots. rewrite <- list_fmap_compose. apply list_fmap_ext. intros i j _. simpl. lia. Qed.

(** The references of an object that is elsewhere are as far from its start. *)
Lemma slots_shift k m m' o o' :
  (_kind k = ObjArray -> array_length m' o' = array_length m o) ->
  oop_slots k m' o' = (fun s => s - o + o') <$> oop_slots k m o.
Proof.
  intros E. unfold oop_slots. destruct (_kind k) as [maps | |]; [| | done].
  - rewrite fmap_reverse. f_equal. clear E. induction maps as [| map maps IH]; [done |]. cbn.
    rewrite IH, fmap_app. f_equal. apply map_slots_shift.
  - rewrite E by done. unfold array_slots, array_base. rewrite <- list_fmap_compose. apply list_fmap_ext.
    intros i j _. simpl. lia.
Qed.

Lemma NoDup_shift l a : NoDup ((fun s : Z => s + a) <$> l) <-> NoDup l.
Proof. apply NoDup_fmap. intros x y. lia. Qed.

Lemma instance_slots_in maps size o s :
  Forall (fun map => 16 <= fst map /\ fst map mod 8 = 0 /\ 0 <= snd map /\ fst map + 8 * snd map <= 8 * size) maps ->
  s ∈ maps ≫= map_slots o -> exists i, 2 <= i < size /\ s = o + 8 * i.
Proof.
  intros Hm (map & Hs & Hin)%list_elem_of_bind. rewrite Forall_forall in Hm. specialize (Hm map Hin).
  unfold map_slots in Hs. apply list_elem_of_fmap in Hs as (j & -> & Hj). apply elem_of_seqZ in Hj.
  exists (fst map / 8 + j). lia.
Qed.

(** The references of an object lie behind its header and inside it, and are distinct. *)
Lemma object_layout g k m o :
  MinObjAlignment g = 1 -> klass_wf k -> length_wf k (array_length m o) ->
  2 <= size_given_klass g k m o < 2 ^ 31 /\
  (forall s, s ∈ oop_slots k m o -> exists i, 2 <= i < size_given_klass g k m o /\ s = o + 8 * i) /\
  NoDup (oop_slots k m o).
Proof.
  intros Hg Hw Hl. pose proof (size_obj_array g k m o Hg) as Ho. pose proof (size_type_array g k m o Hg) as Ht.
  pose proof Hw as Hw'. pose proof Hl as Hl'. unfold klass_wf in Hw'. unfold length_wf in Hl'. unfold oop_slots.
  destruct (_kind k) as [maps | |] eqn:Hk.
  - destruct Hw' as (size & slow & Hlh & Hs & Hmaps & Hnd). rewrite (size_instance g k m o maps size slow Hk Hlh Hs).
    split; [change (2 ^ 31) with 2147483648; change (2 ^ 28) with 268435456 in Hs; lia |]. split.
    + intros s. rewrite elem_of_reverse. by apply instance_slots_in.
    + rewrite reverse_Permutation. replace (maps ≫= map_slots o) with ((fun s => s + o) <$> (maps ≫= map_slots 0)).
      * by apply NoDup_shift.
      * clear. induction maps as [| map maps IH]; [done |]. cbn. rewrite fmap_app, IH. f_equal.
        rewrite (map_slots_shift 0 o). apply list_fmap_ext. intros; lia.
  - rewrite (Ho eq_refl Hw Hl). change (2 ^ 27) with 134217728 in Hl'. change (2 ^ 31) with 2147483648.
    split; [lia |]. unfold array_slots, array_base. split.
    + intros s (j & -> & Hj%elem_of_seqZ)%list_elem_of_fmap. exists (3 + j). lia.
    + apply NoDup_fmap; [intros x y; lia | apply NoDup_seqZ].
  - specialize (Ht eq_refl Hw Hl). split; [lia |]. split; [by intros s ?%elem_of_nil | constructor].
Qed.

(** ** The heap while objects are copied *)

Section Heap.
Context (g : config) (klasses : Z -> option Klass).
(** The old generation is below [young], in [lo, young), the young one in [young, hi); the memory at the
    start is [m0] and the objects of the young generation are [Y]. *)
Context (lo young hi : Z) (m0 : Z -> Z) (Y : gset Z).

Definition words (o : Z) : Z :=
  match klasses (m0 (o + 8)) with Some k => size_given_klass g k m0 o | None => 0 end.
Definition slots (o : Z) : list Z :=
  match klasses (m0 (o + 8)) with Some k => oop_slots k m0 o | None => [] end.

Record young_heap : Prop := {
  y_bounds : 0 < lo <= young /\ young <= hi <= 2 ^ 64;
  y_align : MinObjAlignment g = 1;
  y_klass : forall o, o ∈ Y -> exists k, klasses (m0 (o + 8)) = Some k /\ klass_wf k /\ length_wf k (array_length m0 o);
  y_addr : forall o, o ∈ Y -> is_oop o /\ young <= o /\ o + 8 * words o <= hi;
  y_mark : forall o, o ∈ Y -> is_marked (m0 o) = false;
  y_apart : forall o o', o ∈ Y -> o' ∈ Y -> o <> o' -> o + 8 * words o <= o' \/ o' + 8 * words o' <= o;
  y_closed : forall o s, o ∈ Y -> s ∈ slots o -> young <= m0 s -> m0 s ∈ Y
}.

(** The reference at [s], a place of an object that is copied, has to be updated. *)
Definition is_young_ref (o s : Z) : Prop := s ∈ slots o /\ young <= m0 s.

#[local] Instance is_young_ref_dec o s : Decision (is_young_ref o s).
Proof. unfold is_young_ref. apply _. Defined.

(** The places in the copy of [o] at [n] that hold references into the young generation. *)
Definition young_slots (o n : Z) : list Z := (fun s => s - o + n) <$> filter (fun s => young <= m0 s) (slots o).

(** The word [i] of the copy [n] of [o]. *)
Definition word_ok (m : Z -> Z) (fwd : gmap Z Z) (pend : list Z) (o n i : Z) : Prop :=
  if decide (is_young_ref o (o + 8 * i)) then
    (n + 8 * i ∈ pend /\ m (n + 8 * i) = m0 (o + 8 * i)) \/
    ((n + 8 * i ∉ pend) /\ fwd !! m0 (o + 8 * i) = Some (m (n + 8 * i)))
  else m (n + 8 * i) = m0 (o + 8 * i).

Record heap_inv (m : Z -> Z) (fwd : gmap Z Z) (pend : list Z) : Prop := {
  h_dom : forall o n, fwd !! o = Some n -> o ∈ Y;
  h_left : forall o i, o ∈ Y -> fwd !! o = None -> 0 <= i < words o -> m (o + 8 * i) = m0 (o + 8 * i);
  h_mark : forall o n, fwd !! o = Some n -> m o = encode_pointer_as_mark n;
  h_copy : forall o n i, fwd !! o = Some n -> 0 <= i < words o -> word_ok m fwd pend o n i;
  h_pend : forall a, a ∈ pend -> exists o n i, fwd !! o = Some n /\ 0 <= i < words o /\ a = n + 8 * i /\
             is_young_ref o (o + 8 * i);
  h_nodup : NoDup pend;
  h_place : forall o n, fwd !! o = Some n -> is_oop n /\ lo <= n /\ n + 8 * words o <= young;
  h_apart : forall o n o' n', fwd !! o = Some n -> fwd !! o' = Some n' -> o <> o' ->
             n + 8 * words o <= n' \/ n' + 8 * words o' <= n
}.

(** The words that the invariant speaks of. *)
Definition in_young (a : Z) : Prop := exists o i, o ∈ Y /\ 0 <= i < words o /\ a = o + 8 * i.
Definition in_copies (fwd : gmap Z Z) (a : Z) : Prop :=
  exists o n i, fwd !! o = Some n /\ 0 <= i < words o /\ a = n + 8 * i.

Lemma heap_frame m m' fwd pend :
  heap_inv m fwd pend -> (forall a, in_young a \/ in_copies fwd a -> m' a = m a) -> Forall (fun o => 0 < words o) (elements Y) ->
  heap_inv m' fwd pend.
Proof.
  intros [Hd Hl Hm Hc Hp Hn Hpl Ha] Hf Hw. rewrite Forall_forall in Hw. split; try done.
  - intros o i Ho Hno Hi. rewrite Hf; [by apply Hl | left; by exists o, i].
  - intros o n Hon. pose proof (Hd _ _ Hon) as HY. rewrite Hf; [by apply Hm |]. left. exists o, 0.
    specialize (Hw o ltac:(by apply elem_of_elements)). split_and!; try done; lia.
  - intros o n i Hon Hi. specialize (Hc o n i Hon Hi). unfold word_ok in *. rewrite Hf; [done |].
    right. by exists o, n, i.
Qed.

Section Steps.
Context (Hheap : young_heap).

Lemma object_words o : o ∈ Y -> 2 <= words o < 2 ^ 31.
Proof.
  intros Ho. destruct (y_klass Hheap o Ho) as (k & Hk & Hw & Hl). unfold words. rewrite Hk.
  apply object_layout; [apply Hheap | done | done].
Qed.

(** The size of an object that was left alone. *)
Lemma size_left m o :
  o ∈ Y -> (forall i, 0 <= i < words o -> m (o + 8 * i) = m0 (o + 8 * i)) ->
  exists k, klasses (m (o + 8)) = Some k /\ size_given_klass g k m o = words o.
Proof.
  intros Ho Hm. destruct (y_klass Hheap o Ho) as (k & Hk & Hw & Hl). pose proof (object_words o Ho) as Hr.
  exists k. assert (m (o + 8) = m0 (o + 8)) as -> by (apply (Hm 1); lia). split; [done |].
  unfold words in *. rewrite Hk in *. destruct (_kind k) as [maps | |] eqn:Hkind.
  - pose proof Hw as Hw'. unfold klass_wf in Hw'. rewrite Hkind in Hw'. destruct Hw' as (size & slow & Hlh & Hs & _).
    by rewrite !(size_instance g k _ o maps size slow).
  - apply size_congr. unfold array_length. f_equal. apply (Hm 2).
    rewrite (size_obj_array g k m0 o) by first [done | apply Hheap]. unfold length_wf in Hl. rewrite Hkind in Hl. lia.
  - apply size_congr. unfold array_length. f_equal. apply (Hm 2).
    pose proof (size_type_array g k m0 o (y_align Hheap) Hkind Hw Hl). lia.
Qed.

Lemma words_pos : Forall (fun o => 0 < words o) (elements Y).
Proof. apply Forall_forall. intros o Ho%elem_of_elements. pose proof (object_words o Ho). lia. Qed.

Lemma slot_index o s : o ∈ Y -> s ∈ slots o -> exists i, 2 <= i < words o /\ s = o + 8 * i.
Proof.
  intros Ho Hs. destruct (y_klass Hheap o Ho) as (k & Hk & Hw & Hl). unfold words, slots in *. rewrite Hk in *.
  by apply object_layout; [apply Hheap | | |].
Qed.

Lemma slots_nodup o : o ∈ Y -> NoDup (slots o).
Proof.
  intros Ho. destruct (y_klass Hheap o Ho) as (k & Hk & Hw & Hl). unfold slots. rewrite Hk.
  apply (object_layout g); [apply Hheap | done | done].
Qed.

(** An address in a copy belongs to one word of one object. *)
Lemma copy_index m fwd pend o n i o' n' i' :
  heap_inv m fwd pend -> fwd !! o = Some n -> fwd !! o' = Some n' -> 0 <= i < words o -> 0 <= i' < words o' ->
  n + 8 * i = n' + 8 * i' -> o = o' /\ n = n' /\ i = i'.
Proof.
  intros Hi Ho Ho' Hr Hr' E. destruct (decide (o = o')) as [<- | Hne].
  - assert (n' = n) as -> by congruence. split_and!; [done | done | lia].
  - destruct (h_apart _ _ _ Hi o n o' n' Ho Ho' Hne); lia.
Qed.

(** The old generation and the young one. *)
Lemma copy_not_young m fwd pend a : heap_inv m fwd pend -> in_copies fwd a -> in_young a -> False.
Proof.
  intros Hi (o & n & i & Hon & Hr & ->) (o' & i' & Ho' & Hr' & E).
  destruct (h_place _ _ _ Hi o n Hon) as (_ & _ & H1). destruct (y_addr Hheap o' Ho') as (_ & H2 & _). lia.
Qed.

(** A pending reference still has the old address, of an object of the young generation. *)
Lemma pend_value m fwd pend p :
  heap_inv m fwd pend -> p ∈ pend ->
  exists o n i, fwd !! o = Some n /\ 0 <= i < words o /\ p = n + 8 * i /\ is_young_ref o (o + 8 * i) /\
    m p = m0 (o + 8 * i) /\ m p ∈ Y.
Proof.
  intros Hi Hp. destruct (h_pend _ _ _ Hi p Hp) as (o & n & i & Hon & Hr & -> & Hy).
  pose proof (h_copy _ _ _ Hi o n i Hon Hr) as Hw. unfold word_ok in Hw. rewrite decide_True in Hw by done.
  destruct Hw as [[_ E] | [Hne _]]; [| done]. exists o, n, i. split_and!; try done; try apply Hr.
  rewrite E. apply (y_closed Hheap o (o + 8 * i)); [by eapply h_dom | apply Hy | apply Hy].
Qed.

(** ** The steps *)

(** A pending reference is updated. *)
Lemma heap_fill m fwd pend p v :
  heap_inv m fwd (p :: pend) -> fwd !! m p = Some v -> heap_inv (upd m p v) fwd pend.
Proof.
  intros Hi Hv. destruct (pend_value m fwd (p :: pend) p Hi ltac:(by left)) as (o & n & i & Hon & Hr & Hp & Hy & E & _).
  pose proof Hi as [Hd Hl Hm Hc Hpe Hn Hpl Ha]. apply NoDup_cons in Hn as [Hnp Hn].
  assert (in_copies fwd p) as Hcp by (by exists o, n, i).
  split; try done.
  - intros o' i' Ho' Hno Hi'. rewrite upd_ne; [by apply Hl |]. intros <-.
    eapply copy_not_young; [exact Hi | exact Hcp | by exists o', i'].
  - intros o' n' Ho'. rewrite upd_ne; [by apply Hm |]. intros ->.
    eapply (copy_not_young m fwd (p :: pend)); [exact Hi | exact Hcp |]. exists p, 0.
    pose proof (object_words p (Hd _ _ Ho')). split_and!; [by eapply Hd | lia | lia | lia].
  - intros o' n' i' Hon' Hr'. specialize (Hc o' n' i' Hon' Hr'). unfold word_ok in *.
    destruct (decide (n' + 8 * i' = p)) as [Ep | Ep].
    + destruct (copy_index m fwd (p :: pend) o' n' i' o n i Hi Hon' Hon Hr' Hr) as (-> & -> & ->); [congruence |].
      rewrite Ep, upd_eq. rewrite decide_True in * by done. right. split; [done |]. by rewrite <- E.
    + rewrite upd_ne by done. destruct (decide _); [| done].
      destruct Hc as [[Hin Hval] | [Hout Hval]]; [left | right]; (split; [| done]).
      * apply elem_of_cons in Hin as [|]; [done | done].
      * by apply not_elem_of_cons in Hout as [_ ?].
  - intros a Ha'. apply Hpe. by right.
Qed.

Lemma elem_of_young_slots v n a :
  v ∈ Y -> a ∈ young_slots v n <-> exists i, 0 <= i < words v /\ a = n + 8 * i /\ is_young_ref v (v + 8 * i).
Proof.
  intros Hv. unfold young_slots, is_young_ref. rewrite list_elem_of_fmap. split.
  - intros (s & -> & [Hy Hs]%list_elem_of_filter). destruct (slot_index v s Hv Hs) as (i & Hi & ->).
    exists i. split_and!; try done; lia.
  - intros (i & Hi & -> & Hs & Hy). exists (v + 8 * i). split; [lia |]. by apply list_elem_of_filter.
Qed.

Lemma young_slots_nodup v n : v ∈ Y -> NoDup (young_slots v n).
Proof. intros Hv. apply NoDup_fmap; [intros x y; lia |]. by apply NoDup_filter, slots_nodup. Qed.

(** The memory after the object [v] was copied to [n] and forwarded. *)
Definition forwarded (m : Z -> Z) (v n : Z) : Z -> Z :=
  upd (copy_words (Z.to_nat (words v)) v n m) v (encode_pointer_as_mark n).

Lemma forwarded_out m v n a :
  a <> v -> (forall i, 0 <= i < words v -> a <> n + 8 * i) -> forwarded m v n a = m a.
Proof.
  intros Hv Hn. unfold forwarded. rewrite upd_ne by done. apply copy_words_out. intros i Hi. apply Hn. lia.
Qed.

Lemma forwarded_in m v n i :
  n + 8 * words v <= v -> 0 <= i < words v -> forwarded m v n (n + 8 * i) = m (v + 8 * i).
Proof.
  intros Hd Hi. unfold forwarded. rewrite upd_ne by lia. apply copy_words_in; lia.
Qed.

Section Forward.
Context (m : Z -> Z) (fwd : gmap Z Z) (pend : list Z) (v n : Z).
Context (Hinv : heap_inv m fwd pend) (HvY : v ∈ Y) (Hvn : fwd !! v = None).
Context (Hn : is_oop n) (Hlo : lo <= n) (Hhi : n + 8 * words v <= young).
Context (Hap : forall o n', fwd !! o = Some n' -> n' + 8 * words o <= n \/ n + 8 * words v <= n').

Lemma forwarded_young o i : o ∈ Y -> o <> v -> 0 <= i < words o -> forwarded m v n (o + 8 * i) = m (o + 8 * i).
Proof using Hheap HvY Hhi.
  intros Ho Hne Hi. pose proof (object_words v HvY). pose proof (y_addr Hheap o Ho). apply forwarded_out; [| lia].
  destruct (y_apart Hheap o v Ho HvY Hne); lia.
Qed.

Lemma forwarded_copy o n' i :
  fwd !! o = Some n' -> 0 <= i < words o -> forwarded m v n (n' + 8 * i) = m (n' + 8 * i).
Proof using Hheap Hinv HvY Hap.
  intros Ho Hi. destruct (h_place _ _ _ Hinv o n' Ho) as (_ & _ & Hy). pose proof (y_addr Hheap v HvY).
  apply forwarded_out; [lia |]. intros j Hj. destruct (Hap o n' Ho); lia.
Qed.

Lemma new_not_copy a : a ∈ young_slots v n -> in_copies fwd a -> False.
Proof using Hheap HvY Hap.
  intros (i & Hi & -> & _)%(elem_of_young_slots v n _ HvY) (o & n' & j & Ho & Hj & E). destruct (Hap o n' Ho); lia.
Qed.

Lemma pend_copy a : a ∈ pend -> in_copies fwd a.
Proof using Hinv. intros Ha. destruct (h_pend _ _ _ Hinv a Ha) as (o & n' & i & ? & ? & ? & _). by exists o, n', i. Qed.

(** An object is copied and forwarded; its references are pending. *)
Lemma heap_forward : heap_inv (forwarded m v n) (<[v := n]> fwd) (young_slots v n ++ pend).
Proof using All.
  pose proof (object_words v HvY) as Hw. destruct (y_addr Hheap v HvY) as (_ & Hvy & _). split.
  - intros o n' [[<- _] | [_ Ho]]%lookup_insert_Some; [done | by eapply h_dom].
  - intros o i Ho [Hno Hne]%lookup_insert_None Hi. rewrite forwarded_young by done. by apply (h_left _ _ _ Hinv).
  - intros o n' [[<- <-] | [Hne Ho]]%lookup_insert_Some; [unfold forwarded; apply upd_eq |].
    replace o with (o + 8 * 0) by lia. pose proof (h_dom _ _ _ Hinv o n' Ho) as HoY. pose proof (object_words o HoY).
    rewrite forwarded_young by (done || lia). rewrite Z.mul_0_r, Z.add_0_r. by apply (h_mark _ _ _ Hinv).
  - intros o n' i [[<- <-] | [Hne Ho]]%lookup_insert_Some Hi; unfold word_ok.
    + rewrite forwarded_in by lia. rewrite (h_left _ _ _ Hinv) by done. destruct (decide _) as [Hy |]; [| done].
      left. split; [| done]. apply elem_of_app. left. apply elem_of_young_slots; [done |]. by exists i.
    + rewrite (forwarded_copy o n' i) by done. pose proof (h_copy _ _ _ Hinv o n' i Ho Hi) as Hc. unfold word_ok in Hc.
      assert (in_copies fwd (n' + 8 * i)) as Hcp by (by exists o, n', i).
      destruct (decide _) as [Hy |]; [| done]. destruct Hc as [[Hin E] | [Hout E]]; [left | right].
      * split; [| done]. apply elem_of_app. by right.
      * split; [| by rewrite lookup_insert_ne by congruence]. rewrite elem_of_app. intros [Hys | ?]; [| done].
        by eapply new_not_copy.
  - intros a [Ha | Ha]%elem_of_app.
    + apply elem_of_young_slots in Ha as (i & Hi & -> & Hy); [| done]. exists v, n, i. by rewrite lookup_insert_eq.
    + destruct (h_pend _ _ _ Hinv a Ha) as (o & n' & i & Ho & Hrest). exists o, n', i.
      by rewrite lookup_insert_ne by congruence.
  - apply NoDup_app. split; [by apply young_slots_nodup |]. split; [| by eapply h_nodup].
    intros a Ha Hp. eapply new_not_copy; [done | by apply pend_copy].
  - intros o n' [[<- <-] | [_ Ho]]%lookup_insert_Some; [done | by eapply h_place].
  - intros o n1 o' n2 [[<- <-] | [Hne Ho]]%lookup_insert_Some [[<- <-] | [Hne' Ho']]%lookup_insert_Some Hd; try done.
    + destruct (Hap o' n2 Ho'); lia.
    + destruct (Hap o n1 Ho); lia.
    + by apply (h_apart _ _ _ Hinv o n1 o' n2).
Qed.
End Forward.

(** A word behind the mark of an object that was forwarded. *)
Lemma heap_scribble m fwd pend o n j x :
  heap_inv m fwd pend -> fwd !! o = Some n -> 0 < j < words o -> heap_inv (upd m (o + 8 * j) x) fwd pend.
Proof.
  intros Hi Ho Hj. pose proof Hi as [Hd Hl Hm Hc Hp Hnd Hpl Ha]. pose proof (Hd _ _ Ho) as HoY. split; try done.
  - intros o' i Ho' Hno Hi'. rewrite upd_ne; [by apply Hl |].
    destruct (y_apart Hheap o o' HoY Ho' ltac:(congruence)); lia.
  - intros o' n' Ho'. rewrite upd_ne; [by apply Hm |]. intros E. pose proof (object_words o' (Hd _ _ Ho')).
    destruct (decide (o = o')) as [<- | Hne]; [lia |].
    destruct (y_apart Hheap o o' HoY (Hd _ _ Ho') Hne); lia.
  - intros o' n' i Ho' Hi'. specialize (Hc o' n' i Ho' Hi'). unfold word_ok in *. rewrite upd_ne; [done |].
    destruct (Hpl o' n' Ho') as (_ & _ & ?). pose proof (y_addr Hheap o HoY). lia.
Qed.

(** Before anything is copied. *)
Lemma heap_start : heap_inv m0 ∅ [].
Proof.
  split.
  - intros o n Ho. by rewrite lookup_empty in Ho.
  - done.
  - intros o n Ho. by rewrite lookup_empty in Ho.
  - intros o n i Ho. by rewrite lookup_empty in Ho.
  - intros a Ha. by apply elem_of_nil in Ha.
  - constructor.
  - intros o n Ho. by rewrite lookup_empty in Ho.
  - intros o n o' n' Ho. by rewrite lookup_empty in Ho.
Qed.

End Steps.

(** ** Reachability *)

(** The objects that can be reached from [r] in the heap at the start. *)
Inductive reach (r : Z) : Z -> Prop :=
| reach_root : reach r r
| reach_step o s : reach r o -> is_young_ref o s -> reach r (m0 s).

(** When no reference is pending, what was copied is closed under reachability. *)
Lemma closed_reach m fwd r o :
  young_heap -> heap_inv m fwd [] -> is_Some (fwd !! r) -> reach r o -> is_Some (fwd !! o).
Proof.
  intros Hheap Hi Hr. induction 1 as [| o s _ [n Hon] Hy]; [done |].
  pose proof (h_dom _ _ _ Hi o n Hon) as HoY. destruct (slot_index Hheap o s HoY (proj1 Hy)) as (i & Hir & ->).
  pose proof (h_copy _ _ _ Hi o n i Hon ltac:(lia)) as Hw. unfold word_ok in Hw. rewrite decide_True in Hw by done.
  destruct Hw as [[Hin _] | [_ E]]; [by apply elem_of_nil in Hin | eauto].
Qed.
End Heap.
End HeapCopy.
