(* ===== verification/PromotionSpace.v ===== *)
(** * Memory for promoted objects

    What the promotion manager relies on from the old generation, as laws of the operations it
    calls, and what it makes of it: [allocate_in_container], with the buffer of the thread,
    gives out blocks that do not overlap and that belong to the collection they were asked for. *)

From Stdlib Require Import ZArith Lia.
From stdpp Require Import base numbers gmap sets list.
From S2P Require Import Prelude GlobalDefs MemRegion CollectedHeap ObjectStartArray PromotionLAB Oops PromotionManager.

Local Open Scope Z_scope.

Module PromotionSpace.
Import CollectedHeap Oops PromotionManager.

(** A collection is named by its first container and the region that was asked for. *)
Abbreviation collection := (Z * Z)%type.

(** A block of memory: its address, its size in words and the collection it belongs to. *)
Abbreviation block := (Z * Z * collection)%type.
Definition start (b : block) : Z := fst (fst b).
Definition words_of (b : block) : Z := snd (fst b).
Definition coll (b : block) : collection := snd b.

Definition apart (b b' : block) : Prop :=
  start b + 8 * words_of b <= start b' \/ start b' + 8 * words_of b' <= start b.

Definition all_apart (l : list block) : Prop :=
  forall i j b b', l !! i = Some b -> l !! j = Some b' -> i <> j -> apart b b'.

Lemma apart_sym b b' : apart b b' -> apart b' b.
Proof. unfold apart. lia. Qed.

Lemma all_apart_snoc l b : all_apart l -> (forall b', b' ∈ l -> apart b' b) -> all_apart (l ++ [b]).
Proof.
  intros Hl Hb i j x y Hi Hj Hne.
  apply lookup_app_Some in Hi as [Hi | [Hi1 Hi]]; apply lookup_app_Some in Hj as [Hj | [Hj1 Hj]].
  - by eapply Hl.
  - apply list_lookup_singleton_Some in Hj as [_ <-]. apply Hb. by eapply list_elem_of_lookup_2.
  - apply list_lookup_singleton_Some in Hi as [_ <-]. apply apart_sym, Hb. by eapply list_elem_of_lookup_2.
  - apply list_lookup_singleton_Some in Hi as [? _]. apply list_lookup_singleton_Some in Hj as [? _]. lia.
Qed.

Lemma all_apart_snoc_inv l b b' : all_apart (l ++ [b]) -> b' ∈ l -> apart b' b.
Proof.
  intros Hl [i Hi]%list_elem_of_lookup. pose proof (lookup_lt_Some _ _ _ Hi).
  apply (Hl i (length l)); [by apply lookup_app_l_Some | by rewrite lookup_app_r, Nat.sub_diag | lia].
Qed.

(** ** What the old generation promises

    [space_inv s bl K n]: the blocks handed out are [bl], the collection of a container is given
    by [K], and there is room for requests that cost [n] words.  Requests for containers are
    made for regions that are [served]. *)
Class OldSpaceLaws (W : Type) {HW : OldSpace W} (lo young BDAOldPLABSize : Z) := {
  space_inv : W -> list block -> gmap Z collection -> Z -> Prop;
  space_cost : Z -> Z;
  served : Z -> Prop;
  cost_nonneg : forall size, 0 <= space_cost size;
  inv_weaken : forall s bl K n n', space_inv s bl K n -> n' <= n -> space_inv s bl K n';
  inv_block : forall s bl K n b, space_inv s bl K n -> b ∈ bl ->
    is_oop (start b) /\ lo <= start b /\ 0 < words_of b /\ start b + 8 * words_of b <= young;
  inv_apart : forall s bl K n, space_inv s bl K n -> all_apart bl;
  set_same : forall s, set_start_array s (start_array s) = s;
  inv_array : forall s bl K n b a, space_inv s bl K n -> b ∈ bl ->
    start b <= a -> a mod 8 = 0 -> a + 8 <= start b + 8 * words_of b ->
    exists arr, ObjectStartArray.allocate_block (start_array s) a = Some arr /\
      space_inv (set_start_array s arr) bl K n;
  container_law : forall s bl K n size r,
    space_inv s bl K (n + space_cost size) -> 0 <= n -> served r -> 0 < size < 2 ^ 31 ->
    exists c p s', allocate_container size r s = Some (c, s') /\ c <> NULL /\ K !! c = None /\
      container_start c s' = Some (p, s') /\ space_inv s' (bl ++ [(p, size, (c, r))]) (<[c := (c, r)]> K) n;
  element_law : forall s bl K n size c k,
    space_inv s bl K (n + space_cost size) -> 0 <= n -> K !! c = Some k -> 0 < size < 2 ^ 31 ->
    exists p c' s' K', allocate_element size c s = Some ((p, c'), s') /\ K ⊆ K' /\ K' !! c' = Some k /\
      space_inv s' (bl ++ [(p, size, k)]) K' n;
  plab_law : forall s bl K n c k,
    space_inv s bl K (n + space_cost BDAOldPLABSize) -> 0 <= n -> K !! c = Some k ->
    exists p c' s' K', allocate_plab c s = Some ((p, c'), s') /\ K ⊆ K' /\ K' !! c' = Some k /\
      space_inv s' (bl ++ [(p, BDAOldPLABSize, k)]) K' n
}.

(** ** The buffer of the thread *)

Section Buffer.
Context {W : Type} {HW : OldSpace W} (lo young PLAB : Z) {HL : OldSpaceLaws W lo young PLAB}.
Context (g : config) (Hg : g = mkConfig false 1).
Context (Hlo : 0 < lo) (Hyoung : young < 2 ^ 64) (HPLAB : 6 <= PLAB < 2 ^ 31).

Local Abbreviation lab_of b := (PromotionLAB.old_lab (PromotionLAB.bda_lab b)).

(** The buffer has no memory, or it lies in a block of the collection of its container; what is
    left of the block is from [a] to [e]. *)
Inductive lab_ok (b : PromotionLAB.BDAOldPromotionLAB) (bl : list block) (K : gmap Z collection) : Z -> Z -> Prop :=
| lab_idle x :
    lab_of b = PromotionLAB.mkLAB x x x PromotionLAB.zero_size -> 0 <= x < 2 ^ 64 -> lab_ok b bl K 0 0
| lab_live p k top :
    (p, PLAB, k) ∈ bl -> K !! PromotionLAB._container b = Some k ->
    lab_of b = PromotionLAB.mkLAB top p (p + 8 * (PLAB - 3)) PromotionLAB.needs_flush ->
    p <= top <= p + 8 * (PLAB - 3) -> top mod 8 = 0 -> lab_ok b bl K top (p + 8 * PLAB).

(** The objects that have memory so far. *)
Record alloc_inv (s : W) (b : PromotionLAB.BDAOldPromotionLAB) (bl : list block) (K : gmap Z collection) (n : Z)
    (objs : list block) (a e : Z) : Prop := {
  a_space : space_inv s bl K n;
  a_lab : lab_ok b bl K a e;
  a_objs : forall x, x ∈ objs -> is_oop (start x) /\ 0 < words_of x /\
    (start x + 8 * words_of x <= a \/ e <= start x) /\
    exists y, y ∈ bl /\ coll y = coll x /\ start y <= start x /\ start x + 8 * words_of x <= start y + 8 * words_of y;
  a_apart : all_apart objs
}.

Lemma filler_header_3 : PromotionLAB.filler_header_size g = 3.
Proof. by rewrite Hg. Qed.

(** The area of the buffer is inside the old generation. *)
Lemma area_bounds s b bl K n objs a e :
  alloc_inv s b bl K n objs a e -> a = 0 /\ e = 0 \/ lo <= a /\ a + 24 <= e /\ e <= young /\ a mod 8 = 0 /\ e mod 8 = 0.
Proof.
  intros [Hs Hl _ _]. destruct Hl as [x _ _ | p k top Hin _ _ Htop Hm]; [by left | right].
  destruct (inv_block _ _ _ _ _ Hs Hin) as ([_ Hp] & H1 & H2 & H3). unfold start, words_of in *. simpl in *. lia.
Qed.

(** An object has an address in the old generation. *)
Lemma obj_bounds s b bl K n objs a e x :
  alloc_inv s b bl K n objs a e -> x ∈ objs ->
  is_oop (start x) /\ lo <= start x /\ start x + 8 * words_of x <= young.
Proof.
  intros [Hs _ Ho _] Hx. destruct (Ho x Hx) as (H1 & H2 & _ & y & Hy & _ & H3 & H4).
  destruct (inv_block _ _ _ _ _ Hs Hy) as (_ & ? & ? & ?). split; [done | lia].
Qed.

(** A new block of the space as the memory of an object. *)
Lemma alloc_whole s b bl K n objs a e p size k s' K' :
  alloc_inv s b bl K n objs a e -> K ⊆ K' -> space_inv s' (bl ++ [(p, size, k)]) K' n ->
  alloc_inv s' b (bl ++ [(p, size, k)]) K' n (objs ++ [(p, size, k)]) a e.
Proof.
  intros [Hs Hl Ho Ha] HK Hs'.
  assert (forall y, y ∈ bl -> apart y (p, size, k)) as Hap
    by (intros y Hy; eapply all_apart_snoc_inv; [by eapply inv_apart | done]).
  destruct (inv_block _ _ _ _ (p, size, k) Hs') as (Hp1 & Hp2 & Hp3 & Hp4); [apply elem_of_app; right; by left |].
  split; [done | | |].
  - destruct Hl as [x Hx Hx' | q kq top Hin HKq Hlab Htop Hm]; [by eapply lab_idle |].
    eapply lab_live; [apply elem_of_app; by left | by eapply lookup_weaken | done | done | done].
  - intros x [Hx | ->%list_elem_of_singleton]%elem_of_app.
    + destruct (Ho x Hx) as (H1 & H2 & H3 & y & Hy & H4). split_and!; try done. exists y. split; [| done].
      apply elem_of_app. by left.
    + split; [done |]. split; [done |]. split.
      * destruct Hl as [x Hx Hx' | q kq top Hin HKq Hlab Htop Hm]; [right; lia |].
        specialize (Hap _ Hin). unfold apart, start, words_of in *. simpl in *. lia.
      * exists (p, size, k). split; [apply elem_of_app; right; by left |]. split; [done | lia].
  - apply all_apart_snoc; [done |]. intros x Hx. destruct (Ho x Hx) as (_ & H2 & _ & y & Hy & _ & H3 & H4).
    specialize (Hap y Hy). unfold apart in *. lia.
Qed.

(** What allocation changes of the world. *)
Definition with_alloc (w : world W) (m : Z -> Z) (s : W) (b : PromotionLAB.BDAOldPromotionLAB) : world W :=
  set_pm (set_space (set_mem w m) s) (set_lab (pm w) b).

Definition relab (w : world W) : PromotionLAB.BDAOldPromotionLAB :=
  PromotionLAB.mkBDALAB (PromotionLAB.mkOldLAB (lab_of (_bda_old_lab (pm w))) (start_array (old_space w)))
    (PromotionLAB._container (_bda_old_lab (pm w))).

Lemma on_lab_run {A} w (f : PromotionLAB.BDAOldPromotionLAB -> option (A * PromotionLAB.BDAOldPromotionLAB)) x b :
  f (relab w) = Some (x, b) ->
  on_lab f w = Some (x, with_alloc w (mem w) (set_start_array (old_space w) (PromotionLAB._start_array (PromotionLAB.bda_lab b))) b).
Proof. intros Hf. unfold on_lab. fold (relab w). by rewrite Hf. Qed.

Lemma lab_ok_same b b' bl K a e :
  lab_of b' = lab_of b -> PromotionLAB._container b' = PromotionLAB._container b -> lab_ok b bl K a e -> lab_ok b' bl K a e.
Proof. intros E1 E2 []; [eapply lab_idle | eapply lab_live]; rewrite ?E1, ?E2; done. Qed.

(** The buffer gives the object its next words. *)
Lemma lab_hit w bl K n objs p k top size :
  alloc_inv (old_space w) (_bda_old_lab (pm w)) bl K n objs top (p + 8 * PLAB) ->
  (p, PLAB, k) ∈ bl -> K !! PromotionLAB._container (_bda_old_lab (pm w)) = Some k ->
  lab_of (_bda_old_lab (pm w)) = PromotionLAB.mkLAB top p (p + 8 * (PLAB - 3)) PromotionLAB.needs_flush ->
  p <= top -> top mod 8 = 0 -> 0 < size -> top + 8 * size <= p + 8 * (PLAB - 3) ->
  exists s' b', on_lab (fun b => PromotionLAB.bda_allocate b size (PromotionLAB._container (_bda_old_lab (pm w)))) w
      = Some (top, with_alloc w (mem w) s' b') /\
    alloc_inv s' b' bl K n (objs ++ [(top, size, k)]) (top + 8 * size) (p + 8 * PLAB).
Proof using Hg Hlo Hyoung HPLAB.
  intros Hinv Hin HK Hlab Hp Hm Hsize Hfit. pose proof (area_bounds _ _ _ _ _ _ _ _ Hinv) as Hb.
  pose proof Hinv as [Hs _ Ho Ha]. destruct (inv_block _ _ _ _ _ Hs Hin) as ([Hp0 Hp8] & Hp1 & _ & Hp2).
  unfold start, words_of in Hp0, Hp8, Hp1, Hp2. simpl in Hp0, Hp8, Hp1, Hp2.
  destruct (inv_array _ _ _ _ (p, PLAB, k) top Hs Hin) as (arr & Harr & Hs'); try done; [unfold start, words_of; simpl; lia |].
  eexists _, _. split.
  - apply on_lab_run. unfold PromotionLAB.bda_allocate, relab. cbn [PromotionLAB._container PromotionLAB.bda_lab].
    rewrite Z.eqb_refl. cbn [negb]. unfold PromotionLAB.old_allocate. cbn [PromotionLAB.old_lab PromotionLAB._start_array].
    rewrite Hlab. cbn [PromotionLAB._top PromotionLAB._end]. rewrite hw_add_small by lia. rewrite Z.gtb_ltb.
    destruct (Z.ltb_spec top (top + 8 * size)); [| lia].
    destruct (Z.leb_spec (top + 8 * size) (p + 8 * (PLAB - 3))); [| lia]. cbn [andb]. by rewrite Harr.
  - cbn [PromotionLAB._start_array PromotionLAB.bda_lab]. split; [done | | |].
    + eapply lab_live; [done | done | done | lia | lia].
    + intros x [Hx | ->%list_elem_of_singleton]%elem_of_app.
      * destruct (Ho x Hx) as (H1 & H2 & H3 & H4). split_and!; try done. lia.
      * unfold start, words_of. simpl. split; [unfold is_oop; lia |]. split; [lia |]. split; [lia |].
        exists (p, PLAB, k). simpl. split_and!; try done; lia.
    + apply all_apart_snoc; [done |]. intros x Hx. destruct (Ho x Hx) as (_ & _ & H3 & _).
      unfold apart, start, words_of in *. simpl in *. lia.
Qed.

(** Or it has no room, or is not for this container. *)
Lemma lab_try w bl K n objs a e c k size :
  alloc_inv (old_space w) (_bda_old_lab (pm w)) bl K n objs a e -> K !! c = Some k -> 0 < size < 2 ^ 31 ->
  exists p s' b' a', on_lab (fun b => PromotionLAB.bda_allocate b size c) w = Some (p, with_alloc w (mem w) s' b') /\
    (p = NULL /\ a' = a /\ alloc_inv s' b' bl K n objs a' e \/
     p <> NULL /\ alloc_inv s' b' bl K n (objs ++ [(p, size, k)]) a' e).
Proof using Hg Hlo Hyoung HPLAB.
  intros Hinv HK Hsize.
  assert (PromotionLAB.bda_allocate (relab w) size c = Some (NULL, relab w) ->
    exists p s' b' a', on_lab (fun b => PromotionLAB.bda_allocate b size c) w = Some (p, with_alloc w (mem w) s' b') /\
    (p = NULL /\ a' = a /\ alloc_inv s' b' bl K n objs a' e \/
     p <> NULL /\ alloc_inv s' b' bl K n (objs ++ [(p, size, k)]) a' e)) as Hmiss.
  { intros Hr. eexists NULL, _, _, a. split; [by apply on_lab_run |]. left. split; [done |]. split; [done |].
    cbn [PromotionLAB._start_array PromotionLAB.bda_lab relab]. rewrite set_same. destruct Hinv. split; try done.
    by apply (lab_ok_same (_bda_old_lab (pm w))). }
  destruct (decide (PromotionLAB._container (_bda_old_lab (pm w)) = c)) as [Ec | Ec].
  2: { apply Hmiss. unfold PromotionLAB.bda_allocate, relab. cbn [PromotionLAB._container].
       by destruct (Z.eqb_spec (PromotionLAB._container (_bda_old_lab (pm w))) c). }
  assert (forall lab, lab_of (_bda_old_lab (pm w)) = lab -> 0 <= PromotionLAB._top lab < 2 ^ 64 ->
    PromotionLAB._end lab < PromotionLAB._top lab + 8 * size -> PromotionLAB.bda_allocate (relab w) size c = Some (NULL, relab w)) as Hno.
  { intros lab Hlab Ht He. unfold PromotionLAB.bda_allocate, relab. cbn [PromotionLAB._container PromotionLAB.bda_lab].
    rewrite Ec, Z.eqb_refl. cbn [negb]. unfold PromotionLAB.old_allocate. cbn [PromotionLAB.old_lab]. rewrite Hlab.
    rewrite Z.gtb_ltb. assert ((PromotionLAB._top lab <? hw_add (PromotionLAB._top lab) size)
      && (hw_add (PromotionLAB._top lab) size <=? PromotionLAB._end lab) = false) as ->; [| done].
    apply andb_false_iff. rewrite Z.ltb_ge, Z.leb_gt. unfold hw_add, HeapWordSize, wrap.
    change (2 ^ 31) with 2147483648 in *. change (2 ^ 64) with 18446744073709551616 in *. lia. }
  pose proof (a_lab _ _ _ _ _ _ _ _ Hinv) as Hl. destruct Hl as [x Hx Hx' | p kp top Hin HKp Hlab Htop Hm].
  - apply Hmiss. eapply Hno; [exact Hx | simpl; lia | simpl; lia].
  - assert (kp = k) as -> by congruence.
    destruct (decide (top + 8 * size <= p + 8 * (PLAB - 3))) as [Hfit | Hfit].
    + destruct (lab_hit w bl K n objs p k top size) as (s' & b' & Hrun & Hinv'); try done; [lia | lia |].
      exists top, s', b', (top + 8 * size). rewrite Ec in Hrun. split; [done |]. right. split; [| done].
      pose proof (area_bounds _ _ _ _ _ _ _ _ Hinv). unfold NULL. lia.
    + apply Hmiss. eapply Hno; [exact Hlab | simpl | simpl; lia].
      pose proof (area_bounds _ _ _ _ _ _ _ _ Hinv). lia.
Qed.

(** The space has another block. *)
Lemma alloc_more s b bl K n objs a e y s' K' :
  alloc_inv s b bl K n objs a e -> K ⊆ K' -> space_inv s' (bl ++ [y]) K' n -> alloc_inv s' b (bl ++ [y]) K' n objs a e.
Proof using .
  intros [Hs Hl Ho Ha] HK Hs'. split; [done | | | done].
  - destruct Hl as [x Hx Hx' | q kq top Hin HKq Hlab Htop Hm]; [by eapply lab_idle |].
    eapply lab_live; [apply elem_of_app; by left | by eapply lookup_weaken | done | done | done].
  - intros x Hx. destruct (Ho x Hx) as (H1 & H2 & H3 & z & Hz & H4). split_and!; try done. exists z. split; [| done].
    apply elem_of_app. by left.
Qed.

(** The memory outside the area of the buffer, and outside the old generation. *)
Definition untouched (m m' : Z -> Z) (objs : list block) : Prop :=
  forall x, x < lo \/ young <= x \/ (exists y, y ∈ objs /\ start y <= x < start y + 8 * words_of y) -> m' x = m x.

(** A buffer that is flushed leaves a filler in its area. *)
Lemma lab_flush intArrayKlass objectKlass w bl K n objs a e :
  alloc_inv (old_space w) (_bda_old_lab (pm w)) bl K n objs a e ->
  exists fs s' b' m', on_lab (PromotionLAB.bda_flush g) w = Some (fs, with_alloc w (mem w) s' b') /\
    write_fillers intArrayKlass objectKlass fs (with_alloc w (mem w) s' b') = Some (tt, with_alloc w m' s' b') /\
    space_inv s' bl K n /\ untouched (mem w) m' objs.
Proof using Hg Hlo Hyoung HPLAB.
  intros Hinv. pose proof Hinv as [Hs Hl Ho Ha]. pose proof (area_bounds _ _ _ _ _ _ _ _ Hinv) as Hb.
  destruct Hl as [x Hx Hx' | p k top Hin HK Hlab Htop Hm].
  - eexists [], _, _, (mem w). split.
    + apply on_lab_run. unfold PromotionLAB.bda_flush, PromotionLAB.old_flush, relab.
      cbn [PromotionLAB.bda_lab PromotionLAB.old_lab]. rewrite Hx. rewrite decide_True by done. done.
    + split; [done |]. cbn [PromotionLAB.bda_lab PromotionLAB._start_array]. rewrite set_same. split; [done |]. by intros y _.
  - destruct (inv_block _ _ _ _ _ Hs Hin) as ([Hp0 Hp8] & Hp1 & _ & Hp2).
    unfold start, words_of in Hp0, Hp8, Hp1, Hp2. simpl in Hp0, Hp8, Hp1, Hp2.
    destruct (inv_array _ _ _ _ (p, PLAB, k) top Hs Hin) as (arr & Harr & Hs'); try done;
      [by apply Htop | unfold start, words_of; simpl; lia |].
    eexists _, _, _, _. split; [| split; [| split]].
    + apply on_lab_run. unfold PromotionLAB.bda_flush, PromotionLAB.old_flush, relab.
      cbn [PromotionLAB.bda_lab PromotionLAB.old_lab PromotionLAB._start_array]. rewrite Hlab. rewrite decide_False by done.
      unfold PromotionLAB.flush. rewrite decide_False by done. cbn [PromotionLAB._top]. rewrite Harr. done.
    + done.
    + done.
    + intros y Hy. cbn. unfold length_offset. 
      assert (y <> top /\ y <> top + 8 /\ y <> top + 16) as (H1 & H2 & H3).
      { destruct Hb as [[-> _] | Hb]; [lia |]. destruct Hy as [Hy | [Hy | (z & Hz & Hy)]]; [lia | lia |].
        destruct (Ho z Hz) as (_ & _ & [Hz' | Hz'] & _); lia. }
      unfold upd. by destruct (Z.eqb_spec y (top + 16)), (Z.eqb_spec y (top + 8)), (Z.eqb_spec y top).
Qed.

(** A buffer made of a new block; the old one is gone. *)
Lemma lab_refill w s0 b0 K0 bl K n objs a e p k c :
  alloc_inv s0 b0 bl K0 n objs a e ->
  space_inv (old_space w) (bl ++ [(p, PLAB, k)]) K n -> K !! c = Some k ->
  exists b', on_lab (fun b => Some (tt, PromotionLAB.bda_initialize g b (MemRegion.mkMemRegion p PLAB) c)) w
      = Some (tt, with_alloc w (mem w) (old_space w) b') /\
    lab_of b' = PromotionLAB.mkLAB p p (p + 8 * (PLAB - 3)) PromotionLAB.needs_flush /\ PromotionLAB._container b' = c /\
    alloc_inv (old_space w) b' (bl ++ [(p, PLAB, k)]) K n objs p (p + 8 * PLAB).
Proof using Hg Hlo Hyoung HPLAB.
  intros [Hs Hl Ho Ha] Hs' HK.
  assert ((p, PLAB, k) ∈ bl ++ [(p, PLAB, k)]) as Hin by (apply elem_of_app; right; by left).
  destruct (inv_block _ _ _ _ _ Hs' Hin) as ([Hp0 Hp8] & Hp1 & _ & Hp2).
  unfold start, words_of in Hp0, Hp8, Hp1, Hp2. simpl in Hp0, Hp8, Hp1, Hp2.
  set (b' := PromotionLAB.bda_initialize g (relab w) (MemRegion.mkMemRegion p PLAB) c).
  assert (lab_of b' = PromotionLAB.mkLAB p p (p + 8 * (PLAB - 3)) PromotionLAB.needs_flush) as Hlab.
  { unfold b', PromotionLAB.bda_initialize, MemRegion.end_, MemRegion.start. cbn [MemRegion._start MemRegion._word_size
      PromotionLAB.bda_lab PromotionLAB.old_lab]. rewrite filler_header_3. rewrite hw_add_small by lia.
    unfold byte_size, hw_sub, HeapWordSize. rewrite Z.gtb_ltb. rewrite wrap_small by lia.
    destruct (Z.ltb_spec 0 (p + 8 * PLAB - p)); [| lia]. f_equal. rewrite wrap_small; lia. }
  exists b'. split; [| split; [done |]; split; [done |]].
  - rewrite (on_lab_run w _ tt b') by done. change (PromotionLAB._start_array (PromotionLAB.bda_lab b')) with (start_array (old_space w)). by rewrite set_same.
  - split; [done | | | done].
    + eapply lab_live; [done | done | done | lia | done].
    + intros x Hx. destruct (Ho x Hx) as (H1 & H2 & _ & y & Hy & H3 & H4 & H5). split; [done |]. split; [done |]. split.
      * pose proof (all_apart_snoc_inv _ _ y (inv_apart _ _ _ _ Hs') Hy) as Hap.
        unfold apart, start, words_of in *. simpl in *. lia.
      * exists y. split; [apply elem_of_app; by left | done].
Qed.

(** Memory for an element of the collection [k], given one of its containers. *)
Lemma allocate_in_container_ok intArrayKlass objectKlass w bl K n objs a e c k size :
  alloc_inv (old_space w) (_bda_old_lab (pm w)) bl K (n + space_cost size + space_cost PLAB) objs a e ->
  0 <= n -> K !! c = Some k -> 0 < size < 2 ^ 31 ->
  exists p c' m' s' b' bl' K' a' e',
    allocate_in_container g intArrayKlass objectKlass PLAB size c w = Some ((p, c'), with_alloc w m' s' b') /\
    alloc_inv s' b' bl' K' n (objs ++ [(p, size, k)]) a' e' /\ K ⊆ K' /\ K' !! c' = Some k /\
    (exists more, bl' = bl ++ more) /\ untouched (mem w) m' objs.
Proof using Hg Hlo Hyoung HPLAB.
  intros Hinv Hn HK Hsize. unfold allocate_in_container.
  destruct (lab_try w bl K _ objs a e c k size Hinv HK Hsize) as (p & s1 & b1 & a1 & Hrun & [(-> & -> & Hinv1) | (Hp & Hinv1)]).
  2: { mrun Hrun. destruct (Z.eqb_spec p NULL); [done |]. pose proof Hinv1 as [Hs ? ? ?].
       exists p, c, (mem w), s1, b1, bl, K, a1, e. split; [done |]. split; [| split; [done |]; split; [done |]].
       - split; try done. eapply inv_weaken; [done |]. pose proof (cost_nonneg (HW := HW) size).
         pose proof (cost_nonneg (HW := HW) PLAB). lia.
       - split; [exists []; by rewrite app_nil_r | by intros x _]. }
  mrun Hrun. rewrite Z.eqb_refl. rewrite Z.gtb_ltb. set (w1 := with_alloc w (mem w) s1 b1) in *.
  destruct (Z.ltb_spec (PLAB / 2) size) as [Hbig | Hsmall].
  - pose proof Hinv1 as [Hs1 ? ? ?].
    destruct (element_law s1 bl K n size c k) as (p & c' & s2 & K' & Hel & HK' & Hc' & Hs2); try done.
    { eapply inv_weaken; [done |]. pose proof (cost_nonneg (HW := HW) PLAB). lia. }
    exists p, c', (mem w), s2, b1, (bl ++ [(p, size, k)]), K', a, e. split; [| split; [| split; [done |]; split; [done |]]].
    + unfold on_space. change (old_space w1) with s1. by rewrite Hel.
    + eapply alloc_whole; [| exact HK' | exact Hs2]. split; try done. eapply inv_weaken; [done |].
      pose proof (cost_nonneg (HW := HW) size). pose proof (cost_nonneg (HW := HW) PLAB). lia.
    + split; [by eexists | by intros x _].
  - pose proof Hinv1 as [Hs1 ? ? ?].
    destruct (plab_law s1 bl K n c k) as (p & c' & s2 & K' & Hel & HK' & Hc' & Hs2); try done.
    { eapply inv_weaken; [done |]. pose proof (cost_nonneg (HW := HW) size). lia. }
    assert (on_space (allocate_plab c) w1 = Some ((p, c'), set_space w1 s2)) as Hpl
      by (unfold on_space; change (old_space w1) with s1; by rewrite Hel).
    mrun Hpl. cbv beta iota. assert (p <> NULL) as Hpn.
    { destruct (inv_block _ _ _ _ (p, PLAB, k) Hs2) as (_ & ? & _); [apply elem_of_app; right; by left |].
      unfold start, NULL in *. simpl in *. lia. }
    destruct (Z.eqb_spec p NULL); [done |]. cbn [negb]. set (w2 := set_space w1 s2) in *.
    assert (alloc_inv s2 b1 (bl ++ [(p, PLAB, k)]) K' n objs a e) as Hinv2.
    { eapply alloc_more; [| exact HK' | exact Hs2]. split; try done. eapply inv_weaken; [done |].
      pose proof (cost_nonneg (HW := HW) size). pose proof (cost_nonneg (HW := HW) PLAB). lia. }
    destruct (lab_flush intArrayKlass objectKlass w2 _ _ _ _ _ _ Hinv2) as (fs & s3 & b3 & m' & Hfl & Hwr & Hs3 & Hun).
    mrun Hfl. mrun Hwr. set (w3 := with_alloc w2 m' s3 b3) in *.
    destruct (lab_refill w3 s1 b1 K bl K' n objs a e p k c') as (b4 & Hini & Hlab & Hcont & Hinv4); try done.
    { split; try done. eapply inv_weaken; [done |].
      pose proof (cost_nonneg (HW := HW) size). pose proof (cost_nonneg (HW := HW) PLAB). lia. }
    mrun Hini. set (w4 := with_alloc w3 (mem w3) (old_space w3) b4) in *.
    destruct (lab_hit w4 (bl ++ [(p, PLAB, k)]) K' n objs p k p size) as (s5 & b5 & Hhit & Hinv5); try done.
    { apply elem_of_app; right; by left. }
    { change (PromotionLAB._container (_bda_old_lab (pm w4))) with (PromotionLAB._container b4). by rewrite Hcont. }
    { destruct (inv_block _ _ _ _ (p, PLAB, k) Hs2) as ([_ ?] & _); [apply elem_of_app; right; by left | done]. }
    { lia. }
    { lia. }
    change (PromotionLAB._container (_bda_old_lab (pm w4))) with (PromotionLAB._container b4) in Hhit. rewrite Hcont in Hhit.
    mrun Hhit. eexists p, c', m', s5, b5, _, K', _, _. split; [done |]. split; [exact Hinv5 |].
    split; [done |]. split; [done |]. split; [by eexists | exact Hun].
Qed.
End Buffer.

End PromotionSpace.
