(* ===== verification/ContainerSpace.v ===== *)
(** * The containers as the memory of the promotion

    The spaces of containers of [MutableBDASpace] keep the promises that the promotion manager
    relies on: what [allocate_container], [allocate_element] and [allocate_plab] hand out never
    overlaps, lies in the space of the region that was asked for, and stays in the chain of
    segments of the container it was asked for. *)

From Stdlib Require Import ZArith Lia.
From stdpp Require Import base numbers gmap sets sorting list.
From S2P Require Import Prelude GlobalDefs MemRegion MutableSpace Container GenQueue BDARegion ObjectStartArray CompactData.
From S2P Require Import CGRPSpace MutableBDASpace Segments Oops PromotionManager PromotionSpace.

Local Open Scope Z_scope.

Module ContainerSpace.
Import Container CGRPSpace Segments.

(** ** Segments and chains *)

Lemma segments_disjoint fhs h i l : forall p q c c' k k',
  segments fhs h i p l q -> NoDup l -> c ∈ l -> c' ∈ l -> c <> c' -> h !! c = Some k -> h !! c' = Some k' ->
  _hard_end k <= _start k' \/ _hard_end k' <= _start k.
Proof.
  induction l as [| x l IH]; intros p q c c' k k' Hs Hnd Hc Hc' Hne Hk Hk'; [by apply elem_of_nil in Hc |].
  destruct Hs as (kx & Hkx & <- & _ & Hs). apply NoDup_cons in Hnd as [_ Hnd].
  apply elem_of_cons in Hc as [-> | Hc]; apply elem_of_cons in Hc' as [-> | Hc'].
  - done.
  - destruct (segments_lookup _ _ _ _ _ _ _ Hs Hc') as (k2 & Hk2 & _ & ? & _). left. simplify_eq. lia.
  - destruct (segments_lookup _ _ _ _ _ _ _ Hs Hc) as (k2 & Hk2 & _ & ? & _). right. simplify_eq. lia.
  - exact (IH _ _ c c' k k' Hs Hnd Hc Hc' Hne Hk Hk').
Qed.

Lemma chain_frame h h' : forall ch c,
  chain h c ch -> (forall x k, x ∈ ch -> h !! x = Some k -> exists k', h' !! x = Some k' /\ _next_segment k' = _next_segment k) ->
  chain h' c ch.
Proof.
  induction ch as [| x ch IH]; intros c Hc Hf; [done |]. destruct Hc as (-> & Hx & k & Hk & Hc).
  destruct (Hf x k ltac:(by left) Hk) as (k' & Hk' & E). split; [done |]. split; [done |]. exists k'. split; [done |].
  rewrite E. apply IH; [done |]. intros y ky Hy. apply Hf. by right.
Qed.

(** Only the last segment of a chain has no next one. *)
Lemma chain_last h c ch s k :
  chain h c ch -> s ∈ ch -> h !! s = Some k -> _next_segment k = NULL -> exists ch', ch = ch' ++ [s].
Proof.
  revert c. induction ch as [| x ch IH]; intros c Hc Hs Hk Hn; [by apply elem_of_nil in Hs |].
  destruct Hc as (-> & Hx & kx & Hkx & Hc). apply elem_of_cons in Hs as [-> | Hs].
  - assert (kx = k) as -> by congruence. rewrite Hn in Hc. destruct ch as [| y ch]; [by exists [] |]. by destruct Hc as (? & ? & _).
  - destruct (IH _ Hc Hs Hk Hn) as [ch' ->]. by exists (x :: ch').
Qed.

#[local] Instance fits_dec h size x : Decision (fits h size x).
Proof.
  destruct (h !! x) as [k |] eqn:Hk.
  - destruct (decide (_top k + 8 * size < _end k)) as [H | H]; [left; by exists k |].
    right. intros (k' & Hk' & ?). apply H. congruence.
  - right. intros (k' & ? & _). congruence.
Defined.

(** The first segment where a block fits. *)
Lemma first_fit h size ch :
  (exists ch1 x ch2, ch = ch1 ++ x :: ch2 /\ (forall y, y ∈ ch1 -> ~ fits h size y) /\ fits h size x) \/
  (forall x, x ∈ ch -> ~ fits h size x).
Proof.
  induction ch as [| x ch [(ch1 & y & ch2 & -> & Hno & Hy) | Hno]].
  - right. by intros x ?%elem_of_nil.
  - left. destruct (decide (fits h size x)) as [Hx | Hx].
    + exists [], x, (ch1 ++ y :: ch2). split; [done |]. split; [by intros z ?%elem_of_nil | done].
    + exists (x :: ch1), y, ch2. split; [done |]. split; [| done]. intros z [-> | Hz]%elem_of_cons; auto.
  - destruct (decide (fits h size x)) as [Hx | Hx].
    + left. exists [], x, ch. split; [done |]. split; [by intros z ?%elem_of_nil | done].
    + right. intros z [-> | Hz]%elem_of_cons; auto.
Qed.

Section Space.
Context (regions : BDARegion.table) (filler_header_size lg shift : Z) (AllocateHeap : heap -> Z) (junk : Z -> container).
Context (PLAB : Z).

(** [MutableBDASpace] as the promotion manager calls it. *)
#[local] Instance old_space_ops : PromotionManager.OldSpace world := {|
  PromotionManager.allocate_container :=
    MutableBDASpace.allocate_container regions (2 ^ lg) filler_header_size shift AllocateHeap junk;
  PromotionManager.container_start c := on_headers (field _start c);
  PromotionManager.reset_container c := on_headers (store c (fun k => with_top k (_start k)));
  PromotionManager.allocate_element :=
    MutableBDASpace.allocate_element regions (2 ^ lg) filler_header_size shift AllocateHeap junk;
  PromotionManager.allocate_plab :=
    MutableBDASpace.allocate_plab regions (2 ^ lg) filler_header_size shift AllocateHeap junk PLAB;
  PromotionManager.start_array := start_array;
  PromotionManager.set_start_array := set_array
|}.

Context (Hlg : 16 <= lg <= 40) (Hfhs : 0 < filler_header_size < 65536).
Context (Halloc : forall h, AllocateHeap h <> NULL /\ h !! AllocateHeap h = None).

Local Abbreviation space_inv := (space_inv regions filler_header_size).
Local Abbreviation reserved := (reserved lg).
Local Abbreviation block := (Z * Z * (Z * Z))%type.

(** ** The invariant *)

(** The spaces [I] have the regions [ty], and the addresses from [bt] to [en]. *)
Context (I : gset nat) (ty bt en : nat -> Z).

(** The segments of the space [i] are [L i], and the blocks in a segment are given by [B]. *)
Record spaces_inv (w : world) (n : Z) (L : nat -> list Z) (B : Z -> list (Z * Z)) (N : Z) (starts : list Z) : Prop := {
  sp_space : forall i, i ∈ I -> exists g, space_inv i g w (L i) B N starts /\ _type g = ty i /\
    MutableSpace._bottom (_space g) = bt i /\ MutableSpace._end (_space g) = en i /\ n <= MutableSpace.free_in_words (_space g);
  sp_types : forall i j g, i ∈ I -> spaces w !! j = Some g -> _type g = ty i -> j = i
}.

(** The segments after the container [c], of the collection [k]. *)
Definition chained (w : world) (L : nat -> list Z) (K : gmap Z (Z * Z)) (c : Z) (k : Z * Z) : Prop :=
  exists i ch s, i ∈ I /\ snd k = ty i /\ chain (headers w) c (ch ++ [s]) /\
    forall x, x ∈ ch ++ [s] -> x ∈ L i /\ K !! x = Some k.

(** The blocks handed out are blocks of the segments of their collection, and the chain of a
    container stays in its collection. *)
Record blocks_inv (w : world) (bl : list block) (K : gmap Z (Z * Z)) (L : nat -> list Z) (B : Z -> list (Z * Z)) : Prop := {
  bi_blocks : forall b, b ∈ bl -> exists i c, i ∈ I /\ c ∈ L i /\ fst b ∈ B c /\ K !! c = Some (snd b);
  bi_apart : PromotionSpace.all_apart bl;
  bi_chain : forall c k, K !! c = Some k -> chained w L K c k
}.

Definition old_inv (w : world) (bl : list block) (K : gmap Z (Z * Z)) (n : Z) : Prop :=
  exists L B N starts, spaces_inv w n L B N starts /\ blocks_inv w bl K L B.

(** ** Spaces that are not used *)

(** A header of a segment, in its space. *)
Lemma seg_header i g w l B N starts c :
  space_inv i g w l B N starts -> c ∈ l -> exists k, headers w !! c = Some k /\ _space_id k = Z.of_nat i /\
    MutableSpace._bottom (_space g) <= _start k <= _top k /\ _top k <= _hard_end k /\
    _hard_end k <= MutableSpace._top (_space g) /\ filled (_start k) (B c) (_top k).
Proof.
  intros Hi Hc. pose proof Hi as [_ _ _ _ _ Hsegs Hbl _ _ _ _ _ _].
  destruct (segments_lookup _ _ _ _ _ _ _ Hsegs Hc) as (k & Hk & [Ht _ Hid _] & ? & ?). exists k.
  split; [done |]. split; [done |]. split; [lia |]. split; [lia |]. split; [lia |]. by apply Hbl.
Qed.

(** The index of a space says which it is. *)
Lemma same_group i g g0 w l l0 B B0 N starts N0 starts0 :
  space_inv i g w l B N starts -> space_inv i g0 w l0 B0 N0 starts0 -> g0 = g.
Proof. intros Hg Hg0. pose proof (si_space _ _ _ _ _ _ _ _ _ Hg). pose proof (si_space _ _ _ _ _ _ _ _ _ Hg0). congruence. Qed.

(** A header that does not exist is in no chain. *)
Lemma fresh_collection w L K c :
  (forall c k, K !! c = Some k -> chained w L K c k) -> headers w !! c = None -> K !! c = None.
Proof.
  intros Hch Hc. destruct (K !! c) as [k |] eqn:E; [| done]. destruct (Hch _ _ E) as (j & ch & s & _ & _ & Hc' & _).
  destruct (chain_lookup _ _ _ c Hc') as [? ?]; [| congruence]. destruct ch; destruct Hc' as (-> & _); by left.
Qed.

Lemma space_other i g g' w w' l' B B' N starts starts' j gj lj :
  outside i g w w' -> space_inv i g' w' l' B' N starts' -> j <> i -> space_inv j gj w lj B N starts ->
  (forall c, c ∈ lj -> B' c = B c) -> (forall x, x ∈ starts -> x ∈ starts') ->
  MutableSpace._end (_space g) <= MutableSpace._bottom (_space gj) \/
    MutableSpace._end (_space gj) <= MutableSpace._bottom (_space g) ->
  space_inv j gj w' lj B' N starts'.
Proof.
  intros [_ _ Hsp Hhd [Hrs Hrc] Hown Hba] Hi' Hne Hj HB Hst Hdis.
  assert (forall x k, x ∈ lj -> headers w !! x = Some k -> headers w' !! x = Some k) as Hsame.
  { intros x k Hx Hk. apply Hhd; [done |]. destruct (seg_header _ _ _ _ _ _ _ _ Hj Hx) as (k' & Hk' & Hid & _).
    assert (k' = k) as -> by congruence. lia. }
  assert (forall x k, x ∈ lj -> headers w' !! x = Some k -> headers w !! x = Some k) as Hback.
  { intros x k Hx Hk. destruct (seg_header _ _ _ _ _ _ _ _ Hj Hx) as (k' & Hk' & _). rewrite (Hsame x k' Hx Hk') in Hk. congruence. }
  pose proof Hj as [Hg Hix Ht [Ho Hal] [[Hnd Hnn Hd Hr He] Hcnt] Hsegs Hbl _ (Hb0 & Hbr & Hrange) Hfree Howner (_ & _ & Ha1 & Ha2) Hs].
  pose proof Hi' as [_ _ _ _ _ _ _ Hcov _ _ _ (Hwfa & Hrec & _) _]. split; try done.
  - by rewrite Hsp.
  - split; [split; try done | done]. eapply GenQueue.dll_frame; [| exact Hd]. intros x Hx k Hk. exists k. by rewrite (Hsame x k Hx Hk).
  - eapply segments_frame; [exact Hsegs |]. intros x k Hx Hk Hseg. exists k. by rewrite (Hsame x k Hx Hk).
  - intros c k Hc Hk. rewrite HB by done. apply Hbl; [done | by apply Hback].
  - rewrite Hrs, Hrc. done.
  - intros p Hp. rewrite Hown; [by apply Hfree | lia | lia].
  - intros c k p Hc Hk Hp. apply Hback in Hk; [| done]. destruct (seg_header _ _ _ _ _ _ _ _ Hj Hc) as (k' & Hk' & _ & H1 & H2 & H3 & _).
    assert (k' = k) as -> by congruence. rewrite Hown; [by eapply Howner | lia | lia].
  - by rewrite Hba.
  - intros c b Hc Hb. apply Hst. rewrite HB in Hb by done. by eapply Hs.
Qed.

(** Blocks in segments *)
Lemma filled_block_mod p bl q b : filled p bl q -> b ∈ bl -> (fst b - p) mod 8 = 0.
Proof.
  revert p. induction bl as [| b0 bl IH]; intros p Hf Hb; [by apply elem_of_nil in Hb |]. destruct Hf as (H0 & _ & Hf).
  apply elem_of_cons in Hb as [-> | Hb]; [by rewrite H0, Z.sub_diag |]. specialize (IH _ Hf Hb). lia.
Qed.

Lemma filled_init p bl b q : filled p (bl ++ [b]) q -> filled p bl (fst b).
Proof.
  revert p. induction bl as [| b0 bl IH]; intros p; simpl; [by intros (-> & _) |].
  intros (H0 & H1 & Hf). split; [done |]. split; [done |]. by apply IH.
Qed.

Lemma space_block i g w l B N starts c b :
  space_inv i g w l B N starts -> c ∈ l -> b ∈ B c ->
  fst b mod 8 = 0 /\ 0 < snd b /\ MutableSpace._bottom (_space g) <= fst b /\
  fst b + 8 * snd b <= MutableSpace._end (_space g) < 2 ^ 64.
Proof.
  intros Hi Hc Hb. destruct (seg_header _ _ _ _ _ _ _ _ Hi Hc) as (k & Hk & _ & H1 & H2 & H3 & Hf).
  pose proof Hi as [_ _ _ [Ho Ha] _ Hsegs _ _ _ _ _ _ _]. 
  assert ((_start k - MutableSpace._bottom (_space g)) mod region_span = 0) as Hm by (eapply segments_mod; eassumption).
  pose proof (filled_block_mod _ _ _ _ Hf Hb). destruct (filled_bounds _ _ _ _ Hf Hb) as (? & ? & ?).
  unfold region_span in Hm. split; [clear - Hm Ha H; lia |]. lia.
Qed.

Context (Hdisj : forall i j, i ∈ I -> j ∈ I -> i <> j -> en i <= bt j \/ en j <= bt i).

(** ** Steps *)

(** The last block of a segment, and any other block. *)
Lemma new_block_apart w n L B N starts i x B1 nb j c b :
  spaces_inv w n L B N starts -> i ∈ I -> x ∈ L i -> B x = B1 ++ [nb] -> j ∈ I -> c ∈ L j ->
  (c = x /\ b ∈ B1 \/ c <> x /\ b ∈ B c) -> fst b + 8 * snd b <= fst nb \/ fst nb + 8 * snd nb <= fst b.
Proof.
  intros [Hsp _] Hi Hx HB Hj Hc Hb. destruct (Hsp i Hi) as (gi & Hgi & _ & Hbi & Hei & _). destruct (Hsp j Hj) as (gj & Hgj & _ & Hbj & Hej & _).
  destruct (seg_header _ _ _ _ _ _ _ _ Hgi Hx) as (kx & Hkx & Hidx & _ & H2 & _ & Hfx).
  destruct (seg_header _ _ _ _ _ _ _ _ Hgj Hc) as (kc & Hkc & Hidc & _ & H2' & _ & Hfc). rewrite HB in Hfx.
  assert (nb ∈ B1 ++ [nb]) as Hnb by (apply elem_of_app; right; by left).
  destruct (filled_bounds _ _ _ _ Hfx Hnb) as (Hn1 & Hn2 & Hn3).
  destruct Hb as [[-> Hb] | [Hne Hb]].
  - left. by destruct (filled_bounds _ _ _ _ (filled_init _ _ _ _ Hfx) Hb) as (_ & _ & ?).
  - destruct (filled_bounds _ _ _ _ Hfc Hb) as (Hb1 & Hb2 & Hb3). destruct (decide (i = j)) as [<- | Hij].
    + assert (gj = gi) as -> by (by eapply same_group).
      pose proof Hgi as [_ _ _ _ [[Hnd _ _ _ _] _] Hsegs _ _ _ _ _ _ _].
      destruct (segments_disjoint _ _ _ _ _ _ c x kc kx Hsegs Hnd Hc Hx Hne Hkc Hkx); lia.
    + assert (nb ∈ B x) as Hnx by (by rewrite HB).
      destruct (space_block _ _ _ _ _ _ _ _ _ Hgi Hx Hnx) as (_ & _ & ? & ?).
      destruct (space_block _ _ _ _ _ _ _ _ _ Hgj Hc Hb) as (_ & _ & ? & ?). destruct (Hdisj i j Hi Hj Hij); lia.
Qed.

(** One of the spaces changes. *)
Lemma spaces_step w w' n n' L B N starts i g g' l' B' starts' :
  spaces_inv w n L B N starts -> i ∈ I -> space_inv i g w (L i) B N starts -> space_inv i g' w' l' B' N starts' ->
  outside i g w w' -> _type g' = _type g -> MutableSpace._bottom (_space g') = MutableSpace._bottom (_space g) ->
  MutableSpace._end (_space g') = MutableSpace._end (_space g) -> n' <= MutableSpace.free_in_words (_space g') -> n' <= n ->
  (forall j c, j ∈ I -> j <> i -> c ∈ L j -> B' c = B c) -> (forall x, x ∈ starts -> x ∈ starts') ->
  spaces_inv w' n' (fun j => if decide (j = i) then l' else L j) B' N starts'.
Proof.
  intros [Hsp Hty] Hi Hg Hg' Hout Et Eb Ee Hn' Hn HB Hst. destruct (Hsp i Hi) as (g0 & Hg0 & Ht0 & Hb0 & He0 & _).
  assert (g0 = g) as -> by (exact (same_group _ _ _ _ _ _ _ _ _ _ _ _ Hg Hg0)).
  split.
  - intros j Hj. destruct (decide (j = i)) as [-> | Hne].
    + exists g'. split; [done |]. split; [congruence |]. split; [congruence |]. split; [congruence | done].
    + destruct (Hsp j Hj) as (gj & Hgj & Htj & Hbj & Hej & Hnj). exists gj. split; [| split_and!; try done; lia].
      eapply (space_other i g g' w w' l' B B' N starts starts'); try done; [intros c Hc; by apply (HB j) |].
      destruct (Hdisj i j Hi Hj ltac:(done)); lia.
  - intros j j' gj Hj Hgj Htj. destruct (decide (j' = i)) as [-> | Hne].
    + apply (Hty j i g Hj); [by eapply si_space |]. pose proof (si_space _ _ _ _ _ _ _ _ _ Hg') as E. rewrite E in Hgj.
      injection Hgj as <-. congruence.
    + apply (Hty j j' gj Hj); [| done]. by rewrite <- (o_spaces _ _ _ _ Hout j' Hne).
Qed.

(** A new block, the last of the segment [x]. *)
Lemma blocks_step w w' n L L' B B' N starts bl K K' i x p size k B1 :
  blocks_inv w bl K L B -> spaces_inv w' n L' B' N starts -> i ∈ I -> x ∈ L' i -> K ⊆ K' -> K' !! x = Some k ->
  B' x = B1 ++ [(p, size)] ->
  (forall j c, j ∈ I -> c ∈ L j -> c ∈ L' j /\ (c = x /\ B c = B1 \/ c <> x /\ B' c = B c)) ->
  (forall c k, K' !! c = Some k -> chained w' L' K' c k) ->
  blocks_inv w' (bl ++ [(p, size, k)]) K' L' B'.
Proof.
  intros [Hbl Hap _] Hsp Hi Hx HK HKx HBx Hold Hch. split; [| | done].
  - intros b [Hb | ->%list_elem_of_singleton]%elem_of_app.
    + destruct (Hbl b Hb) as (j & c & Hj & Hc & Hin & Hk). destruct (Hold j c Hj Hc) as [Hc' HB]. exists j, c.
      split; [done |]. split; [done |]. split; [| by eapply lookup_weaken].
      destruct HB as [[-> E] | [_ E]]; [| by rewrite E]. rewrite HBx, <- E. apply elem_of_app. by left.
    + exists i, x. split; [done |]. split; [done |]. rewrite HBx. split; [apply elem_of_app; right; by left | done].
  - apply PromotionSpace.all_apart_snoc; [done |]. intros b Hb. destruct (Hbl b Hb) as (j & c & Hj & Hc & Hin & _).
    destruct (Hold j c Hj Hc) as [Hc' HB]. unfold PromotionSpace.apart, PromotionSpace.start, PromotionSpace.words_of.
    apply (new_block_apart w' n L' B' N starts i x B1 (p, size) j c (fst b)); try done.
    destruct HB as [[-> E] | [Hne E]]; [left; by rewrite <- E | right; by rewrite E].
Qed.

Lemma chained_frame w w' L L' K K' c k :
  chained w L K c k -> K ⊆ K' -> (forall j x, j ∈ I -> x ∈ L j -> x ∈ L' j) ->
  (forall x k0, headers w !! x = Some k0 -> exists k', headers w' !! x = Some k' /\ _next_segment k' = _next_segment k0) ->
  chained w' L' K' c k.
Proof.
  intros (i & ch & s & Hi & Ht & Hc & Hin) HK HL Hf. exists i, ch, s. split; [done |]. split; [done |]. split.
  - eapply chain_frame; [done |]. intros x kx _. apply Hf.
  - intros x Hx. destruct (Hin x Hx) as [H1 H2]. split; [by apply HL | by eapply lookup_weaken].
Qed.

(** The space of a region is one. *)
Lemma same_space w n L B N starts i j : spaces_inv w n L B N starts -> i ∈ I -> j ∈ I -> ty i = ty j -> j = i.
Proof.
  intros [Hsp Hty] Hi Hj E. destruct (Hsp j Hj) as (g & Hg & Ht & _). apply (Hty i j g Hi); [by eapply si_space | congruence].
Qed.

(** The segment [c'] is linked after [s], the last of a chain of its collection. *)
Lemma chained_grow w w' n L B N starts K i s c' k0 ks :
  spaces_inv w n L B N starts -> (forall c k, K !! c = Some k -> chained w L K c k) ->
  i ∈ I -> snd k0 = ty i -> K !! s = Some k0 -> headers w !! s = Some ks -> _next_segment ks = NULL ->
  c' <> NULL -> headers w !! c' = None -> linked_after (headers w) (headers w') s c' ->
  forall c k, <[c' := k0]> K !! c = Some k -> chained w' (fun j => if decide (j = i) then L i ++ [c'] else L j) (<[c' := k0]> K) c k.
Proof.
  intros Hsp Hch Hi Ht0 HKs Hks Hkn Hc'n Hfresh ((k1 & Hk1 & En1) & (k2 & Hk2 & En2) & Hla) c k Hk.
  assert (K !! c' = None) as Hnew by (by eapply fresh_collection).
  assert (K ⊆ <[c' := k0]> K) as HK by (by apply insert_subseteq).
  apply lookup_insert_Some in Hk as [[<- <-] | [Hne Hk]].
  { exists i, [], c'. split; [done |]. split; [done |]. split; [simpl; split; [done |]; split; [done |]; by exists k2 |].
    intros x Hx. apply list_elem_of_singleton in Hx as ->. rewrite decide_True by done. split; [apply elem_of_app; right; by left |].
    by rewrite lookup_insert_eq. }
  destruct (Hch c k Hk) as (j & ch & s' & Hj & Ht & Hc & Hin).
  assert (forall x, x ∈ ch ++ [s'] -> x ∈ (if decide (j = i) then L i ++ [c'] else L j) /\ <[c' := k0]> K !! x = Some k) as Hin'.
  { intros x Hx. destruct (Hin x Hx) as [Hxl Hxk]. split; [| by eapply lookup_weaken].
    destruct (decide (j = i)) as [-> |]; [apply elem_of_app; by left | done]. }
  destruct (decide (s ∈ ch ++ [s'])) as [Hs | Hs].
  - destruct (chain_last _ _ _ s ks Hc Hs Hks Hkn) as [ch' E]. apply app_inj_tail in E as [-> ->].
    assert (k = k0) as -> by (destruct (Hin s Hs); congruence). assert (j = i) as -> by (eapply same_space; [done | done | done | congruence]).
    exists i, (ch' ++ [s]), c'. split; [done |]. split; [done |]. split.
    + eapply (segment_chain_snoc (headers w) (headers w') s c' k2 k1); try done.
      * intros x Hx Hxs. destruct (chain_lookup _ _ _ x Hc) as [kx Hkx]; [apply elem_of_app; by left |].
        destruct (Hla x kx Hkx Hxs) as (kx' & Hkx' & E). by exists kx, kx'.
      * intros Hx. assert (NoDup (ch' ++ [s])) as Hnd by (eapply chain_NoDup; eassumption).
        apply NoDup_app in Hnd as (_ & Hnd & _). apply (Hnd s Hx). by left.
    + intros x [Hx | ->%list_elem_of_singleton]%elem_of_app; [by apply Hin' |]. rewrite decide_True by done.
      split; [apply elem_of_app; right; by left | by rewrite lookup_insert_eq].
  - exists j, ch, s'. split; [done |]. split; [done |]. split; [| done]. eapply chain_frame; [done |].
    intros x kx Hx Hkx. apply Hla; [done |]. intros ->. done.
Qed.

(** ** What is promised *)

(** The words a request may take from a space. *)
Definition segment_cost (size : Z) : Z := Z.max 0 (reserved size).

Lemma advanced_space g g' size w w' i l l' B B' N starts starts' :
  space_inv i g w l B N starts -> space_inv i g' w' l' B' N starts' -> advanced lg g g' size ->
  _type g' = _type g /\ MutableSpace._bottom (_space g') = MutableSpace._bottom (_space g) /\
  MutableSpace._end (_space g') = MutableSpace._end (_space g) /\
  MutableSpace.free_in_words (_space g') = MutableSpace.free_in_words (_space g) - reserved size.
Proof.
  intros Hi Hi' (Es & Et & _). rewrite (MutableSpace.free_eq _ (si_wf _ _ _ _ _ _ _ _ _ Hi)), (MutableSpace.free_eq _ (si_wf _ _ _ _ _ _ _ _ _ Hi')).
  rewrite Es. split; [done |]. split; [done |]. split; [done |]. cbn. lia.
Qed.

(** A segment that is new is not in any space. *)
Lemma fresh_segment w n L B N starts c j x :
  spaces_inv w n L B N starts -> headers w !! c = None -> j ∈ I -> x ∈ L j -> x <> c.
Proof.
  intros [Hsp _] Hc Hj Hx ->. destruct (Hsp j Hj) as (g & Hg & _). destruct (seg_header _ _ _ _ _ _ _ _ Hg Hx) as (k & Hk & _). congruence.
Qed.

(** What changes when the segment [c] is added to the space [i]. *)
Lemma spaces_push w w' n L B N starts i g g' c p size :
  spaces_inv w (n + segment_cost size) L B N starts -> i ∈ I -> space_inv i g w (L i) B N starts ->
  space_inv i g' w' (L i ++ [c]) (with_segment B c p size) N (starts ++ [p]) -> advanced lg g g' size -> outside i g w w' ->
  headers w !! c = None ->
  spaces_inv w' n (fun j => if decide (j = i) then L i ++ [c] else L j) (with_segment B c p size) N (starts ++ [p]).
Proof.
  intros Hsp Hi Hg Hg' Hadv Hout Hc. destruct (advanced_space _ _ _ _ _ _ _ _ _ _ _ _ _ Hg Hg' Hadv) as (Et & Eb & Ee & Ef).
  destruct (sp_space _ _ _ _ _ _ Hsp i Hi) as (g0 & Hg0 & _ & _ & _ & Hn).
  assert (g0 = g) as -> by (exact (same_group _ _ _ _ _ _ _ _ _ _ _ _ Hg Hg0)).
  unfold segment_cost in *. eapply spaces_step; try done; try lia.
  - intros j x Hj Hne Hx. unfold with_segment. rewrite decide_False; [done |]. by eapply fresh_segment.
  - intros x Hx. apply elem_of_app. by left.
Qed.

Lemma blocks_push w w' n L B N starts i c p size k bl K :
  blocks_inv w bl K L B -> spaces_inv w (n + segment_cost size) L B N starts -> headers w !! c = None -> i ∈ I ->
  spaces_inv w' n (fun j => if decide (j = i) then L i ++ [c] else L j) (with_segment B c p size) N (starts ++ [p]) ->
  (forall x kx, <[c := k]> K !! x = Some kx -> chained w' (fun j => if decide (j = i) then L i ++ [c] else L j) (<[c := k]> K) x kx) ->
  K !! c = None ->
  blocks_inv w' (bl ++ [(p, size, k)]) (<[c := k]> K) (fun j => if decide (j = i) then L i ++ [c] else L j) (with_segment B c p size).
Proof.
  intros Hbl Hsp Hc Hi Hsp' Hch HK. eapply (blocks_step w w' n L _ B _ _ _ bl K _ i c p size k []); try done.
  - rewrite decide_True by done. apply elem_of_app. right. by left.
  - by apply insert_subseteq.
  - by rewrite lookup_insert_eq.
  - unfold with_segment. by rewrite decide_True.
  - intros j x Hj Hx. assert (x <> c) as Hne by (exact (fresh_segment _ _ _ _ _ _ c j x Hsp Hc Hj Hx)). split.
    + destruct (decide (j = i)) as [-> |]; [apply elem_of_app; by left | done].
    + right. split; [done |]. unfold with_segment. by rewrite decide_False.
Qed.

Lemma container_ok w bl K n size r :
  old_inv w bl K (n + segment_cost size) -> 0 <= n -> (exists i, i ∈ I /\ ty i = r) -> 0 < size < 2 ^ 31 ->
  exists c p w', PromotionManager.allocate_container size r w = Some (c, w') /\ c <> NULL /\ K !! c = None /\
    PromotionManager.container_start c w' = Some (p, w') /\ old_inv w' (bl ++ [(p, size, (c, r))]) (<[c := (c, r)]> K) n.
Proof.
  intros (L & B & N & starts & Hsp & Hbl) Hn0 (i & Hi & <-) Hs. destruct (sp_space _ _ _ _ _ _ Hsp i Hi) as (g & Hg & Ht & _ & _ & Hn).
  destruct (Halloc (headers w)) as [Hcn Hc]. change (2 ^ 31) with 2147483648 in Hs.
  destruct (container_pushes regions filler_header_size lg shift AllocateHeap junk Hlg Hfhs Halloc i g w (L i) B N starts size Hg)
    as (g' & w' & Hrun & Hg' & Hadv & Hout & Hsame); [lia | | unfold segment_cost in Hn; lia |].
  { intros j g' Hj Et. apply (sp_types _ _ _ _ _ _ Hsp i j g' Hi Hj). congruence. }
  set (p := MutableSpace._top (_space g)) in *. set (c := AllocateHeap (headers w)) in *. rewrite Ht in Hrun.
  destruct (same_data_pushed _ _ _ _ Hsame) as [(kc & Hkc & Ekc) Hold _].
  assert (K !! c = None) as HKc by (exact (fresh_collection _ _ _ _ (bi_chain _ _ _ _ _ Hbl) Hc)).
  pose proof (spaces_push _ _ _ _ _ _ _ _ _ _ _ _ _ Hsp Hi Hg Hg' Hadv Hout Hc) as Hsp'.
  exists c, p, w'. split; [exact Hrun |]. split; [done |]. split; [done |]. split.
  { cbn. erewrite on_headers_read by (apply field_run, Hkc). by rewrite (sf_start _ _ Ekc). }
  eexists _, _, N, _. split; [exact Hsp' |]. eapply blocks_push; try done.
  intros x kx [[<- <-] | [Hne Hx]]%lookup_insert_Some.
  - exists i, [], c. split; [done |]. split; [done |].
    split; [simpl; split; [done |]; split; [done |]; exists kc; split; [done |]; exact (sf_next_segment _ _ Ekc) |].
    intros x Hx. apply list_elem_of_singleton in Hx as ->. rewrite decide_True by done.
    split; [apply elem_of_app; right; by left | by rewrite lookup_insert_eq].
  - eapply chained_frame; [by apply (bi_chain _ _ _ _ _ Hbl) | by apply insert_subseteq | |].
    + intros j y Hj Hy. destruct (decide (j = i)) as [-> |]; [apply elem_of_app; by left | done].
    + intros y ky Hy. assert (y <> c) as Hyc by congruence. destruct (Hold y ky Hy Hyc) as (ky' & Hky' & E).
      exists ky'. split; [done | apply E].
Qed.

Context (lo young : Z) (Hbounds : forall i, i ∈ I -> lo <= bt i /\ en i <= young) (Hlo : 0 < lo) (Hyoung : young + 2 ^ 34 < 2 ^ 64).

(** A block in a segment of the chain. *)
Lemma element_hit_ok w bl K n size c k L B N starts i g ch s ch1 x ch2 :
  spaces_inv w n L B N starts -> blocks_inv w bl K L B -> i ∈ I -> space_inv i g w (L i) B N starts -> 0 < size < 2 ^ 31 ->
  chain (headers w) c (ch ++ [s]) -> (forall x, x ∈ ch ++ [s] -> x ∈ L i /\ K !! x = Some k) ->
  ch ++ [s] = ch1 ++ x :: ch2 -> (forall y, y ∈ ch1 -> ~ fits (headers w) size y) -> fits (headers w) size x ->
  exists p w', PromotionManager.allocate_element size c w = Some ((p, x), w') /\ K !! x = Some k /\
    old_inv w' (bl ++ [(p, size, k)]) K n.
Proof.
  intros Hsp Hbl Hi Hg Hs Hch Hin E Hno Hfit. change (2 ^ 31) with 2147483648 in Hs.
  assert (x ∈ ch ++ [s]) as Hx by (rewrite E; apply elem_of_app; right; by left). destruct (Hin x Hx) as [HxL HKx].
  destruct (sp_space _ _ _ _ _ _ Hsp i Hi) as (g0 & Hg0 & Ht0 & Hb0 & He0 & Hn0).
  assert (g0 = g) as -> by (exact (same_group _ _ _ _ _ _ _ _ _ _ _ _ Hg Hg0)).
  destruct (Hbounds i Hi).
  destruct (element_hits regions filler_header_size lg shift AllocateHeap junk Hlg Hfhs Halloc i g w (L i) B N starts size ch s c Hg)
    with (ch1 := ch1) (x := x) (ch2 := ch2) as (kx & a & w' & Hkx & Hrun & Ew & Hg' & Hout); try done; [lia | lia | intros y Hy; by apply Hin |].
  exists (_top kx), w'. split; [exact Hrun |]. split; [done |].
  assert (spaces_inv w' n (fun j => if decide (j = i) then L i else L j) (with_block B x (_top kx) size) N (starts ++ [_top kx])) as Hsp'.
  { eapply spaces_step; try done.
    - intros j y Hj Hne Hy. unfold with_block. rewrite decide_False; [done |]. intros ->. destruct (sp_space _ _ _ _ _ _ Hsp j Hj) as (gj & Hgj & _).
      destruct (seg_header _ _ _ _ _ _ _ _ Hgj Hy) as (k1 & Hk1 & Hid1 & _). destruct (seg_header _ _ _ _ _ _ _ _ Hg HxL) as (k2 & Hk2 & Hid2 & _).
      assert (k1 = k2) as -> by congruence. lia.
    - intros y Hy. apply elem_of_app. by left. }
  eexists _, _, N, _. split; [exact Hsp' |]. eapply (blocks_step w w' n L _ B _ N _ bl K K i x (_top kx) size k (B x)); try done.
  - by rewrite decide_True.
  - unfold with_block. by rewrite decide_True.
  - intros j y Hj Hy. split; [destruct (decide (j = i)) as [-> |]; done |]. unfold with_block.
    destruct (decide (y = x)) as [-> |]; [by left | by right].
  - intros y ky Hy. eapply chained_frame; [by apply (bi_chain _ _ _ _ _ Hbl) | done | |].
    + intros j z Hj Hz. destruct (decide (j = i)) as [-> |]; done.
    + intros z kz Hz. rewrite Ew. cbn. destruct (decide (z = x)) as [-> | Hne].
      * assert (kz = kx) as -> by congruence. eexists. by rewrite lookup_insert_eq.
      * exists kz. by rewrite lookup_insert_ne by done.
Qed.

Lemma element_ok w bl K n size c k :
  old_inv w bl K (n + segment_cost size) -> 0 <= n -> K !! c = Some k -> 0 < size < 2 ^ 31 ->
  exists p c' w' K', PromotionManager.allocate_element size c w = Some ((p, c'), w') /\ K ⊆ K' /\ K' !! c' = Some k /\
    old_inv w' (bl ++ [(p, size, k)]) K' n.
Proof.
  intros (L & B & N & starts & Hsp & Hbl) Hn0 HK Hs. destruct (bi_chain _ _ _ _ _ Hbl c k HK) as (i & ch & s & Hi & Ht & Hch & Hin).
  destruct (sp_space _ _ _ _ _ _ Hsp i Hi) as (g & Hg & Ht0 & Hb0 & He0 & Hn). destruct (Hbounds i Hi).
  destruct (first_fit (headers w) size (ch ++ [s])) as [(ch1 & x & ch2 & E & Hno & Hfit) | Hno].
  - assert (spaces_inv w n L B N starts) as Hsp0.
    { destruct Hsp as [H1 H2]. split; [| done]. intros j Hj. destruct (H1 j Hj) as (gj & ? & ? & ? & ? & ?). exists gj.
      unfold segment_cost in *. split_and!; try done. lia. }
    destruct (element_hit_ok w bl K n size c k L B N starts i g ch s ch1 x ch2) as (p & w' & Hrun & HKx & Hinv); try done.
    by exists p, x, w', K.
  - change (2 ^ 31) with 2147483648 in Hs.
    destruct (element_grows regions filler_header_size lg shift AllocateHeap junk Hlg Hfhs Halloc i g w (L i) B N starts size ch s c Hg)
      as (g' & w' & Hrun & Hg' & Hadv & Hout & Hla & _); try done; [lia | lia | intros y Hy; by apply Hin | unfold segment_cost in Hn; lia |].
    destruct (Halloc (headers w)) as [Hcn Hc]. set (p := MutableSpace._top (_space g)) in *. set (c' := AllocateHeap (headers w)) in *.
    pose proof (spaces_push _ _ _ _ _ _ _ _ _ _ _ _ _ Hsp Hi Hg Hg' Hadv Hout Hc) as Hsp'.
    assert (s ∈ ch ++ [s]) as Hs' by (apply elem_of_app; right; by left). destruct (Hin s Hs') as [HsL HKs].
    pose proof (chain_suffix _ _ _ _ _ Hch) as (_ & _ & ks & Hks & Hkn).
    pose proof (chained_grow w w' _ L B N starts K i s c' k ks Hsp (bi_chain _ _ _ _ _ Hbl) Hi Ht HKs Hks Hkn Hcn Hc Hla) as Hch'.
    assert (K !! c' = None) as HKc by (exact (fresh_collection _ _ _ _ (bi_chain _ _ _ _ _ Hbl) Hc)).
    exists p, c', w', (<[c' := k]> K). split; [exact Hrun |]. split; [by apply insert_subseteq |]. split; [by rewrite lookup_insert_eq |].
    eexists _, _, N, _. split; [exact Hsp' |]. by eapply blocks_push.
Qed.

Context (HPLAB : 0 < PLAB < 2 ^ 31).

(** The start of an object in a block is recorded. *)
Lemma array_ok w bl K n b a :
  old_inv w bl K n -> b ∈ bl -> PromotionSpace.start b <= a -> a mod 8 = 0 ->
  a + 8 <= PromotionSpace.start b + 8 * PromotionSpace.words_of b ->
  exists arr, ObjectStartArray.allocate_block (start_array w) a = Some arr /\ old_inv (set_array w arr) bl K n.
Proof.
  intros (L & B & N & starts & Hsp & Hbl) Hb Ha1 Ha2 Ha3. destruct (bi_blocks _ _ _ _ _ Hbl b Hb) as (i & c & Hi & Hc & Hin & _).
  destruct (sp_space _ _ _ _ _ _ Hsp i Hi) as (g & Hg & _).
  destruct (space_block _ _ _ _ _ _ _ _ _ Hg Hc Hin) as (_ & _ & H1 & H2). pose proof (si_array _ _ _ _ _ _ _ _ _ Hg) as (Hwf & Hrec & H3 & H4).
  unfold PromotionSpace.start, PromotionSpace.words_of in *.
  destruct (ObjectStartArray.allocate_block_run _ _ _ a Hwf Hrec) as (arr & Harr & Hwf' & Hba & _ & _ & Hrec'); [split; lia |].
  exists arr. split; [done |]. exists L, B, N, (starts ++ [a]). split; [split; [| by apply Hsp] | by destruct Hbl].
  intros j Hj. destruct (sp_space _ _ _ _ _ _ Hsp j Hj) as (gj & Hgj & Hrest). exists gj. split; [| done].
  replace (set_array w arr) with (set_array (set_headers w (headers w)) arr) by (by destruct w).
  apply (inv_retop regions filler_header_size j gj w (L j) B N starts); try done.
  - intros x k Hx Hk. destruct (seg_header _ _ _ _ _ _ _ _ Hgj Hx) as (k' & Hk' & _ & ? & ? & ? & Hf).
    assert (k' = k) as -> by congruence. exists k. split_and!; try done; lia.
  - intros x y Hx Hy. apply elem_of_app. left. by eapply (si_starts _ _ _ _ _ _ _ _ _ Hgj).
Qed.

Lemma block_ok w bl K n b :
  old_inv w bl K n -> b ∈ bl ->
  Oops.is_oop (PromotionSpace.start b) /\ lo <= PromotionSpace.start b /\ 0 < PromotionSpace.words_of b /\
  PromotionSpace.start b + 8 * PromotionSpace.words_of b <= young.
Proof.
  intros (L & B & N & starts & Hsp & Hbl) Hb. destruct (bi_blocks _ _ _ _ _ Hbl b Hb) as (i & c & Hi & Hc & Hin & _).
  destruct (sp_space _ _ _ _ _ _ Hsp i Hi) as (g & Hg & _ & Eb & Ee & _). destruct (Hbounds i Hi).
  destruct (space_block _ _ _ _ _ _ _ _ _ Hg Hc Hin) as (? & ? & H1 & H2).
  unfold PromotionSpace.start, PromotionSpace.words_of, Oops.is_oop. lia.
Qed.

(** The spaces of containers keep what is promised. *)
#[local, refine] Instance old_space_laws : PromotionSpace.OldSpaceLaws world lo young PLAB := {
  PromotionSpace.space_inv := old_inv;
  PromotionSpace.space_cost := segment_cost;
  PromotionSpace.served r := exists i, i ∈ I /\ ty i = r
}.
Proof.
  - intros size. unfold segment_cost. lia.
  - intros w bl K n n' (L & B & N & starts & [H1 H2] & Hbl) Hn. exists L, B, N, starts. split; [| done]. split; [| done].
    intros i Hi. destruct (H1 i Hi) as (g & ? & ? & ? & ? & ?). exists g. split_and!; try done. lia.
  - intros w bl K n b. apply block_ok.
  - intros w bl K n (L & B & N & starts & _ & [_ Ha _]). done.
  - by intros [].
  - intros w bl K n b a. apply array_ok.
  - intros w bl K n size r. apply container_ok.
  - intros w bl K n size c k. apply element_ok.
  - intros w bl K n c k Hinv Hn HK. apply (element_ok w bl K n PLAB c k Hinv Hn HK HPLAB).
Defined.

End Space.

End ContainerSpace.
