(* ===== verification/ScavengeBDA.v ===== *)
(** * Correctness of the promotion into containers

    [BDARefRootsTask::do_it] run by one thread: every object that can be reached from the queue of
    references is copied once, into a block of its own in the collection of the reference it was
    reached from; the copies refer to each other as the originals did; and the loops end. *)

From Stdlib Require Import ZArith Lia.
From stdpp Require Import base numbers gmap sets list.
From S2P Require Import Prelude GlobalDefs CollectedHeap PromotionLAB RefQueue TaskQueue Stack OverflowQueue Oops PromotionManager HeapCopy PromotionSpace.

Local Open Scope Z_scope.

Module ScavengeBDA.
Import CollectedHeap Oops PromotionManager HeapCopy PromotionSpace.

(** ** Lengths of arrays that are scanned in pieces *)

Lemma set_length_read word x : i32 (set_length_word word x) = i32 x.
Proof.
  unfold set_length_word. set (h := Z.land word (Z.shiftl (2 ^ 32 - 1) 32)).
  assert (h mod 2 ^ 32 = 0) as Hh.
  { apply Z.bits_inj'. intros i Hi. rewrite Z.bits_0. destruct (Z.ltb_spec i 32).
    - rewrite Z.mod_pow2_bits_low by lia. unfold h. rewrite Z.land_spec, Z.shiftl_spec_low by lia. apply andb_false_r.
    - by rewrite Z.mod_pow2_bits_high by lia. }
  rewrite (lor_low h (u32 x) 32) by first [exact Hh | apply wrap_range; lia | lia].
  unfold swrap. f_equal. rewrite <- (Zplus_mod_idemp_l x). unfold wrap. change (2 ^ 32) with 4294967296 in *.
  change (2 ^ (32 - 1)) with 2147483648. lia.
Qed.

(** ** Counting *)

Lemma to_nat_below (z : Z) (n : nat) : 0 <= z < 2 ^ Z.of_nat n -> (Z.to_nat z < 2 ^ n)%nat.
Proof. intros Hz. apply Nat2Z.inj_lt. rewrite Nat2Z.inj_pow, Z2Nat.id by lia. apply Hz. Qed.

Lemma nodup_range (l : list Z) (a n : Z) :
  0 <= n -> NoDup l -> (forall x, x ∈ l -> a <= x < a + n) -> Z.of_nat (length l) <= n.
Proof.
  intros Hn Hnd Hl. assert (l ⊆+ seqZ a n) as Hsub.
  { apply NoDup_submseteq; [done |]. intros x Hx. apply elem_of_seqZ. by apply Hl. }
  apply submseteq_length in Hsub. rewrite length_seqZ in Hsub. lia.
Qed.

Section Scavenge.
Context {W : Type} {HW : OldSpace W} (lo young hi PLAB : Z) {HL : OldSpaceLaws W lo young PLAB}.
Context (g : config) (Hg : g = mkConfig false 1) (klasses : Z -> option Klass) (intArrayKlass objectKlass : Z).
Context (is_in_reserved : Z -> bool) (UseBiasedLocking PSChunkLargeArrays : bool).
Context (Hyoung : young < 2 ^ 64) (HPLAB : 6 <= PLAB < 2 ^ 31).
Context (lg N : Z) (Hlg : 2 <= lg <= 31) (HN : N = 2 ^ lg).
Context (bda_heap : gmap Z (Stack.segment BDARefTask) -> Z) (bda_junk : Z -> Z -> Stack.segment BDARefTask).
Context (star_heap : gmap Z (Stack.segment Z) -> Z) (star_junk : Z -> Z -> Stack.segment Z).
Context (sz : Z) (Hsz : 0 < sz < 2 ^ 63).
Context (Halloc : forall h, bda_heap h <> NULL /\ h !! bda_heap h = None).
Context (Hjunk : forall p, Z.of_nat (length (Stack.elements (bda_junk sz p))) = sz).
Context (m0 : Z -> Z) (Y : gset Z).
Context (Hheap : young_heap g klasses lo young hi m0 Y).

Local Abbreviation words := (words g klasses m0).
Local Abbreviation slots := (slots klasses m0).
Local Abbreviation heap_inv := (heap_inv g klasses lo young m0 Y).
Local Abbreviation is_young_ref := (is_young_ref klasses young m0).
Local Abbreviation young_slots := (young_slots klasses young m0).
Local Abbreviation reach := (reach klasses young m0).

(** ** The stack *)

(** The tasks on the stack, in some order. *)
Definition stack_inv (q : OverflowQueue.OverflowTaskQueue BDARefTask) (ts : list BDARefTask) : Prop :=
  exists l st, OverflowQueue.repr N sz q l st /\ l ++ st ≡ₚ ts.

Lemma stack_push q ts t :
  stack_inv q ts -> exists q', OverflowQueue.push N bda_heap bda_junk q t = Some q' /\ stack_inv q' (t :: ts).
Proof.
  intros (l & st & Hr & Hp).
  destruct (OverflowQueue.overflow_push_repr lg N Hlg HN bda_heap bda_junk sz Hsz Halloc Hjunk q l st t Hr) as (q' & Hq & Hr').
  exists q'. split; [done |]. destruct (_ <? N - 2); eexists _, _; (split; [exact Hr' |]); rewrite <- Hp; solve_Permutation.
Qed.

(** What a run of the thread changes of the world. *)
Definition evolve (w : world W) (m : Z -> Z) (s : W) (b : PromotionLAB.BDAOldPromotionLAB)
    (q : OverflowQueue.OverflowTaskQueue BDARefTask) : world W :=
  set_pm (set_space (set_mem w m) s) (set_bdaref (set_lab (pm w) b) q).

(** The objects of the references in the queue, with the region of each. *)
Context (roots : list (Z * Z)).

Section World.
Context (w0 : world W).
Local Abbreviation ev := (evolve w0).

Local Abbreviation push_bdaref_stack := (push_bdaref_stack N bda_heap bda_junk).

Lemma task_push_run m s b q ts p c :
  stack_inv q ts ->
  exists q', push_bdaref_stack p c (ev m s b q) = Some (tt, ev m s b q') /\ stack_inv q' (BDARefTask_oop p c :: ts).
Proof.
  intros Hs. destruct (stack_push q ts (BDARefTask_oop p c) Hs) as (q' & Hq & Hs'). exists q'.
  unfold PromotionManager.push_bdaref_stack. change (_bdaref_stack (pm (ev m s b q))) with q. by rewrite Hq.
Qed.

(** Reads of the memory. *)
Lemma mem_load_run (w : world W) a : load a w = Some (mem w a, w).
Proof. done. Qed.
Lemma is_forwarded_run (w : world W) o : is_forwarded o w = Some (is_marked (mem w o), w).
Proof. done. Qed.
Lemma forwardee_run (w : world W) o : forwardee UseBiasedLocking o w = Some (decode_pointer UseBiasedLocking (mem w o), w).
Proof. done. Qed.
Lemma should_scavenge_run (w : world W) p : should_scavenge young p w = Some (is_obj_in_young young (mem w p), w).
Proof. done. Qed.
Lemma length_run (w : world W) o : length_ o w = Some (array_length (mem w) o, w).
Proof. done. Qed.
Lemma in_young_true o : young <= o -> is_obj_in_young young o = true.
Proof. unfold is_obj_in_young. rewrite Z.geb_leb. intros. by apply Z.leb_le. Qed.
Lemma in_young_false o : o < young -> is_obj_in_young young o = false.
Proof. unfold is_obj_in_young. rewrite Z.geb_leb. intros. by apply Z.leb_gt. Qed.

(** ** Claiming references *)

Lemma heap_perm m fwd p p' : heap_inv m fwd p -> p ≡ₚ p' -> heap_inv m fwd p'.
Proof.
  intros [Hd Hl Hm Hc Hp Hn Hpl Ha] E. split; try done.
  - intros o n i Ho Hi. specialize (Hc o n i Ho Hi). unfold word_ok in *. destruct (decide _); [| done]. by rewrite <- !E.
  - intros a Ha'. apply Hp. by rewrite E.
  - by rewrite <- E.
Qed.

(** Whether an object was forwarded, and where to. *)
Lemma forwarded_mark m fwd pend o n :
  heap_inv m fwd pend -> fwd !! o = Some n ->
  is_marked (m o) = true /\ decode_pointer UseBiasedLocking (m o) = n /\ n < young.
Proof.
  intros Hi Ho. destruct (h_place _ _ _ _ _ _ _ _ _ Hi o n Ho) as (Hn & Hlo & Hhi).
  rewrite (h_mark _ _ _ _ _ _ _ _ _ Hi o n Ho). destruct (forward_codec UseBiasedLocking n Hn) as [H1 H2].
  split; [done |]. split; [done |]. pose proof (object_words _ _ _ _ _ _ _ Hheap o (h_dom _ _ _ _ _ _ _ _ _ Hi o n Ho)). lia.
Qed.

Lemma unforwarded_mark m fwd pend o : heap_inv m fwd pend -> o ∈ Y -> fwd !! o = None -> m o = m0 o /\ is_marked (m o) = false.
Proof.
  intros Hi Ho Hn. pose proof (object_words _ _ _ _ _ _ _ Hheap o Ho).
  pose proof (h_left _ _ _ _ _ _ _ _ _ Hi o 0 Ho Hn ltac:(lia)) as E. rewrite Z.mul_0_r, Z.add_0_r in E.
  split; [done |]. rewrite E. by apply (y_mark _ _ _ _ _ _ _ Hheap).
Qed.

Local Abbreviation claim c := (fun p => claim_or_forward_bdaref young UseBiasedLocking N bda_heap bda_junk p c).

Lemma claim_forwarded m s b q fwd P p c n :
  heap_inv m fwd (p :: P) -> fwd !! m p = Some n ->
  claim c p (ev m s b q) = Some (tt, ev (upd m p n) s b q).
Proof.
  intros Hi Hn. unfold claim_or_forward_bdaref, claim_or_forward.
  destruct (pend_value _ _ _ _ _ _ _ Hheap m fwd (p :: P) p Hi ltac:(by left)) as (o & n1 & i & Ho & Hir & Hp & _).
  destruct (h_place _ _ _ _ _ _ _ _ _ Hi o n1 Ho) as (_ & Hlo & _). pose proof (y_bounds _ _ _ _ _ _ _ Hheap).
  assert (negb (p =? NULL) = true) as -> by (unfold NULL; lia). rewrite when_true.
  destruct (forwarded_mark m fwd _ (m p) n Hi Hn) as (H1 & H2 & H3).
  mrun (mem_load_run (ev m s b q) p). mrun (is_forwarded_run (ev m s b q) (m p)). change (mem (ev m s b q)) with m. rewrite H1.
  mrun (forwardee_run (ev m s b q) (m p)). change (mem (ev m s b q)) with m. rewrite H2.
  rewrite in_young_false, when_false by done. by rewrite M_ret_bind.
Qed.

Lemma claim_pushes m s b q ts fwd P p c :
  heap_inv m fwd (p :: P) -> fwd !! m p = None -> stack_inv q ts ->
  exists q', claim c p (ev m s b q) = Some (tt, ev m s b q') /\ stack_inv q' (BDARefTask_oop p c :: ts).
Proof.
  intros Hi Hn Hs. unfold claim_or_forward_bdaref, claim_or_forward.
  destruct (pend_value _ _ _ _ _ _ _ Hheap m fwd (p :: P) p Hi ltac:(by left)) as (o & n1 & i & Ho & Hir & Hp & _ & _ & HY).
  destruct (h_place _ _ _ _ _ _ _ _ _ Hi o n1 Ho) as (_ & Hlo & _). pose proof (y_bounds _ _ _ _ _ _ _ Hheap).
  assert (negb (p =? NULL) = true) as -> by (unfold NULL; lia). rewrite when_true.
  destruct (unforwarded_mark m fwd _ (m p) Hi HY Hn) as [_ H1].
  mrun (mem_load_run (ev m s b q) p). mrun (is_forwarded_run (ev m s b q) (m p)). change (mem (ev m s b q)) with m. rewrite H1.
  by apply task_push_run.
Qed.

(** The loop over the references [S] of a copy: those into the young generation are pending, and
    afterwards they are updated or on the stack. *)
Lemma claim_slots_run c : forall S m s b q ts fwd P,
  NoDup S -> heap_inv m fwd (filter (fun x => young <= m x) S ++ P) -> stack_inv q ts ->
  exists m' q' pushed, claim_slots young (claim c) S (ev m s b q) = Some (tt, ev m' s b q') /\
    stack_inv q' (((fun p => BDARefTask_oop p c) <$> pushed) ++ ts) /\
    heap_inv m' fwd (pushed ++ P) /\ pushed ⊆+ filter (fun x => young <= m x) S /\
    (forall x, x ∉ S -> m' x = m x).
Proof.
  induction S as [| x S IH]; intros m s b q ts fwd P Hnd Hi Hs.
  { exists m, q, []. by split_and!. }
  apply NoDup_cons in Hnd as [Hx Hnd]. cbn [claim_slots]. mrun (should_scavenge_run (ev m s b q) x).
  change (mem (ev m s b q)) with m. rewrite filter_cons in *. destruct (decide (young <= m x)) as [Hy | Hy].
  - rewrite in_young_true, when_true by done. destruct (fwd !! m x) as [n |] eqn:Hf.
    + mrun (claim_forwarded m s b q fwd _ x c n Hi Hf).
      pose proof (heap_fill _ _ _ _ _ _ _ Hheap _ _ _ _ _ Hi Hf) as Hi'.
      assert (filter (fun z => young <= upd m x n z) S = filter (fun z => young <= m z) S) as Ef.
      { apply filter_ext_in. intros z Hz. by rewrite upd_ne by congruence. }
      rewrite <- Ef in Hi'. destruct (IH _ s b q ts fwd P Hnd Hi' Hs) as (m' & q' & pushed & Hr & Hst & Hh & Hsub & Hfr).
      exists m', q', pushed. split; [done |]. split; [done |]. split; [done |]. split.
      * rewrite Ef in Hsub. by apply submseteq_cons.
      * intros z Hz. apply not_elem_of_cons in Hz as [Hz1 Hz2]. rewrite Hfr by done. by apply upd_ne.
    + destruct (claim_pushes m s b q ts fwd _ x c Hi Hf Hs) as (q1 & Hr1 & Hs1). mrun Hr1.
      destruct (IH m s b q1 (BDARefTask_oop x c :: ts) fwd (x :: P) Hnd) as (m' & q' & pushed & Hr & Hst & Hh & Hsub & Hfr); [| exact Hs1 |].
      { eapply heap_perm; [exact Hi |]. simpl. apply Permutation_middle. }
      exists m', q', (x :: pushed). split; [done |]. split; [| split; [| split]].
      * destruct Hst as (l & st & Hrep & Hperm). exists l, st. split; [done |]. rewrite Hperm. simpl. symmetry. apply Permutation_middle.
      * eapply heap_perm; [exact Hh |]. simpl. symmetry. apply Permutation_middle.
      * by apply submseteq_skip.
      * intros z Hz. apply not_elem_of_cons in Hz as [Hz1 Hz2]. by apply Hfr.
  - rewrite in_young_false, when_false, M_ret_bind by lia. destruct (IH m s b q ts fwd P Hnd Hi Hs) as (m' & q' & pushed & Hr & Hst & Hh & Hsub & Hfr).
    exists m', q', pushed. split_and!; try done. intros z Hz. apply not_elem_of_cons in Hz as [_ Hz2]. by apply Hfr.
Qed.

(** ** Tasks *)

(** A reference in a copy, or an array [o], copied to [n], whose first [len] elements are left;
    and a container of the collection they belong to. *)
Inductive task := TSlot (p c : Z) | TChunk (o n len c : Z).

Definition word_of (t : task) : BDARefTask :=
  match t with
  | TSlot p c => BDARefTask_oop p c
  | TChunk o _ _ c => BDARefTask_oop (mask_chunked_array_oop o) c
  end.

(** The references of the elements from [start] to [end_] that are pending. *)
Definition chunk_pend (o n start end_ : Z) : list Z :=
  (fun j => array_base n + 8 * j) <$> filter (fun j => young <= m0 (array_base o + 8 * j)) (seqZ start (end_ - start)).

Definition pend_of (t : task) : list Z :=
  match t with TSlot p _ => [p] | TChunk o n len _ => chunk_pend o n 0 len end.
Definition pends (T : list task) : list Z := T ≫= pend_of.
Definition cont_of (t : task) : Z := match t with TSlot _ c => c | TChunk _ _ _ c => c end.
Definition array_of (t : task) : option Z := match t with TSlot _ _ => None | TChunk o _ _ _ => Some o end.

Definition is_array (o : Z) : Prop := exists k, klasses (m0 (o + 8)) = Some k /\ _kind k = ObjArray.

(** The length of the original says what is left of the array. *)
Definition task_ok (m : Z -> Z) (fwd : gmap Z Z) (t : task) : Prop :=
  match t with
  | TSlot _ _ => True
  | TChunk o n len _ => fwd !! o = Some n /\ is_array o /\ array_length m o = len /\ 0 <= len <= array_length m0 o
  end.

(** How much work a task is. *)
Definition weight (t : task) : Z := match t with TSlot _ _ => 1 | TChunk _ _ len _ => 2 * len + 1 end.

Lemma pends_app T T' : pends (T ++ T') = pends T ++ pends T'.
Proof. apply bind_app. Qed.

Lemma pends_slots l c : pends ((fun p => TSlot p c) <$> l) = l.
Proof. induction l as [| p l IH]; [done |]. unfold pends in *. cbn. by rewrite IH. Qed.

(** Tasks for single references. *)
Lemma slots_arrays l c : omap array_of ((fun p => TSlot p c) <$> l) = [].
Proof. by induction l. Qed.
Lemma slots_weight l c : sum_of weight ((fun p => TSlot p c) <$> l) = Z.of_nat (length l).
Proof. induction l as [| x l IH]; [done |]. rewrite fmap_cons, sum_of_cons, IH. simpl. lia. Qed.

Lemma chunk_pend_split o n start end_ :
  0 <= start <= end_ -> chunk_pend o n 0 end_ = chunk_pend o n 0 start ++ chunk_pend o n start end_.
Proof.
  intros H. unfold chunk_pend. rewrite <- fmap_app, <- filter_app. do 2 f_equal. rewrite !Z.sub_0_r.
  replace end_ with (start + (end_ - start)) at 1 by lia. by rewrite seqZ_app by lia.
Qed.

Lemma array_slots_of o : is_array o -> slots o = array_slots o 0 (array_length m0 o).
Proof. intros (k & Hk & Hkind). unfold HeapCopy.slots, oop_slots. by rewrite Hk, Hkind. Qed.

Lemma array_words o : o ∈ Y -> is_array o -> words o = 3 + array_length m0 o /\ 0 <= array_length m0 o <= 2 ^ 27.
Proof.
  intros Ho (k & Hk & Hkind). destruct (y_klass _ _ _ _ _ _ _ Hheap o Ho) as (k' & Hk' & Hw & Hl).
  assert (k' = k) as -> by congruence. unfold HeapCopy.words. rewrite Hk.
  rewrite size_obj_array by (done || by apply (y_align _ _ _ _ _ _ _ Hheap)).
  split; [done |]. unfold length_wf in Hl. by rewrite Hkind in Hl.
Qed.

Lemma chunk_pend_all o n : is_array o -> chunk_pend o n 0 (array_length m0 o) = young_slots o n.
Proof.
  intros Ha. unfold HeapCopy.young_slots. rewrite (array_slots_of o Ha). unfold array_slots, chunk_pend.
  rewrite filter_fmap_comm, <- list_fmap_compose. apply list_fmap_ext. intros i j _. unfold array_base. simpl. lia.
Qed.

(** ** What is left to copy *)

Definition left (f : Z -> Z) (fwd : gmap Z Z) : Z := sum_of f (filter (fun o => fwd !! o = None) (elements Y)).

Lemma left_insert f fwd v n : v ∈ Y -> fwd !! v = None -> left f fwd = f v + left f (<[v := n]> fwd).
Proof.
  intros Hv Hf. unfold left.
  assert (elements Y ≡ₚ v :: elements (Y ∖ {[v]})) as E.
  { rewrite <- elements_union_singleton by set_solver. by rewrite <- union_difference_singleton_L. }
  rewrite !(sum_of_perm f _ _ (filter_Permutation _ _ _ E)). rewrite filter_cons_True by done.
  rewrite filter_cons_False by (by rewrite lookup_insert_eq). rewrite sum_of_cons. f_equal. f_equal.
  apply filter_ext_in. intros x Hx%elem_of_elements. by rewrite lookup_insert_ne by set_solver.
Qed.

Lemma left_nonneg f fwd : (forall o, o ∈ Y -> 0 <= f o) -> 0 <= left f fwd.
Proof.
  intros Hf. apply sum_of_nonneg. intros o [_ Ho]%list_elem_of_filter. by apply Hf, elem_of_elements.
Qed.

(** ** Copying an object *)

Lemma pend_oop m fwd pend x : heap_inv m fwd pend -> x ∈ pend -> is_oop x /\ lo <= x < young.
Proof.
  intros Hi Hx. destruct (h_pend _ _ _ _ _ _ _ _ _ Hi x Hx) as (o & n & i & Ho & Hir & -> & _).
  destruct (h_place _ _ _ _ _ _ _ _ _ Hi o n Ho) as ([Hn Hm] & H1 & H2). unfold is_oop. lia.
Qed.

Lemma klass_run (w : world W) o k : klasses (mem w (o + 8)) = Some k -> klass_of klasses o w = Some (k, w).
Proof. intros Hk. unfold klass_of. mrun (mem_load_run w (o + 8)). by rewrite Hk. Qed.

Lemma is_objArray_kind k :
  klass_wf k -> layout_helper_is_objArray (_layout_helper k) = true <-> _kind k = ObjArray.
Proof.
  unfold klass_wf. intros Hw. destruct (_kind k) as [maps | |].
  - destruct Hw as (size & slow & -> & Hs & _). destruct (instance_helper_fields size slow ltac:(lia)) as (_ & _ & _ & -> & _). done.
  - rewrite Hw. done.
  - destruct Hw as (h & et & l & Hh & He & Hl & _ & ->).
    destruct (array_helper_fields lh_array_tag_type_value h et l ltac:(by left) ltac:(lia) ltac:(lia) ltac:(lia))
      as (_ & _ & _ & -> & _). done.
Qed.

Lemma length_slots o : o ∈ Y -> Z.of_nat (length (slots o)) <= words o.
Proof.
  intros Ho. pose proof (object_words _ _ _ _ _ _ _ Hheap o Ho) as Hw.
  assert (slots o ⊆+ (fun i => o + 8 * i) <$> seqZ 0 (words o)) as Hsub.
  { apply NoDup_submseteq; [by apply (slots_nodup _ _ _ _ _ _ _ Hheap) |]. intros x Hx.
    destruct (slot_index _ _ _ _ _ _ _ Hheap o x Ho Hx) as (i & Hi & ->). apply list_elem_of_fmap.
    exists i. split; [done |]. apply elem_of_seqZ. lia. }
  apply submseteq_length in Hsub. rewrite length_fmap, length_seqZ in Hsub. lia.
Qed.

Section Copy.
Context (m : Z -> Z) (fwd : gmap Z Z) (P : list Z) (v n : Z).
Context (Hinv : heap_inv m fwd P) (Hv : v ∈ Y) (Hf : fwd !! v = None).
Context (Hn : is_oop n) (Hnlo : lo <= n) (Hnhi : n + 8 * words v <= young).
Context (Hap : forall o n', fwd !! o = Some n' -> n' + 8 * words o <= n \/ n + 8 * words v <= n').

Local Abbreviation m2 := (forwarded g klasses m0 m v n).

Lemma copied_word i : 0 <= i < words v -> m2 (n + 8 * i) = m0 (v + 8 * i).
Proof using All.
  intros Hi. pose proof (y_addr _ _ _ _ _ _ _ Hheap v Hv). rewrite forwarded_in by lia.
  by apply (h_left _ _ _ _ _ _ _ _ _ Hinv).
Qed.

(** The class and the length of the copy are those of the object. *)
Lemma copied_klass k : klasses (m0 (v + 8)) = Some k -> klasses (m2 (n + 8)) = Some k.
Proof using All.
  intros Hk. pose proof (object_words _ _ _ _ _ _ _ Hheap v Hv).
  replace (n + 8) with (n + 8 * 1) by lia. rewrite copied_word by lia. done.
Qed.

Lemma copied_length : is_array v -> array_length m2 n = array_length m0 v.
Proof using All.
  intros Ha. destruct (array_words v Hv Ha) as [Hw Hl]. unfold array_length, length_offset.
  replace (n + 16) with (n + 8 * 2) by lia. rewrite copied_word by lia. do 2 f_equal.
Qed.

Lemma copied_slots k : klasses (m0 (v + 8)) = Some k -> oop_slots k m2 n = (fun s => s - v + n) <$> slots v.
Proof using All.
  intros Hk. unfold HeapCopy.slots. rewrite Hk. apply slots_shift. intros Hkind. apply copied_length. by exists k.
Qed.

Lemma copied_young : filter (fun x => young <= m2 x) ((fun s => s - v + n) <$> slots v) = young_slots v n.
Proof using All.
  rewrite filter_fmap_comm. unfold HeapCopy.young_slots. f_equal. apply filter_ext_in. intros x Hx.
  destruct (slot_index _ _ _ _ _ _ _ Hheap v x Hv Hx) as (i & Hi & ->).
  replace (v + 8 * i - v + n) with (n + 8 * i) by lia. by rewrite copied_word by lia.
Qed.

(** The old length of an array that is copied. *)
Lemma forwarded_length o : o ∈ Y -> is_array o -> array_length m2 o = array_length m o.
Proof using All.
  intros Ho Ha. destruct (array_words o Ho Ha) as [Hw Hl]. unfold array_length, length_offset. f_equal.
  pose proof (y_addr _ _ _ _ _ _ _ Hheap o Ho). pose proof (object_words _ _ _ _ _ _ _ Hheap v Hv).
  apply forwarded_out; [| lia]. destruct (decide (o = v)) as [-> | Hne]; [lia |].
  destruct (y_apart _ _ _ _ _ _ _ Hheap o v Ho Hv Hne); lia.
Qed.

(** The copy is made and the header exchanged, which nobody contests. *)
Lemma cas_run s b q :
  (aligned_disjoint_words v n (words v);; cas_forward_to v n (m v)) (ev m s b q) = Some (true, ev m2 s b q).
Proof using All.
  pose proof (y_addr _ _ _ _ _ _ _ Hheap v Hv). unfold aligned_disjoint_words. rewrite M_modify_bind. unfold cas_forward_to.
  erewrite M_bind_Some by apply mem_load_run.
  assert (mem (set_mem (ev m s b q) (copy_words (Z.to_nat (words v)) v n (mem (ev m s b q)))) v = m v) as ->.
  { cbn. apply copy_words_out. intros i Hi. pose proof (object_words _ _ _ _ _ _ _ Hheap v Hv). lia. }
  rewrite Z.eqb_refl. done.
Qed.

(** The tasks [T] that stand for the references of the copy. *)
Record from_copy (m' : Z -> Z) (fwd' : gmap Z Z) (c : Z) (T : list task) : Prop := {
  fc_ok : Forall (task_ok m' fwd') T;
  fc_cont : Forall (fun t => cont_of t = c) T;
  fc_pend : pends T ⊆+ young_slots v n;
  fc_array : omap array_of T ⊆+ [v];
  fc_weight : sum_of weight T <= 2 * words v
}.

Local Abbreviation publish := (publish klasses young UseBiasedLocking PSChunkLargeArrays N bda_heap bda_junk).

(** A long array is left for later. *)
Lemma publish_array s b q ts c :
  stack_inv q ts -> is_array v ->
  exists q', push_bdaref_stack (mask_chunked_array_oop v) c (ev m2 s b q) = Some (tt, ev m2 s b q') /\
    stack_inv q' ((word_of <$> [TChunk v n (array_length m0 v) c]) ++ ts) /\
    heap_inv m2 (<[v := n]> fwd) (pends [TChunk v n (array_length m0 v) c] ++ P) /\
    from_copy m2 (<[v := n]> fwd) c [TChunk v n (array_length m0 v) c].
Proof using All.
  intros Hs Ha. destruct (task_push_run m2 s b q ts (mask_chunked_array_oop v) c Hs) as (q' & Hq & Hs').
  destruct (array_words v Hv Ha) as [Hw Hl].
  assert (pends [TChunk v n (array_length m0 v) c] = young_slots v n) as Ep
    by (unfold pends; cbn; by rewrite app_nil_r, chunk_pend_all).
  exists q'. split; [done |]. split; [done |]. split.
  - rewrite Ep. by apply (heap_forward _ _ _ _ _ _ _ Hheap).
  - split.
    + constructor; [| constructor]. simpl. rewrite lookup_insert_eq. split; [done |]. split; [done |]. split; [| lia].
      rewrite forwarded_length by done. unfold array_length, length_offset.
      pose proof (h_left _ _ _ _ _ _ _ _ _ Hinv v 2 Hv Hf ltac:(lia)) as E. change (8 * 2) with 16 in E. by rewrite E.
    + constructor; [done | constructor].
    + by rewrite Ep.
    + done.
    + unfold sum_of. cbn. lia.
Qed.

(** Otherwise its references are claimed. *)
Lemma publish_slots s b q ts c k :
  stack_inv q ts -> klasses (m0 (v + 8)) = Some k ->
  exists m3 q' T, push_bdaref_contents klasses young UseBiasedLocking N bda_heap bda_junk n c (ev m2 s b q) = Some (tt, ev m3 s b q') /\
    stack_inv q' ((word_of <$> T) ++ ts) /\ heap_inv m3 (<[v := n]> fwd) (pends T ++ P) /\
    from_copy m3 (<[v := n]> fwd) c T /\ (forall x, (forall i, 0 <= i < words v -> x <> n + 8 * i) -> m3 x = m2 x).
Proof using All.
  intros Hs Hk. unfold push_bdaref_contents, push_contents_with.
  mrun (klass_run (ev m2 s b q) n k (copied_klass k Hk)). rewrite M_gets_bind. change (mem (ev m2 s b q)) with m2.
  rewrite (copied_slots k Hk).
  destruct (claim_slots_run c ((fun s => s - v + n) <$> slots v) m2 s b q ts (<[v := n]> fwd) P)
    as (m3 & q' & pushed & Hr & Hst & Hh & Hsub & Hfr).
  - apply NoDup_fmap; [intros x y; lia |]. by apply (slots_nodup _ _ _ _ _ _ _ Hheap).
  - rewrite copied_young. by apply (heap_forward _ _ _ _ _ _ _ Hheap).
  - done.
  - rewrite copied_young in Hsub. exists m3, q', ((fun p => TSlot p c) <$> pushed). rewrite pends_slots.
    split; [done |]. split; [| split; [done |]; split].
    + by rewrite <- list_fmap_compose.
    + split.
      * apply Forall_fmap, Forall_true. done.
      * apply Forall_fmap, Forall_true. done.
      * by rewrite pends_slots.
      * rewrite slots_arrays. apply submseteq_nil_l.
      * rewrite slots_weight. apply submseteq_length in Hsub. unfold HeapCopy.young_slots in Hsub. rewrite length_fmap in Hsub.
        pose proof (length_filter (fun s => young <= m0 s) (slots v)). pose proof (length_slots v Hv). lia.
    + intros x Hx. apply Hfr. intros (z & -> & Hz)%list_elem_of_fmap.
      destruct (slot_index _ _ _ _ _ _ _ Hheap v z Hv Hz) as (i & Hi & ->). apply (Hx i); lia.
Qed.

Lemma publish_run s b q ts c :
  stack_inv q ts ->
  exists m3 q' T, publish v n (words v) c (ev m2 s b q) = Some (tt, ev m3 s b q') /\
    stack_inv q' ((word_of <$> T) ++ ts) /\ heap_inv m3 (<[v := n]> fwd) (pends T ++ P) /\
    from_copy m3 (<[v := n]> fwd) c T /\ (forall x, (forall i, 0 <= i < words v -> x <> n + 8 * i) -> m3 x = m2 x).
Proof using All.
  intros Hs. destruct (y_klass _ _ _ _ _ _ _ Hheap v Hv) as (k & Hk & Hw & Hl). unfold PromotionManager.publish, is_objArray.
  rewrite M_bind_assoc. mrun (klass_run (ev m2 s b q) n k (copied_klass k Hk)). rewrite M_ret_bind, M_get_bind.
  destruct ((_ >? _) && layout_helper_is_objArray (_layout_helper k) && PSChunkLargeArrays) eqn:E; [| by eapply publish_slots].
  apply andb_true_iff in E as [[_ E]%andb_true_iff _]. apply is_objArray_kind in E; [| done].
  destruct (publish_array s b q ts c Hs) as (q' & Hr & Hst & Hh & Hfc); [by exists k |].
  eexists m2, q', _. split; [done |]. by split_and!.
Qed.

End Copy.

(** ** The graph and the tasks *)

(** The tasks [T] are what is left to do for the references of the copies; the objects they
    are in can be reached from [root]. *)
Record graph_inv (root : Z) (m : Z -> Z) (T : list task) (fwd : gmap Z Z) : Prop := {
  g_heap : heap_inv m fwd (pends T);
  g_tasks : Forall (task_ok m fwd) T;
  g_arrays : NoDup (omap array_of T);
  g_reach : forall p, p ∈ pends T -> exists o n i, fwd !! o = Some n /\ 0 <= i < words o /\ p = n + 8 * i /\ reach root o
}.

Lemma pends_perm T T' : T ≡ₚ T' -> pends T ≡ₚ pends T'.
Proof. intros E. unfold pends. by rewrite E. Qed.

Lemma graph_perm root m T T' fwd : graph_inv root m T fwd -> T ≡ₚ T' -> graph_inv root m T' fwd.
Proof.
  intros [Hh Ht Ha Hr] E. split.
  - eapply heap_perm; [done | by apply pends_perm].
  - by rewrite <- E.
  - by rewrite <- E.
  - intros p Hp. apply Hr. by rewrite (pends_perm _ _ E).
Qed.

(** The object of a pending reference. *)
Lemma graph_target root m T fwd p :
  graph_inv root m T fwd -> p ∈ pends T -> m p ∈ Y /\ reach root (m p) /\ is_oop p /\ lo <= p < young.
Proof.
  intros [Hh _ _ Hr] Hp. destruct (pend_value _ _ _ _ _ _ _ Hheap m fwd _ p Hh Hp) as (o & n & i & Ho & Hi & E & Hy & Hv & HY).
  destruct (Hr p Hp) as (o' & n' & i' & Ho' & Hi' & E' & Hre). split; [done |]. split; [| by eapply pend_oop].
  destruct (copy_index _ _ _ _ _ _ m fwd (pends T) o n i o' n' i' Hh Ho Ho' Hi Hi') as (<- & <- & <-); [congruence |].
  rewrite Hv. by apply (reach_step _ _ _ root o).
Qed.

Lemma task_ok_frame m m' fwd fwd' t :
  task_ok m fwd t -> fwd ⊆ fwd' -> (forall o, array_of t = Some o -> o ∈ Y -> m' (o + 16) = m (o + 16)) ->
  (forall o n, fwd !! o = Some n -> o ∈ Y) -> task_ok m' fwd' t.
Proof.
  destruct t as [p c | o n len c]; [done |]. simpl. intros (Hf & Ha & Hl & Hr) Hsub Hm HY.
  split; [by eapply lookup_weaken |]. split; [done |]. split; [| done]. rewrite <- Hl. unfold array_length, length_offset.
  by rewrite (Hm o eq_refl (HY _ _ Hf)).
Qed.

Lemma in_young_length o : o ∈ Y -> is_array o -> in_young g klasses m0 Y (o + 16).
Proof. intros Ho Ha. destruct (array_words o Ho Ha). exists o, 2. split; [done |]. lia. Qed.

Lemma tasks_frame m m' fwd fwd' pend T :
  heap_inv m fwd pend -> Forall (task_ok m fwd) T -> fwd ⊆ fwd' ->
  (forall o, Some o ∈ (array_of <$> T) -> o ∈ Y -> m' (o + 16) = m (o + 16)) -> Forall (task_ok m' fwd') T.
Proof.
  intros Hh Ht Hsub Hm. rewrite Forall_forall in *. intros t Hin.
  eapply task_ok_frame; [by apply Ht | done | | by apply (h_dom _ _ _ _ _ _ _ _ _ Hh)].
  intros o Ho. apply Hm. rewrite <- Ho. by apply list_elem_of_fmap_2.
Qed.

(** Memory that is not in use. *)
Lemma graph_frame root m m' T fwd :
  graph_inv root m T fwd -> (forall a, in_young g klasses m0 Y a \/ in_copies g klasses m0 fwd a -> m' a = m a) ->
  graph_inv root m' T fwd.
Proof.
  intros [Hh Ht Ha Hr] Hf. split; try done.
  - eapply heap_frame; [done | done | by eapply words_pos].
  - rewrite Forall_forall in *. intros t Hin. eapply task_ok_frame; [by apply Ht | done | | by apply (h_dom _ _ _ _ _ _ _ _ _ Hh)].
    intros o Ho HoY. apply Hf. left. apply in_young_length; [done |]. specialize (Ht t Hin). destruct t; [done |].
    simpl in *. injection Ho as ->. apply Ht.
Qed.

(** A pending reference gets the address of the copy. *)
Lemma graph_fill root m T fwd p c v :
  graph_inv root m (TSlot p c :: T) fwd -> fwd !! m p = Some v -> graph_inv root (upd m p v) T fwd.
Proof.
  intros Hgi Hv. destruct (graph_target _ _ _ _ p Hgi) as (_ & _ & _ & Hp); [by left |].
  destruct Hgi as [Hh Ht Ha Hr]. split.
  - by apply (heap_fill _ _ _ _ _ _ _ Hheap).
  - eapply tasks_frame; [done | by inversion Ht | done |]. intros o _ Ho. apply upd_ne.
    pose proof (y_addr _ _ _ _ _ _ _ Hheap o Ho). lia.
  - done.
  - intros x Hx. apply Hr. by right.
Qed.

Local Abbreviation publish := (publish klasses young UseBiasedLocking PSChunkLargeArrays N bda_heap bda_junk).

(** More is copied, and memory outside the generations is as it was. *)
Definition grows (m m' : Z -> Z) (fwd fwd' : gmap Z Z) : Prop :=
  fwd ⊆ fwd' /\ forall x, x < lo \/ hi <= x -> m' x = m x.

Lemma grows_trans m1 m2 m3 f1 f2 f3 : grows m1 m2 f1 f2 -> grows m2 m3 f2 f3 -> grows m1 m3 f1 f3.
Proof. intros [H1 H2] [H3 H4]. split; [by etrans |]. intros x Hx. by rewrite H4, H2. Qed.

Lemma grows_upd m fwd a x : lo <= a < hi -> grows m (upd m a x) fwd fwd.
Proof. intros Ha. split; [done |]. intros y Hy. apply upd_ne. lia. Qed.

Lemma grows_forward m m3 fwd v n :
  v ∈ Y -> fwd !! v = None -> lo <= n -> n + 8 * words v <= young ->
  (forall x, (forall i, 0 <= i < words v -> x <> n + 8 * i) -> m3 x = forwarded g klasses m0 m v n x) ->
  grows m m3 fwd (<[v := n]> fwd).
Proof.
  intros Hv Hf Hlo Hhi Hfr. split; [by apply insert_subseteq |]. intros x Hx.
  pose proof (y_addr _ _ _ _ _ _ _ Hheap v Hv). pose proof (object_words _ _ _ _ _ _ _ Hheap v Hv).
  pose proof (y_bounds _ _ _ _ _ _ _ Hheap). rewrite Hfr by lia. apply forwarded_out; lia.
Qed.

Lemma grows_frame m m' fwd objs : untouched lo young m m' objs -> grows m m' fwd fwd.
Proof. intros Hu. split; [done |]. intros x Hx. apply Hu. pose proof (y_bounds _ _ _ _ _ _ _ Hheap). lia. Qed.

(** An object is copied, forwarded and published. *)
Lemma forward_run root m T fwd v n s b q S c (lost : M (world W) Z) :
  graph_inv root m T fwd -> v ∈ Y -> fwd !! v = None -> reach root v ->
  is_oop n -> lo <= n -> n + 8 * words v <= young ->
  (forall o n', fwd !! o = Some n' -> n' + 8 * words o <= n \/ n + 8 * words v <= n') ->
  stack_inv q (word_of <$> S) ->
  exists m' q' T1, (aligned_disjoint_words v n (words v);; won ← cas_forward_to v n (m v);
      if (won : bool) then publish v n (words v) c;; mret n else lost) (ev m s b q) = Some (n, ev m' s b q') /\
    graph_inv root m' (T1 ++ T) (<[v := n]> fwd) /\ stack_inv q' (word_of <$> T1 ++ S) /\
    Forall (fun t => cont_of t = c) T1 /\ sum_of weight T1 <= 2 * words v /\ grows m m' fwd (<[v := n]> fwd).
Proof.
  intros [Hh Ht Ha Hr] Hv Hf Hre Hn Hlo Hhi Hap Hs.
  destruct (publish_run m fwd (pends T) v n Hh Hv Hf Hn Hlo Hhi Hap s b q _ c Hs) as (m3 & q' & T1 & Hrun & Hst & Hh3 & [Hok Hc Hp Harr Hw] & Hfr).
  exists m3, q', T1. split; [| split; [| split; [by rewrite fmap_app |]; split; [done |]; split; [done |]; by apply grows_forward]].
  - rewrite <- M_bind_assoc. rewrite (M_bind_Some _ _ _ _ _ (cas_run m fwd (pends T) v n Hh Hv Hf Hn Hlo Hhi Hap s b q)).
    by mrun Hrun.
  - assert (fwd ⊆ <[v := n]> fwd) as Hsub by (by apply insert_subseteq). split.
    + by rewrite pends_app.
    + apply Forall_app. split; [done |]. rewrite Forall_forall in *. intros t Hin.
      eapply task_ok_frame; [by apply Ht | done | | by apply (h_dom _ _ _ _ _ _ _ _ _ Hh)].
      intros o Ho HoY. specialize (Ht t Hin). destruct t as [| o' n' len c']; [done |]. injection Ho as ->.
      pose proof (y_addr _ _ _ _ _ _ _ Hheap o HoY) as (_ & Hyo & _). rewrite Hfr by lia.
      assert (o <> v) as Hne by (intros ->; simpl in Ht; naive_solver).
      destruct (array_words o HoY) as [Hwo Hlo']; [apply Ht |].
      apply (forwarded_young _ _ _ _ _ _ _ Hheap m v n Hv Hhi o 2 HoY Hne). lia.
    + rewrite omap_app. apply NoDup_app. split; [| split; [| done]].
      * pose proof (NoDup_singleton v) as Hnd. destruct (submseteq_Permutation _ _ Harr) as [l El].
        rewrite El in Hnd. by apply NoDup_app in Hnd as [? _].
      * intros x Hx Hx'. apply (elem_of_submseteq _ _ _ Hx) in Harr. apply list_elem_of_singleton in Harr as ->.
        apply list_elem_of_omap in Hx' as (t & Hin & Et). rewrite Forall_forall in Ht. specialize (Ht t Hin).
        destruct t; [done |]. injection Et as ->. simpl in Ht. naive_solver.
    + intros p. rewrite pends_app. intros [Hin | Hin]%elem_of_app.
      * apply (elem_of_submseteq _ _ _ Hin) in Hp. apply (elem_of_young_slots _ _ _ _ _ _ _ Hheap) in Hp as (i & Hi & -> & _); [| done].
        exists v, n, i. by rewrite lookup_insert_eq.
      * destruct (Hr p Hin) as (o & n' & i & Ho & Hrest). exists o, n', i. split; [by eapply lookup_weaken | done].
Qed.

(** ** Memory for the copies *)

(** The collection [k] was made for the object [ro] of a reference, and holds its copy. *)
Definition rooted (k : collection) (ro : Z) (fwd : gmap Z Z) (objs : list block) : Prop :=
  exists n, (ro, snd k) ∈ roots /\ fwd !! ro = Some n /\ (n, words ro, k) ∈ objs.

(** The copy [n] of [o] is in the collection of a reference from which [o] can be reached. *)
Definition placed (fwd : gmap Z Z) (objs : list block) (o n : Z) : Prop :=
  exists ro k, rooted k ro fwd objs /\ reach ro o /\ (n, words o, k) ∈ objs.

(** What the old generation may have to give for one object. *)
Definition cost (o : Z) : Z := space_cost (words o) + space_cost PLAB.

Record room_inv (s : W) (b : PromotionLAB.BDAOldPromotionLAB) (fwd : gmap Z Z) (bl : list block) (K : gmap Z collection)
    (objs : list block) : Prop := {
  r_alloc : exists n a e, alloc_inv lo young PLAB s b bl K n objs a e /\ left cost fwd <= n;
  r_placed : forall o n, fwd !! o = Some n -> placed fwd objs o n
}.

Lemma rooted_mono k ro fwd fwd' objs objs' : rooted k ro fwd objs -> fwd ⊆ fwd' -> rooted k ro fwd' (objs ++ objs').
Proof.
  intros (n & Hin & Hf & Ho) Hsub. exists n. split; [done |]. split; [by eapply lookup_weaken |]. apply elem_of_app. by left.
Qed.

Lemma placed_mono fwd fwd' objs objs' o n : placed fwd objs o n -> fwd ⊆ fwd' -> placed fwd' (objs ++ objs') o n.
Proof.
  intros (ro & k & Hro & Hre & Hin) Hsub. exists ro, k. split; [by apply (rooted_mono _ _ fwd) |].
  split; [done |]. apply elem_of_app. by left.
Qed.

(** Two blocks of the list that are not the same. *)
Lemma block_apart s b bl K n objs a e x y :
  alloc_inv lo young PLAB s b bl K n (objs ++ [y]) a e -> x ∈ objs -> apart x y.
Proof. intros Ha Hx. eapply all_apart_snoc_inv; [apply Ha | done]. Qed.

(** The memory of a new copy is that of no other, and writing there leaves the others. *)
Lemma new_place s b bl K n objs a e fwd v p k :
  alloc_inv lo young PLAB s b bl K n (objs ++ [(p, words v, k)]) a e ->
  (forall o n, fwd !! o = Some n -> placed fwd objs o n) ->
  is_oop p /\ lo <= p /\ p + 8 * words v <= young /\
  (forall o n', fwd !! o = Some n' -> n' + 8 * words o <= p \/ p + 8 * words v <= n').
Proof.
  intros Ha Hp. destruct (obj_bounds _ _ _ _ _ _ _ _ _ _ _ (p, words v, k) Ha) as (H1 & H2 & H3);
    [apply elem_of_app; right; by left |]. split; [done |]. split; [done |]. split; [done |].
  intros o n' Ho. destruct (Hp o n' Ho) as (ro & k' & _ & _ & Hin). by apply (block_apart _ _ _ _ _ _ _ _ _ _ Ha Hin).
Qed.

Lemma untouched_frame m m' objs fwd :
  untouched lo young m m' objs -> (forall o n, fwd !! o = Some n -> placed fwd objs o n) ->
  forall a, in_young g klasses m0 Y a \/ in_copies g klasses m0 fwd a -> m' a = m a.
Proof.
  intros Hu Hp a [(o & i & Ho & Hi & ->) | (o & n & i & Ho & Hi & ->)]; apply Hu.
  - right. left. pose proof (y_addr _ _ _ _ _ _ _ Hheap o Ho). lia.
  - right. right. destruct (Hp o n Ho) as (ro & k & _ & _ & Hin). exists (n, words o, k). split; [done |].
    unfold start, words_of. simpl. lia.
Qed.

(** The invariant with one more copy. *)
Lemma room_copy s b fwd bl K objs v p ro k n a e :
  alloc_inv lo young PLAB s b bl K n (objs ++ [(p, words v, k)]) a e -> left cost fwd <= n + cost v ->
  (forall o n, fwd !! o = Some n -> placed fwd objs o n) -> v ∈ Y -> fwd !! v = None -> reach ro v ->
  rooted k ro (<[v := p]> fwd) (objs ++ [(p, words v, k)]) ->
  room_inv s b (<[v := p]> fwd) bl K (objs ++ [(p, words v, k)]).
Proof.
  intros Ha Hl Hp Hv Hf Hre Hro. split.
  - exists n, a, e. split; [done |]. rewrite (left_insert cost fwd v p Hv Hf) in Hl. lia.
  - intros o n' [[<- <-] | [Hne Ho]]%lookup_insert_Some.
    + exists ro, k. split; [done |]. split; [done |]. apply elem_of_app. right. by left.
    + apply (placed_mono fwd); [by apply Hp | by apply insert_subseteq].
Qed.

Local Abbreviation copy := (copy_bdaref_to_survivor_space g klasses intArrayKlass objectKlass young UseBiasedLocking
  PSChunkLargeArrays PLAB N bda_heap bda_junk star_heap star_junk).

(** The size of an object that has not been copied. *)
Lemma size_run m s b q fwd pend v :
  heap_inv m fwd pend -> v ∈ Y -> fwd !! v = None -> size g klasses v (ev m s b q) = Some (words v, ev m s b q).
Proof.
  intros Hh Hv Hf. destruct (size_left _ _ _ _ _ _ _ Hheap m v Hv) as (k & Hk & Hsize).
  { intros i Hi. by apply (h_left _ _ _ _ _ _ _ _ _ Hh). }
  unfold size. mrun (klass_run (ev m s b q) v k Hk). by rewrite <- Hsize.
Qed.

(** There is room for one more object. *)
Lemma left_room fwd v n : v ∈ Y -> fwd !! v = None -> left cost fwd <= n -> 0 <= n - cost v.
Proof.
  intros Hv Hf Hn. rewrite (left_insert cost fwd v 0 Hv Hf) in Hn.
  assert (0 <= left cost (<[v := 0]> fwd)); [| lia]. apply left_nonneg. intros o _. unfold cost.
  pose proof (cost_nonneg (HW := HW) (words o)). pose proof (cost_nonneg (HW := HW) PLAB). lia.
Qed.

(** An element is copied next to the object it was reached from. *)
Lemma copy_element root k m s b q T S fwd v c bl K objs :
  graph_inv root m T fwd -> room_inv s b fwd bl K objs -> rooted k root fwd objs ->
  v ∈ Y -> fwd !! v = None -> reach root v -> K !! c = Some k -> stack_inv q (word_of <$> S) ->
  exists p m' s' b' q' T1 bl' K' objs', copy v c RefQueue.element (ev m s b q) = Some (p, ev m' s' b' q') /\
    graph_inv root m' (T1 ++ T) (<[v := p]> fwd) /\ room_inv s' b' (<[v := p]> fwd) bl' K' objs' /\
    rooted k root (<[v := p]> fwd) objs' /\ K ⊆ K' /\ Forall (fun t => K' !! cont_of t = Some k) T1 /\
    stack_inv q' (word_of <$> T1 ++ S) /\ sum_of weight T1 <= 2 * words v /\ grows m m' fwd (<[v := p]> fwd).
Proof.
  intros Hgi [(n & a & e & Ha & Hle) Hpl] Hro Hv Hf Hre HK Hs. pose proof (object_words _ _ _ _ _ _ _ Hheap v Hv) as Hwv.
  destruct (unforwarded_mark m fwd _ v (g_heap _ _ _ _ Hgi) Hv Hf) as [_ Hm].
  unfold copy_bdaref_to_survivor_space. mrun (mem_load_run (ev m s b q) v). change (mem (ev m s b q) v) with (m v).
  rewrite Hm. cbn [negb]. mrun (size_run m s b q fwd _ v (g_heap _ _ _ _ Hgi) Hv Hf).
  destruct (allocate_in_container_ok lo young PLAB g Hg (proj1 (proj1 (y_bounds _ _ _ _ _ _ _ Hheap))) Hyoung HPLAB
    intArrayKlass objectKlass (ev m s b q) bl K (n - cost v) objs a e c k (words v))
    as (p & c' & m1 & s1 & b1 & bl' & K' & a' & e' & Hall & Ha' & HK' & Hc' & _ & Hun); [| by eapply left_room | done | lia |].
  { unfold cost. by replace (n - _ + _ + _) with n by lia. }
  mrun Hall. cbv beta iota. destruct (new_place _ _ _ _ _ _ _ _ fwd v p k Ha' Hpl) as (Hp1 & Hp2 & Hp3 & Hp4).
  assert (p <> NULL) as Hpn by (pose proof (y_bounds _ _ _ _ _ _ _ Hheap); unfold NULL; lia).
  destruct (Z.eqb_spec p NULL); [done |].
  change (with_alloc (ev m s b q) m1 s1 b1) with (ev m1 s1 b1 q).
  pose proof (graph_frame _ _ m1 _ _ Hgi (untouched_frame _ _ _ _ Hun Hpl)) as Hgi1.
  assert (m v = m1 v) as Emv.
  { symmetry. apply (untouched_frame _ _ _ _ Hun Hpl). left. exists v, 0. split; [done |]. lia. }
  rewrite Emv. edestruct (forward_run root m1 T fwd v p s1 b1 q S c') as (m2 & q' & T1 & Hrun & Hgi2 & Hst & Hcont & Hw & Hgr); try done.
  rewrite Hrun. exists p, m2, s1, b1, q', T1, bl', K', (objs ++ [(p, words v, k)]).
  assert (rooted k root (<[v := p]> fwd) (objs ++ [(p, words v, k)])) as Hro'
    by (eapply rooted_mono; [done | by apply insert_subseteq]).
  split; [done |]. split; [done |]. split; [eapply room_copy; try done; lia |]. split; [done |]. split; [done |].
  split; [eapply Forall_impl; [exact Hcont |]; by intros t -> |]. split; [done |]. split; [done |].
  eapply grows_trans; [by eapply grows_frame | done].
Qed.

(** The object of a reference is copied to a new container. *)
Lemma copy_root m s b q fwd v r bl K objs :
  graph_inv v m [] fwd -> room_inv s b fwd bl K objs -> v ∈ Y -> fwd !! v = None -> (v, r) ∈ roots -> served r ->
  stack_inv q [] ->
  exists p c m' s' b' q' T1 bl' K' objs', copy v r RefQueue.container (ev m s b q) = Some (p, ev m' s' b' q') /\
    graph_inv v m' T1 (<[v := p]> fwd) /\ room_inv s' b' (<[v := p]> fwd) bl' K' objs' /\
    rooted (c, r) v (<[v := p]> fwd) objs' /\ K ⊆ K' /\ Forall (fun t => K' !! cont_of t = Some (c, r)) T1 /\
    stack_inv q' (word_of <$> T1) /\ sum_of weight T1 <= 2 * words v /\ grows m m' fwd (<[v := p]> fwd).
Proof.
  intros Hgi [(n & a & e & Ha & Hle) Hpl] Hv Hf Hin Hser Hs. pose proof (object_words _ _ _ _ _ _ _ Hheap v Hv) as Hwv.
  destruct (unforwarded_mark m fwd _ v (g_heap _ _ _ _ Hgi) Hv Hf) as [_ Hm].
  unfold copy_bdaref_to_survivor_space. mrun (mem_load_run (ev m s b q) v). change (mem (ev m s b q) v) with (m v).
  rewrite Hm. cbn [negb]. mrun (size_run m s b q fwd _ v (g_heap _ _ _ _ Hgi) Hv Hf).
  pose proof (cost_nonneg (HW := HW) (words v)). pose proof (cost_nonneg (HW := HW) PLAB).
  destruct (container_law s bl K (n - cost v) (words v) r) as (c & p & s1 & Hall & Hc & HKc & Hst & Hsp); [| by eapply left_room | done | lia |].
  { eapply inv_weaken; [apply Ha |]. unfold cost. lia. }
  assert (on_space (allocate_container (words v) r) (ev m s b q) = Some (c, ev m s1 b q)) as Hall'
    by (unfold on_space; change (old_space (ev m s b q)) with s; by rewrite Hall).
  mrun Hall'. destruct (Z.eqb_spec c NULL); [done |].
  assert (on_space (container_start c) (ev m s1 b q) = Some (p, ev m s1 b q)) as Hst'
    by (unfold on_space; change (old_space (ev m s1 b q)) with s1; by rewrite Hst).
  mrun Hst'. assert (K ⊆ <[c := (c, r)]> K) as HK by (by apply insert_subseteq).
  assert (alloc_inv lo young PLAB s b bl K (n - cost v) objs a e) as Ha1.
  { destruct Ha. split; try done. eapply inv_weaken; [done |]. unfold cost. lia. }
  assert (alloc_inv lo young PLAB s1 b (bl ++ [(p, words v, (c, r))]) (<[c := (c, r)]> K) (n - cost v)
    (objs ++ [(p, words v, (c, r))]) a e) as Ha' by (eapply alloc_whole; [| exact Ha1 | exact HK | exact Hsp]; apply (y_bounds _ _ _ _ _ _ _ Hheap)).
  destruct (new_place _ _ _ _ _ _ _ _ fwd v p (c, r) Ha' Hpl) as (Hp1 & Hp2 & Hp3 & Hp4).
  edestruct (forward_run v m [] fwd v p s1 b q [] c) as (m2 & q' & T1 & Hrun & Hgi2 & Hst2 & Hcont & Hw & Hgr);
    try done; [constructor |]. rewrite app_nil_r in *.
  rewrite Hrun. eexists p, c, m2, s1, b, q', T1, _, _, (objs ++ [(p, words v, (c, r))]).
  assert (rooted (c, r) v (<[v := p]> fwd) (objs ++ [(p, words v, (c, r))])) as Hro.
  { exists p. rewrite lookup_insert_eq. split; [done |]. split; [done |]. apply elem_of_app. right. by left. }
  split; [done |]. split; [done |]. split; [eapply room_copy; try done; [lia | constructor] |]. split; [done |]. split; [done |].
  split; [| done]. eapply Forall_impl; [exact Hcont |]. intros t ->. by rewrite lookup_insert_eq.
Qed.

(** ** Tasks one by one *)

Record drain_inv (root : Z) (k : collection) (m : Z -> Z) (s : W) (b : PromotionLAB.BDAOldPromotionLAB) (T : list task)
    (fwd : gmap Z Z) (bl : list block) (K : gmap Z collection) (objs : list block) : Prop := {
  d_graph : graph_inv root m T fwd;
  d_room : room_inv s b fwd bl K objs;
  d_root : T = [] \/ rooted k root fwd objs;
  d_cont : Forall (fun t => K !! cont_of t = Some k) T
}.

(** What is left to do: decreased by every task. *)
Definition work (T : list task) (fwd : gmap Z Z) : Z := left (fun o => 2 * words o + 2) fwd + sum_of weight T.

Lemma barrier_none p m s b q v :
  v < young -> when (negb (is_obj_in_young young p) && is_in_reserved p)
    (when (is_obj_in_young young v) (inline_write_ref_field_gc p)) (ev m s b q) = Some (tt, ev m s b q).
Proof. intros Hv. rewrite (in_young_false v Hv). by destruct (_ && _). Qed.

Local Abbreviation copy_and_push := (copy_and_push_safe_barrier g klasses intArrayKlass objectKlass young is_in_reserved
  UseBiasedLocking PSChunkLargeArrays PLAB N bda_heap bda_junk star_heap star_junk).

(** A reference that is still pending has the value it had. *)
Lemma pend_same m m' fwd fwd' P P' p :
  heap_inv m fwd P -> heap_inv m' fwd' P' -> fwd ⊆ fwd' -> p ∈ P -> p ∈ P' -> m' p = m p.
Proof.
  intros Hh Hh' Hsub Hp Hp'.
  destruct (pend_value _ _ _ _ _ _ _ Hheap m fwd P p Hh Hp) as (o & n & i & Ho & Hi & E & _ & -> & _).
  destruct (pend_value _ _ _ _ _ _ _ Hheap m' fwd' P' p Hh' Hp') as (o' & n' & i' & Ho' & Hi' & E' & _ & -> & _).
  destruct (copy_index _ _ _ _ _ _ m' fwd' P' o n i o' n' i' Hh') as (-> & _ & ->); [by eapply lookup_weaken | done | done | done | congruence | done].
Qed.

(** What a task leaves. *)
Definition step_ok (root : Z) (k : collection) (run : option (unit * world W)) (m : Z -> Z) (w : Z) (fwd : gmap Z Z) : Prop :=
  exists m' s' b' q' T' fwd' bl' K' objs', run = Some (tt, ev m' s' b' q') /\
    drain_inv root k m' s' b' T' fwd' bl' K' objs' /\ stack_inv q' (word_of <$> T') /\ work T' fwd' < w /\ grows m m' fwd fwd'.

Lemma slot_step root k m s b q T p c fwd bl K objs :
  drain_inv root k m s b (TSlot p c :: T) fwd bl K objs -> stack_inv q (word_of <$> T) ->
  step_ok root k (copy_and_push p c RefQueue.element (ev m s b q)) m (work (TSlot p c :: T) fwd) fwd.
Proof.
  intros [Hgi Hri [? | Hro] Hc] Hs; [done |]. destruct (graph_target _ _ _ _ p Hgi) as (HvY & Hre & Hpo & Hp); [by left |].
  pose proof (y_bounds _ _ _ _ _ _ _ Hheap) as Hb. unfold step_ok, copy_and_push_safe_barrier.
  mrun (mem_load_run (ev m s b q) p). change (mem (ev m s b q) p) with (m p). mrun (is_forwarded_run (ev m s b q) (m p)).
  change (mem (ev m s b q)) with m. apply Forall_cons in Hc as [Hc1 Hc].
  assert (work (TSlot p c :: T) fwd = work T fwd + 1) as Ew by (unfold work; rewrite sum_of_cons; simpl; lia). rewrite Ew.
  destruct (fwd !! m p) as [v |] eqn:Hf.
  - destruct (forwarded_mark m fwd _ _ _ (g_heap _ _ _ _ Hgi) Hf) as (H1 & H2 & H3). rewrite H1.
    mrun (forwardee_run (ev m s b q) (m p)). change (mem (ev m s b q)) with m. rewrite H2. unfold store. rewrite M_modify_bind.
    change (set_mem (ev m s b q) (upd (mem (ev m s b q)) p v)) with (ev (upd m p v) s b q). rewrite barrier_none by done.
    exists (upd m p v), s, b, q, T, fwd, bl, K, objs. split; [done |]. split; [| split; [done |]; split; [lia |]; apply grows_upd; lia].
    split; [by eapply graph_fill | done | by right | done].
  - destruct (unforwarded_mark m fwd _ _ (g_heap _ _ _ _ Hgi) HvY Hf) as [_ Hm]. rewrite Hm.
    destruct (copy_element root k m s b q _ T fwd (m p) c bl K objs Hgi Hri Hro HvY Hf Hre Hc1 Hs)
      as (v & m' & s' & b' & q' & T1 & bl' & K' & objs' & Hrun & Hgi' & Hri' & Hro' & HK & Hc' & Hs' & Hw & Hgr).
    mrun Hrun. unfold store. rewrite M_modify_bind.
    change (set_mem (ev m' s' b' q') (upd (mem (ev m' s' b' q')) p v)) with (ev (upd m' p v) s' b' q').
    assert (graph_inv root m' (TSlot p c :: T1 ++ T) (<[m p := v]> fwd)) as Hgi2
      by (eapply graph_perm; [exact Hgi' | symmetry; apply Permutation_middle]).
    assert (m' p = m p) as Emp.
    { eapply pend_same; [apply Hgi | apply Hgi2 | apply Hgr | by left | by left]. }
    destruct (forwarded_mark m' (<[m p := v]> fwd) _ (m p) v (g_heap _ _ _ _ Hgi')) as (_ & _ & H3); [by rewrite lookup_insert_eq |].
    rewrite barrier_none by done. eexists _, s', b', q', (T1 ++ T), _, bl', K', objs'. split; [done |].
    split; [| split; [done |]; split].
    + split; [| done | by right |].
      * eapply graph_fill; [exact Hgi2 |]. rewrite Emp. by rewrite lookup_insert_eq.
      * apply Forall_app. split; [done |]. eapply Forall_impl; [exact Hc |]. intros t Ht. exact (lookup_weaken _ _ _ _ Ht HK).
    + unfold work. rewrite (left_insert _ fwd (m p) v HvY Hf), sum_of_app. lia.
    + eapply grows_trans; [exact Hgr | apply grows_upd; lia].
Qed.

(** ** Arrays in pieces *)

(** The elements of a piece that refer to the young generation are those that are pending. *)
Lemma chunk_filter m fwd P o n start end_ :
  heap_inv m fwd P -> fwd !! o = Some n -> is_array o -> 0 <= start <= end_ -> end_ <= array_length m0 o ->
  (forall p, p ∈ chunk_pend o n start end_ -> p ∈ P) ->
  filter (fun x => young <= m x) (array_slots n start end_) = chunk_pend o n start end_.
Proof.
  intros Hh Ho Harr Hr He Hin. pose proof (h_dom _ _ _ _ _ _ _ _ _ Hh o n Ho) as HoY. destruct (array_words o HoY Harr) as [Hw Hl].
  unfold array_slots. rewrite filter_fmap_comm. unfold chunk_pend in *. f_equal. apply filter_ext_in. intros j Hj.
  pose proof Hj as Hj'. apply elem_of_seqZ in Hj'.
  pose proof (h_copy _ _ _ _ _ _ _ _ _ Hh o n (3 + j) Ho ltac:(lia)) as Hc. unfold word_ok in Hc. unfold array_base in *.
  replace (n + 24 + 8 * j) with (n + 8 * (3 + j)) by lia. replace (o + 24 + 8 * j) with (o + 8 * (3 + j)) by lia.
  destruct (decide _) as [[_ Hy] |]; [| by rewrite Hc]. destruct Hc as [[_ ->] | [Hno _]]; [done |]. destruct Hno. apply Hin.
  apply list_elem_of_fmap. exists j. split; [lia |]. apply list_elem_of_filter. split; [| done].
  by replace (o + 24 + 8 * j) with (o + 8 * (3 + j)) by lia.
Qed.

Lemma chunk_slots_bounds n start end_ m fwd P o :
  heap_inv m fwd P -> fwd !! o = Some n -> is_array o -> 0 <= start -> end_ <= array_length m0 o ->
  NoDup (array_slots n start end_) /\ forall x, x ∈ array_slots n start end_ -> lo <= x < young.
Proof.
  intros Hh Ho Harr Hs He. pose proof (h_dom _ _ _ _ _ _ _ _ _ Hh o n Ho) as HoY. destruct (array_words o HoY Harr) as [Hw Hl].
  destruct (h_place _ _ _ _ _ _ _ _ _ Hh o n Ho) as (_ & H1 & H2). split.
  - unfold array_slots, array_base. apply NoDup_fmap; [intros x y; lia | apply NoDup_seqZ].
  - intros x (j & -> & Hj%elem_of_seqZ)%list_elem_of_fmap. unfold array_base. lia.
Qed.

Lemma length_chunk_pend o n start end_ : start <= end_ -> Z.of_nat (length (chunk_pend o n start end_)) <= end_ - start.
Proof.
  intros H. unfold chunk_pend. rewrite length_fmap.
  pose proof (length_filter (fun j => young <= m0 (array_base o + 8 * j)) (seqZ start (end_ - start))) as Hl.
  rewrite length_seqZ in Hl. lia.
Qed.

(** A piece of an array is claimed. *)
Lemma claim_chunk root m T fwd o n start end_ c s b q :
  heap_inv m fwd (chunk_pend o n start end_ ++ pends T) -> Forall (task_ok m fwd) T -> NoDup (omap array_of T) ->
  (forall p, p ∈ chunk_pend o n start end_ ++ pends T -> exists o n i, fwd !! o = Some n /\ 0 <= i < words o /\ p = n + 8 * i /\ reach root o) ->
  fwd !! o = Some n -> is_array o -> 0 <= start <= end_ -> end_ <= array_length m0 o -> stack_inv q (word_of <$> T) ->
  exists m' q' T1, claim_slots young (claim c) (array_slots n start end_) (ev m s b q) = Some (tt, ev m' s b q') /\
    graph_inv root m' (T1 ++ T) fwd /\ stack_inv q' (word_of <$> T1 ++ T) /\ Forall (fun t => cont_of t = c) T1 /\
    sum_of weight T1 <= end_ - start /\ grows m m' fwd fwd.
Proof.
  intros Hh Ht Ha Hr Ho Harr Hse He Hs. destruct (chunk_slots_bounds n start end_ _ _ _ o Hh Ho Harr) as [Hnd Hb]; [lia | done |].
  assert (filter (fun x => young <= m x) (array_slots n start end_) = chunk_pend o n start end_) as Ef.
  { eapply chunk_filter; try done. intros p Hp. apply elem_of_app. by left. }
  rewrite <- Ef in Hh. destruct (claim_slots_run c _ m s b q _ fwd (pends T) Hnd Hh Hs) as (m' & q' & pushed & Hrun & Hst & Hh' & Hsub & Hfr).
  rewrite Ef in Hsub. exists m', q', ((fun p => TSlot p c) <$> pushed). split; [done |].
  split; [| split; [| split; [| split]]].
  - split.
    + by rewrite pends_app, pends_slots.
    + apply Forall_app. split; [apply Forall_fmap, Forall_true; done |]. eapply tasks_frame; [exact Hh | done | done |].
      intros x _ Hx. apply Hfr. intros Hin%Hb. pose proof (y_addr _ _ _ _ _ _ _ Hheap x Hx). lia.
    + by rewrite omap_app, slots_arrays.
    + intros p. rewrite pends_app, pends_slots. intros [Hp | Hp]%elem_of_app; apply Hr, elem_of_app; [left | by right].
      by eapply elem_of_submseteq.
  - rewrite fmap_app, <- list_fmap_compose. done.
  - apply Forall_fmap, Forall_true. done.
  - rewrite slots_weight. apply submseteq_length in Hsub. pose proof (length_chunk_pend o n start end_). lia.
  - split; [done |]. intros x Hx. apply Hfr. intros Hin%Hb. pose proof (y_bounds _ _ _ _ _ _ _ Hheap). lia.
Qed.

(** The length of the original says how much of the array is left. *)
Lemma set_length_run m s b q o x :
  set_length o x (ev m s b q) = Some (tt, ev (upd m (o + 16) (set_length_word (m (o + 16)) x)) s b q).
Proof. done. Qed.

Lemma length_scribble m o w x : array_length (upd m (o + 16) (set_length_word w x)) o = i32 x.
Proof. unfold array_length, length_offset. by rewrite upd_eq, set_length_read. Qed.

Lemma graph_scribble root m T fwd o n len c x :
  graph_inv root m (TChunk o n len c :: T) fwd ->
  heap_inv (upd m (o + 16) x) fwd (chunk_pend o n 0 len ++ pends T) /\ Forall (task_ok (upd m (o + 16) x) fwd) T /\
  (o ∉ omap array_of T) /\ NoDup (omap array_of T) /\ grows m (upd m (o + 16) x) fwd fwd.
Proof.
  intros [Hh Ht Ha Hr]. apply Forall_cons in Ht as [(Ho & Harr & Hl & Hlen) Ht]. cbn in Ha. apply NoDup_cons in Ha as [Hno Ha].
  pose proof (h_dom _ _ _ _ _ _ _ _ _ Hh o n Ho) as HoY. destruct (array_words o HoY Harr) as [Hw _].
  pose proof (y_addr _ _ _ _ _ _ _ Hheap o HoY). pose proof (y_bounds _ _ _ _ _ _ _ Hheap).
  split; [| split; [| split; [done |]; split; [done |]; apply grows_upd; lia]].
  - apply (heap_scribble _ _ _ _ _ _ _ Hheap m fwd _ o n 2); [exact Hh | done | lia].
  - eapply tasks_frame; [exact Hh | done | done |]. intros o' Hin HoY'. apply upd_ne. intros E.
    assert (o' = o) as -> by lia. apply Hno. apply list_elem_of_omap.
    apply list_elem_of_fmap in Hin as (t & E' & Hin). by exists t.
Qed.

(** The claimed piece in the invariant. *)
Lemma chunk_done root k m m1 s b T T' o n start end_ c q fwd bl K objs w :
  room_inv s b fwd bl K objs -> rooted k root fwd objs -> Forall (fun t => K !! cont_of t = Some k) T' -> K !! c = Some k ->
  heap_inv m1 fwd (chunk_pend o n start end_ ++ pends T') -> Forall (task_ok m1 fwd) T' -> NoDup (omap array_of T') ->
  (forall p, p ∈ chunk_pend o n start end_ ++ pends T' -> p ∈ pends T) -> graph_inv root m T fwd -> grows m m1 fwd fwd ->
  fwd !! o = Some n -> is_array o -> 0 <= start <= end_ -> end_ <= array_length m0 o -> stack_inv q (word_of <$> T') ->
  work T' fwd + (end_ - start) < w ->
  step_ok root k (claim_slots young (claim c) (array_slots n start end_) (ev m1 s b q)) m w fwd.
Proof.
  intros Hri Hro Hc Hc1 Hh Ht Ha Hsub Hgi Hgr Ho Harr Hse He Hs Hw.
  destruct (claim_chunk root m1 T' fwd o n start end_ c s b q) as (m' & q' & T1 & Hrun & Hgi' & Hst & Hcont & Hwt & Hgr'); try done.
  { intros p Hp. apply (g_reach _ _ _ _ Hgi). by apply Hsub. }
  exists m', s, b, q', (T1 ++ T'), fwd, bl, K, objs. split; [done |]. split; [split; [done | done | by right |] | split; [done |]; split].
  - apply Forall_app. split; [| done]. eapply Forall_impl; [exact Hcont |]. by intros t ->.
  - unfold work in *. rewrite sum_of_app. lia.
  - by eapply grows_trans.
Qed.

Context (Hchunk : 0 < _array_chunk_size (pm w0) <= _min_array_size_for_chunking (pm w0)).
Context (Hmin : _min_array_size_for_chunking (pm w0) < 2 ^ 31).

Lemma chunk_step root k m s b q T o n len c fwd bl K objs :
  drain_inv root k m s b (TChunk o n len c :: T) fwd bl K objs -> stack_inv q (word_of <$> T) ->
  step_ok root k (process_bda_array_chunk young UseBiasedLocking N bda_heap bda_junk o c (ev m s b q)) m
    (work (TChunk o n len c :: T) fwd) fwd.
Proof.
  intros [Hgi Hri [? | Hro] Hc] Hs; [done |]. pose proof Hgi as [Hh Ht _ Hr]. apply Forall_cons in Ht as [(Ho & Harr & Hl & Hlen) _].
  pose proof (h_dom _ _ _ _ _ _ _ _ _ Hh o n Ho) as HoY. destruct (array_words o HoY Harr) as [Hw Hlm].
  apply Forall_cons in Hc as [Hc1 Hc]. cbn [cont_of] in Hc1.
  destruct (forwarded_mark m fwd _ _ _ Hh Ho) as (_ & Hfo & _). change (2 ^ 27) with 134217728 in Hlm.
  unfold process_bda_array_chunk. mrun (forwardee_run (ev m s b q) o). change (mem (ev m s b q)) with m. rewrite Hfo.
  mrun (length_run (ev m s b q) o). change (mem (ev m s b q)) with m. rewrite Hl, M_get_bind.
  change (pm (ev m s b q)) with (set_bdaref (set_lab (pm w0) b) q). cbn [_min_array_size_for_chunking _array_chunk_size set_bdaref set_lab].
  rewrite (swrap_small 32 (_min_array_size_for_chunking (pm w0))) by (change (2 ^ (32 - 1)) with (2 ^ 31); lia).
  assert (work (TChunk o n len c :: T) fwd = work T fwd + 2 * len + 1) as Ew by (unfold work; rewrite sum_of_cons; simpl; lia).
  rewrite Z.gtb_ltb, Ew. destruct (Z.ltb_spec (_min_array_size_for_chunking (pm w0)) len) as [Hbig | Hsmall].
  - set (start := len - _array_chunk_size (pm w0)).
    assert (i32 start = start) as Es by (apply swrap_small; change (2 ^ (32 - 1)) with 2147483648; unfold start; lia).
    rewrite Es, M_bind_assoc. mrun (set_length_run m s b q o start).
    destruct (graph_scribble _ _ _ _ _ _ _ _ (set_length_word (m (o + 16)) start) Hgi) as (Hh1 & Ht1 & Hno & Ha1 & Hgr).
    set (m1 := upd m (o + 16) (set_length_word (m (o + 16)) start)) in *.
    destruct (task_push_run m1 s b q _ (mask_chunked_array_oop o) c Hs) as (q1 & Hpush & Hs1). rewrite M_bind_assoc. mrun Hpush.
    rewrite M_ret_bind. assert (0 <= start <= len) as Hst by (unfold start; lia).
    eapply (chunk_done root k m m1 s b (TChunk o n len c :: T) (TChunk o n start c :: T)); try done; try lia.
    + by constructor.
    + eapply heap_perm; [exact Hh1 |]. rewrite (chunk_pend_split o n start len Hst). unfold pends. cbn. solve_Permutation.
    + constructor; [| done]. simpl. split; [done |]. split; [done |]. unfold m1. rewrite length_scribble, Es. lia.
    + cbn. by apply NoDup_cons.
    + intros p. unfold pends. cbn. rewrite (chunk_pend_split o n start len Hst), !elem_of_app. tauto.
    + unfold work. rewrite sum_of_cons. simpl. unfold start. lia.
  - rewrite M_bind_assoc. mrun (length_run (ev m s b q) n). rewrite M_bind_assoc. erewrite M_bind_Some by apply set_length_run.
    rewrite M_ret_bind. destruct (graph_scribble _ _ _ _ _ _ _ _ (set_length_word (m (o + 16)) (array_length m n)) Hgi) as (Hh1 & Ht1 & Hno & Ha1 & Hgr).
    eapply (chunk_done root k m _ s b (TChunk o n len c :: T) T); try done; lia.
Qed.

Local Abbreviation process := (process_popped_bdaref_depth g klasses intArrayKlass objectKlass young is_in_reserved
  UseBiasedLocking PSChunkLargeArrays PLAB N bda_heap bda_junk star_heap star_junk).

Lemma process_step root k m s b q T t fwd bl K objs :
  drain_inv root k m s b (t :: T) fwd bl K objs -> stack_inv q (word_of <$> T) ->
  step_ok root k (process (word_of t) (ev m s b q)) m (work (t :: T) fwd) fwd.
Proof.
  intros Hd Hs. unfold process_popped_bdaref_depth. destruct t as [p c | o n len c]; cbn [word_of _holder _task_container BDARefTask_oop].
  - destruct (graph_target _ _ _ _ p (d_graph _ _ _ _ _ _ _ _ _ _ Hd)) as (_ & _ & Hp & _); [by left |].
    unfold StarTask_oop, as_oop. rewrite slot_unmasked by done. by eapply slot_step.
  - destruct Hd as [Hgi ? ? ?]. pose proof Hgi as [Hh Ht _ _]. apply Forall_cons in Ht as [(Ho & _) _].
    destruct (y_addr _ _ _ _ _ _ _ Hheap o (h_dom _ _ _ _ _ _ _ _ _ Hh o n Ho)) as (Hoo & _).
    unfold StarTask_oop, as_oop. destruct (mask_codec o Hoo) as [-> ->]. by eapply chunk_step.
Qed.

(** ** The loops *)

(** The work of a root, from memory [mS] with [fS] copied: [l] in the queue and [st] on the stack. *)
Definition draining (root : Z) (k : collection) (mS : Z -> Z) (fS : gmap Z Z) (l st : list BDARefTask) (i : nat) (w : world W) : Prop :=
  exists m s b q T fwd bl K objs, w = ev m s b q /\ drain_inv root k m s b T fwd bl K objs /\
    OverflowQueue.repr N sz q l st /\ l ++ st ≡ₚ word_of <$> T /\ i = Z.to_nat (work T fwd) /\ grows mS m fS fwd.

Lemma work_nonneg T fwd m : Forall (task_ok m fwd) T -> 0 <= work T fwd.
Proof.
  intros Ht. unfold work. assert (0 <= left (fun o => 2 * words o + 2) fwd).
  { apply left_nonneg. intros o Ho. pose proof (object_words _ _ _ _ _ _ _ Hheap o Ho). lia. }
  assert (0 <= sum_of weight T); [| lia]. apply sum_of_nonneg. intros t Hin. rewrite Forall_forall in Ht. specialize (Ht t Hin).
  destruct t; simpl in *; lia.
Qed.

Lemma drain_perm root k m s b T T' fwd bl K objs :
  drain_inv root k m s b T fwd bl K objs -> T ≡ₚ T' -> drain_inv root k m s b T' fwd bl K objs.
Proof.
  intros [Hgi Hri Hro Hc] E. split; [by eapply graph_perm | done | | by rewrite <- E].
  destruct Hro as [-> | ?]; [left; by apply Permutation_nil_l in E | by right].
Qed.

Lemma turn_task root k mS fS m s b q T fwd bl K objs x ts :
  drain_inv root k m s b T fwd bl K objs -> word_of <$> T ≡ₚ x :: ts -> stack_inv q ts -> grows mS m fS fwd ->
  exists w', (process x;; mret true) (ev m s b q) = Some (true, w') /\
    exists i l st, (i < Z.to_nat (work T fwd))%nat /\ draining root k mS fS l st i w'.
Proof.
  intros Hd Hx Hs Hgr. assert (x ∈ word_of <$> T) as Hin by (rewrite Hx; by left).
  apply list_elem_of_fmap in Hin as (t & -> & Hin). apply elem_of_Permutation in Hin as [T' HT].
  pose proof (drain_perm _ _ _ _ _ _ _ _ _ _ _ Hd HT) as Hd'.
  rewrite HT, fmap_cons in Hx. apply (Permutation_cons_inv (a := word_of t)) in Hx.
  assert (stack_inv q (word_of <$> T')) as Hs' by (destruct Hs as (l & st & Hrep & Hp); exists l, st; by rewrite Hx).
  destruct (process_step root k m s b q T' t fwd bl K objs Hd' Hs')
    as (m1 & s1 & b1 & q1 & T1 & fwd1 & bl1 & K1 & objs1 & Hrun & Hd1 & (l & st & Hrep & Hp) & Hw & Hgr1).
  mrun Hrun. eexists. split; [done |]. exists (Z.to_nat (work T1 fwd1)), l, st. split.
  - assert (work T fwd = work (t :: T') fwd) as -> by (unfold work; f_equal; by apply sum_of_perm).
    pose proof (work_nonneg _ _ _ (g_tasks _ _ _ _ (d_graph _ _ _ _ _ _ _ _ _ _ Hd1))). lia.
  - exists m1, s1, b1, q1, T1, fwd1, bl1, K1, objs1. split_and!; try done. by eapply grows_trans.
Qed.

Local Abbreviation turn pop := (drain_turn g klasses intArrayKlass objectKlass young is_in_reserved UseBiasedLocking
  PSChunkLargeArrays PLAB N bda_heap bda_junk star_heap star_junk pop).

Lemma pop_overflow_run m s b q l st :
  OverflowQueue.repr N sz q l st ->
  exists q', pop_bda_overflow (ev m s b q) = Some (head st, ev m s b q') /\ OverflowQueue.repr N sz q' l (tail st).
Proof.
  intros Hr. destruct (OverflowQueue.pop_overflow_repr N sz Hsz q l st Hr) as (q' & Hq & Hr'). exists q'. split; [| done].
  unfold pop_bda_overflow. change (_bdaref_stack (pm (ev m s b q))) with q. by rewrite Hq.
Qed.

Lemma pop_local_run m s b q l st :
  OverflowQueue.repr N sz q l st ->
  exists q', pop_bda_local N (ev m s b q) = Some (last l, ev m s b q') /\
    OverflowQueue.repr N sz q' (take (length l - 1) l) st.
Proof.
  intros Hr. destruct (OverflowQueue.pop_local_repr lg N Hlg HN sz q l st Hr) as (q' & Hq & Hr'). exists q'. split; [| done].
  unfold pop_bda_local. change (_bdaref_stack (pm (ev m s b q))) with q. by rewrite Hq.
Qed.

Section Loops.
Context (root : Z) (k : collection) (mS : Z -> Z) (fS : gmap Z Z).
Local Abbreviation draining := (draining root k mS fS).

(** Either the loop had something to do, and there is less work, or nothing changes. *)
Lemma overflow_loop l st i w :
  draining l st i w -> (i < 2 ^ 64)%nat ->
  exists w', while_m 64 (turn pop_bda_overflow) w = Some (tt, w') /\
    exists l' i', draining l' [] i' w' /\ ((i' < i)%nat \/ i' = i /\ l' = l /\ st = []).
Proof.
  intros Hd Hi.
  apply (while_m_rule 64 _
    (fun i1 w1 => exists l1 st1, draining l1 st1 i1 w1 /\ ((i1 < i)%nat \/ i1 = i /\ l1 = l /\ st1 = st))
    (fun w' => exists l' i', draining l' [] i' w' /\ ((i' < i)%nat \/ i' = i /\ l' = l /\ st = []))) with (i := i); [| | done].
  2: { exists l, st. split; [done | by right]. }
  clear w Hd Hi. intros i1 w (l1 & st1 & (m & s & b & q & T & fwd & bl & K & objs & -> & Hd & Hrep & Hp & -> & Hgr) & Hlt).
  unfold drain_turn. destruct (pop_overflow_run m s b q l1 st1 Hrep) as (q' & Hpop & Hrep'). rewrite (M_bind_Some _ _ _ _ _ Hpop).
  destruct st1 as [| x st1]; cbn [head tail] in *.
  - exists false. eexists. split; [done |]. exists l1, (Z.to_nat (work T fwd)). split; [| naive_solver].
    by exists m, s, b, q', T, fwd, bl, K, objs.
  - edestruct (turn_task root k mS fS m s b q' T fwd bl K objs x (l1 ++ st1)) as (w' & Hrun & i2 & l2 & st2 & Hi2 & Hd2); try done.
    { rewrite <- Hp. symmetry. apply Permutation_middle. }
    { by exists l1, st1. }
    exists true, w'. split; [done |]. exists i2. split; [done |]. exists l2, st2. split; [done |]. left. lia.
Qed.

Lemma local_loop l st i w :
  draining l st i w -> (i < 2 ^ 64)%nat ->
  exists w', while_m 64 (turn (pop_bda_local N)) w = Some (tt, w') /\
    exists st' i', draining [] st' i' w' /\ ((i' < i)%nat \/ i' = i /\ l = [] /\ st' = st).
Proof.
  intros Hd Hi.
  apply (while_m_rule 64 _
    (fun i1 w1 => exists l1 st1, draining l1 st1 i1 w1 /\ ((i1 < i)%nat \/ i1 = i /\ l1 = l /\ st1 = st))
    (fun w' => exists st' i', draining [] st' i' w' /\ ((i' < i)%nat \/ i' = i /\ l = [] /\ st' = st))) with (i := i); [| | done].
  2: { exists l, st. split; [done | by right]. }
  clear w Hd Hi. intros i1 w (l1 & st1 & (m & s & b & q & T & fwd & bl & K & objs & -> & Hd & Hrep & Hp & -> & Hgr) & Hlt).
  unfold drain_turn. destruct (pop_local_run m s b q l1 st1 Hrep) as (q' & Hpop & Hrep'). rewrite (M_bind_Some _ _ _ _ _ Hpop).
  destruct (last l1) as [x |] eqn:Hlast.
  - apply last_Some in Hlast as [l2 ->]. rewrite length_app, Nat.add_sub, take_app_length in Hrep'.
    edestruct (turn_task root k mS fS m s b q' T fwd bl K objs x (l2 ++ st1)) as (w' & Hrun & i2 & l3 & st3 & Hi2 & Hd2); try done.
    { rewrite <- Hp, <- app_assoc. symmetry. apply Permutation_middle. }
    { by exists l2, st1. }
    exists true, w'. split; [done |]. exists i2. split; [done |]. exists l3, st3. split; [done |]. left. lia.
  - apply last_None in Hlast as ->. exists false. eexists. split; [done |]. exists st1, (Z.to_nat (work T fwd)). split; [| naive_solver].
    by exists m, s, b, q', T, fwd, bl, K, objs.
Qed.

Local Abbreviation drain_bda_stacks := (drain_bda_stacks g klasses intArrayKlass objectKlass young is_in_reserved
  UseBiasedLocking PSChunkLargeArrays PLAB N bda_heap bda_junk star_heap star_junk).

Lemma drain_loop l st i w :
  draining l st i w -> (i < 2 ^ 64)%nat ->
  exists w', drain_bda_stacks w = Some (tt, w') /\ exists i', draining [] [] i' w'.
Proof.
  intros Hd Hi. unfold PromotionManager.drain_bda_stacks.
  apply (while_m_rule 64 _ (fun i1 w1 => (i1 < 2 ^ 64)%nat /\ exists l1 st1, draining l1 st1 i1 w1)
    (fun w' => exists i', draining [] [] i' w')) with (i := i); [| split; [done |]; by exists l, st | done].
  clear w i l st Hd Hi. intros i w [Hi (l & st & Hd)].
  destruct (overflow_loop l st i w Hd Hi) as (w1 & Hrun1 & l1 & i1 & Hd1 & Hc1). rewrite (M_bind_Some _ _ _ _ _ Hrun1).
  assert (i1 <= i)%nat as Hle1 by (clear - Hc1; lia).
  destruct (local_loop l1 [] i1 w1 Hd1) as (w2 & Hrun2 & st2 & i2 & Hd2 & Hc2); [exact (Nat.le_lt_trans _ _ _ Hle1 Hi) |].
  rewrite (M_bind_Some _ _ _ _ _ Hrun2), M_get_bind. pose proof Hd2 as (m & s & b & q & T & fwd & bl & K & objs & -> & _ & Hrep & _).
  change (_bdaref_stack (pm (ev m s b q))) with q. rewrite <- negb_andb. fold (OverflowQueue.is_empty N q).
  rewrite (OverflowQueue.is_empty_repr lg N Hlg HN sz Hsz q _ _ Hrep). eexists _, _. split; [done |].
  case_bool_decide as Hemp; cbn [negb].
  - destruct Hemp as [_ ->]. by exists i2.
  - assert (st2 <> []) as Hne by (intros ->; by destruct Hemp). assert (i2 < i)%nat as Hlt by (clear - Hc1 Hc2 Hne; naive_solver lia).
    exists i2. split; [exact Hlt |]. split; [exact (Nat.lt_trans _ _ _ Hlt Hi) |]. by exists [], st2.
Qed.

End Loops.
End World.

(** ** How much there is *)

(** The objects do not overlap, so they have no more words than there are. *)
Lemma total_words : sum_of words (elements Y) <= 2 ^ 61.
Proof.
  set (ws l := l ≫= fun o => (fun i => o / 8 + i) <$> seqZ 0 (words o)).
  assert (forall l, NoDup l -> (forall o, o ∈ l -> o ∈ Y) ->
    NoDup (ws l) /\ Z.of_nat (length (ws l)) = sum_of words l /\
    (forall x, x ∈ ws l -> exists o i, o ∈ l /\ 0 <= i < words o /\ x = o / 8 + i)) as Hws.
  { induction l as [| o l IH]; intros Hnd Hl; [split; [constructor |]; split; [done |]; by intros x ?%elem_of_nil |].
    apply NoDup_cons in Hnd as [Hno Hnd]. destruct (IH Hnd) as (H1 & H2 & H3); [intros o' Ho'; apply Hl; by right |].
    assert (o ∈ Y) as HoY by (apply Hl; by left). pose proof (object_words _ _ _ _ _ _ _ Hheap o HoY).
    destruct (y_addr _ _ _ _ _ _ _ Hheap o HoY) as ([_ Hm] & _). 
    assert (ws (o :: l) = ((fun i => o / 8 + i) <$> seqZ 0 (words o)) ++ ws l) as -> by done. split; [| split].
    - apply NoDup_app. split; [apply NoDup_fmap; [intros x y; lia | apply NoDup_seqZ] |]. split; [| done].
      intros x (i & -> & Hi%elem_of_seqZ)%list_elem_of_fmap (o' & i' & Ho' & Hi' & E)%H3.
      assert (o' ∈ Y) as HoY' by (apply Hl; by right). assert (o <> o') as Hne by (intros ->; done).
      destruct (y_addr _ _ _ _ _ _ _ Hheap o' HoY') as ([_ Hm'] & _).
      destruct (y_apart _ _ _ _ _ _ _ Hheap o o' HoY HoY' Hne); lia.
    - rewrite length_app, length_fmap, length_seqZ, sum_of_cons. lia.
    - intros x [(i & -> & Hi%elem_of_seqZ)%list_elem_of_fmap | (o' & i & Ho' & Hi & ->)%H3]%elem_of_app.
      + exists o, i. split; [by left |]. lia.
      + exists o', i. split; [by right |]. done. }
  destruct (Hws (elements Y)) as (H1 & <- & H3); [apply NoDup_elements | by intros o ?%elem_of_elements |].
  apply (nodup_range _ 0); [lia | done |]. intros x (o & i & Ho%elem_of_elements & Hi & ->)%H3.
  destruct (y_addr _ _ _ _ _ _ _ Hheap o Ho) as ([[? _] ?] & _ & ?). pose proof (y_bounds _ _ _ _ _ _ _ Hheap).
  change (2 ^ 61) with (2 ^ 64 / 8). lia.
Qed.

Lemma work_bound fwd : 0 <= left (fun o => 2 * words o + 2) fwd < 2 ^ 64.
Proof.
  split; [apply left_nonneg; intros o Ho; pose proof (object_words _ _ _ _ _ _ _ Hheap o Ho); lia |].
  assert (left (fun o => 2 * words o + 2) fwd <= sum_of (fun o => 3 * words o) (elements Y)) as Hle.
  { unfold left. rewrite sum_of_filter. apply sum_of_le. intros o Ho%elem_of_elements.
    pose proof (object_words _ _ _ _ _ _ _ Hheap o Ho). case_decide; lia. }
  rewrite sum_of_scale in Hle. pose proof total_words. change (2 ^ 64) with (8 * 2 ^ 61). lia.
Qed.

(** ** References of the queue *)

(** The reference of a [Ref], whose object was at [ro], after it was processed. *)
Definition resolved (m : Z -> Z) (fwd : gmap Z Z) (r ro : Z) : Prop :=
  if decide (young <= ro) then fwd !! ro = Some (m (r + 8)) else m (r + 8) = ro.

Lemma graph_idle root m fwd : heap_inv m fwd [] -> graph_inv root m [] fwd.
Proof. intros Hh. split; [done | constructor | constructor | by intros p ?%elem_of_nil]. Qed.

(** Memory of the [Ref] is not in the generations. *)
Lemma graph_outside root m T fwd a x :
  graph_inv root m T fwd -> a < lo \/ hi <= a -> graph_inv root (upd m a x) T fwd.
Proof.
  intros Hgi Ha. eapply graph_frame; [done |]. intros y Hy. apply upd_ne. intros ->.
  destruct Hy as [(o & i & Ho & Hi & ->) | (o & n & i & Ho & Hi & ->)].
  - pose proof (y_addr _ _ _ _ _ _ _ Hheap o Ho). pose proof (y_bounds _ _ _ _ _ _ _ Hheap). lia.
  - destruct (h_place _ _ _ _ _ _ _ _ _ (g_heap _ _ _ _ Hgi) o n Ho) as (_ & ? & ?).
    pose proof (y_bounds _ _ _ _ _ _ _ Hheap). lia.
Qed.

Section Root.
Context (w1 : world W).
Context (Hchunk : 0 < _array_chunk_size (pm w1) <= _min_array_size_for_chunking (pm w1)).
Context (Hmin : _min_array_size_for_chunking (pm w1) < 2 ^ 31).
Local Abbreviation ev := (evolve w1).
Local Abbreviation root_task := (process_dequeued_bdaroot g klasses intArrayKlass objectKlass young is_in_reserved
  UseBiasedLocking PSChunkLargeArrays PLAB N bda_heap bda_junk star_heap star_junk).
Local Abbreviation drain := (drain_bda_stacks g klasses intArrayKlass objectKlass young is_in_reserved
  UseBiasedLocking PSChunkLargeArrays PLAB N bda_heap bda_junk star_heap star_junk).

(** The object of a [Ref] is copied, unless it is old or was copied before. *)
Lemma root_copied m s b q fwd bl K objs r reg :
  heap_inv m fwd [] -> room_inv s b fwd bl K objs -> stack_inv q [] -> m (r + 16) = reg -> (m (r + 8), reg) ∈ roots ->
  (young <= m (r + 8) -> m (r + 8) ∈ Y /\ served reg) -> r + 24 <= lo \/ hi <= r ->
  exists m1 s1 b1 q1 T1 fwd1 bl1 K1 objs1 root k, root_task r (ev m s b q) = Some (tt, ev m1 s1 b1 q1) /\
    drain_inv root k m1 s1 b1 T1 fwd1 bl1 K1 objs1 /\ stack_inv q1 (word_of <$> T1) /\ work T1 fwd1 <= work [] fwd /\
    resolved m1 fwd1 r (m (r + 8)) /\ fwd ⊆ fwd1 /\ (forall x, x < lo \/ hi <= x -> x <> r + 8 -> m1 x = m x).
Proof.
  intros Hh Hri Hs Hreg Hin HY Hr. unfold process_dequeued_bdaroot, ref_addr.
  mrun (should_scavenge_run (ev m s b q) (r + 8)). change (mem (ev m s b q)) with m.
  mrun (mem_load_run (ev m s b q) (r + 16)). change (mem (ev m s b q)) with m. rewrite Hreg. unfold resolved.
  destruct (decide (young <= m (r + 8))) as [Hy | Hy].
  2: { rewrite in_young_false, when_false by lia. exists m, s, b, q, [], fwd, bl, K, objs, 0, (0, 0). split; [done |].
       split; [split; [by apply graph_idle | done | by left | constructor] |]. by split_and!. }
  destruct (HY Hy) as [HvY Hser]. rewrite in_young_true, when_true by done. unfold copy_and_push_safe_barrier.
  mrun (mem_load_run (ev m s b q) (r + 8)). change (mem (ev m s b q) (r + 8)) with (m (r + 8)).
  mrun (is_forwarded_run (ev m s b q) (m (r + 8))). change (mem (ev m s b q)) with m.
  assert (forall m1 v x, (forall x, x < lo \/ hi <= x -> m1 x = m x) -> x < lo \/ hi <= x -> x <> r + 8 ->
    upd m1 (r + 8) v x = m x) as Hout by (intros m1 v x Hm1 Hx Hne; rewrite upd_ne by done; by apply Hm1).
  destruct (fwd !! m (r + 8)) as [v |] eqn:Hf.
  - destruct (forwarded_mark m fwd _ _ _ Hh Hf) as (H1 & H2 & H3). rewrite H1.
    mrun (forwardee_run (ev m s b q) (m (r + 8))). change (mem (ev m s b q)) with m. rewrite H2. unfold store. rewrite M_modify_bind.
    change (set_mem (ev m s b q) (upd (mem (ev m s b q)) (r + 8) v)) with (ev (upd m (r + 8) v) s b q). rewrite barrier_none by done.
    eexists _, s, b, q, [], fwd, bl, K, objs, 0, (0, 0). split; [done |].
    split; [split; [apply graph_outside; [by apply graph_idle | lia] | done | by left | constructor] |].
    split; [done |]. split; [done |]. rewrite upd_eq. split; [done |]. split; [done |]. intros x. by apply Hout.
  - destruct (unforwarded_mark m fwd _ _ Hh HvY Hf) as [_ Hm]. rewrite Hm.
    destruct (copy_root w1 m s b q fwd (m (r + 8)) reg bl K objs (graph_idle _ _ _ Hh) Hri HvY Hf Hin Hser Hs)
      as (v & c & m1 & s1 & b1 & q1 & T1 & bl1 & K1 & objs1 & Hrun & Hgi & Hri1 & Hro & _ & Hc & Hs1 & Hw & Hsub & Hgr).
    mrun Hrun. unfold store. rewrite M_modify_bind.
    change (set_mem (ev m1 s1 b1 q1) (upd (mem (ev m1 s1 b1 q1)) (r + 8) v)) with (ev (upd m1 (r + 8) v) s1 b1 q1).
    destruct (forwarded_mark m1 (<[m (r + 8) := v]> fwd) _ (m (r + 8)) v (g_heap _ _ _ _ Hgi)) as (_ & _ & H3); [by rewrite lookup_insert_eq |].
    rewrite barrier_none by done.
    eexists _, s1, b1, q1, T1, _, bl1, K1, objs1, (m (r + 8)), (c, reg). split; [done |].
    split; [split; [apply graph_outside; [done | lia] | done | by right | done] |]. split; [done |]. split.
    { unfold work. rewrite (left_insert _ fwd (m (r + 8)) v HvY Hf). unfold sum_of at 2. simpl. lia. }
    rewrite upd_eq, lookup_insert_eq. split; [done |]. split; [done |]. intros x. by apply Hout.
Qed.

Lemma resolved_mono m m' fwd fwd' r ro : resolved m fwd r ro -> fwd ⊆ fwd' -> m' (r + 8) = m (r + 8) -> resolved m' fwd' r ro.
Proof. unfold resolved. intros Hr Hsub ->. destruct (decide _); [by eapply lookup_weaken | done]. Qed.

(** And so is all that can be reached from it. *)
Lemma root_step m s b q fwd bl K objs r reg :
  heap_inv m fwd [] -> room_inv s b fwd bl K objs -> stack_inv q [] -> m (r + 16) = reg -> (m (r + 8), reg) ∈ roots ->
  (young <= m (r + 8) -> m (r + 8) ∈ Y /\ served reg) -> r + 24 <= lo \/ hi <= r ->
  exists m' s' b' q' fwd' bl' K' objs', (root_task r;; drain;; mret true) (ev m s b q) = Some (true, ev m' s' b' q') /\
    heap_inv m' fwd' [] /\ room_inv s' b' fwd' bl' K' objs' /\ stack_inv q' [] /\
    resolved m' fwd' r (m (r + 8)) /\ fwd ⊆ fwd' /\ (forall x, x < lo \/ hi <= x -> x <> r + 8 -> m' x = m x).
Proof.
  intros Hh Hri Hs Hreg Hin HY Hr.
  destruct (root_copied m s b q fwd bl K objs r reg Hh Hri Hs Hreg Hin HY Hr)
    as (m1 & s1 & b1 & q1 & T1 & fwd1 & bl1 & K1 & objs1 & root & k & Hrun & Hd & (l & st & Hrep & Hp) & Hw & Hres & Hsub & Hout).
  mrun Hrun. destruct (drain_loop w1 Hchunk Hmin root k m1 fwd1 l st (Z.to_nat (work T1 fwd1)) (ev m1 s1 b1 q1))
    as (w' & Hdr & i' & (m' & s' & b' & q' & T' & fwd' & bl' & K' & objs' & -> & [Hgi Hri' _ _] & Hrep' & Hp' & _ & Hsub' & Hout')).
  { exists m1, s1, b1, q1, T1, fwd1, bl1, K1, objs1. by split_and!. }
  { apply to_nat_below. pose proof (work_bound fwd) as Hb. change (work [] fwd) with (left (fun o => 2 * words o + 2) fwd + 0) in Hw.
    split; [apply (work_nonneg _ _ m1), Hd |]. change (2 ^ Z.of_nat 64) with (2 ^ 64). lia. }
  mrun Hdr. apply Permutation_nil_l in Hp'. symmetry in Hp'. apply fmap_nil_inv in Hp' as ->.
  exists m', s', b', q', fwd', bl', K', objs'. split; [done |]. split; [apply Hgi |]. split; [done |]. split; [by exists [], [] |].
  assert (r + 8 < lo \/ hi <= r + 8) as Hr8 by lia.
  split; [eapply resolved_mono; [done | done | by apply Hout'] |]. split; [by etrans |].
  intros x Hx Hne. rewrite Hout' by done. by apply Hout.
Qed.

End Root.

(** ** The queue *)

Lemma ref_view_lookup (w : world W) a :
  a ∈ ref_addrs w -> ref_view w !! a = Some (RefQueue.mkRef (mem w a) (mem w (a + 8)) (mem w (a + 16))).
Proof.
  unfold ref_view. induction (ref_addrs w) as [| x l IH]; [by intros ?%elem_of_nil |]. cbn. intros Ha.
  destruct (decide (x = a)) as [-> | Hne]; [by rewrite lookup_insert_eq |]. rewrite lookup_insert_ne by done.
  apply IH. apply elem_of_cons in Ha as [-> |]; done.
Qed.

Lemma ref_view_addr (w : world W) a x : ref_view w !! a = Some x -> a ∈ ref_addrs w.
Proof.
  unfold ref_view. induction (ref_addrs w) as [| y l IH]; cbn; [by rewrite lookup_empty |].
  destruct (decide (y = a)) as [-> | Hne]; [by left |]. rewrite lookup_insert_ne by done. right. by apply IH.
Qed.

Lemma chain_addr h l vs a : RefQueue.chain h l vs -> a ∈ l -> is_Some (h !! a).
Proof.
  revert vs. induction l as [| b l IH]; intros [| [o r] vs] Hc Ha; [by apply elem_of_nil in Ha.. | done |].
  destruct Hc as [Hb Hc]. apply elem_of_cons in Ha as [-> | Ha]; [by eexists | by eapply IH].
Qed.

Section Queue.
Context (w0 : world W).
Context (Hchunk : 0 < _array_chunk_size (pm w0) <= _min_array_size_for_chunking (pm w0)).
Context (Hmin : _min_array_size_for_chunking (pm w0) < 2 ^ 31).
Context (Hm0 : mem w0 = m0).
Context (refs : list Z) (Hq : RefQueue.repr (ref_view w0) (refqueue w0) refs roots).
Context (Hrefs : forall r, r ∈ ref_addrs w0 -> 0 < r < 2 ^ 64 /\ (r + 24 <= lo \/ hi <= r)).
Context (Hsep : forall r r', r ∈ ref_addrs w0 -> r' ∈ ref_addrs w0 -> r <> r' -> r + 24 <= r' \/ r' + 24 <= r).
Context (Hroots : forall ro reg, (ro, reg) ∈ roots -> young <= ro -> ro ∈ Y /\ served reg).

(** The [Ref]s of [seen], with the objects and regions [vs], were processed; those of [l] are left. *)
Record roots_inv (seen : list Z) (vs : list (Z * Z)) (l : list Z) (lvs : list (Z * Z)) (rq : RefQueue.RefQueue)
    (m : Z -> Z) (s : W) (b : PromotionLAB.BDAOldPromotionLAB) (q : OverflowQueue.OverflowTaskQueue BDARefTask)
    (fwd : gmap Z Z) (bl : list block) (K : gmap Z collection) (objs : list block) : Prop := {
  ri_refs : refs = seen ++ l;
  ri_roots : roots = vs ++ lvs;
  ri_queue : RefQueue.repr (ref_view w0) rq l lvs;
  ri_heap : heap_inv m fwd [];
  ri_room : room_inv s b fwd bl K objs;
  ri_stack : stack_inv q [];
  ri_seen : Forall2 (fun r v => resolved m fwd r (fst v)) seen vs;
  ri_out : forall x, x < lo \/ hi <= x -> (forall r, r ∈ seen -> x <> r + 8) -> m x = m0 x
}.

Lemma refs_addr r : r ∈ refs -> r ∈ ref_addrs w0.
Proof using All.
  intros Hr. destruct (chain_addr _ _ _ r (RefQueue.rq_chain _ _ _ _ Hq) Hr) as [x Hx]. by eapply ref_view_addr.
Qed.

(** The [Ref]s that are left are as they were. *)
Lemma left_refs seen vs l lvs rq m s b q fwd bl K objs a d :
  roots_inv seen vs l lvs rq m s b q fwd bl K objs -> a ∈ l -> d = 0 \/ d = 8 \/ d = 16 -> m (a + d) = m0 (a + d).
Proof using All.
  intros Hi Ha Hd. pose proof (ri_refs _ _ _ _ _ _ _ _ _ _ _ _ _ Hi) as E.
  assert (a ∈ refs) as Har by (rewrite E; apply elem_of_app; by right).
  destruct (Hrefs a (refs_addr a Har)) as [_ Ho]. apply (ri_out _ _ _ _ _ _ _ _ _ _ _ _ _ Hi); [lia |]. intros r Hr Ed.
  assert (r ∈ refs) as Hrr by (rewrite E; apply elem_of_app; by left).
  assert (a <> r) as Hne.
  { intros ->. pose proof (RefQueue.rq_nodup _ _ _ _ Hq) as Hnd. rewrite E in Hnd. apply NoDup_app in Hnd as (_ & Hnd & _). by eapply Hnd. }
  destruct (Hsep a r (refs_addr a Har) (refs_addr r Hrr) Hne); lia.
Qed.

Lemma left_queue seen vs l lvs rq m s b q fwd bl K objs :
  roots_inv seen vs l lvs rq m s b q fwd bl K objs -> RefQueue.repr (ref_view (evolve (set_refqueue w0 rq) m s b q)) rq l lvs.
Proof using All.
  intros Hi. pose proof (ri_queue _ _ _ _ _ _ _ _ _ _ _ _ _ Hi) as [H1 H2 H3 H4 H5]. split; try done.
  eapply RefQueue.chain_ext; [| exact H3]. intros a Ha.
  assert (a ∈ ref_addrs w0) as Haddr.
  { apply refs_addr. rewrite (ri_refs _ _ _ _ _ _ _ _ _ _ _ _ _ Hi). apply elem_of_app. by right. }
  rewrite !ref_view_lookup by done. rewrite Hm0. change (mem (evolve _ m s b q)) with m.
  rewrite <- (left_refs _ _ _ _ _ _ _ _ _ _ _ _ _ a 8 Hi Ha), <- (left_refs _ _ _ _ _ _ _ _ _ _ _ _ _ a 16 Hi Ha) by auto.
  pose proof (left_refs _ _ _ _ _ _ _ _ _ _ _ _ _ a 0 Hi Ha) as E. rewrite Z.add_0_r in E. by rewrite E by auto.
Qed.

Local Abbreviation roots_do_it := (roots_do_it g klasses intArrayKlass objectKlass young is_in_reserved
  UseBiasedLocking PSChunkLargeArrays PLAB N bda_heap bda_junk star_heap star_junk).

(** What the loop over the queue keeps. *)
Definition at_roots (i : nat) (w : world W) : Prop :=
  exists seen vs l lvs rq m s b q fwd bl K objs, w = evolve (set_refqueue w0 rq) m s b q /\ i = length l /\
    roots_inv seen vs l lvs rq m s b q fwd bl K objs.

(** One reference of the queue. *)
Lemma roots_step seen vs a l v lvs rq rq' m s b q fwd bl K objs :
  roots_inv seen vs (a :: l) (v :: lvs) rq m s b q fwd bl K objs -> RefQueue.repr (ref_view w0) rq' l lvs ->
  m (a + 8) = fst v -> m (a + 16) = snd v ->
  exists w', (process_dequeued_bdaroot g klasses intArrayKlass objectKlass young is_in_reserved
      UseBiasedLocking PSChunkLargeArrays PLAB N bda_heap bda_junk star_heap star_junk a;;
    drain_bda_stacks g klasses intArrayKlass objectKlass young is_in_reserved
      UseBiasedLocking PSChunkLargeArrays PLAB N bda_heap bda_junk star_heap star_junk;; mret true)
    (evolve (set_refqueue w0 rq') m s b q) = Some (true, w') /\ at_roots (length l) w'.
Proof using All.
  intros Hi Hrq' H8 H16. pose proof Hi as [Er Ev _ Hh Hri Hs Hseen Hout].
  assert (a ∈ refs) as Har by (rewrite Er; apply elem_of_app; right; by left).
  destruct (Hrefs a (refs_addr a Har)) as [_ Ho].
  assert ((m (a + 8), snd v) ∈ roots) as Hvin by (rewrite Ev, H8, <- surjective_pairing; apply elem_of_app; right; by left).
  destruct (root_step (set_refqueue w0 rq') Hchunk Hmin m s b q fwd bl K objs a (snd v) Hh Hri Hs H16 Hvin (Hroots _ _ Hvin) Ho)
    as (m' & s' & b' & q' & fwd' & bl' & K' & objs' & Hrun & Hh' & Hri' & Hs' & Hres & Hsub & Hout').
  eexists. split; [exact Hrun |]. exists (seen ++ [a]), (vs ++ [v]), l, lvs, rq', m', s', b', q', fwd', bl', K', objs'.
  split; [done |]. split; [done |]. split; try done.
  - by rewrite Er, <- app_assoc.
  - by rewrite Ev, <- app_assoc.
  - apply Forall2_app; [| constructor; [by rewrite <- H8 | constructor]].
    pose proof (RefQueue.rq_nodup _ _ _ _ Hq) as Hnd. rewrite Er in Hnd. apply NoDup_app in Hnd as (_ & Hnd & _).
    assert (forall r, r ∈ seen -> m' (r + 8) = m (r + 8)) as Hsame.
    { intros r Hr. assert (r ∈ refs) as Hrr by (rewrite Er; apply elem_of_app; by left).
      destruct (Hrefs r (refs_addr r Hrr)) as [_ Hro]. apply Hout'; [lia |]. intros E. apply (Hnd r Hr).
      assert (r = a) as -> by lia. by left. }
    clear - Hseen Hsame Hsub. induction Hseen as [| r v' seen vs Hr _ IH]; constructor.
    + eapply resolved_mono; [exact Hr | done |]. apply Hsame. by left.
    + apply IH. intros r' Hr'. apply Hsame. by right.
  - intros x Hx Hne. rewrite Hout'; [| done |].
    + apply Hout; [done |]. intros r Hr. apply Hne, elem_of_app. by left.
    + apply Hne, elem_of_app. right. by left.
Qed.

Lemma roots_turn i w :
  at_roots i w -> exists b w', (r ← dequeue; if negb (r =? NULL) then
      process_dequeued_bdaroot g klasses intArrayKlass objectKlass young is_in_reserved
        UseBiasedLocking PSChunkLargeArrays PLAB N bda_heap bda_junk star_heap star_junk r;;
      drain_bda_stacks g klasses intArrayKlass objectKlass young is_in_reserved
        UseBiasedLocking PSChunkLargeArrays PLAB N bda_heap bda_junk star_heap star_junk;; mret true
    else mret false) w = Some (b, w') /\
    if (b : bool) then exists i', (i' < i)%nat /\ at_roots i' w' else at_roots 0 w'.
Proof using All.
  intros (seen & vs & l & lvs & rq & m & s & b & q & fwd & bl & K & objs & -> & -> & Hi).
  pose proof (RefQueue.ref_dequeue_run _ _ _ _ (left_queue _ _ _ _ _ _ _ _ _ _ _ _ _ Hi)) as Hdq.
  pose proof (ri_queue _ _ _ _ _ _ _ _ _ _ _ _ _ Hi) as Hrq.
  destruct l as [| a l], lvs as [| v lvs]; try (exfalso; apply RefQueue.rq_chain in Hrq; done).
  - assert (dequeue (evolve (set_refqueue w0 rq) m s b q) = Some (NULL, evolve (set_refqueue w0 rq) m s b q)) as Hrun.
    { unfold dequeue. change (refqueue (evolve (set_refqueue w0 rq) m s b q)) with rq. by rewrite Hdq. }
    mrun Hrun. exists false. eexists. split; [done |].
    by exists seen, vs, [], [], rq, m, s, b, q, fwd, bl, K, objs.
  - destruct Hdq as (rq' & Hdq & [Hr1 Hr2 Hr3 Hr4 Hr5] & Hval).
    assert (dequeue (evolve (set_refqueue w0 rq) m s b q) = Some (a, evolve (set_refqueue w0 rq') m s b q)) as Hrun.
    { unfold dequeue. change (refqueue (evolve (set_refqueue w0 rq) m s b q)) with rq. by rewrite Hdq. }
    mrun Hrun. assert (a <> NULL) as Ha.
    { intros ->. apply (RefQueue.rq_null _ _ _ _ Hrq). by left. }
    destruct (Z.eqb_spec a NULL); [done |]. cbn [negb].
    assert (a ∈ ref_addrs w0) as Haddr.
    { apply refs_addr. rewrite (ri_refs _ _ _ _ _ _ _ _ _ _ _ _ _ Hi). apply elem_of_app. right. by left. }
    rewrite ref_view_lookup in Hval by done. injection Hval as _ H8 H16. change (mem (evolve _ m s b q)) with m in *.
    destruct (roots_step seen vs a l v lvs rq rq' m s b q fwd bl K objs Hi) as (w' & Hrun' & Hat); [| done | done |].
    { split; try done. pose proof (RefQueue.rq_chain _ _ _ _ Hrq) as Hc. destruct v. apply Hc. }
    exists true, w'. split; [done |]. exists (length l). simpl. split; [lia | done].
Qed.

(** What the loop leaves, when the objects [fwd] were copied to the blocks [objs]. *)
Record scavenged (w : world W) (fwd : gmap Z Z) (bl : list block) (K : gmap Z collection) (objs : list block) : Prop := {
  (** what was copied is what can be reached *)
  sc_reach : forall o, is_Some (fwd !! o) <-> exists ro reg, (ro, reg) ∈ roots /\ young <= ro /\ reach ro o;
  (** the originals say where the copies are *)
  sc_mark : forall o n, fwd !! o = Some n -> mem w o = encode_pointer_as_mark n;
  (** the copies have the words of the originals, but their references are to copies *)
  sc_words : forall o n i, fwd !! o = Some n -> 0 <= i < words o ->
    if decide (is_young_ref o (o + 8 * i)) then fwd !! m0 (o + 8 * i) = Some (mem w (n + 8 * i))
    else mem w (n + 8 * i) = m0 (o + 8 * i);
  (** they do not overlap *)
  sc_apart : forall o n o' n', fwd !! o = Some n -> fwd !! o' = Some n' -> o <> o' ->
    n + 8 * words o <= n' \/ n' + 8 * words o' <= n;
  (** and are in the collection of a reference from which they can be reached *)
  sc_placed : forall o n, fwd !! o = Some n -> placed fwd objs o n;
  sc_alloc : exists n a e, alloc_inv lo young PLAB (old_space w) (_bda_old_lab (pm w)) bl K n objs a e;
  (** the references of the queue are updated *)
  sc_refs : Forall2 (fun r v => resolved (mem w) fwd r (fst v)) refs roots;
  sc_queue : RefQueue.repr (ref_view w0) (refqueue w) [] [];
  (** and nothing else happens *)
  sc_stack : stack_inv (_bdaref_stack (pm w)) [];
  sc_memory : forall x, x < lo \/ hi <= x -> (forall r, r ∈ refs -> x <> r + 8) -> mem w x = m0 x;
  sc_rest : w = evolve (set_refqueue w0 (refqueue w)) (mem w) (old_space w) (_bda_old_lab (pm w)) (_bdaref_stack (pm w))
}.

Lemma roots_scavenged i w : at_roots i w -> i = O -> exists fwd bl K objs, scavenged w fwd bl K objs.
Proof using All.
  intros (seen & vs & l & lvs & rq & m & s & b & q & fwd & bl & K & objs & -> & -> & [Er Ev Hrq Hh Hri Hs Hseen Hout]) Hl.
  destruct l as [| ? l]; [| done]. pose proof (RefQueue.chain_length _ _ _ (RefQueue.rq_chain _ _ _ _ Hrq)) as Hlen.
  destruct lvs; [| done]. rewrite app_nil_r in Er, Ev. subst seen vs. destruct Hri as [(n & a & e & Ha & _) Hpl].
  exists fwd, bl, K, objs. split; try done.
  - intros o. split.
    + intros [n' Ho]. destruct (Hpl o n' Ho) as (ro & k & (nr & Hin & Hfr & _) & Hre & _). exists ro, (snd k).
      split; [done |]. split; [| done]. apply (y_addr _ _ _ _ _ _ _ Hheap). by eapply (h_dom _ _ _ _ _ _ _ _ _ Hh).
    + intros (ro & reg & [j Hj]%list_elem_of_lookup & Hy & Hre). eapply closed_reach; [done | done | | done].
      destruct (Forall2_lookup_r _ _ _ _ _ Hseen Hj) as (r & _ & Hr). unfold resolved in Hr. cbn [fst] in Hr.
      rewrite decide_True in Hr by done. by eexists.
  - intros o n' Ho. by apply (h_mark _ _ _ _ _ _ _ _ _ Hh).
  - intros o n' i Ho Hi. pose proof (h_copy _ _ _ _ _ _ _ _ _ Hh o n' i Ho Hi) as Hw. unfold word_ok in Hw.
    destruct (decide _); [| done]. destruct Hw as [[Hin _] | [_ Hw]]; [by apply elem_of_nil in Hin | done].
  - intros o n1 o' n2. apply (h_apart _ _ _ _ _ _ _ _ _ Hh).
  - by exists n, a, e.
Qed.

(** The space, the buffer and the stack at the start: nothing is copied. *)
Context (bl0 : list block) (K0 : gmap Z collection) (n0 a0 e0 : Z).
Context (Hspace : alloc_inv lo young PLAB (old_space w0) (_bda_old_lab (pm w0)) bl0 K0 n0 [] a0 e0).
Context (Hroom : sum_of cost (elements Y) <= n0).
Context (Hstack : OverflowQueue.repr N sz (_bdaref_stack (pm w0)) [] []).

Lemma at_roots_start : at_roots (length refs) w0.
Proof using All.
  exists [], [], refs, roots, (refqueue w0), m0, (old_space w0), (_bda_old_lab (pm w0)), (_bdaref_stack (pm w0)), ∅, bl0, K0, [].
  split; [rewrite <- Hm0; by destruct w0 as [? ? ? ? ? ? []] |]. split; [done |]. split; try done.
  - by apply heap_start.
  - split; [| by intros o n ?]. exists n0, a0, e0. split; [done |]. unfold left. etrans; [| exact Hroom].
    rewrite sum_of_filter. apply sum_of_le. intros o _. case_decide; [done |]. unfold cost.
    pose proof (cost_nonneg (HW := HW) (words o)). pose proof (cost_nonneg (HW := HW) PLAB). lia.
  - by exists [], [].
Qed.

(** [BDARefRootsTask::do_it], run by one thread on a queue of references and an old generation
    with room enough, returns, and leaves the heap as a copying collection should: the young
    objects that were copied are exactly those that can be reached from the queue; each copy has
    the words of its original, with the references to young objects replaced by references to
    their copies; the copies lie in blocks of the old generation that do not overlap, each in the
    collection that was made for the region of a reference from which the object can be reached;
    the references of the queue point to the copies; and the queue and the stacks are empty. *)
Lemma roots_do_it_copies : exists w' fwd bl K objs, roots_do_it w0 = Some (tt, w') /\ scavenged w' fwd bl K objs.
Proof using All.
  destruct (while_m_rule 64 _ at_roots (at_roots 0) roots_turn (length refs) w0 at_roots_start) as (w' & Hrun & Hat).
  - apply Nat2Z.inj_lt. rewrite Nat2Z.inj_pow. change (Z.of_nat 2 ^ Z.of_nat 64) with (2 ^ 64).
    pose proof (nodup_range refs 1 (2 ^ 64 - 1)) as Hlen. specialize (Hlen ltac:(lia) (RefQueue.rq_nodup _ _ _ _ Hq)).
    enough (Z.of_nat (length refs) <= 2 ^ 64 - 1) by lia. apply Hlen. intros r Hr. destruct (Hrefs r (refs_addr r Hr)). lia.
  - destruct (roots_scavenged 0 w' Hat eq_refl) as (fwd & bl & K & objs & Hsc). by exists w', fwd, bl, K, objs.
Qed.

End Queue.

End Scavenge.

End ScavengeBDA.
