(* ===== verification/ScavengeContainers.v ===== *)
(** * Promotion into the spaces of containers

    The promotion manager and the old generation together: [BDARefRootsTask::do_it] with the spaces
    of [MutableBDASpace] as the memory it copies to. *)

From Stdlib Require Import ZArith Lia.
From stdpp Require Import base numbers gmap sets list.
From S2P Require Import Prelude GlobalDefs MemRegion VirtualSpace MutableSpace BitMap ParMarkBitMap Container GenQueue BDARegion ObjectStartArray CompactData CGRPSpace Segments.
From S2P Require Import CollectedHeap PromotionLAB RefQueue TaskQueue Stack OverflowQueue Oops PromotionManager HeapCopy PromotionSpace.
From S2P Require Import ContainerSpace ScavengeBDA.

Local Open Scope Z_scope.

Module ScavengeContainers.
Import CollectedHeap Oops PromotionManager HeapCopy PromotionSpace ContainerSpace ScavengeBDA.

Lemma plab_size x : 6 <= x < 2 ^ 31 -> 0 < x < 2 ^ 31.
Proof. lia. Qed.

Section Promotion.
(** The old generation: its regions, the spaces [I] of them with their addresses, and the headers. *)
Context (regions : BDARegion.table) (filler_header_size lg shift : Z).
Context (AllocateHeap : Container.heap -> Z) (junk : Z -> Container.container) (PLAB : Z).
Context (Hlg : 16 <= lg <= 40) (Hfhs : 0 < filler_header_size < 65536).
Context (Halloc : forall h, AllocateHeap h <> NULL /\ h !! AllocateHeap h = None).
Context (I : gset nat) (ty bt en : nat -> Z).
Context (Hdisj : forall i j, i ∈ I -> j ∈ I -> i <> j -> en i <= bt j \/ en j <= bt i).
Context (lo young hi : Z) (Hbounds : forall i, i ∈ I -> lo <= bt i /\ en i <= young).
Context (Hlo : 0 < lo) (Hyoung : young + 2 ^ 34 < 2 ^ 64) (HPLAB : 6 <= PLAB < 2 ^ 31).

#[local] Instance ops : OldSpace CGRPSpace.world := old_space_ops regions filler_header_size lg shift AllocateHeap junk PLAB.
#[local] Instance laws : OldSpaceLaws CGRPSpace.world lo young PLAB :=
  old_space_laws regions filler_header_size lg shift AllocateHeap junk PLAB Hlg Hfhs Halloc I ty bt en Hdisj
    lo young Hbounds Hlo Hyoung (plab_size PLAB HPLAB).

(** A block of a collection is in the space of its region. *)
Lemma container_block_region w bl K n b :
  space_inv w bl K n -> b ∈ bl ->
  exists i, i ∈ I /\ ty i = snd (coll b) /\ bt i <= start b /\ start b + 8 * words_of b <= en i.
Proof using All.
  intros (L & B & N & starts & Hsp & Hbl) Hb. destruct (bi_blocks _ _ _ _ _ _ _ Hbl b Hb) as (i & c & Hi & Hc & Hin & HK).
  destruct (sp_space _ _ _ _ _ _ _ _ _ _ _ _ Hsp i Hi) as (g & Hg & _ & Eb & Ee & _).
  destruct (bi_chain _ _ _ _ _ _ _ Hbl _ _ HK) as (j & ch & s & Hj & Ht & Hch & Hall).
  assert (c ∈ L j) as Hcj by (apply Hall; destruct ch; destruct Hch as (-> & _); by left).
  destruct (sp_space _ _ _ _ _ _ _ _ _ _ _ _ Hsp j Hj) as (gj & Hgj & _).
  edestruct seg_header as (k1 & Hk1 & Hid1 & _); [eassumption.. | exact Hg | exact Hc |].
  edestruct seg_header as (k2 & Hk2 & Hid2 & _); [eassumption.. | exact Hgj | exact Hcj |].
  assert (k1 = k2) as -> by congruence. assert (j = i) as -> by lia. exists i. split; [done |]. split; [done |].
  edestruct space_block as (_ & _ & ? & ?); [eassumption.. | exact Hg | exact Hc | exact Hin |]. unfold start, words_of. lia.
Qed.

(** The heap: the classes, and the objects [Y] of the young generation with their memory [m0]. *)
Context (g : config) (Hg : g = mkConfig false 1) (klasses : Z -> option Klass) (intArrayKlass objectKlass : Z).
Context (m0 : Z -> Z) (Y : gset Z) (Hheap : young_heap g klasses lo young hi m0 Y).
(** The flags, the size of the queue of tasks and the stack it overflows to. *)
Context (is_in_reserved : Z -> bool) (UseBiasedLocking PSChunkLargeArrays : bool).
Context (lgN N : Z) (HlgN : 2 <= lgN <= 31) (HN : N = 2 ^ lgN).
Context (bda_heap : gmap Z (Stack.segment BDARefTask) -> Z) (bda_junk : Z -> Z -> Stack.segment BDARefTask).
Context (star_heap : gmap Z (Stack.segment Z) -> Z) (star_junk : Z -> Z -> Stack.segment Z).
Context (sz : Z) (Hsz : 0 < sz < 2 ^ 63).
Context (Hseg : forall h, bda_heap h <> NULL /\ h !! bda_heap h = None).
Context (Hjunk : forall p, Z.of_nat (length (Stack.elements (bda_junk sz p))) = sz).

(** The start: the references [refs] are queued, with the objects and regions [roots]; the spaces have
    room, the buffer is empty or has memory, and there are no tasks. *)
Record ready (w0 : world CGRPSpace.world) (roots : list (Z * Z)) (refs : list Z) : Prop := {
  rd_chunk : 0 < _array_chunk_size (pm w0) <= _min_array_size_for_chunking (pm w0);
  rd_min : _min_array_size_for_chunking (pm w0) < 2 ^ 31;
  rd_mem : mem w0 = m0;
  rd_queue : RefQueue.repr (ref_view w0) (refqueue w0) refs roots;
  rd_refs : forall r, r ∈ ref_addrs w0 -> 0 < r < 2 ^ 64 /\ (r + 24 <= lo \/ hi <= r);
  rd_sep : forall r r', r ∈ ref_addrs w0 -> r' ∈ ref_addrs w0 -> r <> r' -> r + 24 <= r' \/ r' + 24 <= r;
  rd_roots : forall ro reg, (ro, reg) ∈ roots -> young <= ro -> ro ∈ Y /\ exists i, i ∈ I /\ ty i = reg;
  rd_space : exists bl K n a e, alloc_inv lo young PLAB (old_space w0) (_bda_old_lab (pm w0)) bl K n [] a e /\
    sum_of (cost lo young PLAB g klasses m0) (elements Y) <= n;
  rd_stack : OverflowQueue.repr N sz (_bdaref_stack (pm w0)) [] []
}.

(** C2. Promotion into containers.  [BDARefRootsTask::do_it], run by one thread on a queue of references, with
    room enough in the spaces of containers, returns, and leaves the heap as a copying collection should:
    the young objects that were copied are exactly those that can be reached from the queue; each copy has the
    words of its original, with the references to young objects replaced by references to their copies;
    the copies do not overlap; each is in the collection that was made for a reference from which its object can be
    reached, and so in the space of the region of that reference; the references of the queue point to the
    copies; and the queue and the stack of tasks are empty.  At the start no header is registered for
    the memory above the tops of the spaces, as before the first full collection. *)
Theorem promotion_copies_graph (w0 : world CGRPSpace.world) (roots : list (Z * Z)) (refs : list Z)
    (Hready : ready w0 roots refs) :
  exists w' fwd bl K objs,
    roots_do_it g klasses intArrayKlass objectKlass young is_in_reserved UseBiasedLocking PSChunkLargeArrays PLAB N
      bda_heap bda_junk star_heap star_junk w0 = Some (tt, w') /\
    scavenged lo young hi PLAB g klasses N sz m0 roots w0 refs w' fwd bl K objs /\
    forall o n, fwd !! o = Some n -> exists ro reg i, (ro, reg) ∈ roots /\ reach klasses young m0 ro o /\
      i ∈ I /\ ty i = reg /\ bt i <= n /\ n + 8 * words g klasses m0 o <= en i.
Proof using All.
  destruct Hready as [Hc Hm Hm0 Hq Hr Hs Hro (bl0 & K0 & n0 & a0 & e0 & Ha & Hn) Hst].
  destruct (roots_do_it_copies (HW := ops) (HL := laws) lo young hi PLAB g Hg klasses intArrayKlass objectKlass is_in_reserved UseBiasedLocking PSChunkLargeArrays
    ltac:(lia) HPLAB lgN N HlgN HN bda_heap bda_junk star_heap star_junk sz Hsz Hseg Hjunk m0 Y Hheap roots w0 Hc Hm Hm0 refs Hq Hr Hs Hro
    bl0 K0 n0 a0 e0 Ha Hn Hst) as (w' & fwd & bl & K & objs & Hrun & Hsc).
  exists w', fwd, bl, K, objs. split; [done |]. split; [done |]. intros o n Ho.
  pose proof Hsc as [_ _ _ _ Hpl (n1 & a1 & e1 & [Hsp _ Hobjs _]) _ _ _ _ _].
  destruct (Hpl o n Ho) as (ro & k & (nr & Hin & _) & Hre & Hob). destruct (Hobjs _ Hob) as (_ & _ & _ & y & Hy & Ey & H1 & H2).
  destruct (container_block_region _ _ _ _ _ Hsp Hy) as (i & Hi & Ht & H3 & H4). exists ro, (snd k), i.
  split; [done |]. split; [done |]. split; [done |]. split; [by rewrite Ht, Ey |].
  unfold start, words_of in *. simpl in *. lia.
Qed.

End Promotion.

(** ** An instance

    The space of containers has eight regions.  In the young generation an object [obj_a] refers to an
    array [obj_b] and to itself, [obj_b] refers to [obj_a], and nothing refers to [obj_d]; one [Ref] has [obj_a]. *)

Definition bottom : Z := 524288.
Definition top : Z := 4718592.
Definition obj_a : Z := top.
Definition obj_b : Z := top + 32.
Definition obj_d : Z := top + 72.

Definition sample_space : CGRPSpace.CGRPSpace :=
  CGRPSpace.with_space (CGRPSpace.new 65536 4104 0) (MutableSpace.mkMutableSpace bottom top bottom 65536 MemRegion.empty).
Definition sample_array : ObjectStartArray.ObjectStartArray :=
  ObjectStartArray.mkArray (PSVirtualSpace.mkVirtualSpace 4096 8192 16384 8192 16384 false)
    (MemRegion.mkMemRegion bottom 524288) (MemRegion.mkMemRegion bottom 524288)
    (MemRegion.mkMemRegion 8192 1024) 8192 (8192 - 1024) ∅.
Definition sample_spaces : CGRPSpace.world :=
  CGRPSpace.mkWorld (MutableSpace.new 65536) [CGRPSpace.new 65536 4100 0; sample_space]
    (ParMarkBitMap.mkParMarkBitMap 0 0 (BitMap.mkBitMap [] 0) (BitMap.mkBitMap [] 0) 0)
    (ObjectStartArray.reset sample_array)
    (CompactData.initialize 65536 (MemRegion.mkMemRegion bottom 720896)) ∅.

Definition sample_words : gmap Z Z := list_to_map
  [(obj_a, unlocked_value); (obj_a + 8, 1000); (obj_a + 16, obj_b); (obj_a + 24, obj_a);
   (obj_b, unlocked_value); (obj_b + 8, 2000); (obj_b + 16, 2); (obj_b + 24, obj_a); (obj_b + 32, 0);
   (obj_d, unlocked_value); (obj_d + 8, 1000); (obj_d + 16, obj_a); (obj_d + 24, 0);
   (64, 0); (72, obj_a); (80, 4104)].
Definition sample_mem (x : Z) : Z := default 0 (sample_words !! x).
Definition sample_klasses (x : Z) : option Klass :=
  if x =? 1000 then Some (mkKlass (instance_layout_helper 4 false) (Instance_ [(16, 2)]) unlocked_value)
  else if x =? 2000 then Some (mkKlass (array_layout_helper lh_array_tag_obj_value 24 12 3) ObjArray unlocked_value)
  else None.
Definition sample_objects : gset Z := {[obj_a; obj_b; obj_d]}.
Definition sample_config : config := mkConfig false 1.

Definition task_alloc (m : gmap Z (Stack.segment BDARefTask)) : Z := fresh ({[NULL]} ∪ dom m).
Definition task_junk (sz p : Z) : Stack.segment BDARefTask := Stack.mkSegment (replicate (Z.to_nat sz) (mkTask 0 0)) 0.

Definition sample_manager : PSPromotionManager :=
  mkManager (PromotionLAB.mkBDALAB (PromotionLAB.mkOldLAB (PromotionLAB.mkLAB 0 0 0 PromotionLAB.zero_size) sample_array) 0)
    (OverflowQueue.create 16 (replicate 4 (mkTask 0 0))) (OverflowQueue.create 8 (replicate 4 0)) false [] 1 1.
Definition sample_world : world CGRPSpace.world :=
  mkWorld sample_mem ∅ [] sample_spaces [64] (RefQueue.mkRefQueue 64 64) sample_manager.

Lemma sample_young : young_heap sample_config sample_klasses bottom top (top + 4096) sample_mem sample_objects.
Proof.
  assert (forall P : Z -> Prop, P obj_a -> P obj_b -> P obj_d -> forall o, o ∈ sample_objects -> P o) as Hall.
  { intros P HA HB HD o Ho. unfold sample_objects in Ho. rewrite !elem_of_union, !elem_of_singleton in Ho. naive_solver. }
  split.
  - vm_compute. done.
  - done.
  - apply Hall; (eexists; split; [reflexivity |]; split).
    1,5: exists 4, false; split; [done |]; split; [vm_compute; done |]; split; [apply Forall_singleton; vm_compute; done |]; apply (bool_decide_unpack _); by vm_compute.
    all: by vm_compute.
  - apply Hall; vm_compute; done.
  - apply Hall; vm_compute; done.
  - intros o o' Ho Ho'. unfold sample_objects in *. rewrite !elem_of_union, !elem_of_singleton in Ho, Ho'.
    destruct Ho as [[-> | ->] | ->], Ho' as [[-> | ->] | ->]; try done; intros _; vm_compute; first [by left | by right].
  - intros o s Ho. revert s. revert o Ho. apply (Hall (fun o => forall s, s ∈ slots sample_klasses sample_mem o -> top <= sample_mem s -> sample_mem s ∈ sample_objects));
      refine (proj1 (Forall_forall (fun s => top <= sample_mem s -> sample_mem s ∈ sample_objects) _) _);
      apply (bool_decide_unpack _); by vm_compute.
Qed.

#[local] Existing Instance MutableSpace.wf_dec.
#[local] Existing Instance ObjectStartArray.wf_dec.
#[local] Existing Instance ObjectStartArray.backed_dec.

Lemma sample_segments : Segments.space_inv Segments.sample_regions 3 1 sample_space sample_spaces [] (fun _ => []) 8192 [].
Proof.
  split.
  - done.
  - lia.
  - split; [vm_compute; discriminate | vm_compute; reflexivity].
  - decide_now.
  - apply GenQueue.create_repr.
  - done.
  - intros c k Hc. by apply elem_of_nil in Hc.
  - split; by vm_compute.
  - vm_compute. done.
  - intros p Hp. unfold Segments.owner. change (CompactData._region_start (CGRPSpace.summary_data sample_spaces)) with 524288.
    change (MutableSpace._top _) with 524288 in Hp. change (MutableSpace._end _) with 4718592 in Hp.
    assert (0 <= (p - 524288) / Segments.region_span < 8) as Hq by (unfold Segments.region_span; lia).
    generalize dependent ((p - 524288) / Segments.region_span). intros q Hq.
    assert (q = 0 \/ q = 1 \/ q = 2 \/ q = 3 \/ q = 4 \/ q = 5 \/ q = 6 \/ q = 7) as Hc by lia.
    clear Hq. repeat destruct Hc as [-> | Hc]; try (vm_compute; reflexivity). subst q. vm_compute. reflexivity.
  - intros c k p Hc. by apply elem_of_nil in Hc.
  - assert (ObjectStartArray.wf sample_array 8192) as Hwf by decide_now.
    destruct (ObjectStartArray.reset_run sample_array 8192 Hwf ltac:(decide_now)) as [Hwf' Hrec].
    split; [exact Hwf' |]. split; [exact Hrec |]. vm_compute. split; discriminate.
  - intros c b Hc. by apply elem_of_nil in Hc.
Qed.

Lemma sample_old : old_inv Segments.sample_regions 3 {[1%nat]} (fun _ => 4104) (fun _ => bottom) (fun _ => top)
  sample_spaces [] ∅ 524288.
Proof.
  exists (fun _ => []), (fun _ => []), 8192, []. split; split.
  - intros i ->%elem_of_singleton. exists sample_space. split; [exact sample_segments |]. by vm_compute.
  - intros i j g ->%elem_of_singleton Hg Ht. destruct j as [| [| j]]; [| done | done]. injection Hg as <-. discriminate Ht.
  - by intros b ?%elem_of_nil.
  - by intros i j b b' Hi.
  - by intros c k Hk.
Qed.

Lemma sample_queue : RefQueue.repr (ref_view sample_world) (refqueue sample_world) [64] [(obj_a, 4104)].
Proof. split; [apply NoDup_singleton | by intros ?%list_elem_of_singleton | by vm_compute | done | done]. Qed.

Lemma task_alloc_ok m : task_alloc m <> NULL /\ m !! task_alloc m = None.
Proof.
  unfold task_alloc. pose proof (is_fresh ({[NULL]} ∪ dom m)) as H. rewrite not_elem_of_union in H.
  split; [set_solver |]. apply not_elem_of_dom. tauto.
Qed.

Lemma sample_stack : OverflowQueue.repr 4 255 (_bdaref_stack (pm sample_world)) [] [].
Proof.
  split; [by apply (TaskQueue.create_contents 2) |]. exists [], []. split; try done; [constructor | constructor | constructor | by intros p [x Hx]].
Qed.

Lemma sample_disjoint i j : i ∈ ({[1%nat]} : gset nat) -> j ∈ ({[1%nat]} : gset nat) -> i <> j -> top <= bottom \/ top <= bottom.
Proof. intros ->%elem_of_singleton ->%elem_of_singleton. done. Qed.

Lemma sample_lg : 16 <= 16 <= 40. Proof. lia. Qed.
Lemma sample_fhs : 0 < 3 < 65536. Proof. lia. Qed.
Lemma sample_bounds i : i ∈ ({[1%nat]} : gset nat) -> bottom <= bottom /\ top <= top.
Proof. done. Qed.
Lemma sample_low : 0 < bottom. Proof. done. Qed.
Lemma sample_high : top + 2 ^ 34 < 2 ^ 64. Proof. done. Qed.
Lemma sample_plab : 6 <= 1024 < 2 ^ 31. Proof. lia. Qed.

Lemma sample_size : words sample_config sample_klasses sample_mem obj_a = 4.
Proof. by vm_compute. Qed.
Lemma sample_self : is_young_ref sample_klasses top sample_mem obj_a (obj_a + 24).
Proof. split; [apply (bool_decide_unpack _); by vm_compute | by vm_compute]. Qed.

Lemma promotion_copies_graph_witness :
  exists w', @roots_do_it CGRPSpace.world (old_space_ops Segments.sample_regions 3 16 0 Segments.sample_alloc Segments.sample_junk 1024)
      sample_config sample_klasses 0 0 top (fun _ => true) true true 1024 4
      task_alloc task_junk Stack.sample_alloc Stack.sample_junk sample_world = Some (tt, w') /\
    exists n, mem w' 72 = n /\ mem w' obj_a = encode_pointer_as_mark n /\ bottom <= n < top /\ mem w' (n + 24) = n.
Proof.
  destruct (promotion_copies_graph Segments.sample_regions 3 16 0 Segments.sample_alloc Segments.sample_junk 1024
    sample_lg sample_fhs Segments.sample_alloc_fresh {[1%nat]} (fun _ => 4104) (fun _ => bottom) (fun _ => top) sample_disjoint
    bottom top (top + 4096) sample_bounds sample_low sample_high sample_plab
    sample_config eq_refl sample_klasses 0 0 sample_mem sample_objects sample_young (fun _ => true) true true
    2 4 ltac:(lia) eq_refl task_alloc task_junk Stack.sample_alloc Stack.sample_junk 255 ltac:(lia) task_alloc_ok
    (fun _ => eq_refl) sample_world [(obj_a, 4104)] [64]) as (w' & fwd & bl & K & objs & Hrun & Hsc & Hreg).
  - split.
    + by vm_compute.
    + by vm_compute.
    + reflexivity.
    + exact sample_queue.
    + intros r ->%list_elem_of_singleton. vm_compute. split; [done | by left].
    + intros r r' ->%list_elem_of_singleton ->%list_elem_of_singleton. done.
    + intros ro reg [= -> ->]%list_elem_of_singleton _. split; [set_solver |]. exists 1%nat. split; [set_solver | done].
    + exists [], ∅, 524288, 0, 0. split; [| by vm_compute]. split; [exact sample_old | | by intros x ?%elem_of_nil | by intros i j b b' Hi].
      eapply lab_idle; [reflexivity | lia].
    + exact sample_stack.
  - exists w'. split; [exact Hrun |]. destruct Hsc as [Hreach Hmark Hwords _ _ _ Hrefs _ _ _ _].
    inversion Hrefs as [| r v rs vs Hr _]; subst. unfold resolved in Hr. rewrite decide_True in Hr by done.
    exists (mem w' 72). split; [reflexivity |]. change (64 + 8) with 72 in Hr. cbn [fst] in Hr.
    split; [by apply Hmark |]. split.
    + destruct (Hreg _ _ Hr) as (_ & _ & _ & _ & _ & _ & _ & H1 & H2). rewrite sample_size in H2. lia.
    + specialize (Hwords _ _ 3 Hr ltac:(rewrite sample_size; lia)). change (8 * 3) with 24 in Hwords.
      rewrite decide_True in Hwords by exact sample_self. change (sample_mem (obj_a + 24)) with obj_a in Hwords. congruence.
Defined.

End ScavengeContainers.
