(* ===== verification/ForwardPar.v ===== *)
(** * Threads that copy the same object

    [PSPromotionManager::copy_bdaref_to_survivor_space] and [bda_oop_promotion_failed]
    ([gc_implementation/parallelScavenge/psPromotionManager.inline.hpp] and [.cpp]) run by any
    number of threads for one object.  Each thread copies the object to its own place and then
    tries to exchange the header of the object for the address of its copy.  A step is one
    access to shared memory.  The thread that won may be scanning the array in pieces, for which
    it overwrites the length in the old copy.  A thread's own place is its memory alone; the steps before
    the race, which allocate it, and those after it, in which the winner pushes the references of the copy and
    the others give their memory back, are not part of the race. *)

From Stdlib Require Import ZArith Lia.
From stdpp Require Import base numbers relations list.
From S2P Require Import Prelude GlobalDefs CollectedHeap Oops PromotionManager HeapCopy ScavengeBDA.

Local Open Scope Z_scope.

Module ForwardPar.
Import CollectedHeap Oops PromotionManager HeapCopy.

(** The call is about to read the header; about to read the size, having read [mark]; about to copy
    the word [i] of [size]; about to exchange the header; about to read the header again, having
    lost the exchange; or it returned [v], and may have [won]. *)
Inductive pc :=
| Start
| Size (mark : Z)
| Copy (mark size i : Z)
| Exchange (mark : Z)
| Lost
| Ret (won : bool) (v : Z).

(** [th_place] is the memory the thread is given for its copy, if there is any. *)
Record thread := mkThread { th_place : option Z; th_pc : pc }.

Record state := mkState { words : Z -> Z; threads : list thread }.

Section Race.
Context (g : config) (k : Klass) (UseBiasedLocking : bool) (o : Z).

Definition thread_step (m : Z -> Z) (place : option Z) (p : pc) : option ((Z -> Z) * pc) :=
  match p with
  | Start =>
      if is_marked (m o) then Some (m, Ret false (decode_pointer UseBiasedLocking (m o))) else Some (m, Size (m o))
  | Size mark =>
      Some (m, match place with Some _ => Copy mark (size_given_klass g k m o) 0 | None => Exchange mark end)
  | Copy mark size i =>
      a ← place;
      if i <? size then Some (upd m (a + 8 * i) (m (o + 8 * i)), Copy mark size (i + 1)) else Some (m, Exchange mark)
  | Exchange mark =>
      let new_obj := default o place in
      if m o =? mark then Some (upd m o (encode_pointer_as_mark new_obj), Ret true new_obj) else Some (m, Lost)
  | Lost => if is_marked (m o) then Some (m, Ret false (decode_pointer UseBiasedLocking (m o))) else None
  | Ret _ _ => None
  end.

(** [length] is the length of the array before it was copied. *)
Inductive step (length : Z) : state -> state -> Prop :=
| step_thread s j t m p :
    threads s !! j = Some t -> thread_step (words s) (th_place t) (th_pc t) = Some (m, p) ->
    step length s (mkState m (<[j := mkThread (th_place t) p]> (threads s)))
| step_chunk s start :
    is_marked (words s o) = true -> _kind k = ObjArray -> 0 <= start <= length ->
    step length s (mkState (upd (words s) (o + length_offset) (set_length_word (words s (o + length_offset)) start))
                     (threads s)).

Definition initial (m0 : Z -> Z) (places : list (option Z)) : state :=
  mkState m0 ((fun a => mkThread a Start) <$> places).

Definition returned (t : thread) : bool := match th_pc t with Ret _ _ => true | _ => false end.

(** ** The invariant *)

Context (m0 : Z -> Z) (places : list (option Z)).
Let n : Z := size_given_klass g k m0 o.
Context (Hg : MinObjAlignment g = 1) (Hk : klass_wf k) (Hlen : length_wf k (array_length m0 o)).
Context (Ho : is_oop o) (Hfresh : is_marked (m0 o) = false).
Context (Hplace : forall j a, places !! j = Some (Some a) -> is_oop a /\ (a + 8 * n <= o \/ o + 8 * n <= a)).
Context (Hapart : forall j j' a a', places !! j = Some (Some a) -> places !! j' = Some (Some a') -> j <> j' ->
  a + 8 * n <= a' \/ a' + 8 * n <= a).

(** The first [i] words of the object, as it was, are at [a]. *)
Definition copied (m : Z -> Z) (a i : Z) : Prop := forall x, 0 <= x < i -> m (a + 8 * x) = m0 (o + 8 * x).

(** What a thread has done while the object is not forwarded. *)
Definition working (m : Z -> Z) (t : thread) : Prop :=
  match th_pc t with
  | Start => True
  | Size mark => mark = m0 o
  | Copy mark size i => mark = m0 o /\ size = n /\ 0 <= i <= n /\ exists a, th_place t = Some a /\ copied m a i
  | Exchange mark => mark = m0 o /\ forall a, th_place t = Some a -> copied m a n
  | Lost | Ret _ _ => False
  end.

(** What is known of it afterwards; [v] is the new address. *)
Definition late (v : Z) (t : thread) : Prop :=
  match th_pc t with
  | Size mark | Exchange mark => mark = m0 o
  | Copy mark size i => mark = m0 o /\ 0 <= i <= size /\ size <= n /\ is_Some (th_place t)
  | Ret _ v' => v' = v
  | Start | Lost => True
  end.

(** The length of an array may have been overwritten by a smaller one. *)
Definition length_in (m : Z -> Z) : Prop :=
  match _kind k with
  | Instance_ _ => True
  | ObjArray => 0 <= array_length m o <= array_length m0 o
  | TypeArray => array_length m o = array_length m0 o
  end.

Definition before_win (s : state) : Prop :=
  copied (words s) o n /\ forall j t, threads s !! j = Some t -> working (words s) t.

Definition after_win (s : state) (j : nat) (v : Z) : Prop :=
  (exists a, threads s !! j = Some (mkThread a (Ret true v)) /\ v = default o a
     /\ (is_Some a -> copied (words s) v n))
  /\ words s o = encode_pointer_as_mark v /\ length_in (words s)
  /\ forall j' t, threads s !! j' = Some t -> late v t /\ (forall v', th_pc t = Ret true v' -> j' = j).

Record inv (s : state) : Prop := {
  iv_places : th_place <$> threads s = places;
  iv_rest : forall x, (forall k, 0 <= k < n -> x <> o + 8 * k) ->
    (forall j a k, places !! j = Some (Some a) -> 0 <= k < n -> x <> a + 8 * k) -> words s x = m0 x;
  iv_phase : before_win s \/ exists j v, after_win s j v
}.

Lemma place_of s j t : inv s -> threads s !! j = Some t -> places !! j = Some (th_place t).
Proof using. intros Hi Hj. rewrite <- (iv_places _ Hi), list_lookup_fmap, Hj. done. Qed.

Lemma target_oop s j t : inv s -> threads s !! j = Some t -> is_oop (default o (th_place t)).
Proof using Ho Hplace.
  intros Hi Hj. pose proof (place_of s j t Hi Hj) as Hp. destruct (th_place t) as [a |]; [| done]. by apply (Hplace j).
Qed.

Lemma copied_upd m a i x v : copied m a i -> (forall y, 0 <= y < i -> x <> a + 8 * y) -> copied (upd m x v) a i.
Proof using.
  intros Hc Hx y Hy. rewrite upd_ne; [by apply Hc |]. intros E. by apply (Hx y Hy).
Qed.

Lemma size_small m : length_in m -> 2 <= size_given_klass g k m o <= n.
Proof using Hg Hk Hlen.
  unfold length_in. subst n. destruct (_kind k) as [maps | |] eqn:Ek; intros Hl.
  - assert (exists size slow, _layout_helper k = instance_layout_helper size slow /\ 2 <= size < 2 ^ 28) as (size & slow & Hlh & Hs).
    { unfold klass_wf in Hk. rewrite Ek in Hk. destruct Hk as (size & slow & Hlh & Hs & _). by exists size, slow. }
    rewrite (size_instance g k m o maps size slow), (size_instance g k m0 o maps size slow) by done. lia.
  - assert (length_wf k (array_length m o)) by (unfold length_wf in *; rewrite Ek in *; lia).
    rewrite !size_obj_array by done. lia.
  - rewrite (size_congr g k m m0 o o Hl). pose proof (size_type_array g k m0 o Hg Ek Hk Hlen). lia.
Qed.

Lemma length_start : length_in m0.
Proof using Hlen g n. unfold length_in, length_wf in *. destruct (_kind k); [done | lia | done]. Qed.

Lemma n_pos : 2 <= n.
Proof using Hg Hk Hlen. apply size_small, length_start. Qed.

Lemma forward_array_words : match _kind k with Instance_ _ => True | _ => 3 <= n end.
Proof using Hg Hk Hlen.
  pose proof length_start as Hl. unfold n, length_in in *. destruct (_kind k) as [maps | |] eqn:Ek; [done | |].
  - rewrite size_obj_array by done. lia.
  - by apply size_type_array.
Qed.

Lemma forward_copied_length m : copied m o n -> size_given_klass g k m o = n /\ length_in m.
Proof using Hg Hk Hlen.
  intros Hc. pose proof forward_array_words as Hw. pose proof length_start as Hl. unfold length_in in *.
  destruct (_kind k) as [maps | |] eqn:Ek.
  { split; [| done]. pose proof Hk as Hk'. unfold klass_wf in Hk'. rewrite Ek in Hk'. destruct Hk' as (size & slow & Hlh & Hs & _).
    subst n. by rewrite (size_instance g k m o maps size slow), (size_instance g k m0 o maps size slow) by done. }
  all: assert (array_length m o = array_length m0 o) as E by (unfold array_length, length_offset; f_equal; by apply (Hc 2); lia).
  all: split; [by apply size_congr | by rewrite E].
Qed.

Lemma length_upd m x v :
  length_in m -> (forall y, 0 <= y < n -> x <> o + 8 * y) -> length_in (upd m x v).
Proof using Hg Hk Hlen.
  intros Hl Hx. pose proof forward_array_words as Hw. unfold length_in, array_length, length_offset in *.
  destruct (_kind k); [done | |]; (rewrite upd_ne; [done |]; intros E; apply (Hx 2); lia).
Qed.

Lemma initial_inv : inv (initial m0 places).
Proof using.
  constructor.
  - cbn [threads initial]. rewrite <- list_fmap_compose. apply list_fmap_id.
  - done.
  - left. split; [done |]. intros j t. cbn [threads initial]. rewrite list_lookup_fmap. intros (a & _ & ->)%fmap_Some. done.
Qed.

Lemma places_insert (l : list thread) j t p : l !! j = Some t -> th_place <$> <[j := mkThread (th_place t) p]> l = th_place <$> l.
Proof using.
  intros Hj. rewrite list_fmap_insert. cbn [th_place]. apply list_insert_id. by rewrite list_lookup_fmap, Hj.
Qed.

(** ** The steps keep it *)

Lemma before_keep s j t m p :
  before_win s -> threads s !! j = Some t -> copied m o n ->
  (forall j' t', j' <> j -> threads s !! j' = Some t' -> working (words s) t' -> working m t') ->
  working m (mkThread (th_place t) p) ->
  before_win (mkState m (<[j := mkThread (th_place t) p]> (threads s))).
Proof using.
  intros (_ & Hw) Hj Hc Ho' Hp. split; [done |]. intros j' t'. cbn [threads words].
  intros [(<- & <- & _) | (Hne & Hj')]%list_lookup_insert_Some; [done |].
  apply (Ho' j'); [congruence | done |]. by apply (Hw j').
Qed.

Lemma after_keep s j j0 v t m p :
  after_win s j0 v -> threads s !! j = Some t -> returned t = false ->
  (forall a, threads s !! j0 = Some (mkThread (Some a) (Ret true a)) -> copied (words s) a n -> copied m a n) ->
  m o = words s o -> length_in m ->
  late v (mkThread (th_place t) p) -> (forall v', p <> Ret true v') ->
  after_win (mkState m (<[j := mkThread (th_place t) p]> (threads s))) j0 v.
Proof using.
  intros ((a & Ha & Hv & Hc) & Hm & _ & Hl) Hj Hr Hk1 Hmo Hlen' Hp Hnw.
  assert (j0 <> j) as Hne by (intros ->; rewrite Hj in Ha; injection Ha as ->; done).
  split; [| split; [cbn [words]; congruence | split; [done |]]].
  - exists a. cbn [threads words]. rewrite list_lookup_insert_ne by done. split; [done |]. split; [done |].
    intros [a' ->]. cbn [default] in Hv. subst v. by apply Hk1; [| apply Hc].
  - cbn [threads]. intros j' t' [(<- & <- & _) | (_ & Hj')]%list_lookup_insert_Some; [| by apply Hl].
    split; [done |]. intros v' E. by destruct (Hnw v').
Qed.

Lemma inv_keep s j t m p :
  inv s -> threads s !! j = Some t ->
  (forall x, x <> o -> (forall a i, th_place t = Some a -> 0 <= i < n -> x <> a + 8 * i) -> m x = words s x) ->
  (before_win (mkState m (<[j := mkThread (th_place t) p]> (threads s)))
   \/ exists j0 v, after_win (mkState m (<[j := mkThread (th_place t) p]> (threads s))) j0 v) ->
  inv (mkState m (<[j := mkThread (th_place t) p]> (threads s))).
Proof using Hg Hk Hlen.
  intros Hi Hj Hm Hph. pose proof n_pos. constructor; [| | done].
  - cbn [threads]. rewrite places_insert by done. apply (iv_places _ Hi).
  - cbn [words]. intros x Hx Hxp. rewrite Hm.
    + by apply (iv_rest _ Hi).
    + intros ->. apply (Hx 0); lia.
    + intros a i Ha Hi'. apply (Hxp j a i); [| done]. rewrite <- Ha. by apply (place_of s).
Qed.

Lemma header_before s : before_win s -> words s o = m0 o.
Proof using Hg Hk Hlen.
  intros (Hc & _). pose proof n_pos. specialize (Hc 0 ltac:(lia)). by rewrite Z.mul_0_r, Z.add_0_r in Hc.
Qed.

Lemma header_after s j v :
  inv s -> after_win s j v ->
  is_marked (words s o) = true /\ decode_pointer UseBiasedLocking (words s o) = v.
Proof using Ho Hplace.
  intros Hi ((a & Ha & -> & _) & -> & _). apply forward_codec. apply (target_oop s j _ Hi Ha).
Qed.

Lemma quiet_keep s j t p :
  inv s -> threads s !! j = Some t -> returned t = false ->
  (before_win s -> working (words s) t -> working (words s) (mkThread (th_place t) p)) ->
  (forall j0 v, after_win s j0 v -> late v t -> late v (mkThread (th_place t) p) /\ forall v', p <> Ret true v') ->
  inv (mkState (words s) (<[j := mkThread (th_place t) p]> (threads s))).
Proof using Hg Hk Hlen.
  intros Hi Hj Hr Hb Ha. apply inv_keep; [done.. |]. destruct (iv_phase _ Hi) as [Hw | (j0 & v & Hw)].
  - left. apply before_keep; [done | done | apply Hw | done |]. apply Hb; [done |]. by apply (proj2 Hw j).
  - right. exists j0, v. pose proof Hw as (_ & _ & Hl & Hlate).
    destruct (Ha j0 v Hw (proj1 (Hlate j t Hj))) as [Hp Hnw]. by apply after_keep.
Qed.

Lemma working_upd m t x v :
  working m t -> (forall a y, th_place t = Some a -> 0 <= y < n -> x <> a + 8 * y) -> working (upd m x v) t.
Proof using.
  unfold working. destruct (th_pc t) as [| | mark size i | mark | |]; [done | done | | | done | done].
  - intros (-> & -> & Hi & a & Ha & Hc) Hx. split; [done |]. split; [done |]. split; [done |]. exists a. split; [done |].
    apply copied_upd; [done |]. intros y Hy. apply (Hx a y Ha). lia.
  - intros (-> & Hc) Hx. split; [done |]. intros a Ha. apply copied_upd; [by apply Hc |]. intros y. by apply Hx.
Qed.

(** The word a thread is copying, and where it is copied. *)
Lemma copy_place s j t mark size i a :
  inv s -> threads s !! j = Some t -> th_pc t = Copy mark size i -> th_place t = Some a -> i < size ->
  0 <= i < n /\ (forall y, 0 <= y < n -> a + 8 * i <> o + 8 * y)
  /\ forall j' t' a' y, j' <> j -> threads s !! j' = Some t' -> th_place t' = Some a' -> 0 <= y < n -> a + 8 * i <> a' + 8 * y.
Proof using Hplace Hapart.
  intros Hi Hj Hpc Ha Hlt. pose proof (place_of s j t Hi Hj) as Hp. rewrite Ha in Hp.
  destruct (Hplace j a Hp) as [Hoop Hoff].
  assert (0 <= i < n) as Hin.
  { destruct (iv_phase _ Hi) as [(_ & Hw) | (j0 & v & _ & _ & _ & Hl)].
    - specialize (Hw j t Hj). unfold working in Hw. rewrite Hpc in Hw. lia.
    - destruct (Hl j t Hj) as [Hlt' _]. unfold late in Hlt'. rewrite Hpc in Hlt'. lia. }
  split; [done |]. split; [lia |]. intros j' t' a' y Hne Hj' Ha' Hy.
  pose proof (place_of s j' t' Hi Hj') as Hp'. rewrite Ha' in Hp'. pose proof (Hapart j' j a' a Hp' Hp Hne). lia.
Qed.

Lemma copy_keep s j t mark size i a :
  inv s -> threads s !! j = Some t -> th_pc t = Copy mark size i -> th_place t = Some a -> i < size ->
  inv (mkState (upd (words s) (a + 8 * i) (words s (o + 8 * i)))
         (<[j := mkThread (th_place t) (Copy mark size (i + 1))]> (threads s))).
Proof using Hg Hk Hlen Hplace Hapart.
  intros Hi Hj Hpc Ha Hlt. destruct (copy_place s j t mark size i a Hi Hj Hpc Ha Hlt) as (Hin & Hoy & Hother).
  apply inv_keep; [done | done | |].
  { intros x _ Hx. apply upd_ne. by apply (Hx a i). }
  destruct (iv_phase _ Hi) as [Hw | (j0 & v & Hw)].
  - left. apply before_keep; [done | done | apply copied_upd; [apply Hw | done] | |].
    + intros j' t' Hne Hj' Ht'. apply working_upd; [done |]. intros a' y. by apply (Hother j').
    + pose proof (proj2 Hw j t Hj) as Ht. unfold working in Ht |- *. rewrite Hpc in Ht. cbn [th_pc th_place].
      destruct Ht as (-> & -> & _ & a' & Ha' & Hc). rewrite Ha in Ha'. injection Ha' as <-.
      split; [done |]. split; [done |]. split; [lia |]. exists a. split; [done |]. intros y Hy.
      destruct (decide (y = i)) as [-> | Hyi]; [rewrite upd_eq; by apply (proj1 Hw) |].
      rewrite upd_ne by lia. apply Hc. lia.
  - right. exists j0, v. pose proof Hw as (_ & _ & Hl & Hlate). apply after_keep; [done | done | | | | | |].
    + unfold returned. by rewrite Hpc.
    + intros a' Ha' Hc. apply copied_upd; [done |]. intros y.
      assert (j0 <> j) as Hne by (intros ->; rewrite Hj in Ha'; injection Ha' as ->; done).
      by apply (Hother j0 _ a' y Hne Ha').
    + apply upd_ne. specialize (Hoy 0). lia.
    + by apply length_upd.
    + destruct (Hlate j t Hj) as [Hlt' _]. unfold late in Hlt' |- *. rewrite Hpc in Hlt'. cbn [th_pc th_place].
      destruct Hlt' as (-> & Hi' & Hs & Hsome). split; [done |]. split; [lia |]. by split.
    + done.
Qed.

(** The exchange succeeds. *)
Lemma win_keep s j t :
  inv s -> threads s !! j = Some t -> th_pc t = Exchange (m0 o) -> words s o = m0 o ->
  inv (mkState (upd (words s) o (encode_pointer_as_mark (default o (th_place t))))
         (<[j := mkThread (th_place t) (Ret true (default o (th_place t)))]> (threads s))).
Proof using UseBiasedLocking Hg Hk Hlen Ho Hfresh Hplace.
  intros Hi Hj Hpc Hmo. apply inv_keep; [done | done | by intros x Hx _; apply upd_ne |].
  destruct (iv_phase _ Hi) as [Hw | (j0 & v & Hw)].
  2: { destruct (header_after s j0 v Hi Hw) as [Hm _]. congruence. }
  right. exists j, (default o (th_place t)). pose proof (place_of s j t Hi Hj) as Hp.
  pose proof n_pos. split; [| split; [apply upd_eq | split]].
  - exists (th_place t). cbn [threads words]. rewrite list_lookup_insert_eq by (by eapply lookup_lt_Some).
    split; [done |]. split; [done |]. intros [a Ha]. rewrite Ha in *. replace (default o (Some a)) with a by done.
    pose proof (proj2 Hw j t Hj) as Ht. unfold working in Ht. rewrite Hpc in Ht. apply copied_upd; [by apply Ht |].
    destruct (Hplace j a Hp) as [_ Hoff]. intros y Hy. lia.
  - destruct (forward_copied_length _ (proj1 Hw)) as [_ Hl]. cbn [words]. unfold length_in, array_length, length_offset in *.
    by rewrite upd_ne by lia.
  - cbn [threads]. intros j' t' [(<- & <- & _) | (Hne & Hj')]%list_lookup_insert_Some; [done |].
    pose proof (proj2 Hw j' t' Hj') as Ht. unfold working, late in *.
    destruct (th_pc t') as [| | mark size i | mark | |]; try done.
    + destruct Ht as (-> & -> & Hi' & a & Ha & _). split; [| done]. split; [done |]. split; [done |]. split; [done |]. by exists a.
    + by destruct Ht.
Qed.

Lemma thread_keep s j t m p :
  inv s -> threads s !! j = Some t -> thread_step (words s) (th_place t) (th_pc t) = Some (m, p) ->
  inv (mkState m (<[j := mkThread (th_place t) p]> (threads s))).
Proof using Hg Hk Hlen Ho Hfresh Hplace Hapart.
  intros Hi Hj Hst. assert (returned t = false) as Hr by (unfold returned; destruct (th_pc t); done).
  destruct (th_pc t) as [| mark | mark size i | mark | |] eqn:Hpc; cbn [thread_step] in Hst; [| | | | | done].
  - destruct (is_marked (words s o)) eqn:Hm; injection Hst as <- <-; (apply quiet_keep; [done.. | |]).
    + intros Hw. rewrite (header_before s Hw) in Hm. congruence.
    + intros j0 v Hw _. split; [by apply (header_after s j0) | done].
    + intros Hw _. by apply header_before.
    + intros j0 v Hw _. destruct (header_after s j0 v Hi Hw). congruence.
  - injection Hst as <- <-. apply quiet_keep; [done.. | |]; unfold working, late; rewrite Hpc; cbn [th_pc th_place].
    + intros Hw ->. destruct (forward_copied_length _ (proj1 Hw)) as [Hs _]. pose proof n_pos.
      destruct (th_place t) as [a |] eqn:Ha; [| by split]. split; [done |]. split; [done |]. split; [lia |].
      exists a. split; [done |]. intros y Hy. lia.
    + intros j0 v (_ & _ & Hl & _) ->. pose proof (size_small _ Hl).
      destruct (th_place t) as [a |]; [| done]. split; [| done]. split; [done |]. split; [lia |]. split; [lia | done].
  - destruct (th_place t) as [a |] eqn:Ha; cbn in Hst; [| done].
    destruct (Z.ltb_spec i size); injection Hst as <- <-; rewrite <- Ha; [by apply copy_keep |].
    apply quiet_keep; [done.. | |]; unfold working, late; rewrite Hpc; cbn [th_pc th_place].
    + intros _ (-> & -> & Hi' & a' & Ha' & Hc). split; [done |]. intros a'' Ha''.
      replace a'' with a' by congruence. by replace n with i by lia.
    + intros j0 v _ (-> & _). done.
  - assert (mark = m0 o) as ->.
    { destruct (iv_phase _ Hi) as [Hw | (j0 & v & _ & _ & _ & Hw)].
      - pose proof (proj2 Hw j t Hj) as Ht. unfold working in Ht. rewrite Hpc in Ht. apply Ht.
      - destruct (Hw j t Hj) as [Ht _]. unfold late in Ht. by rewrite Hpc in Ht. }
    destruct (Z.eqb_spec (words s o) (m0 o)) as [E | E]; injection Hst as <- <-; [by apply win_keep |].
    apply quiet_keep; [done.. | |].
    + intros Hw. by rewrite (header_before s Hw) in E.
    + done.
  - destruct (is_marked (words s o)) eqn:Hm; [| done]. injection Hst as <- <-. apply quiet_keep; [done.. | |].
    + intros Hw. rewrite (header_before s Hw) in Hm. congruence.
    + intros j0 v Hw _. split; [by apply (header_after s j0) | done].
Qed.

(** The length of the old copy is overwritten, while the array is scanned in pieces. *)
Lemma chunk_keep s start :
  inv s -> is_marked (words s o) = true -> _kind k = ObjArray -> 0 <= start <= array_length m0 o ->
  inv (mkState (upd (words s) (o + length_offset) (set_length_word (words s (o + length_offset)) start)) (threads s)).
Proof using Hg Hk Hlen Ho Hfresh Hplace.
  intros Hi Hm Ek Hst. pose proof forward_array_words as Hw3. rewrite Ek in Hw3. unfold length_offset in *.
  constructor; [apply (iv_places _ Hi) | |]; cbn [words].
  { intros x Hx Hxp. rewrite upd_ne; [by apply (iv_rest _ Hi) |]. intros ->. apply (Hx 2); lia. }
  destruct (iv_phase _ Hi) as [Hw | (j0 & v & (a & Ha & Hv & Hc) & He & Hl & Hlate)].
  { rewrite (header_before s Hw) in Hm. congruence. }
  right. exists j0, v. split; [| split; [| split; [| done]]]; cbn [words].
  - exists a. split; [done |]. split; [done |]. intros [a' ->]. replace (default o (Some a')) with a' in Hv by done. subst v.
    apply copied_upd; [by apply Hc |]. destruct (Hplace j0 a' (place_of s j0 _ Hi Ha)) as [_ Hoff]. lia.
  - by rewrite upd_ne by lia.
  - pose proof Hlen as Hlw. unfold length_in, length_wf, array_length, length_offset in *. rewrite Ek in *.
    rewrite upd_eq, ScavengeBDA.set_length_read. change (2 ^ 27) with 134217728 in Hlw.
    rewrite swrap_small; change (2 ^ (32 - 1)) with 2147483648; lia.
Qed.

Lemma reach_inv s : rtc (step (array_length m0 o)) (initial m0 places) s -> inv s.
Proof using Hg Hk Hlen Ho Hfresh Hplace Hapart.
  intros Hr. apply (rtc_ind_r (fun s => inv s) _ initial_inv) with (2 := Hr).
  intros x y _ Hxy Hx. destruct Hxy; [by eapply thread_keep | by apply chunk_keep].
Qed.

(** How many more steps the call can take. *)
Definition work (size : Z) (t : thread) : Z :=
  match th_pc t with
  | Start => size + 5 | Size _ => size + 4 | Copy _ size i => size - i + 3 | Exchange _ => 2 | Lost => 1 | Ret _ _ => 0
  end.

Lemma thread_progress s j t :
  inv s -> threads s !! j = Some t -> returned t = false ->
  exists m p, thread_step (words s) (th_place t) (th_pc t) = Some (m, p) /\ 0 <= work n (mkThread (th_place t) p) < work n t.
Proof using Hg Hk Hlen Ho Hplace.
  intros Hi Hj Hr. pose proof n_pos. unfold work, returned in *. cbn [th_pc].
  destruct (th_pc t) as [| mark | mark size i | mark | |] eqn:Hpc; cbn [thread_step]; [| | | | | done].
  - destruct (is_marked (words s o)); eexists _, _; (split; [reflexivity |]); cbn iota; lia.
  - assert (2 <= size_given_klass g k (words s) o <= n).
    { apply size_small. destruct (iv_phase _ Hi) as [Hw | (j0 & v & _ & _ & Hl & _)]; [| done].
      by apply forward_copied_length, Hw. }
    eexists _, _. split; [reflexivity |]. destruct (th_place t); cbn iota; lia.
  - assert (0 <= i <= size /\ is_Some (th_place t)) as (Hin & [a Ha]).
    { destruct (iv_phase _ Hi) as [(_ & Hw) | (j0 & v & _ & _ & _ & Hl)].
      - specialize (Hw j t Hj). unfold working in Hw. rewrite Hpc in Hw. destruct Hw as (_ & -> & Hi' & a & Ha & _).
        split; [lia | by exists a].
      - destruct (Hl j t Hj) as [Hlt' _]. unfold late in Hlt'. rewrite Hpc in Hlt'. tauto. }
    rewrite Ha. cbn [mbind option_bind]. destruct (Z.ltb_spec i size); eexists _, _; (split; [reflexivity |]); cbn iota; lia.
  - destruct (words s o =? mark); eexists _, _; (split; [reflexivity |]); cbn iota; lia.
  - destruct (iv_phase _ Hi) as [(_ & Hw) | (j0 & v & Hw)].
    + specialize (Hw j t Hj). unfold working in Hw. by rewrite Hpc in Hw.
    + rewrite (proj1 (header_after s j0 v Hi Hw)). eexists _, _. split; [reflexivity |]. cbn iota. lia.
Qed.

End Race.

(** ** The race *)

(** The object of the class [k] at [o] has not been forwarded, and the memory given to the threads is
    aligned, apart from the object, and not shared. *)
Record setup (g : config) (k : Klass) (o : Z) (m0 : Z -> Z) (places : list (option Z)) : Prop := {
  su_aligned : MinObjAlignment g = 1;
  su_klass : klass_wf k;
  su_length : length_wf k (array_length m0 o);
  su_oop : is_oop o;
  su_fresh : is_marked (m0 o) = false;
  su_place : forall j a, places !! j = Some (Some a) ->
    is_oop a /\ (a + 8 * size_given_klass g k m0 o <= o \/ o + 8 * size_given_klass g k m0 o <= a);
  su_apart : forall j j' a a', places !! j = Some (Some a) -> places !! j' = Some (Some a') -> j <> j' ->
    a + 8 * size_given_klass g k m0 o <= a' \/ a' + 8 * size_given_klass g k m0 o <= a
}.

(** The call [j] gave the object its new address [v], and every call that has returned returned it; the
    copy, if the call had room for one, holds the words of the object. *)
Definition won_by (g : config) (k : Klass) (o : Z) (m0 : Z -> Z) (s : state) (j : nat) (v : Z) : Prop :=
  (exists a, threads s !! j = Some (mkThread a (Ret true v)) /\ v = default o a
     /\ (is_Some a -> copied o m0 (words s) v (size_given_klass g k m0 o)))
  /\ is_marked (words s o) = true
  /\ (forall b, decode_pointer b (words s o) = v)
  /\ forall j' t won v', threads s !! j' = Some t -> th_pc t = Ret won v' -> v' = v /\ (won = true -> j' = j).

(** C5. Any number of threads promote the same object, each to a place of its own or to none, in any
    interleaving of their accesses to memory, while the length of an array that was forwarded
    is overwritten.  Until one of them exchanges the header the object is as it was and no call has
    returned.  From then on the header leads to the copy of that one call, or to the object itself
    when it had no room, this copy holds the words the object had, also if others read a length
    that was overwritten; every call that returns returns this address, and no other call wins.
    Memory outside the object and the places is not written.  A call that has not returned can
    take a step, which leaves it fewer to take: none finds a lost exchange without a forwarded
    header. *)
Theorem forward_race g k b o m0 places s :
  setup g k o m0 places -> rtc (step g k b o (array_length m0 o)) (initial m0 places) s ->
  ((copied o m0 (words s) o (size_given_klass g k m0 o) /\ forall j t, threads s !! j = Some t -> returned t = false)
   \/ exists j v, won_by g k o m0 s j v)
  /\ (forall x, (forall i, 0 <= i < size_given_klass g k m0 o -> x <> o + 8 * i) ->
       (forall j a i, places !! j = Some (Some a) -> 0 <= i < size_given_klass g k m0 o -> x <> a + 8 * i) ->
       words s x = m0 x)
  /\ forall j t, threads s !! j = Some t -> returned t = false ->
     exists m p, thread_step g k b o (words s) (th_place t) (th_pc t) = Some (m, p)
       /\ 0 <= work (size_given_klass g k m0 o) (mkThread (th_place t) p) < work (size_given_klass g k m0 o) t.
Proof.
  intros [Hg Hk Hlen Ho Hfresh Hplace Hapart] Hr. assert (inv g k o m0 places s) as Hi by (by eapply reach_inv).
  split; [| split; [by apply (iv_rest g k o m0 places s Hi) | intros j t Hj Ht; by eapply (thread_progress g k b o m0 places)]].
  destruct (iv_phase g k o m0 places s Hi) as [(Hc & Hw) | (j & v & Hw)]; [left | right].
  - split; [done |]. intros j t Hj. specialize (Hw j t Hj). unfold working, returned in *. by destruct (th_pc t).
  - exists j, v. pose proof (fun b => header_after g k b o m0 places Ho Hplace s j v Hi Hw) as Hh.
    split; [apply Hw | split; [apply (Hh b) | split; [apply Hh |]]].
    destruct Hw as (_ & _ & _ & Hl). intros j' t won v' Hj' Hpc. destruct (Hl j' t Hj') as [Hlt Hwin].
    unfold late in Hlt. rewrite Hpc in Hlt. split; [done |]. intros ->. by apply (Hwin v').
Qed.

(** ** Interleavings *)

(** A choice of the steps: a thread, or a length. *)
Fixpoint run (g : config) (k : Klass) (b : bool) (o length : Z) (sched : list (nat + Z)) (s : state) : option state :=
  match sched with
  | [] => Some s
  | inl j :: sched =>
      t ← threads s !! j;
      '(m, p) ← thread_step g k b o (words s) (th_place t) (th_pc t);
      run g k b o length sched (mkState m (<[j := mkThread (th_place t) p]> (threads s)))
  | inr start :: sched =>
      match _kind k with
      | ObjArray =>
          if is_marked (words s o) && (0 <=? start) && (start <=? length) then
            run g k b o length sched
              (mkState (upd (words s) (o + length_offset) (set_length_word (words s (o + length_offset)) start)) (threads s))
          else None
      | _ => None
      end
  end.

Lemma run_rtc g k b o length sched : forall s s',
  run g k b o length sched s = Some s' -> rtc (step g k b o length) s s'.
Proof.
  induction sched as [| [j | start] sched IH]; intros s s' Hr; cbn [run] in Hr.
  - injection Hr as ->. done.
  - apply bind_Some in Hr as (t & Hj & Hr). apply bind_Some in Hr as ([m p] & Hst & Hr).
    eapply rtc_l; [by eapply step_thread | by apply IH].
  - destruct (_kind k) eqn:Ek; [done | | done].
    destruct (is_marked (words s o)) eqn:Hm; [| done]. destruct (Z.leb_spec 0 start); [| done].
    destruct (Z.leb_spec start length); [| done]. eapply rtc_l; [by apply (step_chunk g k b o length s start) | by apply IH].
Qed.

(** An array of two references; the second thread wins, and the first reads the length after it was
    overwritten and copies one reference less. *)
Definition example_klass : Klass := mkKlass (array_layout_helper lh_array_tag_obj_value 24 12 3) ObjArray 1.
Definition example_words (x : Z) : Z :=
  if x =? 800 then 1 else if x =? 808 then 72 else if x =? 816 then 2 else if x =? 824 then 960 else if x =? 832 then 976 else 0.
Definition example_config : config := mkConfig false 1.
Definition example_sched : list (nat + Z) :=
  [inl 0%nat] ++ replicate 9 (inl 1%nat) ++ [inr 1] ++ replicate 8 (inl 0%nat).
Definition example_end : state :=
  default (initial example_words []) (run example_config example_klass false 800 2 example_sched
    (initial example_words [Some 1600; Some 2400])).

Lemma forward_race_witness :
  (th_pc <$> threads example_end) = [Ret false 2400; Ret true 2400]
  /\ exists j v, won_by example_config example_klass 800 example_words example_end j v.
Proof.
  split; [vm_compute; reflexivity |].
  destruct (forward_race example_config example_klass false 800 example_words [Some 1600; Some 2400] example_end) as [[[_ Hn] | Hw] _].
  - constructor.
    + reflexivity.
    + reflexivity.
    + vm_compute. split; discriminate.
    + vm_compute. split; [split; [discriminate | reflexivity] | reflexivity].
    + reflexivity.
    + intros [| [| j]] a [= <-]; vm_compute; (split; [split; [split; [discriminate | reflexivity] | reflexivity] | right; discriminate]).
    + intros [| [| j]] [| [| j']] a a' [= <-] [= <-] Hne; first [congruence | vm_compute; first [left; discriminate | right; discriminate]].
  - apply (run_rtc _ _ _ _ _ example_sched). vm_compute. reflexivity.
  - specialize (Hn 0%nat). vm_compute in Hn. specialize (Hn _ eq_refl). discriminate.
  - exact Hw.
Defined.

End ForwardPar.
